(* ===== verification/_CoqProject ===== *)
-Q . S2P
Prelude.v
CxxString.v
Str.v
Utils.v
Io.v
JsonValue.v
JsonWriter.v
JsonReader.v
JsonCompare.v
JsonTypes.v
JsonPath.v
JsonReaderProps.v
JsonGrammar.v
JsonRoundTrip.v
JsonStyled.v
JsonStyledProps.v
HttpParser.v
HttpParserProps.v
HttpParserSplit.v
HttpRequest.v
ServerH.v
Dispatch.v
DispatchSpec.v
DispatchStream.v
Logger.v
Locker.v
Race.v
WorkerThread.v
WorkerPool.v
WorkerSystem.v
WorkerProps.v
Settings.v
Signals.v
Server.v
ServerProps.v
ServerStream.v
Rune.v
CharClass.v
Regexp.v
Walker.v
RegexpSem.v
Simplify.v
Prog.v
Compile.v
CompileSem.v
CompileFrags.v
CompileMethods.v
RuneRanges.v
CompileRunes.v
CompileSpans.v
CompileNodes.v
Optimize.v
SparseArray.v
CompileOps.v
Marks.v
Compiled.v
BitState.v
CompileProps.v
BitStateProps.v
BitStateSearch.v
