(* ===== verification/Prelude.v ===== *)
(** * xaprun: a verification development

    xaprun is a search server: it reads requests from its clients, hands them
    to worker threads for indexing and searching, and writes their responses.
    Here its C++ sources, and of the libraries they bring along jsoncpp, which
    the responses go through, and http-parser and the compiler of re2 with
    one of its engines, which nothing calls yet, are translated into executable definitions, and the
    theorems say what the code does.

    ** The program and the files

    The serving thread ([ServerInternal::mainloop], src/src/server/server.cc)
    waits in [select], reads from the connections into their buffers and asks
    the dispatcher for requests in them.  The dispatcher
    (src/src/xappy/dispatch.cc) finds the frame of a request, routes it by its
    target, and answers it, or sends it to a worker of a group through the
    pool (src/src/server/workerpool.cc).  A worker
    (src/src/server/worker.cc, src/src/xappy/searchworker.cc and
    indexerworker.cc) waits for messages in its thread and queues responses
    for the serving thread, which it wakes with a byte on the nudge socket.

    - Prelude: bytes, machine integers, the error and effect monads ([outcome]
      for code that may fault, [eff] for code that makes calls), tactics,
      hints, lemmas on lists that the other files share.
    - CxxString: [std::string]'s [find], [substr] and so on.
    - Str: src/ext/str.cc, numbers to text.
    - Utils: src/src/utils.cc, url quoting, system errors.
    - Io: src/src/server/io_wrappers.cc over scripts of the kernel's answers.
    - JsonValue, JsonWriter, JsonStyled, JsonReader: libs/jsoncpp, the values,
      FastWriter, the two styled writers and Reader.  JsonCompare: the
      comparisons of values.  JsonPath: [Json::Path].  JsonTypes: well-formed
      values.  JsonReaderProps: parsing ends.  JsonGrammar: the texts of a
      value, with any spaces, and that Reader reads them.  JsonRoundTrip,
      JsonStyledProps: what the writers write is such a text, so it is read
      back.
    - HttpParser: libs/http-parser, the parser state by state.
      HttpParserProps: its invariant.  HttpParserSplit: data in pieces.
      HttpRequest: from the text of requests to the calls of the callbacks.
    - ServerH: server.h, messages and the interface of dispatchers, workers
      and the server, as type classes with laws.
    - Dispatch: dispatch.cc.  DispatchSpec: the protocol of docs/protocol.rst
      as functions on bodies, and the refinement.  DispatchStream: streams of
      requests that arrive in pieces.
    - Logger, Locker, Settings, Signals: the files of these names (Settings
      has cli.cc too).
    - Race: the count of a worker's messages, without the lock and with it.
    - WorkerThread: the thread object, and where its thread stands in
      [do_run].  WorkerPool: the operations of the pool on a heap of thread
      objects.  WorkerSystem: the threads' steps, interleaved with the serving
      thread ([step], [reachable]).  WorkerProps: theorems on all
      interleavings.
    - Server: server.cc, a round of the main loop over the kernel's answers.
      ServerProps: theorems on any number of rounds.  ServerStream: the
      server with its dispatcher, from a client's bytes to what it reads.
    - Rune: re2's util/rune.cc, UTF-8.  CharClass: the class of this name of
      re2/regexp.cc.  Regexp: the trees and their constructors.  Walker:
      walker-inl.h, the traversal with its own stack, and the walkers for
      captures.  RegexpSem: what a regexp matches, the reference for
      everything that follows.  Simplify: simplify.cc.
    - Prog: prog.h and prog.cc, instructions and byte classes, and what a
      program does ([steps]).  Optimize: [Prog::Optimize].  SparseArray:
      util/sparse_array.h, of which the optimizer's queue is one.
    - Compile: compile.cc up to [IsAnchorEnd]; Compiled: [Compiler::Compile].
      CompileSem: patch lists and runs of fragments.  CompileFrags: the
      invariant of the compiler and what is said of a fragment.
      CompileMethods: the methods that make fragments.  RuneRanges: how ranges
      of runes split into ranges of bytes.  CompileRunes, CompileSpans,
      CompileNodes: ranges of runes, reversed texts, [PostVisit].  CompileOps:
      where match instructions are and when the compiler fails.  CompileProps:
      whole programs.
    - BitState: bitstate.cc, the search that backtracks.  Marks: what the
      optimizer's marks say of an alternative.  BitStateProps: the search on any
      program it may be given.  BitStateSearch: on a compiled one.

    ** How the code is represented

    A class is a record of its members, a method a definition of its name; a
    [std::string] is a list of bytes, an iterator or a pointer into a buffer an
    offset.  Integers are [Z] with the wrap-around of their width written out
    ([uwrap], [swrap]); an overflow of a signed one, an index out of bounds, a
    failed assertion, the use of a deleted object are the faults of
    [outcome], so that a theorem that a function returns excludes them.  What
    the kernel, the C library or a compiler's choice decides is a parameter:
    scripts of answers to system calls, [strerror], [getopt_long]'s results,
    [sscanf], the address of a new object, the callbacks of the HTTP parser.

    The classes [Dispatcher] and [DispatcherLaws] of ServerH are what the main
    loop and the pool rely on; Dispatch makes the instance for
    XappyDispatcher and discharges the laws.

    ** What is shown

    - Requests (DispatchSpec, DispatchStream, Dispatch): on any bytes the
      dispatcher returns without a fault; a body is answered as the routing
      table of the protocol says; a stream of frames is dispatched frame by
      frame in order however it is cut into reads; where it is not: line
      breaks in payloads, blanks before requests, the length of a fatal error.
    - The pool (WorkerProps): over all interleavings, no message is lost,
      duplicated or reordered, the counts of outstanding messages agree with
      the threads', nothing faults while serving, a worker answers a message,
      stopping an idle pool joins and deletes everything; what goes wrong when
      it is stopped while a worker works.
    - The server (ServerProps): what a client reads is what was queued for it,
      in order; rounds do not fault; how the loop ends.
    - The server and the dispatcher together (ServerStream): a client's
      requests are handled once each and in order, however its bytes arrive,
      and it reads the responses to them, merged with those of the workers.
    - Jsoncpp (JsonTypes, JsonReaderProps, JsonRoundTrip, JsonStyledProps,
      JsonWriter): values stay well-formed; Reader returns on every document
      without a number of exactly 32 characters, and what it overruns there;
      the text of every writer is read back as the value, FastWriter's is one
      line.  Values without NaN are ordered (JsonCompare), though [<=] is the
      wrong way round; what is put at a path is found there (JsonPath), but
      not by [resolve] with a default value.
    - The HTTP parser (HttpParserProps, HttpParserSplit, HttpRequest): its
      invariant, no fault but the overflow of a length; the same calls and the
      same parser however a text is cut; the text of requests gives their
      calls.
    - Regular expressions (CompileProps): the compiler returns on every
      well-formed regexp and any memory, and the program, unless it has used
      up its instructions, finds exactly what the regexp matches, forwards or
      reversed; where there is just no room, it finds nothing (a bug).  On the
      way there: UTF-8 (Rune), classes as sets of code points (CharClass),
      traversal as recursion (Walker), simplified regexps match the same
      (Simplify), ranges of runes as instructions on bytes (CompileRunes), the
      optimizer (Optimize) and the byte classes change nothing.
    - Searching (BitStateSearch): [SearchBitState] of a compiled program returns
      and finds in a text, in its context, a match exactly where the regexp has
      one, the leftmost, and the longest where that is asked for; an instruction
      that fails under an alternative hides a match (a bug).
    - Sparse arrays (SparseArray): over memory with any contents they are finite
      maps; where they are not, [resize] to fewer than their indices.
    - The smaller parts: I/O wrappers under short counts and EINTR, url
      quoting, number texts, log lines, options, signals, and where they do
      not do what their documentation says.

    ** Fuel

    Loops that are not structural take fuel and fault with [OutOfFuel]
    without it, and the theorems show that they do not: the loop of
    [http_parser_execute] has one turn for each character and one more
    ([S (length data)], [loop_ok]); the loops of Reader over tokens have
    [S (length document_)], since every token but the last takes a character
    ([parse_returns]); the nesting of values has the same bound; the loop of
    the main loop over the requests of a buffer is bounded by its length, as
    each request is erased from it.  [io_write] and the like recurse on the
    script of the kernel's answers.

    In re2 the walker turns twice for each node ([walker_is_recursion]);
    [AddRuneRangeUTF8] recurses at most ten deep ([range_depth_bound]); a
    patch list is at most twice as long as the program, which has two slots
    for each instruction ([plist]); the queue of the optimizer has each
    instruction once, and the chains of no-ops it follows end within the
    length of the program ([complete]).  [TrySearch] has five turns for each
    pair of an instruction and a position and eight more: a pair is visited
    once, and pushes few jobs ([bit_state_finds], for as many pairs as fit an
    [int]).

    ** Assumptions worth knowing

    The operations of the pool are single steps of the interleaving, as the
    code means them to be by its [ContextLocker]s.  Locker shows that a
    [ContextLocker] never locks; Race shows what is lost without the lock, and
    that an operation under a lock that is taken is one step.  The callbacks
    of the HTTP parser do not change the parser; [char] is signed.

    The nodes of regexps are trees: nothing compiled here depends on which of
    them are shared, but for [same_child], which says where the walker may take
    the same child twice.  [re_ok] is what the parser ensures: runes of the
    encoding, classes that are well-formed, operators with their number of
    children.

    ** Not modelled

    - Of libs/re2 the parser (parse.cc, tostring.cc, the tables of Unicode),
      which builds and factors its expressions in place in a store of shared
      nodes; the other engines (dfa.cc, nfa.cc, onepass.cc), which are to
      find what [accepts] says of a program too; the interface and the filters
      above them (re2.cc, prefilter.cc, filtered_re2.cc, mimics_pcre.cc);
      reference counts, allocation, logging and locks.
    - jsoncpp's own maps and batch allocators, which the [std::map] build does
      not compile; the comments and iterators of [Json::Value], so the styled
      writers have no comments to write; the stream overloads of Reader, which
      read the stream into a string first.
    - [str] of a [double] or of a pointer, which call [sprintf].
    - The Python client (src/clients): another language; the reader of
      DispatchSpec is what it does with a response.
    - What search and indexing workers do with a message beyond answering it:
      the sources have only the loop that answers. *)

From Stdlib Require Export Ascii String ZArith Lia.
From stdpp Require Export base tactics numbers list strings gmap sets sorting.

#[export] Set Warnings "-clear-no-such-hyp,-register-all".

(** ** Bytes and characters *)

(** A [std::string] or a [char] buffer is a list of characters. *)
Abbreviation bytes := (list ascii).

Declare Scope xap_scope.
Delimit Scope xap_scope with xap.

(** [B "text"] is the byte list of a C++ string literal. *)
Definition B (s : string) : bytes := String.list_ascii_of_string s.
Arguments B _%_string_scope.

(** The double quote character, which the sources write as an escape. *)
Definition dquote : ascii := "034"%char.

(** The terminator of a C string. *)
Definition NUL : ascii := "000"%char.

(** The value of a byte as an [unsigned char] ... *)
Definition uchar (c : ascii) : Z := Z.of_N (N_of_ascii c).

(** ... and as a [char], which is signed on the platforms the server is
    built for (gcc on x86). *)
Definition schar (c : ascii) : Z :=
  if decide (uchar c < 128)%Z then uchar c else (uchar c - 256)%Z.

(** Conversion of an integer to [char]: reduction modulo 2^8. *)
Definition char_of_Z (z : Z) : ascii := ascii_of_N (Z.to_N (z `mod` 256)).

(** The <ctype.h> classifiers in the C locale; a negative [char] is in none
    of the classes. *)
Definition isdigit (c : ascii) : bool := bool_decide (48 <= uchar c <= 57)%Z.
Definition isspace (c : ascii) : bool :=
  bool_decide (uchar c = 32 \/ 9 <= uchar c <= 13)%Z.
Definition isalnum (c : ascii) : bool :=
  bool_decide (48 <= uchar c <= 57 \/ 65 <= uchar c <= 90
               \/ 97 <= uchar c <= 122)%Z.

(** ** Machine integers *)

(** Two's complement bounds of a [w]-bit signed integer. *)
Definition int_min (w : Z) : Z := (- 2 ^ (w - 1))%Z.
Definition int_max (w : Z) : Z := (2 ^ (w - 1) - 1)%Z.
Definition in_int (w z : Z) : Prop := (int_min w <= z <= int_max w)%Z.
Definition in_uint (w z : Z) : Prop := (0 <= z < 2 ^ w)%Z.

#[export] Instance in_int_dec w z : Decision (in_int w z).
Proof. unfold in_int. apply _. Defined.
#[export] Instance in_uint_dec w z : Decision (in_uint w z).
Proof. unfold in_uint. apply _. Defined.

(** Reduction to the unsigned and to the signed [w]-bit range. *)
Definition uwrap (w z : Z) : Z := (z `mod` 2 ^ w)%Z.
Definition swrap (w z : Z) : Z :=
  ((z + 2 ^ (w - 1)) `mod` 2 ^ w - 2 ^ (w - 1))%Z.

(** ** Abnormal ends of a call *)

(** What ends a C++ call without a value: a thrown exception, a failed
    [assert], or behaviour the language leaves undefined. *)
Inductive fault :=
| OutOfRange                   (* std::out_of_range *)
| StopWorker (message : bytes) (* StopWorkerException *)
| AssertFailed                 (* assert() aborts the process *)
| NullDeref                    (* a null pointer is dereferenced *)
| BadAddress                   (* an object that does not exist is accessed *)
| BadIndex                     (* an array is indexed out of its bounds *)
| IntOverflow                  (* a signed operation overflows *)
| OutOfFuel.                   (* the model's bound on a loop was reached *)

Inductive outcome (A : Type) :=
| Ret (a : A)
| Throw (f : fault).
Arguments Ret {A} a.
Arguments Throw {A} f.

#[export] Instance fault_eq_dec : EqDecision fault.
Proof. solve_decision. Defined.
#[export] Instance outcome_eq_dec {A} `{EqDecision A} : EqDecision (outcome A).
Proof. solve_decision. Defined.

#[export] Instance outcome_ret : MRet outcome := @Ret.
#[export] Instance outcome_bind : MBind outcome := fun A B f m =>
  match m with Ret a => f a | Throw e => Throw e end.

Definition from_option_or {A} (f : fault) (o : option A) : outcome A :=
  match o with Some a => Ret a | None => Throw f end.

(** A condition the code asserts. *)
Definition assert_that (P : Prop) `{Decision P} : outcome unit :=
  if decide P then Ret () else Throw AssertFailed.

(** ** Calls that emit events *)

(** [eff E A]: a call that emits events of type [E], in order, and then ends
    with a value or abnormally; the events before a fault are kept. *)
Definition eff (E A : Type) : Type := (list E * outcome A)%type.

#[export] Instance eff_ret {E} : MRet (eff E) := fun A a => ([], Ret a).
#[export] Instance eff_bind {E} : MBind (eff E) := fun A B f m =>
  match m with
  | (l, Ret a) => let '(l', r) := f a in (l ++ l', r)
  | (l, Throw e) => (l, Throw e)
  end.

Definition emit {E} (e : E) : eff E unit := ([e], Ret ()).
Definition lift_outcome {E A} (o : outcome A) : eff E A := ([], o).
Definition events {E A} (m : eff E A) : list E := m.1.
Definition result {E A} (m : eff E A) : outcome A := m.2.

(** ** Calls that change a state *)

(** [st S E A]: a call on a state of type [S] that emits events of type [E].
    The state after a fault is not kept: what the server does after one does
    not depend on it (an assertion and undefined behaviour end the process,
    and [StopWorkerException] is raised before any change of state). *)
Definition st (S E A : Type) : Type := S -> eff E (A * S).

#[export] Instance st_ret {S E} : MRet (st S E) := fun A a s => mret (a, s).
#[export] Instance st_bind {S E} : MBind (st S E) := fun A B f m s =>
  '(a, s') ← m s; f a s'.

Definition get {S E} : st S E S := fun s => mret (s, s).
Definition put {S E} (s : S) : st S E unit := fun _ => mret ((), s).
Definition modify {S E} (f : S -> S) : st S E unit := fun s => mret ((), f s).
Definition tell {S E} (e : E) : st S E unit := fun s => emit e;; mret ((), s).
Definition throw {S E A} (f : fault) : st S E A := fun _ => lift_outcome (Throw f).
Definition lift_st {S E A} (o : outcome A) : st S E A := fun s =>
  a ← lift_outcome o; mret (a, s).

(** ** Tactics *)

(** Close arithmetic goals after exposing the integer ranges. *)
Ltac bounds :=
  unfold in_int, in_uint, int_min, int_max in *; try lia.

(** Case analysis on every [match] and [decide] of the goal. *)
Ltac cases :=
  repeat (case_match || case_decide || case_bool_decide); simplify_eq/=.

(** Turn boolean tests into propositions. *)
Ltac boolify :=
  repeat match goal with
  | H : bool_decide _ = true |- _ => apply bool_decide_eq_true in H
  | H : bool_decide _ = false |- _ => apply bool_decide_eq_false in H
  | H : _ && _ = true |- _ => apply andb_true_iff in H as [? ?]
  | H : _ || _ = false |- _ => apply orb_false_iff in H as [? ?]
  | H : Nat.ltb _ _ = true |- _ => apply Nat.ltb_lt in H
  | H : Nat.ltb _ _ = false |- _ => apply Nat.ltb_ge in H
  | H : Nat.leb _ _ = true |- _ => apply Nat.leb_le in H
  | H : Nat.leb _ _ = false |- _ => apply Nat.leb_gt in H
  end.

(** ** Facts on bytes *)

Lemma uchar_range c : (0 <= uchar c < 256)%Z.
Proof. unfold uchar. pose proof (N_ascii_bounded c). lia. Qed.

Lemma char_of_Z_uchar c : char_of_Z (uchar c) = c.
Proof.
  unfold char_of_Z. rewrite Z.mod_small by apply uchar_range.
  unfold uchar. by rewrite N2Z.id, ascii_N_embedding.
Qed.

Lemma uchar_char_of_Z z : uchar (char_of_Z z) = (z `mod` 256)%Z.
Proof.
  unfold uchar, char_of_Z. rewrite N_ascii_embedding; [|].
  - rewrite Z2N.id; [done|]. by apply Z.mod_pos_bound.
  - pose proof (Z.mod_pos_bound z 256). lia.
Qed.

Lemma char_of_Z_wrap z : char_of_Z (z `mod` 256) = char_of_Z z.
Proof. unfold char_of_Z. by rewrite Z.mod_mod. Qed.

Lemma uchar_inj c d : uchar c = uchar d -> c = d.
Proof. intros H. by rewrite <- (char_of_Z_uchar c), H, char_of_Z_uchar. Qed.

Lemma schar_range c : (-128 <= schar c < 128)%Z.
Proof. unfold schar. pose proof (uchar_range c). case_decide; lia. Qed.

Lemma char_of_Z_schar c : char_of_Z (schar c) = c.
Proof.
  rewrite <- (char_of_Z_uchar c) at 2. rewrite <- char_of_Z_wrap.
  rewrite <- (char_of_Z_wrap (uchar c)). f_equal. unfold schar.
  case_decide; [done|].
  replace (uchar c) with (uchar c - 256 + 1 * 256)%Z at 2 by lia.
  by rewrite Z.mod_add by lia.
Qed.

Lemma isdigit_not_space c : isdigit c = true -> isspace c = false.
Proof. unfold isdigit, isspace. intros. boolify. case_bool_decide; lia. Qed.

(** ** Case analysis over the 256 characters *)

Definition all_chars : list ascii := (fun n => ascii_of_nat n) <$> seq 0 256.

Lemma all_chars_complete c : c ∈ all_chars.
Proof.
  apply list_elem_of_fmap. exists (nat_of_ascii c). split.
  - by rewrite ascii_nat_embedding.
  - apply elem_of_seq. pose proof (nat_ascii_bounded c). lia.
Qed.

(** A decidable statement on one character is checked on all of them. *)
Lemma forall_chars (P : ascii -> bool) : forallb P all_chars = true -> forall c, P c = true.
Proof.
  intros H c. rewrite forallb_forall in H. apply H, list_elem_of_In, all_chars_complete.
Qed.

Ltac by_all_chars c := revert c; apply forall_chars; vm_compute; reflexivity.

(** ** Facts on the monads *)

Lemma eff_bind_ret {E A B'} (a : A) (f : A -> eff E B') : (mret a ≫= f) = f a.
Proof.
  unfold mbind, eff_bind, mret, eff_ret.
  destruct (f a) as [l r]; by simpl.
Qed.

Lemma eff_bind_assoc {E A B' C} (m : eff E A) (f : A -> eff E B') (g : B' -> eff E C) :
  ((m ≫= f) ≫= g) = (m ≫= fun a => f a ≫= g).
Proof.
  unfold mbind, eff_bind. destruct m as [l [a|e]]; [|done].
  destruct (f a) as [l1 [b|e]]; [|done].
  destruct (g b) as [l2 r]. by rewrite app_assoc.
Qed.

Lemma eff_bind_emit {E A} (e : E) (f : unit -> eff E A) :
  (emit e ≫= f) = (e :: events (f ()), result (f ())).
Proof. unfold mbind, eff_bind, emit. by destruct (f ()). Qed.

Lemma eff_bind_Ret_inv {E A B'} (m : eff E A) (f : A -> eff E B') b :
  result (m ≫= f) = Ret b ->
  exists a, result m = Ret a /\ result (f a) = Ret b
         /\ events (m ≫= f) = events m ++ events (f a).
Proof.
  unfold mbind, eff_bind, result, events.
  destruct m as [l [a|e]]; simpl; [|done].
  destruct (f a) as [l' r] eqn:Hf; simpl. intros ->.
  exists a. by rewrite Hf.
Qed.

(** [returns P m Q]: the call [m] ends with a value satisfying [Q] and every
    event it emits satisfies [P]. *)
Definition returns {E A} (P : E -> Prop) (m : eff E A) (Q : A -> Prop) : Prop :=
  Forall P (events m) /\ exists a, result m = Ret a /\ Q a.

Lemma returns_mret {E A} (P : E -> Prop) (a : A) (Q : A -> Prop) :
  Q a -> returns P (mret a) Q.
Proof. intros. split; [constructor|]. by exists a. Qed.

Lemma returns_emit {E} (P : E -> Prop) e (Q : unit -> Prop) :
  P e -> Q () -> returns P (emit e) Q.
Proof. intros. split; [by constructor|]. by exists (). Qed.

Lemma returns_lift {E A} (P : E -> Prop) (o : outcome A) (Q : A -> Prop) a :
  o = Ret a -> Q a -> returns P (lift_outcome o) Q.
Proof. intros -> ?. split; [constructor|]. by exists a. Qed.

Lemma returns_bind {E A B'} (P : E -> Prop) (m : eff E A) (f : A -> eff E B') Q R :
  returns P m Q -> (forall a, Q a -> returns P (f a) R) -> returns P (m ≫= f) R.
Proof.
  intros [HP (a&Ha&HQ)] Hf. destruct (Hf a HQ) as [HP' (b&Hb&HR)].
  destruct m as [l r]. simpl in *. subst r. unfold returns, mbind, eff_bind, events, result.
  destruct (f a) as [l' r'] eqn:E'. simpl in *. subst r'.
  split; [by apply Forall_app|]. by exists b.
Qed.

Lemma returns_weaken {E A} (P P' : E -> Prop) (m : eff E A) (Q Q' : A -> Prop) :
  returns P m Q -> (forall e, P e -> P' e) -> (forall a, Q a -> Q' a) -> returns P' m Q'.
Proof.
  intros [HP (a&Ha&HQ)] Hp Hq. split; [by eapply Forall_impl|]. exists a. auto.
Qed.

(** What a call that returns does, in one equation. *)
Lemma returns_pair {E A} (P : E -> Prop) (m : eff E A) Q :
  returns P m Q -> exists a, m = (events m, Ret a) /\ Q a.
Proof.
  destruct m as [l r]. intros [_ (a&Ha&HQ)]. simpl in Ha. subst r. by exists a.
Qed.

Lemma eff_bind_pair {E A B'} (l : list E) (a : A) (f : A -> eff E B') :
  ((l, Ret a) ≫= f) = (l ++ events (f a), result (f a)).
Proof. unfold mbind, eff_bind. by destruct (f a). Qed.

Lemma eff_bind_lift {E A B'} (a : A) (f : A -> eff E B') :
  (lift_outcome (Ret a) ≫= f) = f a.
Proof. unfold lift_outcome. rewrite eff_bind_pair. by destruct (f a). Qed.

(** The state monad, one operation at a time. *)
Section st_rules.
Context {S E A B' : Type}.
Implicit Types (s : S) (f : A -> st S E B').

Lemma st_get (f : S -> st S E A) s : (get ≫= f) s = f s s.
Proof. unfold mbind, st_bind, get. by rewrite eff_bind_ret. Qed.

Lemma st_modify (g : S -> S) (f : unit -> st S E A) s : (modify g ≫= f) s = f () (g s).
Proof. unfold mbind, st_bind, modify. by rewrite eff_bind_ret. Qed.

Lemma st_mret a f s : (mret a ≫= f) s = f a s.
Proof. unfold mbind, st_bind, mret, st_ret. by rewrite eff_bind_ret. Qed.

Lemma st_lift a f s : (lift_st (Ret a) ≫= f) s = f a s.
Proof. unfold mbind, st_bind, lift_st. by rewrite eff_bind_lift, eff_bind_ret. Qed.

Lemma st_tell (e : E) (f : unit -> st S E A) s :
  (tell e ≫= f) s = (e :: events (f () s), result (f () s)).
Proof.
  unfold mbind, st_bind, tell. by rewrite eff_bind_assoc, eff_bind_emit, eff_bind_ret.
Qed.

Lemma st_run (m : st S E A) f s l a s' :
  m s = (l, Ret (a, s')) -> (m ≫= f) s = (l ++ events (f a s'), result (f a s')).
Proof. intros Hm. unfold mbind, st_bind. by rewrite Hm, eff_bind_pair. Qed.

Lemma st_go (m : st S E A) f s a s' : m s = ([], Ret (a, s')) -> (m ≫= f) s = f a s'.
Proof. intros Hm. rewrite (st_run _ _ _ _ _ _ Hm). simpl. by destruct (f a s'). Qed.

Lemma st_throw e (m : st S E A) (f : A -> st S E B') s l :
  m s = (l, Throw e) -> (m ≫= f) s = (l, Throw e).
Proof. intros Hm. unfold mbind, st_bind. by rewrite Hm. Qed.

(** When a composed call returns, its parts did. *)
Lemma st_bind_inv (m : st S E A) f s l b s'' :
  (m ≫= f) s = (l, Ret (b, s'')) ->
  exists l1 a s' l2, m s = (l1, Ret (a, s')) /\ f a s' = (l2, Ret (b, s'')) /\ l = l1 ++ l2.
Proof.
  unfold mbind, st_bind. destruct (m s) as [l1 [[a s']|e]] eqn:Em; simpl; [|done].
  destruct (f a s') as [l2 r] eqn:Ef. intros [= <- ->]. by exists l1, a, s', l2.
Qed.
End st_rules.

Lemma st_assoc {S E A B' C} (m : st S E A) (f : A -> st S E B') (g : B' -> st S E C) s :
  ((m ≫= f) ≫= g) s = (m ≫= fun a => f a ≫= g) s.
Proof.
  unfold mbind, st_bind. rewrite eff_bind_assoc. destruct (m s) as [l [[a s']|e]]; [|done].
  by rewrite !eff_bind_pair.
Qed.

Lemma eff_eta {E A} (m : eff E A) : (events m, result m) = m.
Proof. by destruct m. Qed.

(** Small integers do not wrap. *)
Lemma swrap_small w z : (0 < w)%Z -> in_int w z -> swrap w z = z.
Proof.
  intros Hw [H1 H2]. unfold swrap, int_min, int_max in *.
  assert (2 ^ w = 2 * 2 ^ (w - 1))%Z as E
    by (rewrite <- Z.pow_succ_r by lia; f_equal; lia).
  rewrite Z.mod_small by (rewrite E; lia). lia.
Qed.

(** ** Facts on lists *)

Lemma drop_lookup_cons {A} (l : list A) i x :
  l !! i = Some x -> drop i l = x :: drop (S i) l.
Proof. intros. by apply drop_S. Qed.

Lemma drop_nil_ge {A} (l : list A) i : length l <= i -> drop i l = [].
Proof. apply drop_ge. Qed.

Lemma lookup_middle {A} (l1 l2 : list A) x i :
  i = length l1 -> (l1 ++ x :: l2) !! i = Some x.
Proof. intros ->. by apply list_lookup_middle. Qed.

Lemma drop_app_exact {A} (l1 l2 : list A) i :
  i = length l1 -> drop i (l1 ++ l2) = l2.
Proof. intros ->. by rewrite drop_app_length. Qed.

Lemma take_app_exact {A} (l1 l2 : list A) i :
  i = length l1 -> take i (l1 ++ l2) = l1.
Proof. intros ->. by rewrite take_app_length. Qed.

Create HintDb xap discriminated.
Create Rewrite HintDb xap.
Create Rewrite HintDb xaplen.
Create Rewrite HintDb st.
#[export] Hint Resolve uchar_range schar_range : xap.
#[export] Hint Rewrite @eff_bind_ret @eff_bind_assoc @eff_bind_emit @eff_bind_lift : xap.
#[export] Hint Rewrite @st_get @st_modify @st_mret @st_lift @st_tell @st_assoc : st.
#[export] Hint Rewrite @length_app @length_take @length_drop : xaplen.

(** Lengths of appended, taken and dropped lists, then arithmetic. *)
Ltac lens := autorewrite with xaplen in *; simpl in *; try lia.

(** Appended and prepended lists in their flat form. *)
Ltac flat_apps := repeat (progress (rewrite <- ?app_assoc; cbn [app])).
Ltac flat_apps_in H := repeat (progress (rewrite <- ?app_assoc in H; cbn [app] in H)).
