(* ===== verification/CxxString.v ===== *)
(** * The std::string operations the server uses

    [std::string] positions are [nat]; [npos] is [None].  [find],
    [find_first_of], [rfind], [substr] and [erase] follow the C++ standard on
    every argument, the out-of-range ones included. *)

From S2P Require Import Prelude.

(** First index at or after [i] whose character satisfies [p]; [l] is the
    string from index [i] on. *)
Fixpoint find_if_from (p : ascii -> bool) (l : bytes) (i : nat) : option nat :=
  match l with
  | [] => None
  | x :: l' => if p x then Some i else find_if_from p l' (S i)
  end.

(** [s.find(c, pos)] *)
Definition find (s : bytes) (c : ascii) (pos : nat) : option nat :=
  find_if_from (Ascii.eqb c) (drop pos s) pos.

(** [s.find_first_of(set, pos)] *)
Definition find_first_of (s set : bytes) (pos : nat) : option nat :=
  find_if_from (fun c => bool_decide (c ∈ set)) (drop pos s) pos.

(** [s.rfind(t, pos)]: the last index at or before [pos] where [t] occurs. *)
Fixpoint rfind (s t : bytes) (pos : nat) : option nat :=
  if decide (pos + length t <= length s /\ take (length t) (drop pos s) = t)
  then Some pos
  else match pos with 0 => None | S pos' => rfind s t pos' end.

(** [s.substr(pos, n)] throws [std::out_of_range] past the end. *)
Definition substr (s : bytes) (pos n : nat) : outcome bytes :=
  if decide (pos <= length s) then Ret (take n (drop pos s)) else Throw OutOfRange.

(** [s.substr(pos)] *)
Definition substr_from (s : bytes) (pos : nat) : outcome bytes :=
  substr s pos (length s).

(** [s.erase(0, n)] *)
Definition erase_front (s : bytes) (n : nat) : bytes := drop n s.

(** [s[i]] for [i < size()]. *)
Definition char_at (s : bytes) (i : nat) : outcome ascii :=
  from_option_or BadIndex (s !! i).

(** The C string a NUL terminated copy of [s] is. *)
Fixpoint c_str (s : bytes) : bytes :=
  match s with
  | [] => []
  | c :: s' => if decide (c = "000"%char) then [] else c :: c_str s'
  end.

(** A string without the terminator is its own C string. *)
Lemma c_str_id s : "000"%char ∉ s -> c_str s = s.
Proof.
  induction s as [|c s IH]; [done|]. intros [Hc Hs]%not_elem_of_cons. cbn.
  rewrite decide_False by (intros ->; by destruct Hc). by rewrite IH.
Qed.

(** [startswith] of utils.h: [str.rfind(prefix, 0) == 0]. *)
Definition startswith (s prefix : bytes) : bool :=
  bool_decide (rfind s prefix 0 = Some 0).

(** ** Specification of the searches *)

Lemma find_if_from_Some p l i k :
  find_if_from p l i = Some k <->
  exists pre c post, l = pre ++ c :: post /\ k = i + length pre
                  /\ p c = true /\ Forall (fun x => p x = false) pre.
Proof.
  revert i. induction l as [|x l IH]; intros i; simpl.
  - split; [done|]. intros (pre&c&post&Hl&_). by destruct pre.
  - destruct (p x) eqn:Hx.
    + split.
      * intros [= <-]. exists [], x, l. simpl. repeat split; auto; lia.
      * intros ([|y pre]&c&post&?&->&?&Hf); simplify_eq/=; [f_equal; lia|].
        inv Hf. congruence.
    + rewrite IH. split.
      * intros (pre&c&post&->&->&?&?).
        exists (x :: pre), c, post. simpl. repeat split; auto; lia.
      * intros ([|y pre]&c&post&?&->&?&Hf); simplify_eq/=; [congruence|].
        inv Hf. exists pre, c, post. repeat split; auto; lia.
Qed.

Lemma find_if_from_None p l i :
  find_if_from p l i = None <-> Forall (fun x => p x = false) l.
Proof.
  revert i. induction l as [|x l IH]; intros i; simpl; [done|].
  rewrite Forall_cons. destruct (p x) eqn:Hx; [|rewrite IH; tauto].
  split; [done|]. by intros [? _].
Qed.

Lemma find_if_from_ge p l i k : find_if_from p l i = Some k -> i <= k < i + length l.
Proof. intros (pre&c&post&->&->&_)%find_if_from_Some. lens. Qed.

Lemma eqb_false_ne c x : Ascii.eqb c x = false <-> x <> c.
Proof. rewrite Ascii.eqb_neq. naive_solver. Qed.

(** A hit of [find]: the text before it up to [pos] has no [c]. *)
Lemma find_Some_split s c pos k :
  find s c pos = Some k ->
  pos <= k < length s /\ s !! k = Some c
  /\ drop pos s = take (k - pos) (drop pos s) ++ c :: drop (S k) s
  /\ c ∉ take (k - pos) (drop pos s).
Proof.
  unfold find. intros (pre&c'&post&Hd&->&Hc&Hf)%find_if_from_Some.
  apply Ascii.eqb_eq in Hc as <-.
  assert (Hlen : length s - pos = length pre + S (length post))
    by (rewrite <- length_drop, Hd; lens).
  replace (pos + length pre - pos) with (length pre) by lia.
  rewrite Hd, take_app_length. split_and!.
  - lia.
  - lia.
  - rewrite <- lookup_drop, Hd. by apply list_lookup_middle.
  - f_equal. f_equal.
    trans (drop (S (length pre)) (drop pos s)); [|rewrite drop_drop; f_equal; lia].
    rewrite Hd, cons_middle, app_assoc, drop_app_exact; [done|lens].
  - rewrite Forall_forall in Hf. intros Hin%Hf.
    by apply eqb_false_ne in Hin.
Qed.

(** The miss of [find]. *)
Lemma find_None s c pos : find s c pos = None <-> c ∉ drop pos s.
Proof.
  unfold find. rewrite find_if_from_None, Forall_forall.
  split.
  - intros H Hin. by apply H, eqb_false_ne in Hin.
  - intros H x Hx. apply eqb_false_ne. congruence.
Qed.

(** [find] on a string whose part from [pos] on is [mid], without [c], and
    then [c]. *)
Lemma find_at s c pos mid rest :
  drop pos s = mid ++ c :: rest -> c ∉ mid ->
  find s c pos = Some (pos + length mid).
Proof.
  intros Hd Hn. unfold find. rewrite Hd. apply find_if_from_Some.
  exists mid, c, rest. split_and!; auto.
  - apply Ascii.eqb_refl.
  - apply Forall_forall. intros x Hx. apply eqb_false_ne. congruence.
Qed.

Lemma find_first_of_Some s set pos k :
  find_first_of s set pos = Some k ->
  pos <= k < length s /\ (exists c, s !! k = Some c /\ c ∈ set).
Proof.
  unfold find_first_of. intros H.
  pose proof (find_if_from_ge _ _ _ _ H) as Hk. rewrite length_drop in Hk.
  apply find_if_from_Some in H as (pre&c&post&Hd&->&Hc&_).
  apply bool_decide_eq_true in Hc.
  split; [lia|]. exists c. split; [|done].
  rewrite <- lookup_drop, Hd. by apply list_lookup_middle.
Qed.

Lemma find_first_of_None s set pos :
  find_first_of s set pos = None <-> Forall (fun c => c ∉ set) (drop pos s).
Proof.
  unfold find_first_of. rewrite find_if_from_None.
  split; intros H; (eapply Forall_impl; [exact H|]); intros c; simpl;
    rewrite bool_decide_eq_false; done.
Qed.

Lemma startswith_spec s prefix :
  startswith s prefix = true <-> prefix `prefix_of` s.
Proof.
  unfold startswith. rewrite bool_decide_eq_true. simpl. case_decide as H.
  - split; [|done]. intros _. destruct H as [_ H]. rewrite drop_0 in H.
    exists (drop (length prefix) s). by rewrite <- H at 1; rewrite take_drop.
  - split; [done|]. intros [r ->]. exfalso. apply H. rewrite drop_0, take_app_length.
    split; [lens|done].
Qed.

Lemma substr_ok s pos n : pos <= length s -> substr s pos n = Ret (take n (drop pos s)).
Proof. intros. unfold substr. by rewrite decide_True. Qed.

Lemma substr_from_ok s pos : pos <= length s -> substr_from s pos = Ret (drop pos s).
Proof.
  intros. unfold substr_from. rewrite substr_ok by done.
  rewrite take_ge; [done|]. lens.
Qed.

Lemma char_at_ok s i c : s !! i = Some c -> char_at s i = Ret c.
Proof. unfold char_at. by intros ->. Qed.

#[export] Hint Rewrite @substr_ok @substr_from_ok using (lens) : xap.
