(* ===== verification/Str.v ===== *)
(** * ext/str.cc and ext/str.h: integers to decimal text

    [tostring_unsigned] and [tostring] fill a buffer of
    [(sizeof(T) * 5 + 1) / 2] bytes (one more for the sign) from its end.
    A write below the start of the buffer is the fault [BadIndex] and the
    negation of the least integer the fault [IntOverflow], so that a
    theorem that a conversion returns excludes both. *)

From S2P Require Import Prelude.

(** The [do { ... } while (value)] loop shared by the two templates.  [p] is
    the offset of the write pointer in the buffer and [acc] the text from
    there to the buffer's end. *)
Fixpoint digits_loop (fuel : nat) (value : Z) (p : nat) (acc : bytes)
    : outcome (nat * bytes) :=
  match fuel with
  | 0 => Throw OutOfFuel
  | S fuel' =>
      let ch := Z.rem value 10 in
      let value' := Z.quot value 10 in
      match p with
      | 0 => Throw BadIndex
      | S p' =>
          let acc' := char_of_Z (ch + 48) :: acc in
          if decide (value' <> 0%Z) then digits_loop fuel' value' p' acc'
          else Ret (p', acc')
      end
  end.

(** The text of a single digit value. *)
Definition digit_text (value : Z) : bytes := [char_of_Z (48 + value)].

(** [tostring_unsigned<T>], [n = sizeof(T)]. *)
Definition tostring_unsigned (n : nat) (value : Z) : outcome bytes :=
  if decide (value < 10)%Z then Ret (digit_text value)
  else
    let size := (n * 5 + 1) / 2 in
    '(_, text) ← digits_loop (S size) value size [];
    Ret text.

(** [tostring<T>], [n = sizeof(T)]. *)
Definition tostring (n : nat) (value : Z) : outcome bytes :=
  if decide (value < 10 /\ value >= 0)%Z then Ret (digit_text value)
  else
    let negative := bool_decide (value < 0)%Z in
    value ← (if negative
             then if decide (value = int_min (8 * Z.of_nat n))
                  then Throw IntOverflow else Ret (- value)%Z
             else Ret value);
    let size := (n * 5 + 1) / 2 + 1 in
    '(p, text) ← digits_loop (S size) value size [];
    if negative
    then match p with 0 => Throw BadIndex | S _ => Ret ("-"%char :: text) end
    else Ret text.

(** The overloads of [str]. *)
Definition str_int (value : Z) : outcome bytes := tostring 4 value.
Definition str_uint (value : Z) : outcome bytes := tostring_unsigned 4 value.
Definition str_long (value : Z) : outcome bytes := tostring 8 value.
Definition str_ulong (value : Z) : outcome bytes := tostring_unsigned 8 value.
Definition str_llong (value : Z) : outcome bytes := tostring 8 value.
Definition str_ullong (value : Z) : outcome bytes := tostring_unsigned 8 value.

(** [str(bool)]: the bitwise or of ['0'] and the flag. *)
Definition str_bool (value : bool) : bytes :=
  [char_of_Z (Z.lor 48 (if value then 1 else 0))].

(** A [size_t] is an [unsigned long]. *)
Definition str_size (n : nat) : outcome bytes := str_ulong (Z.of_nat n).

(** ** Decimal numerals *)

(** The number a digit string denotes. *)
Definition decimal_value (s : bytes) : Z :=
  foldl (fun acc c => acc * 10 + (uchar c - 48))%Z 0%Z s.

(** [s] is the canonical decimal numeral of [v]: digits only, not empty, no
    leading zero unless it is the numeral of zero. *)
Definition is_decimal (s : bytes) (v : Z) : Prop :=
  s <> [] /\ Forall (fun c => isdigit c = true) s /\ decimal_value s = v
  /\ (head s = Some "0"%char -> s = ["0"%char]).

Lemma decimal_value_snoc s c :
  decimal_value (s ++ [c]) = (decimal_value s * 10 + (uchar c - 48))%Z.
Proof. unfold decimal_value. by rewrite foldl_app. Qed.

Lemma isdigit_range c : isdigit c = true -> (48 <= uchar c <= 57)%Z.
Proof. unfold isdigit. by rewrite bool_decide_eq_true. Qed.

Lemma decimal_value_range s :
  Forall (fun c => isdigit c = true) s ->
  (0 <= decimal_value s < 10 ^ Z.of_nat (length s))%Z.
Proof.
  induction s as [|c s IH] using rev_ind; [intros _; by vm_compute|].
  rewrite Forall_app, Forall_singleton, decimal_value_snoc, length_app.
  intros [Hs Hc%isdigit_range]. specialize (IH Hs). simpl length.
  replace (Z.of_nat (length s + 1)) with (Z.succ (Z.of_nat (length s))) by lia.
  rewrite Z.pow_succ_r by lia. lia.
Qed.

(** Leading digit other than zero: the value is at least a power of ten. *)
Lemma decimal_value_lower c s :
  Forall (fun d => isdigit d = true) (c :: s) -> c <> "0"%char ->
  (10 ^ Z.of_nat (length s) <= decimal_value (c :: s))%Z.
Proof.
  intros Hall Hc. induction s as [|d s IH] using rev_ind.
  - apply Forall_cons in Hall as [Hd _]. apply isdigit_range in Hd.
    unfold decimal_value. simpl.
    assert (uchar c <> 48)%Z by (intros E; apply Hc, uchar_inj; done). lia.
  - rewrite app_comm_cons in *. apply Forall_app in Hall as [Hs Hd].
    rewrite decimal_value_snoc, length_app. simpl length.
    specialize (IH Hs). apply Forall_singleton, isdigit_range in Hd.
    replace (Z.of_nat (length s + 1)) with (Z.succ (Z.of_nat (length s))) by lia.
    rewrite Z.pow_succ_r by lia. lia.
Qed.

(** Digit strings of equal length with equal values are equal. *)
Lemma decimal_value_inj_len s t :
  length s = length t ->
  Forall (fun c => isdigit c = true) s -> Forall (fun c => isdigit c = true) t ->
  decimal_value s = decimal_value t -> s = t.
Proof.
  revert t. induction s as [|c s IH] using rev_ind; intros t Hlen Hs Ht Hv.
  - by destruct t.
  - destruct t as [|d t _] using rev_ind; [rewrite length_app in Hlen; simpl in *; lia|].
    rewrite !length_app in Hlen. simpl in Hlen.
    rewrite Forall_app, Forall_singleton in Hs, Ht.
    destruct Hs as [Hs Hc], Ht as [Ht Hd].
    apply isdigit_range in Hc, Hd. rewrite !decimal_value_snoc in Hv.
    assert (uchar c = uchar d /\ decimal_value s = decimal_value t) as [Hcd Hst] by lia.
    apply uchar_inj in Hcd as ->. f_equal. apply IH; auto; lia.
Qed.

(** The canonical numeral of a number is unique. *)
Lemma is_decimal_unique s t v : is_decimal s v -> is_decimal t v -> s = t.
Proof.
  intros (Hs0&Hs&Hsv&Hsz) (Ht0&Ht&Htv&Htz).
  destruct (decide (length s = length t)) as [Hl|Hl].
  { apply decimal_value_inj_len; auto. congruence. }
  exfalso. revert s t Hs0 Hs Hsv Hsz Ht0 Ht Htv Htz Hl.
  assert (Hwlog : forall s t, s <> [] -> t <> [] ->
    Forall (fun c => isdigit c = true) s -> Forall (fun c => isdigit c = true) t ->
    (head t = Some "0"%char -> t = ["0"%char]) ->
    decimal_value s = decimal_value t -> length s < length t -> False).
  { intros s t Hs0 Ht0 Hs Ht Htz Hv Hl. destruct t as [|d t]; [done|].
    destruct (decide (d = "0"%char)) as [->|Hd].
    - rewrite (Htz eq_refl) in Hl. destruct s; simpl in *; [done|lia].
    - pose proof (decimal_value_lower d t Ht Hd) as Hlow.
      pose proof (decimal_value_range s Hs) as Hup.
      assert (10 ^ Z.of_nat (length s) <= 10 ^ Z.of_nat (length t))%Z
        by (apply Z.pow_le_mono_r; simpl in Hl; lia).
      lia. }
  intros s t Hs0 Hs Hsv Hsz Ht0 Ht Htv Htz Hl.
  destruct (Nat.lt_ge_cases (length s) (length t)).
  - by apply (Hwlog s t); auto; congruence.
  - apply (Hwlog t s); auto; [congruence|lia].
Qed.

(** ** The conversion loop *)

Lemma uchar_digit d : (0 <= d <= 9)%Z -> uchar (char_of_Z (d + 48)) = (d + 48)%Z.
Proof. intros. rewrite uchar_char_of_Z, Z.mod_small; lia. Qed.

Lemma isdigit_digit d : (0 <= d <= 9)%Z -> isdigit (char_of_Z (d + 48)) = true.
Proof.
  intros. unfold isdigit. rewrite bool_decide_eq_true, uchar_digit; lia.
Qed.

Lemma quot_rem_10 v :
  (0 <= v)%Z -> (0 <= Z.rem v 10 <= 9 /\ v = Z.quot v 10 * 10 + Z.rem v 10
                 /\ 0 <= Z.quot v 10)%Z.
Proof.
  intros. pose proof (Z.quot_rem' v 10). pose proof (Z.rem_bound_pos v 10).
  pose proof (Z.quot_pos v 10). lia.
Qed.

(** Writing [v < 10^p] below offset [p]: the loop ends, stays in the buffer
    and prepends the canonical numeral of [v]. *)
Lemma digits_loop_spec p : forall fuel v acc,
  (0 <= v < 10 ^ Z.of_nat p)%Z -> 0 < p -> p < fuel ->
  exists ds, digits_loop fuel v p acc = Ret (p - length ds, ds ++ acc)
    /\ is_decimal ds v /\ length ds <= p.
Proof.
  induction p as [|p IH]; intros [|fuel] v acc Hv Hp Hf; try lia.
  destruct (quot_rem_10 v) as (Hr&Hq&Hq0); [lia|].
  cbn [digits_loop]. set (c := char_of_Z (Z.rem v 10 + 48)).
  assert (Hdc : isdigit c = true) by (apply isdigit_digit; lia).
  assert (Huc : uchar c = (Z.rem v 10 + 48)%Z) by (apply uchar_digit; lia).
  assert (Hlt : (v < 10 * 10 ^ Z.of_nat p)%Z)
    by (rewrite <- Z.pow_succ_r, <- Nat2Z.inj_succ by lia; lia).
  case_decide as Hz.
  - assert (0 < p) by (destruct p; [simpl in Hlt; lia|lia]).
    destruct (IH fuel (Z.quot v 10) (c :: acc)) as (ds&Hl&(Hn&Hd&Hdv&Hh)&Hlen); [lia..|].
    exists (ds ++ [c]). rewrite <- app_assoc, length_app. simpl length. split_and!.
    + rewrite Hl. do 2 f_equal. lia.
    + split_and!.
      * by destruct ds.
      * by apply Forall_app; auto.
      * rewrite decimal_value_snoc. lia.
      * destruct ds as [|d ds]; [done|]. intros [= ->].
        specialize (Hh eq_refl) as [= ->].
        exfalso. apply Hz. by rewrite <- Hdv.
    + lia.
  - exists [c]. simpl length. split_and!.
    + do 2 f_equal. lia.
    + split_and!; [done|by constructor|unfold decimal_value; simpl; lia|].
      by intros [= ->].
    + lia.
Qed.

Lemma digit_text_is_decimal v : (0 <= v < 10)%Z -> is_decimal (digit_text v) v.
Proof.
  intros. unfold digit_text. rewrite Z.add_comm. split_and!.
  - done.
  - repeat constructor. apply isdigit_digit. lia.
  - unfold decimal_value. simpl. rewrite uchar_digit; lia.
  - by intros [= ->].
Qed.

(** The buffers are large enough for 4 and 8 byte integers. *)
Lemma buffer_fits n v :
  n = 4 \/ n = 8 -> (0 <= v < 2 ^ (8 * Z.of_nat n))%Z ->
  (v < 10 ^ Z.of_nat ((n * 5 + 1) / 2))%Z /\ 0 < (n * 5 + 1) / 2.
Proof.
  intros Hn [_ Hv]. split; [eapply Z.lt_le_trans; [exact Hv|]|];
    destruct Hn as [-> | ->]; first [by vm_compute | apply Nat.ltb_lt; by vm_compute].
Qed.

(** A nonnegative signed integer fits the unsigned type, and so does the
    magnitude of a negative one. *)
Lemma in_int_magnitude n v :
  n = 4 \/ n = 8 -> in_int (8 * Z.of_nat n) v -> v <> int_min (8 * Z.of_nat n) ->
  (0 <= Z.abs v < 2 ^ (8 * Z.of_nat n))%Z.
Proof.
  unfold in_int, int_min, int_max. intros Hn Hv Hm.
  assert (2 ^ (8 * Z.of_nat n - 1) <= 2 ^ (8 * Z.of_nat n))%Z
    by (apply Z.pow_le_mono_r; lia).
  lia.
Qed.

Lemma tostring_unsigned_ok n v :
  n = 4 \/ n = 8 -> in_uint (8 * Z.of_nat n) v ->
  exists s, tostring_unsigned n v = Ret s /\ is_decimal s v.
Proof.
  intros Hn Hv. unfold in_uint in Hv. unfold tostring_unsigned. case_decide.
  - eexists. split; [done|]. apply digit_text_is_decimal. lia.
  - destruct (buffer_fits n v Hn Hv) as [Hb Hp].
    destruct (digits_loop_spec ((n * 5 + 1) / 2) (S ((n * 5 + 1) / 2)) v [])
      as (ds&Hl&Hd&_); [lia..|].
    exists (ds ++ []). rewrite Hl. simpl. by rewrite app_nil_r.
Qed.

Lemma tostring_nonneg_ok n v :
  n = 4 \/ n = 8 -> in_int (8 * Z.of_nat n) v -> (0 <= v)%Z ->
  exists s, tostring n v = Ret s /\ is_decimal s v.
Proof.
  intros Hn Hv H0. unfold tostring. case_decide.
  - eexists. split; [done|]. apply digit_text_is_decimal. lia.
  - rewrite bool_decide_false by lia. cbn [mbind outcome_bind].
    destruct (buffer_fits n v Hn) as [Hb Hp].
    { rewrite <- (Z.abs_eq v) by done. apply in_int_magnitude; auto.
      destruct Hn as [-> | ->]; intros ->; by vm_compute in H0. }
    set (sz := (n * 5 + 1) / 2) in *.
    assert (10 ^ Z.of_nat sz <= 10 ^ Z.of_nat (sz + 1))%Z by (apply Z.pow_le_mono_r; lia).
    destruct (digits_loop_spec (sz + 1) (S (sz + 1)) v []) as (ds&Hl&Hd&_); [lia..|].
    exists (ds ++ []). rewrite Hl. simpl. by rewrite app_nil_r.
Qed.

Lemma tostring_negative_ok n v :
  n = 4 \/ n = 8 -> in_int (8 * Z.of_nat n) v -> (v < 0)%Z ->
  v <> int_min (8 * Z.of_nat n) ->
  exists s, tostring n v = Ret ("-"%char :: s) /\ is_decimal s (- v).
Proof.
  intros Hn Hv H0 Hm. unfold tostring. rewrite decide_False by lia.
  rewrite bool_decide_true by lia. rewrite decide_False by done.
  cbn [mbind outcome_bind].
  destruct (buffer_fits n (- v) Hn) as [Hb Hp].
  { rewrite <- (Z.abs_neq v) by lia. by apply in_int_magnitude. }
  set (sz := (n * 5 + 1) / 2) in *.
  assert (10 ^ Z.of_nat sz <= 10 ^ Z.of_nat (sz + 1))%Z by (apply Z.pow_le_mono_r; lia).
  (* the digits fit in [sz] bytes, so the byte for the sign is still free *)
  destruct (digits_loop_spec (sz + 1) (S (sz + 1)) (- v) []) as (ds&Hl&Hd&Hlen); [lia..|].
  assert (length ds <= sz) as Hsz.
  { destruct Hd as (Hne&Hdig&Hdv&Hhd). destruct ds as [|d ds]; [done|].
    assert (d <> "0"%char).
    { intros ->. specialize (Hhd eq_refl) as [= ->].
      change (0 = - v)%Z in Hdv. lia. }
    pose proof (decimal_value_lower d ds Hdig) as Hlow. simpl length.
    destruct (Nat.le_gt_cases (S (length ds)) sz) as [?|Hgt]; [done|exfalso].
    assert (10 ^ Z.of_nat sz <= 10 ^ Z.of_nat (length ds))%Z by (apply Z.pow_le_mono_r; lia).
    rewrite Hdv in Hlow. specialize (Hlow ltac:(done)). lia. }
  exists ds. rewrite Hl. simpl. rewrite app_nil_r.
  destruct (sz + 1 - length ds) as [|k] eqn:E; [lia|]. done.
Qed.

Lemma str_size_ok k :
  (Z.of_nat k < 2 ^ 64)%Z -> exists s, str_size k = Ret s /\ is_decimal s (Z.of_nat k).
Proof.
  intros. apply (tostring_unsigned_ok 8); [by right|]. unfold in_uint.
  change (8 * Z.of_nat 8)%Z with 64%Z. lia.
Qed.

Lemma str_int_ok v :
  in_int 32 v -> v <> int_min 32 -> exists s, str_int v = Ret s.
Proof.
  intros Hv Hm. destruct (decide (v < 0)%Z).
  - destruct (tostring_negative_ok 4 v) as (s&Hs&_); [by left|done..|]. eauto.
  - destruct (tostring_nonneg_ok 4 v) as (s&Hs&_); [by left|done|lia|]. eauto.
Qed.

(** A sign is not a digit. *)
Lemma is_decimal_no_sign s v : ~ is_decimal ("-"%char :: s) v.
Proof. intros (_&Hd&_). apply Forall_cons in Hd as [Hd _]. by vm_compute in Hd. Qed.

(** ** Properties *)

(** [str(unsigned long)] returns for every 64-bit value, inside its
    buffer, and its text is the canonical decimal numeral of the value (no
    other text is). *)
Theorem str_ulong_canonical v :
  in_uint 64 v ->
  exists s, str_ulong v = Ret s /\ is_decimal s v /\ (forall t, is_decimal t v -> t = s).
Proof.
  intros Hv. destruct (tostring_unsigned_ok 8 v) as (s&Hs&Hd); [by right|done|].
  exists s. split_and!; [done..|]. intros t Ht. by apply (is_decimal_unique t s v).
Qed.

Lemma str_ulong_canonical_witness :
  in_uint 64 18446744073709551615 /\
  exists s, str_ulong 18446744073709551615 = Ret s /\ is_decimal s 18446744073709551615
    /\ (forall t, is_decimal t 18446744073709551615 -> t = s).
Proof.
  assert (H : in_uint 64 18446744073709551615) by (by vm_compute).
  split; [exact H|]. exact (str_ulong_canonical 18446744073709551615 H).
Defined.

(** C40: [str(int)] on every [int]: a nonnegative value gives its canonical
    numeral, a negative one the numeral of its magnitude after a minus sign,
    and the least [int] is the one input whose negation overflows. *)
Theorem str_int_spec v :
  in_int 32 v ->
  (str_int v = Throw IntOverflow <-> v = int_min 32) /\
  (v <> int_min 32 -> exists s, is_decimal s (Z.abs v) /\
     str_int v = Ret (if decide (v < 0)%Z then "-"%char :: s else s)).
Proof.
  intros Hv.
  assert (Hok : v <> int_min 32 -> exists s, is_decimal s (Z.abs v) /\
     str_int v = Ret (if decide (v < 0)%Z then "-"%char :: s else s)).
  { intros Hm. destruct (decide (v < 0)%Z) as [Hlt|Hge].
    - destruct (tostring_negative_ok 4 v) as (s&Hs&Hd); [by left|done..|].
      exists s. rewrite Z.abs_neq by lia. done.
    - destruct (tostring_nonneg_ok 4 v) as (s&Hs&Hd); [by left|done|lia|].
      exists s. rewrite Z.abs_eq by lia. done. }
  split; [|done]. split.
  - intros Ho. destruct (decide (v = int_min 32)) as [|Hm]; [done|].
    destruct (Hok Hm) as (s&_&Hs). congruence.
  - intros ->. done.
Qed.

Lemma str_int_spec_witness :
  in_int 32 (-42) /\
  ((str_int (-42) = Throw IntOverflow <-> (-42)%Z = int_min 32) /\
  ((-42)%Z <> int_min 32 -> exists s, is_decimal s (Z.abs (-42)) /\
     str_int (-42) = Ret (if decide (-42 < 0)%Z then "-"%char :: s else s))).
Proof.
  assert (H : in_int 32 (-42)) by (by vm_compute).
  split; [exact H|]. exact (str_int_spec (-42) H).
Defined.

Example str_int_examples :
  str_int (-2147483647) = Ret (B "-2147483647") /\ str_int 0 = Ret (B "0")
  /\ str_int (-2147483648) = Throw IntOverflow
  /\ str_uint 4294967295 = Ret (B "4294967295")
  /\ str_bool true = B "1" /\ str_bool false = B "0".
Proof. by vm_compute. Qed.
