(* ===== verification/Utils.v ===== *)
(** * src/utils.cc and src/utils.h: url quoting and system error texts *)

From S2P Require Import Prelude CxxString Str.

(** The characters [urlquote] copies as they are. *)
Definition url_safe (ch : ascii) : bool :=
  isalnum ch || bool_decide (ch = "_"%char) || bool_decide (ch = "-"%char)
  || bool_decide (ch = "."%char).

(** The string literal the hexadecimal digits are read from. *)
Definition hex_digits : bytes := B "0123456789abcdef".

(** Indexing the literal; the index of its terminator is allowed too. *)
Definition hex_digit_at (i : Z) : outcome ascii :=
  if decide (0 <= i <= 16)%Z
  then Ret (default "000"%char (hex_digits !! Z.to_nat i))
  else Throw BadIndex.

(** [urlquote]: [/] and [%] are the truncated division of a signed [char]. *)
Fixpoint urlquote (value : bytes) : outcome bytes :=
  match value with
  | [] => Ret []
  | ch :: rest =>
      if url_safe ch then r ← urlquote rest; Ret (ch :: r)
      else
        hi ← hex_digit_at (Z.quot (schar ch) 16);
        lo ← hex_digit_at (Z.rem (schar ch) 16);
        r ← urlquote rest;
        Ret ("%"%char :: hi :: lo :: r)
  end.

Definition hex_to_int (ch : ascii) : Z :=
  if decide (schar "0" <= schar ch <= schar "9")%Z then (schar ch - schar "0")%Z
  else if decide (schar "A" <= schar ch <= schar "F")%Z then (schar ch - schar "A")%Z
  else if decide (schar "a" <= schar ch <= schar "f")%Z then (schar ch - schar "a")%Z
  else 0%Z.

(** [urlunquote]; [value] is the text from index [i] on.  Both hexadecimal
    digits are read at index [i + 1], and an escape cut short by the end of
    the text is copied. *)
Fixpoint urlunquote (value : bytes) : bytes :=
  match value with
  | [] => []
  | ch :: rest =>
      if decide (ch = "%"%char) then
        match rest with
        | d1 :: _ :: rest' =>
            let ch1 := d1 in
            let ch2 := d1 in
            char_of_Z (hex_to_int ch1 * 16 + hex_to_int ch2) :: urlunquote rest'
        | _ => value
        end
      else ch :: urlunquote rest
  end.

(** [get_sys_error].  [strerror], the two variants of [strerror_r] and the
    build's choice between them are outside the sources. *)
Section get_sys_error.
Variable strerror : Z -> bytes.
Variable strerror_r_gnu : Z -> bytes.
Variable strerror_r_xsi : Z -> Z * bytes.

Inductive strerror_variant := NoStrerrorR | StrerrorRCharP | StrerrorRInt.

(** The text of a char array up to its terminator, which the code puts at
    index 255 at the latest. *)
Definition c_string (buf : bytes) : bytes :=
  take 255 (take (default (length buf) (find buf "000"%char 0)) buf).

Definition get_sys_error (variant : strerror_variant) (errno_value : Z) : outcome bytes :=
  match variant with
  | StrerrorRCharP => Ret (strerror_r_gnu errno_value)
  | StrerrorRInt =>
      let '(ret, buf) := strerror_r_xsi errno_value in
      if decide (ret = 0)%Z then Ret (c_string buf)
      else s ← str_int errno_value; Ret (B "code " ++ s)
  | NoStrerrorR => Ret (strerror errno_value)
  end.
End get_sys_error.

(** ** Percent decoding as RFC 3986 has it (the specification) *)

Definition hex_value (ch : ascii) : option Z :=
  if decide (48 <= uchar ch <= 57)%Z then Some (uchar ch - 48)%Z
  else if decide (65 <= uchar ch <= 70)%Z then Some (uchar ch - 55)%Z
  else if decide (97 <= uchar ch <= 102)%Z then Some (uchar ch - 87)%Z
  else None.

Fixpoint percent_decode (s : bytes) : option bytes :=
  match s with
  | [] => Some []
  | ch :: rest =>
      if decide (ch = "%"%char) then
        match rest with
        | d1 :: d2 :: rest' =>
            h ← hex_value d1; l ← hex_value d2;
            r ← percent_decode rest'; Some (char_of_Z (h * 16 + l) :: r)
        | _ => None
        end
      else r ← percent_decode rest; Some (ch :: r)
  end.

(** ** One character *)

(** What [urlquote] writes for one character outside the safe set. *)
Definition quote_char (ch : ascii) : outcome (ascii * ascii) :=
  hi ← hex_digit_at (Z.quot (schar ch) 16);
  lo ← hex_digit_at (Z.rem (schar ch) 16);
  Ret (hi, lo).

Lemma url_safe_not_percent ch : url_safe ch = true -> ch <> "%"%char.
Proof. by intros H ->. Qed.

Definition quote_char_ok (ch : ascii) : bool :=
  match quote_char ch with
  | Ret (hi, lo) =>
      bool_decide (uchar ch < 128)%Z && bool_decide
        ((h ← hex_value hi; l ← hex_value lo; Some (char_of_Z (h * 16 + l))) = Some ch)
      && isalnum hi && isalnum lo
      && Bool.eqb (bool_decide (char_of_Z (hex_to_int hi * 16 + hex_to_int hi) = ch))
                  (bool_decide (uchar ch ∈ [0; 17; 34; 51; 68; 85; 102; 119]%Z))
  | Throw f => bool_decide (f = BadIndex) && bool_decide (128 <= uchar ch)%Z
  end.

Lemma quote_char_cases ch : quote_char_ok ch = true.
Proof. by_all_chars ch. Qed.

Lemma quote_char_spec ch :
  (uchar ch < 128)%Z /\ (exists hi lo, quote_char ch = Ret (hi, lo)
     /\ (h ← hex_value hi; l ← hex_value lo; Some (char_of_Z (h * 16 + l))) = Some ch
     /\ isalnum hi = true /\ isalnum lo = true
     /\ (char_of_Z (hex_to_int hi * 16 + hex_to_int hi) = ch <->
         uchar ch ∈ [0; 17; 34; 51; 68; 85; 102; 119]%Z))
  \/ (128 <= uchar ch)%Z /\ quote_char ch = Throw BadIndex.
Proof.
  pose proof (quote_char_cases ch) as H. unfold quote_char_ok in H.
  destruct (quote_char ch) as [[hi lo]|f] eqn:Hq.
  - left. apply andb_true_iff in H as [H Hb]. apply eqb_prop in Hb. boolify.
    split; [done|]. exists hi, lo. split_and!; try done.
    destruct (bool_decide_reflect (char_of_Z (hex_to_int hi * 16 + hex_to_int hi) = ch));
      symmetry in Hb; boolify; naive_solver.
  - right. boolify. subst. done.
Qed.

Lemma urlquote_unfold ch rest :
  urlquote (ch :: rest) =
    if url_safe ch then r ← urlquote rest; Ret (ch :: r)
    else '(hi, lo) ← quote_char ch; r ← urlquote rest; Ret ("%"%char :: hi :: lo :: r).
Proof.
  cbn [urlquote]. destruct (url_safe ch); [done|]. unfold quote_char.
  destruct (hex_digit_at (Z.quot _ _)) as [hi|]; [|done].
  by destruct (hex_digit_at (Z.rem _ _)).
Qed.

Lemma url_safe_ascii ch : url_safe ch = true -> (uchar ch < 128)%Z.
Proof.
  enough (H : negb (url_safe ch) || bool_decide (uchar ch < 128)%Z = true).
  { intros E. rewrite E in H. simpl in H. by boolify. }
  by_all_chars ch.
Qed.

Abbreviation is_ascii := (fun c => (uchar c < 128)%Z).

(** ** Quoting *)

Lemma percent_decode_cons ch s :
  ch <> "%"%char -> percent_decode (ch :: s) = r ← percent_decode s; Some (ch :: r).
Proof. intros. simpl. by rewrite decide_False. Qed.

Lemma percent_decode_escape hi lo s :
  percent_decode ("%"%char :: hi :: lo :: s)
  = h ← hex_value hi; l ← hex_value lo; r ← percent_decode s; Some (char_of_Z (h * 16 + l) :: r).
Proof. reflexivity. Qed.

Definition quoted_alphabet (c : ascii) : bool := url_safe c || bool_decide (c = "%"%char).

Lemma isalnum_quoted c : isalnum c = true -> quoted_alphabet c = true.
Proof. unfold quoted_alphabet, url_safe. by intros ->. Qed.

Lemma url_safe_quoted c : url_safe c = true -> quoted_alphabet c = true.
Proof. unfold quoted_alphabet. by intros ->. Qed.

(** One step of a quotation that returns. *)
Lemma urlquote_cons_Ret ch rest q :
  urlquote (ch :: rest) = Ret q ->
  (uchar ch < 128)%Z /\ exists r, urlquote rest = Ret r /\
  (url_safe ch = true /\ q = ch :: r \/
   url_safe ch = false /\ exists hi lo, quote_char ch = Ret (hi, lo) /\ q = "%"%char :: hi :: lo :: r).
Proof.
  rewrite urlquote_unfold. destruct (url_safe ch) eqn:Hs.
  - destruct (urlquote rest) as [r|]; [|done]. intros [= <-].
    split; [by apply url_safe_ascii|]. exists r. auto.
  - destruct (quote_char_spec ch) as [(Ha&hi&lo&Hq&_)|(Ha&Hq)]; rewrite Hq; simpl; [|done].
    destruct (urlquote rest) as [r|]; [|done]. intros [= <-].
    split; [done|]. exists r. split; [done|]. right. eauto.
Qed.

(** [urlquote] returns on the texts without a byte above 127, and faults on
    every other: the digit literal is indexed with a negative number. *)
Lemma urlquote_ascii s : Forall is_ascii s -> exists q, urlquote s = Ret q.
Proof.
  induction 1 as [|ch s Hch _ (q&IH)]; [by eexists|].
  rewrite urlquote_unfold, IH. destruct (url_safe ch); [by eexists|].
  destruct (quote_char_spec ch) as [(_&hi&lo&->&_)|(?&_)]; [by eexists|lia].
Qed.

Lemma urlquote_not_ascii s : ~ Forall is_ascii s -> urlquote s = Throw BadIndex.
Proof.
  induction s as [|ch s IH]; [by intros []|]. intros Hn.
  rewrite urlquote_unfold. destruct (decide (uchar ch < 128)%Z) as [Ha|Ha].
  - rewrite IH by (intros ?; apply Hn; by constructor).
    destruct (url_safe ch); [done|].
    destruct (quote_char_spec ch) as [(_&hi&lo&->&_)|(?&_)]; [done|lia].
  - destruct (url_safe ch) eqn:Hs; [by apply url_safe_ascii in Hs|].
    destruct (quote_char_spec ch) as [(?&_)|(_&->)]; [lia|done].
Qed.

(** ** Properties *)

(** [urlquote] followed by percent decoding is the identity: on every text
    without a byte above 127 it returns, its output only has characters
    allowed unescaped in a url component and the escape character, and
    decoding gives the text back. *)
Theorem urlquote_roundtrip s :
  Forall is_ascii s ->
  exists q, urlquote s = Ret q /\ percent_decode q = Some s
    /\ Forall (fun c => quoted_alphabet c = true) q.
Proof.
  intros Hs. destruct (urlquote_ascii s Hs) as [q Hq]. exists q. split; [done|]. clear Hs.
  revert q Hq. induction s as [|ch s IH]; intros q Hq; [by simplify_eq/=|].
  apply urlquote_cons_Ret in Hq as (Ha&r&Hr&[(Hs&->)|(Hs&hi&lo&Hc&->)]);
    destruct (IH r Hr) as [Hd Hf].
  - rewrite percent_decode_cons by (by apply url_safe_not_percent). rewrite Hd.
    split; [done|]. constructor; [by apply url_safe_quoted|done].
  - destruct (quote_char_spec ch) as [(_&hi'&lo'&Hc'&Hv&Hhi&Hlo&_)|(?&_)]; [|lia].
    rewrite Hc in Hc'. simplify_eq. rewrite percent_decode_escape, Hd.
    split; [|repeat constructor; auto using isalnum_quoted].
    destruct (hex_value hi'), (hex_value lo'); simplify_eq/=. done.
Qed.

Lemma urlquote_roundtrip_witness :
  Forall is_ascii (B "a/b c") /\
  exists q, urlquote (B "a/b c") = Ret q /\ percent_decode q = Some (B "a/b c")
    /\ Forall (fun c => quoted_alphabet c = true) q.
Proof.
  assert (H : Forall is_ascii (B "a/b c")) by (repeat constructor).
  split; [exact H|]. exact (urlquote_roundtrip _ H).
Defined.

(** [urlquote] indexes its digit literal out of bounds exactly on the
    texts with a byte above 127 (a negative [char]). *)
Theorem urlquote_fault_iff s :
  urlquote s = Throw BadIndex <-> exists c, c ∈ s /\ (128 <= uchar c)%Z.
Proof.
  split.
  - intros H. destruct (decide (Forall is_ascii s)) as [Ha|Hn].
    + apply urlquote_ascii in Ha as [q Hq]. congruence.
    + apply not_Forall_Exists, Exists_exists in Hn as (c&Hc&Hge); [|apply _].
      simpl in Hge. exists c. split; [done|lia].
  - intros (c&Hc&Hge). apply urlquote_not_ascii. rewrite Forall_forall.
    intros Ha. specialize (Ha c Hc). lia.
Qed.

(** [urlunquote] does not invert [urlquote]: a quoted text comes back
    unchanged exactly when each of its escaped characters is one of NUL,
    device control 1 and the double quote, those whose two hexadecimal digits
    are the same decimal digit. *)
Theorem urlunquote_urlquote s q :
  urlquote s = Ret q ->
  (urlunquote q = s <->
   Forall (fun c => url_safe c = true \/ uchar c ∈ [0; 17; 34]%Z) s).
Proof.
  revert q. induction s as [|ch s IH]; intros q Hq; [by simplify_eq/=|].
  apply urlquote_cons_Ret in Hq as (Ha&r&Hr&[(Hs&->)|(Hs&hi&lo&Hc&->)]);
    rewrite Forall_cons, <- (IH r Hr); cbn [urlunquote].
  - rewrite decide_False by (by apply url_safe_not_percent). split; [|by intros [_ ->]].
    intros [= ->]. auto.
  - rewrite decide_True by done.
    destruct (quote_char_spec ch) as [(_&hi'&lo'&Hc'&_&_&_&Hb)|(?&_)]; [|lia].
    rewrite Hc in Hc'. simplify_eq.
    assert (Hb' : char_of_Z (hex_to_int hi' * 16 + hex_to_int hi') = ch
                  <-> uchar ch ∈ [0; 17; 34]%Z).
    { rewrite Hb. split; [|rewrite !elem_of_cons; tauto].
      assert (forall k, uchar ch = k -> url_safe (char_of_Z k) = false) as Hk
        by (intros k <-; by rewrite char_of_Z_uchar).
      intros Hin.
      repeat (apply elem_of_cons in Hin as [E|Hin];
        [first [specialize (Hk _ E); by vm_compute in Hk | rewrite E; repeat constructor]|]).
      by apply elem_of_nil in Hin. }
    rewrite <- Hb'. split; [intros [= H1 H2]; auto|].
    intros [[?|Hx] Hy]; [congruence|by rewrite Hx, Hy].
Qed.

Lemma urlunquote_urlquote_witness :
  urlquote (B "a/b") = Ret (B "a%2fb") /\
  (urlunquote (B "a%2fb") = B "a/b" <->
   Forall (fun c => url_safe c = true \/ uchar c ∈ [0; 17; 34]%Z) (B "a/b")).
Proof.
  assert (H : urlquote (B "a/b") = Ret (B "a%2fb")) by reflexivity.
  split; [exact H|]. exact (urlunquote_urlquote _ _ H).
Defined.

(** The upper case hexadecimal digits are read as 0 to 5, and the second
    digit is not read at all. *)
Example urlunquote_examples :
  urlunquote (B "a%2fb") = "a"%char :: char_of_Z 34 :: B "b"
  /\ percent_decode (B "a%2fb") = Some (B "a/b")
  /\ hex_to_int "F" = 5%Z /\ urlunquote (B "100%4") = B "100%4".
Proof. by vm_compute. Qed.
