(* ===== verification/Io.v ===== *)
(** * src/server/io_wrappers.cc and io_wrappers.h: wrappers of the unix calls

    The kernel is a script: the list of the answers it gives to the calls
    that follow, an answer being a value or an errno.  A wrapper consumes the
    answers of the system calls it makes and threads [errno]; it has not
    returned ([None]) when the script ends before it does. *)

From S2P Require Import Prelude.

Inductive sysres (A : Type) :=
| SysOk (a : A)
| SysErr (e : Z).
Arguments SysOk {A} a.
Arguments SysErr {A} e.

(** The errno of a call interrupted by a signal. *)
Definition EINTR : Z := 4.

Definition CHUNKSIZE : nat := 4096.

(** What a wrapper leaves when it returns. *)
Record returned (A S : Type) := Returned {
  ret : A;          (* the returned value *)
  errno : Z;        (* errno after the call *)
  answers : list S; (* the answers not consumed *)
}.
Arguments Returned {A S} ret errno answers.
Arguments ret {A S} r.
Arguments errno {A S} r.
Arguments answers {A S} r.

(** [io_open_append_create]: the descriptor, or -1. *)
Fixpoint io_open_append_create (en : Z) (k : list (sysres Z))
    : option (returned Z (sysres Z)) :=
  match k with
  | [] => None
  | SysOk fd :: k' => Some (Returned fd en k')
  | SysErr e :: k' =>
      if decide (e = EINTR) then io_open_append_create e k'
      else Some (Returned (-1)%Z e k')
  end.

(** [io_write]: the bytes the kernel took and, once it returns, the result.
    [write] takes at most what it is given. *)
Fixpoint io_write (data : bytes) (en : Z) (k : list (sysres nat))
    : bytes * option (returned bool (sysres nat)) :=
  if decide (length data = 0) then ([], Some (Returned true en k))
  else match k with
  | [] => ([], None)
  | SysErr e :: k' =>
      if decide (e = EINTR) then io_write data e k'
      else ([], Some (Returned false e k'))
  | SysOk n :: k' =>
      let c := Nat.min n (length data) in
      let '(w, r) := io_write (drop c data) en k' in
      (take c data ++ w, r)
  end.

(** [io_write_some]: one [write] that is not interrupted; its count is
    returned as an [int]. *)
Fixpoint io_write_some (data : bytes) (en : Z) (k : list (sysres nat))
    : bytes * option (returned Z (sysres nat)) :=
  if decide (length data = 0) then ([], Some (Returned 0%Z en k))
  else match k with
  | [] => ([], None)
  | SysErr e :: k' =>
      if decide (e = EINTR) then io_write_some data e k'
      else ([], Some (Returned (-1)%Z e k'))
  | SysOk n :: k' =>
      let c := Nat.min n (length data) in
      (take c data, Some (Returned (swrap 32 (Z.of_nat c)) en k'))
  end.

(** [io_close] *)
Fixpoint io_close (en : Z) (k : list (sysres unit)) : option (returned bool (sysres unit)) :=
  match k with
  | [] => None
  | SysOk _ :: k' => Some (Returned true en k')
  | SysErr e :: k' =>
      if decide (e = EINTR) then io_close e k' else Some (Returned false e k')
  end.

(** One [read] of at most [count] bytes: what the kernel has beyond [count]
    stays for the next read; an empty answer is the end of the file. *)
Definition sys_read (count : nat) (k : list (sysres bytes))
    : option (sysres bytes * list (sysres bytes)) :=
  match k with
  | [] => None
  | SysErr e :: k' => Some (SysErr e, k')
  | SysOk d :: k' =>
      Some (SysOk (take count d),
            if decide (length d <= count) then k' else SysOk (drop count d) :: k')
  end.

(** [io_read_exact]; [fuel] bounds the number of [read] calls. *)
Fixpoint io_read_exact_loop (fuel : nat) (result : bytes) (to_read remaining : nat)
    (en : Z) (k : list (sysres bytes))
    : outcome (option (bytes * returned bool (sysres bytes))) :=
  match fuel with
  | 0 => Throw OutOfFuel
  | S fuel' =>
      if decide (0 < remaining) then
        let count := Nat.min remaining CHUNKSIZE in
        match sys_read count k with
        | None => Ret None
        | Some (SysOk d, k') =>
            if decide (length d = 0) then Ret (Some (result, Returned true en k'))
            else
              let result := result ++ d in
              if decide (to_read <= length result)
              then Ret (Some (result, Returned true en k'))
              else io_read_exact_loop fuel' result to_read (remaining - length d) en k'
        | Some (SysErr e, k') =>
            if decide (e = EINTR)
            then io_read_exact_loop fuel' result to_read remaining e k'
            else Ret (Some (result, Returned false e k'))
        end
      else Ret (Some (result, Returned true en k))
  end.

Definition io_read_exact (to_read : nat) (en : Z) (k : list (sysres bytes)) :=
  io_read_exact_loop (S (to_read + length k)) [] to_read to_read en k.

(** [io_read_append] with a maximum: the new text and the count, 0 at the end
    of the file, -1 on error. *)
Fixpoint io_read_append_max (result : bytes) (max_to_read : nat) (en : Z)
    (k : list (sysres bytes)) : option (bytes * returned Z (sysres bytes)) :=
  match k with
  | [] => None
  | SysErr e :: k' =>
      if decide (e = EINTR) then io_read_append_max result max_to_read e k'
      else Some (result, Returned (-1)%Z e k')
  | SysOk d :: k' =>
      let got := take max_to_read d in
      let rest := if decide (length d <= max_to_read) then k'
                  else SysOk (drop max_to_read d) :: k' in
      if decide (length got = 0) then Some (result, Returned 0%Z en rest)
      else Some (result ++ got, Returned (swrap 32 (Z.of_nat (length got))) en rest)
  end.

(** The two argument overload: its [int] result is converted to [bool]. *)
Definition io_read_append (result : bytes) (en : Z) (k : list (sysres bytes))
    : option (bytes * returned bool (sysres bytes)) :=
  '(text, r) ← io_read_append_max result CHUNKSIZE en k;
  Some (text, Returned (bool_decide (ret r <> 0%Z)) (errno r) (answers r)).

(** ** What the kernel delivers *)

(** The bytes a descriptor delivers until its end or its first error. *)
Fixpoint stream (k : list (sysres bytes)) : bytes :=
  match k with
  | [] => []
  | SysOk [] :: _ => []
  | SysOk d :: k' => d ++ stream k'
  | SysErr e :: k' => if decide (e = EINTR) then stream k' else []
  end.

Lemma stream_sys_read_ok count k d k' :
  0 < count -> sys_read count k = Some (SysOk d, k') -> d <> [] ->
  stream k = d ++ stream k' /\ length d <= count.
Proof.
  intros Hc. destruct k as [|[d0|e] k]; simpl; [done| |done].
  intros [= <- <-] Hd. split; [|lens].
  destruct d0 as [|x d0]; [by rewrite take_nil in Hd|].
  case_decide; simpl stream.
  - by rewrite take_ge.
  - destruct (drop count (x :: d0)) as [|y l] eqn:E.
    { apply (f_equal length) in E. lens. }
    change (stream (SysOk (y :: l) :: k)) with ((y :: l) ++ stream k).
    rewrite <- E, app_assoc. by rewrite take_drop.
Qed.

Lemma stream_sys_read_eof count k k' :
  0 < count -> sys_read count k = Some (SysOk [], k') -> stream k = [].
Proof.
  intros Hc. destruct k as [|[d0|e] k]; simpl; [done| |done].
  intros [= H _]. destruct d0; [done|]. destruct count; [lia|done].
Qed.

Lemma sys_read_err count k e k' :
  sys_read count k = Some (SysErr e, k') -> k = SysErr e :: k'.
Proof. destruct k as [|[d0|e'] k]; simpl; [done..|]. by intros [= -> ->]. Qed.

Lemma sys_read_answers count k r k' :
  sys_read count k = Some (r, k') ->
  length k' <= length k /\ (forall e, r = SysErr e -> length k' < length k).
Proof.
  destruct k as [|[d0|e'] k]; simpl; [done| |].
  - intros [= <- <-]. split; [case_decide; simpl; lia|done].
  - intros [= <- <-]. simpl. split; [lia|]. intros. lia.
Qed.

(** ** io_write *)

Lemma io_write_nil en k : io_write [] en k = ([], Some (Returned true en k)).
Proof. by destruct k. Qed.

Lemma io_write_cons_ok data n en k :
  data <> [] ->
  io_write data en (SysOk n :: k) =
    let '(w, r) := io_write (drop n data) en k in (take n data ++ w, r).
Proof.
  intros Hd. simpl. rewrite decide_False by (by destruct data).
  destruct (Nat.min_spec n (length data)) as [[_ ->]|[Hl ->]]; [done|].
  by rewrite !drop_ge, !take_ge by lia.
Qed.

Lemma io_write_cons_err data e en k :
  data <> [] ->
  io_write data en (SysErr e :: k) =
    if decide (e = EINTR) then io_write data e k else ([], Some (Returned false e k)).
Proof. intros Hd. simpl. by rewrite decide_False by (by destruct data). Qed.

Lemma io_write_blocked data en : data <> [] -> io_write data en [] = ([], None).
Proof. intros Hd. simpl. by rewrite decide_False by (by destruct data). Qed.

(** The answers consumed by a call that returns: nothing is read past them,
    and [written] is what they accepted. *)
Lemma io_write_prefix data en k : (io_write data en k).1 `prefix_of` data.
Proof.
  revert data en. induction k as [|[n|e] k IH]; intros data en;
    (destruct (decide (data = [])) as [->|Hd]; [by rewrite io_write_nil|]).
  - rewrite io_write_blocked by done. apply prefix_nil.
  - rewrite io_write_cons_ok by done. specialize (IH (drop n data) en).
    destruct (io_write _ _ _) as [w r]. simpl in *.
    rewrite <- (take_drop n data) at 2. by apply prefix_app.
  - rewrite io_write_cons_err by done. case_decide; [done|]. apply prefix_nil.
Qed.

Lemma io_write_result data en k w r :
  io_write data en k = (w, Some r) ->
  if ret r then w = data else w <> data /\ errno r <> EINTR.
Proof.
  revert data en w. induction k as [|[n|e] k IH]; intros data en w;
    (destruct (decide (data = [])) as [->|Hd]; [rewrite io_write_nil; by intros [= <- <-]|]).
  - by rewrite io_write_blocked.
  - rewrite io_write_cons_ok by done.
    destruct (io_write _ _ _) as [w' r'] eqn:E. intros [= <- ->].
    apply IH in E. destruct (ret r).
    + by rewrite E, take_drop.
    + destruct E as [E ?]. split; [|done]. intros Hw. apply E.
      apply (app_inv_head (take n data)). by rewrite take_drop.
  - rewrite io_write_cons_err by done. case_decide; [by apply IH|].
    intros [= <- <-]. simpl. auto.
Qed.

(** Answers under which a write makes progress: interruptions, and at least
    [m] calls that each take a byte. *)
Fixpoint progress (k : list (sysres nat)) : nat :=
  match k with
  | [] => 0
  | SysOk 0 :: k' => progress k'
  | SysOk (S _) :: k' => S (progress k')
  | SysErr e :: k' => if decide (e = EINTR) then progress k' else 0
  end.

Lemma io_write_returns data en k :
  length data <= progress k -> exists w r, io_write data en k = (w, Some r) /\ ret r = true.
Proof.
  revert data en. induction k as [|[n|e] k IH]; intros data en Hp;
    (destruct (decide (data = [])) as [->|Hd];
      [rewrite io_write_nil; by eexists _, _|]).
  - destruct data; simpl in *; [done|lia].
  - rewrite io_write_cons_ok by done.
    destruct (IH (drop n data) en) as (w&r&->&Hr); [|by eauto].
    rewrite length_drop. destruct n; simpl in Hp; lia.
  - rewrite io_write_cons_err by done. simpl in Hp. case_decide.
    + by apply IH.
    + destruct data; simpl in *; [done|lia].
Qed.

(** ** io_read_exact *)

(** The loop's result, from any intermediate state. *)
Definition read_exact_post (result : bytes) (remaining : nat) (k : list (sysres bytes))
    (o : option (bytes * returned bool (sysres bytes))) : Prop :=
  match o with
  | None => True
  | Some (text, r) =>
      text = result ++ take remaining (stream k) /\
      (ret r = false -> length (stream k) < remaining /\ errno r <> EINTR)
  end.

Lemma io_read_exact_loop_spec fuel : forall result to_read remaining en k,
  length result + remaining = to_read -> remaining + length k < fuel ->
  exists o, io_read_exact_loop fuel result to_read remaining en k = Ret o
    /\ read_exact_post result remaining k o.
Proof.
  induction fuel as [|fuel IH]; intros result to_read remaining en k Hlen Hf; [lia|].
  cbn [io_read_exact_loop]. case_decide as Hr.
  2:{ eexists. split; [done|]. simpl. replace remaining with 0 by lia.
      by rewrite take_0, app_nil_r. }
  set (count := remaining `min` CHUNKSIZE).
  assert (Hc : 0 < count) by (unfold count, CHUNKSIZE; lia).
  destruct (sys_read count k) as [[[d|e] k']|] eqn:Hs; [| |by eexists].
  - case_decide as Hd.
    + apply nil_length_inv in Hd as ->.
      pose proof (stream_sys_read_eof _ _ _ Hc Hs) as Hst.
      eexists. split; [done|]. simpl. by rewrite Hst, take_nil, app_nil_r.
    + pose proof (stream_sys_read_ok _ _ _ _ Hc Hs) as [Hst Hdc]; [by intros ->|].
      pose proof (sys_read_answers _ _ _ _ Hs) as [Hk _].
      case_decide as Hge.
      * eexists. split; [done|]. simpl. rewrite Hst, take_app_exact; [done|]. lens.
      * destruct (IH (result ++ d) to_read (remaining - length d) en k') as (o&Ho&Hp);
          [lens..|].
        exists o. split; [done|]. destruct o as [[text r]|]; [|done].
        destruct Hp as [-> Hp]. simpl. rewrite Hst. split.
        { rewrite <- app_assoc. f_equal. rewrite take_app. by rewrite (take_ge d) by lia. }
        intros Hfalse. destruct (Hp Hfalse). lens.
  - pose proof (sys_read_answers _ _ _ _ Hs) as [_ Hk]. specialize (Hk e eq_refl).
    apply sys_read_err in Hs as ->. case_decide as He.
    + destruct (IH result to_read remaining e k') as (o&Ho&Hp); [lia..|].
      exists o. split; [done|]. destruct o as [[text r]|]; [|done]. simpl.
      by rewrite decide_True.
    + eexists. split; [done|]. simpl. rewrite decide_False by done.
      rewrite take_nil, app_nil_r. simpl. auto.
Qed.

(** The first answer that is not an interruption. *)
Fixpoint next_read (k : list (sysres bytes)) : option (sysres bytes) :=
  match k with
  | [] => None
  | SysErr e :: k' => if decide (e = EINTR) then next_read k' else Some (SysErr e)
  | SysOk d :: _ => Some (SysOk d)
  end.

(** What [io_read_append] with a maximum returns, by the first answer that is
    not an interruption. *)
Lemma io_read_append_max_next result m en k :
  0 < m -> (Z.of_nat m <= int_max 32)%Z ->
  match next_read k with
  | None => io_read_append_max result m en k = None
  | Some (SysErr e) => exists k', e <> EINTR /\
      io_read_append_max result m en k = Some (result, Returned (-1)%Z e k')
  | Some (SysOk d) => exists en' k',
      io_read_append_max result m en k
        = Some (result ++ take m d, Returned (Z.of_nat (length (take m d))) en' k')
      /\ (d <> [] -> stream k = take m d ++ stream k')
  end.
Proof.
  intros Hm Hmax. revert en. induction k as [|[d|e] k IH]; intros en; [done| |].
  - cbn [next_read io_read_append_max].
    assert (Hin : in_int 32 (Z.of_nat (length (take m d)))).
    { split; [unfold int_min; lia|]. rewrite length_take. lia. }
    case_decide as H0.
    + apply nil_length_inv in H0. rewrite H0, app_nil_r. exists en. eexists. split; [done|].
      intros Hd. destruct d, m; done || lia.
    + rewrite (swrap_small 32) by done. exists en. eexists. split; [done|]. intros _.
      eapply (proj1 (stream_sys_read_ok m (SysOk d :: k) (take m d) _ Hm eq_refl _)).
      Unshelve. by intros E; rewrite E in H0.
  - cbn [next_read io_read_append_max stream]. case_decide; [apply IH|]. eauto.
Qed.

(** The [bool] overload returns when the kernel answers. *)
Lemma io_read_append_bool_cases result en k :
  match next_read k with
  | None => True
  | Some _ => exists text en' k' b, io_read_append result en k = Some (text, Returned b en' k')
  end.
Proof.
  pose proof (io_read_append_max_next result CHUNKSIZE en k
    ltac:(unfold CHUNKSIZE; lia) ltac:(by vm_compute)) as H.
  unfold io_read_append. destruct (next_read k) as [[d|e]|]; [| |done].
  - destruct H as (en'&k'&->&_). do 4 eexists. reflexivity.
  - destruct H as (k'&_&->). do 4 eexists. reflexivity.
Qed.

(** ** Properties *)

(** C38: [io_write] hands the kernel the data in order and never past its end;
    it returns true exactly when all of it was taken, false (errno set, not
    EINTR) with a proper prefix taken; and it does return true once the kernel
    has taken a byte as often as there are bytes, interruptions included. *)
Theorem io_write_spec data en k :
  let '(w, r) := io_write data en k in
  w `prefix_of` data /\
  (forall r', r = Some r' -> if ret r' then w = data else w <> data /\ errno r' <> EINTR) /\
  (length data <= progress k -> exists r', r = Some r' /\ ret r' = true).
Proof.
  pose proof (io_write_prefix data en k) as Hp.
  destruct (io_write data en k) as [w r] eqn:E. split_and!; [done| |].
  - intros r' ->. by apply (io_write_result data en k).
  - intros H. destruct (io_write_returns data en k H) as (w'&r'&E'&Hr').
    rewrite E in E'. simplify_eq. eauto.
Qed.

(** [io_read_exact] returns as soon as the kernel has answered (its loop
    needs no more than [to_read] plus the number of answers rounds): the
    result is the first [to_read] bytes of the stream, shorter only at the end
    of the file, and false is returned only for an error met before
    [to_read] bytes were read. *)
Theorem io_read_exact_spec to_read en k :
  exists o, io_read_exact to_read en k = Ret o /\
    match o with
    | None => True
    | Some (text, r) =>
        text = take to_read (stream k) /\
        (ret r = false -> length text < to_read /\ errno r <> EINTR)
    end.
Proof.
  destruct (io_read_exact_loop_spec (S (to_read + length k)) [] to_read to_read en k)
    as (o&Ho&Hp); [done|lia|].
  exists o. split; [done|]. destruct o as [[text r]|]; [|done].
  destruct Hp as [-> Hp]. split; [done|]. intros Hf. destruct (Hp Hf). split; [|done]. lens.
Qed.

(** The [bool] overload of [io_read_append] reports the opposite of its
    contract: a failed [read] gives true (with errno set and nothing
    appended) and the end of the file gives false. *)
Theorem io_read_append_bool_inverted result en k :
  match next_read k with
  | None => io_read_append result en k = None
  | Some (SysErr e) =>
      exists k', io_read_append result en k = Some (result, Returned true e k')
  | Some (SysOk d) =>
      exists en' k', io_read_append result en k
        = Some (result ++ take CHUNKSIZE d, Returned (bool_decide (d <> [])) en' k')
  end.
Proof.
  pose proof (io_read_append_max_next result CHUNKSIZE en k
    ltac:(unfold CHUNKSIZE; lia) ltac:(by vm_compute)) as H.
  unfold io_read_append. destruct (next_read k) as [[d|e]|].
  - destruct H as (en'&k'&->&_). exists en', k'. simpl. do 3 f_equal.
    apply bool_decide_ext. destruct d as [|x d]; simpl; [done|]. split; [done|lia].
  - destruct H as (k'&_&->). by exists k'.
  - by rewrite H.
Qed.

Example io_examples :
  io_write (B "hello") 0 [SysOk 2; SysErr EINTR; SysOk 9]
    = (B "hello", Some (Returned true EINTR []))
  /\ io_write (B "hello") 0 [SysOk 2; SysErr 5] = (B "he", Some (Returned false 5 []))%Z
  /\ io_write_some (B "hello") 0 [SysErr EINTR; SysOk 2] = (B "he", Some (Returned 2 EINTR []))%Z
  /\ io_close 0 [SysErr EINTR; SysErr 9] = Some (Returned false 9 [])%Z
  /\ io_read_exact 4 0 [SysOk (B "ab"); SysErr EINTR; SysOk (B "cdef")]
     = Ret (Some (B "abcd", Returned true EINTR [SysOk (B "ef")]))
  /\ io_read_append [] 0 [SysErr 9] = Some ([], Returned true 9 [])%Z.
Proof. by vm_compute. Qed.
