(* ===== verification/JsonValue.v ===== *)
(** * libs/jsoncpp: the Value class (json_value.cpp, the std::map build)

    A C string is the list of its characters before the terminator; a null
    pointer is [None].  The map of an object is the list of its entries in
    the order of [strcmp]; the map of an array is the list of its entries by
    index, [None] where the map has no entry for the index (the last one is
    there, by [wf]).  A [double] is an IEEE 754 binary64 number. *)

From S2P Require Import Prelude CxxString.
From Stdlib Require Export SpecFloat.

Abbreviation double := spec_float.

(** [Json::ValueType] *)
Inductive ValueType :=
| nullValue | intValue | uintValue | realValue
| stringValue | booleanValue | arrayValue | objectValue.

#[export] Instance ValueType_eq_dec : EqDecision ValueType.
Proof. solve_decision. Defined.

(** [Json::Value]: the type tag with the member of the union it selects. *)
Inductive value :=
| VNull
| VInt (i : Z)
| VUInt (u : Z)
| VReal (d : double)
| VString (s : option bytes)
| VBool (b : bool)
| VArray (a : list (option value))
| VObject (o : list (bytes * value)).

Definition minInt : Z := int_min 32.
Definition maxInt : Z := int_max 32.
Definition maxUInt : Z := (2 ^ 32 - 1)%Z.

(** ** C strings *)

(** [strcmp(s, t) < 0]; characters are compared as [unsigned char]. *)
Fixpoint strcmp_lt (s t : bytes) : bool :=
  match s, t with
  | _, [] => false
  | [], _ :: _ => true
  | c :: s', d :: t' =>
      if decide (c = d) then strcmp_lt s' t' else bool_decide (uchar c < uchar d)%Z
  end.

(** ** Constructors *)

(** [Value::Value(ValueType)] *)
Definition Value_of_type (type : ValueType) : value :=
  match type with
  | nullValue => VNull
  | intValue => VInt 0
  | uintValue => VUInt 0
  | realValue => VReal (S754_zero false)
  | stringValue => VString None
  | booleanValue => VBool false
  | arrayValue => VArray []
  | objectValue => VObject []
  end.

(** [Value::Value(const std::string &)] copies [length] bytes, but every
    reader stops at the first NUL. *)
Definition Value_of_string (s : bytes) : value := VString (Some (c_str s)).

Definition type_of (v : value) : ValueType :=
  match v with
  | VNull => nullValue | VInt _ => intValue | VUInt _ => uintValue
  | VReal _ => realValue | VString _ => stringValue | VBool _ => booleanValue
  | VArray _ => arrayValue | VObject _ => objectValue
  end.

(** ** The std::map of an object *)

(** [find] *)
Fixpoint map_find {V} (key : bytes) (m : list (bytes * V)) : option V :=
  match m with
  | [] => None
  | (k, v) :: m' =>
      if strcmp_lt k key then map_find key m'
      else if strcmp_lt key k then None else Some v
  end.

(** [lower_bound], then [insert] of the default unless the key is there, then
    assignment through the returned reference. *)
Fixpoint map_set {V} (key : bytes) (x : V) (m : list (bytes * V)) : list (bytes * V) :=
  match m with
  | [] => [(key, x)]
  | (k, v) :: m' =>
      if strcmp_lt k key then (k, v) :: map_set key x m'
      else if strcmp_lt key k then (key, x) :: m else (k, x) :: m'
  end.

(** [erase] of the found entry. *)
Fixpoint map_erase {V} (key : bytes) (m : list (bytes * V)) : list (bytes * V) :=
  match m with
  | [] => []
  | (k, v) :: m' =>
      if strcmp_lt k key then (k, v) :: map_erase key m'
      else if strcmp_lt key k then m else m'
  end.

(** ** Operations on objects *)

(** [resolveReference], with [x] assigned through the reference it returns. *)
Definition set_member (this : value) (key : bytes) (x : value) : outcome value :=
  match this with
  | VNull => Ret (VObject (map_set key x []))
  | VObject o => Ret (VObject (map_set key x o))
  | _ => Throw AssertFailed
  end.

(** The [const] subscript by name: the null value where there is none. *)
Definition get_member (this : value) (key : bytes) : outcome value :=
  match this with
  | VNull => Ret VNull
  | VObject o => Ret (default VNull (map_find key o))
  | _ => Throw AssertFailed
  end.

(** [isMember]: the reference is not the one of the static [null]. *)
Definition isMember (this : value) (key : bytes) : outcome bool :=
  match this with
  | VNull => Ret false
  | VObject o => Ret (bool_decide (is_Some (map_find key o)))
  | _ => Throw AssertFailed
  end.

(** [removeMember]: the new value of [*this] and the removed value. *)
Definition removeMember (this : value) (key : bytes) : outcome (value * value) :=
  match this with
  | VNull => Ret (VNull, VNull)
  | VObject o =>
      match map_find key o with
      | None => Ret (this, VNull)
      | Some old => Ret (VObject (map_erase key o), old)
      end
  | _ => Throw AssertFailed
  end.

(** [getMemberNames] *)
Definition getMemberNames (this : value) : outcome (list bytes) :=
  match this with
  | VNull => Ret []
  | VObject o => Ret (fst <$> o)
  | _ => Throw AssertFailed
  end.

(** ** Operations on arrays *)

(** [size] *)
Definition size (this : value) : nat :=
  match this with
  | VArray a => length a
  | VObject o => length o
  | _ => 0
  end.

(** [empty] *)
Definition empty (this : value) : bool :=
  match this with
  | VNull | VArray _ | VObject _ => bool_decide (size this = 0)
  | _ => false
  end.

(** The subscript by index ([lower_bound], [insert]), then assignment. *)
Definition set_index (this : value) (index : nat) (x : value) : outcome value :=
  let put a := VArray (take index a ++ replicate (index - length a) None
                       ++ Some x :: drop (S index) a) in
  match this with
  | VNull => Ret (put [])
  | VArray a => Ret (put a)
  | _ => Throw AssertFailed
  end.

(** The [const] subscript by index. *)
Definition get_index (this : value) (index : nat) : outcome value :=
  match this with
  | VNull => Ret VNull
  | VArray a => Ret (default VNull (default None (a !! index)))
  | _ => Throw AssertFailed
  end.

(** [append] *)
Definition append (this : value) (x : value) : outcome value :=
  set_index this (size this) x.

(** [clear] *)
Definition clear (this : value) : outcome value :=
  match this with
  | VNull => Ret VNull
  | VArray _ => Ret (VArray [])
  | VObject _ => Ret (VObject [])
  | _ => Throw AssertFailed
  end.

(** The array whose map has the entries of [a] and no trailing gap. *)
Fixpoint trim {A} (a : list (option A)) : list (option A) :=
  match a with
  | [] => []
  | o :: a' =>
      match trim a', o with
      | [], None => []
      | t, _ => o :: t
      end
  end.

(** [resize]: growing creates the last entry (null), shrinking erases the
    entries from [newSize] on and asserts the new size. *)
Definition resize (this : value) (newSize : nat) : outcome value :=
  let go a :=
    if decide (newSize = 0) then Ret (VArray [])
    else if decide (length a < newSize)
    then Ret (VArray (a ++ replicate (newSize - 1 - length a) None ++ [Some VNull]))
    else
      let a' := trim (take newSize a) in
      assert_that (length a' = newSize);;
      Ret (VArray a') in
  match this with
  | VNull => go []
  | VArray a => go a
  | _ => Throw AssertFailed
  end.

(** ** Conversions *)

(** An integer as a [double] (exact for 32 bits). *)
Definition double_of_int (z : Z) : double := binary_normalize 53 1024 z 0 false.

(** The conversion of a [double] to an integer truncates. *)
Definition int_of_double (d : double) : Z :=
  match d with
  | S754_finite s m e =>
      let a := match e with
               | Zneg p => (Zpos m / 2 ^ Zpos p)%Z
               | _ => (Zpos m * 2 ^ e)%Z
               end in
      if s then (- a)%Z else a
  | _ => 0%Z
  end.

Definition double_between (lo hi : Z) (d : double) : bool :=
  SFleb (double_of_int lo) d && SFleb d (double_of_int hi).

(** What a failed [JSON_ASSERT_MESSAGE] throws is a [std::runtime_error]. *)
Inductive converted (A : Type) :=
| Converted (a : A)
| RuntimeError.
Arguments Converted {A} a.
Arguments RuntimeError {A}.

Definition checked {A} (ok : bool) (a : A) : converted A :=
  if ok then Converted a else RuntimeError.

(** [asString] *)
Definition asString (v : value) : converted bytes :=
  match v with
  | VNull => Converted []
  | VString s => Converted (default [] s)
  | VBool b => Converted (if b then B "true" else B "false")
  | _ => RuntimeError
  end.

(** [asInt] *)
Definition asInt (v : value) : converted Z :=
  match v with
  | VNull => Converted 0%Z
  | VInt i => Converted i
  | VUInt u => checked (bool_decide (u < maxInt)%Z) u
  | VReal d => checked (double_between minInt maxInt d) (int_of_double d)
  | VBool b => Converted (if b then 1 else 0)%Z
  | _ => RuntimeError
  end.

(** [asUInt] *)
Definition asUInt (v : value) : converted Z :=
  match v with
  | VNull => Converted 0%Z
  | VInt i => checked (bool_decide (0 <= i)%Z) i
  | VUInt u => Converted u
  | VReal d => checked (double_between 0 maxUInt d) (int_of_double d)
  | VBool b => Converted (if b then 1 else 0)%Z
  | _ => RuntimeError
  end.

(** [asDouble] *)
Definition asDouble (v : value) : converted double :=
  match v with
  | VNull => Converted (S754_zero false)
  | VInt i => Converted (double_of_int i)
  | VUInt u => Converted (double_of_int u)
  | VReal d => Converted d
  | VBool b => Converted (double_of_int (if b then 1 else 0))
  | _ => RuntimeError
  end.

(** [asBool] *)
Definition asBool (v : value) : bool :=
  match v with
  | VNull => false
  | VInt i => bool_decide (i <> 0%Z)
  | VUInt u => bool_decide (u <> 0%Z)
  | VReal d => negb (SFeqb d (S754_zero false))
  | VBool b => b
  | VString s => match s with Some (_ :: _) => true | _ => false end
  | VArray _ | VObject _ => bool_decide (size v <> 0)
  end.

(** [isConvertibleTo] *)
Definition isConvertibleTo (v : value) (other : ValueType) : bool :=
  match v, other with
  | VNull, _ => true
  | VInt i, nullValue => bool_decide (i = 0%Z)
  | VInt i, uintValue => bool_decide (0 <= i)%Z
  | VInt _, (intValue | realValue | stringValue | booleanValue) => true
  | VUInt u, nullValue => bool_decide (u = 0%Z)
  | VUInt u, intValue => bool_decide (u <= maxInt)%Z
  | VUInt _, (uintValue | realValue | stringValue | booleanValue) => true
  | VReal d, nullValue => SFeqb d (S754_zero false)
  | VReal d, intValue => double_between minInt maxInt d
  | VReal d, uintValue => double_between 0 maxUInt d
  | VReal _, (realValue | stringValue | booleanValue) => true
  | VBool b, nullValue => negb b
  | VBool _, (intValue | uintValue | realValue | stringValue | booleanValue) => true
  | VString _, stringValue => true
  | VString s, nullValue => match s with Some (_ :: _) => false | _ => true end
  | VArray _, arrayValue => true
  | VArray a, nullValue => bool_decide (length a = 0)
  | VObject _, objectValue => true
  | VObject o, nullValue => bool_decide (length o = 0)
  | _, _ => false
  end.

(** The type predicates; a null counts as an array and as an object. *)
Definition isNull (v : value) : bool := bool_decide (type_of v = nullValue).
Definition isIntegral (v : value) : bool :=
  bool_decide (type_of v ∈ [intValue; uintValue; booleanValue]).
Definition isDouble (v : value) : bool := bool_decide (type_of v = realValue).
Definition isNumeric (v : value) : bool := isIntegral v || isDouble v.
Definition isString (v : value) : bool := bool_decide (type_of v = stringValue).
Definition isArray (v : value) : bool := bool_decide (type_of v ∈ [nullValue; arrayValue]).
Definition isObject (v : value) : bool := bool_decide (type_of v ∈ [nullValue; objectValue]).

(** ** Induction over a value and the values it holds *)

Section value_induction.
Variable P : value -> Prop.
Hypothesis (HNull : P VNull) (HInt : forall i, P (VInt i)) (HUInt : forall u, P (VUInt u))
  (HReal : forall d, P (VReal d)) (HString : forall s, P (VString s))
  (HBool : forall b, P (VBool b))
  (HArray : forall a, Forall (from_option P True) a -> P (VArray a))
  (HObject : forall o, Forall (fun kv => P kv.2) o -> P (VObject o)).

Fixpoint value_nested_ind (v : value) : P v :=
  match v with
  | VNull => HNull
  | VInt i => HInt i
  | VUInt u => HUInt u
  | VReal d => HReal d
  | VString s => HString s
  | VBool b => HBool b
  | VArray a => HArray a ((fix go (a : list (option value)) : Forall (from_option P True) a :=
      match a with
      | [] => Forall_nil_2 _
      | Some v :: a' => Forall_cons_2 _ (Some v) _ (value_nested_ind v) (go a')
      | None :: a' => Forall_cons_2 _ None _ I (go a')
      end) a)
  | VObject o => HObject o ((fix go (o : list (bytes * value)) : Forall (fun kv => P kv.2) o :=
      match o with
      | [] => Forall_nil_2 _
      | (k, v) :: o' => Forall_cons_2 _ (k, v) _ (value_nested_ind v) (go o')
      end) o)
  end.
End value_induction.

(** ** strcmp is a strict total order *)

Lemma strcmp_lt_irrefl s : strcmp_lt s s = false.
Proof. induction s as [|c s IH]; [done|]. simpl. by rewrite decide_True. Qed.

Lemma strcmp_lt_trans s t u :
  strcmp_lt s t = true -> strcmp_lt t u = true -> strcmp_lt s u = true.
Proof.
  revert t u. induction s as [|c s IH]; intros [|d t] [|e u]; simpl; try done.
  intros H1 H2. repeat case_decide; subst; boolify; eauto; try lia.
Qed.

Lemma strcmp_lt_total s t :
  strcmp_lt s t = false -> strcmp_lt t s = false -> s = t.
Proof.
  revert t. induction s as [|c s IH]; intros [|d t]; simpl; try done.
  intros H1 H2. case_decide as Hc; case_decide as Hd; subst; boolify; try done.
  - f_equal. by apply IH.
  - exfalso. apply Hc, uchar_inj. lia.
Qed.

(** The keys of a map are in strictly increasing order. *)
Definition keys_sorted {V} (m : list (bytes * V)) : Prop :=
  StronglySorted (fun k l => strcmp_lt k l = true) (fst <$> m).

Lemma keys_sorted_nil {V} : keys_sorted (@nil (bytes * V)).
Proof. constructor. Qed.

Lemma keys_sorted_cons {V} k (v : V) m :
  keys_sorted ((k, v) :: m) <->
  keys_sorted m /\ Forall (fun l => strcmp_lt k l = true) (fst <$> m).
Proof.
  unfold keys_sorted. simpl. split.
  - by intros [? ?]%StronglySorted_inv.
  - intros [? ?]. by constructor.
Qed.

Lemma strcmp_lt_asym s t : strcmp_lt s t = true -> strcmp_lt t s = false.
Proof.
  intros H. destruct (strcmp_lt t s) eqn:E; [|done].
  pose proof (strcmp_lt_trans _ _ _ H E) as Hs. by rewrite strcmp_lt_irrefl in Hs.
Qed.

(** Below every key, nothing is found. *)
Lemma map_find_below {V} key (m : list (bytes * V)) :
  Forall (fun l => strcmp_lt key l = true) (fst <$> m) -> map_find key m = None.
Proof.
  destruct m as [|[k v] m]; [done|]. intros [Hk _]%Forall_cons. simpl in *.
  by rewrite (strcmp_lt_asym _ _ Hk), Hk.
Qed.

Lemma map_find_set_eq {V} key (x : V) m :
  map_find key (map_set key x m) = Some x.
Proof.
  induction m as [|[k v] m IH]; simpl; [by rewrite strcmp_lt_irrefl|].
  destruct (strcmp_lt k key) eqn:E1; simpl; [by rewrite E1|].
  destruct (strcmp_lt key k) eqn:E2; simpl; [by rewrite strcmp_lt_irrefl|].
  by rewrite E1, E2.
Qed.

Lemma map_find_set_ne {V} key key' (x : V) m :
  keys_sorted m -> key <> key' -> map_find key' (map_set key x m) = map_find key' m.
Proof.
  intros Hs Hne. induction m as [|[k v] m IH]; simpl.
  - destruct (strcmp_lt key key') eqn:E1; [done|].
    destruct (strcmp_lt key' key) eqn:E2; [done|]. by apply strcmp_lt_total in E2.
  - apply keys_sorted_cons in Hs as [Hm Hk]. specialize (IH Hm).
    destruct (strcmp_lt k key) eqn:E1; simpl.
    + by rewrite IH.
    + destruct (strcmp_lt key k) eqn:E2; simpl.
      * destruct (strcmp_lt key key') eqn:E3; [done|].
        destruct (strcmp_lt key' key) eqn:E4; [|by apply strcmp_lt_total in E4].
        pose proof (strcmp_lt_trans _ _ _ E4 E2) as E5.
        by rewrite E5, (strcmp_lt_asym _ _ E5).
      * apply strcmp_lt_total in E2; [subst|done].
        destruct (strcmp_lt key key') eqn:E3; [done|].
        destruct (strcmp_lt key' key) eqn:E4; [done|]. by apply strcmp_lt_total in E4.
Qed.

Lemma map_set_keys {V} key (x : V) m l :
  l ∈ (fst <$> map_set key x m) -> l = key \/ l ∈ (fst <$> m).
Proof.
  induction m as [|[k v] m IH]; simpl; [set_solver|].
  destruct (strcmp_lt k key); simpl; [set_solver|].
  destruct (strcmp_lt key k); simpl; set_solver.
Qed.

Lemma map_set_sorted {V} key (x : V) m : keys_sorted m -> keys_sorted (map_set key x m).
Proof.
  intros Hs. induction m as [|[k v] m IH]; simpl.
  - apply keys_sorted_cons. split; [done|constructor].
  - pose proof Hs as [Hm Hk]%keys_sorted_cons. specialize (IH Hm).
    destruct (strcmp_lt k key) eqn:E1; [|destruct (strcmp_lt key k) eqn:E2].
    + apply keys_sorted_cons. split; [done|]. apply Forall_forall.
      intros l [->|Hl]%map_set_keys; [done|]. rewrite Forall_forall in Hk. by apply Hk.
    + apply keys_sorted_cons. split; [done|]. constructor; [done|].
      eapply Forall_impl; [exact Hk|]. simpl. intros l. by apply strcmp_lt_trans.
    + by apply keys_sorted_cons.
Qed.

Lemma map_erase_keys {V} key (m : list (bytes * V)) l :
  l ∈ (fst <$> map_erase key m) -> l ∈ (fst <$> m).
Proof.
  induction m as [|[k v] m IH]; simpl; [done|].
  destruct (strcmp_lt k key); simpl; [set_solver|].
  destruct (strcmp_lt key k); simpl; set_solver.
Qed.

Lemma map_erase_sorted {V} key (m : list (bytes * V)) :
  keys_sorted m -> keys_sorted (map_erase key m).
Proof.
  intros Hs. induction m as [|[k v] m IH]; simpl; [done|].
  pose proof Hs as [Hm Hk]%keys_sorted_cons.
  destruct (strcmp_lt k key); [|by destruct (strcmp_lt key k)].
  apply keys_sorted_cons. split; [by apply IH|]. apply Forall_forall.
  intros l Hl%map_erase_keys. rewrite Forall_forall in Hk. by apply Hk.
Qed.

Lemma map_find_erase_eq {V} key (m : list (bytes * V)) :
  keys_sorted m -> map_find key (map_erase key m) = None.
Proof.
  intros Hs. induction m as [|[k v] m IH]; simpl; [done|].
  apply keys_sorted_cons in Hs as [Hm Hk].
  destruct (strcmp_lt k key) eqn:E1; simpl; [rewrite E1; by apply IH|].
  destruct (strcmp_lt key k) eqn:E2; simpl; [by rewrite E1, E2|].
  apply strcmp_lt_total in E2 as ->; [|done]. by apply map_find_below.
Qed.

(** On a sorted map [find] finds exactly the entries. *)
Lemma map_find_entry {V} k (v : V) m :
  keys_sorted m -> (k, v) ∈ m -> map_find k m = Some v.
Proof.
  induction m as [|[l w] m IH]; [set_solver|].
  intros [Hm Hk]%keys_sorted_cons. rewrite elem_of_cons. intros [[= -> ->]|Hin]; simpl.
  - by rewrite strcmp_lt_irrefl.
  - rewrite Forall_forall in Hk. rewrite Hk; [by apply IH|].
    apply list_elem_of_fmap. by exists (k, v).
Qed.

(** ** Arrays *)

Lemma trim_length {A} (a : list (option A)) : length (trim a) <= length a.
Proof.
  induction a as [|o a IH]; simpl; [done|].
  destruct (trim a) as [|p t]; destruct o; simpl in *; lia.
Qed.

(** [trim] keeps everything exactly when the last entry is there. *)
Lemma trim_full {A} (a : list (option A)) :
  length (trim a) = length a <-> last a <> Some None.
Proof.
  induction a as [|o a IH]; [done|].
  cbn [trim]. pose proof (trim_length a) as Hl.
  destruct a as [|p a].
  { simpl. destruct o; naive_solver. }
  change (last (o :: p :: a)) with (last (p :: a)). rewrite <- IH.
  destruct (trim (p :: a)) as [|q t] eqn:E; destruct o; simpl in *; lia.
Qed.

Lemma trim_prefix {A} (a : list (option A)) : trim a `prefix_of` a.
Proof.
  induction a as [|o a IH]; [done|]. cbn [trim].
  destruct (trim a) as [|p t]; destruct o; try by apply prefix_cons.
  apply prefix_nil.
Qed.

Lemma trim_id {A} (a : list (option A)) : length (trim a) = length a -> trim a = a.
Proof.
  destruct (trim_prefix a) as [r Hr]. intros Hl. rewrite Hr in Hl at 2.
  rewrite length_app in Hl. destruct r; [by rewrite app_nil_r in Hr|simpl in Hl; lia].
Qed.

Lemma last_take_lookup {A} (a : list A) n :
  n <= length a -> 0 < n -> last (take n a) = a !! (n - 1).
Proof.
  intros Hn H0. rewrite last_lookup, length_take_le by done.
  replace (pred n) with (n - 1) by lia. apply lookup_take_lt. lia.
Qed.

(** ** Properties *)

(** An object behaves as a finite map: after assigning the member [key]
    its entries are still strictly sorted by [strcmp], reading [key] gives
    the value assigned and reading any other name gives what it gave before;
    removing [key] gives the old value and leaves null there. *)
Theorem object_members o key x :
  keys_sorted o ->
  exists o', set_member (VObject o) key x = Ret (VObject o') /\ keys_sorted o' /\
    (forall k, get_member (VObject o') k =
       if decide (k = key) then Ret x else get_member (VObject o) k) /\
    exists o'', removeMember (VObject o') key = Ret (VObject o'', x) /\ keys_sorted o'' /\
      isMember (VObject o'') key = Ret false.
Proof.
  intros Hs. exists (map_set key x o). split; [done|].
  pose proof (map_set_sorted key x o Hs) as Hs'. split_and!; [done| |].
  - intros k. unfold get_member. case_decide as Hk; [subst k|].
    + by rewrite map_find_set_eq.
    + by rewrite map_find_set_ne.
  - exists (map_erase key (map_set key x o)). cbn [removeMember isMember].
    rewrite map_find_set_eq, map_find_erase_eq by done.
    split_and!; [done|by apply map_erase_sorted|done].
Qed.

Lemma object_members_witness :
  keys_sorted [(B "ok", VInt 0)] /\
  exists o', set_member (VObject [(B "ok", VInt 0)]) (B "msg") VNull = Ret (VObject o')
    /\ keys_sorted o' /\
    (forall k, get_member (VObject o') k =
       if decide (k = B "msg") then Ret VNull else get_member (VObject [(B "ok", VInt 0)]) k) /\
    exists o'', removeMember (VObject o') (B "msg") = Ret (VObject o'', VNull) /\ keys_sorted o'' /\
      isMember (VObject o'') (B "msg") = Ret false.
Proof.
  assert (H : keys_sorted [(B "ok", VInt 0)])
    by (apply keys_sorted_cons; split; [apply keys_sorted_nil|constructor]).
  split; [exact H|]. exact (object_members _ (B "msg") VNull H).
Defined.

(** [isConvertibleTo] against the conversions it announces: for [asInt]
    they agree on every value but the unsigned 2147483647, which is announced
    and then refused; for [asUInt] they agree on all; for [asString] the
    numbers are announced and refused. *)
Theorem isConvertibleTo_conversions v :
  (isConvertibleTo v intValue = true <->
     (exists i, asInt v = Converted i) \/ v = VUInt maxInt) /\
  (isConvertibleTo v uintValue = true <-> exists u, asUInt v = Converted u) /\
  (isConvertibleTo v stringValue = true <->
     (exists s, asString v = Converted s) \/ type_of v ∈ [intValue; uintValue; realValue]).
Proof.
  assert (Hc : forall A (b : bool) (a : A), (exists i, checked b a = Converted i) <-> b = true).
  { intros A b a. unfold checked. destruct b; naive_solver. }
  destruct v as [|i|u|d|s|b|a|o]; cbn [isConvertibleTo asInt asUInt asString type_of];
    rewrite ?Hc, ?bool_decide_eq_true; split_and!; rewrite ?elem_of_cons, ?elem_of_nil;
    try naive_solver.
  split.
  - intros Hu. destruct (decide (u = maxInt)) as [->|]; [by right|left].
    unfold maxInt in *. lia.
  - intros [?|[= ->]]; lia.
Qed.

(** Shrinking an array fails its size assertion exactly when the entry at
    [newSize - 1] was never created, and otherwise keeps the entries below
    [newSize]. *)
Theorem resize_shrink a newSize :
  0 < newSize <= length a ->
  resize (VArray a) newSize =
    match a !! (newSize - 1) with
    | Some None => Throw AssertFailed
    | _ => Ret (VArray (take newSize a))
    end.
Proof.
  intros [H0 Hle]. unfold resize. rewrite decide_False by lia. rewrite decide_False by lia.
  pose proof (trim_full (take newSize a)) as Ht.
  rewrite length_take_le, last_take_lookup in Ht by lia. unfold assert_that.
  destruct (decide (length (trim (take newSize a)) = newSize)) as [Hf|Hf].
  - rewrite (trim_id _) by (by rewrite length_take_le).
    destruct (a !! (newSize - 1)) as [[x|]|]; tauto || done.
  - assert (a !! (newSize - 1) = Some None) as ->; [|done].
    destruct (a !! (newSize - 1)) as [[x|]|]; [|done|]; exfalso; apply Hf, Ht; done.
Qed.

Lemma resize_shrink_witness :
  0 < 2 <= length [Some VNull; None; Some VNull] /\
  resize (VArray [Some VNull; None; Some VNull]) 2 =
    match [Some VNull; None; Some VNull] !! (2 - 1) with
    | Some None => Throw AssertFailed
    | _ => Ret (VArray (take 2 [Some VNull; None; Some VNull]))
    end.
Proof.
  assert (H : 0 < 2 <= length [Some VNull; None; Some VNull]) by (simpl; lia).
  split; [exact H|]. exact (resize_shrink _ 2 H).
Defined.
