(* ===== verification/JsonWriter.v ===== *)
(** * libs/jsoncpp: FastWriter and the conversions of json_writer.cpp *)

From S2P Require Import Prelude CxxString Str JsonValue.

(** [isControlCharacter], on a signed [char]. *)
Definition isControlCharacter (ch : ascii) : bool :=
  bool_decide (schar ch > 0)%Z && bool_decide (schar ch <= 31)%Z.

Definition containsControlCharacter (str : bytes) : bool := existsb isControlCharacter str.

(** [uintToString]: [digits_loop] of a 32 byte buffer below its terminator. *)
Definition uintToString (value : Z) : outcome (nat * bytes) := digits_loop 32 value 31 [].

(** [valueToString(Int)] *)
Definition valueToString_int (value : Z) : outcome bytes :=
  let isNegative := bool_decide (value < 0)%Z in
  value ← (if isNegative
           then if decide (value = minInt) then Throw IntOverflow else Ret (- value)%Z
           else Ret value);
  '(current, text) ← uintToString value;
  if isNegative
  then match current with 0 => Throw BadIndex | S _ => Ret ("-"%char :: text) end
  else Ret text.

(** [valueToString(UInt)] *)
Definition valueToString_uint (value : Z) : outcome bytes :=
  '(_, text) ← uintToString value; Ret text.

(** [valueToString(bool)] *)
Definition valueToString_bool (value : bool) : bytes :=
  if value then B "true" else B "false".

(** The index [while ( ch > buffer && *ch == '0' ) --ch] stops at. *)
Fixpoint skip_zeros (buffer : bytes) (ch : nat) : nat :=
  match ch with
  | 0 => 0
  | S ch' => if decide (buffer !! ch = Some "0"%char) then skip_zeros buffer ch' else ch
  end.

(** The second loop of [valueToString(double)]: back over digits to a dot. *)
Fixpoint find_dot (buffer : bytes) (last_nonzero ch : nat) : bytes :=
  match buffer !! ch with
  | Some c =>
      if isdigit c then
        match ch with 0 => buffer | S ch' => find_dot buffer last_nonzero ch' end
      else if decide (c = "."%char) then take (last_nonzero + 2) buffer
      else buffer
  | None => buffer
  end.

(** [valueToString(double)] from the text [sprintf] has put in the buffer. *)
Definition trim_double_text (buffer : bytes) : bytes :=
  if decide (last buffer = Some "0"%char) then
    let last_nonzero := skip_zeros buffer (length buffer - 1) in
    find_dot buffer last_nonzero last_nonzero
  else buffer.

(** ** Quoting *)

(** The characters [strpbrk] looks for. *)
Definition special_chars : bytes :=
  [dquote; "\"%char; "008"%char; "012"%char; "010"%char; "013"%char; "009"%char].

Definition upper_hex_digit (d : Z) : ascii :=
  if decide (d < 10)%Z then char_of_Z (48 + d) else char_of_Z (55 + d).

(** [std::hex << std::uppercase << std::setfill('0') << std::setw(4)] of a
    code below 256. *)
Definition hex4 (n : Z) : bytes :=
  ["0"%char; "0"%char; upper_hex_digit (n / 16); upper_hex_digit (n `mod` 16)].

(** The [switch] of [valueToQuotedString]. *)
Definition escape_char (c : ascii) : bytes :=
  if decide (c = dquote) then ["\"%char; dquote]
  else if decide (c = "\"%char) then B "\\"
  else if decide (c = "008"%char) then B "\b"
  else if decide (c = "012"%char) then B "\f"
  else if decide (c = "010"%char) then B "\n"
  else if decide (c = "013"%char) then B "\r"
  else if decide (c = "009"%char) then B "\t"
  else if isControlCharacter c then B "\u" ++ hex4 (schar c)
  else [c].

(** [valueToQuotedString]; [strpbrk] of a null pointer is undefined. *)
Definition valueToQuotedString (value : option bytes) : outcome bytes :=
  match value with
  | None => Throw NullDeref
  | Some str =>
      if decide (Forall (fun c => c ∉ special_chars) str /\ containsControlCharacter str = false)
      then Ret (dquote :: str ++ [dquote])
      else Ret (dquote :: (str ≫= escape_char) ++ [dquote])
  end.

(** ** FastWriter *)

Section FastWriter.
(** [sprintf(buffer, "%#.16g", value)] of the C library. *)
Variable sprintf_g16 : double -> bytes.
(** [yamlCompatiblityEnabled_] *)
Variable yaml : bool.

Definition valueToString_double (value : double) : bytes :=
  trim_double_text (sprintf_g16 value).

Definition comma (first : bool) : bytes := if first then [] else B ",".

(** The loop over the items of an array; a missing entry reads as null. *)
Definition write_items (writeValue : value -> outcome bytes)
    : bool -> list (option value) -> outcome bytes :=
  fix items (first : bool) (a : list (option value)) : outcome bytes :=
    match a with
    | [] => Ret []
    | o :: a' =>
        x ← match o with Some v => writeValue v | None => Ret (B "null") end;
        r ← items false a';
        Ret (comma first ++ x ++ r)
    end.

(** The loop over the members of an object, in the order of its map, which is
    the order of [getMemberNames]. *)
Definition write_members (writeValue : value -> outcome bytes)
    : bool -> list (bytes * value) -> outcome bytes :=
  fix members (first : bool) (o : list (bytes * value)) : outcome bytes :=
    match o with
    | [] => Ret []
    | (name, v) :: o' =>
        k ← valueToQuotedString (Some name);
        x ← writeValue v;
        r ← members false o';
        Ret (comma first ++ k ++ (if yaml then B ": " else B ":") ++ x ++ r)
    end.

(** [writeValue]: the text it appends to [document_]. *)
Fixpoint writeValue (v : value) : outcome bytes :=
  match v with
  | VNull => Ret (B "null")
  | VInt i => valueToString_int i
  | VUInt u => valueToString_uint u
  | VReal d => Ret (valueToString_double d)
  | VString s => valueToQuotedString s
  | VBool b => Ret (valueToString_bool b)
  | VArray a => body ← write_items writeValue true a; Ret (B "[" ++ body ++ B "]")
  | VObject o => body ← write_members writeValue true o; Ret (B "{" ++ body ++ B "}")
  end.

(** [FastWriter::write] *)
Definition write (root : value) : outcome bytes :=
  document_ ← writeValue root;
  Ret (document_ ++ ["010"%char]).
End FastWriter.

(** ** Quoting: the two branches agree *)

Lemma escape_char_plain c :
  c ∉ special_chars -> isControlCharacter c = false -> escape_char c = [c].
Proof.
  unfold special_chars, escape_char. rewrite !not_elem_of_cons. intros H ->.
  by repeat rewrite decide_False by tauto.
Qed.

Lemma quoted_escape str :
  valueToQuotedString (Some str) = Ret (dquote :: (str ≫= escape_char) ++ [dquote]).
Proof.
  simpl. case_decide as H; [|done]. do 3 f_equal. destruct H as [Hs Hc].
  induction str as [|c str IH]; [done|]. cbn [containsControlCharacter existsb] in Hc.
  apply Forall_cons in Hs as [H1 H2]. apply orb_false_iff in Hc as [H3 H4].
  change ((c :: str) ≫= escape_char) with (escape_char c ++ (str ≫= escape_char)).
  rewrite escape_char_plain by done. simpl. f_equal. by apply IH.
Qed.

(** ** Integers *)

Lemma uintToString_ok u :
  in_uint 32 u -> exists ds, uintToString u = Ret (31 - length ds, ds) /\ is_decimal ds u
    /\ length ds <= 10.
Proof.
  intros [H0 Hu]. change (2 ^ 32)%Z with 4294967296%Z in Hu.
  assert (Hlt : (u < 10 ^ Z.of_nat 31)%Z)
    by (eapply Z.lt_le_trans; [exact Hu|by vm_compute]).
  destruct (digits_loop_spec 31 32 u []) as (ds&Hl&Hd&Hlen); [lia..|].
  exists ds. unfold uintToString. rewrite Hl, app_nil_r. split_and!; [done..|].
  pose proof Hd as (Hne&Hdig&Hv&Hz). destruct ds as [|d ds]; [done|].
  destruct (decide (d = "0"%char)) as [->|Hd0]; [rewrite Hz by done; simpl; lia|].
  pose proof (decimal_value_lower d ds Hdig Hd0) as Hlow. simpl length.
  destruct (Nat.le_gt_cases (S (length ds)) 10) as [?|Hgt]; [done|exfalso].
  assert (10 ^ 10 <= 10 ^ Z.of_nat (length ds))%Z by (apply Z.pow_le_mono_r; lia).
  change (10 ^ 10)%Z with 10000000000%Z in *. lia.
Qed.

(** The text of an integer: its numeral, after a sign if it is negative. *)
Definition int_text (i : Z) (t : bytes) : Prop :=
  exists ds, is_decimal ds (Z.abs i) /\ t = (if decide (i < 0)%Z then "-"%char :: ds else ds).

Lemma valueToString_int_ok i :
  in_int 32 i -> i <> minInt -> exists t, valueToString_int i = Ret t /\ int_text i t.
Proof.
  intros Hi Hm. unfold valueToString_int.
  destruct (uintToString_ok (Z.abs i)) as (ds&Hu&Hd&Hlen).
  { by apply (in_int_magnitude 4); [left|..]. }
  destruct (decide (i < 0)%Z) as [Hn|Hn].
  - rewrite bool_decide_true by done. rewrite decide_False by done. cbn [mbind outcome_bind].
    rewrite Z.abs_neq in Hu by lia. rewrite Hu.
    exists ("-"%char :: ds). split.
    + destruct (31 - length ds) eqn:E; [lia|done].
    + exists ds. by rewrite decide_True.
  - rewrite bool_decide_false by done. cbn [mbind outcome_bind].
    rewrite Z.abs_eq in Hu by lia. rewrite Hu.
    exists ds. split; [done|]. exists ds. by rewrite decide_False.
Qed.

Lemma valueToString_uint_ok u :
  in_uint 32 u -> exists t, valueToString_uint u = Ret t /\ is_decimal t u.
Proof.
  intros Hu. unfold valueToString_uint. destruct (uintToString_ok u Hu) as (ds&->&Hd&_).
  by exists ds.
Qed.

(** ** Lines *)

(** The characters at which the request parser of the server resyncs. *)
Definition no_newline (c : ascii) : Prop := c <> "010"%char /\ c <> "013"%char.

#[export] Instance no_newline_dec c : Decision (no_newline c).
Proof. unfold no_newline. apply _. Defined.

Definition escape_no_newline (c : ascii) : bool :=
  forallb (fun d => bool_decide (no_newline d)) (escape_char c).

Lemma escape_char_no_newline c : Forall no_newline (escape_char c).
Proof.
  assert (H : escape_no_newline c = true) by by_all_chars c.
  unfold escape_no_newline in H. apply Forall_forall. intros d Hd.
  rewrite forallb_forall in H. apply (bool_decide_eq_true (no_newline d)), H.
  by apply list_elem_of_In.
Qed.

Lemma quoted_no_newline str : Forall no_newline (dquote :: (str ≫= escape_char) ++ [dquote]).
Proof.
  constructor; [done|]. apply Forall_app. split; [|by repeat constructor].
  induction str as [|c str IH]; [constructor|].
  change ((c :: str) ≫= escape_char) with (escape_char c ++ (str ≫= escape_char)).
  apply Forall_app. split; [apply escape_char_no_newline|done].
Qed.

Lemma decimal_no_newline s v : is_decimal s v -> Forall no_newline s.
Proof.
  intros (_&Hd&_). eapply Forall_impl; [exact Hd|]. intros c Hc. split; by intros ->.
Qed.

Lemma int_text_no_newline i t : int_text i t -> Forall no_newline t.
Proof.
  intros (ds&Hd%decimal_no_newline&->). by case_decide; [constructor|].
Qed.

(** ** Values the writer accepts *)

(** Integers in range whose negation does not overflow, no null string. *)
Fixpoint writable (v : value) : Prop :=
  match v with
  | VInt i => in_int 32 i /\ i <> minInt
  | VUInt u => in_uint 32 u
  | VString s => is_Some s
  | VArray a => (fix all (a : list (option value)) : Prop :=
      match a with
      | [] => True
      | o :: a' => from_option writable True o /\ all a'
      end) a
  | VObject o => (fix all (o : list (bytes * value)) : Prop :=
      match o with [] => True | (_, v) :: o' => writable v /\ all o' end) o
  | _ => True
  end.

Definition one_line (r : outcome bytes) : Prop :=
  exists t, r = Ret t /\ Forall no_newline t.

Lemma one_line_ret t : Forall no_newline t -> one_line (Ret t).
Proof. by exists t. Qed.

Lemma one_line_bind m f :
  one_line m -> (forall t, Forall no_newline t -> one_line (f t)) -> one_line (m ≫= f).
Proof. intros (t&->&Ht) Hf. simpl. by apply Hf. Qed.

Lemma quoted_one_line str : one_line (valueToQuotedString (Some str)).
Proof. rewrite quoted_escape. apply one_line_ret, quoted_no_newline. Qed.

Ltac solve_no_newline :=
  repeat (apply Forall_app; split);
  first [done | apply (bool_decide_unpack (Forall no_newline _)); vm_compute; exact I].

Lemma writeValue_one_line fmt yaml v :
  (forall d, Forall no_newline (trim_double_text (fmt d))) ->
  writable v -> one_line (writeValue fmt yaml v).
Proof.
  intros Hfmt. induction v as [|i|u|d|s|b|a Ha|o Ho] using value_nested_ind; intros Hw.
  - apply one_line_ret. solve_no_newline.
  - destruct Hw as [Hi Hm]. destruct (valueToString_int_ok i Hi Hm) as (t&Ht&Hx).
    exists t. split; [done|]. by eapply int_text_no_newline.
  - destruct (valueToString_uint_ok u Hw) as (t&Ht&Hx).
    exists t. split; [done|]. by eapply decimal_no_newline.
  - apply one_line_ret, Hfmt.
  - destruct Hw as [str ->]. apply quoted_one_line.
  - apply one_line_ret. destruct b; solve_no_newline.
  - apply one_line_bind; [|intros t Ht; apply one_line_ret; solve_no_newline].
    enough (H : forall first, one_line (write_items (writeValue fmt yaml) first a)) by apply H.
    cbn [writable] in Hw. induction Ha as [|o a Ho _ IH]; intros first; [by apply one_line_ret|].
    destruct Hw as [Hwo Hwa]. apply one_line_bind.
    { destruct o as [v|]; [by apply Ho|apply one_line_ret; solve_no_newline]. }
    intros x Hx. apply one_line_bind; [by apply IH|]. intros r Hr.
    apply one_line_ret. destruct first; solve_no_newline.
  - apply one_line_bind; [|intros t Ht; apply one_line_ret; solve_no_newline].
    enough (H : forall first, one_line (write_members yaml (writeValue fmt yaml) first o)) by apply H.
    cbn [writable] in Hw. induction Ho as [|[k v] o Hv _ IH]; intros first; [by apply one_line_ret|].
    destruct Hw as [Hwo Hwa]. apply one_line_bind; [apply quoted_one_line|]. intros key Hk.
    apply one_line_bind; [by apply Hv|]. intros x Hx.
    apply one_line_bind; [by apply IH|]. intros r Hr.
    apply one_line_ret. destruct first, yaml; solve_no_newline.
Qed.

(** ** Doubles *)

(** Everything after the index [skip_zeros] stops at is zeros. *)
Lemma skip_zeros_suffix buffer ch :
  S ch <= length buffer ->
  skip_zeros buffer ch <= ch /\
  (forall j, skip_zeros buffer ch < j <= ch -> buffer !! j = Some "0"%char).
Proof.
  induction ch as [|ch IH]; simpl; [intros; split; [lia|intros; lia]|].
  intros Hl. case_decide as Hc; [|split; [lia|intros; lia]].
  destruct IH as [IH1 IH2]; [lia|]. split; [lia|].
  intros j Hj. destruct (decide (j = S ch)) as [->|]; [done|]. apply IH2. lia.
Qed.

Lemma find_dot_cases buffer k ch :
  find_dot buffer k ch = buffer \/
  (find_dot buffer k ch = take (k + 2) buffer /\ exists j, j <= ch /\ buffer !! j = Some "."%char).
Proof.
  induction ch as [|ch IH]; simpl.
  - destruct (buffer !! 0) as [c|] eqn:Hc; [|by left].
    destruct (isdigit c); [by left|]. case_decide; [subst|by left]. right. eauto.
  - destruct (buffer !! S ch) as [c|] eqn:Hc; [|by left].
    destruct (isdigit c).
    + destruct IH as [?|(?&j&?&?)]; [by left|right]. split; [done|]. exists j. split; [lia|done].
    + case_decide; [subst|by left]. right. eauto.
Qed.

(** ** Properties *)

(** Escaping is insensitive to the fast path: [valueToQuotedString]
    always is the opening quote, the escape of each character in turn and the
    closing quote, whether or not it finds a character to escape; the result
    never holds a newline or a carriage return; a null string faults. *)
Theorem valueToQuotedString_spec s :
  match s with
  | None => valueToQuotedString s = Throw NullDeref
  | Some str => exists q, valueToQuotedString s = Ret q
      /\ q = dquote :: (str ≫= escape_char) ++ [dquote] /\ Forall no_newline q
  end.
Proof.
  destruct s as [str|]; [|done]. rewrite quoted_escape. eexists. split_and!; [done..|].
  apply quoted_no_newline.
Qed.

(** [FastWriter::write] returns on every value without a null string or
    the least integer, and what it returns is one line: its only newline is
    its last character. *)
Theorem fastwriter_one_line fmt yaml v :
  (forall d, Forall no_newline (trim_double_text (fmt d))) -> writable v ->
  exists t, write fmt yaml v = Ret (t ++ ["010"%char]) /\ Forall no_newline t.
Proof.
  intros Hfmt Hw. destruct (writeValue_one_line fmt yaml v Hfmt Hw) as (t&Ht&Hn).
  exists t. unfold write. by rewrite Ht.
Qed.

Lemma fastwriter_one_line_witness :
  (forall d : double, Forall no_newline (trim_double_text ((fun _ => B "1.000000000000000") d))) /\
  writable (VObject [(B "a", VArray [Some (VInt (-5)); None]); (B "b", VString (Some (B "x")))]) /\
  exists t, write (fun _ => B "1.000000000000000") false
      (VObject [(B "a", VArray [Some (VInt (-5)); None]); (B "b", VString (Some (B "x")))])
    = Ret (t ++ ["010"%char]) /\ Forall no_newline t.
Proof.
  assert (H1 : forall d : double, Forall no_newline (trim_double_text ((fun _ => B "1.000000000000000") d)))
    by (intros d; vm_compute; repeat constructor; discriminate).
  assert (H2 : writable (VObject [(B "a", VArray [Some (VInt (-5)); None]); (B "b", VString (Some (B "x")))]))
    by (split_and!; try done; by eexists).
  split; [exact H1|]. split; [exact H2|]. exact (fastwriter_one_line _ false _ H1 H2).
Defined.

(** Trimming the text of a [double] only removes zeros that end it after
    a decimal point. *)
Theorem trim_double_text_spec buffer :
  exists zeros, buffer = trim_double_text buffer ++ zeros /\
    Forall (fun c => c = "0"%char) zeros /\
    (zeros <> [] -> "."%char ∈ trim_double_text buffer).
Proof.
  unfold trim_double_text. case_decide as Hl; [|exists []; by rewrite app_nil_r].
  assert (0 < length buffer) by (destruct buffer; simpl; [done|lia]).
  set (k := skip_zeros buffer (length buffer - 1)).
  destruct (skip_zeros_suffix buffer (length buffer - 1)) as [Hk Hz]; [lia|]. fold k in Hk, Hz.
  destruct (find_dot_cases buffer k k) as [->|(->&j&Hj&Hdot)];
    [exists []; by rewrite app_nil_r|].
  exists (drop (k + 2) buffer). split_and!.
  - by rewrite take_drop.
  - apply Forall_forall. intros c [i Hi]%list_elem_of_lookup. rewrite lookup_drop in Hi.
    assert (k + 2 + i < length buffer) by (by apply lookup_lt_Some in Hi).
    rewrite Hz in Hi by lia. by simplify_eq.
  - intros _. apply list_elem_of_lookup. exists j. rewrite lookup_take_lt by lia. done.
Qed.

Example writer_examples :
  write (fun _ => B "1.500000000000000") false
    (VArray [Some (VInt (-7)); None; Some (VReal (S754_zero false)); Some (VBool true)])
    = Ret (B "[-7,null,1.50,true]" ++ ["010"%char])
  /\ valueToQuotedString (Some (B "a\" ++ ["010"%char; "001"%char; dquote]))
    = Ret (dquote :: B "a\\\n\u0001\" ++ [dquote; dquote])
  /\ trim_double_text (B "1.000000000000000e+20") = B "1.000000000000000e+20".
Proof. by vm_compute. Qed.
