(* ===== verification/JsonReader.v ===== *)
(** * libs/jsoncpp: the Reader class (json_reader.cpp)

    A [Location] is an index into the document, [end_] its length; the
    character at [end_] is the terminator of the [std::string].  The state is
    [current_] and [errors_]; the other members are set once by [parse].  The
    node on top of [nodes_] is an argument of the functions that assign to it,
    and its new value a result.  Comments are skipped, not collected
    ([collectComments_] false).  The functions that only move [current_] over
    characters are recursive on the characters left. *)

From S2P Require Import Prelude CxxString JsonValue.
From stdpp Require Import pretty.

Inductive TokenType :=
| tokenEndOfStream | tokenObjectBegin | tokenObjectEnd | tokenArrayBegin | tokenArrayEnd
| tokenString | tokenNumber | tokenTrue | tokenFalse | tokenNull
| tokenArraySeparator | tokenMemberSeparator | tokenComment | tokenError.

#[export] Instance TokenType_eq_dec : EqDecision TokenType.
Proof. solve_decision. Defined.

Record Token := MkToken { type_ : TokenType; start_ : nat; end_ : nat }.

Record ErrorInfo := MkErrorInfo { token_ : Token; message_ : bytes; extra_ : option nat }.

Record Reader := MkReader { current_ : nat; errors_ : list ErrorInfo }.

(** [Features] *)
Record Features := MkFeatures { allowComments_ : bool; strictRoot_ : bool }.
Definition Features_all : Features := MkFeatures true false.
Definition strictMode : Features := MkFeatures false true.

(** [in] *)
Definition char_in (c : ascii) (s : bytes) : bool := bool_decide (c ∈ s).

(** [codePointToUTF8] *)
Definition codePointToUTF8 (cp : Z) : bytes :=
  if decide (cp <= 0x7f)%Z then [char_of_Z cp]
  else if decide (cp <= 0x7FF)%Z then
    [char_of_Z (Z.lor 0xC0 (Z.land 0x1f (Z.shiftr cp 6)));
     char_of_Z (Z.lor 0x80 (Z.land 0x3f cp))]
  else if decide (cp <= 0xFFFF)%Z then
    [char_of_Z (Z.lor 0xE0 (Z.land 0xf (Z.shiftr cp 12)));
     char_of_Z (Z.lor 0x80 (Z.land 0x3f (Z.shiftr cp 6)));
     char_of_Z (Z.lor 0x80 (Z.land 0x3f cp))]
  else if decide (cp <= 0x10FFFF)%Z then
    [char_of_Z (Z.lor 0xF0 (Z.land 0x7 (Z.shiftr cp 18)));
     char_of_Z (Z.lor 0x80 (Z.land 0x3f (Z.shiftr cp 12)));
     char_of_Z (Z.lor 0x80 (Z.land 0x3f (Z.shiftr cp 6)));
     char_of_Z (Z.lor 0x80 (Z.land 0x3f cp))]
  else [].

(** ** Scanning, from the characters left and the location of the first *)

Definition is_space (c : ascii) : bool := char_in c [" "%char; "009"%char; "013"%char; "010"%char].

(** [skipSpaces] *)
Fixpoint skip_spaces (l : bytes) (current : nat) : nat :=
  match l with
  | c :: l' => if is_space c then skip_spaces l' (S current) else current
  | [] => current
  end.

(** [readNumber] *)
Definition number_char (c : ascii) : bool := isdigit c || char_in c (B ".eE+-").

Fixpoint read_number (l : bytes) (current : nat) : nat :=
  match l with
  | c :: l' => if negb (number_char c) then current else read_number l' (S current)
  | [] => current
  end.

(** The [while] of [readString], [c] the last character it has read. *)
Fixpoint read_string (l : bytes) (current : nat) (c : ascii) : ascii * nat :=
  match l with
  | [] => (c, current)
  | c :: l' =>
      if decide (c = "\"%char) then
        match l' with
        | [] => (c, S current)
        | _ :: l'' => read_string l'' (S (S current)) c
        end
      else if decide (c = dquote) then (c, S current)
      else read_string l' (S current) c
  end.

(** The [while] of [readCStyleComment]. *)
Fixpoint read_c_comment (l : bytes) (current : nat) : nat :=
  match l with
  | [] => current
  | c :: l' =>
      if decide (c = "*"%char /\ hd NUL l' = "/"%char) then S current
      else read_c_comment l' (S current)
  end.

(** [readCppStyleComment] *)
Fixpoint read_cpp_comment (l : bytes) (current : nat) : nat :=
  match l with
  | [] => current
  | c :: l' => if char_in c ["013"%char; "010"%char] then S current
               else read_cpp_comment l' (S current)
  end.

Section Reader.
Variable features_ : Features.
Variable document_ : bytes.
(** [sscanf(buffer, "%lf", &value)] of the C library: the number, if it
    counts one. *)
Variable sscanf_lf : bytes -> option double.
(** [-Value::minInt], which overflows; the standard leaves it undefined, the
    machine gives [minInt] again. *)
Variable negated_minInt : outcome Z.

Abbreviation M := (st Reader Empty_set).

Definition set_current (p : nat) : M unit := modify (fun s => MkReader p (errors_ s)).

(** The characters from [current_] to [end_]. *)
Definition rest (s : Reader) : bytes := drop (current_ s) document_.

(** [*current_] *)
Definition deref : M ascii :=
  s ← get;
  if decide (current_ s = length document_) then mret NUL
  else lift_st (char_at document_ (current_ s)).

Definition getNextChar : M ascii :=
  s ← get;
  match rest s with
  | [] => mret NUL
  | c :: _ => set_current (S (current_ s));; mret c
  end.

Definition skipSpaces : M unit :=
  s ← get; set_current (skip_spaces (rest s) (current_ s)).

Definition readNumber : M unit :=
  s ← get; set_current (read_number (rest s) (current_ s)).

Definition readString : M bool :=
  s ← get;
  let '(c, p) := read_string (rest s) (current_ s) NUL in
  set_current p;;
  mret (bool_decide (c = dquote)).

(** [match] *)
Definition match_ (pattern : bytes) : M bool :=
  s ← get;
  if decide (take (length pattern) (rest s) = pattern) then
    set_current (current_ s + length pattern);; mret true
  else mret false.

Definition readCStyleComment : M bool :=
  s ← get;
  set_current (read_c_comment (rest s) (current_ s));;
  c ← getNextChar;
  mret (bool_decide (c = "/"%char)).

Definition readCppStyleComment : M bool :=
  s ← get; set_current (read_cpp_comment (rest s) (current_ s));; mret true.

Definition readComment : M bool :=
  c ← getNextChar;
  if decide (c = "*"%char) then readCStyleComment
  else if decide (c = "/"%char) then readCppStyleComment
  else mret false.

(** The [switch] of [readToken]: the type of the token. *)
Definition read_token_type (c : ascii) : M TokenType :=
  let ok_or_error (t : TokenType) (ok : M bool) : M TokenType :=
    b ← ok; mret (if b : bool then t else tokenError) in
  if decide (c = "{"%char) then mret tokenObjectBegin
  else if decide (c = "}"%char) then mret tokenObjectEnd
  else if decide (c = "["%char) then mret tokenArrayBegin
  else if decide (c = "]"%char) then mret tokenArrayEnd
  else if decide (c = dquote) then ok_or_error tokenString readString
  else if decide (c = "/"%char) then ok_or_error tokenComment readComment
  else if isdigit c || bool_decide (c = "-"%char) then readNumber;; mret tokenNumber
  else if decide (c = "t"%char) then ok_or_error tokenTrue (match_ (B "rue"))
  else if decide (c = "f"%char) then ok_or_error tokenFalse (match_ (B "alse"))
  else if decide (c = "n"%char) then ok_or_error tokenNull (match_ (B "ull"))
  else if decide (c = ","%char) then mret tokenArraySeparator
  else if decide (c = ":"%char) then mret tokenMemberSeparator
  else if decide (c = NUL) then mret tokenEndOfStream
  else mret tokenError.

(** [readToken], which always returns true. *)
Definition readToken : M Token :=
  skipSpaces;;
  s ← get;
  c ← getNextChar;
  t ← read_token_type c;
  s' ← get;
  mret (MkToken t (current_ s) (current_ s')).

(** The bound of the loops over tokens: each token but the last takes a
    character. *)
Definition loop_fuel : nat := S (length document_).

(** [while (token.type_ == tokenComment) readToken(token)] *)
Fixpoint skip_comments (fuel : nat) (token : Token) : M Token :=
  match fuel with
  | 0 => throw OutOfFuel
  | S fuel' =>
      if decide (type_ token = tokenComment) then
        token ← readToken; skip_comments fuel' token
      else mret token
  end.

Definition skipCommentTokens : M Token :=
  token ← readToken;
  if allowComments_ features_ then skip_comments loop_fuel token else mret token.

(** [addError], which returns false. *)
Definition addError (message : bytes) (token : Token) (extra : option nat) : M unit :=
  modify (fun s => MkReader (current_ s) (errors_ s ++ [MkErrorInfo token message extra])).

(** The [while] of [recoverFromError]. *)
Fixpoint skip_until (fuel : nat) (skipUntilToken : TokenType) : M unit :=
  match fuel with
  | 0 => throw OutOfFuel
  | S fuel' =>
      skip ← readToken;
      if decide (type_ skip = skipUntilToken \/ type_ skip = tokenEndOfStream) then mret ()
      else skip_until fuel' skipUntilToken
  end.

Definition recoverFromError (skipUntilToken : TokenType) : M unit :=
  s ← get;
  skip_until loop_fuel skipUntilToken;;
  modify (fun s' => MkReader (current_ s') (take (length (errors_ s)) (errors_ s'))).

Definition addErrorAndRecover (message : bytes) (token : Token) (skipUntilToken : TokenType)
    : M unit :=
  addError message token None;; recoverFromError skipUntilToken.

(** The text of a token. *)
Definition token_text (token : Token) : bytes :=
  take (end_ token - start_ token) (drop (start_ token) document_).

(** ** Numbers *)

Definition not_a_number (token : Token) : bytes :=
  B "'" ++ token_text token ++ B "' is not a number.".

(** [decodeDouble]: [buffer] has 32 characters, its terminator included. *)
Definition decodeDouble (token : Token) (node : value) : M (bool * value) :=
  if decide (end_ token - start_ token = 32) then throw BadIndex
  else
    match sscanf_lf (token_text token) with
    | Some value => mret (true, VReal value)
    | None => addError (not_a_number token) token None;; mret (false, node)
    end.

(** The [while] of [decodeNumber]: the value, or the first way out. *)
Inductive number_loop := Number (value : Z) | NotANumber | TooLarge.

Fixpoint decode_digits (l : bytes) (threshold value : Z) : number_loop :=
  match l with
  | [] => Number value
  | c :: l' =>
      if negb (isdigit c) then NotANumber
      else if decide (threshold <= value)%Z then TooLarge
      else decode_digits l' threshold (uwrap 32 (value * 10 + (uchar c - 48)))
  end.

Definition decodeNumber (token : Token) (node : value) : M (bool * value) :=
  let text := token_text token in
  let isDouble := existsb (fun c => char_in c (B ".eE+")) text
                  || existsb (fun c => bool_decide (c = "-"%char)) (tail text) in
  if isDouble then decodeDouble token node
  else
    let isNegative := bool_decide (head text = Some "-"%char) in
    let digits := if isNegative then tail text else text in
    threshold ← lift_st (if isNegative then m ← negated_minInt; Ret (uwrap 32 m / 10)%Z
                         else Ret (maxUInt / 10)%Z);
    match decode_digits digits threshold 0 with
    | NotANumber => addError (not_a_number token) token None;; mret (false, node)
    | TooLarge => decodeDouble token node
    | Number value =>
        mret (true, if isNegative then VInt (- swrap 32 value)
                    else if decide (value <= maxInt)%Z then VInt value else VUInt value)
    end.

(** ** Strings *)

Definition hex_digit (c : ascii) : option Z :=
  if decide (48 <= uchar c <= 57)%Z then Some (uchar c - 48)%Z
  else if decide (97 <= uchar c <= 102)%Z then Some (uchar c - 97 + 10)%Z
  else if decide (65 <= uchar c <= 70)%Z then Some (uchar c - 65 + 10)%Z
  else None.

(** The [for] of [decodeUnicodeEscapeSequence] over [n] characters of [l], at
    [current]: the code with what is left, or the location of the error. *)
Fixpoint unicode_digits (n : nat) (l : bytes) (current : nat) (unicode : Z)
    : Z * bytes * nat + nat :=
  match n with
  | 0 => inl (unicode, l, current)
  | S n' =>
      match l with
      | [] => inr current
      | c :: l' =>
          match hex_digit c with
          | Some d => unicode_digits n' l' (S current) (unicode * 16 + d)
          | None => inr (S current)
          end
      end
  end.

(** [l] is the text from [current] to [end]; [None] is the result false. *)
Definition decodeUnicodeEscapeSequence (token : Token) (l : bytes) (current : nat)
    : M (option (Z * bytes * nat)) :=
  if decide (length l < 4) then
    addError (B "Bad unicode escape sequence in string: four digits expected.") token (Some current);;
    mret None
  else
    match unicode_digits 4 l current 0 with
    | inl r => mret (Some r)
    | inr current =>
        addError (B "Bad unicode escape sequence in string: hexadecimal digit expected.")
          token (Some current);;
        mret None
    end.

Definition decodeUnicodeCodePoint (token : Token) (l : bytes) (current : nat)
    : M (option (Z * bytes * nat)) :=
  r ← decodeUnicodeEscapeSequence token l current;
  match r with
  | None => mret None
  | Some (unicode, l, current) =>
      if decide (0xD800 <= unicode <= 0xDBFF)%Z then
        if decide (length l < 6) then
          addError (B "additional six characters expected to parse unicode surrogate pair.")
            token (Some current);;
          mret None
        else
          let error current :=
            addError (B "expecting another \u token to begin the second half of a unicode surrogate pair")
              token (Some current);;
            mret None in
          match l with
          | c1 :: c2 :: l' =>
              if decide (c1 = "\"%char) then
                if decide (c2 = "u"%char) then
                  r ← decodeUnicodeEscapeSequence token l' (S (S current));
                  match r with
                  | None => mret None
                  | Some (surrogatePair, l, current) =>
                      mret (Some (0x10000 + Z.shiftl (Z.land unicode 0x3FF) 10
                                  + Z.land surrogatePair 0x3FF, l, current)%Z)
                  end
                else error (S (S current))
              else error (S current)
          | _ => throw BadIndex
          end
      else mret (Some (unicode, l, current))
  end.

(** The escapes of one character. *)
Definition simple_escape (c : ascii) : option ascii :=
  if decide (c = dquote) then Some dquote
  else if decide (c = "/"%char) then Some "/"%char
  else if decide (c = "\"%char) then Some "\"%char
  else if decide (c = "b"%char) then Some "008"%char
  else if decide (c = "f"%char) then Some "012"%char
  else if decide (c = "n"%char) then Some "010"%char
  else if decide (c = "r"%char) then Some "013"%char
  else if decide (c = "t"%char) then Some "009"%char
  else None.

(** The [while] of [decodeString]. *)
Fixpoint decode_string (fuel : nat) (token : Token) (l : bytes) (current : nat) (decoded : bytes)
    : M (option bytes) :=
  match fuel with
  | 0 => throw OutOfFuel
  | S fuel' =>
      match l with
      | [] => mret (Some decoded)
      | c :: l =>
          if decide (c = dquote) then mret (Some decoded)
          else if decide (c = "\"%char) then
            match l with
            | [] =>
                addError (B "Empty escape sequence in string") token (Some (S current));; mret None
            | escape :: l =>
                if decide (escape = "u"%char) then
                  r ← decodeUnicodeCodePoint token l (S (S current));
                  match r with
                  | None => mret None
                  | Some (unicode, l, current) =>
                      decode_string fuel' token l current (decoded ++ codePointToUTF8 unicode)
                  end
                else
                  match simple_escape escape with
                  | Some x => decode_string fuel' token l (S (S current)) (decoded ++ [x])
                  | None =>
                      addError (B "Bad escape sequence in string") token (Some (S (S current)));;
                      mret None
                  end
            end
          else decode_string fuel' token l (S current) (decoded ++ [c])
      end
  end.

(** [decodeString( Token &token, std::string &decoded )]: the quotes at both
    ends of the token are left out. *)
Definition decodeString (token : Token) : M (option bytes) :=
  let l := take (end_ token - 1 - (start_ token + 1)) (drop (start_ token + 1) document_) in
  decode_string (S (length l)) token l (start_ token + 1) [].

(** [decodeString( Token &token )] *)
Definition decodeString_value (token : Token) (node : value) : M (bool * value) :=
  decoded ← decodeString token;
  match decoded with
  | None => mret (false, node)
  | Some decoded => mret (true, Value_of_string decoded)
  end.

(** ** Values *)

(** The [while] of [readObject]: [readValue] reads into a node, [node] is the
    object so far. *)
Fixpoint readObject_loop (readValue : value -> M (bool * value)) (fuel : nat)
    (name : bytes) (node : value) : M (bool * value) :=
  match fuel with
  | 0 => throw OutOfFuel
  | S fuel' =>
      tokenName ← readToken;
      tokenName ← skip_comments loop_fuel tokenName;
      if decide (type_ tokenName = tokenObjectEnd /\ name = []) then mret (true, node)
      else if decide (type_ tokenName <> tokenString) then
        addErrorAndRecover (B "Missing '}' or object member name") tokenName tokenObjectEnd;;
        mret (false, node)
      else
        decoded ← decodeString tokenName;
        match decoded with
        | None => recoverFromError tokenObjectEnd;; mret (false, node)
        | Some name =>
            colon ← readToken;
            if decide (type_ colon <> tokenMemberSeparator) then
              addErrorAndRecover (B "Missing ':' after object member name") colon tokenObjectEnd;;
              mret (false, node)
            else
              value ← lift_st (get_member node (c_str name));
              '(ok, value) ← readValue value;
              node ← lift_st (set_member node (c_str name) value);
              if negb ok then recoverFromError tokenObjectEnd;; mret (false, node)
              else
                comma ← readToken;
                if decide (type_ comma ∉ [tokenObjectEnd; tokenArraySeparator; tokenComment]) then
                  addErrorAndRecover (B "Missing ',' or '}' in object declaration") comma
                    tokenObjectEnd;;
                  mret (false, node)
                else
                  comma ← skip_comments loop_fuel comma;
                  if decide (type_ comma = tokenObjectEnd) then mret (true, node)
                  else readObject_loop readValue fuel' name node
        end
  end.

Definition readObject (readValue : value -> M (bool * value)) : M (bool * value) :=
  readObject_loop readValue loop_fuel [] (VObject []).

(** The [while( true )] of [readArray]. *)
Fixpoint readArray_loop (readValue : value -> M (bool * value)) (fuel : nat)
    (index : nat) (node : value) : M (bool * value) :=
  match fuel with
  | 0 => throw OutOfFuel
  | S fuel' =>
      value ← lift_st (get_index node index);
      '(ok, value) ← readValue value;
      node ← lift_st (set_index node index value);
      if negb ok then recoverFromError tokenArrayEnd;; mret (false, node)
      else
        token ← readToken;
        token ← skip_comments loop_fuel token;
        let badTokenType := bool_decide (type_ token = tokenArraySeparator
                                         /\ type_ token = tokenArrayEnd) in
        if badTokenType then
          addErrorAndRecover (B "Missing ',' or ']' in array declaration") token tokenArrayEnd;;
          mret (false, node)
        else if decide (type_ token = tokenArrayEnd) then mret (true, node)
        else readArray_loop readValue fuel' (S index) node
  end.

Definition readArray (readValue : value -> M (bool * value)) : M (bool * value) :=
  skipSpaces;;
  c ← deref;
  if decide (c = "]"%char) then readToken;; mret (true, VArray [])
  else readArray_loop readValue loop_fuel 0 (VArray []).

(** [readValue] into [node]; [fuel] bounds the nesting. *)
Fixpoint readValue (fuel : nat) (node : value) : M (bool * value) :=
  match fuel with
  | 0 => throw OutOfFuel
  | S fuel' =>
      token ← skipCommentTokens;
      match type_ token with
      | tokenObjectBegin => readObject (readValue fuel')
      | tokenArrayBegin => readArray (readValue fuel')
      | tokenNumber => decodeNumber token node
      | tokenString => decodeString_value token node
      | tokenTrue => mret (true, VBool true)
      | tokenFalse => mret (true, VBool false)
      | tokenNull => mret (true, VNull)
      | _ =>
          addError (B "Syntax error: value, object or array expected.") token None;;
          mret (false, node)
      end
  end.

(** [parse( const char *, const char *, Value &, bool )] after the members
    are set. *)
Definition parse_document (root : value) : M (bool * value) :=
  '(successful, root) ← readValue loop_fuel root;
  skipCommentTokens;;
  if strictRoot_ features_ && negb (isArray root) && negb (isObject root) then
    addError (B "A valid JSON document must be either an array or an object value.")
      (MkToken tokenError 0 (length document_)) None;;
    mret (false, root)
  else mret (successful, root).

(** The [while] of [getLocationLineAndColumn], from [current] on: the line,
    from 0, and [lastLineStart]. *)
Fixpoint line_start (fuel : nat) (location current line lastLineStart : nat) : nat * nat :=
  match fuel with
  | 0 => (line, lastLineStart)
  | S fuel' =>
      match document_ !! current with
      | Some c =>
          if decide (location <= current) then (line, lastLineStart)
          else if decide (c = "013"%char) then
            let current := if decide (document_ !! S current = Some "010"%char)
                           then S (S current) else S current in
            line_start fuel' location current (S line) current
          else if decide (c = "010"%char) then
            line_start fuel' location (S current) (S line) (S current)
          else line_start fuel' location (S current) line lastLineStart
      | None => (line, lastLineStart)
      end
  end.

(** [getLocationLineAndColumn( Location, int &, int & )] *)
Definition line_and_column (location : nat) : Z * Z :=
  let '(line, lastLineStart) := line_start loop_fuel location 0 0 0 in
  (Z.of_nat line + 1, Z.of_nat location - Z.of_nat lastLineStart + 1)%Z.

(** [getLocationLineAndColumn( Location )] *)
Definition getLocationLineAndColumn (location : nat) : bytes :=
  let '(line, column) := line_and_column location in
  B "Line " ++ B (pretty line) ++ B ", Column " ++ B (pretty column).

(** [getFormatedErrorMessages] *)
Definition format_error (error : ErrorInfo) : bytes :=
  B "* " ++ getLocationLineAndColumn (start_ (token_ error)) ++ ["010"%char]
  ++ B "  " ++ message_ error ++ ["010"%char]
  ++ match extra_ error with
     | Some extra => B "See " ++ getLocationLineAndColumn extra ++ B " for detail." ++ ["010"%char]
     | None => []
     end.

Definition getFormatedErrorMessages (errors : list ErrorInfo) : bytes := errors ≫= format_error.

(** [parse( const std::string &, Value &, bool )]: whether it succeeds, the
    root, the errors. *)
Definition parse (root : value) : outcome (bool * value * list ErrorInfo) :=
  '(r, s) ← result (parse_document root (MkReader 0 []));
  Ret (r, errors_ s).
End Reader.
