(* ===== verification/JsonCompare.v ===== *)
(** * libs/jsoncpp: the comparisons of Value (json_value.cpp)

    [operator<] and [operator==] recurse on both values at once, through the
    comparisons of [std::map] (lexicographical, on pairs of a key and a value),
    so they take fuel here, as much as the values are nested.  On values
    without NaN they are a total preorder and its equality; [operator<=] is not
    the order it should be. *)

From S2P Require Import Prelude CxxString JsonValue.

(** ** The comparisons of the standard library *)

(** [operator<] of [std::pair] *)
Definition pair_less {K V} (key_less : K -> K -> bool) (less : V -> V -> bool) (x y : K * V) : bool :=
  key_less x.1 y.1 || negb (key_less y.1 x.1) && less x.2 y.2.

(** [std::lexicographical_compare], the [operator<] of [std::map] *)
Fixpoint lexicographical_compare {A} (less : A -> A -> bool) (l m : list A) : bool :=
  match l, m with
  | _, [] => false
  | [], _ :: _ => true
  | x :: l', y :: m' =>
      if less x y then true else if less y x then false else lexicographical_compare less l' m'
  end.

(** [operator==] of [std::map]: as many entries, and the same ones. *)
Fixpoint equal {A} (eq : A -> A -> bool) (l m : list A) : bool :=
  match l, m with
  | [], [] => true
  | x :: l', y :: m' => eq x y && equal eq l' m'
  | _, _ => false
  end.

Definition pair_equal {K V} (key_equal : K -> K -> bool) (eq : V -> V -> bool) (x y : K * V) : bool :=
  key_equal x.1 y.1 && eq x.2 y.2.

(** ** The comparisons of Value *)

(** The number of a [ValueType]. *)
Definition type_number (t : ValueType) : nat :=
  match t with
  | nullValue => 0 | intValue => 1 | uintValue => 2 | realValue => 3
  | stringValue => 4 | booleanValue => 5 | arrayValue => 6 | objectValue => 7
  end.

(** The entries of the map of an array, from the index [i] on. *)
Fixpoint array_entries (i : nat) (a : list (option value)) : list (nat * value) :=
  match a with
  | [] => []
  | None :: a' => array_entries (S i) a'
  | Some v :: a' => (i, v) :: array_entries (S i) a'
  end.

(** [CZString::operator<] and [CZString::operator==] on the keys of an array,
    and on those of an object. *)
Definition index_less (i j : nat) : bool := bool_decide (i < j).
Definition index_equal (i j : nat) : bool := bool_decide (i = j).
Definition name_less (s t : bytes) : bool := strcmp_lt s t.
Definition name_equal (s t : bytes) : bool := bool_decide (s = t).

(** The difference of the sizes, as an [int], then the [operator<] of the maps. *)
Definition map_less {K} (key_less : K -> K -> bool) (less : value -> value -> bool)
    (m m' : list (K * value)) : bool :=
  let delta := swrap 32 (Z.of_nat (length m) - Z.of_nat (length m')) in
  if decide (delta <> 0%Z) then bool_decide (delta < 0)%Z
  else lexicographical_compare (pair_less key_less less) m m'.

(** The two strings of a comparison, null or not. *)
Definition string_less (s t : option bytes) : bool :=
  match s, t with
  | None, Some _ => true
  | Some s, Some t => strcmp_lt s t
  | _, None => false
  end.

(** [operator<], with [less] for the values inside. *)
Definition less_with (less : value -> value -> bool) (this other : value) : bool :=
  let typeDelta := (Z.of_nat (type_number (type_of this)) - Z.of_nat (type_number (type_of other)))%Z in
  if decide (typeDelta <> 0%Z) then bool_decide (typeDelta < 0)%Z
  else
    match this, other with
    | VInt i, VInt j => bool_decide (i < j)%Z
    | VUInt i, VUInt j => bool_decide (i < j)%Z
    | VReal x, VReal y => SFltb x y
    | VBool x, VBool y => negb x && y
    | VString s, VString t => string_less s t
    | VArray a, VArray b => map_less index_less less (array_entries 0 a) (array_entries 0 b)
    | VObject o, VObject p => map_less name_less less o p
    | _, _ => false
    end.

Fixpoint less_fuel (fuel : nat) (this other : value) : bool :=
  match fuel with 0 => false | S fuel' => less_with (less_fuel fuel') this other end.

(** [operator==], with [eq] for the values inside. *)
Definition equal_with (eq : value -> value -> bool) (this other : value) : bool :=
  match this, other with
  | VNull, VNull => true
  | VInt i, VInt j => bool_decide (i = j)
  | VUInt i, VUInt j => bool_decide (i = j)
  | VReal x, VReal y => SFeqb x y
  | VBool x, VBool y => bool_decide (x = y)
  | VString s, VString t => bool_decide (s = t)
  | VArray a, VArray b => equal (pair_equal index_equal eq) (array_entries 0 a) (array_entries 0 b)
  | VObject o, VObject p => equal (pair_equal name_equal eq) o p
  | _, _ => false
  end.

Fixpoint equal_fuel (fuel : nat) (this other : value) : bool :=
  match fuel with 0 => false | S fuel' => equal_with (equal_fuel fuel') this other end.

(** How deep the values in a value are. *)
Fixpoint height (v : value) : nat :=
  match v with
  | VArray a => S ((fix all a := match a with [] => 0 | o :: a' => Nat.max (from_option height 0 o) (all a') end) a)
  | VObject o => S ((fix all o := match o with [] => 0 | (_, v) :: o' => Nat.max (height v) (all o') end) o)
  | _ => 0
  end.

(** [operator<], [operator==] and the ones made from them. *)
Definition value_less (this other : value) : bool := less_fuel (S (Nat.max (height this) (height other))) this other.
Definition value_equal (this other : value) : bool := equal_fuel (S (Nat.max (height this) (height other))) this other.
Definition value_greater (this other : value) : bool := value_less other this.
Definition value_less_equal (this other : value) : bool := negb (value_greater other this).
Definition value_greater_equal (this other : value) : bool := negb (value_less this other).
Definition value_not_equal (this other : value) : bool := negb (value_equal this other).

(** [Value::compare], whose body is a comment. *)
Definition value_compare (this other : value) : Z := 0.

(** ** Lawful comparisons *)

(** The comparison in three ways that an [operator<] makes. *)
Definition cmp {A} (less : A -> A -> bool) (x y : A) : comparison :=
  if less x y then Lt else if less y x then Gt else Eq.

(** What a comparison has to satisfy at [x], on the elements of [D]. *)
Record lawful {A} (D : A -> Prop) (c : A -> A -> comparison) (x : A) : Prop := {
  lawful_sym : forall y, D y -> c y x = CompOpp (c x y);
  lawful_eq_l : forall y z, D y -> D z -> c x y = Eq -> c x z = c y z;
  lawful_eq_r : forall y z, D y -> D z -> c y z = Eq -> c x z = c x y;
  lawful_lt : forall y z, D y -> D z -> c x y = Lt -> c y z = Lt -> c x z = Lt;
}.

Lemma lawful_ext {A} (D : A -> Prop) c c' x : (forall x y, c x y = c' x y) -> lawful D c x -> lawful D c' x.
Proof. intros H [H1 H2 H3 H4]. split; intros *; rewrite <- !H; eauto. Qed.

(** One comparison, then another one where the first is [Eq]. *)
Definition then_cmp (c d : comparison) : comparison := match c with Eq => d | c => c end.

(** The comparisons of lists and of pairs, on those of their parts. *)
Fixpoint list_cmp {A} (c : A -> A -> comparison) (l m : list A) : comparison :=
  match l, m with
  | [], [] => Eq
  | _, [] => Gt
  | [], _ => Lt
  | x :: l', y :: m' => then_cmp (c x y) (list_cmp c l' m')
  end.

Definition pair_cmp {K V} (ck : K -> K -> comparison) (c : V -> V -> comparison) (x y : K * V) : comparison :=
  then_cmp (ck x.1 y.1) (c x.2 y.2).

Lemma cmp_lexicographical {A} (less : A -> A -> bool) l : forall m,
  cmp (lexicographical_compare less) l m = list_cmp (cmp less) l m.
Proof.
  induction l as [|x l IH]; intros [|y m]; try done. specialize (IH m). unfold cmp in *.
  cbn [lexicographical_compare list_cmp]. destruct (less x y), (less y x); done.
Qed.

Lemma cmp_pair {K V} (kl : K -> K -> bool) (less : V -> V -> bool) x y :
  cmp (pair_less kl less) x y = pair_cmp (cmp kl) (cmp less) x y.
Proof.
  unfold cmp, pair_cmp, pair_less. destruct (kl x.1 y.1), (kl y.1 x.1); cbn; try done.
Qed.

Lemma cmp_Lt {A} (less : A -> A -> bool) x y : cmp less x y = Lt <-> less x y = true.
Proof. unfold cmp. destruct (less x y), (less y x); done. Qed.

(** A strict total order is lawful. *)
Lemma strict_order_lawful {A} (less : A -> A -> bool) :
  (forall x, less x x = false) ->
  (forall x y z, less x y = true -> less y z = true -> less x z = true) ->
  (forall x y, less x y = false -> less y x = false -> x = y) ->
  forall D x, lawful D (cmp less) x.
Proof.
  intros Hi Ht Hq D x.
  assert (Ha : forall x y, less x y = true -> less y x = false).
  { intros a b H. destruct (less b a) eqn:E; [|done]. pose proof (Ht _ _ _ H E). by rewrite Hi in *. }
  assert (He : forall x y, cmp less x y = Eq -> x = y).
  { intros a b. unfold cmp. destruct (less a b) eqn:E1, (less b a) eqn:E2; try done. by auto. }
  split.
  - intros y _. unfold cmp. destruct (less x y) eqn:E1; [by rewrite (Ha _ _ E1)|by destruct (less y x)].
  - by intros y z _ _ ->%He.
  - by intros y z _ _ ->%He.
  - intros y z _ _. rewrite !cmp_Lt. eauto.
Qed.

Lemma then_cmp_opp c d : CompOpp (then_cmp c d) = then_cmp (CompOpp c) (CompOpp d).
Proof. by destruct c, d. Qed.

(** Comparing in two ways in turn; the laws of the second one are only needed
    where the first finds nothing. *)
Lemma then_lawful {A} (D : A -> Prop) (c d : A -> A -> comparison) x :
  lawful D c x -> lawful (fun y => D y /\ c x y = Eq) d x -> lawful D (fun x y => then_cmp (c x y) (d x y)) x.
Proof.
  intros Hc Hd. split.
  - intros y Hy. rewrite (lawful_sym _ _ _ Hc y Hy), then_cmp_opp.
    destruct (c x y) eqn:E; cbn; try done. by apply (lawful_sym _ _ _ Hd).
  - intros y z Hy Hz. destruct (c x y) eqn:E; cbn; try done. intros Hxy.
    rewrite (lawful_eq_l _ _ _ Hc y z Hy Hz E). destruct (c y z) eqn:E'; cbn; try done.
    apply (lawful_eq_l _ _ _ Hd); try done. split; [done|].
    by rewrite (lawful_eq_l _ _ _ Hc y z Hy Hz E).
  - intros y z Hy Hz. destruct (c y z) eqn:E; cbn; try done. intros Hyz.
    pose proof (lawful_eq_r _ _ _ Hc y z Hy Hz E) as Hxz. rewrite Hxz.
    destruct (c x y) eqn:E'; cbn; try done. by apply (lawful_eq_r _ _ _ Hd).
  - intros y z Hy Hz. destruct (c x y) eqn:E; cbn; try done; intros H1 H2.
    + rewrite (lawful_eq_l _ _ _ Hc y z Hy Hz E). destruct (c y z) eqn:E'; cbn in *; try done.
      apply (lawful_lt _ _ _ Hd y z); try done. split; [done|].
      by rewrite (lawful_eq_l _ _ _ Hc y z Hy Hz E).
    + destruct (c y z) eqn:E'; try done.
      * by rewrite (lawful_eq_r _ _ _ Hc y z Hy Hz E'), E.
      * by rewrite (lawful_lt _ _ _ Hc y z Hy Hz E E').
Qed.

(** Comparing what [f] makes of the elements. *)
Lemma map_lawful {A C} (f : A -> C) (D : A -> Prop) (E : C -> Prop) c x :
  (forall y, D y -> E (f y)) -> lawful E c (f x) -> lawful D (fun x y => c (f x) (f y)) x.
Proof. intros HD [H1 H2 H3 H4]. split; naive_solver. Qed.

Lemma list_lawful {A} (D : A -> Prop) (c : A -> A -> comparison) l :
  Forall (lawful D c) l -> lawful (Forall D) (list_cmp c) l.
Proof.
  induction 1 as [|x l [Hs Hl Hr Ht] _ [IHs IHl IHr IHt]].
  - split; [by intros [|y m]|..]; intros [|y m] [|z n]; done.
  - split.
    + intros [|y m]; [done|]. intros [Hy Hm]%Forall_cons. cbn [list_cmp].
      rewrite then_cmp_opp, Hs by done. by rewrite IHs.
    + intros [|y m] [|z n]; try done. intros [Hy Hm]%Forall_cons [Hz Hn]%Forall_cons.
      cbn [list_cmp]. destruct (c x y) eqn:E; cbn; try done. intros E'.
      rewrite (Hl y z Hy Hz E). by rewrite (IHl m n Hm Hn E').
    + intros [|y m] [|z n]; try done. intros [Hy Hm]%Forall_cons [Hz Hn]%Forall_cons.
      cbn [list_cmp]. destruct (c y z) eqn:E; cbn; try done. intros E'.
      rewrite (Hr y z Hy Hz E). by rewrite (IHr m n Hm Hn E').
    + intros [|y m] [|z n]; try done. intros [Hy Hm]%Forall_cons [Hz Hn]%Forall_cons.
      cbn [list_cmp]. destruct (c x y) eqn:E; cbn; try done.
      * intros H1. rewrite (Hl y z Hy Hz E). destruct (c y z); cbn; try done. intros H2.
        by apply (IHt m n).
      * intros _. destruct (c y z) eqn:E'; cbn; try done; intros _.
        -- by rewrite (Hr y z Hy Hz E'), E.
        -- by rewrite (Ht y z Hy Hz E E').
Qed.

(** ** The order of the numbers *)

Definition z_less (x y : Z) : bool := bool_decide (x < y)%Z.

Lemma z_lawful D x : lawful D (cmp z_less) x.
Proof. apply strict_order_lawful; unfold z_less; intros *; rewrite ?bool_decide_eq_true, ?bool_decide_eq_false; lia. Qed.

Lemma index_lawful D x : lawful D (cmp index_less) x.
Proof. apply strict_order_lawful; unfold index_less; intros *; rewrite ?bool_decide_eq_true, ?bool_decide_eq_false; lia. Qed.

Lemma bool_lawful D x : lawful D (cmp (fun x y => negb x && y)) x.
Proof. apply strict_order_lawful; [by intros []|by intros [] [] []|by intros [] []]. Qed.

Lemma name_lawful D x : lawful D (cmp name_less) x.
Proof. apply strict_order_lawful; [apply strcmp_lt_irrefl|apply strcmp_lt_trans|apply strcmp_lt_total]. Qed.

Lemma string_lawful D x : lawful D (cmp string_less) x.
Proof.
  apply strict_order_lawful.
  - intros [s|]; [apply strcmp_lt_irrefl|done].
  - intros [s|] [t|] [u|]; try done. apply strcmp_lt_trans.
  - intros [s|] [t|]; try done. cbn. intros H1 H2. f_equal. by apply strcmp_lt_total.
Qed.

(** A [double] that is a number, as the list of integers its order is the
    lexicographical one of. *)
Definition double_key (d : double) : list Z :=
  match d with
  | S754_nan => []
  | S754_zero _ => [0; 0; 0]%Z
  | S754_infinity s => [if s then (-2)%Z else 2%Z; 0; 0]%Z
  | S754_finite s m e => if s then [-1; - e; - Zpos m]%Z else [1; e; Zpos m]%Z
  end.

Lemma cmp_z x y : cmp z_less x y = (x ?= y)%Z.
Proof.
  unfold cmp, z_less. repeat case_bool_decide; symmetry.
  - by apply Z.compare_lt_iff.
  - by apply Z.compare_gt_iff.
  - apply Z.compare_eq_iff. lia.
Qed.

Lemma double_compare x y : x <> S754_nan -> y <> S754_nan ->
  SFcompare x y = Some (list_cmp (cmp z_less) (double_key x) (double_key y)).
Proof.
  intros Hx Hy. destruct x as [| | |[] mx ex], y as [| | |[] my ey]; try done;
    cbn [SFcompare double_key list_cmp then_cmp]; rewrite ?cmp_z; try done;
    try (by destruct s); try (by destruct s, s0).
  - rewrite (Z.compare_opp ex ey), (Z.compare_opp (Z.pos mx) (Z.pos my)).
    rewrite (Z.compare_antisym ex ey), (Z.compare_antisym (Z.pos mx) (Z.pos my)).
    change (PosDef.Pos.compare_cont Eq mx my) with (Pos.compare mx my).
    cbn. by destruct (ex ?= ey)%Z, (Pos.compare mx my).
  - change (PosDef.Pos.compare_cont Eq mx my) with (Pos.compare mx my).
    cbn. by destruct (ex ?= ey)%Z, (Pos.compare mx my).
Qed.

Lemma cmp_double x y : x <> S754_nan -> y <> S754_nan ->
  cmp SFltb x y = list_cmp (cmp z_less) (double_key x) (double_key y).
Proof.
  intros Hx Hy. unfold cmp, SFltb. rewrite !double_compare by done.
  rewrite (lawful_sym (Forall (fun _ => True)) _ (double_key x)).
  - by destruct (list_cmp _ _ _).
  - apply list_lawful, Forall_true. intros. apply z_lawful.
  - by apply Forall_true.
Qed.

Lemma double_eqb x y : x <> S754_nan -> y <> S754_nan ->
  SFeqb x y = match cmp SFltb x y with Eq => true | _ => false end.
Proof. intros Hx Hy. unfold SFeqb. by rewrite cmp_double, double_compare. Qed.

Lemma double_lawful x : x <> S754_nan -> lawful (fun y => y <> S754_nan) (cmp SFltb) x.
Proof.
  intros Hx.
  assert (H : lawful (fun y => y <> S754_nan) (fun x y => list_cmp (cmp z_less) (double_key x) (double_key y)) x).
  { apply (map_lawful double_key _ (Forall (fun _ => True)) (list_cmp (cmp z_less)));
      [intros; by apply Forall_true|]. apply list_lawful, Forall_true. intros. apply z_lawful. }
  destruct H as [H1 H2 H3 H4]. split.
  - intros y Hy. rewrite !cmp_double by done. by apply H1.
  - intros y z Hy Hz. rewrite !cmp_double by done. by apply H2.
  - intros y z Hy Hz. rewrite !cmp_double by done. by apply H3.
  - intros y z Hy Hz. rewrite !cmp_double by done. by apply H4.
Qed.

(** ** The fuel is enough *)

Lemma lexicographical_ext {A} (less less' : A -> A -> bool) l : forall m,
  (forall x y, x ∈ l -> y ∈ m -> less x y = less' x y /\ less y x = less' y x) ->
  lexicographical_compare less l m = lexicographical_compare less' l m.
Proof.
  induction l as [|x l IH]; intros [|y m] H; [done..|]. cbn.
  destruct (H x y) as [-> ->]; [set_solver..|]. rewrite (IH m); [done|]. set_solver.
Qed.

Lemma equal_ext {A} (eq eq' : A -> A -> bool) l : forall m,
  (forall x y, x ∈ l -> y ∈ m -> eq x y = eq' x y) -> equal eq l m = equal eq' l m.
Proof.
  induction l as [|x l IH]; intros [|y m] H; [done..|]. cbn.
  rewrite (H x y) by set_solver. rewrite (IH m); [done|]. set_solver.
Qed.

(** A value with the height of its parts below [n]. *)
Definition below {K} (n : nat) (m : list (K * value)) : Prop := Forall (fun kv => height kv.2 < n) m.

Lemma height_array a : forall i, below (height (VArray a)) (array_entries i a).
Proof.
  intros i. cbn [height]. unfold below. revert i.
  induction a as [|[v|] a IH]; intros i; cbn [array_entries]; [constructor|constructor|];
    [cbn; lia|..]; (eapply Forall_impl; [apply IH|]); cbn; lia.
Qed.

Lemma height_object o : below (height (VObject o)) o.
Proof.
  cbn [height]. unfold below. induction o as [|[k v] o IH]; constructor; [cbn; lia|].
  eapply Forall_impl; [exact IH|]. cbn. lia.
Qed.

Lemma map_less_ext {K} (kl : K -> K -> bool) less less' n m m' : below n m -> below n m' ->
  (forall v w, height v < n -> height w < n -> less v w = less' v w) ->
  map_less kl less m m' = map_less kl less' m m'.
Proof.
  unfold below. rewrite !Forall_forall. intros Hm Hm' H. unfold map_less. case_decide; [done|].
  apply lexicographical_ext. intros [k v] [l w] Hv%Hm Hw%Hm'. cbn in *. unfold pair_less. cbn.
  by rewrite !H.
Qed.

Lemma pairs_equal_ext {K} (ke : K -> K -> bool) eq eq' n m m' : below n m -> below n m' ->
  (forall v w, height v < n -> height w < n -> eq v w = eq' v w) ->
  equal (pair_equal ke eq) m m' = equal (pair_equal ke eq') m m'.
Proof.
  unfold below. rewrite !Forall_forall. intros Hm Hm' H.
  apply equal_ext. intros [k v] [l w] Hv%Hm Hw%Hm'. cbn in *. unfold pair_equal. cbn. by rewrite H.
Qed.

Lemma below_le {K} n n' (m : list (K * value)) : below n m -> n <= n' -> below n' m.
Proof. intros H Hn. eapply Forall_impl; [exact H|]. cbn. lia. Qed.

Lemma less_with_ext less less' v w n : height v <= n -> height w <= n ->
  (forall v w, height v < n -> height w < n -> less v w = less' v w) -> less_with less v w = less_with less' v w.
Proof.
  intros Hv Hw H. unfold less_with. case_decide; [done|].
  destruct v, w; try done; apply (map_less_ext _ _ _ n); try done;
    eapply below_le; eauto using height_array, height_object.
Qed.

Lemma equal_with_ext eq eq' v w n : height v <= n -> height w <= n ->
  (forall v w, height v < n -> height w < n -> eq v w = eq' v w) -> equal_with eq v w = equal_with eq' v w.
Proof.
  intros Hv Hw H. unfold equal_with.
  destruct v, w; try done; apply (pairs_equal_ext _ _ _ n); try done;
    eapply below_le; eauto using height_array, height_object.
Qed.

Lemma fuel_enough n : forall m v w, height v < n -> height w < n -> height v < m -> height w < m ->
  less_fuel n v w = less_fuel m v w /\ equal_fuel n v w = equal_fuel m v w.
Proof.
  induction n as [|n IH]; [lia|]. intros [|m] v w Hv Hw Hv' Hw'; [lia|]. cbn. split.
  - apply (less_with_ext _ _ v w (Nat.max (height v) (height w))); [lia..|].
    intros v' w' Hx Hy. apply IH; lia.
  - apply (equal_with_ext _ _ v w (Nat.max (height v) (height w))); [lia..|].
    intros v' w' Hx Hy. apply IH; lia.
Qed.

Lemma value_less_eq v w : value_less v w = less_with value_less v w.
Proof.
  unfold value_less at 1. cbn [less_fuel].
  apply (less_with_ext _ _ v w (Nat.max (height v) (height w))); [lia..|].
  intros v' w' Hx Hy. apply fuel_enough; lia.
Qed.

Lemma value_equal_eq v w : value_equal v w = equal_with value_equal v w.
Proof.
  unfold value_equal at 1. cbn [equal_fuel].
  apply (equal_with_ext _ _ v w (Nat.max (height v) (height w))); [lia..|].
  intros v' w' Hx Hy. apply fuel_enough; lia.
Qed.

(** ** The order of the values *)

(** The values with an order: no NaN, and sizes that fit an [int]. *)
Fixpoint comparable (v : value) : Prop :=
  match v with
  | VReal d => d <> S754_nan
  | VArray a => (Z.of_nat (length a) < 2 ^ 31)%Z /\ (fix all (a : list (option value)) : Prop :=
      match a with [] => True | o :: a' => from_option comparable True o /\ all a' end) a
  | VObject o => (Z.of_nat (length o) < 2 ^ 31)%Z /\ (fix all (o : list (bytes * value)) : Prop :=
      match o with [] => True | (_, v) :: o' => comparable v /\ all o' end) o
  | _ => True
  end.

Definition comparable_map {K} (m : list (K * value)) : Prop :=
  (Z.of_nat (length m) < 2 ^ 31)%Z /\ Forall (fun kv => comparable kv.2) m.

Lemma entries_length a : forall i, length (array_entries i a) <= length a.
Proof. induction a as [|[v|] a IH]; intros i; cbn; [done|..]; specialize (IH (S i)); lia. Qed.

Lemma entries_Forall (P : value -> Prop) a : forall i, Forall (from_option P True) a ->
  Forall (fun kv => P kv.2) (array_entries i a).
Proof.
  induction a as [|[v|] a IH]; intros i; cbn; [done|..]; intros [Hv Ha]%Forall_cons; auto.
Qed.

Lemma comparable_array a : comparable (VArray a) -> comparable_map (array_entries 0 a).
Proof.
  cbn [comparable]. intros [Hl Ha]. split; [pose proof (entries_length a 0); lia|]. apply entries_Forall.
  clear Hl. induction a as [|o a IH]; [done|]. destruct Ha. constructor; auto.
Qed.

Lemma comparable_object o : comparable (VObject o) -> comparable_map o.
Proof.
  cbn [comparable]. intros [Hl Ho]. split; [done|]. clear Hl.
  induction o as [|[k v] o IH]; [done|]. destruct Ho. constructor; auto.
Qed.

Definition map_cmp {K} (kl : K -> K -> bool) (m m' : list (K * value)) : comparison :=
  then_cmp (cmp index_less (length m) (length m')) (list_cmp (pair_cmp (cmp kl) (cmp value_less)) m m').

Lemma list_cmp_ext {A} (c c' : A -> A -> comparison) (H : forall x y, c x y = c' x y) l : forall m,
  list_cmp c l m = list_cmp c' l m.
Proof. induction l as [|x l IH]; intros [|y m]; cbn; [done..|]. by rewrite H, IH. Qed.

Lemma cmp_map {K} (kl : K -> K -> bool) m m' : comparable_map m -> comparable_map m' ->
  cmp (map_less kl value_less) m m' = map_cmp kl m m'.
Proof.
  intros [Hm _] [Hm' _]. unfold map_cmp.
  rewrite <- (list_cmp_ext (cmp (pair_less kl value_less))) by (intros; apply cmp_pair).
  rewrite <- cmp_lexicographical. unfold cmp at 1, map_less.
  rewrite !swrap_small by (try done; bounds; simpl; lia). unfold cmp at 1, index_less.
  destruct (decide (length m < length m')) as [Hl|Hl]; [|destruct (decide (length m' < length m)) as [Hg|Hg]].
  - rewrite decide_True by lia. by rewrite !bool_decide_true by lia.
  - rewrite !decide_True by lia. rewrite bool_decide_false by lia. rewrite bool_decide_true by lia.
    rewrite bool_decide_false by lia. by rewrite bool_decide_true by lia.
  - rewrite !decide_False by lia. by rewrite !bool_decide_false by lia.
Qed.

Lemma map_cmp_lawful {K} (kl : K -> K -> bool) m :
  (forall D k, lawful D (cmp kl) k) -> Forall (fun kv => lawful comparable (cmp value_less) kv.2) m ->
  lawful comparable_map (map_cmp kl) m.
Proof.
  intros Hk Hv. apply then_lawful.
  - apply (map_lawful length _ (fun _ => True) (cmp index_less)); [done|apply index_lawful].
  - assert (Hp : Forall (lawful (fun kv => comparable kv.2) (pair_cmp (cmp kl) (cmp value_less))) m).
    { eapply Forall_impl; [exact Hv|]. intros [k v] H. apply then_lawful.
      - by apply (map_lawful fst _ (fun _ => True) (cmp kl)).
      - apply (map_lawful snd _ comparable (cmp value_less)); [|done]. by intros ? [? _]. }
    apply list_lawful in Hp as [H1 H2 H3 H4].
    split; [intros y [[_ Hy] _]; auto|..]; intros y z [[_ Hy] _] [[_ Hz] _]; eauto.
Qed.

(** A law on what a constructor [f] is made of, for the values of its type. *)
Lemma constructor_lawful {C} (f : C -> value) (D : value -> Prop) (E : C -> Prop) c x :
  (forall v, D v -> exists y, v = f y /\ E y) ->
  (forall x y, E x -> E y -> cmp value_less (f x) (f y) = c x y) ->
  E x -> lawful E c x -> lawful D (cmp value_less) (f x).
Proof.
  intros HD Hc Hx [H1 H2 H3 H4]. split.
  - intros v (y&->&Hy)%HD. rewrite !Hc by done. by apply H1.
  - intros v w (y&->&Hy)%HD (z&->&Hz)%HD. rewrite !Hc by done. by apply H2.
  - intros v w (y&->&Hy)%HD (z&->&Hz)%HD. rewrite !Hc by done. by apply H3.
  - intros v w (y&->&Hy)%HD (z&->&Hz)%HD. rewrite !Hc by done. by apply H4.
Qed.

Definition number_of (v : value) : nat := type_number (type_of v).

(** The types first, then the values of the same type. *)
Lemma cmp_value v w : cmp value_less v w
  = then_cmp (cmp index_less (number_of v) (number_of w)) (cmp value_less v w).
Proof.
  unfold cmp at 1 3. rewrite (value_less_eq v w), (value_less_eq w v). unfold less_with, cmp, index_less.
  fold (number_of v) (number_of w).
  destruct (decide (number_of v < number_of w)) as [Hl|Hl]; [|destruct (decide (number_of w < number_of v)) as [Hg|Hg]].
  - rewrite decide_True by lia. by rewrite !bool_decide_true by lia.
  - rewrite !decide_True by lia. rewrite bool_decide_false by lia. rewrite bool_decide_true by lia.
    rewrite bool_decide_false by lia. by rewrite bool_decide_true by lia.
  - rewrite !decide_False by lia. by rewrite !bool_decide_false by lia.
Qed.

Lemma types_lawful v : comparable v ->
  lawful (fun w => comparable w /\ type_of w = type_of v) (cmp value_less) v -> lawful comparable (cmp value_less) v.
Proof.
  intros Hv H.
  assert (Ht : lawful comparable (fun v w => then_cmp (cmp index_less (number_of v) (number_of w)) (cmp value_less v w)) v).
  { apply then_lawful.
    - apply (map_lawful number_of _ (fun _ => True) (cmp index_less)); [done|apply index_lawful].
    - assert (He : forall w, cmp index_less (number_of v) (number_of w) = Eq -> type_of w = type_of v)
        by (intros w; destruct v, w; by vm_compute).
      destruct H as [H1 H2 H3 H4].
      split; [intros y [Hy Ey%He]; auto|..]; intros y z [Hy Ey%He] [Hz Ez%He]; eauto. }
  eapply lawful_ext; [|exact Ht]. intros. symmetry. apply cmp_value.
Qed.

Lemma unit_lawful D x : lawful D (fun _ _ : unit => Eq) x.
Proof. by split. Qed.

Lemma comparable_items a : comparable (VArray a) -> Forall (from_option comparable True) a.
Proof.
  cbn [comparable]. intros [_ Ha]. induction a as [|o a IH]; [constructor|]. destruct Ha. constructor; auto.
Qed.

Lemma value_lawful v : comparable v -> lawful comparable (cmp value_less) v.
Proof.
  induction v as [|i|u|d|s|b|a IH|o IH] using value_nested_ind; intros Hv; (apply types_lawful; [done|]).
  - apply (constructor_lawful (fun _ => VNull) _ (fun _ => True) (fun _ _ => Eq) ()); [|done..|apply unit_lawful].
    intros [] [_ ?]; naive_solver.
  - apply (constructor_lawful VInt _ (fun _ => True) (cmp z_less)); [|done..|apply z_lawful].
    intros [] [_ ?]; naive_solver.
  - apply (constructor_lawful VUInt _ (fun _ => True) (cmp z_less)); [|done..|apply z_lawful].
    intros [] [_ ?]; naive_solver.
  - apply (constructor_lawful VReal _ (fun d => d <> S754_nan) (cmp SFltb)); [|done..|by apply double_lawful].
    intros [] [? ?]; naive_solver.
  - apply (constructor_lawful VString _ (fun _ => True) (cmp string_less)); [|done..|apply string_lawful].
    intros [] [_ ?]; naive_solver.
  - apply (constructor_lawful VBool _ (fun _ => True) (cmp (fun x y => negb x && y))); [|done..|apply bool_lawful].
    intros [] [_ ?]; naive_solver.
  - apply (constructor_lawful VArray _ (fun a => comparable (VArray a))
      (fun a b => map_cmp index_less (array_entries 0 a) (array_entries 0 b))); [| |done|].
    + intros [] [? ?]; naive_solver.
    + intros x y Hx%comparable_array Hy%comparable_array. rewrite <- cmp_map by done.
      unfold cmp. by rewrite (value_less_eq (VArray x)), (value_less_eq (VArray y)).
    + apply (map_lawful (array_entries 0) _ comparable_map (map_cmp index_less)); [apply comparable_array|].
      apply map_cmp_lawful; [apply index_lawful|]. apply entries_Forall.
      apply comparable_items in Hv. rewrite Forall_forall in IH, Hv |- *. intros [v|] Hx; [|done].
      apply (IH _ Hx), (Hv _ Hx).
  - apply (constructor_lawful VObject _ (fun o => comparable (VObject o)) (map_cmp name_less)); [| |done|].
    + intros [] [? ?]; naive_solver.
    + intros x y Hx%comparable_object Hy%comparable_object. rewrite <- cmp_map by done.
      unfold cmp. by rewrite (value_less_eq (VObject x)), (value_less_eq (VObject y)).
    + apply (map_lawful (fun o => o) _ comparable_map (map_cmp name_less)); [apply comparable_object|].
      apply map_cmp_lawful; [apply name_lawful|]. apply comparable_object in Hv as [_ Hv].
      rewrite Forall_forall in IH, Hv |- *. auto.
Qed.

(** ** Equality *)

Lemma equal_cmp {A} (D : A -> Prop) (eq : A -> A -> bool) c l : forall m,
  Forall (fun x => forall y, D y -> eq x y = match c x y with Eq => true | _ => false end) l -> Forall D m ->
  equal eq l m = match list_cmp c l m with Eq => true | _ => false end.
Proof.
  induction l as [|x l IH]; intros [|y m]; try done. intros [Hx Hl]%Forall_cons [Hy Hm]%Forall_cons.
  cbn. rewrite Hx, IH by done. by destruct (c x y).
Qed.

Definition is_eq (c : comparison) : bool := match c with Eq => true | _ => false end.

(** For a strict total order, [Eq] is equality. *)
Lemma total_is_eq {A} (less : A -> A -> bool) `{EqDecision A} :
  (forall x, less x x = false) -> (forall x y, less x y = false -> less y x = false -> x = y) ->
  forall x y, bool_decide (x = y) = is_eq (cmp less x y).
Proof.
  intros Hi Ht x y. unfold cmp. case_bool_decide as H; [subst; by rewrite Hi|].
  destruct (less x y) eqn:E1, (less y x) eqn:E2; try done. by destruct H; auto.
Qed.

Lemma z_is_eq x y : bool_decide (x = y) = is_eq (cmp z_less x y).
Proof. apply total_is_eq; unfold z_less; intros *; rewrite ?bool_decide_eq_false; lia. Qed.

Lemma index_is_eq x y : bool_decide (x = y) = is_eq (cmp index_less x y).
Proof. apply total_is_eq; unfold index_less; intros *; rewrite ?bool_decide_eq_false; lia. Qed.

Lemma name_is_eq x y : bool_decide (x = y) = is_eq (cmp name_less x y).
Proof. apply total_is_eq; [apply strcmp_lt_irrefl|apply strcmp_lt_total]. Qed.

Lemma string_is_eq x y : bool_decide (x = y) = is_eq (cmp string_less x y).
Proof.
  apply total_is_eq; [intros [s|]; [apply strcmp_lt_irrefl|done]|].
  intros [s|] [t|]; try done. cbn. intros H1 H2. f_equal. by apply strcmp_lt_total.
Qed.

Lemma list_cmp_length {A} (c : A -> A -> comparison) l : forall m, list_cmp c l m = Eq -> length l = length m.
Proof.
  induction l as [|x l IH]; intros [|y m]; cbn; try done. destruct (c x y); cbn; try done. by intros ->%IH.
Qed.

Lemma map_is_eq {K} (kl ke : K -> K -> bool) m m' :
  (forall k k', ke k k' = is_eq (cmp kl k k')) ->
  Forall (fun kv => forall w, comparable w -> value_equal kv.2 w = is_eq (cmp value_less kv.2 w)) m ->
  comparable_map m -> comparable_map m' ->
  equal (pair_equal ke value_equal) m m' = is_eq (cmp (map_less kl value_less) m m').
Proof.
  intros Hk Hv Hm Hm'. rewrite cmp_map by done. unfold map_cmp.
  rewrite (equal_cmp (fun kv => comparable kv.2) _ (pair_cmp (cmp kl) (cmp value_less))); [| |apply Hm'].
  - fold (is_eq (list_cmp (pair_cmp (cmp kl) (cmp value_less)) m m')).
    destruct (list_cmp _ m m') eqn:E; cbn.
    + apply list_cmp_length in E. rewrite E. by rewrite <- (bool_decide_true (length m' = length m') eq_refl), index_is_eq; destruct (cmp index_less _ _).
    + by destruct (cmp index_less _ _).
    + by destruct (cmp index_less _ _).
  - eapply Forall_impl; [exact Hv|]. intros [k v] H [k' w] Hw. cbn in *. unfold pair_equal, pair_cmp. cbn.
    rewrite Hk, H by done. by destruct (cmp kl k k').
Qed.

Lemma value_is_eq v : forall w, comparable v -> comparable w ->
  value_equal v w = is_eq (cmp value_less v w).
Proof.
  induction v as [|i|u|d|s|b|a IH|o IH] using value_nested_ind; intros w Hv Hw;
    rewrite value_equal_eq; destruct w as [|i'|u'|d'|s'|b'|a'|o']; try done;
    unfold cmp; rewrite value_less_eq, (value_less_eq _ (_ _)); try done; cbn [equal_with].
  - apply z_is_eq.
  - apply z_is_eq.
  - by apply double_eqb.
  - apply string_is_eq.
  - by destruct b, b'.
  - apply (map_is_eq index_less); [apply index_is_eq| |by apply comparable_array..].
    apply (entries_Forall (fun v => forall w, comparable w -> value_equal v w = is_eq (cmp value_less v w))).
    apply comparable_items in Hv. rewrite Forall_forall in IH, Hv |- *.
    intros [v|] Hx; [|done]. intros w Hw'. apply (IH _ Hx); [apply (Hv _ Hx)|done].
  - apply (map_is_eq name_less); [apply name_is_eq| |by apply comparable_object..].
    apply comparable_object in Hv as [_ Hv]. rewrite Forall_forall in IH, Hv |- *. auto.
Qed.

(** ** Properties *)

(** C27: [operator<] and [operator==] order the values that have no NaN and no
    container of [2 ^ 31] entries: of [u < v], [u == v] and [v < u] exactly one
    is true; [<] is transitive; values that are [==] cannot be told apart by
    [<], so [==] is an equivalence. *)
Theorem value_order u v w : comparable u -> comparable v -> comparable w ->
  match value_less u v, value_equal u v, value_less v u with
  | true, false, false | false, true, false | false, false, true => True
  | _, _, _ => False
  end
  /\ (value_less u v = true -> value_less v w = true -> value_less u w = true)
  /\ (value_equal u v = true -> value_less u w = value_less v w /\ value_less w u = value_less w v).
Proof.
  intros Hu Hv Hw. rewrite value_is_eq by done.
  pose proof (value_lawful u Hu) as [Hs Hl _ Ht]. specialize (Hs v Hv) as Hsv. split_and!.
  - unfold cmp in *. by destruct (value_less u v), (value_less v u).
  - rewrite <- !cmp_Lt. by apply Ht.
  - intros E. assert (Euv : cmp value_less u v = Eq) by by destruct (cmp value_less u v).
    pose proof (Hl v w Hv Hw Euv) as H1.
    pose proof (lawful_sym _ _ _ (value_lawful u Hu) w Hw) as H2.
    pose proof (lawful_sym _ _ _ (value_lawful v Hv) w Hw) as H3. rewrite H1 in H2.
    rewrite <- H3 in H2. unfold cmp in H1, H2.
    destruct (value_less u w), (value_less w u), (value_less v w), (value_less w v); done.
Qed.

Definition order_demo : value := VObject [(B "a", VArray [Some (VReal (S754_zero false)); None; Some (VInt 2)])].
Definition order_demo' : value := VObject [(B "a", VArray [Some (VReal (S754_zero true)); None; Some (VInt 2)])].
Definition order_demo'' : value := VObject [(B "a", VArray [Some (VReal (S754_zero true)); Some VNull])].

Lemma value_order_witness :
  comparable order_demo /\ value_equal order_demo order_demo' = true /\ value_less order_demo' order_demo'' = false
  /\ value_less order_demo order_demo'' = value_less order_demo' order_demo''.
Proof.
  assert (H1 : comparable order_demo) by by vm_compute.
  assert (H2 : comparable order_demo') by by vm_compute.
  assert (H3 : comparable order_demo'') by by vm_compute.
  split; [exact H1|]. split; [by vm_compute|]. split; [by vm_compute|].
  apply (value_order order_demo order_demo' order_demo'' H1 H2 H3). by vm_compute.
Defined.

(** [operator<=] has its operands the wrong way round: [u <= v] is true
    exactly when [v] is less than [u] or equal to it, and [operator>=] is the
    same function. *)
Theorem less_equal_inverted u v : comparable u -> comparable v ->
  value_less_equal u v = value_less v u || value_equal u v
  /\ value_less_equal u v = value_greater_equal u v.
Proof.
  intros Hu Hv. split; [|done]. rewrite value_is_eq by done.
  pose proof (lawful_sym _ _ _ (value_lawful u Hu) v Hv) as Hs.
  unfold value_less_equal, value_greater, cmp in *. by destruct (value_less u v), (value_less v u).
Qed.

Lemma less_equal_inverted_witness :
  value_less_equal (VInt 1) (VInt 2) = value_less (VInt 2) (VInt 1) || value_equal (VInt 1) (VInt 2)
  /\ value_less_equal (VInt 1) (VInt 2) = false.
Proof. split; [by apply (less_equal_inverted (VInt 1) (VInt 2))|by vm_compute]. Defined.
