(* ===== verification/JsonTypes.v ===== *)
(** * Well-formed values

    What every value the library makes satisfies: its integers are in the
    range of their type, its strings and its keys end at their terminator, its
    maps are sorted by [strcmp], and the last entry of an array is there.  The
    operations of [Value] keep it, and [Reader::parse] establishes it. *)

From S2P Require Import Prelude CxxString JsonValue JsonReader.

Fixpoint wf (v : value) : Prop :=
  match v with
  | VInt i => in_int 32 i
  | VUInt u => in_uint 32 u
  | VString s => from_option (fun str => NUL ∉ str) True s
  | VArray a => last a <> Some None /\ (fix all (a : list (option value)) : Prop :=
      match a with
      | [] => True
      | o :: a' => from_option wf True o /\ all a'
      end) a
  | VObject o => keys_sorted o /\ (fix all (o : list (bytes * value)) : Prop :=
      match o with [] => True | (k, v) :: o' => ((NUL ∉ k) /\ wf v) /\ all o' end) o
  | _ => True
  end.

Definition member_wf (kv : bytes * value) : Prop := (NUL ∉ kv.1) /\ wf kv.2.

Lemma wf_array a : wf (VArray a) <-> last a <> Some None /\ Forall (from_option wf True) a.
Proof.
  cbn [wf]. apply and_iff_compat_l. induction a as [|o a IH]; [done|].
  by rewrite Forall_cons, <- IH.
Qed.

Lemma wf_object o : wf (VObject o) <-> keys_sorted o /\ Forall member_wf o.
Proof.
  cbn [wf]. apply and_iff_compat_l. induction o as [|[k v] o IH]; [done|].
  by rewrite Forall_cons, <- IH.
Qed.

Lemma c_str_no_NUL s : NUL ∉ c_str s.
Proof.
  induction s as [|c s IH]; simpl; [by apply not_elem_of_nil|].
  case_decide; [by apply not_elem_of_nil|]. apply not_elem_of_cons. by split; [intros <-|].
Qed.

(** ** The maps *)

Lemma map_set_wf key x m : NUL ∉ key -> wf x -> Forall member_wf m -> Forall member_wf (map_set key x m).
Proof.
  intros Hk Hx. induction m as [|[k v] m IH]; intros Hm; simpl; [by repeat constructor|].
  apply Forall_cons in Hm as [[Hkv Hv] Hm].
  repeat case_match; repeat constructor; auto.
Qed.

Lemma map_erase_wf key m : Forall member_wf m -> Forall member_wf (map_erase key m).
Proof.
  induction m as [|[k v] m IH]; intros Hm; simpl; [done|].
  pose proof Hm as [[Hkv Hv] Hm']%Forall_cons. repeat case_match; [|done..]. constructor; auto. by split.
Qed.

Lemma map_find_wf key m : Forall member_wf m -> wf (default VNull (map_find key m)).
Proof.
  induction m as [|[k v] m IH]; intros Hm; simpl; [done|].
  apply Forall_cons in Hm as [[_ Hv] Hm]. repeat case_match; [by apply IH|done..].
Qed.

Lemma last_drop {A} (a : list A) n : n < length a -> last (drop n a) = last a.
Proof. intros Hn. rewrite !last_lookup, lookup_drop, length_drop. f_equal. lia. Qed.

(** ** The operations *)

Definition keeps (r : outcome value) : Prop := forall v, r = Ret v -> wf v.

Lemma set_member_wf this key x : NUL ∉ key -> wf this -> wf x -> keeps (set_member this key x).
Proof.
  intros Hk Hthis Hx v. destruct this as [| | | | | | |o]; cbn [set_member]; intros [= <-].
  - apply wf_object. split; [|by repeat constructor]. by apply (map_set_sorted key x []), keys_sorted_nil.
  - apply wf_object in Hthis as [Hs Ho]. apply wf_object.
    split; [by apply map_set_sorted|by apply map_set_wf].
Qed.

Lemma get_member_wf this key : wf this -> keeps (get_member this key).
Proof.
  intros Hthis v. destruct this as [| | | | | | |o]; cbn [get_member]; intros [= <-]; [done|].
  apply wf_object in Hthis as [_ Ho]. by apply map_find_wf.
Qed.

Lemma removeMember_wf this key v old : wf this -> removeMember this key = Ret (v, old) -> wf v /\ wf old.
Proof.
  intros Hthis. destruct this as [| | | | | | |o]; cbn [removeMember]; [by intros [= <- <-]|done..|].
  pose proof Hthis as [Hs Ho]%wf_object. pose proof (map_find_wf key o Ho) as Hf.
  destruct (map_find key o) as [w|]; intros [= <- <-]; [|done].
  split; [|done]. apply wf_object. split; [by apply map_erase_sorted|by apply map_erase_wf].
Qed.

Lemma set_index_wf this index x : wf this -> wf x -> keeps (set_index this index x).
Proof.
  intros Hthis Hx v Hv.
  assert (Hput : forall a, last a <> Some None -> Forall (from_option wf True) a ->
    wf (VArray (take index a ++ replicate (index - length a) None ++ Some x :: drop (S index) a))).
  { intros a Hl Ha. apply wf_array. split.
    - rewrite app_assoc, last_app_cons. destruct (drop (S index) a) eqn:E; [done|].
      rewrite last_cons_cons, <- E, last_drop; [done|].
      apply (f_equal length) in E. rewrite length_drop in E. simpl in E. lia.
    - repeat (apply Forall_app; split); [by apply Forall_take|by apply Forall_replicate|].
      constructor; [done|]. by apply Forall_drop. }
  destruct this as [| | | | | |a|]; cbn [set_index] in Hv; try done; injection Hv as <-.
  - by apply (Hput []).
  - apply wf_array in Hthis as [Hl Ha]. by apply Hput.
Qed.

Lemma get_index_wf this index : wf this -> keeps (get_index this index).
Proof.
  intros Hthis v. destruct this as [| | | | | | a|]; cbn [get_index]; intros [= <-]; [done|].
  apply wf_array in Hthis as [_ Ha]. rewrite Forall_lookup in Ha.
  destruct (a !! index) as [[x|]|] eqn:E; [|done..]. by apply (Ha index (Some x)).
Qed.

Lemma append_wf this x : wf this -> wf x -> keeps (append this x).
Proof. apply set_index_wf. Qed.

Lemma clear_wf this : wf this -> keeps (clear this).
Proof.
  intros Hthis v. destruct this; cbn [clear]; intros [= <-]; try done.
  apply wf_object. split; [apply keys_sorted_nil|done].
Qed.

Lemma trim_last {A} (a : list (option A)) : last (trim a) <> Some None.
Proof. apply trim_full. f_equal. induction a as [|o a IH]; [done|]. cbn [trim].
  destruct (trim a) as [|p t] eqn:E; destruct o; try done; cbn [trim] in *; by rewrite IH.
Qed.

Lemma resize_wf this newSize : wf this -> keeps (resize this newSize).
Proof.
  intros Hthis v Hv.
  assert (Hgo : forall a, last a <> Some None -> Forall (from_option wf True) a ->
    keeps (resize (VArray a) newSize)).
  { intros a Hl Ha v'. cbn [resize]. case_decide; [intros [= <-]; by apply wf_array|].
    case_decide; [intros [= <-]|].
    - apply wf_array. split.
      + rewrite app_assoc, last_snoc. done.
      + repeat (apply Forall_app; split); [done|by apply Forall_replicate|by repeat constructor].
    - unfold assert_that. case_decide; [|done]. intros [= <-]. apply wf_array.
      split; [apply trim_last|]. destruct (trim_prefix (take newSize a)) as [r Hr].
      assert (Ht : Forall (from_option wf True) (take newSize a)) by by apply Forall_take.
      rewrite Hr in Ht. by apply Forall_app in Ht as [? _]. }
  destruct this as [| | | | | |a|]; try done.
  - by apply (Hgo [] ltac:(done) ltac:(done)).
  - apply wf_array in Hthis as [Hl Ha]. by apply (Hgo a Hl Ha).
Qed.



(** ** The reader *)

Section reader.
Variable features_ : Features.
Variable document_ : bytes.
Variable sscanf_lf : bytes -> option double.

Abbreviation M := (st Reader Empty_set).

(** When [m] returns, its value satisfies [P]. *)
Definition gives {A} (m : M A) (P : A -> Prop) : Prop :=
  forall s l a s', m s = (l, Ret (a, s')) -> P a.

Lemma gives_ret {A} (a : A) (P : A -> Prop) : P a -> gives (mret a) P.
Proof. by intros Ha s l b s' [= <- <- <-]. Qed.

Lemma gives_throw {A} f (P : A -> Prop) : gives (throw f) P.
Proof. intros s l a s' H. discriminate H. Qed.

Lemma gives_bind {A C} (m : M A) (f : A -> M C) P Q :
  gives m P -> (forall a, P a -> gives (f a) Q) -> gives (m ≫= f) Q.
Proof.
  intros Hm Hf s l c s' H. apply st_bind_inv in H as (l1&a&s1&l2&H1&H2&_).
  exact (Hf a (Hm _ _ _ _ H1) _ _ _ _ H2).
Qed.

Lemma gives_any {A} (m : M A) : gives m (fun _ => True).
Proof. by intros s l a s' _. Qed.

Lemma gives_then {A C} (m : M A) (f : A -> M C) Q : (forall a, gives (f a) Q) -> gives (m ≫= f) Q.
Proof. intros Hf. eapply gives_bind; [apply gives_any|auto]. Qed.

Lemma gives_lift {A} (o : outcome A) (P : A -> Prop) :
  (forall a, o = Ret a -> P a) -> gives (lift_st o) P.
Proof. intros Ho s l a s'. destruct o; [|intros H; discriminate H]. intros [= <- <- <-]. by apply Ho. Qed.

Definition node_wf (r : bool * value) : Prop := wf r.2.

Lemma decode_digits_range ds thr : forall v x, (0 <= v < 10 * thr)%Z -> (10 * thr <= 2 ^ 32)%Z ->
  decode_digits ds thr v = Number x -> (0 <= x < 10 * thr)%Z.
Proof.
  induction ds as [|c ds IH]; intros v x Hv Hthr; cbn [decode_digits]; [by intros [= <-]|].
  destruct (isdigit c) eqn:Hc; [|done]. cbn [negb]. case_decide as Hd; [done|].
  unfold isdigit in Hc. apply bool_decide_eq_true in Hc.
  apply IH; [|done]. unfold uwrap. rewrite Z.mod_small by lia. lia.
Qed.

Lemma decodeDouble_gives t node : wf node -> gives (decodeDouble document_ sscanf_lf t node) node_wf.
Proof.
  intros Hn. unfold decodeDouble. case_decide; [apply gives_throw|].
  destruct (sscanf_lf _); [by apply gives_ret|]. apply gives_then. intros _. by apply gives_ret.
Qed.

Lemma decodeNumber_gives t node :
  wf node -> gives (decodeNumber document_ sscanf_lf (Ret minInt) t node) node_wf.
Proof.
  intros Hn. unfold decodeNumber. case_match; [by apply decodeDouble_gives|].
  eapply gives_bind; [by apply gives_lift; intros thr Hthr; exact Hthr|]. intros thr Hthr.
  destruct (decode_digits _ thr 0) as [x| |] eqn:E; [|apply gives_then; intros _; by apply gives_ret|
    by apply decodeDouble_gives].
  apply gives_ret. unfold node_wf. cbn [snd].
  destruct (bool_decide (head (token_text document_ t) = Some "-"%char)).
  - assert (thr = 214748364%Z) as -> by (by injection Hthr).
    apply decode_digits_range in E; [|lia..]. cbn [wf].
    rewrite swrap_small by (try done; unfold in_int, int_min, int_max; simpl; lia).
    unfold in_int, int_min, int_max; simpl; lia.
  - assert (thr = 429496729%Z) as -> by (by injection Hthr).
    apply decode_digits_range in E; [|lia..].
    case_decide as Hd; cbn [wf]; unfold in_int, in_uint, int_min; [unfold maxInt in Hd|]; simpl; lia.
Qed.

Lemma decodeString_value_gives t node :
  wf node -> gives (decodeString_value document_ t node) node_wf.
Proof.
  intros Hn. apply gives_then. intros [decoded|]; apply gives_ret; [|done]. apply c_str_no_NUL.
Qed.

Definition reads_wf (readValue : value -> M (bool * value)) : Prop :=
  forall node, wf node -> gives (readValue node) node_wf.

Lemma readObject_loop_gives read fuel : reads_wf read -> forall name node,
  wf node -> gives (readObject_loop document_ read fuel name node) node_wf.
Proof.
  intros Hread. induction fuel as [|fuel IH]; intros name node Hn; [apply gives_throw|].
  cbn [readObject_loop]. apply gives_then; intros t0. apply gives_then; intros t.
  case_decide; [by apply gives_ret|]. case_decide; [apply gives_then; intros _; by apply gives_ret|].
  apply gives_then; intros [key|]; [|apply gives_then; intros _; by apply gives_ret].
  apply gives_then; intros colon. case_decide; [apply gives_then; intros _; by apply gives_ret|].
  eapply gives_bind; [apply gives_lift, get_member_wf, Hn|]. intros v Hv.
  eapply gives_bind; [by apply Hread|]. intros [ok v'] Hv'.
  eapply gives_bind; [apply gives_lift, set_member_wf; [apply c_str_no_NUL|done..]|]. intros node' Hn'.
  destruct ok; cbn [negb]; [|apply gives_then; intros _; by apply gives_ret].
  apply gives_then; intros comma. case_decide; [apply gives_then; intros _; by apply gives_ret|].
  apply gives_then; intros comma'. case_decide; [by apply gives_ret|by apply IH].
Qed.

Lemma readArray_loop_gives read fuel : reads_wf read -> forall index node,
  wf node -> gives (readArray_loop document_ read fuel index node) node_wf.
Proof.
  intros Hread. induction fuel as [|fuel IH]; intros index node Hn; [apply gives_throw|].
  cbn [readArray_loop].
  eapply gives_bind; [apply gives_lift, get_index_wf, Hn|]. intros v Hv.
  eapply gives_bind; [by apply Hread|]. intros [ok v'] Hv'.
  eapply gives_bind; [apply gives_lift, set_index_wf; done|]. intros node' Hn'.
  destruct ok; cbn [negb]; [|apply gives_then; intros _; by apply gives_ret].
  apply gives_then; intros t. apply gives_then; intros t'.
  destruct (bool_decide _); [apply gives_then; intros _; by apply gives_ret|].
  case_decide; [by apply gives_ret|by apply IH].
Qed.

Lemma readValue_gives fuel : reads_wf (readValue features_ document_ sscanf_lf (Ret minInt) fuel).
Proof.
  induction fuel as [|fuel IH]; intros node Hn; [apply gives_throw|]. cbn [readValue].
  apply gives_then; intros t. destruct (type_ t); try (by apply gives_ret);
    try (apply gives_then; intros _; by apply gives_ret).
  - apply readObject_loop_gives; [done|]. apply wf_object. split; [apply keys_sorted_nil|done].
  - unfold readArray. apply gives_then; intros _. apply gives_then; intros c.
    case_decide; [apply gives_then; intros _; by apply gives_ret|].
    by apply readArray_loop_gives; [|apply wf_array].
  - by apply decodeString_value_gives.
  - by apply decodeNumber_gives.
Qed.
End reader.

(** C25: What [Reader::parse] puts into the root is well-formed, whether or not it
    succeeds. *)
Theorem parse_well_formed features document sscanf root ok v errors :
  wf root -> parse features document sscanf (Ret minInt) root = Ret (ok, v, errors) -> wf v.
Proof.
  intros Hroot H.
  assert (Hg : gives (parse_document features document sscanf (Ret minInt) root) node_wf).
  { unfold parse_document. eapply gives_bind; [by apply readValue_gives|]. intros [b v0] Hv0.
    apply gives_then; intros t. case_match; [apply gives_then; intros _|]; by apply gives_ret. }
  unfold parse in H. destruct (parse_document _ _ _ _ _ _) as [l [[r s]|f]] eqn:E; [|done].
  injection H as -> <-. exact (Hg _ _ _ _ E).
Qed.

Lemma parse_well_formed_witness :
  wf VNull /\
  wf (VObject [(B "a", VArray [Some (VInt (-3)); Some VNull]); (B "b", VUInt 3000000000)]).
Proof.
  assert (H : wf VNull) by exact I. split; [exact H|].
  refine (parse_well_formed Features_all
    ("{"%char :: dquote :: B "b" ++ dquote :: B ":3000000000," ++ dquote :: B "a" ++ dquote :: B ":[-3,null]}")
    (fun _ => None) VNull true _ [] H _).
  vm_compute. reflexivity.
Defined.
