(* ===== verification/JsonPath.v ===== *)
(** * libs/jsoncpp: Path, get and isValidIndex (json_value.cpp)

    A pointer into a path is what is left of it, up to the terminator that
    [c_str] puts after the end.  Indices are those of JsonValue: below
    [2 ^ 31], where the [int] of a key is the index. *)

From S2P Require Import Prelude CxxString Str JsonValue JsonTypes.

(** [PathArgument] *)
Inductive PathArgument :=
| kindNone
| kindIndex (index_ : Z)
| kindKey (key_ : bytes).

(** [PathArgument( const std::string & )] keeps what its [c_str] is. *)
Definition PathArgument_of_string (key : bytes) : PathArgument := kindKey (c_str key).

(** ** Value::get and isValidIndex *)

Definition isValidIndex (this : value) (index : nat) : bool := bool_decide (index < size this).

Definition get_index_or (this : value) (index : nat) (defaultValue : value) : outcome value :=
  match this with
  | VNull => Ret defaultValue
  | VArray a => Ret (default defaultValue (default None (a !! index)))
  | _ => Throw AssertFailed
  end.

Definition get_member_or (this : value) (key : bytes) (defaultValue : value) : outcome value :=
  match this with
  | VNull => Ret defaultValue
  | VObject o => Ret (default defaultValue (map_find key o))
  | _ => Throw AssertFailed
  end.

(** ** Parsing *)

Definition deref (current : bytes) : ascii := hd NUL current.

(** [strchr( "[.", c )], which finds the terminator too. *)
Definition ends_name (c : ascii) : bool := bool_decide (c ∈ ["["%char; "."%char; NUL]).

(** The loop over the digits of an index: the index, and what is left. *)
Fixpoint read_index (current : bytes) (index : Z) : Z * bytes :=
  match current with
  | c :: current' =>
      if isdigit c then read_index current' (uwrap 32 (index * 10 + (uchar c - 48))) else (index, current)
  | [] => (index, [])
  end.

(** The loop over a name. *)
Fixpoint read_name (current : bytes) : bytes * bytes :=
  match current with
  | c :: current' =>
      if ends_name c then ([], current)
      else let '(name, rest) := read_name current' in (c :: name, rest)
  | [] => ([], [])
  end.

Inductive Kind := KindIndex | KindKey.

(** [addPathInArg]: [itInArg] is the arguments from the iterator on; the
    errors do nothing, and the iterator stays where it is. *)
Definition addPathInArg (itInArg : list PathArgument) (kind : Kind) (args : list PathArgument) : list PathArgument :=
  match itInArg, kind with
  | kindIndex i :: _, KindIndex => args ++ [kindIndex i]
  | kindKey k :: _, KindKey => args ++ [kindKey k]
  | _, _ => args
  end.

(** The check of the closing bracket, with [*current++]: [invalidPath] does
    nothing. *)
Definition close_bracket (current : bytes) : bytes := tail current.

(** A turn of the loop: what is left of the path, and the arguments. *)
Definition path_step (itInArg : list PathArgument) (current : bytes) (args : list PathArgument) :
    bytes * list PathArgument :=
  let c := deref current in
  if decide (c = "["%char) then
    let current := tail current in
    if decide (deref current = "%"%char) then
      (close_bracket current, addPathInArg itInArg KindIndex args)
    else
      let '(index, current) := read_index current 0 in
      (close_bracket current, args ++ [kindIndex index])
  else if decide (c = "%"%char) then (tail current, addPathInArg itInArg KindKey args)
  else if decide (c = "."%char) then (tail current, args)
  else
    let '(name, current) := read_name current in
    (current, args ++ [PathArgument_of_string name]).

(** [makePath], with fuel for its loop. *)
Fixpoint makePath_loop (fuel : nat) (itInArg : list PathArgument) (current : bytes) (args : list PathArgument) :
    outcome (list PathArgument) :=
  match current, fuel with
  | [], _ => Ret args
  | _, 0 => Throw OutOfFuel
  | _, S fuel' =>
      let '(current, args) := path_step itInArg current args in
      makePath_loop fuel' itInArg current args
  end.

Definition makePath (path : bytes) (in_ : list PathArgument) : outcome (list PathArgument) :=
  makePath_loop (length path) in_ path [].

(** [Path::Path] *)
Definition Path (path : bytes) (a1 a2 a3 a4 a5 : PathArgument) : outcome (list PathArgument) :=
  makePath path [a1; a2; a3; a4; a5].

(** ** Resolving *)

Definition step_into (node : value) (arg : PathArgument) : outcome value :=
  match arg with
  | kindIndex i => get_index node (Z.to_nat i)
  | kindKey k => get_member node k
  | kindNone => Ret node
  end.

(** [Path::resolve( root )], whose errors do nothing. *)
Fixpoint resolve (args : list PathArgument) (node : value) : outcome value :=
  match args with
  | [] => Ret node
  | arg :: args' => node ← step_into node arg; resolve args' node
  end.

(** [Path::resolve( root, defaultValue )]; the address of a member that is
    not there is that of [null]. *)
Fixpoint resolve_or (args : list PathArgument) (node defaultValue : value) : outcome value :=
  match args with
  | [] => Ret node
  | kindIndex i :: args' =>
      if negb (isArray node) || isValidIndex node (Z.to_nat i) then Ret defaultValue
      else node ← get_index node (Z.to_nat i); resolve_or args' node defaultValue
  | kindKey k :: args' =>
      if negb (isObject node) then Ret defaultValue
      else
        there ← isMember node k;
        if there : bool then node ← get_member node k; resolve_or args' node defaultValue
        else Ret defaultValue
  | kindNone :: args' => resolve_or args' node defaultValue
  end.

(** [Path::make], with [x] assigned through the reference it returns: the new
    root. *)
Fixpoint make (args : list PathArgument) (x node : value) : outcome value :=
  match args with
  | [] => Ret x
  | kindIndex i :: args' =>
      child ← get_index node (Z.to_nat i);
      child ← make args' x child;
      set_index node (Z.to_nat i) child
  | kindKey k :: args' =>
      child ← get_member node k;
      child ← make args' x child;
      set_member node k child
  | kindNone :: args' => make args' x node
  end.

(** ** The texts of paths *)

(** The text of an argument: an index in brackets, or a name after a point. *)
Inductive arg_text : PathArgument -> bytes -> Prop :=
| index_text ds : Forall (fun c => isdigit c = true) ds ->
    arg_text (kindIndex (uwrap 32 (decimal_value ds))) ("["%char :: ds ++ ["]"%char])
| name_text name : name <> [] -> Forall (fun c => ends_name c = false) name -> head name <> Some "%"%char ->
    arg_text (kindKey name) ("."%char :: name).

Inductive path_text : list PathArgument -> bytes -> Prop :=
| path_text_nil : path_text [] []
| path_text_cons arg args t t' : arg_text arg t -> path_text args t' -> path_text (arg :: args) (t ++ t').

Lemma uwrap_digit i c : uwrap 32 (uwrap 32 i * 10 + (uchar c - 48)) = uwrap 32 (i * 10 + (uchar c - 48)).
Proof.
  unfold uwrap. rewrite Z.add_mod, Z.mul_mod, Z.mod_mod, <- Z.mul_mod, <- Z.add_mod by lia. done.
Qed.

Lemma read_index_digits ds : forall i c rest, Forall (fun c => isdigit c = true) ds -> isdigit c = false ->
  read_index (ds ++ c :: rest) (uwrap 32 i)
  = (uwrap 32 (foldl (fun acc c => acc * 10 + (uchar c - 48))%Z i ds), c :: rest).
Proof.
  induction ds as [|d ds IH]; intros i c rest Hds Hc; cbn [app read_index foldl].
  - by rewrite Hc.
  - apply Forall_cons in Hds as [Hd Hds]. rewrite Hd, uwrap_digit. by apply IH.
Qed.

Lemma read_name_ends name : forall rest, Forall (fun c => ends_name c = false) name ->
  (forall c, head rest = Some c -> ends_name c = true) -> read_name (name ++ rest) = (name, rest).
Proof.
  induction name as [|c name IH]; intros rest Hn Hr; cbn [app].
  - destruct rest as [|c rest]; [done|]. cbn [read_name]. by rewrite (Hr c).
  - apply Forall_cons in Hn as [Hc Hn]. cbn [read_name]. by rewrite Hc, IH.
Qed.

Lemma path_text_head args t : path_text args t -> forall c, head t = Some c -> ends_name c = true.
Proof.
  intros [|arg args' t1 t2 [ds|name] _] c; [done|..]; cbn; intros [= <-]; by vm_compute.
Qed.

Lemma name_no_NUL name : Forall (fun c => ends_name c = false) name -> NUL ∉ name.
Proof. intros H Hin. rewrite Forall_forall in H. by specialize (H _ Hin). Qed.

Lemma path_loop_text in_ args t : path_text args t -> forall fuel args0, length t <= fuel ->
  makePath_loop fuel in_ t args0 = Ret (args0 ++ args).
Proof.
  induction 1 as [|arg args t t' Ha Ht IH]; intros fuel args0 Hf.
  { by destruct fuel; rewrite app_nil_r. }
  rewrite length_app in Hf. destruct Ha as [ds Hds|name Hne Hn Hp]; cbn [length app] in *.
  - rewrite length_app in Hf. destruct fuel as [|fuel]; [lia|]. cbn [makePath_loop]. unfold path_step. cbn [deref hd tail].
    rewrite decide_True by done. rewrite <- app_assoc. cbn [app].
    rewrite decide_False.
    2: { destruct ds as [|d ds]; [done|]. apply Forall_cons in Hds as [Hd _]. cbn. by intros ->. }
    rewrite (read_index_digits ds 0) by done. cbn [close_bracket tail]. rewrite IH by (simpl in Hf; lia).
    by rewrite <- app_assoc.
  - destruct fuel as [|fuel]; [lia|]. cbn [makePath_loop]. unfold path_step at 1. cbn [deref hd tail].
    rewrite decide_False, decide_False, decide_True by done.
    destruct name as [|c name]; [done|]. cbn [length app] in *. destruct fuel as [|fuel]; [lia|].
    cbn [makePath_loop]. unfold path_step. cbn [deref hd tail].
    pose proof Hn as [Hc _]%Forall_cons. change (c :: name ++ t') with ((c :: name) ++ t').
    rewrite !decide_False by (intros ->; done). rewrite read_name_ends by (done || by eapply path_text_head).
    unfold PathArgument_of_string. rewrite c_str_id by by apply name_no_NUL.
    rewrite IH by lia. by rewrite <- app_assoc.
Qed.

(** ** Where the loop ends *)

Lemma read_index_suffix current : forall i, exists l, current = l ++ (read_index current i).2.
Proof.
  induction current as [|c current IH]; intros i; cbn; [by exists []|].
  destruct (isdigit c); [|by exists []]. destruct (IH (uwrap 32 (i * 10 + (uchar c - 48)))) as [l E].
  exists (c :: l). cbn. by f_equal.
Qed.

Lemma read_name_suffix current : current = (read_name current).1 ++ (read_name current).2.
Proof.
  induction current as [|c current IH]; cbn; [done|]. destruct (ends_name c); [done|].
  destruct (read_name current) as [name rest]. cbn in *. by rewrite IH at 1.
Qed.

Lemma tail_suffix (l : bytes) : exists k, l = k ++ tail l.
Proof. destruct l as [|c l]; [by exists []|by exists [c]]. Qed.

(** A turn leaves a proper suffix, but at a NUL. *)
Lemma path_step_suffix in_ c current args : c <> NUL ->
  exists d l, c :: current = d :: l ++ (path_step in_ (c :: current) args).1.
Proof.
  intros Hc. unfold path_step. cbn [deref hd tail].
  repeat case_decide; subst.
  - destruct (tail_suffix current) as [k E]. eexists _, k. cbn [fst]. unfold close_bracket. by rewrite <- E.
  - destruct (read_index_suffix current 0) as [l E]. destruct (read_index current 0) as [i r]. cbn [fst snd] in *.
    destruct (tail_suffix r) as [k Er]. eexists _, (l ++ k). unfold close_bracket. by rewrite <- app_assoc, <- Er, <- E.
  - by eexists _, [].
  - by eexists _, [].
  - pose proof (read_name_suffix (c :: current)) as E. cbn [read_name] in *.
    assert (Hn : ends_name c = false) by (apply bool_decide_eq_false; set_solver).
    rewrite Hn in *. destruct (read_name current) as [name rest]. cbn [fst snd app] in *. by eexists _, name.
Qed.

Lemma path_loop_returns in_ fuel : forall current args, NUL ∉ current -> length current <= fuel ->
  exists args', makePath_loop fuel in_ current args = Ret args'.
Proof.
  induction fuel as [|fuel IH]; intros [|c current] args Hn Hf; cbn [makePath_loop length] in *;
    [by eexists|lia|by eexists|].
  apply not_elem_of_cons in Hn as [Hc Hn].
  destruct (path_step_suffix in_ c current args (not_eq_sym Hc)) as (d&l&E).
  destruct (path_step in_ (c :: current) args) as [current' args']. cbn [fst] in E. injection E as -> ->.
  rewrite length_app in Hf. apply IH; [set_solver|lia].
Qed.

(** ** Properties *)

(** [makePath] ends on every path without a NUL; on a path that has one where a
    name can begin it never does, whatever the fuel: the loop over a name stops
    at the NUL and the outer one takes an empty name there again. *)
Theorem makePath_returns in_ path :
  (NUL ∉ path -> exists args, makePath path in_ = Ret args)
  /\ (forall fuel args, makePath_loop fuel in_ (NUL :: path) args = Throw OutOfFuel).
Proof.
  split.
  - intros Hn. by apply path_loop_returns.
  - intros fuel. induction fuel as [|fuel IH]; intros args; [done|]. apply IH.
Qed.

Lemma makePath_returns_witness : (NUL ∉ B ".a[1]") /\ exists args, makePath (B ".a[1]") [] = Ret args.
Proof.
  assert (H : NUL ∉ B ".a[1]") by (unfold NUL; simpl; set_solver).
  split; [exact H|]. apply (makePath_returns [] (B ".a[1]")), H.
Defined.

(** Only the first of the arguments of a path is ever used: [addPathInArg] does not move
    the iterator, so every [%] takes the same one. *)
Theorem later_arguments_ignored path a1 a2 a3 a4 a5 b2 b3 b4 b5 :
  Path path a1 a2 a3 a4 a5 = Path path a1 b2 b3 b4 b5.
Proof.
  assert (H : forall fuel path args,
    makePath_loop fuel [a1; a2; a3; a4; a5] path args = makePath_loop fuel [a1; b2; b3; b4; b5] path args); [|apply H].
  clear path. induction fuel as [|fuel IH]; intros [|c path] args; try done. cbn [makePath_loop].
  change (path_step [a1; a2; a3; a4; a5]) with (path_step [a1; b2; b3; b4; b5]).
  destruct (path_step _ _ _) as [path' args']. apply IH.
Qed.

(** The closing bracket after a [%] is taken for a name: the [%] was not passed. *)
Example percent_in_brackets :
  Path (B ".[%].a") (kindIndex 3) kindNone kindNone kindNone kindNone
  = Ret [kindIndex 3; kindKey (B "]"); kindKey (B "a")].
Proof. reflexivity. Qed.

(** ** Making and resolving *)

Lemma get_set_index node i x node' : set_index node i x = Ret node' -> get_index node' i = Ret x.
Proof.
  assert (H : forall a : list (option value), default VNull (default None
    ((take i a ++ replicate (i - length a) None ++ Some x :: drop (S i) a) !! i)) = x).
  { intros a. rewrite app_assoc, lookup_app_r; rewrite length_app, length_take, length_replicate; [|lia].
    by replace (i - _) with 0 by lia. }
  destruct node; cbn [set_index]; intros [= <-]; cbn [get_index]; f_equal; [apply (H [])|apply H].
Qed.

Lemma get_set_member node k x node' : set_member node k x = Ret node' -> get_member node' k = Ret x.
Proof.
  destruct node; cbn [set_member]; intros [= <-]; cbn [get_member]; f_equal; [by cbn; rewrite strcmp_lt_irrefl|].
  by rewrite map_find_set_eq.
Qed.

Lemma get_set_index_ne node i j x node' : i <> j -> set_index node i x = Ret node' -> get_index node' j = get_index node j.
Proof.
  intros Hij.
  assert (H : forall a : list (option value), default VNull (default None
    ((take i a ++ replicate (i - length a) None ++ Some x :: drop (S i) a) !! j)) = default VNull (default None (a !! j))).
  { intros a. destruct (decide (j < i)) as [Hlt|Hge].
    - destruct (decide (j < length a)) as [Hl|Hl].
      + rewrite lookup_app_l by (rewrite length_take; lia). by rewrite lookup_take_lt.
      + rewrite lookup_app_r, length_take, lookup_app_l by (rewrite ?length_take, ?length_replicate; lia).
        rewrite lookup_replicate_2 by lia. by rewrite (lookup_ge_None_2 a) by lia.
    - rewrite app_assoc, lookup_app_r; rewrite length_app, length_take, length_replicate; [|lia].
      replace (j - (i `min` length a + (i - length a))) with (S (j - S i)) by lia.
      change ((Some x :: drop (S i) a) !! S (j - S i)) with (drop (S i) a !! (j - S i)). rewrite lookup_drop. by replace (S i + (j - S i)) with j by lia. }
  destruct node; cbn [set_index]; intros [= <-]; cbn [get_index]; f_equal; [|apply H]. apply (H []).
Qed.

Lemma get_set_member_ne node k l x node' : wf node -> k <> l -> set_member node k x = Ret node' ->
  get_member node' l = get_member node l.
Proof.
  intros Hwf Hkl. destruct node; cbn [set_member]; intros [= <-]; cbn [get_member]; f_equal.
  - exact (f_equal (default VNull) (map_find_set_ne k l x [] keys_sorted_nil Hkl)).
  - rewrite map_find_set_ne; [done| |done]. by apply wf_object in Hwf as [Hs _].
Qed.

(** Two paths of which neither leads to a node on the other: at the first place where
    they differ both take a member, or both take an item. *)
Inductive apart : list PathArgument -> list PathArgument -> Prop :=
| apart_index i j p q : Z.to_nat i <> Z.to_nat j -> apart (kindIndex i :: p) (kindIndex j :: q)
| apart_key k l p q : k <> l -> apart (kindKey k :: p) (kindKey l :: q)
| apart_cons a p q : apart p q -> apart (a :: p) (a :: q).

Lemma make_resolve_aux args x : forall root root', make args x root = Ret root' -> resolve args root' = Ret x.
Proof.
  induction args as [|[|i|k] args IH]; intros root root' H; cbn [make resolve step_into] in *.
  - by injection H as <-.
  - by eapply IH.
  - destruct (get_index root (Z.to_nat i)) as [child|] eqn:E1; [|done]. cbn in H.
    destruct (make args x child) as [child'|] eqn:E2; [|done]. cbn in H.
    rewrite (get_set_index _ _ _ _ H). cbn. by eapply IH.
  - destruct (get_member root k) as [child|] eqn:E1; [|done]. cbn in H.
    destruct (make args x child) as [child'|] eqn:E2; [|done]. cbn in H.
    rewrite (get_set_member _ _ _ _ H). cbn. by eapply IH.
Qed.

Lemma make_resolve_apart args x args' : apart args args' -> forall root root', wf root ->
  make args x root = Ret root' -> resolve args' root' = resolve args' root.
Proof.
  induction 1 as [i j p q Hij|k l p q Hkl|[|i|k] p q _ IH]; intros root root' Hwf H; cbn [make resolve step_into] in *.
  - destruct (get_index root (Z.to_nat i)) as [child|] eqn:E1; [|done]. cbn in H.
    destruct (make p x child) as [child'|] eqn:E2; [|done]. cbn in H.
    by rewrite (get_set_index_ne _ _ _ _ _ Hij H).
  - destruct (get_member root k) as [child|] eqn:E1; [|done]. cbn in H.
    destruct (make p x child) as [child'|] eqn:E2; [|done]. cbn in H.
    by rewrite (get_set_member_ne _ _ _ _ _ Hwf Hkl H).
  - cbn. by eapply IH.
  - destruct (get_index root (Z.to_nat i)) as [child|] eqn:E1; [|done]. cbn in H.
    destruct (make p x child) as [child'|] eqn:E2; [|done]. cbn in H.
    rewrite (get_set_index _ _ _ _ H). cbn. eapply IH; [|exact E2]. by apply (get_index_wf root (Z.to_nat i)).
  - destruct (get_member root k) as [child|] eqn:E1; [|done]. cbn in H.
    destruct (make p x child) as [child'|] eqn:E2; [|done]. cbn in H.
    rewrite (get_set_member _ _ _ _ H). cbn. eapply IH; [|exact E2]. by apply (get_member_wf root k).
Qed.

Lemma make_null args x : exists root, make args x VNull = Ret root.
Proof.
  induction args as [|[|i|k] args [root IH]]; cbn [make]; [by eexists|by eexists|..];
    cbn; rewrite IH; by eexists.
Qed.

(** C28: The text of a path is parsed into its arguments (indices modulo [2 ^ 32]);
    [make] with them on a null root always returns; and on any well-formed root
    where it returns, what was assigned through the reference is what [resolve]
    finds there, while a path that leads elsewhere leads to what it led to. *)
Theorem path_make args t a1 a2 a3 a4 a5 x root root' args' : path_text args t -> wf root ->
  make args x root = Ret root' -> apart args args' ->
  Path t a1 a2 a3 a4 a5 = Ret args /\ (exists fresh, make args x VNull = Ret fresh)
  /\ resolve args root' = Ret x /\ resolve args' root' = resolve args' root.
Proof.
  intros Ht Hwf Hm Ha. split_and!.
  - unfold Path, makePath. rewrite (path_loop_text _ _ _ Ht) by done. done.
  - apply make_null.
  - by eapply make_resolve_aux.
  - by eapply make_resolve_apart.
Qed.

Definition path_demo : list PathArgument := [kindKey (B "a"); kindIndex 1; kindKey (B "b%")].

Lemma path_demo_text : path_text path_demo (B ".a[1].b%").
Proof.
  apply (path_text_cons _ _ (B ".a") (B "[1].b%")); [by apply (name_text (B "a")); repeat constructor|].
  apply (path_text_cons _ _ (B "[1]") (B ".b%")); [by apply (index_text (B "1")); repeat constructor|].
  apply (path_text_cons _ _ (B ".b%") []); [by apply (name_text (B "b%")); repeat constructor|constructor].
Qed.

Lemma path_make_witness :
  let root := VObject [(B "a", VArray [Some (VInt 7)])] in
  let root' := VObject [(B "a", VArray [Some (VInt 7); Some (VObject [(B "b%", VBool true)])])] in
  make path_demo (VBool true) root = Ret root'
  /\ Path (B ".a[1].b%") kindNone kindNone kindNone kindNone kindNone = Ret path_demo
  /\ resolve [kindKey (B "a"); kindIndex 0] root' = Ret (VInt 7).
Proof.
  intros root root'.
  assert (Hm : make path_demo (VBool true) root = Ret root') by by vm_compute.
  assert (Hwf : wf root).
  { apply wf_object. split; [repeat constructor|]. constructor; [|constructor].
    split; [unfold NUL; simpl; set_solver|by vm_compute]. }
  assert (Ha : apart path_demo [kindKey (B "a"); kindIndex 0]).
  { apply apart_cons, apart_index. by vm_compute. }
  destruct (path_make path_demo (B ".a[1].b%") kindNone kindNone kindNone kindNone kindNone (VBool true) root root' _
    path_demo_text Hwf Hm Ha) as (H1&_&_&H2).
  split; [exact Hm|]. split; [exact H1|]. rewrite H2. by vm_compute.
Defined.

Lemma resolve_or_null args : forall d, resolve_or args VNull d ∈ [Ret d; Ret VNull].
Proof. induction args as [|[|i|k] args IH]; intros d; cbn; [set_solver|apply IH|apply IH|set_solver]. Qed.

(** [resolve] with a default value does not find anything through an index: its test
    of [isValidIndex] is the wrong way round, so a path with an index gives the
    default value or null, whatever the root holds. *)
Theorem resolve_or_index args root defaultValue : Exists (fun a => exists i, a = kindIndex i) args ->
  resolve_or args root defaultValue ∈ [Ret defaultValue; Ret VNull].
Proof.
  intros H. revert root. induction H as [arg args [i ->]|[|i|k] args H IH]; intros root; cbn [resolve_or]; [|apply IH|..].
  - destruct root as [| | | | | |a|o]; try set_solver; [apply resolve_or_null|].
    cbn -[isValidIndex]. unfold isValidIndex, size. case_bool_decide as Hi; cbn; [set_solver|].
    rewrite lookup_ge_None_2 by lia. apply resolve_or_null.
  - destruct root as [| | | | | |a|o]; try set_solver.
    cbn -[isValidIndex]. destruct (isValidIndex _ _); [set_solver|apply IH].
  - destruct root as [| | | | | |a|o]; cbn; try set_solver.
    destruct (map_find k o); cbn; [apply IH|set_solver].
Qed.

Lemma resolve_or_index_witness :
  resolve_or [kindKey (B "a"); kindIndex 0] (VObject [(B "a", VArray [Some (VInt 7)])]) (VInt 1)
    ∈ [Ret (VInt 1); Ret VNull].
Proof. apply resolve_or_index. right. left. by exists 0%Z. Defined.
