(* ===== verification/JsonGrammar.v ===== *)
(** * The texts of a value, and Reader::parse

    [json v t]: [t] is a text of [v], with any spaces between the tokens, in
    the way the writers escape strings.  [Reader::parse] reads any such text
    back into the value; the writers' own texts are of this form (JsonRoundTrip
    and JsonStyledProps). *)

From S2P Require Import Prelude CxxString Str JsonValue JsonWriter JsonReader.

(** ** The values and their texts *)

(** The values that come back: integers that [decodeNumber] does not leave to
    [decodeDouble], no real number, no NUL character in a string. *)
Fixpoint readable (v : value) : Prop :=
  match v with
  | VNull | VBool _ => True
  | VInt i => (-2147483640 < i <= maxInt)%Z
  | VUInt u => (0 <= u < 4294967290)%Z
  | VReal _ => False
  | VString s => exists str, s = Some str /\ (NUL ∉ str)
  | VArray a => (fix all (a : list (option value)) : Prop :=
      match a with
      | [] => True
      | o :: a' => from_option readable True o /\ all a'
      end) a
  | VObject o => keys_sorted o /\ (fix all (o : list (bytes * value)) : Prop :=
      match o with [] => True | (k, v) :: o' => (NUL ∉ k) /\ readable v /\ all o' end) o
  end.

(** What an integer is read as. *)
Definition number_value (i : Z) : value := if decide (i <= maxInt)%Z then VInt i else VUInt i.

(** An unsigned integer that fits [int] comes back as one, a missing entry of
    an array as null. *)
Fixpoint reread (v : value) : value :=
  match v with
  | VUInt u => number_value u
  | VArray a => VArray ((fun o => Some (from_option reread VNull o)) <$> a)
  | VObject o => VObject ((fun kv => (kv.1, reread kv.2)) <$> o)
  | _ => v
  end.

(** A string in quotes. *)
Definition quoted (str : bytes) : bytes := dquote :: (str ≫= escape_char) ++ [dquote].

(** An entry of an array, as the writers and the reader see it. *)
Definition item (o : option value) : value := match o with Some v => v | None => VNull end.

Definition spaces (sp : bytes) : Prop := Forall (fun c => is_space c = true) sp.

(** What follows an item: [J] says what its texts are. *)
Definition more_items (J : value -> bytes -> Prop) : list (option value) -> bytes -> Prop :=
  fix more (a : list (option value)) (r : bytes) : Prop :=
    match a with
    | [] => r = []
    | o :: a' => exists sp t sp' r', r = ","%char :: sp ++ t ++ sp' ++ r' /\ spaces sp /\ spaces sp'
        /\ match o with Some v => J v t | None => t = B "null" end /\ more a' r'
    end.

Definition more_members (J : value -> bytes -> Prop) : list (bytes * value) -> bytes -> Prop :=
  fix more (o : list (bytes * value)) (r : bytes) : Prop :=
    match o with
    | [] => r = []
    | (k, v) :: o' => exists sp sp1 sp2 t sp' r',
        r = ","%char :: sp ++ quoted k ++ sp1 ++ ":"%char :: sp2 ++ t ++ sp' ++ r'
        /\ (spaces sp /\ spaces sp1 /\ spaces sp2 /\ spaces sp') /\ J v t /\ more o' r'
    end.

Fixpoint json (v : value) (t : bytes) : Prop :=
  match v with
  | VNull => t = B "null"
  | VBool b => t = if b then B "true" else B "false"
  | VInt i | VUInt i => int_text i t
  | VReal _ => False
  | VString s => exists str, s = Some str /\ t = quoted str
  | VArray [] => exists sp, t = "["%char :: sp ++ B "]" /\ spaces sp
  | VArray (o :: a) => exists r, t = "["%char :: r ++ B "]" /\ exists sp x sp' r',
      r = sp ++ x ++ sp' ++ r' /\ spaces sp /\ spaces sp'
      /\ match o with Some v => json v x | None => x = B "null" end /\ more_items json a r'
  | VObject [] => exists sp, t = "{"%char :: sp ++ B "}" /\ spaces sp
  | VObject ((k, v) :: o) => exists r, t = "{"%char :: r ++ B "}" /\ exists sp sp1 sp2 x sp' r',
      r = sp ++ quoted k ++ sp1 ++ ":"%char :: sp2 ++ x ++ sp' ++ r'
      /\ (spaces sp /\ spaces sp1 /\ spaces sp2 /\ spaces sp') /\ json v x /\ more_members json o r'
  end.

Lemma item_json o t : json (item o) t -> match o with Some v => json v t | None => t = B "null" end.
Proof. by destruct o. Qed.

(** ** Characters of the texts *)

(** What [escape_char] writes, as [readString] sees it: a plain character, or
    a backslash, one character, and plain ones. *)
Definition plain_char (c : ascii) : bool := negb (bool_decide (c = "\"%char)) && negb (bool_decide (c = dquote)).

Definition chunk_ok (l : bytes) : bool :=
  match l with
  | [c] => plain_char c
  | c :: x :: l' => bool_decide (c = "\"%char) && forallb plain_char l'
  | [] => false
  end.

Lemma escape_char_chunk c : chunk_ok (escape_char c) = true.
Proof. by_all_chars c. Qed.

Lemma plain_char_spec c : plain_char c = true -> c <> "\"%char /\ c <> dquote.
Proof. unfold plain_char. rewrite andb_true_iff, !negb_true_iff, !bool_decide_eq_false. done. Qed.

Lemma read_string_plain ps l : forall p c0, forallb plain_char ps = true -> exists c1,
  read_string (ps ++ l) p c0 = read_string l (p + length ps) c1.
Proof.
  induction ps as [|c ps IH]; intros p c0.
  - intros _. exists c0. by rewrite Nat.add_0_r.
  - simpl. intros [[H1 H2]%plain_char_spec Hps]%andb_true_iff.
    rewrite decide_False, decide_False by done.
    destruct (IH (S p) c Hps) as [c1 ->]. exists c1. by rewrite Nat.add_succ_r.
Qed.

Lemma read_string_chunk k l p c0 : chunk_ok k = true -> exists c1,
  read_string (k ++ l) p c0 = read_string l (p + length k) c1.
Proof.
  destruct k as [|c [|x k]]; [done|..].
  - intros Hc. apply (read_string_plain [c]). simpl in *. by rewrite Hc.
  - cbn [chunk_ok]. intros [->%bool_decide_eq_true Hk]%andb_true_iff. cbn [app read_string].
    rewrite decide_True by done. destruct (read_string_plain k l (S (S p)) "\"%char Hk) as [c1 ->].
    exists c1. f_equal. simpl. lia.
Qed.

Lemma read_string_escaped str : forall l p c0,
  read_string ((str ≫= escape_char) ++ dquote :: l) p c0
  = (dquote, S (p + length (str ≫= escape_char))).
Proof.
  induction str as [|c str IH]; intros l p c0.
  - cbn. by rewrite Nat.add_0_r.
  - change ((c :: str) ≫= escape_char) with (escape_char c ++ (str ≫= escape_char)).
    rewrite <- app_assoc.
    destruct (read_string_chunk (escape_char c) ((str ≫= escape_char) ++ dquote :: l) p c0
      (escape_char_chunk c)) as [c1 ->].
    rewrite IH, length_app. f_equal. lia.
Qed.

(** ** Escapes of one character are undone *)

Lemma hex_digit_upper d : (0 <= d < 16)%Z -> hex_digit (upper_hex_digit d) = Some d.
Proof.
  intros Hd. assert (H : forallb (fun d => bool_decide (hex_digit (upper_hex_digit (Z.of_nat d)) = Some (Z.of_nat d)))
    (seq 0 16) = true) by by vm_compute.
  rewrite forallb_forall in H. specialize (H (Z.to_nat d)).
  rewrite Z2Nat.id, bool_decide_eq_true in H by lia. apply H. apply in_seq. lia.
Qed.

Lemma unicode_digits_hex4 n l p : (0 <= n < 256)%Z ->
  unicode_digits 4 (hex4 n ++ l) p 0 = inl (n, l, 4 + p).
Proof.
  intros Hn. cbn [hex4 app unicode_digits].
  change (hex_digit "0"%char) with (Some 0%Z). cbn [unicode_digits].
  rewrite !hex_digit_upper by (split; [try apply Z.div_pos; try apply Z.mod_pos_bound; lia|
    try apply Z.div_lt_upper_bound; try apply Z.mod_pos_bound; lia]).
  do 3 f_equal. pose proof (Z.div_mod n 16). lia.
Qed.

Lemma control_range c : isControlCharacter c = true -> (0 < schar c <= 31)%Z.
Proof. unfold isControlCharacter. rewrite andb_true_iff, !bool_decide_eq_true. lia. Qed.

Section round_trip.
Variable features_ : Features.
Variable document_ : bytes.
Variable sscanf_lf : bytes -> option double.

Abbreviation M := (st Reader Empty_set).
Abbreviation len := (length document_).

(** A character of a string and its escape. *)
Lemma control_code_point c t l p s :
  isControlCharacter c = true ->
  decodeUnicodeCodePoint t (hex4 (schar c) ++ l) p s
  = ([], Ret (Some (schar c, l, 4 + p), s)).
Proof.
  intros Hr%control_range.
  unfold decodeUnicodeCodePoint, decodeUnicodeEscapeSequence.
  rewrite decide_False by (simpl; lia). rewrite unicode_digits_hex4 by lia.
  rewrite st_mret, decide_False by lia. done.
Qed.

Lemma control_utf8 c : isControlCharacter c = true -> codePointToUTF8 (schar c) = [c].
Proof.
  intros Hr%control_range.
  unfold codePointToUTF8. rewrite decide_True by lia. by rewrite char_of_Z_schar.
Qed.
Lemma decode_chunk c l p acc t fuel s :
  decode_string (S fuel) t (escape_char c ++ l) p acc s
  = decode_string fuel t l (p + length (escape_char c)) (acc ++ [c]) s.
Proof.
  unfold escape_char. assert (H2 : p + 2 = S (S p)) by lia.
  repeat match goal with
  | |- context [if decide (c = ?x) then _ else _] =>
      destruct (decide (c = x)) as [->|?]; [simpl length; rewrite H2; reflexivity|]
  end.
  destruct (isControlCharacter c) eqn:Hc.
  - cbn [app B String.list_ascii_of_string]. cbn [decode_string].
    rewrite decide_False, decide_True, decide_True by done.
    erewrite st_go; [|by apply control_code_point]. cbv iota. rewrite control_utf8 by done.
    unfold hex4. simpl length. by replace (p + 6) with (4 + S (S p)) by lia.
  - cbn [app decode_string]. rewrite decide_False, decide_False by done. cbn [length].
    by rewrite Nat.add_1_r.
Qed.

(** The text of a string is decoded to it. *)
Lemma decode_escaped str : forall l p acc t fuel s,
  length str < fuel ->
  decode_string fuel t ((str ≫= escape_char) ++ l) p acc s
  = decode_string (fuel - length str) t l (p + length (str ≫= escape_char)) (acc ++ str) s.
Proof.
  induction str as [|c str IH]; intros l p acc t fuel s Hf.
  - cbn. by rewrite Nat.sub_0_r, Nat.add_0_r, app_nil_r.
  - destruct fuel as [|fuel]; [simpl in Hf; lia|].
    change ((c :: str) ≫= escape_char) with (escape_char c ++ (str ≫= escape_char)).
    rewrite <- app_assoc, decode_chunk, IH by (simpl in Hf; lia).
    by rewrite <- app_assoc, length_app, Nat.add_assoc.
Qed.

Lemma escape_char_length c : 0 < length (escape_char c).
Proof. pose proof (escape_char_chunk c). by destruct (escape_char c); [|simpl; lia]. Qed.

Lemma escaped_length str : length str <= length (str ≫= escape_char).
Proof.
  induction str as [|c str IH]; [done|].
  change ((c :: str) ≫= escape_char) with (escape_char c ++ (str ≫= escape_char)).
  rewrite length_app. pose proof (escape_char_length c). simpl. lia.
Qed.

(** ** Positions in the document *)

(** From [p] on the document is [l]. *)
Definition at_ (p : nat) (l : bytes) : Prop := drop p document_ = l.

Lemma at_app p a l : at_ p (a ++ l) -> at_ (p + length a) l.
Proof. unfold at_. intros H. by rewrite <- drop_drop, H, drop_app_length. Qed.

Lemma at_cons p c l : at_ p (c :: l) -> at_ (S p) l.
Proof. intros H. rewrite <- Nat.add_1_r. by apply (at_app p [c]). Qed.

Lemma at_length p l : at_ p l -> length l = len - p.
Proof. intros <-. apply length_drop. Qed.

Lemma getNextChar_at p c l e :
  at_ p (c :: l) -> getNextChar document_ (MkReader p e) = ([], Ret (c, MkReader (S p) e)).
Proof.
  intros H. unfold getNextChar. rewrite st_get. unfold rest. cbn [current_]. rewrite H.
  unfold set_current. by rewrite st_modify.
Qed.

Lemma skip_spaces_app sp l : forall p,
  Forall (fun c => is_space c = true) sp -> (forall c, head l = Some c -> is_space c = false) ->
  skip_spaces (sp ++ l) p = p + length sp.
Proof.
  induction sp as [|c sp IH]; intros p Hsp Hl.
  - rewrite Nat.add_0_r. destruct l as [|c l]; [done|]. simpl. by rewrite Hl.
  - apply Forall_cons in Hsp as [Hc Hsp]. simpl. rewrite Hc, IH by done. lia.
Qed.

(** [readToken] at a character that is not a space, after spaces. *)
Lemma readToken_at p sp c l e t q :
  at_ p (sp ++ c :: l) -> Forall (fun c => is_space c = true) sp -> is_space c = false ->
  read_token_type document_ c (MkReader (S (p + length sp)) e) = ([], Ret (t, MkReader q e)) ->
  readToken document_ (MkReader p e) = ([], Ret (MkToken t (p + length sp) q, MkReader q e)).
Proof.
  intros H Hsp Hc Ht. unfold readToken, skipSpaces. rewrite st_assoc, st_get. unfold set_current.
  unfold rest. cbn [current_ errors_]. rewrite H, skip_spaces_app; [|done|by intros ? [= <-]].
  rewrite st_modify. cbn [errors_]. rewrite st_get. apply at_app in H.
  erewrite st_go; [|by eapply getNextChar_at]. erewrite st_go; [|exact Ht]. by rewrite st_get.
Qed.
(** ** Tokens *)

(** The tokens of one character. *)
Definition punctuation (c : ascii) : option TokenType :=
  if decide (c = "{"%char) then Some tokenObjectBegin
  else if decide (c = "}"%char) then Some tokenObjectEnd
  else if decide (c = "["%char) then Some tokenArrayBegin
  else if decide (c = "]"%char) then Some tokenArrayEnd
  else if decide (c = ","%char) then Some tokenArraySeparator
  else if decide (c = ":"%char) then Some tokenMemberSeparator
  else None.

Lemma punctuation_at c t : punctuation c = Some t ->
  is_space c = false /\ forall s, read_token_type document_ c s = ([], Ret (t, s)).
Proof.
  unfold punctuation.
  repeat match goal with
  | |- context [if decide (c = ?x) then _ else _] =>
      destruct (decide (c = x)) as [->|?]; [intros [= <-]; by split|]
  end. done.
Qed.

Lemma read_punctuation p sp c l e t :
  at_ p (sp ++ c :: l) -> Forall (fun c => is_space c = true) sp -> punctuation c = Some t ->
  readToken document_ (MkReader p e)
  = ([], Ret (MkToken t (p + length sp) (S (p + length sp)), MkReader (S (p + length sp)) e)).
Proof.
  intros H Hsp [Hc Ht]%punctuation_at. by eapply readToken_at.
Qed.

Lemma read_quoted p sp str l e :
  at_ p (sp ++ quoted str ++ l) -> Forall (fun c => is_space c = true) sp ->
  let q := p + length sp + length (quoted str) in
  readToken document_ (MkReader p e)
  = ([], Ret (MkToken tokenString (p + length sp) q, MkReader q e)).
Proof.
  intros H Hsp q. pose proof (at_app _ _ _ H) as Hq.
  change (quoted str ++ l) with (dquote :: ((str ≫= escape_char) ++ [dquote]) ++ l) in H, Hq.
  rewrite <- app_assoc in H, Hq. eapply readToken_at; [exact H|done|done|].
  change (read_token_type document_ dquote) with
    (b ← readString document_; mret (M := M) (if b : bool then tokenString else tokenError)).
  unfold readString. rewrite st_assoc, st_get. unfold rest. cbn [current_].
  apply at_cons in Hq. rewrite Hq. cbn [app]. rewrite read_string_escaped. unfold set_current.
  rewrite st_assoc, st_modify, st_mret. rewrite bool_decide_true by done. cbn [errors_].
  replace q with (S (S (p + length sp) + length (str ≫= escape_char))); [done|].
  unfold q, quoted. simpl length. rewrite length_app. simpl. lia.
Qed.

Lemma decode_quoted p str l t s :
  at_ p (quoted str ++ l) -> t = MkToken tokenString p (p + length (quoted str)) ->
  decodeString document_ t s = ([], Ret (Some str, s)).
Proof.
  intros H ->. unfold decodeString. cbn [start_ end_].
  assert (Hd : drop (p + 1) document_ = (str ≫= escape_char) ++ dquote :: l).
  { rewrite Nat.add_1_r. apply (at_cons p dquote). unfold at_ in *. rewrite H. unfold quoted.
    simpl. by rewrite <- app_assoc. }
  rewrite Hd. replace (p + length (quoted str) - 1 - (p + 1)) with (length (str ≫= escape_char)).
  2: { unfold quoted. simpl length. rewrite length_app. simpl. lia. }
  rewrite take_app_length. rewrite <- (app_nil_r (str ≫= escape_char)) at 2.
  pose proof (escaped_length str). rewrite decode_escaped by lia. rewrite Nat.sub_succ_l by lia.
  done.
Qed.
(** ** Numbers *)

Lemma read_number_app a l : forall p,
  Forall (fun c => number_char c = true) a -> (forall c, head l = Some c -> number_char c = false) ->
  read_number (a ++ l) p = p + length a.
Proof.
  induction a as [|c a IH]; intros p Ha Hl.
  - rewrite Nat.add_0_r. destruct l as [|c l]; [done|]. simpl. by rewrite Hl.
  - apply Forall_cons in Ha as [Hc Ha]. simpl. rewrite Hc. cbn [negb]. rewrite IH by done. lia.
Qed.

Lemma digits_value_le ds : forall v, Forall (fun c => isdigit c = true) ds -> (0 <= v)%Z ->
  (v <= foldl (fun acc c => acc * 10 + (uchar c - 48)) v ds)%Z.
Proof.
  induction ds as [|c ds IH]; intros v Hds Hv; simpl; [lia|].
  apply Forall_cons in Hds as [Hc%isdigit_range Hds].
  specialize (IH (v * 10 + (uchar c - 48))%Z Hds ltac:(lia)). lia.
Qed.

Lemma decode_digits_ok ds thr : forall v,
  Forall (fun c => isdigit c = true) ds -> (0 <= v)%Z -> (10 * thr <= 2 ^ 32)%Z ->
  (foldl (fun acc c => acc * 10 + (uchar c - 48)) v ds < 10 * thr)%Z ->
  decode_digits ds thr v = Number (foldl (fun acc c => acc * 10 + (uchar c - 48)) v ds)%Z.
Proof.
  induction ds as [|c ds IH]; intros v Hds Hv Hthr Hlt; [done|].
  apply Forall_cons in Hds as [Hc Hds]. cbn [decode_digits foldl] in *. rewrite Hc. cbn [negb].
  apply isdigit_range in Hc.
  pose proof (digits_value_le ds (v * 10 + (uchar c - 48)) Hds ltac:(lia)).
  rewrite decide_False by lia. unfold uwrap. rewrite Z.mod_small by lia. apply IH; [done|lia..].
Qed.

(** Above the threshold the number is left to [decodeDouble]. *)
Lemma decode_digits_large ds thr : forall v,
  Forall (fun c => isdigit c = true) ds -> (0 <= v < 10 * thr)%Z -> (10 * thr <= 2 ^ 32)%Z ->
  (10 * thr <= foldl (fun acc c => acc * 10 + (uchar c - 48)) v ds)%Z ->
  decode_digits ds thr v = TooLarge.
Proof.
  induction ds as [|c ds IH]; intros v Hds Hv Hthr Hge; [simpl in Hge; lia|].
  apply Forall_cons in Hds as [Hc Hds]. cbn [decode_digits foldl] in *. rewrite Hc. cbn [negb].
  apply isdigit_range in Hc. case_decide as Hd; [done|].
  unfold uwrap. rewrite Z.mod_small by lia. apply IH; [done|lia..].
Qed.

Lemma digit_number_char c : isdigit c = true -> number_char c = true.
Proof. intros H. unfold number_char. by rewrite H. Qed.

Lemma digit_not_in c s : isdigit c = true -> Forall (fun x => isdigit x = false) s -> char_in c s = false.
Proof.
  intros Hc Hs. unfold char_in. apply bool_decide_eq_false. intros Hin.
  rewrite Forall_forall in Hs. specialize (Hs c Hin). congruence.
Qed.

Lemma existsb_false {A} (f : A -> bool) l : Forall (fun x => f x = false) l -> existsb f l = false.
Proof. induction 1 as [|x l Hx _ IH]; [done|]. simpl. by rewrite Hx. Qed.

Lemma digits_not_double ds : Forall (fun c => isdigit c = true) ds ->
  existsb (fun c => char_in c (B ".eE+")) ds = false
  /\ existsb (fun c => bool_decide (c = "-"%char)) ds = false.
Proof.
  intros Hds. split; apply existsb_false; (eapply Forall_impl; [exact Hds|]); intros c Hc.
  - apply digit_not_in; [done|]. by repeat constructor.
  - apply bool_decide_eq_false. by intros ->.
Qed.

Lemma read_int p sp i t l e :
  int_text i t -> at_ p (sp ++ t ++ l) -> Forall (fun c => is_space c = true) sp ->
  (forall c, head l = Some c -> number_char c = false) ->
  let q := p + length sp + length t in
  readToken document_ (MkReader p e) = ([], Ret (MkToken tokenNumber (p + length sp) q, MkReader q e)).
Proof.
  intros (ds&Hd&->) H Hsp Hl q. destruct Hd as (Hne&Hdig&_).
  assert (Hshape : exists c r, (if decide (i < 0)%Z then "-"%char :: ds else ds) = c :: r
    /\ (isdigit c = true \/ c = "-"%char) /\ Forall (fun c => number_char c = true) r).
  { assert (Hnum : Forall (fun c => number_char c = true) ds).
    { eapply Forall_impl; [exact Hdig|]. apply digit_number_char. }
    case_decide; [exists "-"%char, ds; by split_and!; [|right|]|].
    destruct ds as [|c ds]; [done|]. exists c, ds. apply Forall_cons in Hdig as [? _].
    apply Forall_cons in Hnum as [_ ?]. by split_and!; [|left|]. }
  destruct Hshape as (c&r&Htext&Hc&Hr). unfold q in *. rewrite Htext in *. clear q.
  pose proof (at_app _ _ _ H) as Hq. cbn [app] in H, Hq. apply at_cons in Hq.
  assert (Hnot : is_space c = false /\ forall s, read_token_type document_ c s
    = (readNumber document_;; mret (M := M) tokenNumber) s).
  { destruct Hc as [Hc| ->]; [|by split].
    assert (Hb : forall x, isdigit x = false -> c <> x) by (intros x Hx ->; congruence).
    split.
    - unfold is_space. apply digit_not_in; [done|]. by repeat constructor.
    - intros s. unfold read_token_type. rewrite Hc. cbn [orb].
      repeat rewrite decide_False by (by apply Hb). done. }
  destruct Hnot as [Hspc Htype].
  eapply readToken_at; [exact H|done|done|]. rewrite Htype.
  unfold readNumber. rewrite st_assoc, st_get. unfold rest, set_current. cbn [current_].
  unfold at_ in Hq. rewrite Hq, read_number_app, st_modify by done. simpl length.
  by replace (p + length sp + S (length r)) with (S (p + length sp) + length r) by lia.
Qed.

Lemma decode_int i t p q l e node :
  int_text i t -> at_ p (t ++ l) -> (-2147483640 < i < 4294967290)%Z ->
  decodeNumber document_ sscanf_lf (Ret minInt) (MkToken tokenNumber p (p + length t)) node
    (MkReader q e) = ([], Ret ((true, number_value i), MkReader q e)).
Proof.
  intros (ds&(Hne&Hdig&Hval&_)&->) H Hi. unfold decodeNumber, token_text. cbn [start_ end_].
  unfold at_ in H. rewrite H. rewrite Nat.add_comm, Nat.add_sub, take_app_length.
  destruct (digits_not_double ds Hdig) as [E1 E2].
  unfold decimal_value in Hval. case_decide as Hneg.
  - cbn [existsb tail head]. rewrite E1, E2. change (char_in "-"%char (B ".eE+")) with false.
    cbn [orb]. rewrite bool_decide_true by done.
    cbn [mbind outcome_bind]. rewrite st_lift.
    change (uwrap 32 minInt / 10)%Z with 214748364%Z.
    rewrite decode_digits_ok; [|done|done|done|rewrite Hval; lia].
    rewrite Hval, swrap_small by (try done; unfold in_int, int_min, int_max; simpl; lia).
    unfold number_value. rewrite decide_True by (unfold maxInt, int_max; simpl; lia).
    rewrite Z.abs_neq, Z.opp_involutive by lia. done.
  - assert (Hhead : head ds <> Some "-"%char /\ existsb (fun c => bool_decide (c = "-"%char)) (tail ds) = false).
    { destruct ds as [|c ds]; [done|]. cbn [existsb] in E2. apply orb_false_iff in E2 as [E2 E3].
      split; [|done]. intros [= ->]. by vm_compute in E2. }
    destruct Hhead as [Hhead E3]. rewrite E1, E3. cbn [orb]. rewrite bool_decide_false by done.
    change (maxUInt / 10)%Z with 429496729%Z. rewrite st_lift, Z.abs_eq in * by lia.
    rewrite decode_digits_ok; [|done|done|done|rewrite Hval; lia]. rewrite Hval. done.
Qed.
(** ** Values *)

Lemma skipCommentTokens_at s t s' :
  readToken document_ s = ([], Ret (t, s')) -> type_ t <> tokenComment ->
  skipCommentTokens features_ document_ s = ([], Ret (t, s')).
Proof.
  intros H Ht. unfold skipCommentTokens. erewrite st_go; [|exact H].
  destruct (allowComments_ features_); [|done]. unfold loop_fuel. cbn [skip_comments].
  by rewrite decide_False.
Qed.

Lemma skip_comments_at t s :
  type_ t <> tokenComment -> skip_comments document_ (loop_fuel document_) t s = ([], Ret (t, s)).
Proof. intros Ht. unfold loop_fuel. cbn [skip_comments]. by rewrite decide_False. Qed.

Lemma match_at pattern p l e :
  at_ p (pattern ++ l) ->
  match_ document_ pattern (MkReader p e) = ([], Ret (true, MkReader (p + length pattern) e)).
Proof.
  intros H. unfold match_. rewrite st_get. unfold rest, set_current. cbn [current_].
  unfold at_ in H. rewrite H, take_app_length, decide_True by done. by rewrite st_modify.
Qed.

(** [true], [false] and [null]. *)
Definition word_token (c : ascii) (w : bytes) : option TokenType :=
  if decide (c = "t"%char /\ w = B "rue") then Some tokenTrue
  else if decide (c = "f"%char /\ w = B "alse") then Some tokenFalse
  else if decide (c = "n"%char /\ w = B "ull") then Some tokenNull
  else None.

Lemma read_word c w t p sp l e :
  word_token c w = Some t -> at_ p (sp ++ (c :: w) ++ l) -> Forall (fun c => is_space c = true) sp ->
  let q := p + length sp + length (c :: w) in
  readToken document_ (MkReader p e) = ([], Ret (MkToken t (p + length sp) q, MkReader q e)).
Proof.
  intros Hw H Hsp q. pose proof (at_app _ _ _ H) as Hq. cbn [app] in H, Hq. apply at_cons in Hq.
  assert (Hshape : is_space c = false /\ forall s, read_token_type document_ c s
    = (b ← match_ document_ w; mret (M := M) (if b : bool then t else tokenError)) s).
  { unfold word_token in Hw.
    repeat (let Hd := fresh in case_decide as Hd; [destruct Hd as [-> ->]; injection Hw as <-; by split|]). done. }
  destruct Hshape as [Hc Ht]. eapply readToken_at; [exact H|done|done|]. rewrite Ht.
  erewrite st_go; [|by eapply match_at]. unfold q. simpl length.
  by replace (p + length sp + S (length w)) with (S (p + length sp) + length w) by lia.
Qed.

(** ** Reading values *)

(** How the text of a value begins. *)
Definition begins (t : bytes) : Prop :=
  exists c t', t = c :: t' /\ is_space c = false /\ c <> "]"%char.

Lemma decimal_begins ds v : is_decimal ds v -> begins ds.
Proof.
  intros (Hne&Hd&_). destruct ds as [|c ds]; [done|]. apply Forall_cons in Hd as [Hd _].
  exists c, ds. split_and!; [done|apply digit_not_in; [done|by repeat constructor]|by intros ->].
Qed.

Lemma int_text_begins i t : int_text i t -> begins t.
Proof.
  intros (ds&Hd&->). case_decide; [|by eapply decimal_begins]. by exists "-"%char, ds.
Qed.

Lemma json_begins v t : json v t -> begins t.
Proof.
  destruct v as [|i|u|d|s|b|[|x a]|[|[k x] o]]; cbn [json]; intros H; try done.
  - subst t. by eexists _, _.
  - by eapply int_text_begins.
  - by eapply int_text_begins.
  - destruct H as (str&_&->). by eexists _, _.
  - subst t. destruct b; by eexists _, _.
  - destruct H as (sp&->&_). by eexists _, _.
  - destruct H as (r&->&_). by eexists _, _.
  - destruct H as (sp&->&_). by eexists _, _.
  - destruct H as (r&->&_). by eexists _, _.
Qed.

Definition ends (l : bytes) : Prop := forall c, head l = Some c -> number_char c = false.

(** [readValue] reads [t] as [v]. *)
Definition reads (v : value) (t : bytes) : Prop :=
  forall fuel p sp l e node, at_ p (sp ++ t ++ l) -> spaces sp ->
  ends l -> len - p < fuel ->
  readValue features_ document_ sscanf_lf (Ret minInt) fuel node (MkReader p e)
  = ([], Ret ((true, reread v), MkReader (p + length sp + length t) e)).

(** A value of one token. *)
Lemma reads_token v ty (t sp : bytes) fuel p e node :
  let q := p + length sp + length t in
  readToken document_ (MkReader p e) = ([], Ret (MkToken ty (p + length sp) q, MkReader q e)) ->
  ty <> tokenComment -> len - p < fuel ->
  (forall f, match ty with
   | tokenObjectBegin => readObject document_ (readValue features_ document_ sscanf_lf (Ret minInt) f)
   | tokenArrayBegin => readArray document_ (readValue features_ document_ sscanf_lf (Ret minInt) f)
   | tokenNumber => decodeNumber document_ sscanf_lf (Ret minInt) (MkToken ty (p + length sp) q) node
   | tokenString => decodeString_value document_ (MkToken ty (p + length sp) q) node
   | tokenTrue => mret (true, VBool true)
   | tokenFalse => mret (true, VBool false)
   | tokenNull => mret (true, VNull)
   | _ => throw OutOfFuel
   end (MkReader q e) = ([], Ret ((true, v), MkReader q e))) ->
  readValue features_ document_ sscanf_lf (Ret minInt) fuel node (MkReader p e)
  = ([], Ret ((true, v), MkReader q e)).
Proof.
  intros q Ht Hty Hf Hv. destruct fuel as [|fuel]; [lia|]. cbn [readValue].
  erewrite st_go; [|by apply skipCommentTokens_at]. cbn [type_]. specialize (Hv fuel).
  by destruct ty.
Qed.

Lemma reads_word v c w ty : word_token c w = Some ty ->
  (ty = tokenTrue /\ reread v = VBool true \/ ty = tokenFalse /\ reread v = VBool false
   \/ ty = tokenNull /\ reread v = VNull) -> reads v (c :: w).
Proof.
  intros Hty Hv fuel p sp l e node H Hsp Hl Hf.
  eapply reads_token; [by eapply read_word| |done|].
  - by destruct Hv as [[-> _]|[[-> _]|[-> _]]].
  - intros f. by destruct Hv as [[-> ->]|[[-> ->]|[-> ->]]].
Qed.

Lemma reads_int v i t : int_text i t ->
  (-2147483640 < i < 4294967290)%Z -> reread v = number_value i -> reads v t.
Proof.
  intros Ht Hi Hv fuel p sp l e node H Hsp Hl Hf.
  eapply reads_token; [by eapply read_int|done|done|]. intros f. rewrite Hv.
  eapply decode_int; [done| |done]. by eapply at_app.
Qed.

Lemma reads_string str : (NUL ∉ str) -> reads (VString (Some str)) (quoted str).
Proof.
  intros Hn fuel p sp l e node H Hsp Hl Hf.
  eapply reads_token; [by eapply read_quoted|done|done|]. intros f.
  unfold decodeString_value. erewrite st_go; [|eapply decode_quoted; [by eapply at_app|done]].
  unfold Value_of_string. by rewrite c_str_id.
Qed.


Lemma ends_spaces sp l : spaces sp -> ends l -> ends (sp ++ l).
Proof.
  intros Hsp Hl c Hc. destruct sp as [|c' sp]; [by apply Hl|]. injection Hc as <-.
  apply Forall_cons in Hsp as [H _]. pose proof (forall_chars (fun c => implb (is_space c)
    (negb (number_char c))) ltac:(by vm_compute) c') as E. cbv beta in E. rewrite H in E.
  by apply negb_true_iff in E.
Qed.

(** A value that is read from every text of it. *)
Definition parsed (v : value) : Prop := forall t, json v t -> reads v t.

(** ** Arrays *)

Lemma more_items_ends a r l : more_items json a r -> ends (r ++ "]"%char :: l).
Proof.
  destruct a as [|o a]; intros H c Hc.
  - rewrite H in Hc. injection Hc as <-. by vm_compute.
  - destruct H as (?&?&?&?&->&_). injection Hc as <-. by vm_compute.
Qed.

Lemma more_items_length a : forall r, more_items json a r -> length a <= length r.
Proof.
  induction a as [|o a IH]; intros r H; [simpl; lia|].
  destruct H as (sp&t&sp'&r'&->&_&_&_&H). apply IH in H. cbn [length]. rewrite !length_app. lia.
Qed.

Lemma get_index_end pre : get_index (VArray pre) (length pre) = Ret VNull.
Proof. cbn [get_index]. by rewrite lookup_ge_None_2. Qed.

Lemma set_index_end pre x :
  set_index (VArray pre) (length pre) x = Ret (VArray (pre ++ [Some x])).
Proof. cbn [set_index]. by rewrite take_ge, Nat.sub_diag, drop_ge by lia. Qed.

Lemma array_loop a : forall o pre fuel f p e sp x sp' r l,
  Forall (fun o => parsed (item o)) (o :: a) -> spaces sp -> spaces sp' ->
  json (item o) x -> more_items json a r ->
  at_ p (sp ++ x ++ sp' ++ r ++ "]"%char :: l) -> length a < fuel -> len - p < f ->
  readArray_loop document_ (readValue features_ document_ sscanf_lf (Ret minInt) f) fuel
    (length pre) (VArray pre) (MkReader p e)
  = ([], Ret ((true, VArray (pre ++ ((fun o => Some (reread (item o))) <$> o :: a))),
        MkReader (p + length (sp ++ x ++ sp' ++ r) + 1) e)).
Proof.
  induction a as [|o' a IH]; intros o pre fuel f p e sp x sp' r l Ha Hsp Hsp' Hx Hr H Hfuel Hf;
    (destruct fuel as [|fuel]; [simpl in Hfuel; lia|]); apply Forall_cons in Ha as [Ho Ha];
    cbn [readArray_loop]; rewrite get_index_end, st_lift;
    (erewrite st_go; [|apply (Ho x Hx f p sp _ e _ H);
      [done|apply ends_spaces; [done|by eapply more_items_ends]|done]]);
    cbn [negb]; rewrite set_index_end, st_lift; apply at_app in H; apply at_app in H.
  - rewrite Hr in *. cbn [app] in H. rewrite app_nil_r.
    erewrite st_go; [|by apply (read_punctuation _ _ _ _ _ tokenArrayEnd H)].
    erewrite st_go; [|by apply skip_comments_at].
    rewrite bool_decide_false by (intros [? ?]; done). cbn [type_]. rewrite decide_True by done.
    rewrite !length_app. by replace (S (p + length sp + length x + length sp'))
      with (p + (length sp + (length x + length sp')) + 1) by lia.
  - destruct Hr as (sp1&x'&sp2&r'&->&Hsp1&Hsp2&Hx'&Hr').
    cbn [app] in H. pose proof H as H1.
    erewrite st_go; [|by apply (read_punctuation _ _ _ _ _ tokenArraySeparator H)].
    erewrite st_go; [|by apply skip_comments_at]. apply at_app, at_cons in H.
    rewrite <- !app_assoc in H.
    replace (S (length pre)) with (length (pre ++ [Some (reread (item o))])) by (rewrite length_app; simpl; lia).
    rewrite bool_decide_false by (intros [_ ?]; done). cbn [type_]. rewrite decide_False by done.
    erewrite IH; [|done|exact Hsp1|exact Hsp2|by destruct o'|exact Hr'|exact H|simpl in Hfuel; lia|lia].
    rewrite <- app_assoc. do 4 f_equal. rewrite !length_app. cbn [length]. rewrite !length_app. lia.
Qed.

Lemma at_lookup p c l : at_ p (c :: l) -> document_ !! p = Some c.
Proof. unfold at_. intros H. by rewrite <- (Nat.add_0_r p), <- lookup_drop, H. Qed.

Lemma readArray_at k p sp c l e : at_ p (sp ++ c :: l) -> spaces sp -> is_space c = false ->
  readArray document_ k (MkReader p e)
  = (if decide (c = "]"%char) then readToken document_;; mret (true, VArray [])
     else readArray_loop document_ k (loop_fuel document_) 0 (VArray [])) (MkReader (p + length sp) e).
Proof.
  intros H Hsp Hc. pose proof (at_lookup _ _ _ (at_app _ _ _ H)) as Hl. pose proof (lookup_lt_Some _ _ _ Hl).
  unfold readArray, skipSpaces. rewrite st_assoc, st_get. unfold rest, set_current.
  cbn [current_]. unfold at_ in H. rewrite H, skip_spaces_app; [|done|by intros ? [= <-]]. rewrite st_modify.
  erewrite st_go; [done|]. unfold deref. rewrite st_get. cbn [current_].
  rewrite decide_False by lia. by rewrite (char_at_ok _ _ _ Hl).
Qed.

Lemma reread_items a : VArray ((fun o => Some (reread (item o))) <$> a) = reread (VArray a).
Proof. cbn [reread]. f_equal. apply list_fmap_ext. by intros ? []. Qed.

Lemma parsed_array a : Forall (fun o => parsed (item o)) a -> parsed (VArray a).
Proof.
  intros Ha t Ht fuel p sp l e node H Hsp Hl Hf. destruct fuel as [|fuel]; [lia|].
  assert (Hopen : exists r, t = "["%char :: r ++ B "]") by (destruct a; destruct Ht as (r&Ht&_); by exists r).
  destruct Hopen as [r0 Hr0].
  assert (H0 : at_ p (sp ++ "["%char :: (r0 ++ B "]") ++ l)) by by rewrite Hr0 in H.
  cbn [readValue]. erewrite st_go.
  2: { apply skipCommentTokens_at; [by apply (read_punctuation _ _ _ _ _ tokenArrayBegin H0)|done]. }
  cbn [type_]. clear H. pose proof (at_app _ _ _ H0) as Hp. apply at_cons in Hp. rewrite <- app_assoc in Hp.
  pose proof (at_length _ _ Hp) as Hlen. rewrite !length_app in Hlen.
  destruct a as [|o a].
  - destruct Ht as (sp1&Ht&Hsp1). rewrite Ht in *. injection Hr0 as Hr0. apply app_inv_tail in Hr0 as <-.
    cbn [app B String.list_ascii_of_string] in Hp. rewrite (readArray_at _ _ _ _ _ _ Hp) by done.
    rewrite decide_True by done. apply at_app in Hp.
    erewrite st_go; [|by apply (read_punctuation _ [] _ _ _ tokenArrayEnd Hp)].
    cbn [length]. rewrite length_app. change (length (B "]")) with 1.
    by replace (S (S (p + length sp) + length sp1 + 0)) with (p + length sp + S (length sp1 + 1)) by lia.
  - destruct Ht as (r1&Ht&sp1&x&sp2&r&->&Hsp1&Hsp2&Hx&Hr). rewrite Ht in *. injection Hr0 as Hr0.
    apply app_inv_tail in Hr0 as <-. assert (Hxj : json (item o) x) by by destruct o.
    destruct (json_begins _ _ Hxj) as (c&x'&Ex&Hc&Hne). rewrite Ex in *.
    replace ((sp1 ++ (c :: x') ++ sp2 ++ r) ++ B "]" ++ l)
      with (sp1 ++ c :: (x' ++ sp2 ++ r ++ B "]" ++ l)) in Hp by by rewrite <- !app_assoc.
    rewrite (readArray_at _ _ _ _ _ _ Hp) by done. rewrite decide_False by done. apply at_app in Hp.
    pose proof (more_items_length _ _ Hr). cbn [app length] in Hlen. rewrite !length_app in Hlen.
    cbn [length] in Hlen. rewrite !length_app in Hlen. apply Forall_cons in Ha as [Ho Ha].
    erewrite (array_loop a o [] _ _ _ _ [] (c :: x') sp2 r l);
      [|by constructor|by constructor|done|exact Hxj|exact Hr|exact Hp|unfold loop_fuel; lia|lia].
    match goal with |- context [MkReader ?n1 e] =>
      replace n1 with (p + length sp + length ("["%char :: (sp1 ++ (c :: x') ++ sp2 ++ r) ++ B "]"))
    end; [by rewrite app_nil_l, reread_items|].
    cbn [length]. rewrite app_nil_l, !length_app. change (length (B "]")) with 1. cbn [length]. lia.
Qed.

(** ** Objects *)

(** A key above all others goes to the end. *)
Lemma map_find_above {V} k (m : list (bytes * V)) :
  Forall (fun l => strcmp_lt l k = true) (fst <$> m) -> map_find k m = None.
Proof. induction m as [|[l v] m IH]; [done|]. simpl. intros [-> Hm]%Forall_cons. by apply IH. Qed.

Lemma map_set_above {V} k (x : V) m :
  Forall (fun l => strcmp_lt l k = true) (fst <$> m) -> map_set k x m = m ++ [(k, x)].
Proof.
  induction m as [|[l v] m IH]; [done|]. simpl. intros [-> Hm]%Forall_cons. by rewrite IH.
Qed.

Lemma keys_sorted_before {V} pre k (v : V) o :
  keys_sorted (pre ++ (k, v) :: o) -> Forall (fun l => strcmp_lt l k = true) (fst <$> pre).
Proof.
  induction pre as [|[l w] pre IH]; [constructor|]. cbn [app].
  intros [Hs Hl]%keys_sorted_cons. cbn [fmap list_fmap fst]. constructor; [|by apply IH].
  rewrite Forall_forall in Hl. apply Hl. rewrite fmap_app. set_solver.
Qed.

Lemma keys_sorted_fst {V} (m m' : list (bytes * V)) :
  fst <$> m = fst <$> m' -> keys_sorted m -> keys_sorted m'.
Proof. unfold keys_sorted. by intros ->. Qed.

Definition reread_member (kv : bytes * value) : bytes * value := (kv.1, reread kv.2).

(** One member, and the character after it. *)
Lemma member_step k v name pre fuel f p e sp sp1 sp2 x sp' c l :
  parsed v -> (NUL ∉ k) -> Forall (fun l => strcmp_lt l k = true) (fst <$> pre) ->
  spaces sp /\ spaces sp1 /\ spaces sp2 /\ spaces sp' -> json v x ->
  at_ p (sp ++ quoted k ++ sp1 ++ ":"%char :: sp2 ++ x ++ sp' ++ c :: l) ->
  c = "}"%char \/ c = ","%char -> len - p < f ->
  let node := VObject (pre ++ [(k, reread v)]) in
  let readValue := readValue features_ document_ sscanf_lf (Ret minInt) f in
  readObject_loop document_ readValue (S fuel) name (VObject pre) (MkReader p e)
  = (if decide (c = "}"%char) then mret (true, node)
     else readObject_loop document_ readValue fuel k node)
      (MkReader (p + length (sp ++ quoted k ++ sp1 ++ ":"%char :: sp2 ++ x ++ sp') + 1) e).
Proof.
  intros Ho Hk Hpre (Hsp&Hsp1&Hsp2&Hsp') Hx H Hc Hf node rv. cbn [readObject_loop].
  erewrite st_go; [|exact (read_quoted p sp _ _ e H Hsp)]. erewrite st_go; [|by apply skip_comments_at].
  cbn [type_]. rewrite decide_False by (by intros [? _]). rewrite decide_False by (intros Hn; by apply Hn).
  apply at_app in H.
  erewrite st_go; [|by eapply decode_quoted]. cbv iota. rewrite (c_str_id k) by done.
  apply at_app in H.
  erewrite st_go; [|by apply (read_punctuation _ _ _ _ _ tokenMemberSeparator H)].
  cbn [type_]. rewrite decide_False by (intros Hn; by apply Hn).
  apply at_app, at_cons in H.
  cbn [get_member set_member]. rewrite map_find_above, st_lift by done.
  erewrite st_go.
  2: { apply (Ho x Hx f _ sp2 _ e _ H Hsp2); [|lia]. apply ends_spaces; [done|].
       intros ? [= <-]. by destruct Hc as [-> | ->]. }
  cbn [negb]. rewrite map_set_above, st_lift by done.
  apply at_app in H. apply at_app in H.
  assert (Hend : S (S (p + length sp + length (quoted k) + length sp1) + length sp2 + length x + length sp')
    = p + length (sp ++ quoted k ++ sp1 ++ ":"%char :: sp2 ++ x ++ sp') + 1).
  { rewrite !length_app. cbn [length]. rewrite !length_app. lia. }
  destruct Hc as [-> | ->].
  - erewrite st_go; [|by apply (read_punctuation _ _ _ _ _ tokenObjectEnd H)].
    rewrite decide_False by (cbn [type_]; set_solver).
    erewrite st_go; [|by apply skip_comments_at]. rewrite !decide_True by done. by rewrite Hend.
  - erewrite st_go; [|by apply (read_punctuation _ _ _ _ _ tokenArraySeparator H)].
    rewrite decide_False by (cbn [type_]; set_solver).
    erewrite st_go; [|by apply skip_comments_at]. rewrite !decide_False by done. by rewrite Hend.
Qed.

Lemma more_members_ends o r l : more_members json o r -> ends (r ++ "}"%char :: l).
Proof.
  destruct o as [|[k v] o]; intros H c Hc.
  - rewrite H in Hc. injection Hc as <-. by vm_compute.
  - destruct H as (?&?&?&?&?&?&->&_). injection Hc as <-. by vm_compute.
Qed.

Lemma more_members_length o : forall r, more_members json o r -> length o <= length r.
Proof.
  induction o as [|[k v] o IH]; intros r H; [simpl; lia|].
  destruct H as (sp&sp1&sp2&t&sp'&r'&->&_&_&H). apply IH in H. cbn [length].
  rewrite !length_app. cbn [length]. rewrite !length_app. lia.
Qed.

Lemma member_loop o : forall k v name pre fuel f p e sp sp1 sp2 x sp' r l,
  Forall (fun kv => parsed kv.2) ((k, v) :: o) -> Forall (fun kv => NUL ∉ kv.1) ((k, v) :: o) ->
  keys_sorted (pre ++ (k, v) :: o) ->
  spaces sp /\ spaces sp1 /\ spaces sp2 /\ spaces sp' -> json v x -> more_members json o r ->
  at_ p (sp ++ quoted k ++ sp1 ++ ":"%char :: sp2 ++ x ++ sp' ++ r ++ "}"%char :: l) ->
  length o < fuel -> len - p < f ->
  readObject_loop document_ (readValue features_ document_ sscanf_lf (Ret minInt) f) fuel
    name (VObject pre) (MkReader p e)
  = ([], Ret ((true, VObject (pre ++ (reread_member <$> (k, v) :: o))),
        MkReader (p + length (sp ++ quoted k ++ sp1 ++ ":"%char :: sp2 ++ x ++ sp' ++ r) + 1) e)).
Proof.
  induction o as [|[k' v'] o IH]; intros k v name pre fuel f p e sp sp1 sp2 x sp' r l Ha Hk Hs Hsps Hx Hr H Hfuel Hf;
    (destruct fuel as [|fuel]; [simpl in Hfuel; lia|]); apply Forall_cons in Ha as [Ho Ha];
    apply Forall_cons in Hk as [Hk0 Hk]; pose proof (keys_sorted_before _ _ _ _ Hs) as Hpre.
  - rewrite Hr in *. rewrite app_nil_r. cbn [app] in H.
    rewrite (member_step k v name pre fuel f p e _ _ _ x _ _ l Ho Hk0 Hpre Hsps Hx H (or_introl eq_refl) Hf).
    by rewrite decide_True.
  - destruct Hr as (sp3&sp4&sp5&x'&sp6&r'&->&Hsps'&Hx'&Hr').
    rewrite (member_step k v name pre fuel f p e _ _ _ x _ _ _ Ho Hk0 Hpre Hsps Hx H (or_intror eq_refl) Hf).
    set (here := sp ++ quoted k ++ sp1 ++ ":"%char :: sp2 ++ x ++ sp').
    assert (H' : at_ (p + length here) (","%char :: (sp3 ++ quoted k' ++ sp4 ++ ":"%char :: sp5 ++ x' ++ sp6 ++ r')
      ++ "}"%char :: l)).
    { apply at_app. unfold here. flat_apps. flat_apps_in H. exact H. }
    rewrite decide_False by done. apply at_cons in H'. rewrite <- Nat.add_1_r in H'. flat_apps_in H'.
    erewrite IH; [|done|done| |exact Hsps'|exact Hx'|exact Hr'|exact H'|simpl in Hfuel; lia|lia].
    2: { refine (keys_sorted_fst _ _ _ Hs). by rewrite !fmap_app, <- app_assoc. }
    rewrite <- app_assoc. set (rest' := sp3 ++ _).
    replace (sp ++ quoted k ++ sp1 ++ ":"%char :: sp2 ++ x ++ sp' ++ ","%char :: rest')
      with (here ++ ","%char :: rest') by (unfold here; by flat_apps).
    rewrite (length_app here). cbn [length]. do 4 f_equal. lia.
Qed.

Lemma parsed_object o : keys_sorted o -> Forall (fun kv => NUL ∉ kv.1) o ->
  Forall (fun kv => parsed kv.2) o -> parsed (VObject o).
Proof.
  intros Hs Hk Ha t Ht fuel p sp l e node H Hsp Hl Hf. destruct fuel as [|fuel]; [lia|].
  assert (Hopen : exists r, t = "{"%char :: r ++ B "}")
    by (destruct o as [|[]]; destruct Ht as (r&Ht&_); by exists r).
  destruct Hopen as [r0 Hr0].
  assert (H0 : at_ p (sp ++ "{"%char :: (r0 ++ B "}") ++ l)) by by rewrite Hr0 in H.
  cbn [readValue]. erewrite st_go.
  2: { apply skipCommentTokens_at; [by apply (read_punctuation _ _ _ _ _ tokenObjectBegin H0)|done]. }
  cbn [type_]. unfold readObject. clear H. pose proof (at_app _ _ _ H0) as Hp. apply at_cons in Hp.
  rewrite <- app_assoc in Hp. pose proof (at_length _ _ Hp) as Hlen. rewrite !length_app in Hlen.
  destruct o as [|[k v] o].
  - destruct Ht as (sp1&Ht&Hsp1). rewrite Ht in *. injection Hr0 as Hr0. apply app_inv_tail in Hr0 as <-.
    unfold loop_fuel at 1. cbn [readObject_loop].
    erewrite st_go; [|by apply (read_punctuation _ _ _ _ _ tokenObjectEnd Hp)].
    erewrite st_go; [|by apply skip_comments_at]. rewrite decide_True by done.
    cbn [length]. rewrite length_app. change (length (B "}")) with 1.
    by replace (S (S (p + length sp) + length sp1)) with (p + length sp + S (length sp1 + 1)) by lia.
  - destruct Ht as (r1&Ht&sp1&sp2&sp3&x&sp4&r&Hr1&Hsps&Hx&Hr).
    assert (r0 = r1) as -> by (apply (app_inv_tail (B "}")); congruence).
    rewrite Hr1 in Ht, Hp, Hlen. rewrite Ht. flat_apps_in Hp.
    pose proof (more_members_length _ _ Hr). rewrite !length_app in Hlen. cbn [length] in Hlen.
    rewrite !length_app in Hlen.
    pose proof (at_length _ _ H0) as Hlen'. rewrite length_app in Hlen'. cbn [length] in Hlen'.
    erewrite (member_loop o k v [] [] _ _ _ _ sp1 sp2 sp3 x sp4 r l);
      [|done|done|done|exact Hsps|exact Hx|exact Hr|exact Hp|unfold loop_fuel; lia|lia].
    match goal with |- context [MkReader ?n1 e] =>
      replace n1 with (p + length sp
        + length ("{"%char :: (sp1 ++ quoted k ++ sp2 ++ ":"%char :: sp3 ++ x ++ sp4 ++ r) ++ B "}"))
    end; [done|].
    cbn [length]. rewrite (length_app _ (B "}")). change (length (B "}")) with 1. lia.
Qed.

(** ** Every readable value *)

Lemma readable_items a : readable (VArray a) -> Forall (fun o => readable (item o)) a.
Proof.
  cbn [readable]. induction a as [|[v|] a IH]; intros H; [constructor|..];
    destruct H as [H1 H2]; constructor; auto.
Qed.

Lemma readable_members o : readable (VObject o) ->
  keys_sorted o /\ Forall (fun kv => (NUL ∉ kv.1) /\ readable kv.2) o.
Proof.
  cbn [readable]. intros [Hs H]. split; [done|]. clear Hs.
  induction o as [|[k v] o IH]; [constructor|]. destruct H as (H1&H2&H3). constructor; auto.
Qed.
Lemma readable_parsed v : readable v -> parsed v.
Proof.
  induction v as [|i|u|d|s|b|a Ha|o Ho] using value_nested_ind; intros Hr.
  - intros t ->. eapply (reads_word _ "n"%char (B "ull")); [done|auto].
  - cbn [readable] in Hr. intros t Ht. eapply reads_int; [exact Ht|unfold maxInt, int_max in Hr; simpl in Hr; lia|].
    unfold number_value. by rewrite decide_True by lia.
  - cbn [readable] in Hr. intros t Ht. by eapply reads_int; [exact Ht|lia|].
  - done.
  - destruct Hr as (str&->&Hn). intros t (str'&[= <-]&->). by apply reads_string.
  - intros t Ht. cbn [json] in Ht. subst t. destruct b; [eapply (reads_word _ "t"%char (B "rue"))|
      eapply (reads_word _ "f"%char (B "alse"))]; by auto.
  - apply readable_items in Hr. apply parsed_array.
    induction Ha as [|o a Ho _ IH]; [constructor|]. apply Forall_cons in Hr as [Hr1 Hr2].
    constructor; [|by apply IH]. destruct o as [v|]; [by apply Ho|].
    intros t ->. eapply (reads_word _ "n"%char (B "ull")); [done|auto].
  - apply readable_members in Hr as [Hs Hr]. apply parsed_object; [done|..].
    + eapply Forall_impl; [exact Hr|]. by intros ? [? _].
    + induction Ho as [|[k v] o Hv _ IH]; [constructor|]. apply keys_sorted_cons in Hs as [Hs _].
      apply Forall_cons in Hr as [[_ Hr1] Hr2]. constructor; [by apply Hv|by apply IH].
Qed.

(** The end of the document, after spaces. *)
Lemma read_end p sp e : at_ p sp -> spaces sp -> exists q,
  skipCommentTokens features_ document_ (MkReader p e)
  = ([], Ret (MkToken tokenEndOfStream (p + length sp) q, MkReader q e)).
Proof.
  intros H Hsp. pose proof (at_app p sp []) as Hend. rewrite app_nil_r in Hend. specialize (Hend H).
  exists (p + length sp).
  apply skipCommentTokens_at; [|done]. unfold readToken, skipSpaces, set_current.
  rewrite st_assoc, st_get, st_modify, st_get. unfold rest. cbn [current_ errors_].
  unfold at_ in H, Hend. rewrite H.
  assert (Hskip : skip_spaces sp p = p + length sp)
    by (rewrite <- (app_nil_r sp) at 1; by rewrite skip_spaces_app).
  rewrite !Hskip.
  unfold getNextChar. rewrite st_assoc, st_get. unfold rest. cbn [current_].
  rewrite Hend. rewrite st_mret.
  change (read_token_type document_ NUL) with (mret (M := M) tokenEndOfStream).
  by rewrite st_mret, st_get.
Qed.
End round_trip.

(** A document that is a text of a value, between spaces. *)
Lemma parse_text features sscanf root v sp t sp' :
  readable v -> strictRoot_ features = false \/ isArray v = true \/ isObject v = true ->
  json v t -> spaces sp -> spaces sp' ->
  parse features (sp ++ t ++ sp') sscanf (Ret minInt) root = Ret (true, reread v, []).
Proof.
  intros Hr Hstrict Ht Hsp Hsp'. set (doc := sp ++ t ++ sp'). unfold parse, parse_document.
  assert (Hat : at_ doc 0 (sp ++ t ++ sp')) by done.
  erewrite st_go.
  2: { eapply (readable_parsed features doc sscanf v Hr t Ht); [exact Hat|done| |unfold loop_fuel; lia].
       rewrite <- (app_nil_r sp'). by apply ends_spaces. }
  pose proof (at_app doc _ _ _ (at_app doc _ _ _ Hat)) as Hend.
  destruct (read_end features doc _ sp' [] Hend Hsp') as [q Hq].
  erewrite st_go; [|exact Hq].
  replace (strictRoot_ features && negb (isArray (reread v)) && negb (isObject (reread v))) with false; [done|].
  destruct Hstrict as [->|[Hv|Hv]]; [done|..]; destruct (strictRoot_ features), v; done.
Qed.
