(* ===== verification/JsonRoundTrip.v ===== *)
(** * What FastWriter writes, Reader reads *)

From S2P Require Import Prelude CxxString Str JsonValue JsonWriter JsonReader JsonGrammar.

Section round_trip.
Variable sprintf_g16 : double -> bytes.
Variable yaml : bool.
Abbreviation writeValue := (writeValue sprintf_g16 yaml).

Lemma write_items_cons first o a t :
  write_items writeValue first (o :: a) = Ret t ->
  exists x r, writeValue (item o) = Ret x /\ write_items writeValue false a = Ret r
    /\ t = comma first ++ x ++ r.
Proof.
  cbn [write_items]. destruct o as [v|]; cbn [item JsonWriter.writeValue].
  - intros H. destruct (writeValue v) as [x|]; [|done]. cbn [mbind outcome_bind] in H.
    destruct (write_items writeValue false a) as [r|]; [|done]. injection H as <-. by exists x, r.
  - intros H. cbn [mbind outcome_bind] in H.
    destruct (write_items writeValue false a) as [r|]; [|done]. injection H as <-.
    by exists (B "null"), r.
Qed.

(** The items after the first, as the grammar has them. *)
Lemma written_items a : forall r,
  Forall (fun o => forall t, writeValue (item o) = Ret t -> json (item o) t) a ->
  write_items writeValue false a = Ret r -> more_items json a r.
Proof.
  induction a as [|o a IH]; intros r Ha Hr; [by injection Hr|].
  apply Forall_cons in Ha as [Ho Ha]. apply write_items_cons in Hr as (x&r'&Hx&Hr'&->).
  exists [], x, [], r'. split; [done|]. split; [constructor|]. split; [constructor|].
  split; [by apply item_json, Ho|by apply IH].
Qed.

Definition separator : bytes := if yaml then B ": " else B ":".

Lemma write_members_cons first k v o t :
  write_members yaml writeValue first ((k, v) :: o) = Ret t ->
  exists x r, writeValue v = Ret x /\ write_members yaml writeValue false o = Ret r
    /\ t = comma first ++ quoted k ++ separator ++ x ++ r.
Proof.
  cbn [write_members]. rewrite quoted_escape. cbn [mbind outcome_bind]. intros H.
  destruct (writeValue v) as [x|]; [|done]. cbn [mbind outcome_bind] in H.
  destruct (write_members yaml writeValue false o) as [r|]; [|done]. injection H as <-.
  by exists x, r.
Qed.

Definition after_colon : bytes := if yaml then B " " else [].

Lemma separator_parts : separator = ":"%char :: after_colon.
Proof. unfold separator, after_colon. by destruct yaml. Qed.

Lemma after_colon_spaces : spaces after_colon.
Proof. unfold after_colon. destruct yaml; by repeat constructor. Qed.

Lemma written_members o : forall r,
  Forall (fun kv => forall t, writeValue kv.2 = Ret t -> json kv.2 t) o ->
  write_members yaml writeValue false o = Ret r -> more_members json o r.
Proof.
  induction o as [|[k v] o IH]; intros r Ho Hr; [by injection Hr|].
  apply Forall_cons in Ho as [Hv Ho]. apply write_members_cons in Hr as (x&r'&Hx&Hr'&->).
  exists [], [], after_colon, x, [], r'. rewrite separator_parts. split; [done|].
  split; [split_and!; try apply after_colon_spaces; constructor|].
  split; [by apply Hv|by apply IH].
Qed.

Lemma written_json v : readable v -> forall t, writeValue v = Ret t -> json v t.
Proof.
  induction v as [|i|u|d|s|b|a Ha|o Ho] using value_nested_ind; intros Hr t Ht;
    cbn [JsonWriter.writeValue] in Ht.
  - by injection Ht.
  - cbn [readable] in Hr. destruct (valueToString_int_ok i) as (t'&Ht'&Hx).
    { bounds. unfold maxInt, int_max in Hr. simpl in Hr. simpl. lia. }
    { unfold minInt, int_min. simpl. lia. }
    rewrite Ht' in Ht. by injection Ht as <-.
  - cbn [readable] in Hr. destruct (valueToString_uint_ok u) as (t'&Ht'&Hx); [unfold in_uint; simpl; lia|].
    rewrite Ht' in Ht. injection Ht as <-. exists t'. by rewrite Z.abs_eq, decide_False by lia.
  - done.
  - destruct Hr as (str&->&_). rewrite quoted_escape in Ht. injection Ht as <-. by exists str.
  - injection Ht as <-. by destruct b.
  - assert (Ha' : Forall (fun o => forall t, writeValue (item o) = Ret t -> json (item o) t) a).
    { apply readable_items in Hr. rewrite Forall_forall in Ha, Hr |- *. intros [v|] Hv.
      - specialize (Hr _ Hv). specialize (Ha _ Hv). by apply Ha.
      - intros t' Ht'. by injection Ht'. }
    destruct (write_items writeValue true a) as [body|] eqn:Hb; [|done]. injection Ht as <-.
    destruct a as [|o a]; [injection Hb as <-; exists []; by split; [|constructor]|].
    apply Forall_cons in Ha' as [Ho Ha']. apply write_items_cons in Hb as (x&r&Hx&Hr'&->).
    exists (x ++ r). split; [done|]. exists [], x, [], r. split; [done|].
    split; [constructor|]. split; [constructor|]. split; [by apply item_json, Ho|by apply written_items].
  - apply readable_members in Hr as [_ Hr].
    assert (Ho' : Forall (fun kv => forall t, writeValue kv.2 = Ret t -> json kv.2 t) o).
    { rewrite Forall_forall in Ho, Hr |- *. intros kv Hkv. by apply Ho, Hr. }
    destruct (write_members yaml writeValue true o) as [body|] eqn:Hb; [|done]. injection Ht as <-.
    destruct o as [|[k v] o]; [injection Hb as <-; exists []; by split; [|constructor]|].
    apply Forall_cons in Ho' as [Hv Ho']. apply write_members_cons in Hb as (x&r&Hx&Hr'&->).
    eexists. split; [done|]. exists [], [], after_colon, x, [], r. rewrite separator_parts.
    split; [done|]. split; [split_and!; try apply after_colon_spaces; constructor|].
    split; [by apply Hv|by apply written_members].
Qed.

(** The writer returns on a readable value. *)
Lemma readable_returns v : readable v -> exists t, writeValue v = Ret t.
Proof.
  induction v as [|i|u|d|s|b|a Ha|o Ho] using value_nested_ind; intros Hr; cbn [JsonWriter.writeValue];
    try by eexists.
  - cbn [readable] in Hr. destruct (valueToString_int_ok i) as (t&Ht&_); [| |by exists t].
    { bounds. unfold maxInt, int_max in Hr. simpl in Hr. simpl. lia. }
    { unfold minInt, int_min. simpl. lia. }
  - cbn [readable] in Hr. destruct (valueToString_uint_ok u) as (t&Ht&_); [|by exists t].
    unfold in_uint; simpl; lia.
  - destruct Hr as (str&->&_). rewrite quoted_escape. by eexists.
  - enough (H : forall first, exists t, write_items writeValue first a = Ret t)
      by (destruct (H true) as [t ->]; by eexists).
    apply readable_items in Hr.
    induction Ha as [|o a Ho _ IH]; intros first; [by eexists|]. apply Forall_cons in Hr as [Hr1 Hr2].
    assert (Hx : exists x, match o with Some v => writeValue v | None => Ret (B "null") end = Ret x)
      by (destruct o as [v|]; [by apply Ho|by eexists]).
    cbn [write_items]. destruct Hx as [x ->]. destruct (IH Hr2 false) as [t ->]. by eexists.
  - enough (H : forall first, exists t, write_members yaml writeValue first o = Ret t)
      by (destruct (H true) as [t ->]; by eexists).
    apply readable_members in Hr as [_ Hr].
    induction Ho as [|[k v] o Hv _ IH]; intros first; [by eexists|].
    apply Forall_cons in Hr as [[_ Hr1] Hr2]. cbn [write_members]. rewrite quoted_escape.
    cbn [mbind outcome_bind]. cbn [snd] in Hv, Hr1. destruct (Hv Hr1) as [x ->].
    destruct (IH Hr2 false) as [t ->]. by eexists.
Qed.

End round_trip.


