(* ===== verification/JsonStyled.v ===== *)
(** * libs/jsoncpp: StyledWriter and StyledStreamWriter (json_writer.cpp)

    The two classes have the same code but for the indentation; what differs
    is the [style].  [document_] is the text written so far, to the string or
    to the stream.  Values have no comments here (JsonValue), so the methods
    that write comments do nothing. *)

From S2P Require Import Prelude CxxString Str JsonValue JsonWriter.

Record Styled := MkStyled {
  document_ : bytes;
  indentString_ : bytes;
  childValues_ : list bytes;
  addChildValues_ : bool;
}.

Definition set_indentString x s := MkStyled (document_ s) x (childValues_ s) (addChildValues_ s).
Definition set_childValues x s := MkStyled (document_ s) (indentString_ s) x (addChildValues_ s).
Definition set_addChildValues x s := MkStyled (document_ s) (indentString_ s) (childValues_ s) x.

(** [StyledWriter], or [StyledStreamWriter] with its [indentation_]. *)
Inductive style := to_string | to_stream (indentation_ : bytes).

Definition rightMargin_ : Z := 74.
Definition indentSize_ : nat := 3.

(** A result of an operation on [int]. *)
Definition int_result (z : Z) : outcome Z := if decide (in_int 32 z) then Ret z else Throw IntOverflow.

Section StyledWriter.
Variable how : style.
(** [sprintf(buffer, "%#.16g", value)] of the C library. *)
Variable sprintf_g16 : double -> bytes.

Abbreviation M := (st Styled Empty_set).

Definition append (text : bytes) : M unit :=
  modify (fun s => MkStyled (document_ s ++ text) (indentString_ s) (childValues_ s) (addChildValues_ s)).

Definition pushValue (text : bytes) : M unit :=
  s ← get;
  if addChildValues_ s then put (set_childValues (childValues_ s ++ [text]) s) else append text.

Definition writeIndent : M unit :=
  s ← get;
  match how with
  | to_string =>
      match last (document_ s) with
      | None => append (indentString_ s)
      | Some c =>
          if decide (c = " "%char) then mret ()
          else
            (if decide (c <> "010"%char) then append ["010"%char] else mret ());;
            append (indentString_ s)
      end
  | to_stream _ => append ("010"%char :: indentString_ s)
  end.

Definition writeWithIndent (text : bytes) : M unit := writeIndent;; append text.

(** What a level of nesting adds to the indentation. *)
Definition step_of_indent : bytes :=
  match how with to_string => replicate indentSize_ " "%char | to_stream i => i end.

Definition indent : M unit :=
  modify (fun s => set_indentString (indentString_ s ++ step_of_indent) s).

(** The condition of the [assert] of [unindent]. *)
Definition is_indented (n : nat) : bool :=
  match how with
  | to_string => bool_decide (Z.of_nat indentSize_ <= swrap 32 (Z.of_nat n))%Z
  | to_stream i => bool_decide (length i <= n)
  end.

Definition unindent : M unit :=
  s ← get;
  lift_st (assert_that (is_indented (length (indentString_ s)) = true));;
  put (set_indentString
    (take (length (indentString_ s) - length step_of_indent) (indentString_ s)) s).

(** [childValues_[index]] of a vector, and what is called for the items of an
    array with their indices. *)
Definition child_value (index : nat) : M bytes :=
  s ← get; lift_st (from_option_or BadIndex (childValues_ s !! index)).

(** [value[index]]: null where there is no entry. *)
Definition write_child (writeValue : value -> M unit) (o : option value) : M unit :=
  match o with Some v => writeValue v | None => pushValue (B "null") end.

(** [isArray() || isObject()] and [size() > 0] *)
Definition has_values (o : option value) : bool :=
  match o with Some v => (isArray v || isObject v) && bool_decide (0 < JsonValue.size v) | None => false end.

(** The second loop of [isMultineArray], over [n] items: the length of the
    line. *)
Definition measure (writeValue : value -> M unit) : nat -> list (option value) -> nat -> Z -> M Z :=
  fix measure (n : nat) (a : list (option value)) (index : nat) (lineLength : Z) {struct a} : M Z :=
    match a, n with
    | o :: a', S n' =>
        write_child writeValue o;;
        text ← child_value index;
        l ← lift_st (int_result (lineLength + swrap 32 (Z.of_nat (length text))));
        measure n' a' (S index) l
    | _, _ => mret lineLength
    end.

Definition isMultineArray (writeValue : value -> M unit) (a : list (option value)) : M bool :=
  let size := swrap 32 (Z.of_nat (length a)) in
  width ← lift_st (int_result (size * 3));
  modify (set_childValues []);;
  if bool_decide (rightMargin_ <= width)%Z || existsb has_values (take (Z.to_nat size) a) then mret true
  else
    modify (set_addChildValues true);;
    l ← lift_st (gaps ← int_result (size - 1); gaps ← int_result (gaps * 2); int_result (4 + gaps));
    lineLength ← measure writeValue (Z.to_nat size) a 0 l;
    modify (set_addChildValues false);;
    mret (bool_decide (rightMargin_ <= lineLength)%Z).

(** The [while ( true )] of [writeArrayValue], over several lines. *)
Definition write_lines (writeValue : value -> M unit) (hasChildValue : bool)
    : list (option value) -> nat -> M unit :=
  fix lines a index :=
    match a with
    | [] => mret ()
    | o :: a' =>
        (if hasChildValue then text ← child_value index; writeWithIndent text
         else writeIndent;; write_child writeValue o);;
        match a' with
        | [] => mret ()
        | _ => append (B ",");; lines a' (S index)
        end
    end.

(** The [for] of [writeArrayValue], on a single line: [n] items are left. *)
Fixpoint write_line (n index : nat) : M unit :=
  match n with
  | 0 => mret ()
  | S n' =>
      (if decide (0 < index) then append (B ", ") else mret ());;
      text ← child_value index;
      append text;;
      write_line n' (S index)
  end.

Definition writeArrayValue (writeValue : value -> M unit) (a : list (option value)) : M unit :=
  if decide (length a = 0) then pushValue (B "[]")
  else
    isArrayMultiLine ← isMultineArray writeValue a;
    if isArrayMultiLine : bool then
      writeWithIndent (B "[");;
      indent;;
      s ← get;
      write_lines writeValue (negb (bool_decide (childValues_ s = []))) a 0;;
      unindent;;
      writeWithIndent (B "]")
    else
      s ← get;
      lift_st (assert_that (length (childValues_ s) = length a));;
      append (B "[ ");;
      write_line (length a) 0;;
      append (B " ]").

(** The [while ( true )] over the members of an object. *)
Definition write_members (writeValue : value -> M unit) : list (bytes * value) -> M unit :=
  fix members o :=
    match o with
    | [] => mret ()
    | (name, v) :: o' =>
        key ← lift_st (valueToQuotedString (Some name));
        writeWithIndent key;;
        append (B " : ");;
        writeValue v;;
        match o' with
        | [] => mret ()
        | _ => append (B ",");; members o'
        end
    end.

Fixpoint writeValue (v : value) : M unit :=
  match v with
  | VNull => pushValue (B "null")
  | VInt i => t ← lift_st (valueToString_int i); pushValue t
  | VUInt u => t ← lift_st (valueToString_uint u); pushValue t
  | VReal d => pushValue (valueToString_double sprintf_g16 d)
  | VString s => t ← lift_st (valueToQuotedString s); pushValue t
  | VBool b => pushValue (valueToString_bool b)
  | VArray a => writeArrayValue writeValue a
  | VObject [] => pushValue (B "{}")
  | VObject o =>
      writeWithIndent (B "{");;
      indent;;
      write_members writeValue o;;
      unindent;;
      writeWithIndent (B "}")
  end.

(** [write], by a writer whose [childValues_] are [children] of an earlier
    call: the whole text. *)
Definition write (children : list bytes) (root : value) : outcome bytes :=
  '(_, s) ← result ((writeValue root;; append ["010"%char]) (MkStyled [] [] children false));
  Ret (document_ s).
End StyledWriter.
