(* ===== verification/JsonStyledProps.v ===== *)
(** * What the styled writers write, Reader reads

    The text of [StyledWriter] and of [StyledStreamWriter] is a text of the
    value in the sense of JsonGrammar, whatever the layout: it is parsed back
    into the value. *)

From S2P Require Import Prelude CxxString Str JsonValue JsonWriter JsonReader JsonGrammar.
From S2P Require Import JsonStyled.

(** ** How large a value is *)

Definition sum_items (w : value -> nat) : list (option value) -> nat :=
  fix sum a := match a with [] => 0 | o :: a' => S (from_option w 0 o + sum a') end.

Definition sum_members (w : value -> nat) : list (bytes * value) -> nat :=
  fix sum o := match o with [] => 0 | (k, v) :: o' => S (length k + w v + sum o') end.

(** The values and the characters in it. *)
Fixpoint weight (v : value) : nat :=
  match v with
  | VString s => S (from_option length 0 s)
  | VArray a => S (sum_items weight a)
  | VObject o => S (sum_members weight o)
  | _ => 1
  end.

Lemma sum_items_bounds a : length a <= sum_items weight a
  /\ Forall (fun o => weight (item o) <= S (sum_items weight a)) a
  /\ Forall (from_option (fun v => weight v <= sum_items weight a) True) a.
Proof.
  induction a as [|o a (IH1&IH2&IH3)]; [split_and!; [simpl; lia|constructor..]|].
  change (sum_items weight (o :: a)) with (S (from_option weight 0 o + sum_items weight a)).
  cbn [length]. split_and!; [lia|..].
  - constructor; [destruct o; simpl; lia|]. eapply Forall_impl; [exact IH2|]. cbn beta. lia.
  - constructor; [destruct o; simpl; lia|]. eapply Forall_impl; [exact IH3|]. intros [v|]; simpl; lia.
Qed.

Lemma sum_members_bounds o : Forall (fun kv => weight kv.2 <= sum_members weight o) o.
Proof.
  induction o as [|[k v] o IH]; [constructor|].
  change (sum_members weight ((k, v) :: o)) with (S (length k + weight v + sum_members weight o)).
  constructor; [simpl; lia|]. eapply Forall_impl; [exact IH|]. cbn beta. lia.
Qed.

(** ** Texts that end with spaces *)

Lemma spaces_app sp sp' : spaces sp -> spaces sp' -> spaces (sp ++ sp').
Proof. intros. by apply Forall_app. Qed.

Lemma trail_items a : forall sp r tr, spaces sp -> spaces tr -> more_items json a r ->
  exists sp' r', sp ++ r ++ tr = sp' ++ r' /\ spaces sp' /\ more_items json a r'.
Proof.
  induction a as [|o a IH]; intros sp r tr Hsp Htr H.
  - rewrite H. exists (sp ++ tr), []. split_and!; [by rewrite app_nil_r|by apply spaces_app|done].
  - destruct H as (sp1&t&sp2&r'&->&Hsp1&Hsp2&Ht&H).
    destruct (IH sp2 r' tr Hsp2 Htr H) as (sp3&r3&E&Hsp3&H3).
    exists sp, (","%char :: sp1 ++ t ++ sp3 ++ r3). split_and!; [|done|].
    + cbn [app]. by rewrite <- !app_assoc, E.
    + exists sp1, t, sp3, r3. by split_and!.
Qed.

Lemma trail_members o : forall sp r tr, spaces sp -> spaces tr -> more_members json o r ->
  exists sp' r', sp ++ r ++ tr = sp' ++ r' /\ spaces sp' /\ more_members json o r'.
Proof.
  induction o as [|[k v] o IH]; intros sp r tr Hsp Htr H.
  - rewrite H. exists (sp ++ tr), []. split_and!; [by rewrite app_nil_r|by apply spaces_app|done].
  - destruct H as (sp1&sp2&sp3&t&sp4&r'&->&(Hsp1&Hsp2&Hsp3&Hsp4)&Ht&H).
    destruct (IH sp4 r' tr Hsp4 Htr H) as (sp5&r5&E&Hsp5&H5).
    exists sp, (","%char :: sp1 ++ quoted k ++ sp2 ++ ":"%char :: sp3 ++ t ++ sp5 ++ r5).
    split_and!; [|done|].
    + repeat (progress (cbn [app]; rewrite <- ?app_assoc)). by rewrite E.
    + exists sp1, sp2, sp3, t, sp5, r5. by split_and!.
Qed.

Lemma json_array o a sp x r tr : spaces sp -> json (item o) x -> more_items json a r -> spaces tr ->
  json (VArray (o :: a)) ("["%char :: (sp ++ x ++ r ++ tr) ++ B "]").
Proof.
  intros Hsp Hx Hr Htr. destruct (trail_items a [] r tr) as (sp'&r'&E&Hsp'&Hr'); [constructor|done..|].
  cbn [app] in E. rewrite E. eexists. split; [done|]. exists sp, x, sp', r'. split_and!; try done.
  by apply item_json.
Qed.

Lemma json_object k v o sp sp1 sp2 x r tr :
  spaces sp -> spaces sp1 -> spaces sp2 -> json v x -> more_members json o r -> spaces tr ->
  json (VObject ((k, v) :: o)) ("{"%char :: (sp ++ quoted k ++ sp1 ++ ":"%char :: sp2 ++ x ++ r ++ tr) ++ B "}").
Proof.
  intros Hsp Hsp1 Hsp2 Hx Hr Htr.
  destruct (trail_members o [] r tr) as (sp'&r'&E&Hsp'&Hr'); [constructor|done..|].
  cbn [app] in E. rewrite E. eexists. split; [done|]. exists sp, sp1, sp2, x, sp', r'. by split_and!.
Qed.

(** ** How long the text of a value on one line is *)

Lemma escape_char_short c : length (escape_char c) <= 6.
Proof.
  apply Nat.leb_le. revert c. apply (forall_chars (fun c => length (escape_char c) <=? 6)). by vm_compute.
Qed.

Lemma quoted_length str : length (quoted str) <= 6 * length str + 2.
Proof.
  unfold quoted. cbn [length]. rewrite length_app. cbn [length].
  enough (length (str ≫= escape_char) <= 6 * length str) by lia.
  induction str as [|c str IH]; [simpl; lia|]. rewrite bind_cons, length_app. cbn [length].
  pose proof (escape_char_short c). lia.
Qed.

Lemma int_text_length i t : int_text i t -> in_uint 32 (Z.abs i) -> length t <= 11.
Proof.
  intros (ds&Hd&->) Hi. destruct (uintToString_ok _ Hi) as (ds'&_&Hd'&Hlen).
  rewrite (is_decimal_unique _ _ _ Hd Hd') in *. case_decide; cbn [length]; lia.
Qed.

Section styled.
Variable how : style.
Variable sprintf_g16 : double -> bytes.
(** The indentation is blank. *)
Hypothesis Hhow : match how with to_string => True | to_stream i => spaces i end.

Abbreviation M := (st Styled Empty_set).
Abbreviation writeValue := (JsonStyled.writeValue how sprintf_g16).
Abbreviation step_ := (step_of_indent how).

Lemma step_spaces : spaces step_.
Proof. unfold step_of_indent. destruct how; [by repeat constructor|done]. Qed.

(** ** Steps of the writer *)

Lemma int_result_ok z : in_int 32 z -> int_result z = Ret z.
Proof. intros H. unfold int_result. by rewrite decide_True. Qed.

(** From [s], [t] was written, and [childValues_] may have changed. *)
Record wrote (s : Styled) (t : bytes) (s' : Styled) : Prop := {
  wr_document : document_ s' = document_ s ++ t;
  wr_indent : indentString_ s' = indentString_ s;
  wr_add : addChildValues_ s' = false;
}.

Lemma wrote_trans s t s' t' s'' : wrote s t s' -> wrote s' t' s'' -> wrote s (t ++ t') s''.
Proof. intros [H1 H2 H3] [H4 H5 H6]. split; [by rewrite H4, H1, app_assoc|congruence|done]. Qed.

(** A call that writes a text with [P], and keeps [childValues_]. *)
Definition writes (P : bytes -> Prop) (m : M unit) (s : Styled) : Prop :=
  exists t s', m s = ([], Ret ((), s')) /\ wrote s t s' /\ P t.

Lemma append_ok t s : addChildValues_ s = false ->
  append t s = ([], Ret ((), MkStyled (document_ s ++ t) (indentString_ s) (childValues_ s) false)).
Proof. intros H. unfold append, modify. by rewrite H. Qed.

Lemma pushValue_ok t s : addChildValues_ s = false ->
  pushValue t s = ([], Ret ((), MkStyled (document_ s ++ t) (indentString_ s) (childValues_ s) false)).
Proof. intros H. unfold pushValue. rewrite st_get, H. by apply append_ok. Qed.

Lemma writeIndent_ok s : addChildValues_ s = false -> spaces (indentString_ s) ->
  exists sp, writeIndent how s
    = ([], Ret ((), MkStyled (document_ s ++ sp) (indentString_ s) (childValues_ s) false)) /\ spaces sp.
Proof.
  intros Ha Hi. unfold writeIndent. rewrite st_get. destruct how.
  - destruct (last (document_ s)) as [c|].
    + case_decide.
      * exists []. rewrite app_nil_r. split; [|constructor]. destruct s; cbn in *. by subst.
      * case_decide.
        -- exists ("010"%char :: indentString_ s). split; [|by constructor].
           erewrite st_go; [|by apply append_ok]. rewrite append_ok by done. cbn.
           by rewrite <- app_assoc.
        -- exists (indentString_ s). split; [|done]. rewrite st_mret. by apply append_ok.
    + exists (indentString_ s). split; [|done]. by apply append_ok.
  - exists ("010"%char :: indentString_ s). split; [by apply append_ok|by constructor].
Qed.

Lemma writeWithIndent_ok t s : addChildValues_ s = false -> spaces (indentString_ s) ->
  exists sp, writeWithIndent how t s
    = ([], Ret ((), MkStyled (document_ s ++ sp ++ t) (indentString_ s) (childValues_ s) false)) /\ spaces sp.
Proof.
  intros Ha Hi. unfold writeWithIndent. destruct (writeIndent_ok s Ha Hi) as (sp&E&Hsp).
  exists sp. split; [|done]. erewrite st_go; [|exact E]. rewrite append_ok by done. cbn.
  by rewrite <- app_assoc.
Qed.

Lemma unindent_ok i s : indentString_ s = i ++ step_ -> (Z.of_nat (length (indentString_ s)) < 2 ^ 31)%Z ->
  unindent how s = ([], Ret ((), set_indentString i s)).
Proof.
  intros Hi Hlen. unfold unindent. rewrite st_get, Hi in *.
  rewrite length_app in Hlen |- *. rewrite Nat.add_sub, take_app_length.
  assert (H : is_indented how (length i + length step_) = true).
  { unfold is_indented, step_of_indent in *. destruct how; apply bool_decide_eq_true; [|lia].
    rewrite length_replicate in *. rewrite swrap_small; [lia|done|]. bounds. }
  rewrite H. unfold assert_that. rewrite decide_True by done. by rewrite st_lift.
Qed.
(** ** Values on one line *)

(** An item that is pushed as a text of its own. *)
Definition leaf (o : option value) : Prop := exists t,
  (forall s, write_child writeValue o s = pushValue t s) /\ json (item o) t
  /\ length t <= 6 * weight (item o) + 12.

Lemma lift_push (o : outcome bytes) t s : o = Ret t -> (lift_st o ≫= (fun t => pushValue t)) s = pushValue t s.
Proof. intros ->. by rewrite st_lift. Qed.

Lemma leaf_ok o : has_values o = false -> readable (item o) -> leaf o.
Proof.
  destruct o as [v|]; [|intros _ _; exists (B "null"); split_and!; [done|done|simpl; lia]].
  cbn [item has_values]. intros Hv Hr. unfold leaf. cbn [item write_child].
  destruct v as [|i|u|d|s|b|[|o a]|[|kv o]]; try done.
  - exists (B "null"). split_and!; [done|done|simpl; lia].
  - cbn [readable] in Hr. destruct (valueToString_int_ok i) as (t&Ht&Hx).
    { bounds. unfold maxInt, int_max in Hr. simpl in Hr. simpl. lia. }
    { unfold minInt, int_min. simpl. lia. }
    exists t. split_and!; [intros s; by apply lift_push|done|].
    pose proof (int_text_length i t Hx ltac:(bounds; unfold maxInt, int_max in Hr; simpl in *; lia)). simpl. lia.
  - cbn [readable] in Hr. destruct (valueToString_uint_ok u) as (t&Ht&Hx); [unfold in_uint; simpl; lia|].
    assert (Hx' : int_text u t) by (exists t; by rewrite Z.abs_eq, decide_False by lia).
    exists t. split_and!; [intros s; by apply lift_push|exact Hx'|].
    pose proof (int_text_length u t Hx' ltac:(bounds; simpl in *; lia)). simpl. lia.
  - destruct Hr as (str&->&_). exists (quoted str). split_and!; [|by exists str|].
    + intros s. apply lift_push. apply quoted_escape.
    + pose proof (quoted_length str). cbn [weight from_option]. lia.
  - exists (valueToString_bool b). split_and!; [done|by destruct b|destruct b; simpl; lia].
  - exists (B "[]"). split_and!; [done|by exists []; split; [|constructor]|simpl; lia].
  - exists (B "{}"). split_and!; [done|by exists []; split; [|constructor]|simpl; lia].
Qed.

Definition item_text (o : option value) (t : bytes) : Prop := json (item o) t.

Definition max_item : Z := 6 * 2 ^ 20 + 12.

Lemma measure_ok a : forall n index l s,
  Forall (fun o => leaf o /\ (Z.of_nat (weight (item o)) < 2 ^ 20)%Z) a ->
  length a <= n -> addChildValues_ s = true -> index = length (childValues_ s) ->
  (0 <= l)%Z -> (l + max_item * Z.of_nat (length a) < 2 ^ 31)%Z ->
  exists texts l', measure writeValue n a index l s
    = ([], Ret (l', set_childValues (childValues_ s ++ texts) s)) /\ Forall2 item_text a texts.
Proof.
  unfold max_item. induction a as [|o a IH]; intros n index l s Ha Hn Hs -> Hl Hmax.
  - exists [], l. split; [|constructor]. rewrite app_nil_r. destruct n; by destruct s.
  - apply Forall_cons in Ha as [[(t&Ht&Hj&Hlen) Hw] Ha]. cbn [length] in Hn, Hmax.
    destruct n as [|n]; [lia|]. cbn [measure].
    assert (Hpush : write_child writeValue o s = ([], Ret ((), set_childValues (childValues_ s ++ [t]) s))).
    { rewrite Ht. unfold pushValue. by rewrite st_get, Hs. }
    erewrite st_go; [|exact Hpush]. unfold child_value at 1. rewrite st_assoc, st_get. cbn [childValues_ set_childValues].
    rewrite lookup_app_r, Nat.sub_diag by lia. cbn [from_option_or list_lookup lookup]. rewrite st_lift.
    rewrite swrap_small by (done || (bounds; simpl; lia)). rewrite int_result_ok by (bounds; simpl; lia). rewrite st_lift.
    destruct (IH n (S (length (childValues_ s))) (l + Z.of_nat (length t))%Z
      (set_childValues (childValues_ s ++ [t]) s)) as (texts&l'&E&HF); try done; [lia| |lia|lia|].
    { cbn. rewrite length_app. simpl. lia. }
    exists (t :: texts), l'. split; [|by constructor]. rewrite E. cbn. by rewrite <- app_assoc.
Qed.
Lemma existsb_has_values a : existsb has_values a = false -> Forall (fun o => has_values o = false) a.
Proof.
  induction a as [|o a IH]; [constructor|]. cbn. intros [H1 H2]%orb_false_iff. constructor; auto.
Qed.

(** [isMultineArray] leaves the texts of the items, or none. *)
Lemma isMultineArray_ok a s : Forall (fun o => readable (item o)) a -> addChildValues_ s = false ->
  (Z.of_nat (weight (VArray a)) < 2 ^ 20)%Z ->
  exists multi children, isMultineArray writeValue a s = ([], Ret (multi, set_childValues children s))
    /\ (multi = true /\ children = [] \/ Forall2 item_text a children).
Proof.
  intros Hr Hs Hw. cbn [weight] in Hw. destruct (sum_items_bounds a) as (Hlen&Hwi&_).
  unfold isMultineArray. rewrite swrap_small by (done || (bounds; simpl; lia)).
  rewrite (int_result_ok (_ * 3)) by (bounds; simpl; lia). rewrite st_lift, st_modify.
  rewrite Nat2Z.id, firstn_all.
  destruct (bool_decide (rightMargin_ <= Z.of_nat (length a) * 3)%Z) eqn:Hm; cbn [orb].
  { exists true, []. split; [done|by left]. }
  apply bool_decide_eq_false in Hm. unfold rightMargin_ in *.
  destruct (existsb has_values a) eqn:Hv; [exists true, []; split; [done|by left]|].
  apply existsb_has_values in Hv. rewrite st_modify.
  rewrite (int_result_ok (_ - 1)) by (bounds; simpl; lia). cbn [mbind outcome_bind].
  rewrite (int_result_ok (_ * 2)) by (bounds; simpl; lia). cbn [mbind outcome_bind].
  rewrite (int_result_ok (4 + _)) by (bounds; simpl; lia). rewrite st_lift.
  destruct (Nat.eq_dec (length a) 0) as [H0|H0].
  { apply length_zero_iff_nil in H0 as ->. exists false, []. split; [|right; constructor].
    cbn [measure length Z.of_nat]. rewrite st_mret, st_modify. by destruct s; cbn in *; subst. }
  destruct (measure_ok a (length a) 0 (4 + (Z.of_nat (length a) - 1) * 2)%Z
    (set_addChildValues true (set_childValues [] s))) as (texts&l'&E&HF); try done; [|lia|unfold max_item; lia|].
  { rewrite Forall_forall in Hr, Hv, Hwi |- *. intros o Ho. split; [by apply leaf_ok; [apply Hv|apply Hr]|].
    specialize (Hwi o Ho). cbn beta in Hwi. lia. }
  erewrite st_go; [|exact E]. rewrite st_modify. eexists _, texts. split; [|by right].
  cbn. by destruct s; cbn in *; subst.
Qed.

(** ** Values over several lines *)

Definition fits (w : nat) (s : Styled) : Prop :=
  (Z.of_nat (length (indentString_ s)) + Z.of_nat (length step_) * Z.of_nat w < 2 ^ 31
   /\ Z.of_nat w < 2 ^ 20)%Z.

Lemma fits_le w w' s s' : fits w s -> w' <= w -> indentString_ s' = indentString_ s -> fits w' s'.
Proof. intros [H1 H2] Hw Hi. unfold fits. rewrite Hi. split; nia. Qed.

(** The state in which a value can be written. *)
Definition ready (s : Styled) : Prop := addChildValues_ s = false /\ spaces (indentString_ s).

Lemma wrote_ready s t s' : ready s -> wrote s t s' -> ready s'.
Proof. intros [_ H] [_ Hi Ha]. split; [done|by rewrite Hi]. Qed.

(** A text of [v] after spaces. *)
Definition value_text (v : value) (t : bytes) : Prop := exists sp x, t = sp ++ x /\ spaces sp /\ json v x.

Definition styled_ok (v : value) : Prop := forall s, ready s -> readable v -> fits (weight v) s ->
  writes (value_text v) (writeValue v) s.

Lemma wrote_append s t c : wrote s t (MkStyled (document_ s ++ t) (indentString_ s) c false).
Proof. by split. Qed.

Lemma writes_leaf v s : has_values (Some v) = false -> ready s -> readable v -> writes (value_text v) (writeValue v) s.
Proof.
  intros Hv [Ha Hi] Hr. destruct (leaf_ok (Some v) Hv Hr) as (t&Ht&Hj&_).
  exists t. eexists. change (writeValue v s) with (write_child writeValue (Some v) s).
  rewrite Ht, pushValue_ok by done. split; [done|]. split; [apply wrote_append|].
  exists [], t. split_and!; [done|constructor|done].
Qed.

(** An item on a line of its own, written as a value. *)
Lemma child_line o s : from_option styled_ok True o -> readable (item o) -> ready s ->
  fits (weight (item o)) s ->
  writes (value_text (item o)) (writeIndent how;; write_child writeValue o) s.
Proof.
  intros Ho Hr Hs Hf. pose proof Hs as [Ha Hi].
  destruct (writeIndent_ok s Ha Hi) as (sp&E&Hsp).
  set (s1 := MkStyled _ _ _ _) in E. assert (H1 : wrote s sp s1) by by split.
  assert (Hs1 : ready s1) by by split.
  assert (Hw : writes (value_text (item o)) (write_child writeValue o) s1).
  { destruct o as [v|]; [apply Ho; [done..|by eapply fits_le]|].
    by apply (writes_leaf VNull). }
  destruct Hw as (t&s2&E2&H2&(sp2&x&->&Hsp2&Hx)).
  exists (sp ++ sp2 ++ x), s2. split; [by erewrite st_go|]. split; [by eapply wrote_trans|].
  exists (sp ++ sp2), x. split_and!; [by rewrite app_assoc|by apply spaces_app|done].
Qed.

(** The items, from the text of the first on. *)
Definition items_text (o : option value) (a : list (option value)) (t : bytes) : Prop :=
  exists sp x r, t = sp ++ x ++ r /\ spaces sp /\ json (item o) x /\ more_items json a r.

Lemma items_text_cons o o' a sp x t : spaces sp -> json (item o) x -> items_text o' a t ->
  items_text o (o' :: a) (sp ++ x ++ ","%char :: t).
Proof.
  intros Hsp Hx (sp'&x'&r&->&Hsp'&Hx'&Hr). exists sp, x, (","%char :: sp' ++ x' ++ [] ++ r).
  split; [done|]. split; [done|]. split; [done|]. exists sp', x', [], r.
  split_and!; try done; [constructor|by apply item_json].
Qed.

Lemma lines_values a : forall o index s,
  Forall (fun o => from_option styled_ok True o /\ readable (item o) /\ fits (weight (item o)) s) (o :: a) ->
  ready s -> writes (items_text o a) (write_lines how writeValue false (o :: a) index) s.
Proof.
  induction a as [|o' a IH]; intros o index s Ha Hs; apply Forall_cons in Ha as [(Ho&Hr&Hf) Ha];
    destruct (child_line o s Ho Hr Hs Hf) as (t&s1&E&H1&(sp&x&->&Hsp&Hx)); cbn [write_lines].
  - exists (sp ++ x), s1. split; [by erewrite st_go|]. split; [done|]. exists sp, x, [].
    by rewrite app_nil_r.
  - pose proof (wrote_ready _ _ _ Hs H1) as Hs1. pose proof H1 as [Hd Hi Had].
    set (s2 := MkStyled (document_ s1 ++ B ",") (indentString_ s1) (childValues_ s1) false).
    assert (H2 : wrote s1 (B ",") s2) by by split.
    destruct (IH o' (S index) s2) as (t&s3&E3&H3&Ht).
    { eapply Forall_impl; [exact Ha|]. intros o1 (?&?&?). split_and!; [done..|]. by eapply fits_le. }
    { by eapply wrote_ready. }
    exists ((sp ++ x) ++ B "," ++ t), s3. split; [|split].
    + erewrite st_go; [|exact E]. erewrite st_go; [|by apply append_ok]. exact E3.
    + eapply wrote_trans; [exact H1|]. by eapply wrote_trans.
    + rewrite <- app_assoc. by apply items_text_cons.
Qed.

Lemma lines_children a : forall o index s, ready s ->
  Forall2 item_text (o :: a) (drop index (childValues_ s)) ->
  writes (items_text o a) (write_lines how writeValue true (o :: a) index) s.
Proof.
  induction a as [|o' a IH]; intros o index s [Had Hi] HF;
    apply Forall2_cons_inv_l in HF as (x&l&Hx&HF&Hl);
    (assert (Hlook : childValues_ s !! index = Some x)
      by (rewrite <- (Nat.add_0_r index), <- lookup_drop, Hl; done));
    destruct (writeWithIndent_ok x s Had Hi) as (sp&E&Hsp);
    (assert (Hline : (text ← child_value index; writeWithIndent how text) s
      = ([], Ret ((), MkStyled (document_ s ++ sp ++ x) (indentString_ s) (childValues_ s) false)))
      by (unfold child_value; rewrite st_assoc, st_get, Hlook; cbn [from_option_or]; by rewrite st_lift));
    cbn [write_lines]; set (s1 := MkStyled _ _ _ _) in Hline;
    assert (H1 : wrote s (sp ++ x) s1) by by split.
  - exists (sp ++ x), s1. split; [by erewrite st_go|]. split; [done|]. exists sp, x, [].
    by rewrite app_nil_r.
  - set (s2 := MkStyled (document_ s1 ++ B ",") (indentString_ s1) (childValues_ s1) false).
    assert (H2 : wrote s1 (B ",") s2) by by split.
    destruct (IH o' (S index) s2) as (t&s3&E3&H3&Ht).
    { by split. }
    { unfold s2, s1. cbn [childValues_]. rewrite <- Nat.add_1_r, <- drop_drop, Hl. exact HF. }
    exists ((sp ++ x) ++ B "," ++ t), s3. split; [|split].
    + erewrite st_go; [|exact Hline]. erewrite st_go; [|by apply append_ok]. exact E3.
    + eapply wrote_trans; [exact H1|]. by eapply wrote_trans.
    + rewrite <- app_assoc. by apply items_text_cons.
Qed.

(** The items after the first, on a single line. *)
Lemma line_children a : forall index s, addChildValues_ s = false -> 0 < index ->
  Forall2 item_text a (drop index (childValues_ s)) ->
  exists r s', write_line (length a) index s = ([], Ret ((), s')) /\ wrote s r s'
    /\ more_items json a r.
Proof.
  induction a as [|o a IH]; intros index s Had Hindex HF.
  - exists [], s. split; [done|]. split; [|done]. split; [by rewrite app_nil_r|done..].
  - apply Forall2_cons_inv_l in HF as (x&l&Hx&HF&Hl). cbn [length write_line].
    assert (Hlook : childValues_ s !! index = Some x)
      by (rewrite <- (Nat.add_0_r index), <- lookup_drop, Hl; done).
    rewrite decide_True by done. erewrite st_go; [|by apply append_ok].
    unfold child_value. rewrite st_assoc, st_get. cbn [childValues_]. rewrite Hlook.
    cbn [from_option_or]. rewrite st_lift. erewrite st_go; [|by apply append_ok].
    cbn [document_ indentString_ childValues_]. set (s2 := MkStyled _ _ _ _).
    destruct (IH (S index) s2) as (r&s3&E3&H3&Hr); [done|lia| |].
    { unfold s2. cbn [childValues_]. rewrite <- Nat.add_1_r, <- drop_drop, Hl. exact HF. }
    exists ((B ", " ++ x) ++ r), s3. split; [exact E3|]. split.
    + eapply (wrote_trans _ _ s2); [|done]. unfold s2. rewrite <- app_assoc. apply wrote_append.
    + exists (B " "), x, [], r. cbn [app]. rewrite <- app_assoc.
      split_and!; [done|by repeat constructor|constructor|by apply item_json|done].
Qed.

(** A text in brackets over several lines: [body] is written with one more
    level of indentation, by what [k] does from its state on. *)
Lemma bracket_ok (P : bytes -> Prop) opening closing (m : Styled -> M unit) (k : M unit) s w :
  (forall s1, k s1 = (m s1;; unindent how;; writeWithIndent how closing) s1) ->
  ready s -> fits (S w) s ->
  (forall s1, ready s1 -> fits w s1 -> childValues_ s1 = childValues_ s -> writes P (m s1) s1) ->
  writes (fun t => exists sp body sp', t = sp ++ opening ++ body ++ sp' ++ closing
      /\ spaces sp /\ spaces sp' /\ P body)
    (writeWithIndent how opening;; indent how;; k) s.
Proof.
  intros Hk [Ha Hi] Hf Hm. destruct (writeWithIndent_ok opening s Ha Hi) as (sp&E&Hsp).
  set (s1 := MkStyled _ _ _ _) in E. set (s2 := set_indentString (indentString_ s1 ++ step_) s1).
  assert (Hs2 : ready s2) by (split; [done|]; apply spaces_app; [done|apply step_spaces]).
  assert (Hf2 : fits w s2).
  { destruct Hf as [Hf1 Hf2]. split; [|lia]. unfold s2, s1. cbn. rewrite length_app. nia. }
  destruct (Hm s2 Hs2 Hf2 eq_refl) as (body&s3&E3&H3&HP).
  assert (Hlen3 : (Z.of_nat (length (indentString_ s3)) < 2 ^ 31)%Z).
  { destruct H3 as [_ -> _]. destruct Hf2 as [Hf2 _]. nia. }
  destruct H3 as [Hd3 Hi3 Ha3]. pose proof (unindent_ok _ _ Hi3 Hlen3) as E4.
  destruct (writeWithIndent_ok closing (set_indentString (indentString_ s1) s3) Ha3 Hi) as (sp'&E5&Hsp').
  eexists (sp ++ opening ++ body ++ sp' ++ closing), _. split; [|split].
  - erewrite st_go; [|exact E]. unfold indent. rewrite st_modify, Hk.
    erewrite st_go; [|exact E3]. erewrite st_go; [|exact E4]. exact E5.
  - split; [|done..]. cbn [document_ set_indentString]. rewrite Hd3. cbn [document_ s2 s1 set_indentString].
    by rewrite <- !app_assoc.
  - by exists sp, body, sp'.
Qed.
Lemma items_text_array o a sp body sp' : items_text o a body -> spaces sp -> spaces sp' ->
  value_text (VArray (o :: a)) (sp ++ B "[" ++ body ++ sp' ++ B "]").
Proof.
  intros (sp1&x&r&->&Hsp1&Hx&Hr) Hsp Hsp'. eexists sp, _. split; [done|]. split; [done|].
  pose proof (json_array o a sp1 x r sp' Hsp1 Hx Hr Hsp') as H.
  cbn [app B String.list_ascii_of_string] in *.
  rewrite <- !app_assoc in H. by rewrite <- !app_assoc.
Qed.

(** The array over several lines. *)
Lemma array_lines o a s : ready s -> fits (weight (VArray (o :: a))) s ->
  Forall (fun o => from_option styled_ok True o) (o :: a) ->
  Forall (fun o => readable (item o)) (o :: a) ->
  childValues_ s = [] \/ Forall2 item_text (o :: a) (childValues_ s) ->
  writes (value_text (VArray (o :: a)))
    (writeWithIndent how (B "[");; indent how;; s ← get;
     write_lines how writeValue (negb (bool_decide (childValues_ s = []))) (o :: a) 0;;
     unindent how;; writeWithIndent how (B "]")) s.
Proof.
  intros Hs Hf Ho Hr Hch.
  destruct (bracket_ok (items_text o a) (B "[") (B "]")
    (fun s => write_lines how writeValue (negb (bool_decide (childValues_ s = []))) (o :: a) 0)
    (s ← get; write_lines how writeValue (negb (bool_decide (childValues_ s = []))) (o :: a) 0;;
     unindent how;; writeWithIndent how (B "]"))
    s (sum_items weight (o :: a))) as (t&s'&E&H&(sp&body&sp'&->&Hsp&Hsp'&HP)); [|done|done| |].
  - intros s1. by rewrite st_get.
  - intros s1 Hs1 Hf1 Hc. rewrite Hc. destruct Hch as [Hch|HF].
    + rewrite bool_decide_true by done. apply lines_values; [|done].
      destruct (sum_items_bounds (o :: a)) as (Hl&_&Hw). cbn [length] in Hl.
      rewrite Forall_forall in Ho, Hr, Hw |- *. intros o1 Ho1.
      split_and!; [by apply Ho|by apply Hr|]. eapply fits_le; [exact Hf1| |done].
      specialize (Hw o1 Ho1). destruct o1 as [v|]; [done|]. cbn [item weight]. lia.
    + rewrite bool_decide_false by (intros E; rewrite E in HF; by apply Forall2_nil_inv_r in HF).
      apply lines_children; [done|]. by rewrite Hc, drop_0.
  - exists (sp ++ B "[" ++ body ++ sp' ++ B "]"), s'. split; [exact E|]. split; [done|].
    by apply items_text_array.
Qed.

(** The array on a single line. *)
Lemma array_line o a s : ready s -> Forall2 item_text (o :: a) (childValues_ s) ->
  writes (value_text (VArray (o :: a)))
    (s ← get; lift_st (assert_that (length (childValues_ s) = length (o :: a)));;
     append (B "[ ");; write_line (length (o :: a)) 0;; append (B " ]")) s.
Proof.
  intros [Ha Hi] HF. pose proof HF as (x&l&Hx&HF1&Hl)%Forall2_cons_inv_l.
  unfold writes. rewrite st_get. unfold assert_that.
  rewrite decide_True by (by rewrite (Forall2_length _ _ _ HF)). rewrite st_lift.
  set (s1 := MkStyled (document_ s ++ B "[ ") (indentString_ s) (childValues_ s) false).
  set (s2 := MkStyled (document_ s1 ++ x) (indentString_ s) (childValues_ s) false).
  destruct (line_children a 1 s2) as (r&s3&E3&H3&Hr); [done|lia|by cbn; rewrite Hl|].
  assert (Hline : write_line (length (o :: a)) 0 s1 = ([], Ret ((), s3))).
  { cbn [length write_line]. rewrite decide_False by lia. rewrite st_mret.
    unfold child_value. rewrite st_assoc, st_get. cbn [childValues_ s1]. rewrite Hl at 1.
    cbn [lookup list_lookup from_option_or]. rewrite st_lift.
    by erewrite st_go; [|by apply append_ok]. }
  eexists ((B "[ " ++ x) ++ r ++ B " ]"), _. split; [|split].
  - erewrite st_go; [|by apply append_ok]. fold s1. erewrite st_go; [|exact Hline].
    apply append_ok. apply H3.
  - assert (H12 : wrote s (B "[ " ++ x) s2) by (split; [cbn; by rewrite <- app_assoc|done..]).
    eapply wrote_trans; [exact H12|]. eapply wrote_trans; [exact H3|]. apply wrote_append.
  - pose proof (items_text_array o a [] (B " " ++ x ++ r) (B " ")) as H.
    cbn [app B String.list_ascii_of_string] in H |- *. rewrite <- app_assoc in H.
    apply H; [|constructor|by repeat constructor].
    exists (B " "), x, r. split_and!; [done|by repeat constructor|exact Hx|done].
Qed.

Lemma styled_array a : Forall (fun o => from_option styled_ok True o) a -> styled_ok (VArray a).
Proof.
  intros Ho s Hs Hr Hf. destruct a as [|o a]; [by apply writes_leaf|].
  change (writeValue (VArray (o :: a))) with (writeArrayValue how writeValue (o :: a)).
  unfold writes, writeArrayValue. rewrite decide_False by done.
  pose proof (readable_items _ Hr) as Hr'.
  destruct (isMultineArray_ok (o :: a) s Hr') as (multi&children&E&Hch); [by destruct Hs|apply Hf|].
  set (s1 := set_childValues children s) in E.
  assert (H : forall m, writes (value_text (VArray (o :: a))) m s1 ->
    exists t s', m s1 = ([], Ret ((), s')) /\ wrote s t s' /\ value_text (VArray (o :: a)) t).
  { intros m (t&s'&Em&[H1 H2 H3]&Ht). exists t, s'. by split_and!. }
  assert (Hs1 : ready s1) by done.
  destruct multi.
  - destruct (H _ (array_lines o a s1 Hs1 Hf Ho Hr' ltac:(naive_solver))) as (t&s'&Em&Ht).
    exists t, s'. split; [|done]. erewrite st_go; [|exact E]. exact Em.
  - destruct Hch as [[? _]|HF]; [done|].
    destruct (H _ (array_line o a s1 Hs1 HF)) as (t&s'&Em&Ht).
    exists t, s'. split; [|done]. erewrite st_go; [|exact E]. exact Em.
Qed.
(** ** Objects *)

(** The members, from the text of the first on. *)
Definition members_text (k : bytes) (v : value) (o : list (bytes * value)) (t : bytes) : Prop :=
  exists sp sp1 sp2 x r, t = sp ++ quoted k ++ sp1 ++ ":"%char :: sp2 ++ x ++ r
    /\ (spaces sp /\ spaces sp1 /\ spaces sp2) /\ json v x /\ more_members json o r.

(** A member is written, and the call goes on with [rest]. *)
Lemma member_line k v s : styled_ok v -> readable v -> ready s -> fits (weight v) s ->
  exists t s', (forall rest : M unit, (key ← lift_st (valueToQuotedString (Some k));
      writeWithIndent how key;; append (B " : ");; writeValue v;; rest) s = rest s')
    /\ wrote s t s' /\ members_text k v [] t.
Proof.
  intros Hv Hr [Ha Hi] Hf. destruct (writeWithIndent_ok (quoted k) s Ha Hi) as (sp&E&Hsp).
  set (s1 := MkStyled _ _ _ _) in E.
  set (s2 := MkStyled (document_ s1 ++ B " : ") (indentString_ s) (childValues_ s) false).
  destruct (Hv s2) as (t&s3&E3&H3&(sp2&x&->&Hsp2&Hx)); [done|done|by eapply fits_le|].
  exists ((sp ++ quoted k ++ B " : ") ++ sp2 ++ x), s3. split; [|split].
  - intros rest. rewrite quoted_escape, st_lift. erewrite st_go; [|exact E].
    erewrite st_go; [|by apply append_ok]. by erewrite st_go; [|exact E3].
  - eapply wrote_trans; [|exact H3]. split; [|done..]. unfold s2, s1. cbn [document_]. by rewrite <- !app_assoc.
  - exists sp, (B " "), (B " " ++ sp2), x, [].
    cbn [app B String.list_ascii_of_string]. rewrite app_nil_r, <- !app_assoc. cbn [app].
    split_and!; [done|done|by repeat constructor|by constructor|done|done].
Qed.

Lemma members_text_cons k v k' v' o t t' : members_text k v [] t -> members_text k' v' o t' ->
  members_text k v ((k', v') :: o) (t ++ ","%char :: t').
Proof.
  intros (sp&sp1&sp2&x&r&->&Hsp&Hx&->) (sp'&sp1'&sp2'&x'&r'&->&(?&?&?)&Hx'&Hr').
  exists sp, sp1, sp2, x, (","%char :: sp' ++ quoted k' ++ sp1' ++ ":"%char :: sp2' ++ x' ++ [] ++ r').
  split_and!; try done; [|apply Hsp..|].
  - rewrite app_nil_r. by flat_apps.
  - exists sp', sp1', sp2', x', [], r'. split_and!; try done. constructor.
Qed.

Lemma members_ok o : forall k v s,
  Forall (fun kv => styled_ok kv.2 /\ readable kv.2 /\ fits (weight kv.2) s) ((k, v) :: o) ->
  ready s -> writes (members_text k v o) (write_members how writeValue ((k, v) :: o)) s.
Proof.
  induction o as [|[k' v'] o IH]; intros k v s HF Hs; apply Forall_cons in HF as [(Hv&Hr&Hf) HF];
    destruct (member_line k v s Hv Hr Hs Hf) as (t&s1&E&H1&Ht); cbn [write_members].
  - exists t, s1. by rewrite E.
  - pose proof (wrote_ready _ _ _ Hs H1) as Hs1. pose proof H1 as [Hd Hi Had].
    set (s2 := MkStyled (document_ s1 ++ B ",") (indentString_ s1) (childValues_ s1) false).
    assert (H2 : wrote s1 (B ",") s2) by by split.
    destruct (IH k' v' s2) as (t'&s3&E3&H3&Ht').
    { eapply Forall_impl; [exact HF|]. intros kv (?&?&?). split_and!; [done..|]. by eapply fits_le. }
    { by eapply wrote_ready. }
    exists (t ++ B "," ++ t'), s3. split; [|split].
    + rewrite E. erewrite st_go; [|by apply append_ok]. exact E3.
    + eapply wrote_trans; [exact H1|]. by eapply wrote_trans.
    + by apply members_text_cons.
Qed.

Lemma styled_object o : Forall (fun kv => styled_ok kv.2) o -> styled_ok (VObject o).
Proof.
  intros Ho s Hs Hr Hf. destruct o as [|[k v] o]; [by apply writes_leaf|].
  change (writeValue (VObject ((k, v) :: o))) with (writeWithIndent how (B "{");; indent how;;
    write_members how writeValue ((k, v) :: o);; unindent how;; writeWithIndent how (B "}")).
  pose proof (readable_members _ Hr) as [_ Hr'].
  destruct (bracket_ok (members_text k v o) (B "{") (B "}")
    (fun _ => write_members how writeValue ((k, v) :: o))
    (write_members how writeValue ((k, v) :: o);; unindent how;; writeWithIndent how (B "}"))
    s (sum_members weight ((k, v) :: o))) as (t&s'&E&H&(sp&body&sp'&->&Hsp&Hsp'&HP)); [done..| |].
  - intros s1 Hs1 Hf1 _. apply members_ok; [|done].
    pose proof (sum_members_bounds ((k, v) :: o)) as Hw. rewrite Forall_forall in Ho, Hr', Hw |- *.
    intros kv Hkv. split_and!; [by apply Ho|by apply Hr'|]. eapply fits_le; [exact Hf1|by apply Hw|done].
  - eexists _, s'. split; [exact E|]. split; [done|]. eexists sp, _. split; [done|]. split; [done|].
    destruct HP as (sp1&sp2&sp3&x&r&->&(Hsp1&Hsp2&Hsp3)&Hx&Hm).
    pose proof (json_object k v o sp1 sp2 sp3 x r sp' Hsp1 Hsp2 Hsp3 Hx Hm Hsp') as Hj.
    cbn [app B String.list_ascii_of_string] in *. flat_apps_in Hj. by flat_apps.
Qed.

Lemma styled_readable v : styled_ok v.
Proof.
  induction v as [| | | | | |a IH|o IH] using value_nested_ind;
    try (intros s1 Hs Hr Hf; by apply writes_leaf).
  - by apply styled_array.
  - by apply styled_object.
Qed.
End styled.


(** An object with an array that fits on a line and one that does not, with an
    indentation of two blanks. *)
Definition styled_demo : value :=
  VObject [(B "long", VArray (replicate 30 (Some (VInt 7))));
           (B "short", VArray [Some (VString (Some (B "x"))); None; Some (VArray [])])].

Lemma styled_demo_readable : readable styled_demo.
Proof.
  split; [repeat constructor|]. cbn [readable replicate from_option].
  split_and!; try done; try lia; try (unfold NUL; simpl; set_solver).
  eexists. split; [done|]. unfold NUL. simpl. set_solver.
Qed.

