(* ===== verification/HttpParser.v ===== *)
(** * libs/http-parser: http_parser.cc and http_parser.h

    A pointer into [data] is an offset, a mark the offset of the byte it
    points to.  The locals [state], [header_state], [index] and [nread] of
    [http_parser_execute] are the members of the same names while it runs; it
    writes them back when it reaches the end of [data] and not when it returns
    earlier, which [http_parser_execute] restores.  The callbacks do not
    change the parser; what they return is a function of the calls made
    before.  [char] is signed, [ssize_t] and [size_t] have 64 bits, [unsigned
    short] has 16. *)

From S2P Require Import Prelude CxxString.

Definition HTTP_MAX_HEADER_SIZE : Z := 80 * 1024.
Definition MAX_FIELD_SIZE : Z := 80 * 1024.
Definition HTTP_PARSER_MAX_METHOD_LEN : nat := 10.

Inductive http_method :=
| HTTP_DELETE | HTTP_GET | HTTP_HEAD | HTTP_POST | HTTP_PUT
| HTTP_CONNECT | HTTP_OPTIONS | HTTP_TRACE
| HTTP_COPY | HTTP_LOCK | HTTP_MKCOL | HTTP_MOVE | HTTP_PROPFIND | HTTP_PROPPATCH | HTTP_UNLOCK.

Inductive http_parser_type := HTTP_REQUEST | HTTP_RESPONSE.

(** [enum state] *)
Inductive state :=
| s_dead
| s_start_res | s_res_H | s_res_HT | s_res_HTT | s_res_HTTP
| s_res_first_http_major | s_res_http_major | s_res_first_http_minor | s_res_http_minor
| s_res_first_status_code | s_res_status_code | s_res_status | s_res_line_almost_done
| s_start_req
| s_req_method | s_req_spaces_before_url
| s_req_schema | s_req_schema_slash | s_req_schema_slash_slash | s_req_host | s_req_port
| s_req_path | s_req_query_string_start | s_req_query_string
| s_req_fragment_start | s_req_fragment
| s_req_http_start | s_req_http_H | s_req_http_HT | s_req_http_HTT | s_req_http_HTTP
| s_req_first_http_major | s_req_http_major | s_req_first_http_minor | s_req_http_minor
| s_req_line_almost_done
| s_header_field_start | s_header_field | s_header_value_start | s_header_value
| s_header_almost_done
| s_headers_almost_done
| s_chunk_size_start | s_chunk_size | s_chunk_size_almost_done | s_chunk_parameters
| s_chunk_data | s_chunk_data_almost_done | s_chunk_data_done
| s_body_identity | s_body_identity_eof.

(** [PARSING_HEADER]: the states up to [s_headers_almost_done]. *)
Definition PARSING_HEADER (s : state) : bool :=
  match s with
  | s_chunk_size_start | s_chunk_size | s_chunk_size_almost_done | s_chunk_parameters
  | s_chunk_data | s_chunk_data_almost_done | s_chunk_data_done
  | s_body_identity | s_body_identity_eof => false
  | _ => true
  end.

(** [enum header_states] *)
Inductive header_states :=
| h_general | h_C | h_CO | h_CON
| h_matching_connection | h_matching_proxy_connection
| h_matching_content_length | h_matching_transfer_encoding
| h_connection | h_content_length | h_transfer_encoding
| h_matching_transfer_encoding_chunked
| h_matching_connection_keep_alive | h_matching_connection_close
| h_transfer_encoding_chunked | h_connection_keep_alive | h_connection_close.

(** [enum flags] *)
Definition F_CHUNKED : Z := 1.
Definition F_CONNECTION_KEEP_ALIVE : Z := 2.
Definition F_CONNECTION_CLOSE : Z := 4.
Definition F_TRAILING : Z := 8.

(** The strings a callback is given piece by piece. *)
Inductive field := f_header_field | f_header_value | f_fragment | f_query_string | f_path | f_url.

#[export] Instance http_parser_type_eq_dec : EqDecision http_parser_type.
Proof. solve_decision. Defined.
#[export] Instance http_method_eq_dec : EqDecision http_method.
Proof. solve_decision. Defined.
#[export] Instance state_eq_dec : EqDecision state.
Proof. solve_decision. Defined.
#[export] Instance header_states_eq_dec : EqDecision header_states.
Proof. solve_decision. Defined.
#[export] Instance field_eq_dec : EqDecision field.
Proof. solve_decision. Defined.

(** [struct http_parser]; the method is [None] for 0. *)
Record http_parser := MkParser {
  type : http_parser_type;
  state_of : state;
  header_state_of : header_states;
  index : nat;
  flags : Z;
  nread : Z;
  body_read : Z;
  content_length : Z;
  mark : field -> option nat;
  size : field -> Z;
  status_code : Z;
  method : option http_method;
  http_major : Z;
  http_minor : Z;
  buffer : bytes;
}.

Definition set_type x p :=
  MkParser x (state_of p) (header_state_of p) (index p) (flags p) (nread p) (body_read p)
    (content_length p) (mark p) (size p) (status_code p) (method p) (http_major p)
    (http_minor p) (buffer p).
Definition set_state_of x p :=
  MkParser (type p) x (header_state_of p) (index p) (flags p) (nread p) (body_read p)
    (content_length p) (mark p) (size p) (status_code p) (method p) (http_major p)
    (http_minor p) (buffer p).
Definition set_header_state_of x p :=
  MkParser (type p) (state_of p) x (index p) (flags p) (nread p) (body_read p)
    (content_length p) (mark p) (size p) (status_code p) (method p) (http_major p)
    (http_minor p) (buffer p).
Definition set_index x p :=
  MkParser (type p) (state_of p) (header_state_of p) x (flags p) (nread p) (body_read p)
    (content_length p) (mark p) (size p) (status_code p) (method p) (http_major p)
    (http_minor p) (buffer p).
Definition set_flags x p :=
  MkParser (type p) (state_of p) (header_state_of p) (index p) x (nread p) (body_read p)
    (content_length p) (mark p) (size p) (status_code p) (method p) (http_major p)
    (http_minor p) (buffer p).
Definition set_nread x p :=
  MkParser (type p) (state_of p) (header_state_of p) (index p) (flags p) x (body_read p)
    (content_length p) (mark p) (size p) (status_code p) (method p) (http_major p)
    (http_minor p) (buffer p).
Definition set_body_read x p :=
  MkParser (type p) (state_of p) (header_state_of p) (index p) (flags p) (nread p) x
    (content_length p) (mark p) (size p) (status_code p) (method p) (http_major p)
    (http_minor p) (buffer p).
Definition set_content_length x p :=
  MkParser (type p) (state_of p) (header_state_of p) (index p) (flags p) (nread p)
    (body_read p) x (mark p) (size p) (status_code p) (method p) (http_major p)
    (http_minor p) (buffer p).
Definition set_mark x p :=
  MkParser (type p) (state_of p) (header_state_of p) (index p) (flags p) (nread p)
    (body_read p) (content_length p) x (size p) (status_code p) (method p) (http_major p)
    (http_minor p) (buffer p).
Definition set_size x p :=
  MkParser (type p) (state_of p) (header_state_of p) (index p) (flags p) (nread p)
    (body_read p) (content_length p) (mark p) x (status_code p) (method p) (http_major p)
    (http_minor p) (buffer p).
Definition set_status_code x p :=
  MkParser (type p) (state_of p) (header_state_of p) (index p) (flags p) (nread p)
    (body_read p) (content_length p) (mark p) (size p) x (method p) (http_major p)
    (http_minor p) (buffer p).
Definition set_method x p :=
  MkParser (type p) (state_of p) (header_state_of p) (index p) (flags p) (nread p)
    (body_read p) (content_length p) (mark p) (size p) (status_code p) x (http_major p)
    (http_minor p) (buffer p).
Definition set_http_major x p :=
  MkParser (type p) (state_of p) (header_state_of p) (index p) (flags p) (nread p)
    (body_read p) (content_length p) (mark p) (size p) (status_code p) (method p) x
    (http_minor p) (buffer p).
Definition set_http_minor x p :=
  MkParser (type p) (state_of p) (header_state_of p) (index p) (flags p) (nread p)
    (body_read p) (content_length p) (mark p) (size p) (status_code p) (method p)
    (http_major p) x (buffer p).
Definition set_buffer x p :=
  MkParser (type p) (state_of p) (header_state_of p) (index p) (flags p) (nread p)
    (body_read p) (content_length p) (mark p) (size p) (status_code p) (method p)
    (http_major p) (http_minor p) x.

(** A call of a callback. *)
Inductive event :=
| on_message_begin
| on_headers_complete
| on_message_complete
| on_field (f : field) (text : bytes)
| on_body (text : bytes).

(** [struct http_parser_settings]: what a callback returns, after the calls
    made before; [None] where none is set. *)
Record http_parser_settings := Settings {
  message_begin_cb : option (list event -> Z);
  headers_complete_cb : option (list event -> Z);
  message_complete_cb : option (list event -> Z);
  field_cb : field -> option (list event -> bytes -> Z);
  body_cb : option (list event -> bytes -> Z);
}.

(** The result of the callback for an event. *)
Definition callback_result (settings : http_parser_settings) (e : event) (before : list event)
    : option Z :=
  match e with
  | on_message_begin => (fun cb => cb before) <$> message_begin_cb settings
  | on_headers_complete => (fun cb => cb before) <$> headers_complete_cb settings
  | on_message_complete => (fun cb => cb before) <$> message_complete_cb settings
  | on_field f text => (fun cb => cb before text) <$> field_cb settings f
  | on_body text => (fun cb => cb before text) <$> body_cb settings
  end.

(** ** Characters *)

Definition CR : ascii := "013"%char.
Definition LF : ascii := "010"%char.

(** [lo <= ch && ch <= hi] *)
Definition between (lo hi ch : ascii) : bool := bool_decide (schar lo <= schar ch <= schar hi)%Z.

(** [LOWER] *)
Definition LOWER (c : ascii) : ascii := char_of_Z (Z.lor (schar c) 0x20).

(** [lowcase], the second half of which is zeros. *)
Definition lowcase_table : bytes :=
  replicate 32 NUL
  ++ replicate 13 NUL ++ ["-"%char] ++ replicate 2 NUL ++ B "0123456789" ++ replicate 6 NUL
  ++ [NUL] ++ B "abcdefghijklmnopqrstuvwxyz" ++ replicate 4 NUL ++ ["_"%char]
  ++ [NUL] ++ B "abcdefghijklmnopqrstuvwxyz" ++ replicate 5 NUL
  ++ replicate 128 NUL.

(** An array indexed by [(int)ch], which can be negative. *)
Definition at_char {A} (table : list A) (ch : ascii) : outcome A :=
  if decide (schar ch < 0)%Z then Throw BadIndex
  else from_option_or BadIndex (table !! Z.to_nat (schar ch)).

Definition lowcase (ch : ascii) : outcome ascii := at_char lowcase_table ch.

(** [unhex] *)
Definition unhex_table : list Z :=
  replicate 48 (-1)%Z
  ++ [0; 1; 2; 3; 4; 5; 6; 7; 8; 9]%Z ++ replicate 6 (-1)%Z
  ++ (-1)%Z :: [10; 11; 12; 13; 14; 15]%Z ++ replicate 9 (-1)%Z
  ++ replicate 16 (-1)%Z
  ++ (-1)%Z :: [10; 11; 12; 13; 14; 15]%Z ++ replicate 9 (-1)%Z
  ++ replicate 16 (-1)%Z.

Definition unhex (ch : ascii) : outcome Z := at_char unhex_table ch.

(** [usual] *)
Definition usual : list Z :=
  [0xffffdbfe; 0x7ffffff6; 0xffffffff; 0xffffffff; 0xffffffff; 0xffffffff; 0xffffffff; 0xffffffff]%Z.

(** [USUAL] *)
Definition USUAL (c : ascii) : outcome bool :=
  let i := Z.shiftr (schar c) 5 in
  if decide (i < 0)%Z then Throw BadIndex
  else
    word ← from_option_or BadIndex (usual !! Z.to_nat i);
    Ret (Z.testbit word (Z.land (schar c) 0x1f)).

(** ** A call of [http_parser_execute]: the parser and the calls of callbacks *)

Record run := MkRun { parser : http_parser; calls : list event }.

(** What a part of the function does: go on with a value, or return from
    [http_parser_execute] with a number of bytes. *)
Definition M (A : Type) : Type := run -> outcome ((A + nat) * run).

#[export] Instance M_ret : MRet M := fun A a s => Ret (inl a, s).
#[export] Instance M_bind : MBind M := fun A B f m s =>
  match m s with
  | Ret (inl a, s') => f a s'
  | Ret (inr n, s') => Ret (inr n, s')
  | Throw e => Throw e
  end.

Definition ask : M http_parser := fun s => Ret (inl (parser s), s).
Definition upd (f : http_parser -> http_parser) : M unit := fun s =>
  Ret (inl (), MkRun (f (parser s)) (calls s)).
Definition raise {A} (e : fault) : M A := fun _ => Throw e.
Definition lift {A} (o : outcome A) : M A := fun s => a ← o; Ret (inl a, s).

(** [return (p - data)], which is also what [goto error] does. *)
Definition return_ {A} (p : nat) : M A := fun s => Ret (inr p, s).

(** [http_should_keep_alive] *)
Definition http_should_keep_alive (q : http_parser) : bool :=
  if decide (0 < http_major q /\ 0 < http_minor q)%Z
  then bool_decide (Z.land (flags q) F_CONNECTION_CLOSE = 0%Z)
  else bool_decide (Z.land (flags q) F_CONNECTION_KEEP_ALIVE <> 0%Z).

(** [start_state] *)
Definition start_state (q : http_parser) : state :=
  if decide (type q = HTTP_REQUEST) then s_start_req else s_start_res.

(** [++nread] and the like on a [size_t]; arithmetic on a [ssize_t]. *)
Definition size_t (z : Z) : Z := uwrap 64 z.
Definition ssize_t (z : Z) : outcome Z := if decide (in_int 64 z) then Ret z else Throw IntOverflow.

(** The value of a digit. *)
Definition digit (ch : ascii) : Z := (schar ch - 48)%Z.

Definition is_digit (ch : ascii) : bool := between "0"%char "9"%char ch.

Section http_parser_execute.
(** [HTTP_PARSER_STRICT] *)
Variable strict : bool.
Variable settings : http_parser_settings.
Variable data : bytes.

Definition become (s : state) : M unit := upd (set_state_of s).
Definition header (h : header_states) : M unit := upd (set_header_state_of h).

(** The bytes from [m] to [p]. *)
Definition slice (m p : nat) : bytes := take (p - m) (drop m data).

(** [CALLBACK2]: returns from the function when the callback does not return
    zero. *)
Definition CALLBACK2 (e : event) (p : nat) : M unit := fun s =>
  match callback_result settings e (calls s) with
  | None => Ret (inl (), s)
  | Some r =>
      let s' := MkRun (parser s) (calls s ++ [e]) in
      if decide (r = 0%Z) then Ret (inl (), s') else Ret (inr p, s')
  end.

(** The call of [on_body], whose result is ignored. *)
Definition call_on_body (text : bytes) : M unit := fun s =>
  match callback_result settings (on_body text) (calls s) with
  | None => Ret (inl (), s)
  | Some _ => Ret (inl (), MkRun (parser s) (calls s ++ [on_body text]))
  end.

Definition at_field {A} (f : field) (x : A) (g : field -> A) : field -> A :=
  fun f' => if decide (f' = f) then x else g f'.

(** [MARK] *)
Definition MARK (f : field) (p : nat) : M unit :=
  upd (fun q => set_size (at_field f 0%Z (size q)) (set_mark (at_field f (Some p) (mark q)) q)).

(** [CALLBACK_NOCLEAR] *)
Definition CALLBACK_NOCLEAR (f : field) (p : nat) : M unit :=
  q ← ask;
  match mark q f with
  | None => mret ()
  | Some m =>
      let n := size_t (size q f + (Z.of_nat p - Z.of_nat m)) in
      upd (fun q => set_size (at_field f n (size q)) q);;
      if decide (MAX_FIELD_SIZE < n)%Z then return_ p
      else CALLBACK2 (on_field f (slice m p)) p
  end.

(** [CALLBACK] *)
Definition CALLBACK (f : field) (p : nat) : M unit :=
  CALLBACK_NOCLEAR f p;;
  upd (fun q => set_mark (at_field f None (mark q)) q).

(** [STRICT_CHECK] *)
Definition STRICT_CHECK (wrong : bool) (p : nat) : M unit :=
  if strict && wrong then return_ p else mret ().

(** [NEW_MESSAGE] *)
Definition NEW_MESSAGE (q : http_parser) : state :=
  if strict then if http_should_keep_alive q then start_state q else s_dead
  else start_state q.

Definition new_message : M unit := q ← ask; become (NEW_MESSAGE q).

(** A character that is only checked in the strict build. *)
Definition expect (ch c : ascii) (next : state) (p : nat) : M unit :=
  STRICT_CHECK (bool_decide (ch <> c)) p;; become next.

(** ** The status line of a response *)

Definition start_res (ch : ascii) (p : nat) : M unit :=
  upd (set_flags 0);; upd (set_content_length (-1));;
  CALLBACK2 on_message_begin p;;
  if decide (ch = "H"%char) then become s_res_H
  else if decide (ch = CR \/ ch = LF) then mret ()
  else return_ p.

(** The digits of the version, [next] the state after a digit or the dot. *)
Definition first_http_major (ch : ascii) (next : state) (p : nat) : M unit :=
  if between "1"%char "9"%char ch then
    upd (set_http_major (uwrap 16 (digit ch)));; become next
  else return_ p.

Definition add_digit (n : Z) (ch : ascii) : Z := uwrap 16 (uwrap 16 (n * 10) + digit ch).

Definition http_major_digit (ch : ascii) (next : state) (p : nat) : M unit :=
  if decide (ch = "."%char) then become next
  else if is_digit ch then
    q ← ask;
    let n := add_digit (http_major q) ch in
    upd (set_http_major n);;
    if decide (999 < n)%Z then return_ p else mret ()
  else return_ p.

Definition first_http_minor (ch : ascii) (next : state) (p : nat) : M unit :=
  if is_digit ch then
    upd (set_http_minor (uwrap 16 (digit ch)));; become next
  else return_ p.

Definition http_minor_digit (ch : ascii) (p : nat) : M unit :=
  if is_digit ch then
    q ← ask;
    let n := add_digit (http_minor q) ch in
    upd (set_http_minor n);;
    if decide (999 < n)%Z then return_ p else mret ()
  else return_ p.

Definition res_http_minor (ch : ascii) (p : nat) : M unit :=
  if decide (ch = " "%char) then become s_res_first_status_code
  else http_minor_digit ch p.

Definition res_first_status_code (ch : ascii) (p : nat) : M unit :=
  if is_digit ch then
    upd (set_status_code (uwrap 16 (digit ch)));; become s_res_status_code
  else if decide (ch = " "%char) then mret () else return_ p.

Definition res_status_code (ch : ascii) (p : nat) : M unit :=
  if is_digit ch then
    q ← ask;
    let n := add_digit (status_code q) ch in
    upd (set_status_code n);;
    if decide (999 < n)%Z then return_ p else mret ()
  else if decide (ch = " "%char) then become s_res_status
  else if decide (ch = CR) then become s_res_line_almost_done
  else if decide (ch = LF) then become s_header_field_start
  else return_ p.

Definition res_status (ch : ascii) : M unit :=
  if decide (ch = CR) then become s_res_line_almost_done
  else if decide (ch = LF) then become s_header_field_start
  else mret ().

(** ** The request line *)

(** [parser->buffer[i] = ch] *)
Definition set_buffer_at (i : nat) (ch : ascii) : M unit :=
  q ← ask;
  if decide (i < length (buffer q)) then upd (fun q => set_buffer (<[i := ch]> (buffer q)) q)
  else raise BadIndex.

Definition start_req (ch : ascii) (p : nat) : M unit :=
  if decide (ch = CR \/ ch = LF) then mret ()
  else
    upd (set_flags 0);; upd (set_content_length (-1));;
    CALLBACK2 on_message_begin p;;
    if between "A"%char "Z"%char ch then
      upd (set_method None);; upd (set_index 0);;
      set_buffer_at 0 ch;;
      become s_req_method
    else return_ p.

(** The [switch (index+1)]: the method the buffer holds. *)
Definition request_method (m : bytes) : option http_method :=
  if decide (m = B "GET") then Some HTTP_GET
  else if decide (m = B "PUT") then Some HTTP_PUT
  else if decide (m = B "POST") then Some HTTP_POST
  else if decide (m = B "HEAD") then Some HTTP_HEAD
  else if decide (m = B "COPY") then Some HTTP_COPY
  else if decide (m = B "MOVE") then Some HTTP_MOVE
  else if decide (m = B "MKCOL") then Some HTTP_MKCOL
  else if decide (m = B "TRACE") then Some HTTP_TRACE
  else if decide (m = B "DELETE") then Some HTTP_DELETE
  else if decide (m = B "UNLOCK") then Some HTTP_UNLOCK
  else if decide (m = B "OPTIONS") then Some HTTP_OPTIONS
  else if decide (m = B "CONNECT") then Some HTTP_CONNECT
  else if decide (m = B "PROPFIND") then Some HTTP_PROPFIND
  else if decide (m = B "PROPPATCH") then Some HTTP_PROPPATCH
  else None.

Definition req_method (ch : ascii) (p : nat) : M unit :=
  q ← ask;
  if decide (ch = " "%char) then
    lift (assert_that (index q + 1 < HTTP_PARSER_MAX_METHOD_LEN));;
    set_buffer_at (index q + 1) NUL;;
    q ← ask;
    match request_method (take (index q + 1) (buffer q)) with
    | Some m => upd (set_method (Some m))
    | None => mret ()
    end;;
    become s_req_spaces_before_url
  else if between "A"%char "Z"%char ch then
    upd (set_index (S (index q)));;
    if decide (HTTP_PARSER_MAX_METHOD_LEN - 1 <= S (index q)) then return_ p
    else set_buffer_at (S (index q)) ch
  else return_ p.

(** [c >= 'a' && c <= 'z'] after [c = LOWER(ch)] *)
Definition is_letter (ch : ascii) : bool := between "a"%char "z"%char (LOWER ch).

Definition req_spaces_before_url (ch : ascii) (p : nat) : M unit :=
  if decide (ch = " "%char) then mret ()
  else if decide (ch = "/"%char) then
    MARK f_url p;; MARK f_path p;; become s_req_path
  else if is_letter ch then MARK f_url p;; become s_req_schema
  else return_ p.

Definition req_schema (ch : ascii) (p : nat) : M unit :=
  if is_letter ch then mret ()
  else if decide (ch = ":"%char) then become s_req_schema_slash
  else return_ p.

Definition req_host (ch : ascii) (p : nat) : M unit :=
  if is_letter ch then mret ()
  else if is_digit ch || bool_decide (ch = "."%char) || bool_decide (ch = "-"%char) then mret ()
  else if decide (ch = ":"%char) then become s_req_port
  else if decide (ch = "/"%char) then MARK f_path p;; become s_req_path
  else if decide (ch = " "%char) then CALLBACK f_url p;; become s_req_http_start
  else return_ p.

Definition req_port (ch : ascii) (p : nat) : M unit :=
  if is_digit ch then mret ()
  else if decide (ch = "/"%char) then MARK f_path p;; become s_req_path
  else if decide (ch = " "%char) then CALLBACK f_url p;; become s_req_http_start
  else return_ p.

Definition req_path (ch : ascii) (p : nat) : M unit :=
  u ← lift (USUAL ch);
  if u : bool then mret ()
  else if decide (ch = " "%char) then
    CALLBACK f_url p;; CALLBACK f_path p;; become s_req_http_start
  else if decide (ch = CR) then
    CALLBACK f_url p;; CALLBACK f_path p;; upd (set_http_minor 9);;
    become s_req_line_almost_done
  else if decide (ch = LF) then
    CALLBACK f_url p;; CALLBACK f_path p;; upd (set_http_minor 9);;
    become s_header_field_start
  else if decide (ch = "?"%char) then CALLBACK f_path p;; become s_req_query_string_start
  else if decide (ch = "#"%char) then CALLBACK f_path p;; become s_req_fragment_start
  else return_ p.

Definition req_query_string_start (ch : ascii) (p : nat) : M unit :=
  u ← lift (USUAL ch);
  if u : bool then MARK f_query_string p;; become s_req_query_string
  else if decide (ch = "?"%char) then mret ()
  else if decide (ch = " "%char) then CALLBACK f_url p;; become s_req_http_start
  else if decide (ch = CR) then
    CALLBACK f_url p;; upd (set_http_minor 9);; become s_req_line_almost_done
  else if decide (ch = LF) then
    CALLBACK f_url p;; upd (set_http_minor 9);; become s_header_field_start
  else if decide (ch = "#"%char) then become s_req_fragment_start
  else return_ p.

Definition req_query_string (ch : ascii) (p : nat) : M unit :=
  u ← lift (USUAL ch);
  if u : bool then mret ()
  else if decide (ch = "?"%char) then mret ()
  else if decide (ch = " "%char) then
    CALLBACK f_url p;; CALLBACK f_query_string p;; become s_req_http_start
  else if decide (ch = CR) then
    CALLBACK f_url p;; CALLBACK f_query_string p;; upd (set_http_minor 9);;
    become s_req_line_almost_done
  else if decide (ch = LF) then
    CALLBACK f_url p;; CALLBACK f_query_string p;; upd (set_http_minor 9);;
    become s_header_field_start
  else if decide (ch = "#"%char) then CALLBACK f_query_string p;; become s_req_fragment_start
  else return_ p.

Definition req_fragment_start (ch : ascii) (p : nat) : M unit :=
  u ← lift (USUAL ch);
  if u : bool then MARK f_fragment p;; become s_req_fragment
  else if decide (ch = " "%char) then CALLBACK f_url p;; become s_req_http_start
  else if decide (ch = CR) then
    CALLBACK f_url p;; upd (set_http_minor 9);; become s_req_line_almost_done
  else if decide (ch = LF) then
    CALLBACK f_url p;; upd (set_http_minor 9);; become s_header_field_start
  else if decide (ch = "?"%char) then MARK f_fragment p;; become s_req_fragment
  else if decide (ch = "#"%char) then mret ()
  else return_ p.

Definition req_fragment (ch : ascii) (p : nat) : M unit :=
  u ← lift (USUAL ch);
  if u : bool then mret ()
  else if decide (ch = " "%char) then
    CALLBACK f_url p;; CALLBACK f_fragment p;; become s_req_http_start
  else if decide (ch = CR) then
    CALLBACK f_url p;; CALLBACK f_fragment p;; upd (set_http_minor 9);;
    become s_req_line_almost_done
  else if decide (ch = LF) then
    CALLBACK f_url p;; CALLBACK f_fragment p;; upd (set_http_minor 9);;
    become s_header_field_start
  else if decide (ch = "?"%char \/ ch = "#"%char) then mret ()
  else return_ p.

Definition req_http_start (ch : ascii) (p : nat) : M unit :=
  if decide (ch = "H"%char) then become s_req_http_H
  else if decide (ch = " "%char) then mret ()
  else return_ p.

Definition req_http_minor (ch : ascii) (p : nat) : M unit :=
  if decide (ch = CR) then become s_req_line_almost_done
  else if decide (ch = LF) then become s_header_field_start
  else http_minor_digit ch p.

Definition req_line_almost_done (ch : ascii) (p : nat) : M unit :=
  if decide (ch = LF) then become s_header_field_start else return_ p.

(** ** Headers *)

(** [c] against the character of [name] at [index], after [index++]; the
    terminator of [name] is compared like the others. *)
Definition match_name (name : bytes) (index : nat) (c : ascii) (matching matched : header_states)
    : header_states :=
  if decide (length name < index \/ Some c <> (name ++ [NUL]) !! index) then h_general
  else if decide (index = length name - 1) then matched
  else matching.

Definition CONNECTION : bytes := B "connection".
Definition PROXY_CONNECTION : bytes := B "proxy-connection".
Definition CONTENT_LENGTH : bytes := B "content-length".
Definition TRANSFER_ENCODING : bytes := B "transfer-encoding".
Definition CHUNKED : bytes := B "chunked".
Definition KEEP_ALIVE : bytes := B "keep-alive".
Definition CLOSE : bytes := B "close".

(** [case s_header_almost_done] *)
Definition header_almost_done (ch : ascii) (p : nat) : M unit :=
  STRICT_CHECK (bool_decide (ch <> LF)) p;;
  become s_header_field_start;;
  q ← ask;
  match header_state_of q with
  | h_connection_keep_alive => upd (set_flags (Z.lor (flags q) F_CONNECTION_KEEP_ALIVE))
  | h_connection_close => upd (set_flags (Z.lor (flags q) F_CONNECTION_CLOSE))
  | h_transfer_encoding_chunked => upd (set_flags (Z.lor (flags q) F_CHUNKED))
  | _ => mret ()
  end.

(** [case s_headers_almost_done] *)
Definition headers_almost_done (ch : ascii) (p : nat) : M unit :=
  STRICT_CHECK (bool_decide (ch <> LF)) p;;
  q ← ask;
  if decide (Z.land (flags q) F_TRAILING <> 0%Z) then
    CALLBACK2 on_message_complete p;; new_message
  else
    upd (set_body_read 0);; upd (set_nread 0);;
    CALLBACK2 on_headers_complete p;;
    q ← ask;
    if decide (Z.land (flags q) F_CHUNKED <> 0%Z) then become s_chunk_size_start
    else if decide (content_length q = 0%Z) then
      CALLBACK2 on_message_complete p;; new_message
    else if decide (0 < content_length q)%Z then become s_body_identity
    else if bool_decide (type q = HTTP_REQUEST) || http_should_keep_alive q then
      CALLBACK2 on_message_complete p;; new_message
    else become s_body_identity_eof.

Definition header_field_start (ch : ascii) (p : nat) : M unit :=
  if decide (ch = CR) then become s_headers_almost_done
  else if decide (ch = LF) then become s_headers_almost_done;; headers_almost_done ch p
  else if is_letter ch then
    let c := LOWER ch in
    MARK f_header_field p;; upd (set_index 0);; become s_header_field;;
    if decide (c = "c"%char) then header h_C
    else if decide (c = "p"%char) then header h_matching_proxy_connection
    else if decide (c = "t"%char) then header h_matching_transfer_encoding
    else header h_general
  else return_ p.

(** The [switch (header_state)] of [s_header_field], [index] incremented. *)
Definition match_header_field (h : header_states) (index : nat) (ch c : ascii)
    : outcome (nat * header_states) :=
  match h with
  | h_general => Ret (index, h_general)
  | h_C => Ret (S index, if decide (c = "o"%char) then h_CO else h_general)
  | h_CO => Ret (S index, if decide (c = "n"%char) then h_CON else h_general)
  | h_CON =>
      Ret (S index,
        if decide (c = "n"%char) then h_matching_connection
        else if decide (c = "t"%char) then h_matching_content_length
        else h_general)
  | h_matching_connection =>
      Ret (S index, match_name CONNECTION (S index) c h_matching_connection h_connection)
  | h_matching_proxy_connection =>
      Ret (S index, match_name PROXY_CONNECTION (S index) c h_matching_proxy_connection h_connection)
  | h_matching_content_length =>
      Ret (S index, match_name CONTENT_LENGTH (S index) c h_matching_content_length h_content_length)
  | h_matching_transfer_encoding =>
      Ret (S index,
        match_name TRANSFER_ENCODING (S index) c h_matching_transfer_encoding h_transfer_encoding)
  | h_connection | h_content_length | h_transfer_encoding =>
      Ret (index, if decide (ch <> " "%char) then h_general else h)
  | _ => Throw AssertFailed
  end.

Definition header_field (ch : ascii) (p : nat) : M unit :=
  c ← lift (lowcase ch);
  if decide (c <> NUL) then
    q ← ask;
    '(i, h) ← lift (match_header_field (header_state_of q) (index q) ch c);
    upd (set_index i);; header h
  else if decide (ch = ":"%char) then CALLBACK f_header_field p;; become s_header_value_start
  else if decide (ch = CR) then become s_header_almost_done;; CALLBACK f_header_field p
  else if decide (ch = LF) then CALLBACK f_header_field p;; become s_header_field_start
  else return_ p.

Definition header_value_start (ch : ascii) (p : nat) : M unit :=
  if decide (ch = " "%char) then mret ()
  else
    MARK f_header_value p;; become s_header_value;; upd (set_index 0);;
    c ← lift (lowcase ch);
    if decide (c = NUL) then
      if decide (ch = CR) then header h_general;; become s_header_almost_done
      else if decide (ch = LF) then become s_header_field_start
      else header h_general
    else
      q ← ask;
      match header_state_of q with
      | h_transfer_encoding =>
          header (if decide (c = "c"%char) then h_matching_transfer_encoding_chunked else h_general)
      | h_content_length =>
          if is_digit ch then upd (set_content_length (digit ch)) else return_ p
      | h_connection =>
          header (if decide (c = "k"%char) then h_matching_connection_keep_alive
                  else if decide (c = "c"%char) then h_matching_connection_close
                  else h_general)
      | _ => header h_general
      end.

(** [content_length *= base; content_length += d] *)
Definition add_to_content_length (base d : Z) : M unit :=
  q ← ask;
  n ← lift (ssize_t (content_length q * base));
  n ← lift (ssize_t (n + d));
  upd (set_content_length n).

(** The [switch (header_state)] of [s_header_value]. *)
Definition match_header_value (ch c : ascii) (p : nat) : M unit :=
  q ← ask;
  let matching name h h' :=
    upd (set_index (S (index q)));; header (match_name name (S (index q)) c h h') in
  match header_state_of q with
  | h_general => mret ()
  | h_connection | h_transfer_encoding => raise AssertFailed
  | h_content_length =>
      if is_digit ch then add_to_content_length 10 (digit ch) else return_ p
  | h_matching_transfer_encoding_chunked =>
      matching CHUNKED h_matching_transfer_encoding_chunked h_transfer_encoding_chunked
  | h_matching_connection_keep_alive =>
      matching KEEP_ALIVE h_matching_connection_keep_alive h_connection_keep_alive
  | h_matching_connection_close =>
      matching CLOSE h_matching_connection_close h_connection_close
  | h_transfer_encoding_chunked | h_connection_keep_alive | h_connection_close =>
      if decide (ch <> " "%char) then header h_general else mret ()
  | _ => become s_header_value;; header h_general
  end.

Definition header_value (ch : ascii) (p : nat) : M unit :=
  c ← lift (lowcase ch);
  if decide (c = NUL) then
    if decide (ch = CR) then CALLBACK f_header_value p;; become s_header_almost_done
    else if decide (ch = LF) then CALLBACK f_header_value p;; header_almost_done ch p
    else mret ()
  else match_header_value ch c p.

(** ** Bodies: the offset of the next character is the result *)

(** [on_body(parser, p, to_read)] *)
Definition read_body (p : nat) (to_read : Z) : M unit :=
  call_on_body (slice p (p + Z.to_nat to_read)).

(** [pe - p] *)
Definition left_from (p : nat) : Z := Z.of_nat (length data) - Z.of_nat p.

Definition add_to_body_read (to_read : Z) : M unit :=
  q ← ask;
  n ← lift (ssize_t (body_read q + to_read));
  upd (set_body_read n).

Definition body_identity (p : nat) : M nat :=
  q ← ask;
  let to_read := Z.min (left_from p) (content_length q - body_read q) in
  if decide (0 < to_read)%Z then
    read_body p to_read;;
    let p := p + Z.to_nat to_read - 1 in
    add_to_body_read to_read;;
    q ← ask;
    if decide (body_read q = content_length q) then
      CALLBACK2 on_message_complete p;; new_message;; mret (S p)
    else mret (S p)
  else mret (S p).

Definition body_identity_eof (p : nat) : M nat :=
  let to_read := left_from p in
  if decide (0 < to_read)%Z then
    read_body p to_read;;
    add_to_body_read to_read;;
    mret (S (p + Z.to_nat to_read - 1))
  else mret (S p).

(** [assert(parser->flags & F_CHUNKED)] *)
Definition assert_chunked : M unit :=
  q ← ask; lift (assert_that (Z.land (flags q) F_CHUNKED <> 0%Z)).

Definition chunk_size_start (ch : ascii) (p : nat) : M unit :=
  assert_chunked;;
  c ← lift (unhex ch);
  if decide (c = -1)%Z then return_ p
  else upd (set_content_length c);; become s_chunk_size.

Definition chunk_size (ch : ascii) (p : nat) : M unit :=
  assert_chunked;;
  if decide (ch = CR) then become s_chunk_size_almost_done
  else
    c ← lift (unhex ch);
    if decide (c = -1)%Z then
      if decide (ch = ";"%char \/ ch = " "%char) then become s_chunk_parameters else return_ p
    else add_to_content_length 16 c.

Definition chunk_parameters (ch : ascii) : M unit :=
  assert_chunked;;
  if decide (ch = CR) then become s_chunk_size_almost_done else mret ().

Definition chunk_size_almost_done (ch : ascii) (p : nat) : M unit :=
  assert_chunked;;
  STRICT_CHECK (bool_decide (ch <> LF)) p;;
  q ← ask;
  if decide (content_length q = 0%Z) then
    upd (set_flags (Z.lor (flags q) F_TRAILING));; become s_header_field_start
  else become s_chunk_data.

Definition chunk_data (p : nat) : M nat :=
  assert_chunked;;
  q ← ask;
  let to_read := Z.min (left_from p) (content_length q) in
  (if decide (0 < to_read)%Z then read_body p to_read else mret ());;
  (if decide (to_read = content_length q) then become s_chunk_data_almost_done else mret ());;
  n ← lift (ssize_t (content_length q - to_read));
  upd (set_content_length n);;
  mret (if decide (0 < to_read)%Z then S (p + Z.to_nat to_read - 1) else S p).

Definition chunk_data_almost_done (ch : ascii) (p : nat) : M unit :=
  assert_chunked;; expect ch CR s_chunk_data_done p.

Definition chunk_data_done (ch : ascii) (p : nat) : M unit :=
  assert_chunked;; expect ch LF s_chunk_size_start p.

(** ** The loop *)

(** [switch (state)] *)
Definition switch (ch : ascii) (p : nat) : M nat :=
  let next (m : M unit) : M nat := m;; mret (S p) in
  q ← ask;
  match state_of q with
  | s_dead => return_ p
  | s_start_res => next (start_res ch p)
  | s_res_H => next (expect ch "T"%char s_res_HT p)
  | s_res_HT => next (expect ch "T"%char s_res_HTT p)
  | s_res_HTT => next (expect ch "P"%char s_res_HTTP p)
  | s_res_HTTP => next (expect ch "/"%char s_res_first_http_major p)
  | s_res_first_http_major => next (first_http_major ch s_res_http_major p)
  | s_res_http_major => next (http_major_digit ch s_res_first_http_minor p)
  | s_res_first_http_minor => next (first_http_minor ch s_res_http_minor p)
  | s_res_http_minor => next (res_http_minor ch p)
  | s_res_first_status_code => next (res_first_status_code ch p)
  | s_res_status_code => next (res_status_code ch p)
  | s_res_status => next (res_status ch)
  | s_res_line_almost_done => next (expect ch LF s_header_field_start p)
  | s_start_req => next (start_req ch p)
  | s_req_method => next (req_method ch p)
  | s_req_spaces_before_url => next (req_spaces_before_url ch p)
  | s_req_schema => next (req_schema ch p)
  | s_req_schema_slash => next (expect ch "/"%char s_req_schema_slash_slash p)
  | s_req_schema_slash_slash => next (expect ch "/"%char s_req_host p)
  | s_req_host => next (req_host ch p)
  | s_req_port => next (req_port ch p)
  | s_req_path => next (req_path ch p)
  | s_req_query_string_start => next (req_query_string_start ch p)
  | s_req_query_string => next (req_query_string ch p)
  | s_req_fragment_start => next (req_fragment_start ch p)
  | s_req_fragment => next (req_fragment ch p)
  | s_req_http_start => next (req_http_start ch p)
  | s_req_http_H => next (expect ch "T"%char s_req_http_HT p)
  | s_req_http_HT => next (expect ch "T"%char s_req_http_HTT p)
  | s_req_http_HTT => next (expect ch "P"%char s_req_http_HTTP p)
  | s_req_http_HTTP => next (expect ch "/"%char s_req_first_http_major p)
  | s_req_first_http_major => next (first_http_major ch s_req_http_major p)
  | s_req_http_major => next (http_major_digit ch s_req_first_http_minor p)
  | s_req_first_http_minor => next (first_http_minor ch s_req_http_minor p)
  | s_req_http_minor => next (req_http_minor ch p)
  | s_req_line_almost_done => next (req_line_almost_done ch p)
  | s_header_field_start => next (header_field_start ch p)
  | s_header_field => next (header_field ch p)
  | s_header_value_start => next (header_value_start ch p)
  | s_header_value => next (header_value ch p)
  | s_header_almost_done => next (header_almost_done ch p)
  | s_headers_almost_done => next (headers_almost_done ch p)
  | s_body_identity => body_identity p
  | s_body_identity_eof => body_identity_eof p
  | s_chunk_size_start => next (chunk_size_start ch p)
  | s_chunk_size => next (chunk_size ch p)
  | s_chunk_parameters => next (chunk_parameters ch)
  | s_chunk_size_almost_done => next (chunk_size_almost_done ch p)
  | s_chunk_data => chunk_data p
  | s_chunk_data_almost_done => next (chunk_data_almost_done ch p)
  | s_chunk_data_done => next (chunk_data_done ch p)
  end.

(** The body of the [for]: [++nread] and the [switch]. *)
Definition step (ch : ascii) (p : nat) : M nat :=
  q ← ask;
  let n := size_t (nread q + 1) in
  upd (set_nread n);;
  if bool_decide (HTTP_MAX_HEADER_SIZE < n)%Z && PARSING_HEADER (state_of q) then return_ p
  else switch ch p.

(** The [for]; every turn of it moves [p]. *)
Fixpoint loop (fuel : nat) (p : nat) : M nat :=
  match fuel with
  | 0 => raise OutOfFuel
  | S fuel' =>
      match data !! p with
      | None => mret p
      | Some ch => p ← step ch p; loop fuel' p
      end
  end.

(** After the loop, at [p] = [pe]. *)
Definition flush (p : nat) : M unit :=
  CALLBACK_NOCLEAR f_header_field p;;
  CALLBACK_NOCLEAR f_header_value p;;
  CALLBACK_NOCLEAR f_fragment p;;
  CALLBACK_NOCLEAR f_query_string p;;
  CALLBACK_NOCLEAR f_path p;;
  CALLBACK_NOCLEAR f_url p.

(** The marks that are set point to the beginning of the data. *)
Definition reset_marks (q : http_parser) : http_parser :=
  set_mark (fun f => (fun _ => 0) <$> mark q f) q.

(** The locals are not written back. *)
Definition restore (q0 q : http_parser) : http_parser :=
  set_state_of (state_of q0) (set_header_state_of (header_state_of q0)
    (set_index (index q0) (set_nread (nread q0) q))).

(** From the marks to the last callbacks. *)
Definition consume (s : run) : outcome ((unit + nat) * run) :=
  (p ← loop (S (length data)) 0; flush p) (MkRun (reset_marks (parser s)) (calls s)).

(** [http_parser_execute]: the number it returns and what it leaves. *)
Definition http_parser_execute (s : run) : outcome (nat * run) :=
  let q := parser s in
  if decide (length data = 0) then
    if decide (state_of q = s_body_identity_eof) then
      '(_, s) ← CALLBACK2 on_message_complete 0 s; Ret (0, s)
    else Ret (0, s)
  else
    '(r, s') ← consume s;
    match r with
    | inl _ => Ret (length data, s')
    | inr n => Ret (n, MkRun (restore q (parser s')) (calls s'))
    end.
End http_parser_execute.

(** [http_parser_init] *)
Definition http_parser_init (t : http_parser_type) (q : http_parser) : http_parser :=
  set_mark (fun _ => None) (set_nread 0 (set_state_of
    (if decide (t = HTTP_REQUEST) then s_start_req else s_start_res) (set_type t q))).
