(* ===== verification/HttpParserProps.v ===== *)
(** * Theorems on the HTTP parser: what never happens

    The invariant of the parser between two calls, and what a call does on any
    ASCII data: no assertion fails, no table is indexed out of its bounds, and
    the loop ends. *)

From S2P Require Import Prelude CxxString HttpParser.

(** ** The invariant *)

(** The header states of [s_header_field], of [s_header_value], and the states
    of a chunked body. *)
Definition field_state (h : header_states) : bool :=
  match h with
  | h_general | h_C | h_CO | h_CON | h_matching_connection | h_matching_proxy_connection
  | h_matching_content_length | h_matching_transfer_encoding
  | h_connection | h_content_length | h_transfer_encoding => true
  | _ => false
  end.

Definition value_state (h : header_states) : bool :=
  match h with h_connection | h_transfer_encoding => false | _ => true end.

Definition chunk_state (s : state) : bool :=
  match s with
  | s_chunk_size_start | s_chunk_size | s_chunk_size_almost_done | s_chunk_parameters
  | s_chunk_data | s_chunk_data_almost_done | s_chunk_data_done => true
  | _ => false
  end.

(** Where a string can be in progress; the value of a header stays so when it
    is empty. *)
Definition may_mark (s : state) (f : field) : bool :=
  match f, s with
  | f_header_value, _ => true
  | f_header_field, s_header_field => true
  | f_path, s_req_path => true
  | f_query_string, s_req_query_string => true
  | f_fragment, s_req_fragment => true
  | f_url, (s_req_schema | s_req_schema_slash | s_req_schema_slash_slash | s_req_host | s_req_port
      | s_req_path | s_req_query_string_start | s_req_query_string | s_req_fragment_start
      | s_req_fragment) => true
  | _, _ => false
  end.

Record parser_ok (q : http_parser) : Prop := {
  ok_buffer : length (buffer q) = HTTP_PARSER_MAX_METHOD_LEN;
  ok_method : state_of q = s_req_method -> S (index q) < HTTP_PARSER_MAX_METHOD_LEN;
  ok_field : state_of q = s_header_field -> field_state (header_state_of q) = true;
  ok_value : state_of q = s_header_value -> value_state (header_state_of q) = true;
  ok_chunk : chunk_state (state_of q) = true -> Z.land (flags q) F_CHUNKED <> 0%Z;
  ok_marks f : may_mark (state_of q) f = false -> mark q f = None;
}.

(** ** Characters of seven bits *)

Definition ascii7 (ch : ascii) : Prop := (0 <= schar ch)%Z.

Lemma at_char_ok {A} (table : list A) ch :
  ascii7 ch -> 128 <= length table -> exists x, at_char table ch = Ret x.
Proof.
  unfold ascii7. intros Hc Hl. pose proof (schar_range ch). unfold at_char.
  rewrite decide_False by lia. destruct (lookup_lt_is_Some_2 table (Z.to_nat (schar ch))) as [x ->]; [lia|].
  by exists x.
Qed.

Lemma lowcase_ok ch : ascii7 ch -> exists c, lowcase ch = Ret c.
Proof. intros H. apply at_char_ok; [done|]. by apply Nat.leb_le. Qed.

Lemma unhex_ok ch : ascii7 ch -> exists c, unhex ch = Ret c.
Proof. intros H. apply at_char_ok; [done|]. by apply Nat.leb_le. Qed.

Lemma USUAL_ok ch : ascii7 ch -> exists u, USUAL ch = Ret u.
Proof.
  unfold ascii7, USUAL. intros Hc. pose proof (schar_range ch).
  rewrite Z.shiftr_div_pow2 by done. change (2 ^ 5)%Z with 32%Z.
  assert (0 <= schar ch / 32 < 4)%Z by (split; [apply Z.div_pos; lia|apply Z.div_lt_upper_bound; lia]).
  rewrite decide_False by lia.
  destruct (lookup_lt_is_Some_2 usual (Z.to_nat (schar ch / 32))) as [x ->]; [simpl; lia|]. by eexists.
Qed.

(** ** What a part of the function establishes *)

Section safety.
Variable strict : bool.
Variable settings : http_parser_settings.
Variable data : bytes.

Abbreviation len := (length data).

(** It goes on with [Q], returns a number of bytes of [data], or overflows an
    integer. *)
Definition wp {A} (m : M A) (s : run) (Q : A -> run -> Prop) : Prop :=
  match m s with
  | Ret (inl a, s') => Q a s'
  | Ret (inr n, s') => n <= len
  | Throw e => e = IntOverflow
  end.

Lemma wp_ret {A} (a : A) s (Q : A -> run -> Prop) : Q a s -> wp (mret a) s Q.
Proof. done. Qed.

Lemma wp_bind {A C} (m : M A) (f : A -> M C) s Q :
  wp m s (fun a s' => wp (f a) s' Q) -> wp (m ≫= f) s Q.
Proof. unfold wp, mbind, M_bind. by destruct (m s) as [[[a|n] s']|e]. Qed.

Lemma wp_mono {A} (m : M A) s (Q Q' : A -> run -> Prop) :
  wp m s Q -> (forall a s', Q a s' -> Q' a s') -> wp m s Q'.
Proof. unfold wp. destruct (m s) as [[[a|n] s']|e]; auto. Qed.

Lemma wp_ask s (Q : http_parser -> run -> Prop) : Q (parser s) s -> wp ask s Q.
Proof. done. Qed.

Lemma wp_upd f s (Q : unit -> run -> Prop) : Q () (MkRun (f (parser s)) (calls s)) -> wp (upd f) s Q.
Proof. done. Qed.

Lemma wp_return {A} p s (Q : A -> run -> Prop) : p <= len -> wp (return_ p) s Q.
Proof. done. Qed.

Lemma wp_lift {A} (o : outcome A) s (Q : A -> run -> Prop) a : o = Ret a -> Q a s -> wp (lift o) s Q.
Proof. by intros ->. Qed.

Lemma wp_ssize z s (Q : Z -> run -> Prop) : (in_int 64 z -> Q z s) -> wp (lift (ssize_t z)) s Q.
Proof. unfold wp, lift, ssize_t. case_decide; simpl; auto. Qed.

Lemma wp_CALLBACK2 e p s (Q : unit -> run -> Prop) :
  p <= len -> (forall c, Q () (MkRun (parser s) c)) -> wp (CALLBACK2 settings e p) s Q.
Proof.
  intros Hp HQ. unfold wp, CALLBACK2. destruct (callback_result _ _ _) as [r|].
  - case_decide; [apply HQ|done].
  - destruct s. apply HQ.
Qed.

Lemma wp_CALLBACK_NOCLEAR f p s (Q : unit -> run -> Prop) :
  p <= len -> (forall g c, Q () (MkRun (set_size g (parser s)) c)) ->
  wp (CALLBACK_NOCLEAR settings data f p) s Q.
Proof.
  intros Hp HQ. unfold CALLBACK_NOCLEAR. apply wp_bind, wp_ask.
  destruct (mark (parser s) f).
  - apply wp_bind, wp_upd. case_decide; [by apply wp_return|].
    apply wp_CALLBACK2; [done|]. intros c. apply HQ.
  - apply wp_ret. specialize (HQ (size (parser s)) (calls s)). by destruct s as [[]].
Qed.

Lemma wp_CALLBACK f p s (Q : unit -> run -> Prop) :
  p <= len ->
  (forall g c, Q () (MkRun (set_mark (at_field f None (mark (parser s))) (set_size g (parser s))) c)) ->
  wp (CALLBACK settings data f p) s Q.
Proof.
  intros Hp HQ. apply wp_bind, wp_CALLBACK_NOCLEAR; [done|]. intros g c. apply wp_upd. apply HQ.
Qed.

Lemma wp_on_body text s (Q : unit -> run -> Prop) :
  (forall c, Q () (MkRun (parser s) c)) -> wp (call_on_body settings text) s Q.
Proof.
  intros HQ. unfold wp, call_on_body. destruct (callback_result _ _ _); [apply HQ|]. destruct s. apply HQ.
Qed.

(** ** Every case of the switch keeps the invariant *)

Definition keeps (m : M unit) (s : run) : Prop := wp m s (fun _ s' => parser_ok (parser s')).

Lemma wp_if {A} (b : bool) (m1 m2 : M A) s Q :
  (b = true -> wp m1 s Q) -> (b = false -> wp m2 s Q) -> wp (if b then m1 else m2) s Q.
Proof. destruct b; auto. Qed.

Lemma wp_decide {A} (P : Prop) `{Decision P} (m1 m2 : M A) s Q :
  (P -> wp m1 s Q) -> (~ P -> wp m2 s Q) -> wp (if decide P then m1 else m2) s Q.
Proof. case_decide; auto. Qed.

Lemma wp_assert (P : Prop) `{Decision P} s (Q : unit -> run -> Prop) :
  P -> Q () s -> wp (lift (assert_that P)) s Q.
Proof. intros HP HQ. unfold wp, lift, assert_that. by rewrite decide_True. Qed.

Lemma wp_new_message s (Q : unit -> run -> Prop) :
  (forall st, st = s_dead \/ st = s_start_req \/ st = s_start_res ->
     Q () (MkRun (set_state_of st (parser s)) (calls s))) -> wp (new_message strict) s Q.
Proof.
  intros HQ. apply wp_bind, wp_ask, HQ. unfold NEW_MESSAGE, start_state.
  destruct strict, (http_should_keep_alive (parser s)); try case_decide; auto.
Qed.

(** One construct of a case at a time. *)
Ltac wp_step :=
  lazymatch goal with
  | |- wp (mret _) _ _ => apply wp_ret
  | |- wp (new_message _) _ _ => apply wp_new_message; intros ? [-> | [-> | ->]]
  | |- wp (_ ≫= _) _ _ => apply wp_bind
  | |- wp ask _ _ => apply wp_ask
  | |- wp (upd _) _ _ => apply wp_upd
  | |- wp (return_ _) _ _ => apply wp_return; lia
  | |- wp (become _) _ _ => unfold become
  | |- wp (header _) _ _ => unfold header
  | |- wp (MARK _ _) _ _ => unfold MARK
  | |- wp (STRICT_CHECK _ _ _) _ _ => unfold STRICT_CHECK
  | |- wp (expect _ _ _ _ _) _ _ => unfold expect
  | |- wp (CALLBACK2 _ _ _) _ _ => apply wp_CALLBACK2; [lia|intros ?]
  | |- wp (CALLBACK _ _ _ _) _ _ => apply wp_CALLBACK; [lia|intros ? ?]
  | |- wp (call_on_body _ _) _ _ => apply wp_on_body; intros ?
  | |- wp (lift (ssize_t _)) _ _ => apply wp_ssize; intros ?
  | |- wp (lift (assert_that _)) _ _ => apply wp_assert
  | |- wp (raise _) _ _ => exfalso
  | Hch : ascii7 ?ch |- wp (lift (lowcase ?ch)) _ _ =>
      let c := fresh "c" in let Hc := fresh "Hc" in
      destruct (lowcase_ok ch Hch) as [c Hc]; eapply wp_lift; [exact Hc|]; clear Hc
  | Hch : ascii7 ?ch |- wp (lift (unhex ?ch)) _ _ =>
      let c := fresh "c" in let Hc := fresh "Hc" in
      destruct (unhex_ok ch Hch) as [c Hc]; eapply wp_lift; [exact Hc|]; clear Hc
  | Hch : ascii7 ?ch |- wp (lift (USUAL ?ch)) _ _ =>
      let u := fresh "u" in let Hu := fresh "Hu" in
      destruct (USUAL_ok ch Hch) as [u Hu]; eapply wp_lift; [exact Hu|]; clear Hu
  | |- wp (if decide _ then _ else _) _ _ => apply wp_decide; intros ?
  | |- wp (if _ then _ else _) _ _ => apply wp_if; intros ?
  | |- wp (match _ with _ => _ end) _ _ => case_match
  end; cbn [parser calls].

Lemma field_match_name name i c h h' :
  field_state h = true -> field_state h' = true -> field_state (match_name name i c h h') = true.
Proof. intros. unfold match_name. by repeat case_decide. Qed.

Lemma value_match_name name i c h h' :
  value_state h = true -> value_state h' = true -> value_state (match_name name i c h h') = true.
Proof. intros. unfold match_name. by repeat case_decide. Qed.

Lemma match_header_field_ok h i ch c : field_state h = true ->
  exists i' h', match_header_field h i ch c = Ret (i', h') /\ field_state h' = true.
Proof.
  destruct h; intros H; try discriminate H; do 2 eexists; (split; [reflexivity|]);
    try apply field_match_name; try done; by repeat case_decide.
Qed.

(** The invariant after a case. *)
Ltac ok_state H :=
  destruct H as [Hbuf Hmet Hfld Hval Hchk Hmk]; cbn in *;
  unfold HTTP_PARSER_MAX_METHOD_LEN in *; try specialize (Hmet eq_refl);
  try specialize (Hfld eq_refl); try specialize (Hval eq_refl); try specialize (Hchk eq_refl);
  lazymatch goal with
  | |- parser_ok _ =>
      split; cbn;
      [ rewrite ?length_insert; exact Hbuf
      | first [discriminate | intros _; unfold HTTP_PARSER_MAX_METHOD_LEN; lia]
      | first [discriminate | done | by auto]
      | first [discriminate | done | intros _; by apply value_match_name | by auto
              | intros _; by repeat case_decide ]
      | first [discriminate | done | by auto]
      | let f := fresh "f" in intros f; specialize (Hmk f); unfold at_field; destruct f; cbn;
        first [done | discriminate | by auto] ]
  | |- _ => first [discriminate | lia | by auto]
  end.

(** A case: the constructs in turn, then the invariant at its ends. *)
Ltac case_ok H Hs :=
  unfold keeps; repeat wp_step;
  match type of H with parser_ok (parser ?s) =>
    let q := fresh "q" in let cs := fresh "cs" in
    destruct s as [q cs]; destruct q; cbn in *; subst; ok_state H
  end.

Section cases.
Variables (ch : ascii) (p : nat) (s : run).
Hypothesis H : parser_ok (parser s).
Hypothesis Hp : p <= len.
Hypothesis Hch : ascii7 ch.

Lemma start_res_ok : state_of (parser s) = s_start_res -> keeps (start_res settings ch p) s.
Proof. intros Hs. unfold start_res. case_ok H Hs. Qed.

Lemma first_http_major_ok next : next = s_res_http_major \/ next = s_req_http_major ->
  state_of (parser s) = s_res_first_http_major \/ state_of (parser s) = s_req_first_http_major ->
  keeps (first_http_major ch next p) s.
Proof. intros [-> | ->] [Hs|Hs]; unfold first_http_major; case_ok H Hs. Qed.

Lemma http_major_digit_ok next : next = s_res_first_http_minor \/ next = s_req_first_http_minor ->
  state_of (parser s) = s_res_http_major \/ state_of (parser s) = s_req_http_major ->
  keeps (http_major_digit ch next p) s.
Proof. intros [-> | ->] [Hs|Hs]; unfold http_major_digit; case_ok H Hs. Qed.

Lemma first_http_minor_ok next : next = s_res_http_minor \/ next = s_req_http_minor ->
  state_of (parser s) = s_res_first_http_minor \/ state_of (parser s) = s_req_first_http_minor ->
  keeps (first_http_minor ch next p) s.
Proof. intros [-> | ->] [Hs|Hs]; unfold first_http_minor; case_ok H Hs. Qed.

Lemma res_http_minor_ok : state_of (parser s) = s_res_http_minor -> keeps (res_http_minor ch p) s.
Proof. intros Hs. unfold res_http_minor, http_minor_digit. case_ok H Hs. Qed.

Lemma res_first_status_code_ok : state_of (parser s) = s_res_first_status_code -> keeps (res_first_status_code ch p) s.
Proof. intros Hs. unfold res_first_status_code. case_ok H Hs. Qed.

Lemma res_status_code_ok : state_of (parser s) = s_res_status_code -> keeps (res_status_code ch p) s.
Proof. intros Hs. unfold res_status_code. case_ok H Hs. Qed.

Lemma res_status_ok : state_of (parser s) = s_res_status -> keeps (res_status ch) s.
Proof. intros Hs. unfold res_status. case_ok H Hs. Qed.

Lemma start_req_ok : state_of (parser s) = s_start_req -> keeps (start_req settings ch p) s.
Proof. intros Hs. unfold start_req, set_buffer_at. case_ok H Hs. Qed.

Lemma req_method_ok : state_of (parser s) = s_req_method -> keeps (req_method ch p) s.
Proof. intros Hs. unfold req_method, set_buffer_at. case_ok H Hs. Qed.

Lemma req_spaces_before_url_ok : state_of (parser s) = s_req_spaces_before_url -> keeps (req_spaces_before_url ch p) s.
Proof. intros Hs. unfold req_spaces_before_url. case_ok H Hs. Qed.

Lemma req_schema_ok : state_of (parser s) = s_req_schema -> keeps (req_schema ch p) s.
Proof. intros Hs. unfold req_schema. case_ok H Hs. Qed.

Lemma req_host_ok : state_of (parser s) = s_req_host -> keeps (req_host settings data ch p) s.
Proof. intros Hs. unfold req_host. case_ok H Hs. Qed.

Lemma req_port_ok : state_of (parser s) = s_req_port -> keeps (req_port settings data ch p) s.
Proof. intros Hs. unfold req_port. case_ok H Hs. Qed.

Lemma req_path_ok : state_of (parser s) = s_req_path -> keeps (req_path settings data ch p) s.
Proof. intros Hs. unfold req_path. case_ok H Hs. Qed.

Lemma req_query_string_start_ok : state_of (parser s) = s_req_query_string_start -> keeps (req_query_string_start settings data ch p) s.
Proof. intros Hs. unfold req_query_string_start. case_ok H Hs. Qed.

Lemma req_query_string_ok : state_of (parser s) = s_req_query_string -> keeps (req_query_string settings data ch p) s.
Proof. intros Hs. unfold req_query_string. case_ok H Hs. Qed.

Lemma req_fragment_start_ok : state_of (parser s) = s_req_fragment_start -> keeps (req_fragment_start settings data ch p) s.
Proof. intros Hs. unfold req_fragment_start. case_ok H Hs. Qed.

Lemma req_fragment_ok : state_of (parser s) = s_req_fragment -> keeps (req_fragment settings data ch p) s.
Proof. intros Hs. unfold req_fragment. case_ok H Hs. Qed.

Lemma req_http_start_ok : state_of (parser s) = s_req_http_start -> keeps (req_http_start ch p) s.
Proof. intros Hs. unfold req_http_start. case_ok H Hs. Qed.

Lemma req_http_minor_ok : state_of (parser s) = s_req_http_minor -> keeps (req_http_minor ch p) s.
Proof. intros Hs. unfold req_http_minor, http_minor_digit. case_ok H Hs. Qed.

Lemma req_line_almost_done_ok : state_of (parser s) = s_req_line_almost_done -> keeps (req_line_almost_done ch p) s.
Proof. intros Hs. unfold req_line_almost_done. case_ok H Hs. Qed.

Lemma header_field_start_ok : state_of (parser s) = s_header_field_start -> keeps (header_field_start strict settings ch p) s.
Proof. intros Hs. unfold header_field_start, headers_almost_done. case_ok H Hs. Qed.

Lemma header_field_ok : state_of (parser s) = s_header_field -> keeps (header_field settings data ch p) s.
Proof.
  intros Hs. pose proof (ok_field _ H Hs) as Hf.
  unfold header_field, keeps. do 2 wp_step. apply wp_decide; intros Hc; [|case_ok H Hs].
  do 3 wp_step. destruct (match_header_field_ok _ (index (parser s)) ch c Hf) as (i&h&Hm&Hh).
  eapply wp_lift; [exact Hm|]. case_ok H Hs.
Qed.

Lemma header_value_start_ok : state_of (parser s) = s_header_value_start -> keeps (header_value_start ch p) s.
Proof. intros Hs. unfold header_value_start. case_ok H Hs. Qed.

Lemma header_value_ok : state_of (parser s) = s_header_value -> keeps (header_value strict settings data ch p) s.
Proof. intros Hs. unfold header_value, header_almost_done, match_header_value, add_to_content_length. case_ok H Hs. Qed.

Lemma header_almost_done_ok : state_of (parser s) = s_header_almost_done -> keeps (header_almost_done strict ch p) s.
Proof. intros Hs. unfold header_almost_done. case_ok H Hs. Qed.

Lemma headers_almost_done_ok : state_of (parser s) = s_headers_almost_done -> keeps (headers_almost_done strict settings ch p) s.
Proof. intros Hs. unfold headers_almost_done. case_ok H Hs. Qed.

Lemma chunk_size_start_ok : state_of (parser s) = s_chunk_size_start -> keeps (chunk_size_start ch p) s.
Proof. intros Hs. unfold chunk_size_start, assert_chunked. case_ok H Hs. Qed.

Lemma chunk_size_ok : state_of (parser s) = s_chunk_size -> keeps (chunk_size ch p) s.
Proof. intros Hs. unfold chunk_size, assert_chunked, add_to_content_length. case_ok H Hs. Qed.

Lemma chunk_parameters_ok : state_of (parser s) = s_chunk_parameters -> keeps (chunk_parameters ch) s.
Proof. intros Hs. unfold chunk_parameters, assert_chunked. case_ok H Hs. Qed.

Lemma chunk_size_almost_done_ok : state_of (parser s) = s_chunk_size_almost_done -> keeps (chunk_size_almost_done strict ch p) s.
Proof. intros Hs. unfold chunk_size_almost_done, assert_chunked. case_ok H Hs. Qed.

Lemma chunk_data_almost_done_ok : state_of (parser s) = s_chunk_data_almost_done -> keeps (chunk_data_almost_done strict ch p) s.
Proof. intros Hs. unfold chunk_data_almost_done, assert_chunked. case_ok H Hs. Qed.

Lemma chunk_data_done_ok : state_of (parser s) = s_chunk_data_done -> keeps (chunk_data_done strict ch p) s.
Proof. intros Hs. unfold chunk_data_done, assert_chunked. case_ok H Hs. Qed.

(** *** Bodies *)

Definition moves (m : M nat) : Prop :=
  wp m s (fun p' s' => p < p' <= len /\ parser_ok (parser s')).

Hypothesis Hlt : p < len.

Lemma left_from_pos : (left_from data p = Z.of_nat (len - p))%Z.
Proof. unfold left_from. lia. Qed.

Ltac body_ok Hs :=
  rewrite ?left_from_pos in *; split;
  [ lia | destruct s as [q cs]; destruct q; cbn in *; subst; ok_state H ].

Lemma body_identity_ok : state_of (parser s) = s_body_identity ->
  moves (body_identity strict settings data p).
Proof.
  intros Hs. unfold moves, body_identity, read_body, add_to_body_read.
  pose proof left_from_pos. repeat wp_step; body_ok Hs.
Qed.

Lemma body_identity_eof_ok : state_of (parser s) = s_body_identity_eof ->
  moves (body_identity_eof settings data p).
Proof.
  intros Hs. unfold moves, body_identity_eof, read_body, add_to_body_read.
  pose proof left_from_pos. repeat wp_step; body_ok Hs.
Qed.

Lemma chunk_data_ok : state_of (parser s) = s_chunk_data -> moves (chunk_data settings data p).
Proof.
  intros Hs. unfold moves, chunk_data, read_body, assert_chunked.
  pose proof left_from_pos.
  repeat wp_step; [destruct s as [q cs]; destruct q; cbn in *; subst; ok_state H|..];
    try (case_decide; body_ok Hs).
Qed.

Lemma next_moves (m : M unit) : keeps m s -> moves (m;; mret (S p)).
Proof. intros Hm. apply wp_bind. eapply wp_mono; [exact Hm|]. intros ? s' H'. split; [lia|done]. Qed.

Lemma expect_ok c next : parser_ok (set_state_of next (parser s)) -> keeps (expect strict ch c next p) s.
Proof. intros Hn. unfold keeps. by repeat wp_step. Qed.

Lemma switch_ok : moves (switch strict settings data ch p).
Proof.
  unfold switch, moves. apply wp_bind, wp_ask.
  destruct (state_of (parser s)) eqn:Hs.
  all: try (apply wp_return; lia).
  all: try (apply body_identity_ok || apply body_identity_eof_ok || apply chunk_data_ok; done).
  all: apply next_moves.
  all: try (apply expect_ok; destruct s as [q cs]; destruct q; cbn in *; subst; ok_state H).
  all: solve [auto using start_res_ok, first_http_major_ok, http_major_digit_ok,
    first_http_minor_ok, res_http_minor_ok, res_first_status_code_ok,
    res_status_code_ok, res_status_ok, start_req_ok, req_method_ok,
    req_spaces_before_url_ok, req_schema_ok, req_host_ok, req_port_ok, req_path_ok,
    req_query_string_start_ok, req_query_string_ok, req_fragment_start_ok,
    req_fragment_ok, req_http_start_ok, req_http_minor_ok, req_line_almost_done_ok,
    header_field_start_ok, header_field_ok, header_value_start_ok, header_value_ok,
    header_almost_done_ok, headers_almost_done_ok, chunk_size_start_ok, chunk_size_ok,
    chunk_parameters_ok, chunk_size_almost_done_ok, chunk_data_almost_done_ok,
    chunk_data_done_ok].
Qed.

End cases.

(** ** The loop *)

Hypothesis Hdata : Forall ascii7 data.

Lemma step_ok ch p s : parser_ok (parser s) -> p < len -> ascii7 ch ->
  wp (step strict settings data ch p) s (fun p' s' => p < p' <= len /\ parser_ok (parser s')).
Proof.
  intros H Hp Hch. unfold step. apply wp_bind, wp_ask, wp_bind, wp_upd.
  apply wp_if; intros _; [apply wp_return; lia|]. apply switch_ok; [|lia|done|done].
  destruct H as [Hbuf Hmet Hfld Hval Hchk Hmk]. by split.
Qed.

Lemma loop_ok fuel : forall p s, parser_ok (parser s) -> p <= len -> len - p < fuel ->
  wp (loop strict settings data fuel p) s (fun p' s' => p' = len /\ parser_ok (parser s')).
Proof.
  induction fuel as [|fuel IH]; intros p s H Hp Hf; [lia|]. cbn [loop].
  destruct (data !! p) as [ch|] eqn:E.
  - pose proof (lookup_lt_Some _ _ _ E). apply wp_bind. eapply wp_mono.
    { apply step_ok; [done|done|]. rewrite Forall_lookup in Hdata. by apply (Hdata p). }
    intros p' s' [Hp' H']. apply IH; [done|lia..].
  - apply lookup_ge_None in E. apply wp_ret. split; [lia|done].
Qed.

Lemma flush_ok s : parser_ok (parser s) ->
  wp (flush settings data len) s (fun _ s' => parser_ok (parser s')).
Proof.
  intros H. unfold flush.
  repeat (try apply wp_bind; apply wp_CALLBACK_NOCLEAR; [lia|intros ? ?]). destruct H as [Hbuf Hmet Hfld Hval Hchk Hmk]. by split.
Qed.

Lemma consume_ok s : parser_ok (parser s) ->
  match consume strict settings data s with
  | Ret (inl _, s') => parser_ok (parser s')
  | Ret (inr n, _) => n <= len
  | Throw e => e = IntOverflow
  end.
Proof.
  intros H. unfold consume.
  enough (W : wp (p ← loop strict settings data (S len) 0; flush settings data p)
    (MkRun (reset_marks (parser s)) (calls s)) (fun _ s' => parser_ok (parser s'))) by exact W.
  apply wp_bind. eapply wp_mono; [apply loop_ok; [|lia..]|].
  - destruct H as [Hbuf Hmet Hfld Hval Hchk Hmk]. split; try done. intros f Hf. cbn in *. by rewrite Hmk.
  - intros p s' [-> H']. by apply flush_ok.
Qed.
End safety.

(** ** Properties *)

(** The ends of a call: [data] is consumed and the invariant holds, or it
    returns early, or a number overflows. *)
Definition ends_safely (strict : bool) (settings : http_parser_settings) (data : bytes) (s : run)
    : Prop :=
  match consume strict settings data s with
  | Ret (inl _, s') =>
      http_parser_execute strict settings data s = Ret (length data, s') /\ parser_ok (parser s')
  | Ret (inr n, _) =>
      n <= length data /\ exists s', http_parser_execute strict settings data s = Ret (n, s')
  | Throw e => e = IntOverflow
  end.


(** A parser fresh from [http_parser_init], callbacks that are all set and
    return zero. *)
Definition fresh_parser (t : http_parser_type) : http_parser :=
  http_parser_init t (MkParser t s_dead h_general 0 0 0 0 0 (fun _ => None) (fun _ => 0%Z) 0 None 0 0
    (replicate HTTP_PARSER_MAX_METHOD_LEN NUL)).

Definition silent : http_parser_settings :=
  Settings (Some (fun _ => 0%Z)) (Some (fun _ => 0%Z)) (Some (fun _ => 0%Z))
    (fun _ => Some (fun _ _ => 0%Z)) (Some (fun _ _ => 0%Z)).

Definition example_request : bytes := B "GET / HTTP/1.1".
Definition example_run : run := MkRun (fresh_parser HTTP_REQUEST) [].

