(* ===== verification/HttpParserSplit.v ===== *)
(** * The HTTP parser can be interrupted anywhere

    Feeding a text in two pieces or in one leaves the parser in the same state
    and gives the callbacks the same strings, for every string but the value
    of a header.  The run on the whole text is simulated by the runs on the
    pieces: [frame] relates the marks, the sizes and the calls of the two, the
    rest of the parser is the same. *)

From S2P Require Import Prelude CxxString HttpParser HttpParserProps.

(** ** What the callbacks are given *)

(** The pieces of a string, put together; of the bodies; the notifications. *)
Definition stream (f : field) (l : list event) : bytes :=
  l ≫= fun e => match e with on_field g text => if decide (g = f) then text else [] | _ => [] end.

Definition body_stream (l : list event) : bytes :=
  l ≫= fun e => match e with on_body text => text | _ => [] end.

Definition notice (e : event) : bool :=
  match e with on_message_begin | on_headers_complete | on_message_complete => true | _ => false end.

Definition notices (l : list event) : list event := l ≫= fun e => if notice e then [e] else [].

Lemma stream_app f l l' : stream f (l ++ l') = stream f l ++ stream f l'.
Proof. apply bind_app. Qed.
Lemma stream_one f g text : stream f [on_field g text] = if decide (g = f) then text else [].
Proof. unfold stream. cbn. by rewrite app_nil_r. Qed.
Lemma body_stream_app l l' : body_stream (l ++ l') = body_stream l ++ body_stream l'.
Proof. apply bind_app. Qed.
Lemma notices_app l l' : notices (l ++ l') = notices l ++ notices l'.
Proof. apply bind_app. Qed.

(** What of the string in progress is in the data up to [p]. *)
Definition pending (d : bytes) (p : nat) (m : option nat) : bytes :=
  match m with Some m => slice d m p | None => [] end.

Lemma slice_app d m p n : m <= p -> slice d m (p + n) = slice d m p ++ slice d p (p + n).
Proof.
  intros H. unfold slice. replace (p + n - m) with ((p - m) + n) by lia.
  rewrite <- (take_take_drop (drop m d) (p - m) n). f_equal. rewrite drop_drop.
  f_equal; f_equal; lia.
Qed.

Lemma slice_empty d p : slice d p p = [].
Proof. unfold slice. by rewrite Nat.sub_diag. Qed.

Lemma size_t_add x y n : size_t x = size_t y -> size_t (x + n) = size_t (y + n).
Proof. unfold size_t, uwrap. intros H. rewrite <- Zplus_mod_idemp_l, H. apply Zplus_mod_idemp_l. Qed.

(** ** The relation *)

(** [P], [mw] and so on are those of the run on [D], [p], [mt] and so on those
    of the run on [d]; [N] bounds the characters read. *)
Record frame (N : Z) (D : bytes) (P : nat) (mw : field -> option nat) (sw : field -> Z) (nw : Z)
    (cw : list event) (d : bytes) (p : nat) (mt : field -> option nat) (zt : field -> Z) (nt : Z)
    (ct : list event) : Prop := {
  fr_nread : (0 <= nw <= nt /\ nt <= N)%Z;
  fr_marks f : match mw f, mt f with
    | None, None => True
    | Some x, Some y => x <= P /\ y <= p
        /\ size_t (sw f + (Z.of_nat P - Z.of_nat x)) = size_t (zt f + (Z.of_nat p - Z.of_nat y))
    | _, _ => False
    end;
  fr_fields f : f <> f_header_value ->
    stream f cw ++ pending D P (mw f) = stream f ct ++ pending d p (mt f);
  fr_notices : notices cw = notices ct;
  fr_body : body_stream cw = body_stream ct;
}.

Definition related (N : Z) (D : bytes) (P : nat) (w : run) (d : bytes) (p : nat) (t : run) : Prop :=
  exists mw sw nw cw,
    w = MkRun (set_nread nw (set_mark mw (set_size sw (parser t)))) cw
    /\ frame N D P mw sw nw cw d p (mark (parser t)) (size (parser t)) (nread (parser t)) (calls t).

(** The two runs go on over the same characters. *)
Lemma related_advance N D P w d p t n :
  related N D P w d p t -> slice D P (P + n) = slice d p (p + n) ->
  related N D (P + n) w d (p + n) t.
Proof.
  intros (mw&sw&nw&cw&->&[H1 H2 H3 H4 H5]) Hs. exists mw, sw, nw, cw. split; [done|].
  split; try done.
  - intros f. specialize (H2 f). destruct (mw f) as [x|], (mark (parser t) f) as [y|]; try done.
    destruct H2 as (?&?&Hz). split_and!; [lia..|].
    apply (size_t_add _ _ (Z.of_nat n)) in Hz.
    replace (sw f + (Z.of_nat (P + n) - Z.of_nat x))%Z
      with (sw f + (Z.of_nat P - Z.of_nat x) + Z.of_nat n)%Z by lia.
    rewrite Hz. f_equal. lia.
  - intros f Hf. specialize (H2 f). specialize (H3 f Hf). unfold pending in *.
    destruct (mw f) as [x|], (mark (parser t) f) as [y|]; try done. destruct H2 as (?&?&_).
    by rewrite (slice_app D x P), (slice_app d y p), !app_assoc, H3, Hs by lia.
Qed.

Section split.
Variable strict : bool.
Variable settings : http_parser_settings.
(** Every callback is set and returns zero. *)
Hypothesis Hset : forall e l, callback_result settings e l = Some 0%Z.

(** When the run on [d] goes on, so does the run on [D]. *)
Definition rel {A} (m1 m2 : M A) (w t : run) (Q : A -> run -> A -> run -> Prop) : Prop :=
  forall a2 t', m2 t = Ret (inl a2, t') -> exists a1 w', m1 w = Ret (inl a1, w') /\ Q a1 w' a2 t'.

Lemma rel_ret {A} (a1 a2 : A) w t (Q : A -> run -> A -> run -> Prop) :
  Q a1 w a2 t -> rel (mret a1) (mret a2) w t Q.
Proof. intros HQ a t' [= <- <-]. by exists a1, w. Qed.

Lemma rel_bind {A C} (m1 m2 : M A) (f1 f2 : A -> M C) w t Q :
  rel m1 m2 w t (fun a1 w' a2 t' => rel (f1 a1) (f2 a2) w' t' Q) -> rel (m1 ≫= f1) (m2 ≫= f2) w t Q.
Proof.
  intros H c t'' E. unfold mbind, M_bind in *. destruct (m2 t) as [[[a2|n] t']|e] eqn:E2; try done.
  destruct (H a2 t' E2) as (a1&w'&->&H'). by apply H'.
Qed.

Lemma rel_return {A} p w t (Q : A -> run -> A -> run -> Prop) (m1 : M A) : rel m1 (return_ p) w t Q.
Proof. intros a t' H. discriminate H. Qed.

Lemma rel_raise {A} e w t (Q : A -> run -> A -> run -> Prop) (m1 : M A) : rel m1 (raise e) w t Q.
Proof. intros a t' H. discriminate H. Qed.

Lemma rel_lift {A} (o : outcome A) w t (Q : A -> run -> A -> run -> Prop) :
  (forall a, o = Ret a -> Q a w a t) -> rel (lift o) (lift o) w t Q.
Proof.
  intros HQ a t'. unfold lift. destruct o as [x|]; [|intros H; discriminate H].
  intros [= <- <-]. exists x, w. auto.
Qed.

Lemma rel_mono {A} (m1 m2 : M A) w t (Q Q' : A -> run -> A -> run -> Prop) :
  rel m1 m2 w t Q -> (forall a1 w' a2 t', Q a1 w' a2 t' -> Q' a1 w' a2 t') -> rel m1 m2 w t Q'.
Proof. intros H HQ a t' E. destruct (H a t' E) as (a1&w'&E1&H1). eauto. Qed.

Lemma rel_decide {A} (P1 : Prop) `{Decision P1} (m1 m2 m3 m4 : M A) w t Q :
  (P1 -> rel m1 m3 w t Q) -> (~ P1 -> rel m2 m4 w t Q) ->
  rel (if decide P1 then m1 else m2) (if decide P1 then m3 else m4) w t Q.
Proof. case_decide; auto. Qed.

Lemma rel_if {A} (b : bool) (m1 m2 m3 m4 : M A) w t Q :
  (b = true -> rel m1 m3 w t Q) -> (b = false -> rel m2 m4 w t Q) ->
  rel (if b then m1 else m2) (if b then m3 else m4) w t Q.
Proof. destruct b; auto. Qed.

(** ** The rules for the parts that change the frame *)

Section rules.
Variables (N : Z) (D : bytes) (P : nat) (d : bytes) (p : nat).
Abbreviation R w t := (related N D P w d p t).

(** The parser of the run on [D], from that of the run on [d]. *)
Definition framed (mw : field -> option nat) (sw : field -> Z) (nw : Z) (q : http_parser)
    : http_parser := set_nread nw (set_mark mw (set_size sw q)).

Definition post (_ : unit) (w' : run) (_ : unit) (t' : run) : Prop := R w' t'.

Lemma rel_ask {C} (f1 f2 : http_parser -> M C) w t Q : R w t ->
  (forall mw sw nw, rel (f1 (framed mw sw nw (parser t))) (f2 (parser t)) w t Q) ->
  rel (ask ≫= f1) (ask ≫= f2) w t Q.
Proof.
  intros (mw&sw&nw&cw&->&_) HQ. apply rel_bind. intros q t' [= <- <-]. do 2 eexists.
  split; [reflexivity|]. apply HQ.
Qed.

(** A change of the rest of the parser. *)
Definition commutes (f1 f2 : http_parser -> http_parser) : Prop := forall mw sw nw q,
  f1 (framed mw sw nw q) = framed mw sw nw (f2 q)
  /\ mark (f2 q) = mark q /\ size (f2 q) = size q /\ nread (f2 q) = nread q.

Lemma rel_upd f1 f2 w t Q : commutes f1 f2 -> R w t ->
  (forall w', R w' (MkRun (f2 (parser t)) (calls t)) ->
     Q () w' () (MkRun (f2 (parser t)) (calls t))) ->
  rel (upd f1) (upd f2) w t Q.
Proof.
  intros Hf (mw&sw&nw&cw&->&Hr) HQ. intros [] t' [= <-]. do 2 eexists. split; [reflexivity|].
  apply HQ. destruct (Hf mw sw nw (parser t)) as (E&E1&E2&E3). unfold framed in E.
  exists mw, sw, nw, cw. cbn [parser calls]. rewrite E, E1, E2, E3. by split.
Qed.

Lemma rel_nread w t Q : R w t ->
  (forall w', R w' (MkRun (set_nread 0 (parser t)) (calls t)) ->
     Q () w' () (MkRun (set_nread 0 (parser t)) (calls t))) ->
  rel (upd (set_nread 0)) (upd (set_nread 0)) w t Q.
Proof.
  intros (mw&sw&nw&cw&->&[H1 H2 H3 H4 H5]) HQ. intros [] t' [= <-]. do 2 eexists.
  split; [reflexivity|]. apply HQ. exists mw, sw, 0%Z, cw. split; [done|].
  split; try done. cbn. lia.
Qed.

Lemma silent_CALLBACK2 e x s :
  CALLBACK2 settings e x s = Ret (inl (), MkRun (parser s) (calls s ++ [e])).
Proof. unfold CALLBACK2. by rewrite Hset, decide_True. Qed.

Lemma rel_CALLBACK2 e x y w t Q : notice e = true -> R w t ->
  (forall w', R w' (MkRun (parser t) (calls t ++ [e])) -> Q () w' () (MkRun (parser t) (calls t ++ [e]))) ->
  rel (CALLBACK2 settings e x) (CALLBACK2 settings e y) w t Q.
Proof.
  intros He (mw&sw&nw&cw&->&[H1 H2 H3 H4 H5]) HQ. intros [] t'. rewrite !silent_CALLBACK2.
  intros [= <-]. do 2 eexists. split; [reflexivity|]. apply HQ. exists mw, sw, nw, (cw ++ [e]).
  split; [done|]. split; try done; cbn [parser calls].
  - intros f Hf. rewrite !stream_app. assert (stream f [e] = []) as -> by (by destruct e).
    rewrite !app_nil_r. by apply H3.
  - rewrite !notices_app. by rewrite H4.
  - rewrite !body_stream_app. by rewrite H5.
Qed.

Lemma silent_on_body text s :
  call_on_body settings text s = Ret (inl (), MkRun (parser s) (calls s ++ [on_body text])).
Proof. unfold call_on_body. by rewrite Hset. Qed.

(** The same bodies, maybe in other pieces. *)
Lemma related_calls w t cw ct :
  R w t -> (forall f, stream f cw = [] /\ stream f ct = []) -> notices cw = notices ct ->
  body_stream cw = body_stream ct ->
  R (MkRun (parser w) (calls w ++ cw)) (MkRun (parser t) (calls t ++ ct)).
Proof.
  intros (mw&sw&nw&c&->&[H1 H2 H3 H4 H5]) Hs Hn Hb. exists mw, sw, nw, (c ++ cw). split; [done|].
  split; try done; cbn [parser calls].
  - intros f Hf. destruct (Hs f) as [E1 E2].
    rewrite !stream_app, E1, E2, !app_nil_r. by apply H3.
  - by rewrite !notices_app, H4, Hn.
  - by rewrite !body_stream_app, H5, Hb.
Qed.

Lemma rel_MARK f w t Q : f = f_header_value \/ mark (parser t) f = None -> R w t ->
  (forall w', let t' := MkRun (set_size (at_field f 0%Z (size (parser t)))
       (set_mark (at_field f (Some p) (mark (parser t))) (parser t))) (calls t) in
     R w' t' -> Q () w' () t') ->
  rel (MARK f P) (MARK f p) w t Q.
Proof.
  intros Hm (mw&sw&nw&cw&->&[H1 H2 H3 H4 H5]) HQ. intros [] t' [= <-]. do 2 eexists.
  split; [reflexivity|]. apply HQ.
  exists (at_field f (Some P) mw), (at_field f 0%Z sw), nw, cw. split; [done|].
  split; try done; cbn.
  - intros g. unfold at_field. case_decide; [|apply H2]. split_and!; [lia..|]. f_equal. lia.
  - intros g Hg. unfold at_field. case_decide as E; [subst g|by apply H3].
    destruct Hm as [->|Hm]; [done|]. specialize (H2 f). specialize (H3 f Hg). rewrite Hm in H2, H3.
    destruct (mw f); [done|]. cbn in *. by rewrite !slice_empty.
Qed.

(** The mark, the size and the calls after [CALLBACK_NOCLEAR]. *)
Definition field_size (f : field) (x : nat) (q : http_parser) (m : nat) : Z :=
  size_t (size q f + (Z.of_nat x - Z.of_nat m)).

Lemma silent_NOCLEAR e f x s :
  CALLBACK_NOCLEAR settings e f x s =
  match mark (parser s) f with
  | None => Ret (inl (), s)
  | Some m =>
      let q := set_size (at_field f (field_size f x (parser s) m) (size (parser s))) (parser s) in
      if decide (MAX_FIELD_SIZE < field_size f x (parser s) m)%Z then Ret (inr x, MkRun q (calls s))
      else Ret (inl (), MkRun q (calls s ++ [on_field f (slice e m x)]))
  end.
Proof.
  unfold CALLBACK_NOCLEAR, ask, upd, mbind, M_bind. destruct (mark (parser s) f) as [m|]; [|done].
  cbn [parser calls]. unfold field_size. case_decide; [done|]. by rewrite silent_CALLBACK2.
Qed.

Lemma rel_CALLBACK f w t Q : R w t ->
  (forall w' g c, let t' := MkRun (set_mark (at_field f None (mark (parser t)))
       (set_size g (parser t))) c in
     R w' t' -> Q () w' () t') ->
  rel (CALLBACK settings D f P) (CALLBACK settings d f p) w t Q.
Proof.
  intros (mw&sw&nw&cw&->&Hr) HQ. intros [] t'. unfold CALLBACK, mbind, M_bind.
  rewrite !silent_NOCLEAR. cbn [parser calls]. destruct Hr as [H1 H2 H3 H4 H5].
  pose proof (H2 f) as Hm. change (mark (framed mw sw nw (parser t)) f) with (mw f).
  change (mark (set_nread nw (set_mark mw (set_size sw (parser t)))) f) with (mw f).
  destruct (mw f) as [x|] eqn:Ex, (mark (parser t) f) as [y|] eqn:Ey; try done.
  - destruct Hm as (Hx&Hy&Hz). unfold field_size. cbn [size set_nread set_mark set_size].
    rewrite Hz. case_decide; [done|]. intros [= <-]. do 2 eexists. split; [reflexivity|]. apply HQ.
    exists (at_field f None mw),
      (at_field f (size_t (size (parser t) f + (Z.of_nat p - Z.of_nat y))) sw), nw,
      (cw ++ [on_field f (slice D x P)]).
    split; [done|]. split; try done; cbn [parser calls mark size set_mark set_size].
    + intros g. unfold at_field. case_decide; [done|apply H2].
    + intros g Hg. cbn [calls]. rewrite !stream_app, !stream_one. unfold at_field.
      specialize (H3 g Hg). case_decide as E; [subst g|].
      * rewrite Ex, Ey in H3. rewrite !decide_True by done. unfold pending in *. by rewrite !app_nil_r.
      * by rewrite !decide_False, !app_nil_r by congruence.
    + cbn [calls]. rewrite !notices_app. cbn [notices mbind list_bind app notice]. by rewrite !app_nil_r.
    + cbn [calls]. rewrite !body_stream_app. cbn [body_stream mbind list_bind app]. by rewrite !app_nil_r.
  - intros [= <-]. do 2 eexists. split; [reflexivity|]. apply (HQ _ (size (parser t)) (calls t)).
    exists (at_field f None mw), sw, nw, cw. split; [done|]. split; try done; cbn.
    + intros g. unfold at_field. case_decide; [done|apply H2].
    + intros g Hg. specialize (H3 g Hg). unfold at_field. case_decide; [subst; by rewrite Ex, Ey in H3|done].
Qed.

Lemma rel_on_body text text' w t Q : text = text' -> R w t ->
  (forall w', R w' (MkRun (parser t) (calls t ++ [on_body text'])) ->
     Q () w' () (MkRun (parser t) (calls t ++ [on_body text']))) ->
  rel (call_on_body settings text) (call_on_body settings text') w t Q.
Proof.
  intros -> HR HQ [] t'. rewrite !silent_on_body. intros [= <-]. do 2 eexists.
  split; [reflexivity|]. apply HQ. by apply related_calls.
Qed.

(** ** The cases of the switch *)

Ltac red_parser := cbn [framed set_type set_state_of set_header_state_of set_index set_flags
  set_nread set_body_read set_content_length set_mark set_size set_status_code set_method
  set_http_major set_http_minor set_buffer type state_of header_state_of index flags nread
  body_read content_length mark size status_code method http_major http_minor buffer
  parser calls].

(** A string is begun where none is in progress. *)
Ltac no_mark :=
  lazymatch goal with
  | |- f_header_value = f_header_value \/ _ => by left
  | Hmk : forall f, may_mark (state_of (parser ?t)) f = false -> _, Hs : state_of (parser ?t) = _ |- _ =>
      right; unfold at_field; rewrite ?decide_False by done; apply Hmk; by rewrite Hs
  end.

Ltac rel_step :=
  lazymatch goal with
  | |- rel _ (return_ _) _ _ _ => apply rel_return
  | |- rel _ (raise _) _ _ _ => apply rel_raise
  | |- rel (mret _) (mret _) _ _ _ => apply rel_ret
  | |- rel (ask ≫= _) _ _ _ _ => eapply rel_ask; [eassumption|intros ? ? ?]
  | |- rel (_ ≫= _) _ _ _ _ => apply rel_bind
  | |- rel (become _) _ _ _ _ => unfold become
  | |- rel (header _) _ _ _ _ => unfold header
  | |- rel (new_message _) _ _ _ _ => unfold new_message
  | |- rel (STRICT_CHECK _ _ _) _ _ _ _ => unfold STRICT_CHECK
  | |- rel (expect _ _ _ _ _) _ _ _ _ => unfold expect
  | |- rel (upd (set_nread 0)) _ _ _ _ => eapply rel_nread; [eassumption|intros ? ?]
  | |- rel (upd _) _ _ _ _ =>
      eapply rel_upd; [intros ? ? ? ?; repeat split; reflexivity|eassumption|intros ? ?]
  | |- rel (MARK _ _) _ _ _ _ => eapply rel_MARK; [red_parser; no_mark|eassumption|intros ? ? ?]
  | |- rel (CALLBACK2 _ _ _) _ _ _ _ => eapply rel_CALLBACK2; [done|eassumption|intros ? ?]
  | |- rel (CALLBACK _ _ _ _) _ _ _ _ => eapply rel_CALLBACK; [eassumption|intros ? ? ? ? ?]
  | |- rel (lift _) _ _ _ _ => apply rel_lift; intros ? ?
  | |- rel (if decide _ then _ else _) _ _ _ _ => apply rel_decide; intros ?
  | |- rel (if _ then _ else _) _ _ _ _ => apply rel_if; intros ?
  | |- rel (match ?x with _ => _ end) _ _ _ _ => destruct x
  end; red_parser.

Ltac case_rel := repeat rel_step; assumption.

Definition body_state (st : state) : bool :=
  match st with s_body_identity | s_body_identity_eof | s_chunk_data => true | _ => false end.

Section cases.
Variables (ch : ascii) (w t : run).
Hypothesis H : R w t.
Hypothesis Hmk : forall f, may_mark (state_of (parser t)) f = false -> mark (parser t) f = None.

Abbreviation same m1 m2 := (rel m1 m2 w t post).

Lemma start_res_rel : same (start_res settings ch P) (start_res settings ch p).
Proof. unfold start_res. case_rel. Qed.

Lemma res_http_minor_rel : same (res_http_minor ch P) (res_http_minor ch p).
Proof. unfold res_http_minor, http_minor_digit. case_rel. Qed.

Lemma res_first_status_code_rel : same (res_first_status_code ch P) (res_first_status_code ch p).
Proof. unfold res_first_status_code. case_rel. Qed.

Lemma res_status_code_rel : same (res_status_code ch P) (res_status_code ch p).
Proof. unfold res_status_code. case_rel. Qed.

Lemma res_status_rel : same (res_status ch) (res_status ch).
Proof. unfold res_status. case_rel. Qed.

Lemma start_req_rel : same (start_req settings ch P) (start_req settings ch p).
Proof. unfold start_req, set_buffer_at. case_rel. Qed.

Lemma req_method_rel : same (req_method ch P) (req_method ch p).
Proof. unfold req_method, set_buffer_at. case_rel. Qed.

Lemma req_spaces_before_url_rel : state_of (parser t) = s_req_spaces_before_url -> same (req_spaces_before_url ch P) (req_spaces_before_url ch p).
Proof. intros Hs. unfold req_spaces_before_url. case_rel. Qed.

Lemma req_schema_rel : same (req_schema ch P) (req_schema ch p).
Proof. unfold req_schema. case_rel. Qed.

Lemma req_host_rel : state_of (parser t) = s_req_host -> same (req_host settings D ch P) (req_host settings d ch p).
Proof. intros Hs. unfold req_host. case_rel. Qed.

Lemma req_port_rel : state_of (parser t) = s_req_port -> same (req_port settings D ch P) (req_port settings d ch p).
Proof. intros Hs. unfold req_port. case_rel. Qed.

Lemma req_path_rel : same (req_path settings D ch P) (req_path settings d ch p).
Proof. unfold req_path. case_rel. Qed.

Lemma req_query_string_start_rel : state_of (parser t) = s_req_query_string_start -> same (req_query_string_start settings D ch P) (req_query_string_start settings d ch p).
Proof. intros Hs. unfold req_query_string_start. case_rel. Qed.

Lemma req_query_string_rel : same (req_query_string settings D ch P) (req_query_string settings d ch p).
Proof. unfold req_query_string. case_rel. Qed.

Lemma req_fragment_start_rel : state_of (parser t) = s_req_fragment_start -> same (req_fragment_start settings D ch P) (req_fragment_start settings d ch p).
Proof. intros Hs. unfold req_fragment_start. case_rel. Qed.

Lemma req_fragment_rel : same (req_fragment settings D ch P) (req_fragment settings d ch p).
Proof. unfold req_fragment. case_rel. Qed.

Lemma req_http_start_rel : same (req_http_start ch P) (req_http_start ch p).
Proof. unfold req_http_start. case_rel. Qed.

Lemma req_http_minor_rel : same (req_http_minor ch P) (req_http_minor ch p).
Proof. unfold req_http_minor, http_minor_digit. case_rel. Qed.

Lemma req_line_almost_done_rel : same (req_line_almost_done ch P) (req_line_almost_done ch p).
Proof. unfold req_line_almost_done. case_rel. Qed.

Lemma headers_almost_done_rel : same (headers_almost_done strict settings ch P) (headers_almost_done strict settings ch p).
Proof. unfold headers_almost_done. case_rel. Qed.

Lemma header_almost_done_rel : same (header_almost_done strict ch P) (header_almost_done strict ch p).
Proof. unfold header_almost_done. case_rel. Qed.

Lemma header_field_start_rel : state_of (parser t) = s_header_field_start -> same (header_field_start strict settings ch P) (header_field_start strict settings ch p).
Proof. intros Hs. unfold header_field_start, headers_almost_done. case_rel. Qed.

Lemma header_field_rel : same (header_field settings D ch P) (header_field settings d ch p).
Proof. unfold header_field. case_rel. Qed.

Lemma header_value_start_rel : same (header_value_start ch P) (header_value_start ch p).
Proof. unfold header_value_start. case_rel. Qed.

Lemma header_value_rel : same (header_value strict settings D ch P) (header_value strict settings d ch p).
Proof. unfold header_value, header_almost_done, match_header_value, add_to_content_length. case_rel. Qed.

Lemma chunk_size_start_rel : same (chunk_size_start ch P) (chunk_size_start ch p).
Proof. unfold chunk_size_start, assert_chunked. case_rel. Qed.

Lemma chunk_size_rel : same (chunk_size ch P) (chunk_size ch p).
Proof. unfold chunk_size, assert_chunked, add_to_content_length. case_rel. Qed.

Lemma chunk_parameters_rel : same (chunk_parameters ch) (chunk_parameters ch).
Proof. unfold chunk_parameters, assert_chunked. case_rel. Qed.

Lemma chunk_size_almost_done_rel : same (chunk_size_almost_done strict ch P) (chunk_size_almost_done strict ch p).
Proof. unfold chunk_size_almost_done, assert_chunked. case_rel. Qed.

Lemma chunk_data_almost_done_rel : same (chunk_data_almost_done strict ch P) (chunk_data_almost_done strict ch p).
Proof. unfold chunk_data_almost_done, assert_chunked. case_rel. Qed.

Lemma chunk_data_done_rel : same (chunk_data_done strict ch P) (chunk_data_done strict ch p).
Proof. unfold chunk_data_done, assert_chunked. case_rel. Qed.

Lemma expect_rel c next : same (expect strict ch c next P) (expect strict ch c next p).
Proof. case_rel. Qed.

Lemma first_http_major_rel next : same (first_http_major ch next P) (first_http_major ch next p).
Proof. unfold first_http_major. case_rel. Qed.

Lemma http_major_digit_rel next : same (http_major_digit ch next P) (http_major_digit ch next p).
Proof. unfold http_major_digit. case_rel. Qed.

Lemma first_http_minor_rel next : same (first_http_minor ch next P) (first_http_minor ch next p).
Proof. unfold first_http_minor. case_rel. Qed.

Lemma next_rel (m1 m2 : M unit) : same m1 m2 ->
  rel (m1;; mret (S P)) (m2;; mret (S p)) w t
    (fun P' w' p' t' => P' = S P /\ p' = S p /\ R w' t').
Proof. intros Hm. apply rel_bind. eapply rel_mono; [exact Hm|]. intros [] w' [] t' H'. by apply rel_ret. Qed.

Lemma switch_rel : body_state (state_of (parser t)) = false ->
  rel (switch strict settings D ch P) (switch strict settings d ch p) w t
    (fun P' w' p' t' => P' = S P /\ p' = S p /\ R w' t').
Proof.
  intros Hb. unfold switch. eapply rel_ask; [exact H|intros mw sw nw]. red_parser.
  revert Hb. case_eq (state_of (parser t)); intros Hs Hb; try discriminate Hb; try apply rel_return;
    apply next_rel;
  first [ apply start_res_rel | apply res_http_minor_rel | apply
    res_first_status_code_rel | apply res_status_code_rel | apply res_status_rel | apply
    start_req_rel | apply req_method_rel | apply req_spaces_before_url_rel | apply
    req_schema_rel | apply req_host_rel | apply req_port_rel | apply req_path_rel |
    apply req_query_string_start_rel | apply req_query_string_rel | apply
    req_fragment_start_rel | apply req_fragment_rel | apply req_http_start_rel | apply
    req_http_minor_rel | apply req_line_almost_done_rel | apply headers_almost_done_rel
    | apply header_almost_done_rel | apply header_field_start_rel | apply
    header_field_rel | apply header_value_start_rel | apply header_value_rel | apply
    chunk_size_start_rel | apply chunk_size_rel | apply chunk_parameters_rel | apply
    chunk_size_almost_done_rel | apply chunk_data_almost_done_rel | apply
    chunk_data_done_rel | apply expect_rel | apply first_http_major_rel | apply
    http_major_digit_rel | apply first_http_minor_rel ]; assumption.
Qed.

(** The bodies, when the two runs read as much. *)
Definition to_read (left : Z) (q : http_parser) : Z :=
  match state_of q with
  | s_chunk_data => Z.min left (content_length q)
  | s_body_identity => Z.min left (content_length q - body_read q)
  | _ => left
  end.

Hypothesis Hlt : p < length d.
Hypothesis Hslice : forall n, p + n <= length d -> slice D P (P + n) = slice d p (p + n).
Hypothesis Hread : to_read (left_from D P) (parser t) = to_read (left_from d p) (parser t).

Lemma left_nat : left_from d p = Z.of_nat (length d - p).
Proof. unfold left_from. lia. Qed.

Lemma body_text r : (0 < r <= left_from d p)%Z ->
  slice D P (P + Z.to_nat r) = slice d p (p + Z.to_nat r).
Proof. rewrite left_nat. intros. apply Hslice. lia. Qed.

Definition same_advance (P' : nat) (w' : run) (p' : nat) (t' : run) : Prop :=
  exists n, P' = P + n /\ p' = p + n /\ p' <= length d /\ R w' t'.

Ltac body_done r :=
  unfold same_advance;
  first [ exists (Z.to_nat r); split_and!; [lia..|assumption] | exists 1; split_and!; [lia..|assumption] ].

Lemma body_identity_rel : state_of (parser t) = s_body_identity ->
  rel (body_identity strict settings D P) (body_identity strict settings d p) w t same_advance.
Proof.
  intros Hs. unfold to_read in Hread. rewrite Hs in Hread.
  unfold body_identity, read_body, add_to_body_read. rel_step. rewrite Hread.
  pose proof left_nat as Hl. set (r := Z.min (left_from d p) _) in *. rel_step; [|rel_step; body_done 1%Z].
  rel_step. eapply rel_on_body; [apply body_text; lia|eassumption|intros ? ?].
  repeat rel_step; body_done r.
Qed.

Lemma body_identity_eof_rel : state_of (parser t) = s_body_identity_eof ->
  rel (body_identity_eof settings D P) (body_identity_eof settings d p) w t same_advance.
Proof.
  intros Hs. unfold to_read in Hread. rewrite Hs in Hread.
  unfold body_identity_eof, read_body, add_to_body_read. rewrite Hread.
  pose proof left_nat as Hl. set (r := left_from d p) in *. rel_step; [|rel_step; body_done 1%Z].
  rel_step. eapply rel_on_body; [apply body_text; lia|eassumption|intros ? ?].
  repeat rel_step; body_done r.
Qed.

Lemma chunk_data_rel : state_of (parser t) = s_chunk_data ->
  rel (chunk_data settings D P) (chunk_data settings d p) w t same_advance.
Proof.
  intros Hs. unfold to_read in Hread. rewrite Hs in Hread.
  unfold chunk_data, read_body, assert_chunked. do 4 rel_step. rewrite Hread.
  pose proof left_nat as Hl. set (r := Z.min (left_from d p) _) in *. rel_step.
  apply (rel_mono _ _ _ _ (fun _ w' _ t' => R w' t' /\ content_length (parser t') = content_length (parser t))).
  { rel_step; [|by rel_step]. eapply rel_on_body; [apply body_text; lia|eassumption|]. done. }
  intros [] w' [] t' [H' Hc]. repeat rel_step; destruct (decide (0 < r)%Z); body_done r.
Qed.

Lemma body_rel : body_state (state_of (parser t)) = true ->
  rel (switch strict settings D ch P) (switch strict settings d ch p) w t same_advance.
Proof.
  intros Hb. unfold switch. eapply rel_ask; [exact H|intros mw sw nw]. red_parser.
  revert Hb. case_eq (state_of (parser t)); intros Hs Hb; try discriminate Hb.
  - by apply chunk_data_rel.
  - by apply body_identity_rel.
  - by apply body_identity_eof_rel.
Qed.
End cases.
End rules.

(** ** A turn of the loop *)

(** The data of the run on [d] are those of the run on [D] from [P - p] on. *)
Definition window (D : bytes) (P : nat) (d : bytes) (p : nat) : Prop :=
  forall n, p + n <= length d -> slice D P (P + n) = slice d p (p + n).

Lemma window_lookup D P d p ch : window D P d p -> d !! p = Some ch -> D !! P = Some ch.
Proof.
  intros Hw Hch. pose proof (lookup_lt_Some _ _ _ Hch). specialize (Hw 1 ltac:(lia)).
  unfold slice in Hw. rewrite !Nat.add_sub' in Hw.
  rewrite <- (Nat.add_0_r P), <- lookup_drop.
  rewrite <- (Nat.add_0_r p), <- lookup_drop in Hch.
  rewrite <- (lookup_take_lt (drop p d) 1) in Hch by lia.
  rewrite <- (lookup_take_lt (drop P D) 1) by lia. by rewrite Hw.
Qed.

Lemma window_advance D P d p n : window D P d p -> p + n <= length d -> window D (P + n) d (p + n).
Proof.
  intros Hw Hn m Hm. specialize (Hw (n + m) ltac:(lia)) as E. specialize (Hw n Hn).
  rewrite !Nat.add_assoc in E.
  assert (Hs : forall e q, slice e (q + n) (q + n + m) = drop n (slice e q (q + n + m))).
  { intros e q. unfold slice. rewrite skipn_firstn_comm, drop_drop. f_equal; lia. }
  by rewrite !Hs, E.
Qed.

(** The rest of the parser, and where strings are in progress. *)
Definition marks_ok (q : http_parser) : Prop :=
  forall f, may_mark (state_of q) f = false -> mark q f = None.

Lemma related_count N N' D P w d p t : (N <= N')%Z -> related N D P w d p t -> related N' D P w d p t.
Proof.
  intros HN (mw&sw&nw&cw&->&[H1 H2 H3 H4 H5]). exists mw, sw, nw, cw. split; [done|].
  split; try done. lia.
Qed.

(** The turn that [step] makes of the switch. *)
Lemma step_inv d ch p s p' s' :
  step strict settings d ch p s = Ret (inl p', s') ->
  let n := size_t (nread (parser s) + 1) in
  bool_decide (HTTP_MAX_HEADER_SIZE < n)%Z && PARSING_HEADER (state_of (parser s)) = false
  /\ switch strict settings d ch p (MkRun (set_nread n (parser s)) (calls s)) = Ret (inl p', s').
Proof.
  unfold step, ask, upd, mbind, M_bind. cbn [parser calls]. destruct (_ && _); [done|]. by split.
Qed.

Lemma step_intro d ch p s p' s' :
  let n := size_t (nread (parser s) + 1) in
  bool_decide (HTTP_MAX_HEADER_SIZE < n)%Z && PARSING_HEADER (state_of (parser s)) = false ->
  switch strict settings d ch p (MkRun (set_nread n (parser s)) (calls s)) = Ret (inl p', s') ->
  step strict settings d ch p s = Ret (inl p', s').
Proof. unfold step, ask, upd, mbind, M_bind. cbn [parser calls]. by intros ->. Qed.

Lemma size_t_small n : (0 <= n < 2 ^ 64)%Z -> size_t n = n.
Proof. intros. unfold size_t, uwrap. by rewrite Z.mod_small. Qed.

(** [++nread]: where the run on [d] passes the limit of the headers, the run
    on [D] does. *)
Lemma related_nread N D P w d p t :
  related N D P w d p t -> (N + 1 < 2 ^ 64)%Z ->
  let nw := size_t (nread (parser w) + 1) in
  let nt := size_t (nread (parser t) + 1) in
  related (N + 1) D P (MkRun (set_nread nw (parser w)) (calls w)) d p
    (MkRun (set_nread nt (parser t)) (calls t))
  /\ state_of (parser w) = state_of (parser t)
  /\ (bool_decide (HTTP_MAX_HEADER_SIZE < nt)%Z && PARSING_HEADER (state_of (parser t)) = false ->
      bool_decide (HTTP_MAX_HEADER_SIZE < nw)%Z && PARSING_HEADER (state_of (parser t)) = false).
Proof.
  intros (mw&sw&nw0&cw&->&[H1 H2 H3 H4 H5]) HN nw nt. unfold nw, nt in *. cbn [parser] in *.
  change (nread (set_nread nw0 _)) with nw0. rewrite !size_t_small by lia. split_and!; [|done|].
  - exists mw, sw, (nw0 + 1)%Z, cw. split; [done|]. split; try done. cbn. lia.
  - rewrite !andb_false_iff, !bool_decide_eq_false. intros [?|?]; [left; lia|by right].
Qed.

Lemma step_same N D P w d p t ch p' t' :
  related N D P w d p t -> marks_ok (parser t) -> window D P d p -> d !! p = Some ch ->
  (N + 1 < 2 ^ 64)%Z ->
  (body_state (state_of (parser t)) = true ->
   to_read (left_from D P) (parser t) = to_read (left_from d p) (parser t)) ->
  step strict settings d ch p t = Ret (inl p', t') ->
  exists n w', step strict settings D ch P w = Ret (inl (P + n), w')
    /\ p' = p + n /\ p + n <= length d /\ related (N + 1) D (P + n) w' d (p + n) t'.
Proof.
  intros HR Hmk Hw Hch HN Hread [Hlim E]%step_inv.
  destruct (related_nread _ _ _ _ _ _ _ HR HN) as (HR'&Hst&Hlim'). specialize (Hlim' Hlim).
  rewrite <- Hst in Hlim'. pose proof (lookup_lt_Some _ _ _ Hch) as Hlt.
  set (t1 := MkRun _ (calls t)) in *. set (w1 := MkRun _ (calls w)) in HR'.
  assert (Hadv : exists P' w', switch strict settings D ch P w1 = Ret (inl P', w')
    /\ exists n, P' = P + n /\ p' = p + n /\ p' <= length d /\ related (N + 1) D P w' d p t').
  { destruct (body_state (state_of (parser t))) eqn:Hb.
    - exact (body_rel _ _ _ _ _ ch w1 t1 HR' Hlt Hw (Hread eq_refl) Hb _ _ E).
    - destruct (switch_rel (N + 1) D P d p ch w1 t1 HR' Hmk Hb _ _ E) as (P'&w'&E'&->&->&H').
      exists (S P), w'. split; [done|]. exists 1. split_and!; [lia..|done]. }
  destruct Hadv as (P'&w'&E'&n&->&->&Hn&H'). exists n, w'. split_and!; try done.
  - by apply step_intro.
  - apply related_advance; [done|]. by apply Hw.
Qed.

(** ** A body that crosses the end of the first piece *)

(** A part of a body, of [m] characters. *)
Definition partial (d : bytes) (p m : nat) (s : run) : run :=
  let q := parser s in
  MkRun (match state_of q with
         | s_chunk_data => set_content_length (content_length q - Z.of_nat m) q
         | _ => set_body_read (body_read q + Z.of_nat m) q
         end) (calls s ++ [on_body (slice d p (p + m))]).

(** What the three cases do when there is something to read. *)
Section body_equations.
Variables (d : bytes) (p : nat) (s : run).
Abbreviation q := (parser s).

Lemma body_identity_eq : let r := Z.min (left_from d p) (content_length q - body_read q) in
  (0 < r)%Z ->
  body_identity strict settings d p s =
  match ssize_t (body_read q + r) with
  | Throw e => Throw e
  | Ret n =>
      let q1 := set_body_read n q in
      let c1 := calls s ++ [on_body (slice d p (p + Z.to_nat r))] in
      let p' := S (p + Z.to_nat r - 1) in
      if decide (n = content_length q)
      then Ret (inl p', MkRun (set_state_of (NEW_MESSAGE strict q1) q1) (c1 ++ [on_message_complete]))
      else Ret (inl p', MkRun q1 c1)
  end.
Proof.
  intros r Hr. unfold body_identity, ask, mbind, M_bind. cbn [parser calls]. fold r.
  rewrite decide_True by done. unfold read_body. rewrite silent_on_body.
  unfold add_to_body_read, ask, lift, upd, mbind, M_bind. cbn [parser calls].
  destruct (ssize_t _) as [n|]; [|done]. cbn [outcome_bind parser calls].
  cbn [body_read set_body_read content_length]. case_decide; [|done].
  rewrite silent_CALLBACK2. done.
Qed.

Lemma body_identity_eof_eq : let r := left_from d p in
  (0 < r)%Z ->
  body_identity_eof settings d p s =
  match ssize_t (body_read q + r) with
  | Throw e => Throw e
  | Ret n => Ret (inl (S (p + Z.to_nat r - 1)),
      MkRun (set_body_read n q) (calls s ++ [on_body (slice d p (p + Z.to_nat r))]))
  end.
Proof.
  intros r Hr. unfold body_identity_eof, mbind, M_bind. fold r.
  rewrite decide_True by done. unfold read_body. rewrite silent_on_body.
  unfold add_to_body_read, ask, lift, upd, mbind, M_bind. cbn [parser calls].
  by destruct (ssize_t _) as [n|].
Qed.

Lemma chunk_data_eq : let r := Z.min (left_from d p) (content_length q) in
  (0 < r)%Z -> Z.land (flags q) F_CHUNKED <> 0%Z ->
  chunk_data settings d p s =
  match ssize_t (content_length q - r) with
  | Throw e => Throw e
  | Ret n =>
      let q1 := if decide (r = content_length q) then set_state_of s_chunk_data_almost_done q else q in
      Ret (inl (S (p + Z.to_nat r - 1)),
        MkRun (set_content_length n q1) (calls s ++ [on_body (slice d p (p + Z.to_nat r))]))
  end.
Proof.
  intros r Hr Hf. unfold chunk_data, assert_chunked, ask, lift, assert_that, mbind, M_bind.
  cbn [parser calls]. rewrite decide_True by done. cbn [outcome_bind]. fold r.
  rewrite decide_True by done. unfold read_body. rewrite silent_on_body.
  case_decide; unfold become, upd, mret, M_ret; cbn [parser calls].
  - destruct (ssize_t _) as [n|]; [|done]. by rewrite (decide_True (P := (0 < r)%Z)).
  - destruct (ssize_t _) as [n|]; [|done]. by rewrite (decide_True (P := (0 < r)%Z)).
Qed.
End body_equations.

Lemma switch_body d ch p s : body_state (state_of (parser s)) = true ->
  switch strict settings d ch p s =
  match state_of (parser s) with
  | s_chunk_data => chunk_data settings d p s
  | s_body_identity => body_identity strict settings d p s
  | _ => body_identity_eof settings d p s
  end.
Proof.
  unfold switch, ask, mbind, M_bind. cbn [parser]. by destruct (state_of (parser s)).
Qed.

Definition chunked_ok (q : http_parser) : Prop :=
  state_of q = s_chunk_data -> Z.land (flags q) F_CHUNKED <> 0%Z.

(** Where more is left of a body than of the data, all of the data is read. *)
Lemma switch_partial d ch p s p' s' left :
  body_state (state_of (parser s)) = true -> chunked_ok (parser s) -> p < length d ->
  (left_from d p < to_read left (parser s))%Z ->
  switch strict settings d ch p s = Ret (inl p', s') ->
  p' = length d /\ s' = partial d p (length d - p) s.
Proof.
  intros Hb Hf Hp Hrem. pose proof (left_nat d p Hp) as Hl. unfold to_read in Hrem.
  rewrite switch_body by done. unfold partial. destruct (state_of (parser s)) eqn:Hs; try discriminate Hb.
  - rewrite chunk_data_eq by (lia || by apply Hf).
    rewrite (Z.min_l (left_from d p)), Hl, Nat2Z.id by lia.
    unfold ssize_t. case_decide; [|done]. rewrite decide_False by lia. intros [= <- <-]. split; [lia|].
    by rewrite Nat.add_sub_assoc, Nat.add_sub' by lia.
  - rewrite body_identity_eq by lia. rewrite (Z.min_l (left_from d p)), Hl, Nat2Z.id by lia.
    unfold ssize_t. case_decide; [|done]. rewrite decide_False by lia. intros [= <- <-]. split; [lia|].
    done.
  - rewrite body_identity_eof_eq by lia. rewrite Hl, Nat2Z.id.
    unfold ssize_t. case_decide; [|done]. intros [= <- <-]. split; [lia|]. done.
Qed.

(** A body read in two parts, and at once. *)
Definition same_bodies (c1 c2 : list event) : Prop :=
  (forall f, stream f c1 = [] /\ stream f c2 = []) /\ notices c1 = notices c2
  /\ body_stream c1 = body_stream c2.

Lemma switch_merge D ch p m s p' s' :
  body_state (state_of (parser s)) = true -> chunked_ok (parser s) -> p < length D -> 0 < m ->
  (Z.of_nat m < to_read (left_from D p) (parser s))%Z ->
  switch strict settings D ch (p + m) (partial D p m s) = Ret (inl p', s') ->
  exists c1 c2, switch strict settings D ch p s = Ret (inl p', MkRun (parser s') (calls s ++ c1))
    /\ s' = MkRun (parser s') (calls s ++ c2) /\ same_bodies c1 c2.
Proof.
  intros Hb Hf Hp H0 Hrem. pose proof (left_nat D p Hp) as Hl. unfold to_read in Hrem.
  assert (Hl' : left_from D (p + m) = (left_from D p - Z.of_nat m)%Z) by (unfold left_from; lia).
  assert (Hmid : forall r, (Z.of_nat m < r <= left_from D p)%Z ->
    slice D p (p + Z.to_nat r)
    = slice D p (p + m) ++ slice D (p + m) (p + m + Z.to_nat (r - Z.of_nat m))).
  { intros r Hr. replace (p + Z.to_nat r) with (p + m + Z.to_nat (r - Z.of_nat m)) by lia.
    apply slice_app. lia. }
  assert (Hs' : state_of (parser (partial D p m s)) = state_of (parser s))
    by (unfold partial; cbn; destruct (state_of (parser s)) eqn:E; exact E).
  rewrite (switch_body _ _ (p + m)) by (by rewrite Hs'). rewrite Hs', switch_body by done.
  assert (Hbodies : forall x y z c, z = x ++ y ->
    c = [] \/ c = [on_message_complete] -> same_bodies (on_body z :: c) (on_body x :: on_body y :: c)).
  { intros x y z c -> [-> | ->]; split_and!; try done; cbn; by rewrite ?app_nil_r, <- ?app_assoc. }
  unfold partial. destruct (state_of (parser s)) eqn:Hs; try discriminate Hb.
  - rewrite !chunk_data_eq; cbn [parser content_length set_content_length calls flags];
      [|lia|by apply Hf|rewrite Hl'; lia|by apply Hf].
    set (r := Z.min (left_from D p) (content_length (parser s))) in *.
    replace (Z.min (left_from D (p + m)) (content_length (parser s) - Z.of_nat m))
      with (r - Z.of_nat m)%Z by lia.
    replace (content_length (parser s) - Z.of_nat m - (r - Z.of_nat m))%Z
      with (content_length (parser s) - r)%Z by lia.
    unfold ssize_t. case_decide; [|done]. intros [= <- <-]. eexists [_], [_; _]. split_and!.
    + do 3 f_equal; [lia|]. f_equal.
      by destruct (decide (r = content_length (parser s)));
        [rewrite decide_True by lia|rewrite decide_False by lia].
    + cbn [parser]. by rewrite <- app_assoc.
    + apply Hbodies; [apply Hmid; lia|by left].
  - rewrite !body_identity_eq; cbn [parser content_length body_read set_body_read calls];
      [|lia|rewrite Hl'; lia].
    set (r := Z.min (left_from D p) _) in *.
    replace (Z.min (left_from D (p + m)) (content_length (parser s) - (body_read (parser s) + Z.of_nat m)))
      with (r - Z.of_nat m)%Z by lia.
    replace (body_read (parser s) + Z.of_nat m + (r - Z.of_nat m))%Z
      with (body_read (parser s) + r)%Z by lia.
    unfold ssize_t. case_decide; [|done]. case_decide; intros [= <- <-].
    + eexists [_; _], [_; _; _]. split_and!.
      * rewrite <- app_assoc. do 3 f_equal. lia.
      * cbn [parser]. by rewrite <- !app_assoc.
      * apply Hbodies; [apply Hmid; lia|by right].
    + eexists [_], [_; _]. split_and!.
      * do 3 f_equal. lia.
      * cbn [parser]. by rewrite <- !app_assoc.
      * apply Hbodies; [apply Hmid; lia|by left].
  - rewrite !body_identity_eof_eq; cbn [parser body_read set_body_read calls];
      [|lia|rewrite Hl'; lia].
    rewrite Hl'. set (r := left_from D p) in *.
    replace (body_read (parser s) + Z.of_nat m + (r - Z.of_nat m))%Z
      with (body_read (parser s) + r)%Z by lia.
    unfold ssize_t. case_decide; [|done]. intros [= <- <-]. eexists [_], [_; _]. split_and!.
    + do 3 f_equal. lia.
    + cbn [parser]. by rewrite <- !app_assoc.
    + apply Hbodies; [apply Hmid; lia|by left].
Qed.

(** ** The callbacks at the end of the data *)

Definition fields : list field :=
  [f_url; f_path; f_query_string; f_fragment; f_header_value; f_header_field].

Lemma elem_of_fields f : f ∈ fields.
Proof. destruct f; unfold fields; set_solver. Qed.

(** [F]: the strings already handed over. *)
Definition flushed (d : bytes) (p : nat) (s s' : run) (F : list field) : Prop := exists g c,
  s' = MkRun (set_size g (parser s)) (calls s ++ c)
  /\ (forall f, stream f c = if decide (f ∈ F) then pending d p (mark (parser s) f) else [])
  /\ notices c = [] /\ body_stream c = []
  /\ (forall f, g f = match mark (parser s) f with
       | Some m => if decide (f ∈ F) then field_size f p (parser s) m else size (parser s) f
       | None => size (parser s) f
       end).

Definition fits (p : nat) (s : run) (f : field) : Prop :=
  match mark (parser s) f with
  | Some m => (field_size f p (parser s) m <= MAX_FIELD_SIZE)%Z
  | None => True
  end.

Lemma NOCLEAR_cases d p s s1 F f : flushed d p s s1 F -> f ∉ F ->
  (fits p s f /\ exists s2, CALLBACK_NOCLEAR settings d f p s1 = Ret (inl (), s2)
     /\ flushed d p s s2 (f :: F))
  \/ (~ fits p s f /\ exists n s2, CALLBACK_NOCLEAR settings d f p s1 = Ret (inr n, s2)).
Proof.
  intros (g&c&->&Hc&Hn&Hb&Hg) Hf. rewrite silent_NOCLEAR. cbn [parser calls].
  change (mark (set_size g (parser s))) with (mark (parser s)). unfold fits.
  assert (Hgf : forall m, field_size f p (set_size g (parser s)) m = field_size f p (parser s) m).
  { intros m. unfold field_size. cbn [size set_size]. rewrite Hg. destruct (mark (parser s) f); [|done].
    by rewrite decide_False. }
  destruct (mark (parser s) f) as [m|] eqn:Em.
  - rewrite Hgf. case_decide as Hm; [right; split; [lia|]; by do 2 eexists|left; split; [lia|]].
    eexists. split; [reflexivity|].
    exists (at_field f (field_size f p (parser s) m) g), (c ++ [on_field f (slice d m p)]).
    split_and!; [by rewrite <- app_assoc| |rewrite notices_app, Hn; done|rewrite body_stream_app, Hb; done|].
    + intros f'. rewrite stream_app, stream_one, Hc. destruct (decide (f = f')) as [<-|Hne].
      * rewrite (decide_False (P := f ∈ F)), decide_True by (done || set_solver). by rewrite Em.
      * rewrite app_nil_r. apply decide_ext. set_solver.
    + intros f'. unfold at_field. case_decide as E.
      * subst f'. rewrite Em, decide_True by set_solver. done.
      * rewrite Hg. destruct (mark (parser s) f'); [|done]. apply decide_ext. set_solver.
  - left. split; [done|]. eexists. split; [reflexivity|]. exists g, c. split_and!; try done.
    + intros f'. rewrite Hc. destruct (decide (f' = f)) as [->|Hne].
      * rewrite decide_False, decide_True by (done || set_solver). by rewrite Em.
      * apply decide_ext. set_solver.
    + intros f'. rewrite Hg. destruct (mark (parser s) f') eqn:E'; [|done]. apply decide_ext.
      assert (f' <> f) by congruence. set_solver.
Qed.

Lemma bind_inl {A C} (m : M A) (f : A -> M C) s a s' : m s = Ret (inl a, s') -> (m ≫= f) s = f a s'.
Proof. unfold mbind, M_bind. by intros ->. Qed.

Lemma bind_inr {A C} (m : M A) (f : A -> M C) s n s' : m s = Ret (inr n, s') -> (m ≫= f) s = Ret (inr n, s').
Proof. unfold mbind, M_bind. by intros ->. Qed.

Lemma flush_cases d p s :
  ((forall f, fits p s f) /\ exists s', flush settings d p s = Ret (inl (), s') /\ flushed d p s s' fields)
  \/ (~ (forall f, fits p s f) /\ exists n s', flush settings d p s = Ret (inr n, s')).
Proof.
  assert (H0 : flushed d p s s []).
  { exists (size (parser s)), []. split_and!; try done; [rewrite app_nil_r; by destruct s as [[] ?]|].
    intros f. by destruct (mark (parser s) f). }
  unfold flush.
  destruct (NOCLEAR_cases d p s s [] f_header_field H0) as [[K1 (s1&E1&H1)]|[K1 (n&s1&E1)]];
    [set_solver| |right; split; [auto|]; rewrite (bind_inr _ _ _ _ _ E1); by do 2 eexists].
  rewrite (bind_inl _ _ _ _ _ E1).
  destruct (NOCLEAR_cases d p s s1 _ f_header_value H1) as [[K2 (s2&E2&H2)]|[K2 (n&s2&E2)]];
    [set_solver| |right; split; [auto|]; rewrite (bind_inr _ _ _ _ _ E2); by do 2 eexists].
  rewrite (bind_inl _ _ _ _ _ E2).
  destruct (NOCLEAR_cases d p s s2 _ f_fragment H2) as [[K3 (s3&E3&H3)]|[K3 (n&s3&E3)]];
    [set_solver| |right; split; [auto|]; rewrite (bind_inr _ _ _ _ _ E3); by do 2 eexists].
  rewrite (bind_inl _ _ _ _ _ E3).
  destruct (NOCLEAR_cases d p s s3 _ f_query_string H3) as [[K4 (s4&E4&H4)]|[K4 (n&s4&E4)]];
    [set_solver| |right; split; [auto|]; rewrite (bind_inr _ _ _ _ _ E4); by do 2 eexists].
  rewrite (bind_inl _ _ _ _ _ E4).
  destruct (NOCLEAR_cases d p s s4 _ f_path H4) as [[K5 (s5&E5&H5)]|[K5 (n&s5&E5)]];
    [set_solver| |right; split; [auto|]; rewrite (bind_inr _ _ _ _ _ E5); by do 2 eexists].
  rewrite (bind_inl _ _ _ _ _ E5).
  destruct (NOCLEAR_cases d p s s5 _ f_url H5) as [[K6 (s6&E6&H6)]|[K6 (n&s6&E6)]];
    [set_solver| |right; split; [auto|]; rewrite E6; by do 2 eexists].
  left. split; [intros []; done|]. by exists s6.
Qed.

Lemma flush_inl d p s s' : flush settings d p s = Ret (inl (), s') ->
  (forall f, fits p s f) /\ flushed d p s s' fields.
Proof.
  destruct (flush_cases d p s) as [[Hf (s1&E&H1)]|[_ (n&s1&E)]]; rewrite E; [|done].
  intros [= <-]. by split.
Qed.

Lemma fits_related N D P w d p t f : related N D P w d p t -> fits p t f -> fits P w f.
Proof.
  intros (mw&sw&nw&cw&->&[_ H2 _ _ _]). unfold fits, field_size. cbn [parser].
  change (mark (set_nread _ _)) with mw. specialize (H2 f).
  destruct (mw f), (mark (parser t) f); try done. destruct H2 as (_&_&Hz).
  cbn [size set_nread set_mark set_size]. by rewrite Hz.
Qed.

(** The end of one piece of data is the beginning of the next. *)
Lemma related_next N D P w a t s1 b :
  related N D P w a (length a) t -> flushed a (length a) t s1 fields ->
  related N D P w b 0 (MkRun (reset_marks (parser s1)) (calls s1)).
Proof.
  intros (mw&sw&nw&cw&->&[H1 H2 H3 H4 H5]) (g&c&->&Hc&Hn&Hb&Hg).
  exists mw, sw, nw, cw. split; [done|]. split; cbn [parser calls].
  - done.
  - intros f. cbn. specialize (H2 f). specialize (Hg f).
    destruct (mw f) as [x|], (mark (parser t) f) as [y|]; try done. cbn.
    rewrite decide_True in Hg by apply elem_of_fields. destruct H2 as (?&?&Hz).
    split_and!; [done|lia|]. rewrite Hz, Hg. unfold field_size, size_t, uwrap.
    by rewrite Z.sub_diag, Z.add_0_r, Z.mod_mod.
  - intros f Hf. rewrite stream_app, Hc, decide_True by apply elem_of_fields.
    rewrite (H3 f Hf). cbn. destruct (mark (parser t) f); cbn; by rewrite ?app_nil_r.
  - by rewrite notices_app, Hn, app_nil_r.
  - by rewrite body_stream_app, Hb, app_nil_r.
Qed.

(** ** The loops *)

Definition reaches (D : bytes) (P : nat) (w : run) (P' : nat) (w' : run) : Prop :=
  forall k, length D - P < k -> exists k', length D - P' < k' /\
    loop strict settings D k P w = loop strict settings D k' P' w'.

Lemma reaches_refl D P w : reaches D P w P w.
Proof. intros k Hk. by exists k. Qed.

Lemma reaches_step D ch P w n w1 P' w' :
  D !! P = Some ch -> step strict settings D ch P w = Ret (inl (P + n), w1) -> 0 < n ->
  reaches D (P + n) w1 P' w' -> reaches D P w P' w'.
Proof.
  intros Hch E Hn H1 k Hk. destruct k as [|k]; [lia|]. pose proof (lookup_lt_Some _ _ _ Hch).
  destruct (H1 k ltac:(lia)) as (k'&Hk'&E'). exists k'. split; [done|].
  cbn [loop]. rewrite Hch. by rewrite (bind_inl _ _ _ _ _ E).
Qed.

Lemma reaches_trans D P w P1 w1 P' w' :
  reaches D P w P1 w1 -> reaches D P1 w1 P' w' -> reaches D P w P' w'.
Proof.
  intros H1 H2 k Hk. destruct (H1 k Hk) as (k1&Hk1&->). by apply H2.
Qed.

Lemma loop_step d k ch p t p' t' : d !! p = Some ch ->
  loop strict settings d (S k) p t = Ret (inl p', t') ->
  exists p1 t1, step strict settings d ch p t = Ret (inl p1, t1)
    /\ loop strict settings d k p1 t1 = Ret (inl p', t').
Proof.
  intros Hch. cbn [loop]. rewrite Hch. unfold mbind, M_bind.
  destruct (step _ _ _ _ _ _) as [[[p1|n] t1]|e]; [|done..]. by exists p1, t1.
Qed.

Section ascii.
Variables (d : bytes).
Hypothesis Hd : Forall ascii7 d.

Lemma step_keeps ch p t p' t' : parser_ok (parser t) -> d !! p = Some ch ->
  step strict settings d ch p t = Ret (inl p', t') -> p < p' <= length d /\ parser_ok (parser t').
Proof.
  intros H Hch E. pose proof (lookup_lt_Some _ _ _ Hch).
  assert (ascii7 ch) by (rewrite Forall_lookup in Hd; by apply (Hd p)).
  pose proof (step_ok strict settings d ch p t H ltac:(done) ltac:(done)) as W.
  unfold wp in W. by rewrite E in W.
Qed.

(** The two runs to the end of [d], when they read as much. *)
Lemma loop_same fuel D P : forall N p w t p' t',
  related N D (P + p) w d p t -> parser_ok (parser t) -> window D (P + p) d p ->
  length D = P + length d -> p <= length d -> (N + Z.of_nat (length d - p) < 2 ^ 64)%Z ->
  loop strict settings d fuel p t = Ret (inl p', t') ->
  exists w' N', reaches D (P + p) w (length D) w' /\ p' = length d
    /\ related N' D (length D) w' d (length d) t' /\ parser_ok (parser t').
Proof.
  induction fuel as [|fuel IH]; intros N p w t p' t' HR Hok Hw HD Hp HN E; [done|].
  destruct (d !! p) as [ch|] eqn:Hch.
  - pose proof (lookup_lt_Some _ _ _ Hch).
    destruct (loop_step d fuel ch p t p' t' Hch E) as (p1&t1&E1&E').
    destruct (step_keeps ch p t p1 t1 Hok Hch E1) as [Hp1 Hok1].
    edestruct (step_same N D (P + p) w d p t ch p1 t1) as (n&w1&E2&Hp1n&Hn&HR1);
      [exact HR|exact (ok_marks _ Hok)|exact Hw|exact Hch|lia| |exact E1|].
    { intros _. f_equal. unfold left_from. lia. }
    subst p1.
    rewrite <- Nat.add_assoc in HR1, E2.
    edestruct (IH (N + 1)%Z (p + n) w1 t1 p' t') as (w'&N'&Hreach&Hend&HR'&Hok');
      [exact HR1|exact Hok1| |exact HD|lia|lia|exact E'|].
    { rewrite Nat.add_assoc. by apply window_advance. }
    exists w', N'. split_and!; try done. rewrite Nat.add_assoc in E2, Hreach.
    eapply reaches_step; [by eapply window_lookup|exact E2|lia|exact Hreach].
  - cbn [loop] in E. rewrite Hch in E. injection E as <- <-. apply lookup_ge_None in Hch.
    assert (p = length d) as -> by lia. rewrite HD. exists w, N. split_and!; try done.
    apply reaches_refl.
Qed.
End ascii.

(** Bodies in other pieces. *)
Lemma related_bodies N D P q c c1 c2 d p t : same_bodies c1 c2 ->
  related N D P (MkRun q (c ++ c2)) d p t -> related N D P (MkRun q (c ++ c1)) d p t.
Proof.
  intros (Hs&Hn&Hb) (mw&sw&nw&cw&[= -> <-]&[H1 H2 H3 H4 H5]). exists mw, sw, nw, (c ++ c1).
  split; [done|]. split; try done.
  - intros f Hf. rewrite <- (H3 f Hf), !stream_app. by destruct (Hs f) as [-> ->].
  - rewrite <- H4, !notices_app. by rewrite Hn.
  - rewrite <- H5, !body_stream_app. by rewrite Hb.
Qed.

Lemma related_partial N D P d p w t m :
  related N D P w d p t -> slice D P (P + m) = slice d p (p + m) ->
  related N D (P + m) (partial D P m w) d (p + m) (partial d p m t).
Proof.
  intros (mw&sw&nw&cw&->&[H1 H2 H3 H4 H5]) Hs. apply related_advance; [|done].
  exists mw, sw, nw, (cw ++ [on_body (slice d p (p + m))]). split.
  { unfold partial. rewrite Hs. cbn [parser calls].
    change (state_of (set_nread _ _)) with (state_of (parser t)). by destruct (state_of (parser t)). }
  assert (Hq : mark (parser (partial d p m t)) = mark (parser t)
    /\ size (parser (partial d p m t)) = size (parser t)
    /\ nread (parser (partial d p m t)) = nread (parser t))
    by (unfold partial; by destruct (state_of (parser t))).
  destruct Hq as (->&->&->). unfold partial. split; cbn [calls]; try done.
  - intros f Hf. by rewrite !stream_app, !app_nil_r, H3.
  - by rewrite !notices_app, H4.
  - by rewrite !body_stream_app, H5.
Qed.

Lemma state_partial d p m s : state_of (parser (partial d p m s)) = state_of (parser s).
Proof. unfold partial. by destruct (state_of (parser s)) eqn:E; cbn. Qed.

(** The count of characters, at the beginning of a step. *)
Definition bump (s : run) : run :=
  MkRun (set_nread (size_t (nread (parser s) + 1)) (parser s)) (calls s).

Lemma related_bump N D P w d p t :
  related N D P w d p t -> (N + 1 < 2 ^ 64)%Z -> related (N + 1) D P w d p (bump t).
Proof.
  intros (mw&sw&nw&cw&->&[H1 H2 H3 H4 H5]) HN. exists mw, sw, nw, cw. split; [done|].
  split; try done. cbn. rewrite size_t_small; lia.
Qed.

(** The first piece ends inside of a body that [D] goes on with. *)
Definition crosses (a D : bytes) (N : Z) (w : run) (p : nat) (t' : run) : Prop :=
  exists P ch wP tP, reaches D p w P wP /\ D !! P = Some ch /\ P < length a
    /\ related N D P (bump wP) a P tP
    /\ body_state (state_of (parser tP)) = true /\ chunked_ok (parser tP)
    /\ (Z.of_nat (length a - P) < to_read (left_from D P) (parser tP))%Z
    /\ t' = partial a P (length a - P) tP.

Lemma to_read_cases left left' q : (left' <= left)%Z ->
  to_read left q = to_read left' q \/ (left' < to_read left q)%Z.
Proof. unfold to_read. intros. destruct (state_of q); lia. Qed.

Lemma body_not_header st : body_state st = true -> PARSING_HEADER st = false.
Proof. by destruct st. Qed.

Section first.
Variables a b : bytes.
Hypothesis Ha : Forall ascii7 a.
Abbreviation D := (a ++ b).

Lemma window_prefix p : window D p a p.
Proof.
  intros n Hn. unfold slice. rewrite !Nat.add_sub', drop_app_le by lia.
  apply take_app_le. rewrite length_drop. lia.
Qed.

Lemma step_crosses N p w t ch p' t' :
  related N D p w a p t -> parser_ok (parser t) -> a !! p = Some ch -> (N + 1 < 2 ^ 64)%Z ->
  body_state (state_of (parser t)) = true ->
  (left_from a p < to_read (left_from D p) (parser t))%Z ->
  step strict settings a ch p t = Ret (inl p', t') ->
  p' = length a /\ crosses a D (N + 1) w p t'.
Proof.
  intros HR Hok Hch HN Hb Hleft [_ E]%step_inv. pose proof (lookup_lt_Some _ _ _ Hch) as Hlt.
  destruct (related_nread _ _ _ _ _ _ _ HR HN) as (HR'&_&_).
  change (switch strict settings a ch p (bump t) = Ret (inl p', t')) in E.
  assert (Hc : chunked_ok (parser (bump t))).
  { intros Hs. cbn in Hs |- *. destruct Hok as [_ _ _ _ Hk _]. apply Hk. by rewrite Hs. }
  destruct (switch_partial a ch p (bump t) p' t' (left_from D p)) as [-> ->]; try done.
  split; [done|]. exists p, ch, w, (bump t). split_and!; try done.
  - apply reaches_refl.
  - by rewrite lookup_app_l.
  - change (Z.of_nat (length a - p) < to_read (left_from D p) (parser t))%Z.
    by rewrite <- (left_nat a p Hlt).
Qed.

Lemma loop_first fuel : forall N p w t p' t',
  related N D p w a p t -> parser_ok (parser t) -> p <= length a ->
  (N + Z.of_nat (length a - p) < 2 ^ 64)%Z ->
  loop strict settings a fuel p t = Ret (inl p', t') ->
  p' = length a /\ parser_ok (parser t') /\ exists N', (N' <= N + Z.of_nat (length a - p))%Z
    /\ ((exists w', reaches D p w (length a) w' /\ related N' D (length a) w' a (length a) t')
        \/ crosses a D N' w p t').
Proof.
  induction fuel as [|fuel IH]; intros N p w t p' t' HR Hok Hp HN E; [done|].
  destruct (a !! p) as [ch|] eqn:Hch; cycle 1.
  { cbn [loop] in E. rewrite Hch in E. injection E as <- <-. apply lookup_ge_None in Hch.
    assert (p = length a) as -> by lia. split_and!; [done..|]. exists N. split; [lia|]. left.
    exists w. split; [apply reaches_refl|done]. }
  pose proof (lookup_lt_Some _ _ _ Hch) as Hlt.
  destruct (loop_step a fuel ch p t p' t' Hch E) as (p1&t1&E1&E').
  destruct (step_keeps a Ha ch p t p1 t1 Hok Hch E1) as [Hp1 Hok1].
  assert (Hcases : (body_state (state_of (parser t)) = true ->
      to_read (left_from D p) (parser t) = to_read (left_from a p) (parser t))
    \/ (body_state (state_of (parser t)) = true
      /\ (left_from a p < to_read (left_from D p) (parser t))%Z)).
  { destruct (to_read_cases (left_from D p) (left_from a p) (parser t)) as [?|?]; [|by left|].
    - unfold left_from. rewrite length_app. lia.
    - destruct (body_state _); [by right|by left]. }
  destruct Hcases as [Hread|[Hb Hleft]].
  - edestruct (step_same N D p w a p t ch p1 t1) as (n&w1&E2&Hp1n&Hn&HR1);
      [exact HR|exact (ok_marks _ Hok)|apply window_prefix|exact Hch|lia|exact Hread|exact E1|].
    subst p1. destruct (IH (N + 1)%Z (p + n) w1 t1 p' t') as (Hend&Hok'&N'&HN'&Hout);
      [exact HR1|exact Hok1|lia|lia|exact E'|].
    assert (HDch : D !! p = Some ch) by by rewrite lookup_app_l.
    assert (Hstep : forall P' w', reaches D (p + n) w1 P' w' -> reaches D p w P' w').
    { intros P' w'. eapply reaches_step; [exact HDch|exact E2|lia]. }
    split_and!; [done..|]. exists N'. split; [lia|].
    destruct Hout as [(w'&Hr&HR')|(P&chP&wP&tP&Hr&Hrest)].
    + left. exists w'. by split; [apply Hstep|].
    + right. exists P, chP, wP, tP. by split; [apply Hstep|].
  - destruct (step_crosses N p w t ch p1 t1 HR Hok Hch ltac:(lia) Hb Hleft E1) as [-> Hcr].
    destruct fuel as [|fuel]; [done|]. cbn [loop] in E'.
    rewrite (proj2 (lookup_ge_None a (length a))) in E' by lia. injection E' as <- <-.
    split_and!; [done..|]. exists (N + 1)%Z. split; [lia|]. by right.
Qed.

(** The rest of a body that the first piece ends inside of. *)
Lemma crosses_step N w t' s1 ch p1 t1 :
  crosses a D N w 0 t' -> flushed a (length a) t' s1 fields -> (N + 1 < 2 ^ 64)%Z ->
  b !! 0 = Some ch ->
  step strict settings b ch 0 (MkRun (reset_marks (parser s1)) (calls s1)) = Ret (inl p1, t1) ->
  exists w1, reaches D 0 w (length a + p1) w1 /\ related (N + 1) D (length a + p1) w1 b p1 t1.
Proof.
  intros (P&chP&wP&tP&Hr&HchP&HP&HR&Hb&Hc&Hleft&->) Hfl HN Hch [Hlim E]%step_inv.
  pose proof (lookup_lt_Some _ _ _ Hch) as Hlt.
  change (switch strict settings b ch 0 (bump (MkRun (reset_marks (parser s1)) (calls s1)))
    = Ret (inl p1, t1)) in E. set (t0 := MkRun (reset_marks (parser s1)) (calls s1)) in *.
  remember (length a - P) as m eqn:Em. assert (Hm : length a = P + m) by lia.
  pose proof HR as (mw&sw&nw&cw&Hq&_). apply (f_equal parser) in Hq. cbn [parser] in Hq.
  apply (related_partial _ _ _ _ _ _ _ m) in HR; [|apply window_prefix; lia].
  rewrite <- Hm in HR. pose proof (related_next _ _ _ _ _ _ _ b HR Hfl) as HR0.
  apply related_bump in HR0; [|done]. fold t0 in HR0.
  assert (Hst : state_of (parser (bump t0)) = state_of (parser tP)).
  { destruct Hfl as (g&c&->&_). apply (state_partial a P m). }
  assert (HlD : left_from D (length a) = left_from b 0) by (unfold left_from; rewrite length_app; lia).
  assert (Hw : window D (length a) b 0).
  { intros n Hn. unfold slice. by rewrite !Nat.add_sub', drop_app_length. }
  rewrite <- Hst in Hb.
  destruct (body_rel _ _ _ _ _ ch _ _ HR0 Hlt Hw ltac:(by rewrite HlD) Hb _ _ E)
    as (P'&wm&E1&n&->&->&Hn&HR1).
  rewrite Hm in E1.
  assert (HbP : body_state (state_of (parser (bump wP))) = true) by (rewrite Hst in Hb; by rewrite Hq).
  destruct (switch_merge D ch P m (bump wP) (P + m + n) wm) as (c1&c2&E2&Ewm&Hbod);
    [done|by rewrite Hq|rewrite length_app; lia|lia|by rewrite Hq|done|].
  exists (MkRun (parser wm) (calls (bump wP) ++ c1)). rewrite Ewm in HR1. split.
  - eapply reaches_trans; [exact Hr|].
    replace (length a + (0 + n)) with (P + (m + n)) by lia.
    eapply (reaches_step _ _ _ _ (m + n)); [exact HchP| |lia|apply reaches_refl]. apply step_intro.
    + rewrite (body_not_header (state_of (parser wP))) by exact HbP. apply andb_false_r.
    + change (switch strict settings D chP P (bump wP)
        = Ret (inl (P + (m + n)), MkRun (parser wm) (calls (bump wP) ++ c1))).
      by rewrite switch_body, <- (switch_body D ch), Nat.add_assoc by done.
  - apply related_advance; [|by apply Hw]. by eapply related_bodies.
Qed.
End first.

(** ** Two calls and one *)

(** The parser a call starts with. *)
Definition start (s : run) : run := MkRun (reset_marks (parser s)) (calls s).

Lemma consume_inl d s s' : consume strict settings d s = Ret (inl (), s') ->
  exists p t, loop strict settings d (S (length d)) 0 (start s) = Ret (inl p, t)
    /\ flush settings d p t = Ret (inl (), s').
Proof.
  unfold consume, mbind, M_bind, start.
  destruct (loop _ _ _ _ _ _) as [[[p|n] t]|e]; [|done..]. intros E. by exists p, t.
Qed.

Lemma start_ok s : parser_ok (parser s) -> parser_ok (parser (start s)).
Proof.
  intros [Hbuf Hmet Hfld Hval Hchk Hmk]. split; try done. intros f Hf. cbn in *. by rewrite Hmk.
Qed.

Lemma flushed_ok d p t s F : flushed d p t s F -> parser_ok (parser t) -> parser_ok (parser s).
Proof. intros (g&c&->&_) [Hbuf Hmet Hfld Hval Hchk Hmk]. by split. Qed.

Lemma related_start D d s : (0 <= nread (parser s))%Z ->
  related (nread (parser s)) D 0 (start s) d 0 (start s).
Proof.
  intros Hn. exists (mark (parser (start s))), (size (parser s)), (nread (parser s)), (calls s).
  split; [by unfold start; destruct (parser s)|]. split; cbn; try done.
  intros f. by destruct (mark (parser s) f).
Qed.

(** The two parsers go on alike: they differ where their marks point to, in
    the sizes of strings that are not in progress, and in the count of the
    characters of the headers. *)
Definition same_parser (q q' : http_parser) : Prop := exists mk sz n,
  q' = set_nread n (set_mark mk (set_size sz q)) /\ (0 <= n <= nread q)%Z
  /\ forall f, (mk f = None <-> mark q f = None) /\ (mark q f <> None -> sz f = size q f).

(** The callbacks are given the same, in pieces of their own. *)
Definition same_calls (c c' : list event) : Prop :=
  (forall f, f <> f_header_value -> stream f c' = stream f c)
  /\ notices c' = notices c /\ body_stream c' = body_stream c.

Lemma related_end N D w d t s : related N D (length D) w d (length d) t ->
  flush settings d (length d) t = Ret (inl (), s) ->
  exists s', flush settings D (length D) w = Ret (inl (), s')
    /\ same_parser (parser s) (parser s') /\ same_calls (calls s) (calls s').
Proof.
  intros HR [Hfits (g&c&->&Hc&Hn&Hb&Hg)]%flush_inl.
  destruct (flush_cases D (length D) w) as [[_ (s'&E&g'&c'&->&Hc'&Hn'&Hb'&Hg')]|[[] _]];
    [|intros f; by eapply fits_related].
  eexists. split; [exact E|]. destruct HR as (mw&sw&nw&cw&->&[H1 H2 H3 H4 H5]).
  cbn [parser calls] in *. split.
  - exists mw, g', nw. split; [done|]. split; [cbn; lia|]. intros f. specialize (H2 f).
    specialize (Hg f). specialize (Hg' f).
    change (mark (set_nread nw (set_mark mw (set_size sw (parser t)))) f) with (mw f) in Hg'.
    cbn [mark size set_size]. destruct (mw f) as [x|], (mark (parser t) f) as [y|]; try done.
    split; [done|]. intros _. rewrite decide_True in Hg, Hg' by apply elem_of_fields.
    rewrite Hg, Hg'. unfold field_size. cbn. by destruct H2 as (_&_&->).
  - split_and!.
    + intros f Hf. rewrite !stream_app, Hc, Hc', !decide_True by apply elem_of_fields. by apply H3.
    + by rewrite !notices_app, Hn, Hn', !app_nil_r.
    + by rewrite !body_stream_app, Hb, Hb', !app_nil_r.
Qed.

Section two.
Variables a b : bytes.
Hypothesis Hab : Forall ascii7 (a ++ b).
Abbreviation D := (a ++ b).

(** The second piece. *)
Lemma second_piece N p w t fuel q u :
  related N D (length a + p) w b p t -> parser_ok (parser t) -> p <= length b ->
  (N + Z.of_nat (length b - p) < 2 ^ 64)%Z ->
  loop strict settings b fuel p t = Ret (inl q, u) ->
  exists w' N', reaches D (length a + p) w (length D) w' /\ q = length b
    /\ related N' D (length D) w' b (length b) u.
Proof.
  intros HR Hok Hp HN E. apply Forall_app in Hab as [_ Hb].
  destruct (loop_same b Hb fuel D (length a) N p w t q u) as (w'&N'&Hr&->&HR'&_);
    try done; [|apply length_app|by exists w', N'].
  intros n Hn. unfold slice. by rewrite !Nat.add_sub', drop_app_add.
Qed.

Lemma two_pieces s s1 s2 : parser_ok (parser s) -> (0 <= nread (parser s))%Z ->
  (nread (parser s) + Z.of_nat (length D) < 2 ^ 64)%Z ->
  consume strict settings a s = Ret (inl (), s1) -> consume strict settings b s1 = Ret (inl (), s2) ->
  exists w N u, reaches D 0 (start s) (length D) w
    /\ related N D (length D) w b (length b) u /\ flush settings b (length b) u = Ret (inl (), s2).
Proof.
  intros Hok H0 HN (p&t&Ea&Fa)%consume_inl (q&u&Eb&Fb)%consume_inl. rewrite length_app in HN.
  pose proof Hab as [Ha _]%Forall_app.
  destruct (loop_first a b Ha (S (length a)) (nread (parser s)) 0 (start s) (start s) p t)
    as (->&Hokt&N'&HN'&Hcases); try done; [by apply related_start|by apply start_ok|lia|lia|].
  apply flush_inl in Fa as [_ Hfl]. pose proof (start_ok _ (flushed_ok _ _ _ _ _ Hfl Hokt)) as Hok1.
  assert (Hrest : exists k p1 w1 t1 N1, reaches D 0 (start s) (length a + p1) w1
    /\ related N1 D (length a + p1) w1 b p1 t1 /\ parser_ok (parser t1) /\ p1 <= length b
    /\ (N1 + Z.of_nat (length b - p1) < 2 ^ 64)%Z
    /\ loop strict settings b k p1 t1 = Ret (inl q, u)).
  { destruct Hcases as [(w'&Hr&HR)|Hcr].
    - exists (S (length b)), 0, w', (start s1), N'. rewrite Nat.add_0_r. split_and!; try done; try lia.
      by eapply related_next.
    - destruct (b !! 0) as [ch|] eqn:Hch; cycle 1.
      { exfalso. apply lookup_ge_None in Hch. destruct Hcr as (P&?&?&tP&_&_&?&_&_&_&Hl&_).
        revert Hl. unfold to_read, left_from. rewrite length_app. destruct (state_of _); lia. }
      pose proof (lookup_lt_Some _ _ _ Hch) as Hlt. apply Forall_app in Hab as [_ Hb].
      destruct (loop_step b _ ch 0 _ _ _ Hch Eb) as (p1&t1&E1&E2).
      destruct (step_keeps b Hb ch 0 _ p1 t1 Hok1 Hch E1) as [Hp1 Hokt1].
      destruct (crosses_step a b N' (start s) t s1 ch p1 t1) as (w1&Hr&HR); try done; [lia|].
      exists (length b), p1, w1, t1, (N' + 1)%Z. split_and!; try done; lia. }
  destruct Hrest as (k&p1&w1&t1&N1&Hr&HR&Hokt1&Hp1&HN1&E).
  destruct (second_piece N1 p1 w1 t1 k q u) as (w&N&Hr'&->&HR'); try done.
  exists w, N, u. split_and!; try done. by eapply reaches_trans.
Qed.
End two.
End split.

(** ** Properties *)


(** A request whose body is cut. *)
Definition first_part : bytes := B "POST /a?b HTTP/1.1" ++ [CR; LF] ++ B "Content-Length: 5" ++ [CR; LF; CR; LF]
  ++ B "he".
Definition second_part : bytes := B "llo".

Definition after (data : bytes) (s : run) : run :=
  match consume true silent data s with Ret (_, s') => s' | Throw _ => s end.

Definition halfway : run := after first_part example_run.
Definition finished : run := after second_part halfway.

