(* ===== verification/HttpRequest.v ===== *)
(** * The requests of a connection, from their text to the callbacks

    A request has a text, and the calls that [http_parser_execute] makes for
    it.  The texts of any requests, one after the other, are parsed into their
    calls in order.  [parses pre text w Q] is the symbolic execution of the
    loop on [text], after [pre] and in front of anything. *)

From S2P Require Import Prelude CxxString Str HttpParser HttpParserProps HttpParserSplit.

(** ** Requests *)

(** The text of a method. *)
Definition method_text (m : http_method) : bytes :=
  match m with
  | HTTP_DELETE => B "DELETE" | HTTP_GET => B "GET" | HTTP_HEAD => B "HEAD"
  | HTTP_POST => B "POST" | HTTP_PUT => B "PUT" | HTTP_CONNECT => B "CONNECT"
  | HTTP_OPTIONS => B "OPTIONS" | HTTP_TRACE => B "TRACE" | HTTP_COPY => B "COPY"
  | HTTP_LOCK => B "LOCK" | HTTP_MKCOL => B "MKCOL" | HTTP_MOVE => B "MOVE"
  | HTTP_PROPFIND => B "PROPFIND" | HTTP_PROPPATCH => B "PROPPATCH" | HTTP_UNLOCK => B "UNLOCK"
  end.

Definition crlf : bytes := [CR; LF].

(** What is written of a request: [r_length] is the text of the length of the
    body. *)
Record request := MkRequest {
  r_method : http_method;
  r_path : bytes;
  r_query : option bytes;
  r_headers : list (bytes * bytes);
  r_body : option (bytes * bytes);
}.

Definition header_text (h : bytes * bytes) : bytes := h.1 ++ B ": " ++ h.2 ++ crlf.

Definition target (r : request) : bytes :=
  r_path r ++ from_option (fun q => "?"%char :: q) [] (r_query r).

(** The headers with that of the length. *)
Definition all_headers (r : request) : list (bytes * bytes) :=
  r_headers r ++ from_option (fun nb => [(B "Content-Length", nb.1)]) [] (r_body r).

Definition head_text (r : request) : bytes :=
  method_text (r_method r) ++ B " " ++ target r ++ B " HTTP/1.1" ++ crlf
  ++ (all_headers r ≫= header_text) ++ crlf.

Definition body_of (r : request) : bytes := from_option snd [] (r_body r).

Definition request_text (r : request) : bytes := head_text r ++ body_of r.

(** The calls for it. *)
Definition target_events (r : request) : list event :=
  match r_query r with
  | None => [on_field f_url (target r); on_field f_path (r_path r)]
  | Some q => [on_field f_path (r_path r); on_field f_url (target r); on_field f_query_string q]
  end.

Definition header_events (h : bytes * bytes) : list event :=
  [on_field f_header_field h.1; on_field f_header_value h.2].

Definition body_events (b : bytes) : list event := if decide (b = []) then [] else [on_body b].

Definition request_events (r : request) : list event :=
  on_message_begin :: target_events r ++ (all_headers r ≫= header_events)
  ++ on_headers_complete :: body_events (body_of r) ++ [on_message_complete].

(** The characters of the parts. *)
Definition url_char (c : ascii) : Prop := USUAL c = Ret true.
Definition lower (c : ascii) : ascii := match lowcase c with Ret x => x | Throw _ => NUL end.
Definition name_char (c : ascii) : Prop := lowcase c = Ret (lower c) /\ lower c <> NUL.
Definition value_char (c : ascii) : Prop := ascii7 c /\ c <> CR /\ c <> LF.

Definition a_name (name : bytes) : Prop :=
  (exists c l, name = c :: l /\ is_letter c = true) /\ Forall name_char name.

(** The names whose values the parser reads. *)
Definition special_names : list bytes :=
  [CONNECTION; PROXY_CONNECTION; CONTENT_LENGTH; TRANSFER_ENCODING].

Definition a_value (value : bytes) : Prop :=
  Forall value_char value /\ exists c l, value = c :: l /\ c <> " "%char.

Definition plain_header (h : bytes * bytes) : Prop :=
  a_name h.1 /\ (map lower h.1 ∉ special_names) /\ a_value h.2.

Record request_ok (r : request) : Prop := {
  ok_http_method : r_method r <> HTTP_LOCK;
  ok_path : exists l, r_path r = "/"%char :: l /\ Forall url_char l;
  ok_query : from_option (fun q => q <> [] /\ Forall url_char q) True (r_query r);
  ok_headers : Forall plain_header (r_headers r);
  ok_body : from_option (fun nb => is_decimal nb.1 (Z.of_nat (length nb.2))
    /\ (Z.of_nat (length nb.2) < 2 ^ 63)%Z) True (r_body r);
  ok_size : (Z.of_nat (length (head_text r)) < HTTP_MAX_HEADER_SIZE)%Z;
}.

(** ** The names of headers *)

Lemma letter_lower c : is_letter c = true -> name_char c -> LOWER c = lower c.
Proof.
  intros H [H1 _]. pose proof (forall_chars (fun c => implb (is_letter c)
    (match lowcase c with Ret x => bool_decide (LOWER c = x) | Throw _ => true end))
    ltac:(by vm_compute) c) as E.
  cbv beta in E. rewrite H, H1 in E. cbn in E. by apply bool_decide_eq_true in E.
Qed.

(** What is known of a name whose first characters, in lower case, are [l]. *)
Definition matching (h : header_states) (i : nat) (l : bytes) : Prop :=
  let prefix name := l = take (length l) name /\ S i = length l /\ length l < length name in
  match h with
  | h_general => True
  | h_C => l = B "c" /\ i = 0
  | h_CO => l = B "co" /\ i = 1
  | h_CON => l = B "con" /\ i = 2
  | h_matching_connection => prefix CONNECTION
  | h_matching_proxy_connection => prefix PROXY_CONNECTION
  | h_matching_content_length => prefix CONTENT_LENGTH
  | h_matching_transfer_encoding => prefix TRANSFER_ENCODING
  | h_connection => l ∈ [CONNECTION; PROXY_CONNECTION]
  | h_content_length => l = CONTENT_LENGTH
  | h_transfer_encoding => l = TRANSFER_ENCODING
  | _ => False
  end.

Lemma match_name_ok name i l c (P : header_states -> Prop) h h' :
  l = take (length l) name -> S i = length l -> length l < length name ->
  (l ++ [c] = name -> P h') ->
  (l ++ [c] = take (length (l ++ [c])) name -> S (S i) = length (l ++ [c]) ->
    length (l ++ [c]) < length name -> P h) ->
  P h_general -> P (match_name name (S i) c h h').
Proof.
  intros Hl Hi Hn H1 H2 H3. unfold match_name. case_decide as Hc; [done|].
  assert (E : name !! length l = Some c).
  { destruct (decide (Some c = (name ++ [NUL]) !! S i)) as [Heq|]; [|by destruct Hc; right].
    rewrite Hi, lookup_app_l in Heq by done. done. }
  assert (Ht : l ++ [c] = take (S (length l)) name) by by rewrite (take_S_r _ _ _ E), <- Hl.
  rewrite length_app, Nat.add_1_r in H2. case_decide as Hd.
  - apply H1. rewrite Ht. apply take_ge. lia.
  - apply H2; [done|lia|lia].
Qed.

(** [match_header_field] keeps it. *)
Lemma match_header_field_keeps h i l c : matching h i l -> name_char c ->
  exists i' h', match_header_field h i c (lower c) = Ret (i', h') /\ matching h' i' (l ++ [lower c]).
Proof.
  intros Hm [Hc Hn]. assert (Hs : c <> " "%char) by (intros ->; discriminate Hc || by destruct Hn).
  clear Hc. generalize dependent (lower c). intros x Hn.
  destruct h; cbn in Hm; try done; cbn [match_header_field];
    rewrite ?(decide_True (P := c <> " "%char)) by done;
    do 2 eexists; (split; [reflexivity|]); try exact I.
  1,2,3: destruct Hm as [-> ->]; repeat case_decide; try exact I; subst x; split_and!; done || (cbn; lia).
  all: destruct Hm as (H1&H2&H3); eapply (match_name_ok _ i l x (fun h => matching h (S i) (l ++ [x])));
    try eassumption; try exact I; cbn [matching]; intros; by set_solver.
Qed.

(** The states of the name after its first character. *)
Definition first_state (c : ascii) : header_states :=
  if decide (LOWER c = "c"%char) then h_C
  else if decide (LOWER c = "p"%char) then h_matching_proxy_connection
  else if decide (LOWER c = "t"%char) then h_matching_transfer_encoding
  else h_general.

Fixpoint name_states (l : bytes) (i : nat) (h : header_states) : outcome (nat * header_states) :=
  match l with
  | [] => Ret (i, h)
  | c :: l => '(i, h) ← match_header_field h i c (lower c); name_states l i h
  end.

Lemma first_state_ok c : is_letter c = true -> name_char c -> matching (first_state c) 0 [lower c].
Proof.
  intros H1 H2. unfold first_state. rewrite letter_lower by done.
  generalize (lower c). intros x. repeat case_decide; try exact I; subst x; split_and!; done || (cbn; lia).
Qed.

Lemma name_states_ok l : forall h i x, matching h i x -> Forall name_char l ->
  exists i' h', name_states l i h = Ret (i', h') /\ matching h' i' (x ++ map lower l).
Proof.
  induction l as [|c l IH]; intros h i x Hm Hl.
  - exists i, h. by rewrite app_nil_r.
  - apply Forall_cons in Hl as [Hc Hl].
    destruct (match_header_field_keeps h i x c Hm Hc) as (i1&h1&E&Hm1).
    destruct (IH h1 i1 _ Hm1 Hl) as (i'&h'&E'&Hm'). exists i', h'. cbn. rewrite E. cbn.
    split; [done|]. by rewrite <- app_assoc in Hm'.
Qed.

(** A name that is not special is no longer matched at its end. *)
Definition reads_value (h : header_states) : Prop :=
  h = h_connection \/ h = h_content_length \/ h = h_transfer_encoding.

Lemma plain_name_states c l : a_name (c :: l) -> map lower (c :: l) ∉ special_names ->
  exists i h, name_states l 0 (first_state c) = Ret (i, h) /\ ~ reads_value h.
Proof.
  intros [(c'&l'&[= <- <-]&Hlet) [Hc Hl]%Forall_cons] Hsp.
  destruct (name_states_ok l _ _ _ (first_state_ok c Hlet Hc) Hl) as (i&h&E&Hm).
  exists i, h. split; [exact E|]. cbn [map] in Hsp. unfold special_names in Hsp.
  intros [-> | [-> | ->]]; cbn [matching app] in Hm; set_solver.
Qed.

Lemma content_length_states :
  name_states (tail (B "Content-Length")) 0 (first_state "C"%char) = Ret (13, h_content_length).
Proof. by vm_compute. Qed.

Section requests.
Variable strict : bool.
Variable settings : http_parser_settings.
(** Every callback is set and returns zero. *)
Hypothesis Hset : forall e l, callback_result settings e l = Some 0%Z.

(** ** Running the loop on a text *)

Definition parses (pre text : bytes) (w : run) (Q : run -> Prop) : Prop := forall post,
  exists w', reaches strict settings (pre ++ text ++ post) (length pre) w
      (length (pre ++ text)) w' /\ Q w'.

Lemma parses_nil pre w (Q : run -> Prop) : Q w -> parses pre [] w Q.
Proof. intros HQ post. exists w. rewrite (app_nil_r pre). split; [apply reaches_refl|done]. Qed.

Lemma parses_app pre t1 t2 w Q1 Q :
  parses pre t1 w Q1 -> (forall w1, Q1 w1 -> parses (pre ++ t1) t2 w1 Q) -> parses pre (t1 ++ t2) w Q.
Proof.
  intros H1 H2 post. destruct (H1 (t2 ++ post)) as (w1&Hr1&HQ1).
  destruct (H2 w1 HQ1 post) as (w2&Hr2&HQ2). exists w2. rewrite <- !app_assoc in Hr2.
  split; [|done]. rewrite <- (app_assoc t1). eapply reaches_trans; [exact Hr1|exact Hr2].
Qed.

Lemma parses_mono pre t w (Q Q' : run -> Prop) :
  parses pre t w Q -> (forall w', Q w' -> Q' w') -> parses pre t w Q'.
Proof. intros H HQ post. destruct (H post) as (w'&Hr&H'). exists w'. auto. Qed.

(** A state that goes on over each character of [l]; [I] of the characters
    read. *)
Lemma parses_each (I : bytes -> run -> Prop) l pre w :
  (forall x ch y pre w, l = x ++ ch :: y -> I x w -> parses pre [ch] w (I (x ++ [ch]))) ->
  I [] w -> parses pre l w (I l).
Proof.
  intros Hstep. enough (H : forall y x pre w, l = x ++ y -> I x w -> parses pre y w (I l))
    by exact (H l [] pre w eq_refl).
  intros y. induction y as [|ch y IH]; intros x pre' w' Hl HI.
  - apply parses_nil. by rewrite app_nil_r in Hl; subst.
  - apply (parses_app _ [ch] _ _ _ _ (Hstep x ch y pre' w' Hl HI)).
    intros w1 H1. apply (IH (x ++ [ch])); [|done]. by rewrite <- app_assoc.
Qed.

(** A part of the function that goes on. *)
Definition ok {A} (m : M A) (w : run) (Q : A -> run -> Prop) : Prop :=
  exists a w', m w = Ret (inl a, w') /\ Q a w'.

Lemma ok_ret {A} (a : A) w (Q : A -> run -> Prop) : Q a w -> ok (mret a) w Q.
Proof. intros HQ. by exists a, w. Qed.

Lemma ok_bind {A C} (m : M A) (f : A -> M C) w Q : ok m w (fun a w' => ok (f a) w' Q) -> ok (m ≫= f) w Q.
Proof. intros (a&w'&E&c&w''&E'&HQ). exists c, w''. split; [|done]. unfold mbind, M_bind. by rewrite E. Qed.

Lemma ok_ask {C} (f : http_parser -> M C) w Q : ok (f (parser w)) w Q -> ok (ask ≫= f) w Q.
Proof. intros H. apply ok_bind. by exists (parser w), w. Qed.

Lemma ok_upd f w (Q : unit -> run -> Prop) : Q () (MkRun (f (parser w)) (calls w)) -> ok (upd f) w Q.
Proof. intros HQ. eexists (), _. by split. Qed.

Lemma ok_lift {A} (o : outcome A) a w (Q : A -> run -> Prop) : o = Ret a -> Q a w -> ok (lift o) w Q.
Proof. intros -> HQ. by exists a, w. Qed.

Lemma ok_CALLBACK2 e p w (Q : unit -> run -> Prop) :
  Q () (MkRun (parser w) (calls w ++ [e])) -> ok (CALLBACK2 settings e p) w Q.
Proof. intros HQ. eexists (), _. split; [by apply silent_CALLBACK2|done]. Qed.

Lemma ok_MARK f p w (Q : unit -> run -> Prop) :
  Q () (MkRun (set_size (at_field f 0%Z (size (parser w)))
    (set_mark (at_field f (Some p) (mark (parser w))) (parser w))) (calls w)) -> ok (MARK f p) w Q.
Proof. intros HQ. unfold MARK. by apply ok_upd. Qed.

Lemma ok_expect c next p w (Q : unit -> run -> Prop) :
  Q () (MkRun (set_state_of next (parser w)) (calls w)) -> ok (expect strict c c next p) w Q.
Proof.
  intros HQ. unfold expect, STRICT_CHECK. apply ok_bind.
  rewrite bool_decide_false, andb_false_r by (intros []; done). by apply ok_ret, ok_upd.
Qed.

Lemma ok_CALLBACK D f x p w (Q : unit -> run -> Prop) :
  mark (parser w) f = Some x -> size (parser w) f = 0%Z -> x <= p ->
  (Z.of_nat p - Z.of_nat x <= MAX_FIELD_SIZE)%Z ->
  Q () (MkRun (set_mark (at_field f None (mark (parser w)))
      (set_size (at_field f (Z.of_nat p - Z.of_nat x)%Z (size (parser w))) (parser w)))
    (calls w ++ [on_field f (slice D x p)])) ->
  ok (CALLBACK settings D f p) w Q.
Proof.
  intros Hm Hs Hp Hmax HQ. eexists (), _. split; [|exact HQ]. unfold CALLBACK, mbind, M_bind.
  rewrite silent_NOCLEAR by done. rewrite Hm. unfold field_size. rewrite Hs.
  assert (E : size_t (0 + (Z.of_nat p - Z.of_nat x)) = (Z.of_nat p - Z.of_nat x)%Z).
  { apply size_t_small. unfold MAX_FIELD_SIZE in Hmax. lia. }
  rewrite E, decide_False by lia. done.
Qed.

(** A turn of the loop. *)
Lemma parses_char pre ch w (Q : run -> Prop) :
  (0 <= nread (parser w) < HTTP_MAX_HEADER_SIZE)%Z ->
  (forall post, ok (switch strict settings (pre ++ ch :: post) ch (length pre)) (bump w)
    (fun p' w' => p' = S (length pre) /\ Q w')) ->
  parses pre [ch] w Q.
Proof.
  intros Hn H post. destruct (H post) as (p'&w'&E&->&HQ). exists w'. split; [|done].
  rewrite length_app. eapply (reaches_step _ _ _ ch _ _ 1); [|apply step_intro|lia|apply reaches_refl].
  - by rewrite lookup_app_r, Nat.sub_diag by lia.
  - rewrite size_t_small by (unfold HTTP_MAX_HEADER_SIZE in Hn; lia).
    by rewrite bool_decide_false by lia.
  - rewrite Nat.add_1_r. exact E.
Qed.

(** The text since a mark. *)
Lemma slice_mark pre post x : slice (pre ++ post) x (length pre) = drop x pre.
Proof.
  unfold slice. destruct (le_lt_dec x (length pre)).
  - rewrite drop_app_le, take_app_length' by (rewrite ?length_drop; lia). done.
  - replace (length pre - x) with 0 by lia. by rewrite take_0, drop_ge by lia.
Qed.

(** What is known of the parser in a state [st], [mk] the strings in progress,
    [c] the calls so far. *)
Record known := Known {
  k_length : Z;
  k_major : Z;
  k_minor : Z;
  k_method : option http_method;
}.

Record At (N : Z) (st : state) (h : header_states) (mk : field -> option nat) (k : known)
    (c : list event) (w : run) : Prop := {
  at_nread : (0 <= nread (parser w) <= N)%Z;
  at_state : state_of (parser w) = st;
  at_header : header_state_of (parser w) = h;
  at_mark f : mark (parser w) f = mk f;
  at_size f : mk f <> None -> size (parser w) f = 0%Z;
  at_length : content_length (parser w) = k_length k;
  at_major : http_major (parser w) = k_major k;
  at_minor : http_minor (parser w) = k_minor k;
  at_method : method (parser w) = k_method k;
  at_type : type (parser w) = HTTP_REQUEST;
  at_flags : st <> s_start_req -> flags (parser w) = 0%Z;
  at_buffer : length (buffer (parser w)) = HTTP_PARSER_MAX_METHOD_LEN;
  at_calls : calls w = c;
}.

Lemma at_bump N st h mk k c w : At N st h mk k c w -> (N < HTTP_MAX_HEADER_SIZE)%Z ->
  At (N + 1) st h mk k c (bump w).
Proof.
  intros [] HN. unfold HTTP_MAX_HEADER_SIZE in HN. split; try done. cbn.
  rewrite size_t_small; lia.
Qed.

Lemma at_weaken N N' st h mk k c w : At N st h mk k c w -> (N <= N')%Z -> At N' st h mk k c w.
Proof. intros [] HN. split; try done. lia. Qed.

Lemma at_marks N st h mk mk' k c w : At N st h mk k c w -> (forall f, mk f = mk' f) -> At N st h mk' k c w.
Proof.
  intros [] Hmk. split; try done; [intros f; by rewrite <- Hmk|].
  intros f Hf. rewrite <- Hmk in Hf. auto.
Qed.

(** A turn of the loop in a state that is known. *)
Lemma parses_at pre ch N st h mk k c w (Q : run -> Prop) :
  At N st h mk k c w -> (N < HTTP_MAX_HEADER_SIZE)%Z ->
  (forall post w1, At (N + 1) st h mk k c w1 -> index (parser w1) = index (parser w) ->
    ok (switch strict settings (pre ++ ch :: post) ch (length pre)) w1
    (fun p' w' => p' = S (length pre) /\ Q w')) ->
  parses pre [ch] w Q.
Proof.
  intros HA HN H. apply parses_char; [destruct HA; lia|]. intros post. by apply H; [apply at_bump|].
Qed.

Lemma ok_next (m : M unit) p w (Q : run -> Prop) :
  ok m w (fun _ w' => Q w') -> ok (m;; mret (S p)) w (fun p' w' => p' = S p /\ Q w').
Proof. intros (a&w'&E&HQ). apply ok_bind. exists a, w'. split; [exact E|]. by apply ok_ret. Qed.

(** The case of a state. *)
Ltac turn HA :=
  eapply parses_at; [exact HA|lia|]; intros post w1 H1 Hidx; unfold switch; apply ok_ask;
  rewrite (at_state _ _ _ _ _ _ _ H1); apply ok_next; clear HA.

Ltac red_parser := cbn [set_type set_state_of set_header_state_of set_index set_flags
  set_nread set_body_read set_content_length set_mark set_size set_status_code set_method
  set_http_major set_http_minor set_buffer type state_of header_state_of index flags nread
  body_read content_length mark size status_code method http_major http_minor buffer
  parser calls k_length k_major k_minor k_method].

Ltac len :=
  do 3 (cbn [length app B String.list_ascii_of_string] in *; rewrite ?length_app in *); lia.

Lemma at_field_mark f x mk mk' : (forall g, mk g = mk' g) ->
  forall g, at_field f x mk g = at_field (A := option nat) f x mk' g.
Proof. intros H g. unfold at_field. by case_decide. Qed.

Lemma at_field_size f x mk sz : (forall g, mk g <> None -> sz g = 0%Z) ->
  forall g, at_field (A := option nat) f x mk g <> None -> at_field f 0%Z sz g = 0%Z.
Proof. intros H g. unfold at_field. case_decide; [done|apply H]. Qed.

Lemma at_field_none f n mk sz : (forall g, mk g <> None -> sz g = 0%Z) ->
  forall g, at_field (A := option nat) f None mk g <> None -> at_field f n sz g = 0%Z.
Proof. intros H g. unfold at_field. case_decide; [done|apply H]. Qed.

(** What is known of a run, from what was known of the one it came from. *)
Ltac at_done :=
  lazymatch goal with H : At _ _ _ _ _ _ ?w |- At _ _ _ _ _ _ _ =>
    destruct H; split; red_parser;
    first [ done | congruence | lia | by rewrite length_insert
      | intros _; match goal with Hf : _ <> s_start_req -> _ |- _ => apply Hf; done end
      | repeat first [assumption | apply at_field_mark | apply at_field_size | apply at_field_none] ]
  end.

Ltac at_step :=
  lazymatch goal with
  | |- ok (mret _) _ _ => apply ok_ret
  | |- ok (ask ≫= _) _ _ => apply ok_ask
  | |- ok (_ ≫= _) _ _ => apply ok_bind
  | |- ok (upd _) _ _ => apply ok_upd
  | |- ok (become _) _ _ => apply ok_upd
  | |- ok (header _) _ _ => apply ok_upd
  | |- ok (MARK _ _) _ _ => apply ok_MARK
  | |- ok (CALLBACK2 _ _ _) _ _ => apply ok_CALLBACK2
  | |- ok (expect _ ?c ?c _ _) _ _ => apply ok_expect
  | |- ok (if true then ?a else _) ?w ?Q => change (ok a w Q)
  | |- ok (if false then _ else ?a) ?w ?Q => change (ok a w Q)
  | |- ok (if decide _ then _ else _) _ _ => first [rewrite decide_True by (done || auto) | rewrite decide_False by (done || naive_solver)]
  | |- ok (if ?b then ?m1 else ?m2) ?w ?Q =>
      let v := eval vm_compute in b in
      lazymatch v with true => change (ok m1 w Q) | false => change (ok m2 w Q) end
  end; red_parser.

Definition none : field -> option nat := fun _ => None.

(** ** The method *)

Definition upper (ch : ascii) : Prop := between "A"%char "Z"%char ch = true.

Lemma upper_not ch c : upper ch -> between "A"%char "Z"%char c = false -> ch <> c.
Proof. unfold upper. intros H1 H2 ->. congruence. Qed.

Definition in_buffer (l : bytes) (q : http_parser) : Prop :=
  S (index q) = length l /\ take (length l) (buffer q) = l.

Lemma ok_set_buffer_at i ch w (Q : unit -> run -> Prop) : i < length (buffer (parser w)) ->
  Q () (MkRun (set_buffer (<[i := ch]> (buffer (parser w))) (parser w)) (calls w)) ->
  ok (set_buffer_at i ch) w Q.
Proof.
  intros Hi HQ. unfold set_buffer_at. apply ok_ask. rewrite decide_True by done. by apply ok_upd.
Qed.

Lemma parses_method_start pre ch N h k c w :
  At N s_start_req h none k c w -> (N < HTTP_MAX_HEADER_SIZE)%Z -> upper ch ->
  parses pre [ch] w (fun w' =>
    At (N + 1) s_req_method h none (Known (-1) (k_major k) (k_minor k) None) (c ++ [on_message_begin]) w'
    /\ in_buffer [ch] (parser w')).
Proof.
  intros HA HN Hch. turn HA. unfold start_req.
  rewrite decide_False by (intros [E|E]; by apply (upper_not ch) in E).
  repeat at_step.
  unfold upper in Hch. rewrite Hch. repeat at_step.
  apply ok_set_buffer_at; [red_parser; rewrite (at_buffer _ _ _ _ _ _ _ H1); apply le_n_S, Nat.le_0_l|].
  red_parser. at_step. split.
  - at_done.
  - pose proof (at_buffer _ _ _ _ _ _ _ H1) as Hb. split; red_parser; [done|].
    by destruct (buffer (parser w1)).
Qed.
Lemma parses_method_char pre ch N h k c w l :
  At N s_req_method h none k c w -> (N < HTTP_MAX_HEADER_SIZE)%Z -> in_buffer l (parser w) ->
  upper ch -> length l < HTTP_PARSER_MAX_METHOD_LEN - 1 ->
  parses pre [ch] w (fun w' =>
    At (N + 1) s_req_method h none k c w' /\ in_buffer (l ++ [ch]) (parser w')).
Proof.
  intros HA HN HB Hch Hl.
  assert (HB' : forall w1, index (parser w1) = index (parser w) -> buffer (parser w1) = buffer (parser w) ->
    in_buffer l (parser w1)) by (intros w1; unfold in_buffer; by intros -> ->).
  apply parses_char; [destruct HA; lia|]. intros post. pose proof (at_bump _ _ _ _ _ _ _ HA HN) as H1.
  specialize (HB' (bump w) eq_refl eq_refl). clear HB. set (w1 := bump w) in *. clearbody w1.
  destruct HB' as [Hi Ht]. unfold switch; apply ok_ask. rewrite (at_state _ _ _ _ _ _ _ H1).
  apply ok_next. unfold req_method. apply ok_ask.
  rewrite decide_False by (by apply (upper_not ch)).
  unfold upper in Hch. rewrite Hch. repeat at_step.
  rewrite decide_False by lia. pose proof (at_buffer _ _ _ _ _ _ _ H1) as Hb.
  apply ok_set_buffer_at; red_parser; [lia|]. split.
  - at_done.
  - split; red_parser; rewrite length_app, Nat.add_1_r; [lia|]. rewrite Hi.
    rewrite (take_S_r _ _ ch) by (apply list_lookup_insert_eq; lia).
    by rewrite take_insert_ge, Ht by lia.
Qed.

Lemma parses_method_end pre N h L x y me c w l m :
  At N s_req_method h none (Known L x y me) c w -> (N < HTTP_MAX_HEADER_SIZE)%Z ->
  in_buffer l (parser w) -> length l < HTTP_PARSER_MAX_METHOD_LEN -> request_method l = Some m ->
  parses pre (B " ") w (At (N + 1) s_req_spaces_before_url h none (Known L x y (Some m)) c).
Proof.
  intros HA HN HB Hl Hm.
  apply parses_char; [destruct HA; lia|]. intros post. pose proof (at_bump _ _ _ _ _ _ _ HA HN) as H1.
  assert (HB1 : in_buffer l (parser (bump w))) by exact HB. destruct HB1 as [Hi Ht].
  set (w1 := bump w) in *. clearbody w1. unfold switch; apply ok_ask.
  rewrite (at_state _ _ _ _ _ _ _ H1). apply ok_next. unfold req_method. apply ok_ask.
  pose proof (at_buffer _ _ _ _ _ _ _ H1) as Hb.
  rewrite decide_True by done. apply ok_bind. eapply ok_lift.
  { unfold assert_that. by rewrite decide_True by lia. }
  apply ok_bind, ok_set_buffer_at; [red_parser; lia|]. red_parser. apply ok_ask. red_parser.
  replace (index (parser w1) + 1) with (length l) by lia.
  rewrite take_insert_ge by lia. rewrite Ht, Hm. repeat at_step. at_done.
Qed.

Lemma method_ok m : m <> HTTP_LOCK ->
  Forall upper (method_text m) /\ method_text m <> []
  /\ length (method_text m) < HTTP_PARSER_MAX_METHOD_LEN /\ request_method (method_text m) = Some m.
Proof.
  intros Hm. destruct m; try done; (split; [repeat constructor|split; [done|split; [cbn; unfold HTTP_PARSER_MAX_METHOD_LEN; lia|by vm_compute]]]).
Qed.

(** The method and the blank after it. *)
Lemma parses_method m pre N h k c w : m <> HTTP_LOCK ->
  At N s_start_req h none k c w ->
  (N + Z.of_nat (length (method_text m)) < HTTP_MAX_HEADER_SIZE)%Z ->
  parses pre (method_text m ++ B " ") w
    (At (N + Z.of_nat (length (method_text m ++ B " "))) s_req_spaces_before_url h none
      (Known (-1) (k_major k) (k_minor k) (Some m)) (c ++ [on_message_begin])).
Proof.
  intros Hm HA HN. destruct (method_ok m Hm) as (Hu&Hne&Hlen&Hreq).
  destruct (method_text m) as [|ch l] eqn:E; [done|]. apply Forall_cons in Hu as [Hch Hu].
  cbn [length] in *. rewrite <- app_comm_cons.
  apply (parses_app _ [ch] _ _ _ _ (parses_method_start pre ch N h k c w HA ltac:(lia) Hch)).
  intros w1 HI1. eapply parses_app.
  - apply (parses_each (fun x w => At (N + 1 + Z.of_nat (length x)) s_req_method h none
      (Known (-1) (k_major k) (k_minor k) None) (c ++ [on_message_begin]) w /\ in_buffer (ch :: x) (parser w)) l).
    + intros x a y pre' w' Hl [HA' HB']. subst l. apply Forall_app in Hu as [_ [Ha _]%Forall_cons].
      rewrite length_app in *. cbn [length] in *. eapply parses_mono.
      * apply (parses_method_char _ _ _ _ _ _ _ (ch :: x) HA'); [lia|exact HB'|done|cbn [length]; lia].
      * intros w2 [HA2 HB2]. split; [|exact HB2]. eapply at_weaken; [exact HA2|len].
    + by rewrite Z.add_0_r.
  - intros w2 [HA2 HB2]. eapply parses_mono.
    + apply (parses_method_end _ _ _ _ _ _ _ _ _ (ch :: l) m HA2); [lia|exact HB2|done|done].
    + intros w3 HA3. eapply at_weaken; [exact HA3|len].
Qed.
(** ** The target *)

(** The strings that begin here. *)
Definition with_mark (f : field) (x : nat) (mk : field -> option nat) : field -> option nat :=
  at_field f (Some x) mk.

Definition url_marks (x : nat) : field -> option nat := with_mark f_path x (with_mark f_url x none).

Lemma parses_path_start pre N h k c w :
  At N s_req_spaces_before_url h none k c w -> (N < HTTP_MAX_HEADER_SIZE)%Z ->
  parses pre (B "/") w (At (N + 1) s_req_path h (url_marks (length pre)) k c).
Proof.
  intros HA HN. turn HA. unfold req_spaces_before_url. repeat at_step.
  unfold url_marks, with_mark. at_done.
Qed.

Lemma parses_usual st pre ch N h mk k c w :
  st = s_req_path \/ st = s_req_query_string ->
  At N st h mk k c w -> (N < HTTP_MAX_HEADER_SIZE)%Z -> url_char ch ->
  parses pre [ch] w (At (N + 1) st h mk k c).
Proof.
  intros Hst HA HN Hch. unfold url_char in Hch. destruct Hst as [-> | ->]; turn HA;
    unfold req_path, req_query_string; apply ok_bind; (eapply ok_lift; [exact Hch|]); by apply ok_ret.
Qed.

Lemma parses_usuals st pre l N h mk k c w :
  st = s_req_path \/ st = s_req_query_string ->
  At N st h mk k c w -> (N + Z.of_nat (length l) <= HTTP_MAX_HEADER_SIZE)%Z -> Forall url_char l ->
  parses pre l w (At (N + Z.of_nat (length l)) st h mk k c).
Proof.
  intros Hst HA HN Hl. apply (parses_each (fun x => At (N + Z.of_nat (length x)) st h mk k c)).
  - intros x ch y pre' w' -> HA'. apply Forall_app in Hl as [_ [Hch _]%Forall_cons].
    eapply parses_mono; [apply (parses_usual _ _ _ _ _ _ _ _ _ Hst HA'); [len|done]|].
    intros w1 H1. eapply at_weaken; [exact H1|len].
  - by rewrite Z.add_0_r.
Qed.

(** A string in progress ends: [pre] is the text so far. *)
Lemma ok_CALLBACK_at pre post N st h mk k c f x w (Q : unit -> run -> Prop) :
  At N st h mk k c w -> mk f = Some x -> x <= length pre ->
  (Z.of_nat (length pre) - Z.of_nat x <= MAX_FIELD_SIZE)%Z ->
  (forall w', At N st h (at_field f None mk) k (c ++ [on_field f (drop x pre)]) w' -> Q () w') ->
  ok (CALLBACK settings (pre ++ post) f (length pre)) w Q.
Proof.
  intros HA Hf Hx Hmax HQ. eapply (ok_CALLBACK _ _ x).
  - by rewrite (at_mark _ _ _ _ _ _ _ HA).
  - apply (at_size _ _ _ _ _ _ _ HA). by rewrite Hf.
  - done.
  - done.
  - apply HQ. rewrite slice_mark. at_done.
Qed.

Lemma ok_become_at N st st' h mk k c w (Q : unit -> run -> Prop) :
  At N st h mk k c w -> st <> s_start_req -> (forall w', At N st' h mk k c w' -> Q () w') ->
  ok (become st') w Q.
Proof. intros HA Hst HQ. apply ok_upd, HQ. at_done. Qed.

(** The end of the path, in front of a blank. *)
Lemma parses_path_end pre N h k c w x :
  At N s_req_path h (url_marks x) k c w -> (N < HTTP_MAX_HEADER_SIZE)%Z -> x <= length pre ->
  (Z.of_nat (length pre) - Z.of_nat x <= MAX_FIELD_SIZE)%Z ->
  parses pre (B " ") w (At (N + 1) s_req_http_start h none k
    (c ++ [on_field f_url (drop x pre); on_field f_path (drop x pre)])).
Proof.
  intros HA HN Hx Hmax. turn HA. unfold req_path. apply ok_bind.
  eapply ok_lift; [by vm_compute|]. rewrite decide_True by done.
  apply ok_bind. eapply ok_CALLBACK_at; [exact H1|done..|]. intros w2 H2.
  apply ok_bind. eapply ok_CALLBACK_at; [exact H2|done..|]. intros w3 H3.
  eapply ok_become_at; [exact H3|done|]. intros w4 H4. rewrite <- app_assoc in H4.
  eapply at_marks; [exact H4|]. by intros [].
Qed.
(** The query string. *)
Lemma parses_query_start pre N h k c w x :
  At N s_req_path h (url_marks x) k c w -> (N < HTTP_MAX_HEADER_SIZE)%Z -> x <= length pre ->
  (Z.of_nat (length pre) - Z.of_nat x <= MAX_FIELD_SIZE)%Z ->
  parses pre (B "?") w (At (N + 1) s_req_query_string_start h (with_mark f_url x none) k
    (c ++ [on_field f_path (drop x pre)])).
Proof.
  intros HA HN Hx Hmax. turn HA. unfold req_path. apply ok_bind.
  eapply ok_lift; [by vm_compute|]. do 5 at_step.
  apply ok_bind. eapply ok_CALLBACK_at; [exact H1|done..|]. intros w2 H2.
  eapply ok_become_at; [exact H2|done|]. intros w3 H3. eapply at_marks; [exact H3|]. by intros [].
Qed.

Lemma parses_query_char pre ch N h k c w x :
  At N s_req_query_string_start h (with_mark f_url x none) k c w -> (N < HTTP_MAX_HEADER_SIZE)%Z ->
  url_char ch ->
  parses pre [ch] w (At (N + 1) s_req_query_string h
    (with_mark f_query_string (length pre) (with_mark f_url x none)) k c).
Proof.
  intros HA HN Hch. turn HA. unfold req_query_string_start. apply ok_bind.
  eapply ok_lift; [exact Hch|]. repeat at_step. unfold with_mark. at_done.
Qed.

Lemma parses_query_end pre N h k c w x y :
  At N s_req_query_string h (with_mark f_query_string y (with_mark f_url x none)) k c w ->
  (N < HTTP_MAX_HEADER_SIZE)%Z -> x <= y <= length pre ->
  (Z.of_nat (length pre) - Z.of_nat x <= MAX_FIELD_SIZE)%Z ->
  parses pre (B " ") w (At (N + 1) s_req_http_start h none k
    (c ++ [on_field f_url (drop x pre); on_field f_query_string (drop y pre)])).
Proof.
  intros HA HN Hx Hmax. turn HA. unfold req_query_string. apply ok_bind.
  eapply ok_lift; [by vm_compute|]. do 3 at_step.
  apply ok_bind. eapply ok_CALLBACK_at; [exact H1|done|lia|lia|]. intros w2 H2.
  apply ok_bind. eapply ok_CALLBACK_at; [exact H2|done|lia|lia|]. intros w3 H3.
  eapply ok_become_at; [exact H3|done|]. intros w4 H4. rewrite <- app_assoc in H4.
  eapply at_marks; [exact H4|]. by intros [].
Qed.
Lemma sizes : (MAX_FIELD_SIZE = HTTP_MAX_HEADER_SIZE)%Z.
Proof. done. Qed.

(** The whole target, and the blank after it. *)
Lemma parses_target pre r N h k c w :
  (exists l, r_path r = "/"%char :: l /\ Forall url_char l) ->
  from_option (fun q => q <> [] /\ Forall url_char q) True (r_query r) ->
  At N s_req_spaces_before_url h none k c w ->
  (N + Z.of_nat (length (target r)) < HTTP_MAX_HEADER_SIZE)%Z ->
  parses pre (target r ++ B " ") w (At (N + Z.of_nat (length (target r ++ B " "))) s_req_http_start
    h none k (c ++ target_events r)).
Proof.
  intros (l&Hp&Hl) Hq HA HN. pose proof (at_nread _ _ _ _ _ _ _ HA) as Hn.
  pose proof sizes as Hsz. assert (Hlen : length (r_path r) = S (length l)) by by rewrite Hp.
  assert (Hpath : parses pre (r_path r) w
    (At (N + Z.of_nat (length (r_path r))) s_req_path h (url_marks (length pre)) k c)).
  { unfold target in HN. rewrite Hp in *. apply (parses_app _ (B "/") _ _ _ _ (parses_path_start pre N h k c w HA ltac:(len))).
    intros w1 H1. eapply parses_mono.
    - eapply parses_usuals; [by left|exact H1|len|done].
    - intros w2 H2. eapply at_weaken; [exact H2|len]. }
  unfold target, target_events in *. destruct (r_query r) as [q|] eqn:Eq; cbn [from_option] in *.
  - destruct Hq as [Hne Hq]. destruct q as [|ch q]; [done|]. apply Forall_cons in Hq as [Hch Hq].
    replace ((r_path r ++ "?"%char :: ch :: q) ++ B " ")
      with (r_path r ++ B "?" ++ [ch] ++ q ++ B " ") by by rewrite <- app_assoc.
    eapply parses_app; [exact Hpath|]. intros w1 H1.
    eapply parses_app; [eapply parses_query_start; [exact H1|len|len|len]|]. intros w2 H2.
    eapply parses_app; [eapply parses_query_char; [exact H2|len|done]|]. intros w3 H3.
    eapply parses_app; [eapply parses_usuals; [by right|exact H3|len|done]|]. intros w4 H4.
    eapply parses_mono; [eapply parses_query_end; [exact H4|len|len|len]|]. intros w5 H5.
    rewrite <- !app_assoc, !drop_app_length in H5.
    rewrite (app_assoc (r_path r) _ ([ch] ++ q)), (app_assoc pre _ ([ch] ++ q)), drop_app_length in H5.
    unfold target. rewrite Eq. cbn [from_option]. rewrite <- app_assoc in H5.
    eapply at_weaken; [exact H5|len].
  - rewrite app_nil_r in *. eapply parses_app; [exact Hpath|]. intros w1 H1.
    eapply parses_mono; [eapply parses_path_end; [exact H1|len|len|len]|].
    intros w2 H2. rewrite drop_app_length in H2. unfold target. rewrite Eq, app_nil_r.
    eapply at_weaken; [exact H2|len].
Qed.
(** ** The version *)

(** One character that leads to a state. *)
Ltac goes st k :=
  lazymatch goal with HA : At ?N _ ?h ?mk _ ?c ?w |- parses _ _ ?w _ =>
    eapply (parses_app _ _ _ _ (At (N + 1) st h mk k c));
      [turn HA | clear HA; clear w; intros w HA]
  end.

Lemma parses_version pre N h L x y me c w :
  At N s_req_http_start h none (Known L x y me) c w -> (N + 10 <= HTTP_MAX_HEADER_SIZE)%Z ->
  parses pre (B "HTTP/1.1" ++ crlf) w (At (N + 10) s_header_field_start h none (Known L 1 1 me) c).
Proof.
  intros HA HN.
  change (B "HTTP/1.1" ++ crlf) with (B "H" ++ B "T" ++ B "T" ++ B "P" ++ B "/" ++ B "1" ++ B "."
    ++ B "1" ++ [CR] ++ [LF] ++ []).
  goes s_req_http_H (Known L x y me); [unfold req_http_start; repeat at_step; at_done|].
  goes s_req_http_HT (Known L x y me); [repeat at_step; at_done|].
  goes s_req_http_HTT (Known L x y me); [repeat at_step; at_done|].
  goes s_req_http_HTTP (Known L x y me); [repeat at_step; at_done|].
  goes s_req_first_http_major (Known L x y me); [repeat at_step; at_done|].
  goes s_req_http_major (Known L 1 y me); [unfold first_http_major; repeat at_step; at_done|].
  goes s_req_first_http_minor (Known L 1 y me); [unfold http_major_digit; repeat at_step; at_done|].
  goes s_req_http_minor (Known L 1 1 me); [unfold first_http_minor; repeat at_step; at_done|].
  goes s_req_line_almost_done (Known L 1 1 me); [unfold req_http_minor; repeat at_step; at_done|].
  goes s_header_field_start (Known L 1 1 me); [unfold req_line_almost_done; repeat at_step; at_done|].
  apply parses_nil. eapply at_weaken; [exact HA|lia].
Qed.

(** ** Headers *)

Definition field_marks (x : nat) : field -> option nat := with_mark f_header_field x none.
Definition value_marks (x : nat) : field -> option nat := with_mark f_header_value x none.

Lemma parses_name_start pre ch N h k c w :
  At N s_header_field_start h none k c w -> (N < HTTP_MAX_HEADER_SIZE)%Z -> is_letter ch = true ->
  parses pre [ch] w (fun w' =>
    At (N + 1) s_header_field (first_state ch) (field_marks (length pre)) k c w'
    /\ index (parser w') = 0).
Proof.
  intros HA HN Hch. turn HA. unfold header_field_start.
  rewrite !decide_False by (intros ->; discriminate Hch). rewrite Hch. unfold first_state.
  repeat at_step; repeat case_decide; at_step; split; try done; unfold field_marks, with_mark; at_done.
Qed.
Lemma ok_upd_index N st h mk k c w i (Q : unit -> run -> Prop) :
  At N st h mk k c w -> (forall w', At N st h mk k c w' -> index (parser w') = i -> Q () w') ->
  ok (upd (set_index i)) w Q.
Proof. intros HA HQ. apply ok_upd, HQ; [at_done|done]. Qed.

Lemma parses_name_char pre ch N h mk k c w i h' :
  At N s_header_field h mk k c w -> (N < HTTP_MAX_HEADER_SIZE)%Z -> name_char ch ->
  match_header_field h (index (parser w)) ch (lower ch) = Ret (i, h') ->
  parses pre [ch] w (fun w' => At (N + 1) s_header_field h' mk k c w' /\ index (parser w') = i).
Proof.
  intros HA HN [Hch Hne] E. turn HA. unfold header_field. apply ok_bind.
  eapply ok_lift; [exact Hch|]. rewrite decide_True by done. apply ok_ask, ok_bind.
  eapply ok_lift; [rewrite Hidx, (at_header _ _ _ _ _ _ _ H1); exact E|]. cbn beta iota.
  repeat at_step. split; [at_done|done].
Qed.

Lemma parses_name_chars l : forall pre N h mk k c w i h',
  At N s_header_field h mk k c w -> (N + Z.of_nat (length l) <= HTTP_MAX_HEADER_SIZE)%Z ->
  Forall name_char l -> name_states l (index (parser w)) h = Ret (i, h') ->
  parses pre l w (At (N + Z.of_nat (length l)) s_header_field h' mk k c).
Proof.
  induction l as [|ch l IH]; intros pre N h mk k c w i h' HA HN Hl E.
  - injection E as _ <-. apply parses_nil. by rewrite Z.add_0_r.
  - apply Forall_cons in Hl as [Hch Hl]. cbn [name_states] in E.
    destruct (match_header_field h (index (parser w)) ch (lower ch)) as [[i1 h1]|] eqn:E1; [|done].
    cbn in E. eapply (parses_app _ [ch]).
    { eapply parses_name_char; [exact HA|len|done|exact E1]. }
    cbn beta. intros w1 [H1 <-].
    eapply parses_mono; [eapply IH; [exact H1|len|done|exact E]|].
    intros w2 H2. eapply at_weaken; [exact H2|len].
Qed.

(** The end of a name: [pre] is the text so far. *)
Lemma parses_name_end pre N h k c w x :
  At N s_header_field h (field_marks x) k c w -> (N < HTTP_MAX_HEADER_SIZE)%Z -> x <= length pre ->
  (Z.of_nat (length pre) - Z.of_nat x <= MAX_FIELD_SIZE)%Z ->
  parses pre (B ":") w (At (N + 1) s_header_value_start h none k
    (c ++ [on_field f_header_field (drop x pre)])).
Proof.
  intros HA HN Hx Hmax. turn HA. unfold header_field. apply ok_bind.
  eapply ok_lift; [by vm_compute|]. do 2 at_step.
  apply ok_bind. eapply ok_CALLBACK_at; [exact H1|done|lia|lia|]. intros w2 H2.
  eapply ok_become_at; [exact H2|done|]. intros w3 H3. eapply at_marks; [exact H3|]. by intros [].
Qed.

Lemma parses_blank pre N h mk k c w :
  At N s_header_value_start h mk k c w -> (N < HTTP_MAX_HEADER_SIZE)%Z ->
  parses pre (B " ") w (At (N + 1) s_header_value_start h mk k c).
Proof. intros HA HN. turn HA. unfold header_value_start. by repeat at_step. Qed.

(** A name with the colon and the blank. *)
Lemma parses_name pre ch l N h k c w i h' : a_name (ch :: l) ->
  At N s_header_field_start h none k c w ->
  (N + Z.of_nat (length (ch :: l)) + 2 <= HTTP_MAX_HEADER_SIZE)%Z ->
  name_states l 0 (first_state ch) = Ret (i, h') ->
  parses pre ((ch :: l) ++ B ": ") w (At (N + Z.of_nat (length (ch :: l)) + 2) s_header_value_start h'
    none k (c ++ [on_field f_header_field (ch :: l)])).
Proof.
  intros [(ch'&l'&[= <- <-]&Hlet) [_ Hl]%Forall_cons] HA HN E. pose proof sizes as Hsz.
  pose proof (at_nread _ _ _ _ _ _ _ HA) as Hn.
  change ((ch :: l) ++ B ": ") with ([ch] ++ l ++ (B ":" ++ B " ")).
  eapply parses_app; [eapply parses_name_start; [exact HA|len|done]|]. cbn beta. intros w1 [H1 Hi].
  eapply parses_app; [eapply parses_name_chars; [exact H1|len|done|by rewrite Hi]|]. intros w2 H2.
  eapply parses_app; [eapply parses_name_end; [exact H2|len|len|len]|]. intros w3 H3.
  rewrite <- app_assoc, drop_app_length in H3.
  cbn [length] in HN |- *.
  eapply parses_mono; [eapply parses_blank; [exact H3|lia]|].
  intros w4 H4. eapply at_weaken; [exact H4|lia].
Qed.
(** A value the parser does not read. *)
Lemma parses_value_start pre ch N h k c w :
  At N s_header_value_start h none k c w -> (N < HTTP_MAX_HEADER_SIZE)%Z -> ~ reads_value h ->
  value_char ch -> ch <> " "%char ->
  parses pre [ch] w (At (N + 1) s_header_value h_general (value_marks (length pre)) k c).
Proof.
  intros HA HN Hh (H7&Hcr&Hlf) Hsp. turn HA. unfold header_value_start.
  rewrite decide_False by done. destruct (lowcase_ok ch H7) as [x Hx]. do 6 at_step.
  apply ok_bind. eapply ok_lift; [exact Hx|]. case_decide.
  - repeat at_step. unfold value_marks, with_mark. at_done.
  - apply ok_ask. red_parser. rewrite (at_header _ _ _ _ _ _ _ H1).
    assert (Hgen : forall w', At (N + 1) s_header_value h_general (value_marks (length pre)) k c
      (MkRun (set_header_state_of h_general (parser w')) (calls w')) ->
      ok (header h_general) w' (fun _ w'' => At (N + 1) s_header_value h_general
        (value_marks (length pre)) k c w'')) by (intros w' ?; by apply ok_upd).
    unfold reads_value in Hh.
    destruct h; try (exfalso; by auto); apply Hgen; red_parser; unfold value_marks, with_mark; at_done.
Qed.

Lemma parses_value_char pre ch N mk k c w :
  At N s_header_value h_general mk k c w -> (N < HTTP_MAX_HEADER_SIZE)%Z -> value_char ch ->
  parses pre [ch] w (At (N + 1) s_header_value h_general mk k c).
Proof.
  intros HA HN (H7&Hcr&Hlf). turn HA. unfold header_value.
  destruct (lowcase_ok ch H7) as [x Hx]. apply ok_bind. eapply ok_lift; [exact Hx|].
  case_decide; [repeat at_step; exact H1|]. unfold match_header_value. apply ok_ask.
  rewrite (at_header _ _ _ _ _ _ _ H1). by apply ok_ret.
Qed.

(** The end of a value and its line. *)
Lemma parses_value_end pre N h k c w x :
  h = h_general \/ h = h_content_length ->
  At N s_header_value h (value_marks x) k c w -> (N + 2 <= HTTP_MAX_HEADER_SIZE)%Z ->
  x <= length pre -> (Z.of_nat (length pre) - Z.of_nat x <= MAX_FIELD_SIZE)%Z ->
  parses pre crlf w (At (N + 2) s_header_field_start h none k
    (c ++ [on_field f_header_value (drop x pre)])).
Proof.
  intros Hh HA HN Hx Hmax. change crlf with ([CR] ++ [LF]).
  eapply (parses_app _ _ _ _ (At (N + 1) s_header_almost_done h none k
    (c ++ [on_field f_header_value (drop x pre)]))).
  - turn HA. unfold header_value. apply ok_bind. eapply ok_lift; [by vm_compute|]. do 2 at_step.
    apply ok_bind. eapply ok_CALLBACK_at; [exact H1|done|lia|lia|]. intros w2 H2.
    eapply ok_become_at; [exact H2|done|]. intros w3 H3. eapply at_marks; [exact H3|]. by intros [].
  - clear HA w. intros w HA. replace (N + 2)%Z with (N + 1 + 1)%Z by lia. turn HA.
    unfold header_almost_done, STRICT_CHECK. apply ok_bind.
    change (bool_decide (LF <> LF)) with false. rewrite andb_false_r. repeat at_step.
    rewrite (at_header _ _ _ _ _ _ _ H1). by destruct Hh as [-> | ->]; apply ok_ret; at_done.
Qed.

(** A header that the parser does not read. *)
Lemma parses_plain_header pre hd N h k c w : plain_header hd ->
  At N s_header_field_start h none k c w ->
  (N + Z.of_nat (length (header_text hd)) <= HTTP_MAX_HEADER_SIZE)%Z ->
  parses pre (header_text hd) w (At (N + Z.of_nat (length (header_text hd))) s_header_field_start
    h_general none k (c ++ header_events hd)).
Proof.
  destruct hd as [name value]. intros (Hname&Hsp&Hval&v&l&Hvl&Hv) HA HN. cbn [fst snd] in *. subst value.
  pose proof sizes as Hsz. pose proof (at_nread _ _ _ _ _ _ _ HA) as Hn.
  apply Forall_cons in Hval as [Hvc Hl].
  destruct Hname as [(ch&n&->&Hlet) Hchars].
  destruct (plain_name_states ch n) as (i&h'&E&Hh'); [split; [by do 2 eexists|done]|done|].
  unfold header_text in *. cbn [fst snd] in *.
  replace ((ch :: n) ++ B ": " ++ (v :: l) ++ crlf) with (((ch :: n) ++ B ": ") ++ [v] ++ l ++ crlf) in *
    by by rewrite <- app_assoc.
  assert (Hcrlf : length crlf = 2) by done.
  eapply parses_app; [eapply parses_name; [split; [by do 2 eexists|done]|exact HA|len|exact E]|].
  intros w1 H1. eapply parses_app; [eapply parses_value_start; [exact H1|len|done..]|]. intros w2 H2.
  eapply (parses_app _ l _ _ (At (N + Z.of_nat (length (ch :: n)) + 2 + 1 + Z.of_nat (length l))
    s_header_value h_general _ k _)).
  - apply (parses_each (fun x => At (N + Z.of_nat (length (ch :: n)) + 2 + 1 + Z.of_nat (length x))
      s_header_value h_general _ k _)); [|rewrite Z.add_0_r; exact H2].
    intros x a y pre' w' -> HA'. apply Forall_app in Hl as [_ [Ha _]%Forall_cons].
    eapply parses_mono; [eapply parses_value_char; [exact HA'|len|done]|].
    intros w3 H3. eapply at_weaken; [exact H3|len].
  - intros w3 H3. eapply parses_mono; [eapply parses_value_end; [by left|exact H3|len|len|len]|].
    intros w4 H4. rewrite <- (app_assoc _ [v] l), drop_app_length, <- app_assoc in H4.
    eapply at_weaken; [exact H4|len].
Qed.
Lemma parses_plain_headers hds : forall pre N h k c w, Forall plain_header hds ->
  At N s_header_field_start h none k c w ->
  (N + Z.of_nat (length (hds ≫= header_text)) <= HTTP_MAX_HEADER_SIZE)%Z ->
  parses pre (hds ≫= header_text) w (fun w' => exists h',
    At (N + Z.of_nat (length (hds ≫= header_text))) s_header_field_start h' none k
      (c ++ (hds ≫= header_events)) w').
Proof.
  induction hds as [|hd hds IH]; intros pre N h k c w Hp HA HN.
  - apply parses_nil. exists h. by rewrite Z.add_0_r, app_nil_r.
  - apply Forall_cons in Hp as [Hhd Hp]. rewrite !bind_cons in *.
    eapply parses_app; [eapply parses_plain_header; [done|exact HA|len]|]. intros w1 H1.
    eapply parses_mono; [eapply IH; [done|exact H1|len]|].
    intros w2 [h' H2]. exists h'. rewrite <- app_assoc in H2. eapply at_weaken; [exact H2|len].
Qed.

(** ** The length of the body *)

Lemma digit_facts ch : isdigit ch = true ->
  is_digit ch = true /\ digit ch = (uchar ch - 48)%Z /\ name_char ch /\ ch <> " "%char
  /\ ch <> CR /\ ch <> LF.
Proof.
  intros H. pose proof (forall_chars (fun c => implb (isdigit c)
    (is_digit c && bool_decide (digit c = (uchar c - 48)%Z)
     && match lowcase c with Ret x => negb (bool_decide (x = NUL)) | Throw _ => false end)) ltac:(by vm_compute) ch) as E.
  cbv beta in E. rewrite H in E. cbn [implb] in E. apply andb_prop in E as [[E1 E2]%andb_prop E3].
  apply bool_decide_eq_true in E2. split_and!; try done; try (intros ->; discriminate H).
  unfold name_char, lower. destruct (lowcase ch) as [x|]; [|done]. split; [done|].
  by apply negb_true_iff, bool_decide_eq_false in E3.
Qed.
Lemma parses_length_start pre ch N L x y me c w :
  At N s_header_value_start h_content_length none (Known L x y me) c w ->
  (N < HTTP_MAX_HEADER_SIZE)%Z -> isdigit ch = true ->
  parses pre [ch] w (At (N + 1) s_header_value h_content_length (value_marks (length pre))
    (Known (decimal_value [ch]) x y me) c).
Proof.
  intros HA HN Hch. destruct (digit_facts ch Hch) as (Hd&Hv&[Hx Hne]&Hsp&_&_). turn HA.
  unfold header_value_start. rewrite decide_False by done. do 6 at_step.
  apply ok_bind. eapply ok_lift; [exact Hx|]. rewrite decide_False by done. apply ok_ask. red_parser.
  rewrite (at_header _ _ _ _ _ _ _ H1), Hd, Hv. apply ok_upd. red_parser.
  unfold value_marks, with_mark, decimal_value. cbn [foldl]. at_done.
Qed.

Lemma parses_length_char pre ch N mk L x y me c w :
  At N s_header_value h_content_length mk (Known L x y me) c w ->
  (N < HTTP_MAX_HEADER_SIZE)%Z -> isdigit ch = true -> (0 <= L)%Z ->
  (L * 10 + (uchar ch - 48) < 2 ^ 63)%Z ->
  parses pre [ch] w (At (N + 1) s_header_value h_content_length mk
    (Known (L * 10 + (uchar ch - 48)) x y me) c).
Proof.
  intros HA HN Hch HL Hmax. destruct (digit_facts ch Hch) as (Hd&Hv&[Hx Hne]&_). turn HA.
  unfold header_value. apply ok_bind. eapply ok_lift; [exact Hx|]. rewrite decide_False by done.
  unfold match_header_value. apply ok_ask. rewrite (at_header _ _ _ _ _ _ _ H1), Hd, Hv.
  unfold add_to_content_length. apply ok_ask. rewrite (at_length _ _ _ _ _ _ _ H1). red_parser.
  assert (Hr : (0 <= uchar ch - 48 <= 9)%Z) by (apply bool_decide_eq_true in Hch; lia).
  apply ok_bind. eapply ok_lift; [unfold ssize_t; by rewrite decide_True by (unfold in_int, int_min, int_max; lia)|].
  apply ok_bind. eapply ok_lift; [unfold ssize_t; by rewrite decide_True by (unfold in_int, int_min, int_max; lia)|].
  apply ok_upd. red_parser. at_done.
Qed.

Lemma decimal_value_prefix x y : Forall (fun c => isdigit c = true) (x ++ y) ->
  (0 <= decimal_value x <= decimal_value (x ++ y))%Z.
Proof.
  induction y as [|a y IH] using rev_ind; intros H.
  - rewrite app_nil_r in *. pose proof (decimal_value_range x H). lia.
  - rewrite app_assoc in *. apply Forall_app in H as [H Ha]. rewrite Forall_singleton in Ha.
    apply isdigit_range in Ha. specialize (IH H). rewrite decimal_value_snoc. lia.
Qed.

(** The header of the length: [n] its digits. *)
Lemma parses_length pre n len N h L x y me c w : is_decimal n len -> (len < 2 ^ 63)%Z ->
  At N s_header_field_start h none (Known L x y me) c w ->
  (N + Z.of_nat (length (header_text (B "Content-Length", n))) <= HTTP_MAX_HEADER_SIZE)%Z ->
  parses pre (header_text (B "Content-Length", n)) w
    (At (N + Z.of_nat (length (header_text (B "Content-Length", n)))) s_header_field_start
      h_content_length none (Known len x y me) (c ++ header_events (B "Content-Length", n))).
Proof.
  intros (Hne&Hdig&Hval&Hz) Hlen HA HN.
  pose proof sizes as Hsz. pose proof (at_nread _ _ _ _ _ _ _ HA) as Hn.
  destruct n as [|ch l]; [done|]. unfold header_text in *. cbn [fst snd] in *.
  replace (B "Content-Length" ++ B ": " ++ (ch :: l) ++ crlf)
    with ((B "Content-Length" ++ B ": ") ++ [ch] ++ l ++ crlf) in * by by rewrite <- app_assoc.
  assert (Hcrlf : length crlf = 2) by done. assert (Hname : length (B "Content-Length") = 14) by done.
  assert (Hsep : length (B ": ") = 2) by done.
  assert (Hlens : length ((B "Content-Length" ++ B ": ") ++ [ch] ++ l ++ crlf) = 19 + length l)
    by (rewrite !length_app; cbn [length]; lia).
  rewrite Hlens in *. clear Hlens.
  eapply (parses_app _ (B "Content-Length" ++ B ": ") _ _
    (At (N + 16) s_header_value_start h_content_length none (Known L x y me)
      (c ++ [on_field f_header_field (B "Content-Length")]))).
  { eapply parses_mono.
    - eapply (parses_name _ "C"%char (tail (B "Content-Length")) _ _ _ _ _ 13 h_content_length);
        [|exact HA| |by vm_compute].
      + split; [by do 2 eexists|]. by repeat constructor.
      + change (length _) with 14. lia.
    - intros w1 H1. eapply at_weaken; [exact H1|]. change (length _) with 14. lia. }
  intros w1 H1. eapply parses_app.
  { eapply parses_length_start; [exact H1|lia|]. by apply Forall_cons in Hdig as [? _]. }
  intros w2 H2. set (mk := value_marks _) in H2. set (c1 := c ++ _) in H1, H2.
  eapply (parses_app _ l _ _ (At (N + 17 + Z.of_nat (length l))
    s_header_value h_content_length mk (Known len x y me) c1)).
  - rewrite <- Hval. apply (parses_each (fun l => At (N + 17 + Z.of_nat (length l))
      s_header_value h_content_length mk (Known (decimal_value (ch :: l)) x y me) c1));
      [|eapply at_weaken; [exact H2|cbn [length]; lia]].
    intros u a v pre' w' -> HA'. rewrite app_comm_cons in Hdig, Hval. rewrite app_comm_cons.
    pose proof (decimal_value_prefix (ch :: u) (a :: v) Hdig) as H0.
    replace ((ch :: u) ++ a :: v) with (((ch :: u) ++ [a]) ++ v) in Hdig, Hval
      by by rewrite <- app_assoc.
    pose proof (decimal_value_prefix _ _ Hdig) as Hle. rewrite Hval, decimal_value_snoc in Hle.
    rewrite length_app in HN. cbn [length] in HN.
    apply Forall_app in Hdig as [[_ Ha]%Forall_app _]. rewrite Forall_singleton in Ha.
    rewrite decimal_value_snoc.
    eapply parses_mono; [eapply parses_length_char; [exact HA'|lia|done|lia|lia]|].
    intros w3 H3. eapply at_weaken; [exact H3|]. rewrite length_app. cbn [length]. lia.
  - intros w3 H3. eapply parses_mono; [eapply parses_value_end; [by right|exact H3|lia|..]|].
    + rewrite !length_app. lia.
    + rewrite !length_app. cbn [length]. lia.
    + intros w4 H4. unfold c1 in H4. rewrite <- (app_assoc _ [ch] l), drop_app_length, <- app_assoc in H4.
      eapply at_weaken; [exact H4|lia].
Qed.
(** ** The end of the headers, and the body *)

Lemma flags_0 n : Z.land 0 n = 0%Z.
Proof. apply Z.land_0_l. Qed.

Lemma NEW_MESSAGE_at N st h mk L me c w : At N st h mk (Known L 1 1 me) c w -> st <> s_start_req ->
  NEW_MESSAGE strict (parser w) = s_start_req.
Proof.
  intros HA Hst. unfold NEW_MESSAGE, http_should_keep_alive, start_state.
  rewrite (at_type _ _ _ _ _ _ _ HA), (at_flags _ _ _ _ _ _ _ HA Hst), (at_major _ _ _ _ _ _ _ HA),
    (at_minor _ _ _ _ _ _ _ HA), flags_0. by destruct strict.
Qed.

(** A message is complete. *)
Lemma ok_complete N st h mk L me c w p (Q : unit -> run -> Prop) :
  At N st h mk (Known L 1 1 me) c w -> st <> s_start_req ->
  (forall w', At N s_start_req h mk (Known L 1 1 me) (c ++ [on_message_complete]) w' -> Q () w') ->
  ok (CALLBACK2 settings on_message_complete p;; new_message strict) w Q.
Proof.
  intros HA Hst HQ. apply ok_bind, ok_CALLBACK2. unfold new_message. apply ok_ask. red_parser.
  rewrite (NEW_MESSAGE_at _ _ _ _ _ _ _ _ HA Hst). apply ok_upd, HQ. red_parser. at_done.
Qed.

Lemma parses_headers_end pre N h L me c w :
  At N s_header_field_start h none (Known L 1 1 me) c w -> (N + 2 <= HTTP_MAX_HEADER_SIZE)%Z ->
  parses pre crlf w (fun w' =>
    if decide (0 < L)%Z
    then At 0 s_body_identity h none (Known L 1 1 me) (c ++ [on_headers_complete]) w'
         /\ body_read (parser w') = 0%Z
    else At 0 s_start_req h none (Known L 1 1 me)
      (c ++ [on_headers_complete; on_message_complete]) w').
Proof.
  intros HA HN. change crlf with ([CR] ++ [LF]).
  goes s_headers_almost_done (Known L 1 1 me).
  { unfold header_field_start. repeat at_step. at_done. }
  turn HA. unfold headers_almost_done, STRICT_CHECK. apply ok_bind.
  change (bool_decide (LF <> LF)) with false. rewrite andb_false_r. at_step. at_step.
  rewrite (at_flags _ _ _ _ _ _ _ H1 ltac:(done)), flags_0. rewrite decide_False by (intros []; done).
  do 6 at_step. at_step. red_parser.
  set (w2 := MkRun _ _).
  assert (H2 : At 0 s_headers_almost_done h none (Known L 1 1 me) (c ++ [on_headers_complete]) w2
    /\ body_read (parser w2) = 0%Z) by (split; [unfold w2; at_done|done]).
  clearbody w2. destruct H2 as [H2 Hbr].
  rewrite (at_flags _ _ _ _ _ _ _ H1 ltac:(done)), flags_0, (at_length _ _ _ _ _ _ _ H1), (at_type _ _ _ _ _ _ _ H1).
  rewrite decide_False by (intros []; done). red_parser.
  assert (Hdone : ok (CALLBACK2 settings on_message_complete (length (pre ++ [CR]));; new_message strict) w2
    (fun _ => At 0 s_start_req h none (Known L 1 1 me) (c ++ [on_headers_complete; on_message_complete]))).
  { eapply ok_complete; [exact H2|done|]. intros w3 H3. by rewrite <- app_assoc in H3. }
  destruct (decide (L = 0)%Z) as [->|HL]; [exact Hdone|].
  case_decide; [|exact Hdone]. apply ok_upd. split; [at_done|done].
Qed.

Lemma parses_body pre b N h me c w : b <> [] -> (Z.of_nat (length b) < 2 ^ 63)%Z ->
  At N s_body_identity h none (Known (Z.of_nat (length b)) 1 1 me) c w ->
  body_read (parser w) = 0%Z -> (N < HTTP_MAX_HEADER_SIZE)%Z ->
  parses pre b w (At (N + 1) s_start_req h none (Known (Z.of_nat (length b)) 1 1 me)
    (c ++ [on_body b; on_message_complete])).
Proof.
  intros Hb Hlen HA Hbr HN post. pose proof (at_bump _ _ _ _ _ _ _ HA HN) as H1.
  destruct b as [|ch b]; [done|]. set (t := ch :: b) in *.
  assert (Hpos : (0 < Z.of_nat (length t))%Z) by (cbn; lia).
  pose proof (body_identity_eq strict settings Hset (pre ++ t ++ post) (length pre) (bump w)) as E.
  cbn zeta in E. rewrite (at_length _ _ _ _ _ _ _ H1) in E.
  change (body_read (parser (bump w))) with (body_read (parser w)) in E. rewrite Hbr in E.
  cbn [k_length] in E. rewrite Z.sub_0_r, Z.add_0_l, Z.min_r in E
    by (unfold left_from; rewrite !length_app; lia).
  specialize (E Hpos). unfold ssize_t in E.
  rewrite decide_True in E by (unfold in_int, int_min, int_max; lia).
  cbn iota zeta in E. rewrite decide_True in E by done. rewrite Nat2Z.id in E.
  set (q1 := set_body_read _ _) in E.
  assert (H2 : At (N + 1) s_body_identity h none (Known (Z.of_nat (length t)) 1 1 me)
    (c ++ [on_body t]) (MkRun q1 (calls (bump w) ++ [on_body t]))) by (unfold q1; at_done).
  pose proof (NEW_MESSAGE_at _ _ _ _ _ _ _ _ H2 ltac:(done)) as Hnew. cbn [parser] in Hnew. rewrite Hnew in E.
  assert (Htext : slice (pre ++ t ++ post) (length pre) (length pre + length t) = t).
  { unfold slice. by rewrite Nat.add_sub', drop_app_length, take_app_length. }
  rewrite Htext in E.
  assert (Esw : switch strict settings (pre ++ t ++ post) ch (length pre) (bump w)
    = Ret (inl (length pre + length t), MkRun (set_state_of s_start_req q1)
        ((calls (bump w) ++ [on_body t]) ++ [on_message_complete]))).
  { rewrite switch_body; rewrite (at_state _ _ _ _ _ _ _ H1); [|done]. rewrite E.
    by replace (S (length pre + length t - 1)) with (length pre + length t) by lia. }
  eexists. split.
  - rewrite length_app. eapply (reaches_step _ _ _ ch _ _ (length t));
      [|apply step_intro; [|exact Esw]| |apply reaches_refl].
    + by rewrite lookup_app_r, Nat.sub_diag by lia.
    + rewrite (at_state _ _ _ _ _ _ _ HA). apply andb_false_r.
    + lia.
  - clear E Esw Htext Hnew. rewrite (at_calls _ _ _ _ _ _ _ H1), <- app_assoc. at_done.
Qed.
(** ** A request, and requests *)

(** Between two requests. *)
Definition idle (m : option http_method) (c : list event) (w : run) : Prop :=
  exists h k, k_method k = m /\ At 1 s_start_req h none k c w.

(** The text of the length, and its calls. *)
Definition length_headers (r : request) : list (bytes * bytes) :=
  from_option (fun nb => [(B "Content-Length", nb.1)]) [] (r_body r).

Lemma head_text_parts r : head_text r = (method_text (r_method r) ++ B " ") ++ (target r ++ B " ")
  ++ (B "HTTP/1.1" ++ crlf) ++ (r_headers r ≫= header_text) ++ (length_headers r ≫= header_text) ++ crlf.
Proof.
  unfold head_text, all_headers, length_headers. rewrite bind_app, <- !app_assoc.
  change (B " HTTP/1.1") with (B " " ++ B "HTTP/1.1"). by rewrite <- !app_assoc.
Qed.

Lemma parses_request_line pre r N h k c w : request_ok r ->
  At N s_start_req h none k c w ->
  (N + Z.of_nat (length (head_text r)) <= HTTP_MAX_HEADER_SIZE)%Z ->
  let line := (method_text (r_method r) ++ B " ") ++ (target r ++ B " ") ++ (B "HTTP/1.1" ++ crlf) in
  parses pre line w (At (N + Z.of_nat (length line)) s_header_field_start h none
      (Known (-1) 1 1 (Some (r_method r))) (c ++ on_message_begin :: target_events r)).
Proof.
  intros Hr HA HN line. unfold line. destruct Hr as [Hm Hp Hq _ _ _].
  rewrite head_text_parts, !length_app, !Nat2Z.inj_add in HN. rewrite !length_app, !Nat2Z.inj_add.
  change (length (B "HTTP/1.1")) with 8 in *.
  change (length crlf) with 2 in *. change (length (B " ")) with 1 in *.
  eapply parses_app; [eapply parses_method; [done|exact HA|lia]|]. intros w1 H1.
  rewrite !length_app, !Nat2Z.inj_add in H1. change (length (B " ")) with 1 in H1.
  eapply parses_app; [eapply parses_target; [done..|exact H1|lia]|]. intros w2 H2.
  rewrite !length_app, !Nat2Z.inj_add in H2. change (length (B " ")) with 1 in H2.
  eapply parses_mono; [eapply parses_version; [exact H2|lia]|]. intros w3 H3.
  rewrite <- app_assoc in H3. eapply at_weaken; [exact H3|lia].
Qed.

(** The length the parser knows of the body. *)
Definition body_length (r : request) : Z :=
  from_option (fun nb => Z.of_nat (length nb.2)) (-1)%Z (r_body r).

Lemma parses_length_headers pre r N h me c w : request_ok r ->
  At N s_header_field_start h none (Known (-1) 1 1 me) c w ->
  (N + Z.of_nat (length (length_headers r ≫= header_text)) <= HTTP_MAX_HEADER_SIZE)%Z ->
  parses pre (length_headers r ≫= header_text) w (fun w' => exists h',
    At (N + Z.of_nat (length (length_headers r ≫= header_text))) s_header_field_start h' none
      (Known (body_length r) 1 1 me) (c ++ (length_headers r ≫= header_events)) w').
Proof.
  intros Hr HA HN. pose proof (ok_body _ Hr) as Hb. unfold length_headers, body_length in *.
  destruct (r_body r) as [[n b]|]; cbn [from_option fst snd] in *.
  - destruct Hb as [Hdec Hlen]. rewrite !bind_singleton in *.
    eapply parses_mono; [eapply parses_length; [exact Hdec|exact Hlen|exact HA|exact HN]|].
    intros w1 H1. by exists h_content_length.
  - apply parses_nil. exists h. by rewrite Z.add_0_r, app_nil_r.
Qed.

(** The end of the headers with the body. *)
Lemma parses_rest pre r N h me c w : request_ok r ->
  At N s_header_field_start h none (Known (body_length r) 1 1 me) c w ->
  (N + 2 <= HTTP_MAX_HEADER_SIZE)%Z ->
  parses pre (crlf ++ body_of r) w (idle me
    (c ++ on_headers_complete :: body_events (body_of r) ++ [on_message_complete])).
Proof.
  intros Hr HA HN. pose proof (ok_body _ Hr) as Hb. unfold body_length, body_of, body_events in *.
  assert (Hidle : forall N' L c' w', (0 <= N' <= 1)%Z -> At N' s_start_req h none (Known L 1 1 me) c' w' ->
    idle me c' w') by (intros N' L c' w' HN' H'; do 2 eexists; split;
      [|eapply at_weaken; [exact H'|lia]]; done).
  eapply parses_app; [eapply parses_headers_end; [exact HA|done]|]. cbn beta. intros w1 H1.
  destruct (r_body r) as [[n b]|]; cbn [from_option snd fst] in *.
  - destruct b as [|ch b].
    + rewrite decide_False in H1 by (cbn; lia). apply parses_nil. rewrite decide_True by done.
      by eapply (Hidle 0%Z); [lia|].
    + rewrite decide_True in H1 by (cbn; lia). destruct H1 as [H1 Hbr].
      rewrite decide_False by done. eapply parses_mono.
      * eapply parses_body; [done|apply Hb|exact H1|done|done].
      * intros w2 H2. rewrite <- app_assoc in H2. by eapply (Hidle 1%Z); [lia|].
  - rewrite decide_False in H1 by lia. apply parses_nil. rewrite decide_True by done.
    by eapply (Hidle 0%Z); [lia|].
Qed.

Lemma parses_request pre r m c w : request_ok r -> idle m c w ->
  parses pre (request_text r) w (idle (Some (r_method r)) (c ++ request_events r)).
Proof.
  intros Hr (h&k&_&HA). pose proof (ok_size _ Hr) as Hsize.
  unfold request_text, request_events, all_headers. rewrite head_text_parts in *.
  set (line := (method_text (r_method r) ++ B " ") ++ (target r ++ B " ") ++ (B "HTTP/1.1" ++ crlf)).
  replace (((method_text (r_method r) ++ B " ") ++ (target r ++ B " ") ++ (B "HTTP/1.1" ++ crlf) ++
    (r_headers r ≫= header_text) ++ (length_headers r ≫= header_text) ++ crlf) ++ body_of r)
    with (line ++ (r_headers r ≫= header_text) ++ (length_headers r ≫= header_text)
      ++ (crlf ++ body_of r)) by (unfold line; by rewrite <- !app_assoc).
  assert (Hlen : (1 + Z.of_nat (length line) + Z.of_nat (length (r_headers r ≫= header_text))
    + Z.of_nat (length (length_headers r ≫= header_text)) + 2 <= HTTP_MAX_HEADER_SIZE)%Z).
  { unfold line. rewrite !length_app in Hsize. rewrite !length_app.
    change (length crlf) with 2 in *. lia. }
  eapply parses_app.
  { eapply parses_request_line; [done|exact HA|]. rewrite head_text_parts. lia. }
  intros w1 H1. fold line in H1.
  eapply parses_app; [eapply parses_plain_headers; [apply Hr|exact H1|lia]|].
  cbn beta. intros w2 [h2 H2].
  eapply parses_app; [eapply parses_length_headers; [done|exact H2|lia]|].
  cbn beta. intros w3 [h3 H3].
  eapply parses_mono; [eapply parses_rest; [done|exact H3|lia]|].
  intros w4 H4. unfold length_headers in H4. rewrite bind_app.
  rewrite <- !app_assoc in H4. rewrite <- !app_assoc. exact H4.
Qed.
End requests.

(** ** Properties *)

(** The calls for requests, one after the other. *)
Definition requests_events (rs : list request) : list event := rs ≫= request_events.

Definition last_method (m : option http_method) (rs : list request) : option http_method :=
  foldl (fun _ r => Some (r_method r)) m rs.

Lemma parses_requests strict settings (Hset : forall e l, callback_result settings e l = Some 0%Z) rs :
  forall pre m c w, Forall request_ok rs -> idle m c w ->
  parses strict settings pre (rs ≫= request_text) w (idle (last_method m rs) (c ++ requests_events rs)).
Proof.
  unfold requests_events. induction rs as [|r rs IH]; intros pre m c w Hrs HI.
  - apply parses_nil. by rewrite app_nil_r.
  - apply Forall_cons in Hrs as [Hr Hrs]. rewrite !bind_cons.
    eapply parses_app; [by eapply parses_request|]. intros w1 H1.
    eapply parses_mono; [by eapply IH|]. intros w2 H2. by rewrite <- app_assoc in H2.
Qed.

(** A parser that waits for a request: a fresh one, or one that has just read
    a request. *)
Record waiting (q : http_parser) : Prop := {
  wait_state : state_of q = s_start_req;
  wait_type : type q = HTTP_REQUEST;
  wait_nread : (0 <= nread q <= 1)%Z;
  wait_marks f : mark q f = None;
  wait_buffer : length (buffer q) = HTTP_PARSER_MAX_METHOD_LEN;
}.

Lemma waiting_idle s : waiting (parser s) -> idle (method (parser s)) (calls s) (start s).
Proof.
  intros [Hst Ht Hn Hm Hb]. exists (header_state_of (parser s)),
    (Known (content_length (parser s)) (http_major (parser s)) (http_minor (parser s)) (method (parser s))).
  split; [done|]. split; try done. intros f. cbn. by rewrite Hm.
Qed.

Lemma flush_none settings (Hset : forall e l, callback_result settings e l = Some 0%Z) d p w :
  (forall f, mark (parser w) f = None) -> flush settings d p w = Ret (inl (), w).
Proof.
  intros Hm. assert (H : forall f, CALLBACK_NOCLEAR settings d f p w = Ret (inl (), w))
    by (intros f; by rewrite silent_NOCLEAR, Hm).
  unfold flush. by rewrite !(bind_inl _ _ _ _ _ (H _)).
Qed.

(** C12: Callbacks that all return zero are given, for the text of any well-formed
    requests, exactly the calls of these requests, in order: the method is
    recognised, the url, the path and the query string, every header and the
    body are handed over whole; and the parser waits for the next request,
    having consumed the whole text. *)
Theorem requests_in_order strict settings rs s :
  (forall e l, callback_result settings e l = Some 0%Z) ->
  Forall request_ok rs -> rs <> [] -> waiting (parser s) ->
  let text := rs ≫= request_text in
  exists s', http_parser_execute strict settings text s = Ret (length text, s')
    /\ calls s' = calls s ++ requests_events rs
    /\ method (parser s') = last_method (method (parser s)) rs /\ waiting (parser s').
Proof.
  intros Hset Hrs Hne Hw text.
  destruct (parses_requests strict settings Hset rs [] _ _ _ Hrs (waiting_idle s Hw) [])
    as (w&Hr&h&k&Hk&HA).
  rewrite app_nil_r in Hr. cbn [app length] in Hr. fold text in Hr.
  destruct (Hr (S (length text)) ltac:(lia)) as ([|n]&Hn&E); [lia|].
  assert (Hend : loop strict settings text (S n) (length text) w = Ret (inl (length text), w)).
  { cbn [loop]. by rewrite (proj2 (lookup_ge_None _ _)) by lia. }
  rewrite Hend in E.
  exists w. split_and!; [| |by rewrite (at_method _ _ _ _ _ _ _ HA), Hk|].
  - unfold http_parser_execute. rewrite decide_False; cycle 1.
    { intros H0. apply length_zero_iff_nil in H0. destruct rs as [|r rs]; [done|].
      apply Forall_cons in Hrs as [Hr1 _]. destruct (method_ok _ (ok_http_method _ Hr1)) as (_&Hm&_).
      unfold text in H0. rewrite bind_cons in H0. unfold request_text, head_text in H0.
      by destruct (method_text (r_method r)). }
    unfold consume. rewrite (bind_inl _ _ _ _ _ E).
    by rewrite flush_none by (done || apply (at_mark _ _ _ _ _ _ _ HA)).
  - apply (at_calls _ _ _ _ _ _ _ HA).
  - by destruct HA.
Qed.

Definition example_get : request :=
  MkRequest HTTP_GET (B "/search") (Some (B "q=1")) [(B "Host", B "localhost")] None.
Definition example_post : request :=
  MkRequest HTTP_POST (B "/db") None [(B "Accept", B "*/*"); (B "X-Id", B "a b")]
    (Some (B "5", B "hello")).

(** Headers that are plain, decided. *)
Definition plainb (h : bytes * bytes) : bool :=
  from_option is_letter false (head h.1)
  && forallb (fun c => match lowcase c with Ret x => negb (bool_decide (x = NUL)) | Throw _ => false end) h.1
  && bool_decide (map lower h.1 ∉ special_names)
  && forallb (fun c => bool_decide (ascii7 c) && bool_decide (c <> CR) && bool_decide (c <> LF)) h.2
  && from_option (fun c => bool_decide (c <> " "%char)) false (head h.2).

Lemma plainb_ok h : plainb h = true -> plain_header h.
Proof.
  destruct h as [n v]. unfold plainb. cbn [fst snd].
  intros [[[[H1 H2]%andb_prop H3%bool_decide_eq_true]%andb_prop H4]%andb_prop H5]%andb_prop.
  split_and!; cbn [fst snd].
  - split; [destruct n as [|c l]; [done|by exists c, l]|]. rewrite Forall_forall.
    rewrite forallb_forall in H2. intros c Hc%list_elem_of_In. specialize (H2 c Hc).
    unfold name_char, lower. destruct (lowcase c); [|done]. split; [done|].
    by apply negb_true_iff, bool_decide_eq_false in H2.
  - done.
  - split.
    + rewrite Forall_forall. rewrite forallb_forall in H4. intros c Hc%list_elem_of_In.
      specialize (H4 c Hc). apply andb_prop in H4 as [[Ha Hb]%andb_prop Hc'].
      apply bool_decide_eq_true in Ha, Hb, Hc'. done.
    + destruct v as [|c l]; [done|]. exists c, l. split; [done|]. by apply bool_decide_eq_true in H5.
Qed.

Lemma example_requests_ok : Forall request_ok [example_get; example_post].
Proof.
  apply Forall_cons; split; [|apply Forall_singleton]; split; try done.
  - eexists. split; [reflexivity|by repeat constructor].
  - by split; [|repeat constructor].
  - apply (Forall_impl (fun h => plainb h = true)); [by repeat constructor|apply plainb_ok].
  - eexists. split; [reflexivity|by repeat constructor].
  - apply (Forall_impl (fun h => plainb h = true)); [by repeat constructor|apply plainb_ok].
  - split; [|done]. split; [done|]. by split; [repeat constructor|].
Qed.

Definition example_text : bytes := [example_get; example_post] ≫= request_text.

Lemma requests_in_order_witness : exists s',
  http_parser_execute true silent example_text example_run = Ret (length example_text, s')
  /\ calls s' = requests_events [example_get; example_post]
  /\ method (parser s') = Some HTTP_POST.
Proof.
  destruct (requests_in_order true silent [example_get; example_post] example_run)
    as (s'&E&Hc&Hm&_).
  - by intros [].
  - exact example_requests_ok.
  - done.
  - by split.
  - exists s'. split_and!; [exact E|exact Hc|exact Hm].
Defined.
