(* ===== verification/ServerH.v ===== *)
(** * src/server/server.h: messages, and what the server and the dispatcher
      promise each other

    [Message] is the struct of that name.  A dispatcher's calls of the
    logger, of [Dispatcher::send_response] and of
    [Dispatcher::send_to_worker] are the events of type [action] it emits;
    none of them returns a value to it.  The virtual methods are the fields
    of the class [Dispatcher], and [DispatcherLaws] is what the server's main
    loop and the worker pool rely on. *)

From S2P Require Import Prelude.

(** [struct Message] *)
Record Message := MkMessage {
  connection_num : Z;
  msgid : bytes;
  target : bytes;
  payload : bytes;
}.

#[export] Instance Message_eq_dec : EqDecision Message.
Proof. solve_decision. Defined.

(** [Message(int connection_num_)] *)
Definition new_Message (connection_num_ : Z) : Message := MkMessage connection_num_ [] [] [].

(** What a dispatcher does while it handles requests. *)
Inductive action :=
| Log (type : ascii) (msg : bytes)
| SendResponse (connection_num : Z) (msg : bytes)
| SendToWorker (group : bytes) (msg : Message).

#[export] Instance action_eq_dec : EqDecision action.
Proof. solve_decision. Defined.

(** [class Dispatcher]; [worker] is the type of the [Worker] objects it makes
    and [None] the null pointer. *)
Class Dispatcher (worker : Type) := {
  (** The result and the new contents of [buf]. *)
  dispatch_request (connection_num : Z) (buf : bytes) : eff action (bool * bytes);
  get_worker (group : bytes) (current_workers : Z) : option worker;
}.

(** The groups a trace of actions sends messages to. *)
Definition groups (l : list action) : list bytes :=
  omap (fun a => match a with SendToWorker g _ => Some g | _ => None end) l.

Definition messages (l : list action) : list Message :=
  omap (fun a => match a with SendToWorker _ m => Some m | _ => None end) l.

Definition responses (l : list action) : list (Z * bytes) :=
  omap (fun a => match a with SendResponse c m => Some (c, m) | _ => None end) l.

(** What a call does, its log entries apart. *)
Definition visible_action (a : action) : bool :=
  match a with Log _ _ => false | _ => true end.
Definition visible (l : list action) : list action := List.filter visible_action l.

Lemma visible_app l1 l2 : visible (l1 ++ l2) = visible l1 ++ visible l2.
Proof. apply List.filter_app. Qed.

(** The bound on buffers under which sizes fit their types. *)
Definition fits_memory (buf : bytes) : Prop := (Z.of_nat (length buf) < 2 ^ 31)%Z.

(** What a dispatcher guarantees to the server and to the worker pool. *)
Class DispatcherLaws (worker : Type) `{Dispatcher worker} := {
  (** A call returns, leaves a suffix of the buffer, and a strictly shorter
      one when it reports that it found a request. *)
  dispatch_request_returns c buf :
    fits_memory buf ->
    exists found buf', result (dispatch_request c buf) = Ret (found, buf')
      /\ buf' `suffix_of` buf
      /\ (found = true -> length buf' < length buf);
  (** Messages only go to groups a worker can be made for. *)
  dispatch_request_groups c buf g n :
    fits_memory buf -> g ∈ groups (events (dispatch_request c buf)) -> is_Some (get_worker g n);
  (** Messages and responses carry the number of the connection. *)
  dispatch_request_connection c buf :
    fits_memory buf -> Forall (fun m => connection_num m = c) (messages (events (dispatch_request c buf)))
    /\ Forall (fun r => r.1 = c) (responses (events (dispatch_request c buf)));
}.

(** The loop of [ServerInternal::mainloop] that dispatches all the requests
    of a connection's buffer: [while (dispatcher->dispatch_request(...)) {}]. *)
Fixpoint dispatch_all `{Dispatcher worker} (fuel : nat) (connection_num : Z) (buf : bytes)
    : eff action bytes :=
  match fuel with
  | 0 => lift_outcome (Throw OutOfFuel)
  | S fuel' =>
      '(found, buf) ← dispatch_request connection_num buf;
      if (found : bool) then dispatch_all fuel' connection_num buf else mret buf
  end.

(** The reads of a connection, each followed by the dispatch loop. *)
Fixpoint receive `{Dispatcher worker} (c : Z) (buf : bytes) (chunks : list bytes)
    : eff action bytes :=
  match chunks with
  | [] => mret buf
  | chunk :: chunks' =>
      buf ← dispatch_all (S (length (buf ++ chunk))) c (buf ++ chunk);
      receive c buf chunks'
  end.

Lemma suffix_fits (buf buf' : bytes) : buf' `suffix_of` buf -> fits_memory buf -> fits_memory buf'.
Proof. intros Hs%suffix_length. unfold fits_memory. lia. Qed.

(** Every request found shortens the buffer, so the loop ends. *)
Lemma dispatch_all_returns `{DispatcherLaws worker} fuel c buf :
  fits_memory buf -> length buf < fuel ->
  exists buf', result (dispatch_all fuel c buf) = Ret buf' /\ buf' `suffix_of` buf.
Proof.
  revert buf. induction fuel as [|fuel IH]; intros buf Hb Hf; [lia|].
  destruct (dispatch_request_returns c buf Hb) as (found&b&E&Hs&Hlt).
  cbn [dispatch_all]. destruct (dispatch_request c buf) as [l r]. simpl in E. subst r.
  rewrite eff_bind_pair. cbn [result snd]. destruct found; [|by exists b].
  specialize (Hlt eq_refl). destruct (IH b) as (b'&E'&Hs'); [by eapply suffix_fits|lia|].
  exists b'. split; [done|]. by trans b.
Qed.

Lemma groups_app l1 l2 : groups (l1 ++ l2) = groups l1 ++ groups l2.
Proof. apply omap_app. Qed.
Lemma messages_app l1 l2 : messages (l1 ++ l2) = messages l1 ++ messages l2.
Proof. apply omap_app. Qed.
Lemma responses_app l1 l2 : responses (l1 ++ l2) = responses l1 ++ responses l2.
Proof. apply omap_app. Qed.

#[export] Hint Rewrite @groups_app @messages_app @responses_app @visible_app : xap.

(** What an action other than a log entry is for. *)
Definition concerns (n : Z) (a : action) : Prop :=
  match a with
  | Log _ _ => False
  | SendResponse c _ => c = n
  | SendToWorker _ m => connection_num m = n
  end.

#[export] Instance concerns_dec n a : Decision (concerns n a).
Proof. destruct a; simpl; apply _. Defined.

Lemma visible_concerns n l : Forall (fun m => connection_num m = n) (messages l) ->
  Forall (fun r => r.1 = n) (responses l) -> Forall (concerns n) (visible l).
Proof.
  induction l as [|[t m|c m|g m] l IH]; cbn; [constructor|auto|..].
  - intros Hm [Hc Hr]%Forall_cons. constructor; auto.
  - intros [Hc Hm]%Forall_cons Hr. constructor; auto.
Qed.

(** What the loop does is for its connection. *)
Lemma dispatch_all_concerns `{DispatcherLaws worker} fuel c buf :
  fits_memory buf -> Forall (concerns c) (visible (events (dispatch_all fuel c buf))).
Proof.
  revert buf. induction fuel as [|fuel IH]; intros buf Hb; [by constructor|].
  destruct (dispatch_request_returns c buf Hb) as (found&b&E&Hs&_).
  destruct (dispatch_request_connection c buf Hb) as [Hm Hc].
  cbn [dispatch_all]. destruct (dispatch_request c buf) as [l r]. simpl in E, Hm, Hc. subst r.
  rewrite eff_bind_pair. cbn [events fst]. rewrite visible_app. apply Forall_app.
  split; [by apply visible_concerns|]. destruct found; [|constructor]. apply IH. by eapply suffix_fits.
Qed.

Lemma visible_responses l : responses (visible l) = responses l.
Proof. induction l as [|[t m|c m|g m] l IH]; [done|exact IH|exact (f_equal (cons (c, m)) IH)|exact IH]. Qed.

(** The responses the loop causes are for its connection. *)
Lemma dispatch_all_connection `{DispatcherLaws worker} fuel c buf :
  fits_memory buf -> Forall (fun r => r.1 = c) (responses (events (dispatch_all fuel c buf))).
Proof.
  intros Hb. rewrite <- visible_responses.
  induction (dispatch_all_concerns fuel c buf Hb) as [|[t m|c' m|g m] l Ha _ IH]; cbn; [constructor|done|by constructor|done].
Qed.

(** Reads in turn. *)
Lemma receive_app `{Dispatcher worker} c x y : forall buf,
  receive c buf (x ++ y) = buf ← receive c buf x; receive c buf y.
Proof.
  induction x as [|chunk x IH]; intros buf; cbn [app receive]; [by rewrite eff_bind_ret|].
  rewrite eff_bind_assoc. destruct (dispatch_all _ _ _) as [l [b|e]]; [|done].
  by rewrite !eff_bind_pair, IH.
Qed.
