(* ===== verification/Dispatch.v ===== *)
(** * src/xappy/dispatch.cc: the request protocol and the routing of requests *)

From S2P Require Import Prelude CxxString Str JsonValue JsonWriter ServerH.

Definition MAX_MSG_LEN_LEN : nat := 9.

(** [XappyDispatcher::get_worker]'s objects: [SearchWorker] and
    [IndexerWorker] with its [dbname]. *)
Inductive XappyWorker :=
| SearchWorker
| IndexerWorker (dbname : bytes).

#[export] Instance XappyWorker_eq_dec : EqDecision XappyWorker.
Proof. solve_decision. Defined.

(** [split_target], from position [i] on. *)
Fixpoint split_target_loop (fuel : nat) (target : bytes) (i : nat)
    (components : list bytes) : outcome (list bytes) :=
  match fuel with
  | 0 => Throw OutOfFuel
  | S fuel' =>
      match find target "/"%char i with
      | None => s ← substr_from target i; Ret (components ++ [s])
      | Some j =>
          s ← substr target i (j - i);
          split_target_loop fuel' target (j + 1) (components ++ [s])
      end
  end.

Definition split_target (target : bytes) : outcome (list bytes) :=
  split_target_loop (S (length target)) target 0 [].

(** The [while] that skips the whitespace between messages. *)
Fixpoint skip_space_loop (fuel : nat) (buf : bytes) (pos : nat) : nat :=
  match fuel, buf !! pos with
  | S fuel', Some c => if isspace c then skip_space_loop fuel' buf (S pos) else pos
  | _, _ => pos
  end.

Definition skip_space (buf : bytes) (pos : nat) : nat :=
  skip_space_loop (length buf - pos) buf pos.

(** The [while] that reads the length: [msglen] is an [int]. *)
Fixpoint read_length (fuel : nat) (buf : bytes) (max_msg_len_len pos : nat) (msglen : Z)
    : outcome (Z * nat) :=
  match fuel with
  | 0 => Throw OutOfFuel
  | S fuel' =>
      if decide (pos < max_msg_len_len) then
        c ← char_at buf pos;
        if isdigit c then
          let msglen := (msglen * 10 + (schar c - 48))%Z in
          if decide (in_int 32 msglen)
          then read_length fuel' buf max_msg_len_len (S pos) msglen
          else Throw IntOverflow
        else Ret (msglen, pos)
      else Ret (msglen, pos)
  end.

Section XappyDispatcher.
(** The version string and [sprintf] of doubles are outside the sources. *)
Variable VERSION : bytes.
Variable sprintf_g16 : double -> bytes.

Definition log (type : ascii) (msg : bytes) : eff action unit := emit (Log type msg).
Definition send_response (connection_num : Z) (msg : bytes) : eff action unit :=
  emit (SendResponse connection_num msg).
Definition send_to_worker (group : bytes) (msg : Message) : eff action unit :=
  emit (SendToWorker group msg).

(** The [Json::Value] both error responses build, written. *)
Definition error_json (payload : bytes) : outcome bytes :=
  root ← set_member VNull (B "ok") (VInt 0);
  root ← set_member root (B "msg") (Value_of_string payload);
  write sprintf_g16 false root.

Definition send_fatal_error (connection_num : Z) (payload : bytes) : eff action unit :=
  body ← lift_outcome (error_json payload);
  len ← lift_outcome (str_size (length payload + 1));
  send_response connection_num (len ++ B " F" ++ body).

Definition send_msg_response (connection_num : Z) (msgid : bytes) (status : ascii)
    (payload : bytes) : eff action unit :=
  log "E" (B "Sending response to msgid: '" ++ msgid ++ B "'");;
  let buf := B " " ++ msgid ++ B " " ++ [status] ++ payload in
  len ← lift_outcome (str_size (length buf - 1));
  send_response connection_num (len ++ buf).

Definition send_error_response (msg : Message) (payload : bytes) : eff action unit :=
  body ← lift_outcome (error_json payload);
  send_msg_response (connection_num msg) (msgid msg) "E" body.

Definition get_worker (group : bytes) (current_workers : Z) : option XappyWorker :=
  if decide (group = B "search") then Some SearchWorker
  else if startswith group (B "indexer") then
    match substr_from group 7 with
    | Ret dbname => Some (IndexerWorker dbname)
    | Throw _ => None
    end
  else None.

(** [i >= end] for the result of a [find]: [npos] is past every end. *)
Definition at_or_past (i : option nat) (end_ : nat) : bool :=
  match i with None => true | Some i => bool_decide (end_ <= i) end.

Definition build_message (msg : Message) (buf : bytes) (pos msglen : nat)
    : eff action (bool * Message) :=
  let end_ := pos + msglen in
  let i := find buf " "%char pos in
  if at_or_past i end_ then
    log "E" (B "Invalid message: no target or payload");;
    send_fatal_error (connection_num msg) (B "Invalid message");;
    mret (false, msg)
  else
    let i := default 0 i in
    let j := find buf " "%char (i + 1) in
    if at_or_past j end_ then
      log "E" (B "Invalid message: no payload");;
      send_fatal_error (connection_num msg) (B "Invalid message");;
      mret (false, msg)
    else
      let j := default 0 j in
      msgid ← lift_outcome (substr buf pos (i - pos));
      target ← lift_outcome (substr buf (i + 1) (j - (i + 1)));
      payload ← lift_outcome (substr buf (j + 1) (end_ - (j + 1)));
      mret (true, MkMessage (connection_num msg) msgid target payload).

(** [components.size() >= 2 && components[0] == "db"], and then
    [components[1]]. *)
Definition db_component (components : list bytes) : option bytes :=
  match components with
  | c0 :: c1 :: _ => if decide (c0 = B "db") then Some c1 else None
  | _ => None
  end.

Definition route_message (connection_num : Z) (buf : bytes) (pos msglen : nat)
    : eff action unit :=
  '(ok, msg) ← build_message (new_Message connection_num) buf pos msglen;
  if negb ok then mret ()
  else match ServerH.target msg with
  | [] =>
      log "E" (B "Invalid message: empty target");;
      send_error_response msg (B "Invalid message")
  | kind :: _ =>
      target ← lift_outcome (substr_from (ServerH.target msg) 1);
      components ← lift_outcome (split_target target);
      if decide (kind = "G"%char) then
        if decide (target = B "version")
        then send_msg_response connection_num (msgid msg) "S" VERSION
        else match db_component components with
        | Some db =>
            log "I" (B "Got request on db '" ++ db ++ B "'");;
            send_to_worker (B "search") msg
        | None => send_error_response msg (B "Not found")
        end
      else if decide (kind = "P"%char) then send_error_response msg (B "Not found")
      else if decide (kind = "U"%char) then
        match db_component components with
        | Some db =>
            log "I" (B "Got request on db '" ++ db ++ B "'");;
            send_to_worker (B "indexer_" ++ db) msg
        | None => send_error_response msg (B "Not found")
        end
      else if decide (kind = "D"%char) then send_error_response msg (B "Not found")
      else
        log "E" (B "Unknown message type: '" ++ [kind] ++ B "'");;
        send_error_response msg (B "Invalid message")
  end.

(** The [while(true)] of [dispatch_request]: the final [startpos] and
    [found]. *)
Fixpoint dispatch_loop (fuel : nat) (connection_num : Z) (buf : bytes) (pos : nat)
    (found : bool) : eff action (nat * bool) :=
  match fuel with
  | 0 => lift_outcome (Throw OutOfFuel)
  | S fuel' =>
      let size := length buf in
      let pos := skip_space buf pos in
      let startpos := pos in
      let max_msg_len_len := if decide (size < MAX_MSG_LEN_LEN) then size
                             else MAX_MSG_LEN_LEN in
      '(msglen, pos) ← lift_outcome (read_length (S size) buf max_msg_len_len pos 0);
      if decide (size <= pos) then mret (startpos, found)
      else
        c ← lift_outcome (char_at buf pos);
        if decide (c <> " "%char) then
          match find_first_of buf ["010"%char; "013"%char] pos with
          | Some pos =>
              n ← lift_outcome (str_size (pos - startpos));
              text ← lift_outcome (substr buf startpos (pos - startpos));
              log "E" (B "Resyncing - skipping " ++ n ++ B " characters: " ++ [dquote]
                       ++ text ++ [dquote]);;
              send_fatal_error connection_num (B "Invalid message");;
              dispatch_loop fuel' connection_num buf pos found
          | None => mret (startpos, found)
          end
        else
          let pos := S pos in
          if decide (size < pos + Z.to_nat msglen) then mret (startpos, found)
          else
            route_message connection_num buf pos (Z.to_nat msglen);;
            dispatch_loop fuel' connection_num buf (pos + Z.to_nat msglen) true
  end.

Definition dispatch_request (connection_num : Z) (buf : bytes) : eff action (bool * bytes) :=
  '(startpos, found) ← dispatch_loop (S (length buf)) connection_num buf 0 false;
  if decide (startpos <> 0) then
    n ← lift_outcome (str_size startpos);
    left ← lift_outcome (str_size (length buf - startpos));
    log "D" (B "Dealt with " ++ n ++ B " characters in buffer, " ++ left ++ B " characters left");;
    mret (found, erase_front buf startpos)
  else
    n ← lift_outcome (str_size (length buf));
    log "D" (n ++ B " characters in buffer");;
    mret (found, buf).

End XappyDispatcher.

(** ** The scanning loops *)

Lemma skip_space_loop_spec fuel buf pos :
  length buf - pos <= fuel ->
  let p := skip_space_loop fuel buf pos in
  pos <= p /\ (pos <= length buf -> p <= length buf)
  /\ Forall (fun c => isspace c = true) (take (p - pos) (drop pos buf))
  /\ (forall c, buf !! p = Some c -> isspace c = false).
Proof.
  revert pos. induction fuel as [|fuel IH]; intros pos Hf; simpl.
  - rewrite Nat.sub_diag. split_and!; [lia|lia|constructor|].
    intros c Hc%lookup_lt_Some. lia.
  - destruct (buf !! pos) as [c|] eqn:Hc.
    + destruct (isspace c) eqn:Hs.
      * destruct (IH (S pos)) as (H1&H2&H3&H4); [lia|].
        set (p := skip_space_loop fuel buf (S pos)) in *.
        pose proof (lookup_lt_Some _ _ _ Hc). split_and!; [lia|lia| |done].
        rewrite (drop_S _ _ _ Hc). replace (p - pos) with (S (p - S pos)) by lia.
        by constructor.
      * rewrite Nat.sub_diag. split_and!; [lia|lia|constructor|].
        intros d Hd. congruence.
    + rewrite Nat.sub_diag. split_and!; [lia|lia|constructor|congruence].
Qed.

Lemma skip_space_spec buf pos :
  let p := skip_space buf pos in
  pos <= p /\ (pos <= length buf -> p <= length buf)
  /\ Forall (fun c => isspace c = true) (take (p - pos) (drop pos buf))
  /\ (forall c, buf !! p = Some c -> isspace c = false).
Proof. apply skip_space_loop_spec. lia. Qed.

(** No whitespace at [pos]: nothing is skipped. *)
Lemma skip_space_stay buf pos c :
  buf !! pos = Some c -> isspace c = false -> skip_space buf pos = pos.
Proof.
  intros Hc Hs. unfold skip_space. destruct (length buf - pos); [done|].
  simpl. by rewrite Hc, Hs.
Qed.

Lemma schar_digit c : isdigit c = true -> schar c = uchar c.
Proof.
  intros Hc%isdigit_range. unfold schar. by rewrite decide_True by lia.
Qed.

(** The value read so far, [m], stays below a power of ten bounded by the
    position, since the digits are below index 9: it never overflows. *)
Lemma read_length_spec fuel buf max pos m :
  max <= length buf -> max <= 9 -> max - pos < fuel ->
  (0 <= m < 10 ^ Z.of_nat (Nat.min pos 9))%Z ->
  exists v p, read_length fuel buf max pos m = Ret (v, p)
    /\ pos <= p /\ (p <= max \/ p = pos) /\ (0 <= v < 10 ^ 9)%Z
    /\ Forall (fun c => isdigit c = true) (take (p - pos) (drop pos buf))
    /\ v = foldl (fun acc c => acc * 10 + (uchar c - 48))%Z m (take (p - pos) (drop pos buf))
    /\ (p < max -> exists c, buf !! p = Some c /\ isdigit c = false).
Proof.
  revert pos m. induction fuel as [|fuel IH]; intros pos m Hm H9 Hf Hr; [lia|].
  assert (Hmax : (m < 10 ^ 9)%Z).
  { eapply Z.lt_le_trans; [apply Hr|]. change 9%Z with (Z.of_nat 9).
    apply Z.pow_le_mono_r; lia. }
  assert (Hstop : (pos < max -> exists c, buf !! pos = Some c /\ isdigit c = false) ->
    exists v p, Ret (m, pos) = Ret (v, p)
    /\ pos <= p /\ (p <= max \/ p = pos) /\ (0 <= v < 10 ^ 9)%Z
    /\ Forall (fun c => isdigit c = true) (take (p - pos) (drop pos buf))
    /\ v = foldl (fun acc c => acc * 10 + (uchar c - 48))%Z m (take (p - pos) (drop pos buf))
    /\ (p < max -> exists c, buf !! p = Some c /\ isdigit c = false)).
  { intros HP. exists m, pos. rewrite Nat.sub_diag. split_and!; auto; lia. }
  cbn [read_length]. case_decide as Hp; [|apply Hstop; lia].
  destruct (lookup_lt_is_Some_2 buf pos) as [c Hc]; [lia|].
  rewrite (char_at_ok _ _ _ Hc). cbn [mbind outcome_bind].
  destruct (isdigit c) eqn:Hd; [|apply Hstop; eauto].
  rewrite schar_digit by done. pose proof (isdigit_range c Hd) as Hdr.
  assert (Hpow : (10 ^ Z.of_nat (S pos) = 10 * 10 ^ Z.of_nat pos)%Z)
    by (rewrite <- Z.pow_succ_r by lia; f_equal; lia).
  rewrite Nat.min_l in Hr by lia.
  assert (Hle : (10 ^ Z.of_nat (S pos) <= 10 ^ 9)%Z)
    by (change 9%Z with (Z.of_nat 9); apply Z.pow_le_mono_r; lia).
  change (10 ^ 9)%Z with 1000000000%Z in Hle, Hmax.
  rewrite decide_True by (split; unfold int_min, int_max; simpl; lia).
  destruct (IH (S pos) (m * 10 + (uchar c - 48))%Z) as (v&p&He&H1&H2&H3&H4&H5&H6);
    [done|done|lia|rewrite Nat.min_l by lia; lia|].
  exists v, p. rewrite (drop_S _ _ _ Hc). replace (p - pos) with (S (p - S pos)) by lia.
  split_and!; auto; lia || (by constructor).
Qed.

(** ** The texts of the error responses *)

Lemma error_json_text fmt text :
  error_json fmt text =
    Ret (B "{" ++ (dquote :: B "msg" ++ [dquote]) ++ B ":"
         ++ (dquote :: (c_str text ≫= escape_char) ++ [dquote])
         ++ B "," ++ (dquote :: B "ok" ++ [dquote]) ++ B ":0}" ++ ["010"%char]).
Proof.
  unfold error_json. cbn [set_member mbind outcome_bind map_set].
  change (strcmp_lt (B "ok") (B "msg")) with false.
  change (strcmp_lt (B "msg") (B "ok")) with true.
  cbn [Value_of_string write writeValue write_members mbind outcome_bind].
  rewrite !quoted_escape. cbn [mbind outcome_bind].
  change (valueToString_int 0) with (Ret (A := bytes) (B "0")).
  cbn [mbind outcome_bind comma]. f_equal. rewrite !app_nil_l.
  by rewrite <- !app_assoc, ?app_nil_r.
Qed.

(** ** Every call returns *)

(** What a request of connection [c] may cause: responses to [c], and
    messages of [c] to the search group or to an indexer group. *)
Definition worker_group (g : bytes) : Prop :=
  g = B "search" \/ exists db, g = B "indexer_" ++ db.

Definition action_ok (c : Z) (a : action) : Prop :=
  match a with
  | Log _ _ => True
  | SendResponse n _ => n = c
  | SendToWorker g m => connection_num m = c /\ worker_group g
  end.

Lemma get_worker_group g n : worker_group g -> is_Some (get_worker g n).
Proof.
  intros [->|[db ->]]; [by eexists|]. unfold get_worker.
  rewrite decide_False by done.
  assert (startswith (B "indexer_" ++ db) (B "indexer") = true) as ->.
  { apply startswith_spec. by exists ("_"%char :: db). }
  rewrite substr_from_ok; [by eexists|]. rewrite length_app. simpl. lia.
Qed.

Lemma get_worker_indexer db n :
  get_worker (B "indexer_" ++ db) n = Some (IndexerWorker (B "_" ++ db)).
Proof.
  unfold get_worker. rewrite decide_False by done.
  assert (startswith (B "indexer_" ++ db) (B "indexer") = true) as ->.
  { apply startswith_spec. by exists ("_"%char :: db). }
  by rewrite substr_from_ok by (rewrite length_app; simpl; lia).
Qed.

(** The split is the reference split on slashes. *)
Fixpoint split_on (sep : ascii) (s : bytes) : list bytes :=
  match s with
  | [] => [[]]
  | c :: s' =>
      if decide (c = sep) then [] :: split_on sep s'
      else match split_on sep s' with
           | [] => [[c]]
           | w :: ws => (c :: w) :: ws
           end
  end.

Lemma split_on_not_nil sep s : split_on sep s <> [].
Proof. destruct s as [|c s]; simpl; [done|]. case_decide; [done|]. by destruct (split_on sep s). Qed.

Lemma split_on_none sep s : sep ∉ s -> split_on sep s = [s].
Proof.
  induction s as [|c s IH]; [done|]. rewrite not_elem_of_cons. intros [Hc Hs]. simpl.
  rewrite decide_False by done. by rewrite IH.
Qed.

Lemma split_on_app sep w s : sep ∉ w -> split_on sep (w ++ sep :: s) = w :: split_on sep s.
Proof.
  induction w as [|c w IH]; simpl; [by rewrite decide_True|].
  rewrite not_elem_of_cons. intros [Hc Hw]. rewrite decide_False by done. by rewrite IH.
Qed.

Lemma split_target_loop_spec fuel target i acc :
  i <= length target -> length target - i < fuel ->
  split_target_loop fuel target i acc = Ret (acc ++ split_on "/"%char (drop i target)).
Proof.
  revert i acc. induction fuel as [|fuel IH]; intros i acc Hi Hf; [lia|].
  cbn [split_target_loop]. destruct (find target "/"%char i) as [j|] eqn:Hj.
  - apply find_Some_split in Hj as (Hj1&Hj2&Hj3&Hj4).
    rewrite substr_ok by lia. cbn [mbind outcome_bind]. rewrite IH by lia.
    replace (j + 1) with (S j) by lia. rewrite <- app_assoc. do 2 f_equal.
    rewrite Hj3 at 2. by rewrite split_on_app.
  - apply find_None in Hj. rewrite substr_from_ok by done. cbn [mbind outcome_bind].
    by rewrite split_on_none.
Qed.

Lemma split_target_spec target : split_target target = Ret (split_on "/"%char target).
Proof. unfold split_target. by rewrite split_target_loop_spec by lia. Qed.

Section safety.
Context (VERSION : bytes) (fmt : double -> bytes).
Hypothesis version_fits : fits_memory VERSION.

Lemma returns_log {A} c t text (f : unit -> eff action A) Q :
  returns (action_ok c) (f ()) Q -> returns (action_ok c) (log t text ≫= f) Q.
Proof.
  intros Hf. eapply returns_bind; [by apply (returns_emit _ _ (fun _ => True))|].
  by intros [] _.
Qed.

Lemma str_size_returns {A} (P : action -> Prop) k (f : bytes -> eff action A) Q :
  (Z.of_nat k < 2 ^ 64)%Z -> (forall s, returns P (f s) Q) ->
  returns P (lift_outcome (str_size k) ≫= f) Q.
Proof.
  intros Hk Hf. destruct (str_size_ok k Hk) as (s&->&_). rewrite eff_bind_lift. apply Hf.
Qed.

Lemma fits_64 (buf : bytes) k : fits_memory buf -> k <= length buf + 4096 -> (Z.of_nat k < 2 ^ 64)%Z.
Proof.
  unfold fits_memory. intros H Hk.
  assert (2 ^ 31 + 4096 < 2 ^ 64)%Z by (by vm_compute). lia.
Qed.

Lemma fatal_error_returns c text :
  fits_memory text ->
  returns (action_ok c) (send_fatal_error fmt c text) (fun _ => True).
Proof.
  intros Ht. unfold send_fatal_error. rewrite error_json_text, eff_bind_lift.
  apply str_size_returns; [by apply (fits_64 text); [|lia]|].
  intros s. by apply returns_emit.
Qed.

Lemma msg_response_returns c id status text :
  fits_memory id -> fits_memory text ->
  returns (action_ok c) (send_msg_response c id status text) (fun _ => True).
Proof.
  intros Hid Ht. unfold send_msg_response. apply returns_log. cbv zeta. apply str_size_returns; [|intros s; by apply returns_emit].
  unfold fits_memory in *. simpl. rewrite length_app. simpl.
  assert (2 ^ 31 + 2 ^ 31 + 4096 < 2 ^ 64)%Z by (by vm_compute). lia.
Qed.

Lemma error_response_returns m text :
  fits_memory (msgid m) -> text = B "Invalid message" \/ text = B "Not found" ->
  returns (action_ok (connection_num m)) (send_error_response fmt m text) (fun _ => True).
Proof.
  intros Hm Ht. unfold send_error_response. rewrite error_json_text, eff_bind_lift.
  apply msg_response_returns; [done|]. destruct Ht as [-> | ->]; by vm_compute.
Qed.

Lemma fits_sub (buf : bytes) i n : fits_memory buf -> fits_memory (take n (drop i buf)).
Proof. unfold fits_memory. intros. rewrite length_take, length_drop. lia. Qed.

Lemma build_message_returns c buf pos msglen :
  fits_memory buf -> pos + msglen <= length buf ->
  returns (action_ok c) (build_message fmt (new_Message c) buf pos msglen)
    (fun '(ok, m) => connection_num m = c /\ fits_memory (msgid m)).
Proof.
  intros Hb Hl. unfold build_message.
  assert (Hbad : forall text, returns (action_ok c)
    (log "E" text;; send_fatal_error fmt c (B "Invalid message");; mret (false, new_Message c))
    (fun '(ok, m) => connection_num m = c /\ fits_memory (msgid m))).
  { intros text. apply returns_log.
    eapply returns_bind; [by apply fatal_error_returns; vm_compute|]. intros _ _.
    by apply returns_mret. }
  destruct (at_or_past (find buf " "%char pos) (pos + msglen)) eqn:Hi; [apply Hbad|].
  destruct (find buf " "%char pos) as [i|] eqn:Ei; [|done]. cbn [from_option id] in *.
  destruct (at_or_past (find buf " "%char (i + 1)) (pos + msglen)) eqn:Hj; [apply Hbad|].
  destruct (find buf " "%char (i + 1)) as [j|] eqn:Ej; [|done]. cbn [from_option id].
  apply find_Some_split in Ei as (Hi1&_), Ej as (Hj1&_).
  unfold at_or_past in *. boolify.
  rewrite !substr_ok by lia. rewrite !eff_bind_lift.
  apply returns_mret. split; [done|]. by apply fits_sub.
Qed.


Lemma route_message_returns c buf pos msglen :
  fits_memory buf -> pos + msglen <= length buf ->
  returns (action_ok c) (route_message VERSION fmt c buf pos msglen) (fun _ => True).
Proof.
  intros Hb Hl. unfold route_message.
  eapply returns_bind; [by apply build_message_returns|].
  intros [[] m] [<- Hid]; [|by apply returns_mret]. simpl negb. cbv iota.
  destruct (ServerH.target m) as [|kind t] eqn:Ht.
  { apply returns_log. apply error_response_returns; auto. }
  rewrite substr_from_ok by (simpl; lia). rewrite eff_bind_lift.
  rewrite split_target_spec, eff_bind_lift.
  assert (Hnf : returns (action_ok (connection_num m))
    (send_error_response fmt m (B "Not found")) (fun _ => True))
    by (apply error_response_returns; auto).
  repeat case_decide.
  - apply msg_response_returns; [done|exact version_fits].
  - case_match; [|done]. apply returns_log, returns_emit; [|done]. split; [done|by left].
  - done.
  - case_match; [|done]. apply returns_log, returns_emit; [|done].
    split; [done|right; eauto].
  - done.
  - apply returns_log. apply error_response_returns; auto.
Qed.

(** The head of an iteration: whitespace, then the digits. *)
Lemma loop_head buf pos :
  pos <= length buf ->
  let s := skip_space buf pos in
  let max := if decide (length buf < MAX_MSG_LEN_LEN) then length buf else MAX_MSG_LEN_LEN in
  exists v p, read_length (S (length buf)) buf max s 0 = Ret (v, p)
    /\ pos <= s <= p /\ p <= length buf /\ (0 <= v < 10 ^ 9)%Z
    /\ (forall c, buf !! p = Some c -> isspace c = true -> s < p).
Proof.
  intros Hp s max. destruct (skip_space_spec buf pos) as (H1&H2&_&H4).
  destruct (read_length_spec (S (length buf)) buf max s 0) as (v&p&E&Hs&Hm&Hv&_).
  - unfold max, MAX_MSG_LEN_LEN. case_decide; lia.
  - unfold max, MAX_MSG_LEN_LEN. case_decide; lia.
  - unfold max, MAX_MSG_LEN_LEN. case_decide; lia.
  - split; [done|]. apply Z.pow_pos_nonneg; lia.
  - assert (max <= length buf) by (unfold max, MAX_MSG_LEN_LEN; case_decide; lia).
    exists v, p. split_and!; try done; try lia.
    intros c Hc Hsp. destruct (decide (s = p)) as [Heq|]; [|lia].
    rewrite <- Heq in Hc. apply H4 in Hc. congruence.
Qed.

(** Every iteration but the last moves [pos] forward, so the fuel is enough;
    all lengths stay within [int] and [size_t]. *)
Lemma dispatch_loop_returns c buf fuel pos found :
  fits_memory buf -> pos <= length buf -> length buf - pos < fuel ->
  returns (action_ok c) (dispatch_loop VERSION fmt fuel c buf pos found)
    (fun '(startpos, found') => pos <= startpos <= length buf
       /\ (found = true -> found' = true)
       /\ (found = false -> found' = true -> pos < startpos)).
Proof.
  intros Hb. revert pos found. induction fuel as [|fuel IH]; intros pos found Hp Hf; [lia|].
  cbn [dispatch_loop]. destruct (loop_head buf pos Hp) as (v&p&E&Hs&Hpl&Hv&Hsp).
  rewrite E, eff_bind_lift. clear E. cbv zeta.
  assert (Hstop : returns (action_ok c) (mret (skip_space buf pos, found))
    (fun '(startpos, found') => pos <= startpos <= length buf
       /\ (found = true -> found' = true)
       /\ (found = false -> found' = true -> pos < startpos))).
  { apply returns_mret. split_and!; [lia|lia|done|by intros ->]. }
  case_decide as Hlt; [done|].
  destruct (lookup_lt_is_Some_2 buf p) as [ch Hch]; [lia|].
  rewrite (char_at_ok _ _ _ Hch), eff_bind_lift.
  case_decide as Hne.
  - destruct (find_first_of buf _ p) as [k|] eqn:Hk; [|done].
    apply find_first_of_Some in Hk as (Hk&d&Hd&Hd').
    assert (skip_space buf pos < k).
    { destruct (decide (k = p)) as [->|]; [|lia]. apply (Hsp d); [done|].
      rewrite list_elem_of_In in Hd'. destruct Hd' as [<-|[<-|[]]]; done. }
    apply str_size_returns; [apply (fits_64 buf); [done|lia]|]. intros n.
    rewrite substr_ok by lia. rewrite eff_bind_lift. apply returns_log.
    eapply returns_bind; [by apply fatal_error_returns|]. intros _ _.
    eapply returns_weaken; [apply IH; lia|done|]. intros [s' f'] ?. naive_solver lia.
  - case_decide as Hfit; [done|].
    eapply returns_bind; [apply route_message_returns; [done|lia]|]. intros _ _.
    eapply returns_weaken; [apply IH; lia|done|]. intros [s' f'] ?. naive_solver lia.
Qed.

Lemma dispatch_request_run c buf :
  fits_memory buf ->
  returns (action_ok c) (dispatch_request VERSION fmt c buf)
    (fun '(found, buf') => buf' `suffix_of` buf /\ (found = true -> length buf' < length buf)).
Proof.
  intros Hb. unfold dispatch_request.
  eapply returns_bind; [apply dispatch_loop_returns; [done|lia|lia]|].
  intros [s f] (Hs&_&Hf).
  assert (Hlen : f = true -> 0 < s) by (intros ->; auto).
  case_decide as H0.
  - do 2 (apply str_size_returns; [apply (fits_64 buf); [done|lia]|]; intros ?).
    apply returns_log, returns_mret. unfold erase_front. split.
    + exists (take s buf). by rewrite take_drop.
    + intros ?%Hlen. lens.
  - apply str_size_returns; [apply (fits_64 buf); [done|lia]|]; intros n.
    apply returns_log, returns_mret. split; [done|]. intros ?%Hlen. lia.
Qed.

(** ** The interface the server and the pool use *)

#[export] Instance XappyDispatcher : Dispatcher XappyWorker := {
  ServerH.dispatch_request := dispatch_request VERSION fmt;
  ServerH.get_worker := get_worker;
}.

#[export] Instance XappyDispatcher_laws : DispatcherLaws XappyWorker.
Proof.
  split; simpl.
  - intros c buf Hb. destruct (dispatch_request_run c buf Hb) as [_ ([f b']&E&?&?)].
    by exists f, b'.
  - intros c buf g n Hb Hg. destruct (dispatch_request_run c buf Hb) as [Hok _].
    apply get_worker_group. unfold groups in Hg.
    apply list_elem_of_omap in Hg as (a&Ha&E). rewrite Forall_forall in Hok.
    apply Hok in Ha. destruct a; simplify_eq/=. by destruct Ha.
  - intros c buf Hb. destruct (dispatch_request_run c buf Hb) as [Hok _].
    rewrite Forall_forall in Hok. split; apply Forall_forall; intros x Hx;
      apply list_elem_of_omap in Hx as (a&Ha&E); apply Hok in Ha; destruct a; simplify_eq/=;
      by destruct Ha || done.
Qed.

End safety.

(** ** Properties *)

(** C2: whatever bytes a connection has sent, [dispatch_request] returns: no
    exception, no out of range access, no overflow of the [int] length, no
    endless loop.  It leaves a suffix of the buffer, a strictly shorter one
    when it reports a request, and all it does is log, answer this connection
    and send this connection's messages to groups a worker exists for. *)
Theorem dispatch_request_safe VERSION fmt c buf :
  fits_memory VERSION -> fits_memory buf ->
  exists found buf', result (dispatch_request VERSION fmt c buf) = Ret (found, buf')
    /\ buf' `suffix_of` buf /\ (found = true -> length buf' < length buf)
    /\ Forall (fun a => match a with
         | Log _ _ => True
         | SendResponse n _ => n = c
         | SendToWorker g m => connection_num m = c /\ forall n, is_Some (get_worker g n)
         end) (events (dispatch_request VERSION fmt c buf)).
Proof.
  intros Hv Hb. destruct (dispatch_request_run VERSION fmt Hv c buf Hb) as [Hok ([f b']&E&?&?)].
  exists f, b'. split_and!; [done..|]. eapply Forall_impl; [exact Hok|].
  intros [| |g m]; simpl; try done. intros [? Hg]. split; [done|]. intros n.
  by apply get_worker_group.
Qed.

Lemma dispatch_request_safe_witness :
  let buf := B "99999999999999 7 " ++ ["010"%char] ++ B " 4 1 X" in
  exists found buf', result (dispatch_request (B "0.1") (fun _ => []) 2 buf) = Ret (found, buf')
    /\ buf' `suffix_of` buf /\ (found = true -> length buf' < length buf)
    /\ Forall (fun a => match a with
         | Log _ _ => True
         | SendResponse n _ => n = 2%Z
         | SendToWorker g m => connection_num m = 2%Z /\ forall n, is_Some (get_worker g n)
         end) (events (dispatch_request (B "0.1") (fun _ => []) 2 buf)).
Proof.
  apply (dispatch_request_safe (B "0.1") (fun _ => []) 2
    (B "99999999999999 7 " ++ ["010"%char] ++ B " 4 1 X")); by vm_compute.
Defined.

(** The components of a target, put together again. *)
Fixpoint join (sep : ascii) (ws : list bytes) : bytes :=
  match ws with
  | [] => []
  | [w] => w
  | w :: ws' => w ++ sep :: join sep ws'
  end.

Lemma join_split sep s :
  join sep (split_on sep s) = s /\ Forall (fun w => ~ (sep ∈ w)) (split_on sep s).
Proof.
  induction s as [|c s [IH1 IH2]]; simpl.
  - split; [done|]. repeat constructor. apply not_elem_of_nil.
  - pose proof (split_on_not_nil sep s) as Hn. case_decide as Hc.
    + subst c. split.
      * cbn [join]. destruct (split_on sep s); [done|]. simpl in *. by rewrite IH1.
      * constructor; [apply not_elem_of_nil|done].
    + destruct (split_on sep s) as [|w ws]; [done|]. apply Forall_cons in IH2 as [? ?]. split.
      * destruct ws; simpl in *; by rewrite IH1.
      * constructor; [|done]. rewrite not_elem_of_cons. auto.
Qed.

(** [split_target] returns for every target; its components contain no
    slash and are never none, and joined by slashes they are the target. *)
Theorem split_target_join target :
  exists ws, split_target target = Ret ws /\ ws <> [] /\ join "/"%char ws = target
    /\ Forall (fun w => ~ ("/"%char ∈ w)) ws.
Proof.
  exists (split_on "/"%char target). rewrite split_target_spec.
  destruct (join_split "/"%char target). split_and!; auto. apply split_on_not_nil.
Qed.
