(* ===== verification/DispatchStream.v ===== *)
(** * Streams of requests: the server's reading loop on src/xappy/dispatch.cc

    A client's stream reaches the server in reads of any size; after each read
    the main loop calls [dispatch_request] until it finds no request.  For
    streams of frames whose bodies have no line break, this file shows that
    every body is handled once, in order, however the stream is cut. *)

From S2P Require Import Prelude CxxString Str JsonValue JsonWriter ServerH Dispatch DispatchSpec.

(** Not a character [dispatch_request] resynchronizes at. *)
Definition plain (c : ascii) : Prop := c <> "010"%char /\ c <> "013"%char.

(** A frame as [dispatch_request] can read it: at most nine digits. *)
Definition is_request (body frame : bytes) : Prop :=
  exists ds, ds <> [] /\ Forall (fun c => isdigit c = true) ds /\ length ds <= 9
    /\ decimal_value ds = Z.of_nat (length body) /\ Forall plain body
    /\ frame = ds ++ " "%char :: body.

(** An incomplete frame, or nothing. *)
Definition is_partial (p : bytes) : Prop :=
  exists body frame, is_request body frame /\ p `prefix_of` frame /\ p <> frame.

Lemma digit_plain c : isdigit c = true -> plain c.
Proof. intros H. split; intros ->; done. Qed.

Lemma request_plain body frame : is_request body frame -> Forall plain frame.
Proof.
  intros (ds&_&Hds&_&_&Hb&->). apply Forall_app. split.
  - eapply Forall_impl; [exact Hds|]. apply digit_plain.
  - constructor; [by split|done].
Qed.

Lemma requests_plain bodies frames :
  Forall2 is_request bodies frames -> Forall plain (concat frames).
Proof.
  induction 1 as [|body frame bodies frames Hr _ IH]; simpl; [done|].
  apply Forall_app. split; [by eapply request_plain|done].
Qed.

Lemma partial_plain p : is_partial p -> Forall plain p.
Proof.
  intros (body&frame&Hr&[k ->]&_). apply request_plain, Forall_app in Hr. tauto.
Qed.

Lemma request_not_nil body frame : is_request body frame -> frame <> [].
Proof. by intros ([|d ds]&?&_&_&_&_&->). Qed.

Lemma plain_no_resync buf p :
  Forall plain (drop p buf) -> find_first_of buf ["010"%char; "013"%char] p = None.
Proof.
  intros H. apply find_first_of_None. eapply Forall_impl; [exact H|].
  intros c [? ?]. rewrite !not_elem_of_cons. repeat split; auto. apply not_elem_of_nil.
Qed.

Lemma foldl_decimal ds :
  foldl (fun acc c => acc * 10 + (uchar c - 48))%Z 0%Z ds = decimal_value ds.
Proof. done. Qed.

(** Reading a length: all of its digits, or stopped inside at index 9. *)
Lemma read_digits buf pos ds r :
  drop pos buf = ds ++ r -> ds <> [] -> Forall (fun c => isdigit c = true) ds ->
  (r = [] \/ exists r', r = " "%char :: r') ->
  let max := if decide (length buf < MAX_MSG_LEN_LEN) then length buf else MAX_MSG_LEN_LEN in
  skip_space buf pos = pos /\
  exists v p, read_length (S (length buf)) buf max pos 0 = Ret (v, p) /\
    ((p = pos + length ds /\ v = decimal_value ds)
     \/ (9 <= p < pos + length ds /\ pos <= p /\ exists d, buf !! p = Some d /\ isdigit d = true)).
Proof.
  intros Hd Hne Hall Hr max.
  assert (Hat : forall i d, ds !! i = Some d -> buf !! (pos + i) = Some d).
  { intros i d Hi. rewrite <- lookup_drop, Hd. by apply lookup_app_l_Some. }
  assert (Hlen : pos + length ds <= length buf).
  { destruct ds; [done|]. pose proof (f_equal length Hd) as Hl.
    rewrite length_drop, length_app in Hl. simpl in *. lia. }
  split.
  { destruct ds as [|d ds]; [done|]. apply Forall_cons in Hall as [Hdd _].
    apply (skip_space_stay _ _ d); [|by apply isdigit_not_space].
    specialize (Hat 0 d eq_refl). by rewrite Nat.add_0_r in Hat. }
  assert (Hmax : max <= length buf /\ max <= 9 /\ (max < 9 -> max = length buf))
    by (unfold max, MAX_MSG_LEN_LEN; case_decide; lia).
  destruct (read_length_spec (S (length buf)) buf max pos 0)
    as (v&p&E&Hp&Hpm&_&Hdig&Hv&Hstop); [lia|lia|lia|split; [done|apply Z.pow_pos_nonneg; lia]|].
  exists v, p. split; [done|]. rewrite Hd in Hdig, Hv.
  (* never past the digits: what follows them is not a digit *)
  assert (Hle : p - pos <= length ds).
  { destruct (Nat.le_gt_cases (p - pos) (length ds)) as [?|Hgt]; [done|exfalso].
    destruct Hr as [->|[r' ->]].
    - rewrite app_nil_r in Hd. pose proof (f_equal length Hd) as Hl.
      rewrite length_drop in Hl. lia.
    - rewrite Forall_lookup in Hdig.
      assert (isdigit " "%char = true) as Hsp; [|done]. apply (Hdig (length ds)).
      rewrite lookup_take, decide_True by lia. by apply lookup_middle. }
  destruct (decide (p - pos = length ds)) as [Heq|Hneq].
  - left. split; [lia|]. rewrite Hv, take_app_le, take_ge by lia. done.
  - right. destruct (lookup_lt_is_Some_2 ds (p - pos)) as [d Hdp]; [lia|].
    specialize (Hat _ _ Hdp). replace (pos + (p - pos)) with p in Hat by lia.
    assert (isdigit d = true) by (rewrite Forall_lookup in Hall; eauto).
    split; [|eauto]. split; [|lia].
    destruct (Nat.le_gt_cases max p) as [?|Hlt]; [lia|].
    destruct (Hstop Hlt) as (d'&Hd'&Hnd). congruence.
Qed.

Section stream.
Context (VERSION : bytes) (fmt : double -> bytes) (c : Z).
Hypothesis version_fits : fits_memory VERSION.

Abbreviation loop := (dispatch_loop VERSION fmt).

(** What one body causes, log entries apart. *)
Definition body_actions (body : bytes) : list action :=
  visible (events (route_message VERSION fmt c body 0 (length body))).

(** At a number: the loop stops there, or routes the body behind it.  At the
    start of the buffer it stops only if the body is not complete. *)
Lemma loop_number fuel buf pos found ds r :
  drop pos buf = ds ++ r -> ds <> [] -> Forall (fun c => isdigit c = true) ds ->
  length ds <= 9 -> Forall plain r -> (r = [] \/ exists r', r = " "%char :: r') ->
  let n := Z.to_nat (decimal_value ds) in
  (loop (S fuel) c buf pos found = mret (pos, found)
   /\ (pos = 0 -> forall r', r = " "%char :: r' -> length r' < n))
  \/ (exists r', r = " "%char :: r' /\ n <= length r' /\
      loop (S fuel) c buf pos found
      = (route_message VERSION fmt c buf (pos + S (length ds)) n;;
         loop fuel c buf (pos + S (length ds) + n) true)).
Proof.
  intros Hd Hne Hds H9 Hr Hrs n.
  assert (Hpl : Forall plain (ds ++ r)).
  { apply Forall_app. split; [|done]. eapply Forall_impl; [exact Hds|]. apply digit_plain. }
  pose proof (f_equal length Hd) as Hl. rewrite length_drop, length_app in Hl.
  assert (0 < length ds) by (destruct ds; [done|simpl; lia]).
  destruct (read_digits buf pos ds r Hd Hne Hds Hrs) as (Hskip&v&q&E&Hq).
  cbn [dispatch_loop]. rewrite Hskip, E, eff_bind_lift. clear E.
  destruct Hq as [[Hq Hv]|(Hq&Hpq&d&Hbd&Hdd)].
  - destruct Hrs as [->|[r' ->]].
    { left. simpl in Hl. rewrite decide_True by lia. done. }
    simpl in Hl. rewrite decide_False by lia.
    assert (Hsp : buf !! q = Some " "%char).
    { rewrite Hq, <- lookup_drop, Hd. by apply lookup_middle. }
    rewrite (char_at_ok _ _ _ Hsp), eff_bind_lift. rewrite decide_False by auto.
    rewrite Hv. fold n. case_decide as Hfit.
    + left. split; [done|]. intros _ r'' [= <-]. lia.
    + right. exists r'. split; [done|]. split; [lia|].
      replace (S q) with (pos + S (length ds)) by lia. done.
  - left. rewrite decide_False by lia. rewrite (char_at_ok _ _ _ Hbd), eff_bind_lift.
    rewrite decide_True by (intros ->; done).
    rewrite plain_no_resync; [split; [done|lia]|].
    replace q with (pos + (q - pos)) by lia. rewrite <- drop_drop, Hd. by apply Forall_drop.
Qed.

(** An incomplete frame is some of the digits, or all of them with less than
    the body. *)
Lemma partial_shape p :
  is_partial p ->
  p = [] \/ exists ds r, p = ds ++ r /\ ds <> [] /\ Forall (fun c => isdigit c = true) ds
    /\ length ds <= 9 /\ (r = [] \/ exists r', r = " "%char :: r'
                          /\ length r' < Z.to_nat (decimal_value ds)).
Proof.
  intros (body&frame&(ds&Hne&Hds&H9&Hval&Hb&->)&[k Hk]&Hnp).
  destruct (Nat.le_gt_cases (length p) (length ds)) as [Hle|Hgt].
  - assert (Hp : p = take (length p) ds).
    { rewrite <- (take_app_le _ (" "%char :: body)), Hk by done. by rewrite take_app_length. }
    destruct (decide (p = [])) as [?|Hn]; [by left|right]. exists p, [].
    rewrite app_nil_r. split_and!; auto; [rewrite Hp; by apply Forall_take|].
    rewrite Hp, length_take. lia.
  - right. assert (Hp : p = take (length p) (ds ++ " "%char :: body))
      by (by rewrite Hk, take_app_length).
    rewrite take_app, take_ge in Hp by lia.
    destruct (length p - length ds) as [|m] eqn:Em; [lia|]. cbn [take] in Hp.
    exists ds, (" "%char :: take m body). split_and!; auto. right. eexists. split; [done|].
    rewrite Hval, Nat2Z.id, length_take.
    destruct (Nat.le_gt_cases (length body) m) as [Hm|?]; [|lia].
    rewrite (take_ge body) in Hp by lia. congruence.
Qed.

Lemma digits_split ds ds' x y :
  Forall (fun c => isdigit c = true) ds -> Forall (fun c => isdigit c = true) ds' ->
  ds ++ " "%char :: x = ds' ++ " "%char :: y -> ds = ds' /\ x = y.
Proof.
  intros Hds. revert ds'. induction Hds as [|d ds Hd Hds IH]; intros ds' Hds' E.
  - by destruct Hds'; simplify_eq/=.
  - destruct Hds' as [|d' ds' Hd' Hds']; simplify_eq/=.
    by destruct (IH ds' Hds' ltac:(done)) as [-> ->].
Qed.

(** No complete frame starts an incomplete one. *)
Lemma partial_no_request p body frame r :
  is_partial p -> is_request body frame -> p = frame ++ r -> False.
Proof.
  intros Hp (ds&Hne&Hds&_&Hval&_&->) ->.
  destruct (partial_shape _ Hp) as [E|(ds'&x&E&Hne'&Hds'&_&[->|(r'&->&Hlt)])].
  - by destruct ds.
  - rewrite app_nil_r in E. rewrite <- E, <- app_assoc in Hds'.
    apply Forall_app in Hds' as [_ Hsp]. apply Forall_cons in Hsp as [Hsp _]. done.
  - rewrite <- app_assoc in E. cbn [app] in E.
    destruct (digits_split ds ds' _ _ Hds Hds' E) as [<- <-].
    rewrite length_app, Hval in Hlt. lia.
Qed.

Lemma requests_length bodies frames :
  Forall2 is_request bodies frames -> length frames <= length (concat frames).
Proof.
  induction 1 as [|body frame bodies frames Hreq _ IH]; simpl; [done|].
  apply request_not_nil in Hreq. rewrite length_app. destruct frame; [done|]. simpl. lia.
Qed.

(** Nothing but an incomplete frame is left: the loop stops there. *)
Lemma loop_partial fuel buf pos found p :
  is_partial p -> drop pos buf = p -> pos <= length buf ->
  loop (S fuel) c buf pos found = mret (pos, found).
Proof.
  intros Hp Hd Hpos. pose proof (partial_plain p Hp) as Hpl.
  pose proof (f_equal length Hd) as Hl. rewrite length_drop in Hl.
  destruct (partial_shape p Hp) as [->|(ds&r&->&Hne&Hds&H9&Hr)].
  - simpl in Hl. cbn [dispatch_loop].
    assert (skip_space buf pos = pos) as ->
      by (unfold skip_space; replace (length buf - pos) with 0 by lia; done).
    cbn [read_length]. rewrite decide_False by (unfold MAX_MSG_LEN_LEN; case_decide; lia).
    rewrite eff_bind_lift. by rewrite decide_True by lia.
  - apply Forall_app in Hpl as [_ Hpl].
    destruct (loop_number fuel buf pos found ds r Hd Hne Hds H9 Hpl)
      as [[? _]|(r'&->&Hn&_)]; [naive_solver|done|].
    exfalso. destruct Hr as [?|(r''&[= <-]&?)]; [done|lia].
Qed.

(** A complete frame: it is routed, or the loop stops before it (its length
    lies beyond index 9), which does not happen at the start. *)
Lemma loop_request fuel buf pos found body frame rest :
  is_request body frame -> drop pos buf = frame ++ rest -> Forall plain rest ->
  pos <> 0 /\ loop (S fuel) c buf pos found = mret (pos, found)
  \/ exists q, drop q buf = body ++ rest /\ q + length body = pos + length frame
     /\ loop (S fuel) c buf pos found
        = (route_message VERSION fmt c buf q (length body);;
           loop fuel c buf (pos + length frame) true).
Proof.
  intros (ds&Hne&Hds&H9&Hval&Hb&->) Hd Hrest.
  rewrite <- app_assoc in Hd. cbn [app] in Hd.
  destruct (loop_number fuel buf pos found ds _ Hd Hne Hds H9) as [[E Hin]|(r'&[= <-]&Hn&E)];
    [constructor; [by split|by apply Forall_app]|by right; eexists| |].
  - left. split; [|done]. intros ->. specialize (Hin eq_refl _ eq_refl).
    rewrite Hval, Nat2Z.id, length_app in Hin. lia.
  - right. exists (pos + S (length ds)). rewrite E, Hval, Nat2Z.id, length_app. cbn [length].
    replace (pos + (length ds + S (length body))) with (pos + S (length ds) + length body) by lia.
    split_and!; [|done|done].
    rewrite <- drop_drop, Hd, cons_middle, app_assoc, drop_app_exact; [done|lens].
Qed.

Lemma route_message_at body buf q rest :
  fits_memory buf -> drop q buf = body ++ rest -> q <= length buf ->
  exists l, route_message VERSION fmt c buf q (length body) = (l, Ret ())
    /\ visible l = body_actions body.
Proof.
  intros Hb Hd Hq. pose proof (f_equal length Hd) as Hl. rewrite length_drop, length_app in Hl.
  destruct (route_body_effect VERSION fmt c buf q (length body) version_fits Hb) as [_ Hr]; [lia|].
  exists (events (route_message VERSION fmt c buf q (length body))). split.
  - destruct (route_message _ _ _ _ _ _) as [l r]. simpl in *. by subst.
  - rewrite route_message_local by lia. by rewrite Hd, take_app_length.
Qed.

(** The loop over a buffer of complete frames and an incomplete one: it
    handles some of them in order (at least one from the start of the buffer)
    and stops before the next. *)
Lemma loop_requests bodies frames p :
  Forall2 is_request bodies frames -> is_partial p ->
  forall fuel buf pos found, fits_memory buf -> pos <= length buf ->
  drop pos buf = concat frames ++ p -> length buf - pos < fuel ->
  exists k l, k <= length frames /\ (pos = 0 -> frames <> [] -> 0 < k)
    /\ loop fuel c buf pos found
       = (l, Ret (pos + length (concat (take k frames)), found || bool_decide (0 < k)))
    /\ visible l = concat (body_actions <$> take k bodies).
Proof.
  intros Hreqs Hp. induction Hreqs as [|body frame bodies frames Hreq Hreqs IH];
    intros fuel buf pos found Hb Hpos Hd Hf; (destruct fuel as [|fuel]; [lia|]).
  - exists 0, []. rewrite (loop_partial fuel buf pos found p Hp Hd Hpos). simpl.
    rewrite orb_false_r, Nat.add_0_r. by split_and!.
  - cbn [concat] in Hd. rewrite <- app_assoc in Hd.
    pose proof (request_not_nil _ _ Hreq) as Hnn.
    destruct (loop_request fuel buf pos found body frame (concat frames ++ p) Hreq Hd)
      as [[Hn0 E]|(q&Hq&Hqf&E)].
    { apply Forall_app. split; [by eapply requests_plain|by apply partial_plain]. }
    + exists 0, []. rewrite E. simpl. rewrite orb_false_r, Nat.add_0_r. split_and!; [lia|lia|done|done].
    + pose proof (f_equal length Hd) as Hl. rewrite length_drop, length_app in Hl.
      assert (0 < length frame) by (destruct frame; [done|simpl; lia]).
      destruct (route_message_at body buf q _ Hb Hq) as (l0&E0&Hl0); [lia|].
      destruct (IH fuel buf (pos + length frame) true Hb) as (k&l&Hk&_&El&Hvl); [lia| |lia|].
      { rewrite <- drop_drop, Hd. by apply drop_app_length. }
      exists (S k), (l0 ++ l). rewrite E, E0, eff_bind_pair, El. cbn [events result fst snd].
      split_and!; [simpl; lia|lia| |].
      * rewrite (bool_decide_true (0 < S k)), orb_true_r by lia. do 3 f_equal.
        cbn [take concat]. rewrite length_app. lia.
      * rewrite visible_app, Hl0, Hvl. done.
Qed.

(** One call of [dispatch_request]. *)
Lemma request_requests bodies frames p :
  Forall2 is_request bodies frames -> is_partial p -> fits_memory (concat frames ++ p) ->
  exists k l, k <= length frames /\ (frames <> [] -> 0 < k)
    /\ dispatch_request VERSION fmt c (concat frames ++ p)
       = (l, Ret (bool_decide (0 < k), concat (drop k frames) ++ p))
    /\ visible l = concat (body_actions <$> take k bodies).
Proof.
  intros Hreqs Hp Hb. unfold dispatch_request. set (buf := concat frames ++ p) in *.
  destruct (loop_requests bodies frames p Hreqs Hp (S (length buf)) buf 0 false)
    as (k&l&Hk&Hk0&E&Hl); [done|lia|done|lia|].
  assert (Hbuf : buf = concat (take k frames) ++ concat (drop k frames) ++ p).
  { unfold buf. by rewrite app_assoc, <- concat_app, take_drop. }
  exists k. rewrite E, eff_bind_pair. cbn [plus orb]. set (n := length (concat (take k frames))).
  assert (Hn : n <= length buf) by (rewrite Hbuf, length_app; lia).
  destruct (str_size_ok n) as (s1&E1&_); [by apply (fits_64 buf); [|lia]|].
  destruct (str_size_ok (length buf - n)) as (s2&E2&_); [by apply (fits_64 buf); [|lia]|].
  destruct (str_size_ok (length buf)) as (s3&E3&_); [by apply (fits_64 buf); [|lia]|].
  destruct (decide (n <> 0)) as [H0|H0].
  - rewrite E1, E2, !eff_bind_lift. unfold log. rewrite eff_bind_emit.
    eexists. split_and!; [done|auto| |].
    + unfold erase_front. simpl. by rewrite Hbuf, drop_app_exact.
    + rewrite visible_app, Hl. simpl. by rewrite app_nil_r.
  - rewrite E3, eff_bind_lift. unfold log. rewrite eff_bind_emit.
    assert (Hnil : concat (take k frames) = []) by (apply nil_length_inv; unfold n in H0; lia).
    eexists. split_and!; [done|auto| |].
    + simpl. rewrite Hnil in Hbuf. by rewrite Hbuf.
    + rewrite visible_app, Hl. simpl. by rewrite app_nil_r.
Qed.

#[local] Existing Instance XappyDispatcher.
Abbreviation drain := (dispatch_all (H := XappyDispatcher VERSION fmt)).
Abbreviation receive_all := (receive (H := XappyDispatcher VERSION fmt)).

(** The server's loop after a read: every complete frame is handled. *)
Lemma drain_requests fuel : forall bodies frames p,
  Forall2 is_request bodies frames -> is_partial p -> fits_memory (concat frames ++ p) ->
  length frames < fuel ->
  exists l, drain fuel c (concat frames ++ p) = (l, Ret p)
    /\ visible l = concat (body_actions <$> bodies).
Proof.
  induction fuel as [|fuel IH]; intros bodies frames p Hr Hp Hb Hf; [lia|].
  destruct (request_requests bodies frames p Hr Hp Hb) as (k&l&Hk&Hk0&E&Hl).
  cbn [dispatch_all]. change ServerH.dispatch_request with (dispatch_request VERSION fmt).
  rewrite E, eff_bind_pair. case_bool_decide as Hk1.
  - destruct (IH (drop k bodies) (drop k frames) p) as (l'&E'&Hl').
    + by apply Forall2_drop.
    + done.
    + eapply suffix_fits; [|exact Hb]. exists (concat (take k frames)).
      by rewrite app_assoc, <- concat_app, take_drop.
    + rewrite length_drop. lia.
    + exists (l ++ l'). rewrite E'. split; [done|].
      by rewrite visible_app, Hl, Hl', <- concat_app, <- fmap_app, take_drop.
  - assert (frames = []) as ->.
    { destruct (decide (frames = [])) as [?|Hne]; [done|]. specialize (Hk0 Hne). lia. }
    apply Forall2_nil_inv_r in Hr as ->. exists l. simpl in Hk.
    replace k with 0 in * by lia. rewrite drop_nil. simpl. rewrite app_nil_r. done.
Qed.

(** Any cut of a stream leaves complete frames and an incomplete one. *)
Lemma cut_requests bodies frames p s t :
  Forall2 is_request bodies frames -> is_partial p -> concat frames ++ p = s ++ t ->
  exists k p', s = concat (take k frames) ++ p' /\ is_partial p'
    /\ p' ++ t = concat (drop k frames) ++ p.
Proof.
  intros Hr Hp. revert s. induction Hr as [|body frame bodies frames Hreq Hr IH]; intros s Hs.
  - exists 0, s. split_and!; [done| |done]. simpl in Hs.
    destruct Hp as (b&f&Hb&[r ->]&Hn). exists b, (p ++ r). split_and!; [done| |].
    + rewrite Hs. exists (t ++ r). by rewrite app_assoc.
    + intros ->. apply Hn. apply (f_equal length) in Hs. rewrite !length_app in Hs.
      assert (r = []) as -> by (apply nil_length_inv; lia). by rewrite app_nil_r.
  - cbn [concat] in Hs. rewrite <- app_assoc in Hs.
    destruct (Nat.lt_ge_cases (length s) (length frame)) as [Hlt|Hge].
    + exists 0, s. split_and!; [done| |by rewrite <- Hs, app_assoc].
      exists body, frame. split_and!; [done| |by intros ->; lia].
      exists (drop (length s) frame). rewrite <- (take_drop (length s) frame) at 1. f_equal.
      rewrite <- (take_app_le frame (concat frames ++ p)), Hs by lia. apply take_app_length.
    + assert (Hsf : s = frame ++ drop (length frame) s).
      { rewrite <- (take_drop (length frame) s) at 1. f_equal.
        rewrite <- (take_app_le s t), <- Hs by lia. apply take_app_length. }
      rewrite Hsf in Hs. rewrite <- app_assoc in Hs. apply app_inv_head in Hs.
      destruct (IH _ Hs) as (k&p'&E&Hp'&Ht). exists (S k), p'. rewrite Hsf, E. simpl.
      by rewrite app_assoc.
Qed.

(** The reads cut the stream anywhere. *)
Lemma receive_requests chunks : forall bodies frames p0 p,
  Forall2 is_request bodies frames -> is_partial p0 -> is_partial p ->
  p0 ++ concat chunks = concat frames ++ p -> fits_memory (concat frames ++ p) ->
  exists l, receive_all c p0 chunks = (l, Ret p)
    /\ visible l = concat (body_actions <$> bodies).
Proof.
  induction chunks as [|chunk chunks IH]; intros bodies frames p0 p Hr Hp0 Hp Hs Hb.
  - simpl in Hs. rewrite app_nil_r in Hs.
    destruct Hr as [|body frame bodies frames Hreq Hr].
    2: { exfalso. eapply (partial_no_request p0); [done|done|].
         rewrite Hs. cbn [concat]. by rewrite <- app_assoc. }
    simpl in Hs. subst p0.
    by exists [].
  - cbn [concat] in Hs. rewrite app_assoc in Hs.
    destruct (cut_requests bodies frames p (p0 ++ chunk) (concat chunks) Hr Hp (eq_sym Hs))
      as (k&p'&E&Hp'&Ht).
    rewrite E in Hs. rewrite <- app_assoc in Hs.
    assert (Hfit : fits_memory (concat (take k frames) ++ p')).
    { unfold fits_memory in *. rewrite <- Hs, app_assoc, length_app in Hb. lia. }
    cbn [receive]. rewrite E.
    destruct (drain_requests (S (length (concat (take k frames) ++ p'))) (take k bodies)
      (take k frames) p') as (l&El&Hl); [by apply Forall2_take|done|done| |].
    { pose proof (requests_length _ _ (Forall2_take _ _ _ k Hr)). rewrite length_app. lia. }
    destruct (IH (drop k bodies) (drop k frames) p' p) as (l'&E'&Hl');
      [by apply Forall2_drop|done|done|done| |].
    { rewrite <- Ht. eapply suffix_fits; [|exact Hb]. by exists (concat (take k frames)). }
    exists (l ++ l'). rewrite El, eff_bind_pair, E'. split; [done|].
    by rewrite visible_app, Hl, Hl', <- concat_app, <- fmap_app, take_drop.
Qed.
End stream.

(** What the dispatcher makes of a stream of requests. *)
Lemma receive_effects VERSION fmt c bodies frames p :
  fits_memory VERSION -> fits_memory (concat frames ++ p) ->
  Forall2 is_request bodies frames -> is_partial p ->
  exists effects, Forall2 (body_effect VERSION c) bodies effects /\
    forall chunks, concat chunks = concat frames ++ p ->
    exists l, receive (H := XappyDispatcher VERSION fmt) c [] chunks = (l, Ret p)
      /\ visible l = concat effects.
Proof.
  intros Hv Hb Hr Hp. exists (body_actions VERSION fmt c <$> bodies). split.
  - apply Forall2_fmap_r. clear Hp. revert Hb. generalize p as t.
    induction Hr as [|body frame bodies frames Hreq Hr IH]; intros t Hb; constructor.
    + unfold body_actions. rewrite <- (take_ge body (length body)) at 1 by done.
      rewrite <- (drop_0 body) at 2. apply route_body_effect; [done| |done].
      destruct Hreq as (ds&_&_&_&_&_&->). unfold fits_memory in *.
      simpl in Hb. rewrite !length_app in Hb. simpl in Hb. lia.
    + apply (IH t). eapply suffix_fits; [|exact Hb]. exists frame. simpl. by rewrite app_assoc.
  - intros chunks Hc. apply (receive_requests VERSION fmt c Hv chunks bodies frames); try done.
    exists [], (B "0 "). split_and!; [|by exists (B "0 ")|done].
    exists (B "0"). by repeat constructor.
Qed.

(** ** Properties *)




(** The whitespace before a message, skipped exactly. *)
Lemma skip_spaces n r d :
  isspace d = false ->
  skip_space (replicate n " "%char ++ d :: r) 0 = n.
Proof.
  intros Hd. set (buf := replicate n " "%char ++ d :: r).
  destruct (skip_space_spec buf 0) as (_&Hle&Hall&Hend).
  assert (Hn : buf !! n = Some d) by (apply lookup_middle; by rewrite length_replicate).
  generalize dependent (skip_space buf 0). intros p Hle Hall Hend.
  destruct (Nat.lt_trichotomy p n) as [Hlt|[?|Hgt]]; [|done|].
  - assert (isspace " "%char = false) as Hs; [|done]. apply Hend.
    unfold buf. rewrite lookup_app_l by (rewrite length_replicate; lia).
    by apply lookup_replicate_2.
  - exfalso. rewrite drop_0, Nat.sub_0_r, Forall_lookup in Hall.
    assert (isspace d = true); [|congruence]. apply (Hall n).
    by rewrite lookup_take, decide_True by lia.
Qed.

(** Nine or more spaces before a complete request hide it: the call skips
    the spaces, handles nothing and reports that nothing was found, so the
    server's loop stops with the complete request in the buffer. *)
Theorem leading_spaces_stall VERSION fmt c n body frame :
  9 <= n -> fits_memory (replicate n " "%char ++ frame) -> is_request body frame ->
  exists l, dispatch_request VERSION fmt c (replicate n " "%char ++ frame)
            = (l, Ret (false, frame)) /\ visible l = [].
Proof.
  intros Hn Hb Hreq. pose proof (request_plain _ _ Hreq) as Hpl.
  destruct Hreq as (ds&Hne&Hds&_&_&_&->). destruct ds as [|d ds]; [done|].
  apply Forall_cons in Hds as [Hd _].
  set (frame := (d :: ds) ++ " "%char :: body) in *. set (buf := replicate n " "%char ++ frame) in *.
  assert (Hlen : length buf = n + length frame) by (unfold buf; by rewrite length_app, length_replicate).
  assert (Hbn : buf !! n = Some d) by (apply lookup_middle; by rewrite length_replicate).
  assert (Hdrop : drop n buf = frame) by (apply drop_app_exact; by rewrite length_replicate).
  unfold dispatch_request. cbn [dispatch_loop].
  assert (skip_space buf 0 = n) as -> by (apply skip_spaces; by apply isdigit_not_space).
  cbn [read_length]. assert (0 < length frame) by (unfold frame; simpl; lia).
  rewrite !(decide_False (P := length buf < _)) by (unfold MAX_MSG_LEN_LEN; lia).
  rewrite (decide_False (P := n < _)) by (unfold MAX_MSG_LEN_LEN; lia).
  rewrite eff_bind_lift, decide_False by lia. rewrite (char_at_ok _ _ _ Hbn), eff_bind_lift.
  rewrite decide_True by (intros ->; done). rewrite plain_no_resync by by rewrite Hdrop.
  rewrite eff_bind_ret, decide_True by lia.
  destruct (str_size_ok n) as (s1&->&_); [apply (fits_64 buf); [done|lia]|].
  destruct (str_size_ok (length buf - n)) as (s2&->&_); [apply (fits_64 buf); [done|lia]|].
  rewrite !eff_bind_lift. unfold log. rewrite eff_bind_emit. unfold erase_front. rewrite Hdrop.
  eexists. split; [reflexivity|done].
Qed.

Lemma leading_spaces_stall_witness :
  exists l, dispatch_request (B "0.1") (fun _ => []) 0 (replicate 9 " "%char ++ B "12 1 Gversion x")
            = (l, Ret (false, B "12 1 Gversion x")) /\ visible l = [].
Proof.
  apply (leading_spaces_stall (B "0.1") (fun _ => []) 0 9 (B "1 Gversion x")).
  - apply Nat.leb_le. by vm_compute.
  - by vm_compute.
  - exists (B "12"). split_and!; [done|by repeat constructor|apply Nat.leb_le; by vm_compute|done| |done].
    repeat (constructor; [by split|]). constructor.
Defined.
