(* ===== verification/Logger.v ===== *)
(** * src/server/logger.cc: the log file

    The descriptor is opened at the first entry and kept.  The kernel's
    answers to [open], [write] and [close] are scripts, as in Io.v. *)

From S2P Require Import Prelude CxxString Str Io.

Record Logger := MkLogger {
  filename : bytes;
  logfd : Z; (* -1: not open *)
}.

(** [Logger::Logger] *)
Definition new_Logger (filename_ : bytes) : Logger := MkLogger filename_ (-1).

(** What a call of the logger leaves: the logger, the bytes written to its
    file, the texts written on stderr, errno and the answers not consumed. *)
Record log_result := LogResult {
  logger : Logger;
  file : bytes;
  stderr : list bytes;
  log_errno : Z;
  opens : list (sysres Z);
  writes : list (sysres nat);
}.

Section Logger.
Variable strerror : Z -> bytes.
(** [getpid()] and [pthread_self()] *)
Variables pid tid : Z.

(** The line of an entry. *)
Definition log_line (type : ascii) (msg : bytes) : outcome bytes :=
  p ← str_int pid;
  t ← str_ulong tid;
  Ret ([type] ++ p ++ B "." ++ t ++ B ": " ++ msg ++ ["010"%char]).

(** The [if (logfd == -1)] of [log]: [None] is an [open] that does not
    return, [false] that the entry is dropped. *)
Definition log_open (l : Logger) (en : Z) (ko : list (sysres Z))
    : option (bool * Logger * list bytes * Z * list (sysres Z)) :=
  if decide (logfd l = (-1)%Z) then
    if decide (filename l = []) then Some (false, l, [], en, ko)
    else
      r ← io_open_append_create en ko;
      let l := MkLogger (filename l) (ret r) in
      if decide (ret r = (-1)%Z)
      then Some (false, l, [B "Can't open log file at " ++ c_str (filename l) ++ B ": "
                            ++ strerror (errno r) ++ ["010"%char]], errno r, answers r)
      else Some (true, l, [], errno r, answers r)
  else Some (true, l, [], en, ko).

(** [Logger::log]; [None] when a call of the kernel does not return. *)
Definition log (l : Logger) (type : ascii) (msg : bytes) (en : Z)
    (ko : list (sysres Z)) (kw : list (sysres nat)) : outcome (option log_result) :=
  match log_open l en ko with
  | None => Ret None
  | Some (false, l, err, en, ko) => Ret (Some (LogResult l [] err en ko kw))
  | Some (true, l, err, en, ko) =>
      line ← log_line type msg;
      let '(w, r) := io_write line en kw in
      match r with
      | None => Ret None
      | Some r =>
          let err := if ret r then err else err ++
            [B "Can't write to log file at " ++ c_str (filename l) ++ B ": "
             ++ strerror (errno r) ++ ["010"%char]] in
          Ret (Some (LogResult l w err (errno r) ko (answers r)))
      end
  end.

Definition syserr (l : Logger) (msg : bytes) (en : Z) ko kw :=
  log l "S" (msg ++ B ": " ++ strerror en) en ko kw.
Definition error (l : Logger) (msg : bytes) (en : Z) ko kw := log l "E" msg en ko kw.
Definition info (l : Logger) (msg : bytes) (en : Z) ko kw := log l "I" msg en ko kw.
Definition debug (l : Logger) (msg : bytes) (en : Z) ko kw := log l "D" msg en ko kw.

(** [Logger::~Logger]: the texts on stderr. *)
Definition delete_Logger (l : Logger) (en : Z) (kc : list (sysres unit)) : option (list bytes) :=
  if decide (logfd l = (-1)%Z) then Some []
  else
    match io_close en kc with
    | None => None
    | Some r => Some (if ret r then [] else
        [B "Can't close log file at " ++ c_str (filename l) ++ B ": "
         ++ strerror (errno r) ++ ["010"%char]])
    end.

(** ** What a call writes *)

Lemma log_line_ok type msg :
  in_int 32 pid -> (0 <= pid)%Z -> in_uint 64 tid ->
  exists p t, is_decimal p pid /\ is_decimal t tid
    /\ log_line type msg = Ret ([type] ++ p ++ B "." ++ t ++ B ": " ++ msg ++ ["010"%char]).
Proof.
  intros Hp Hp0 Ht. unfold log_line, str_int, str_ulong.
  destruct (tostring_nonneg_ok 4 pid) as (p&->&?); [by left|done..|].
  destruct (tostring_unsigned_ok 8 tid) as (t&->&?); [by right|done|]. eauto.
Qed.

(** The descriptor [open] gives, interruptions apart. *)
Lemma io_open_spec en k r :
  io_open_append_create en k = Some r ->
  (ret r = (-1)%Z /\ errno r <> EINTR /\ In (SysErr (errno r)) k)
  \/ (In (SysOk (ret r)) k).
Proof.
  revert en. induction k as [|[fd|e] k IH]; intros en H; simpl in H; [done| |].
  - simplify_eq. right. by left.
  - case_decide; simplify_eq/=.
    + destruct (IH _ H) as [(?&?&?)|?]; [left|right]; auto.
    + left. auto.
Qed.

(** What a call of [log] may do, from the state it starts in. *)
Lemma log_cases l type msg en ko kw :
  in_int 32 pid -> (0 <= pid)%Z -> in_uint 64 tid ->
  exists line, log_line type msg = Ret line /\
  exists o, log l type msg en ko kw = Ret o /\
  forall r, o = Some r ->
    (logfd (logger r) = (-1)%Z /\ file r = [] /\ logfd l = (-1)%Z /\ writes r = kw
     /\ (filename l = [] -> stderr r = []) /\ (filename l <> [] -> length (stderr r) = 1))
    \/ (logfd (logger r) <> (-1)%Z /\ (filename (logger r)) = filename l
        /\ (logfd l <> (-1)%Z -> logger r = l /\ opens r = ko)
        /\ file r `prefix_of` line
        /\ (if decide (file r = line) then stderr r = [] else length (stderr r) = 1)).
Proof.
  intros Hp Hp0 Ht. destruct (log_line_ok type msg Hp Hp0 Ht) as (p&t&_&_&E).
  eexists. split; [exact E|]. unfold log. destruct (log_open l en ko) as [[[[[b l'] err] en'] ko']|] eqn:Ho;
    [|by exists None].
  unfold log_open in Ho.
  assert (Hcase : b = false /\ logfd l' = (-1)%Z /\ logfd l = (-1)%Z
      /\ (filename l = [] -> err = []) /\ (filename l <> [] -> length err = 1)
    \/ b = true /\ logfd l' <> (-1)%Z /\ filename l' = filename l /\ err = []
       /\ (logfd l <> (-1)%Z -> l' = l /\ ko' = ko)).
  { case_decide as Hl; [case_decide as Hf|].
    - simplify_eq. left. by split_and!.
    - apply bind_Some in Ho as (r&Hr&Ho). case_decide; simplify_eq/=;
        [left|right]; by split_and!.
    - simplify_eq. right. by split_and!. }
  destruct Hcase as [(->&?&?&?&?)|(->&?&?&->&?)].
  - eexists. split; [done|]. intros r [= <-]. left. by split_and!.
  - rewrite E. cbn [mbind outcome_bind].
    set (line := [type] ++ _). pose proof (io_write_prefix line en' kw) as Hpre.
    destruct (io_write line en' kw) as [w [r|]] eqn:Ew; [|by exists None].
    eexists. split; [done|]. intros r' [= <-]. right. cbn [logger file stderr opens].
    simpl in Hpre. split_and!; try done.
    pose proof (io_write_result line en' kw w r Ew) as Hres.
    destruct (ret r); [by rewrite decide_True|]. rewrite decide_False by apply Hres. done.
Qed.
End Logger.

(** ** Properties *)

(** An entry is either dropped whole (no file name, or the file cannot be
    opened, which is reported once on stderr, with the next entry trying
    again), or its line goes to the file from its first byte on, a failed
    write being reported on stderr; once the file is open it stays so, and
    then the whole line is written as soon as the kernel takes that many
    bytes. *)
Theorem log_spec strerror pid tid l type msg en ko kw :
  in_int 32 pid -> (0 <= pid)%Z -> in_uint 64 tid ->
  exists line, log_line pid tid type msg = Ret line /\
  exists o, log strerror pid tid l type msg en ko kw = Ret o /\
  (forall r, o = Some r ->
    (logfd (logger r) = (-1)%Z /\ file r = [] /\ logfd l = (-1)%Z /\ writes r = kw
     /\ (filename l = [] -> stderr r = []) /\ (filename l <> [] -> length (stderr r) = 1))
    \/ (logfd (logger r) <> (-1)%Z /\ filename (logger r) = filename l
        /\ (logfd l <> (-1)%Z -> logger r = l /\ opens r = ko)
        /\ file r `prefix_of` line
        /\ (if decide (file r = line) then stderr r = [] else length (stderr r) = 1))) /\
  (logfd l <> (-1)%Z -> length line <= progress kw ->
     exists r, o = Some r /\ file r = line /\ logger r = l).
Proof.
  intros Hp Hp0 Ht.
  destruct (log_cases strerror pid tid l type msg en ko kw Hp Hp0 Ht) as (line&El&o&Eo&Hr).
  exists line. split; [done|]. exists o. split; [done|]. split; [done|].
  intros Hl Hprog. destruct (io_write_returns line en kw Hprog) as (w&r&Ew&Hret).
  unfold log, log_open in Eo. rewrite decide_False, El in Eo by done.
  cbn [mbind outcome_bind] in Eo. rewrite Ew, Hret in Eo. injection Eo as <-.
  eexists. split; [done|]. split; [|done]. simpl.
  pose proof (io_write_result line en kw w r Ew) as H. by rewrite Hret in H.
Qed.

Lemma log_spec_witness :
  in_int 32 4242 /\ (0 <= 4242)%Z /\ in_uint 64 140000000000000 /\
  exists line, log_line 4242 140000000000000 "I" (B "Starting server") = Ret line /\
  exists o, log (fun _ => B "?") 4242 140000000000000 (MkLogger (B "log") 7) "I"
      (B "Starting server") 0 [] [SysOk 3; SysErr EINTR; SysOk 100] = Ret o /\
  (forall r, o = Some r ->
    (logfd (logger r) = (-1)%Z /\ file r = [] /\ 7%Z = (-1)%Z
     /\ writes r = [SysOk 3; SysErr EINTR; SysOk 100]
     /\ (B "log" = [] -> stderr r = []) /\ (B "log" <> [] -> length (stderr r) = 1))
    \/ (logfd (logger r) <> (-1)%Z /\ filename (logger r) = B "log"
        /\ (7%Z <> (-1)%Z -> logger r = MkLogger (B "log") 7 /\ opens r = [])
        /\ file r `prefix_of` line
        /\ (if decide (file r = line) then stderr r = [] else length (stderr r) = 1))) /\
  (7%Z <> (-1)%Z -> length line <= progress [SysOk 3; SysErr EINTR; SysOk 100] ->
     exists r, o = Some r /\ file r = line /\ logger r = MkLogger (B "log") 7).
Proof.
  assert (H1 : in_int 32 4242) by (by vm_compute).
  assert (H2 : (0 <= 4242)%Z) by done.
  assert (H3 : in_uint 64 140000000000000) by (by vm_compute).
  split_and!; [exact H1|exact H2|exact H3|].
  exact (log_spec (fun _ => B "?") 4242 140000000000000 (MkLogger (B "log") 7) "I"
    (B "Starting server") 0 [] [SysOk 3; SysErr EINTR; SysOk 100] H1 H2 H3).
Defined.
