(* ===== verification/Locker.v ===== *)
(** * src/server/locker.h: the mutex wrapper and its scope object

    [Locker::lock] and [Locker::unlock] are one call of the mutex each, their
    results ignored; the state of a [ContextLocker] is its flag [locked]. *)

From S2P Require Import Prelude.

Inductive mutex_call := MutexLock | MutexUnlock.

#[export] Instance mutex_call_eq_dec : EqDecision mutex_call.
Proof. solve_decision. Defined.

(** [Locker::lock] and [Locker::unlock] *)
Definition Locker_lock : eff mutex_call unit := emit MutexLock.
Definition Locker_unlock : eff mutex_call unit := emit MutexUnlock.

(** [ContextLocker::lock] *)
Definition lock : st bool mutex_call unit := fun locked =>
  if locked then mret ((), locked)
  else Locker_lock;; mret ((), true).

(** [ContextLocker::unlock] *)
Definition unlock : st bool mutex_call unit := fun locked =>
  if negb locked then mret ((), locked)
  else Locker_unlock;; mret ((), false).

(** [ContextLocker::ContextLocker]: the flag is initialised to true. *)
Definition ContextLocker : eff mutex_call bool :=
  '(_, locked) ← lock true; mret locked.

(** [ContextLocker::~ContextLocker] *)
Definition delete_ContextLocker (locked : bool) : eff mutex_call unit :=
  '(_, locked) ← unlock locked; mret ().

(** The calls a scope makes on its locker. *)
Inductive scope_call := CallLock | CallUnlock.

Fixpoint scope_calls (l : list scope_call) : st bool mutex_call unit :=
  match l with
  | [] => mret ()
  | CallLock :: l' => lock;; scope_calls l'
  | CallUnlock :: l' => unlock;; scope_calls l'
  end.

(** A whole scope: constructor, calls, destructor. *)
Definition scope (l : list scope_call) : eff mutex_call unit :=
  locked ← ContextLocker;
  '(_, locked) ← scope_calls l locked;
  delete_ContextLocker locked.

(** ** What the mutex sees *)

(** Calls that alternate, [locked] telling whether an unlock comes next. *)
Fixpoint alternating (locked : bool) (l : list mutex_call) : Prop :=
  match l with
  | [] => True
  | MutexLock :: l' => locked = false /\ alternating true l'
  | MutexUnlock :: l' => locked = true /\ alternating false l'
  end.

Definition count (m : mutex_call) (l : list mutex_call) : Z :=
  Z.of_nat (length (List.filter (fun x => bool_decide (x = m)) l)).

Lemma count_cons m x l :
  count m (x :: l) = ((if decide (x = m) then 1 else 0) + count m l)%Z.
Proof.
  unfold count. cbn [List.filter]. destruct (decide (x = m)) as [Hx|Hx].
  - rewrite bool_decide_true by done. cbn [length]. lia.
  - by rewrite bool_decide_false by done.
Qed.

Lemma scope_calls_spec l : forall locked, exists locked' evs,
  scope_calls l locked = (evs, Ret ((), locked')) /\ alternating locked evs
  /\ (count MutexUnlock evs - count MutexLock evs
      = (if locked then 1 else 0) - (if locked' then 1 else 0))%Z
  /\ (forall more, alternating locked' more -> alternating locked (evs ++ more)).
Proof.
  induction l as [|[] l IH]; intros locked.
  - exists locked, []. split_and!; try done. unfold count. simpl. lia.
  - destruct (IH true) as (l'&evs&E&Ha&Hc&Hm). cbn [scope_calls].
    unfold mbind, st_bind, lock. destruct locked.
    + exists l', evs. rewrite eff_bind_ret. by rewrite E.
    + exists l', (MutexLock :: evs). unfold Locker_lock.
      rewrite eff_bind_assoc, eff_bind_emit, eff_bind_ret, E. rewrite !count_cons.
      split_and!; simpl; auto; lia.
  - destruct (IH false) as (l'&evs&E&Ha&Hc&Hm). cbn [scope_calls].
    unfold mbind, st_bind, unlock. destruct locked; cbn [negb].
    + exists l', (MutexUnlock :: evs). unfold Locker_unlock.
      rewrite eff_bind_assoc, eff_bind_emit, eff_bind_ret, E. rewrite !count_cons.
      split_and!; simpl; auto; lia.
    + exists l', evs. rewrite eff_bind_ret. by rewrite E.
Qed.

(** ** Properties *)

(** A [ContextLocker] does not hold its mutex: the constructor never locks
    it.  Over any scope the mutex sees an unlock first, then locks and unlocks
    in turn, and at the end one unlock more than locks; a scope that makes no
    call of its own (all but [WorkerPool::join]) only unlocks. *)
Theorem context_locker_never_locks l :
  exists evs, scope l = (evs, Ret ()) /\ alternating true evs
    /\ (count MutexUnlock evs = count MutexLock evs + 1)%Z
    /\ events ContextLocker = []
    /\ (l = [] -> evs = [MutexUnlock]).
Proof.
  destruct (scope_calls_spec l true) as (locked'&evs&E&Ha&Hc&Hm).
  unfold scope. change ContextLocker with (mret (M := eff mutex_call) true).
  rewrite eff_bind_ret, E, eff_bind_pair. destruct locked'.
  - exists (evs ++ [MutexUnlock]). split_and!; try done.
    + by apply Hm.
    + unfold count in *. rewrite !List.filter_app, !length_app. simpl. lia.
    + intros ->. simpl in E. by injection E as <-.
  - exists evs. simpl. rewrite app_nil_r. split_and!; try done; [lia|].
    intros ->. simpl in E. done.
Qed.
