(* ===== verification/Race.v ===== *)
(** * The count of outstanding messages without the mutex

    [WorkerPool::send_to_worker] and [WorkerPool::worker_message_handled] are
    scopes of a [ContextLocker] on [workerlist_mutex], and run in different
    threads.  Here the statement each of them applies to
    [WorkerDetails::messages] is a load and a store, between the calls its
    [ContextLocker] really makes on the mutex (Locker.v), under any
    interleaving.  The other files take an operation of the pool as one step;
    the second part shows that this is what a lock that is taken gives. *)

From S2P Require Import Prelude Locker.

(** What a thread does, one step at a time. *)
Inductive instr :=
| Mutex (c : mutex_call)
| Load            (* the count into a register *)
| Store (d : Z).  (* the register plus [d] into the count *)

Record core := Core { code : list instr; reg : Z }.

(** The count, whether the mutex is locked, the threads. *)
Record machine := Machine { memory : Z; held : bool; cores : list core }.

(** One step of a thread: [None] while it waits for the mutex.  Unlocking a
    mutex that is not locked leaves it unlocked. *)
Definition exec (i : instr) (r z : Z) (h : bool) : option (Z * Z * bool) :=
  match i with
  | Mutex MutexLock => if h then None else Some (r, z, true)
  | Mutex MutexUnlock => Some (r, z, false)
  | Load => Some (z, z, h)
  | Store d => Some (r, (r + d)%Z, h)
  end.

Definition step_core (k : nat) (m : machine) : option machine :=
  match cores m !! k with
  | Some (Core (i :: rest) r) =>
      '(r, z, h) ← exec i r (memory m) (held m);
      Some (Machine z h (<[k := Core rest r]> (cores m)))
  | _ => None
  end.

(** The threads that take the steps, in order. *)
Fixpoint schedule (ks : list nat) (m : machine) : option machine :=
  match ks with
  | [] => Some m
  | k :: ks' => m' ← step_core k m; schedule ks' m'
  end.

Definition finished (m : machine) : bool :=
  forallb (fun c => match code c with [] => true | _ => false end) (cores m).

(** A scope of [ContextLocker] around [messages += d]: the calls are those of
    its constructor and of its destructor. *)
Definition scope_code (d : Z) : list instr :=
  (Mutex <$> events ContextLocker) ++ [Load; Store d]
  ++ (Mutex <$> events (locked ← ContextLocker; delete_ContextLocker locked)).

(** [++messages] of [send_to_worker], [--messages] of
    [worker_message_handled]. *)
Definition send_code : list instr := scope_code 1.
Definition handled_code : list instr := scope_code (-1).

Definition start (z : Z) (codes : list (list instr)) : machine :=
  Machine z false ((fun c => Core c 0) <$> codes).

(** ** With a mutex that is locked *)

Definition locked_code (d : Z) : list instr :=
  [Mutex MutexLock; Load; Store d; Mutex MutexUnlock].

(** Where a thread is in [locked_code d]: before the lock, inside, after. *)
Inductive inside (z d : Z) : core -> Prop :=
| inside_locked r : inside z d (Core [Load; Store d; Mutex MutexUnlock] r)
| inside_loaded : inside z d (Core [Store d; Mutex MutexUnlock] z)
| inside_stored r : inside z d (Core [Mutex MutexUnlock] r).

Inductive outside (d : Z) : core -> Prop :=
| outside_before r : outside d (Core (locked_code d) r)
| outside_after r : outside d (Core [] r).

(** What a thread has added to the count. *)
Definition added (d : Z) (c : core) : Z :=
  if decide (length (code c) <= 1) then d else 0%Z.

Definition total (ds : list Z) (cs : list core) : Z := foldr Z.add 0%Z (zip_with added ds cs).

(** The threads [ds], the count from [z0] on. *)
Record exclusive (z0 : Z) (ds : list Z) (m : machine) : Prop := {
  excl_length : length (cores m) = length ds;
  excl_count : memory m = (z0 + total ds (cores m))%Z;
  excl_free : held m = false ->
    forall k d c, ds !! k = Some d -> cores m !! k = Some c -> outside d c;
  excl_held : held m = true -> exists k0, forall k d c,
    ds !! k = Some d -> cores m !! k = Some c ->
    if decide (k = k0) then inside (memory m) d c else outside d c;
}.

Lemma total_insert ds cs k d c c' :
  ds !! k = Some d -> cs !! k = Some c ->
  (total ds (<[k := c']> cs) = total ds cs - added d c + added d c')%Z.
Proof.
  revert cs k. induction ds as [|d0 ds IH]; intros [|c0 cs] [|k] Hd Hc; simplify_eq/=.
  - unfold total. simpl. lia.
  - specialize (IH cs k Hd Hc). unfold total in *. simpl. lia.
Qed.

Lemma total_start ds z : total ds (cores (start z (locked_code <$> ds))) = 0%Z.
Proof.
  induction ds as [|d ds IH]; [done|].
  transitivity (0 + total ds (cores (start z (locked_code <$> ds))))%Z; [done|]. by rewrite IH.
Qed.

Lemma exclusive_start z ds : exclusive z ds (start z (locked_code <$> ds)).
Proof.
  split.
  - simpl. by rewrite !length_fmap.
  - rewrite total_start. simpl. lia.
  - intros _ k d c Hd. simpl. rewrite !list_lookup_fmap, Hd. intros [= <-]. constructor.
  - done.
Qed.

(** A step keeps the invariant when it moves one thread as described. *)
Lemma exclusive_move z0 ds m k d c c' (z : Z) (h : bool) :
  exclusive z0 ds m -> ds !! k = Some d -> cores m !! k = Some c ->
  z = (memory m - added d c + added d c')%Z ->
  (forall k' d' x, k' <> k -> ds !! k' = Some d' -> cores m !! k' = Some x -> outside d' x) ->
  (if h then inside z d c' else outside d c') ->
  exclusive z0 ds (Machine z h (<[k := c']> (cores m))).
Proof.
  intros [Hlen Hcnt _ _] Hd Hc Hz Hother Hin.
  assert (Hk : k < length (cores m)) by by eapply lookup_lt_Some.
  split; cbn [cores memory held].
  - by rewrite length_insert.
  - rewrite (total_insert ds (cores m) k d c c') by done. lia.
  - intros -> k' d' x Hd'. rewrite list_lookup_insert_Some. intros [(<-&<-&_)|[Hne Hx]].
    + assert (d' = d) as -> by congruence. done.
    + eapply Hother; [|done..]. done.
  - intros ->. exists k. intros k' d' x Hd'. rewrite list_lookup_insert_Some.
    intros [(<-&<-&_)|[Hne Hx]].
    + assert (d' = d) as -> by congruence. by rewrite decide_True.
    + rewrite decide_False by done. eapply Hother; [|done..]. done.
Qed.

Lemma exclusive_step z0 ds k m m' :
  exclusive z0 ds m -> step_core k m = Some m' -> exclusive z0 ds m'.
Proof.
  intros Hm. pose proof Hm as [Hlen _ Hfree Hheld]. unfold step_core.
  destruct (cores m !! k) as [c|] eqn:Hc; [|done].
  destruct (lookup_lt_is_Some_2 ds k) as [d Hd]; [rewrite <- Hlen; by eapply lookup_lt_Some|].
  destruct (held m) eqn:Hh.
  - destruct (Hheld eq_refl) as [k0 Hk0]. pose proof (Hk0 k d c Hd Hc) as Hin.
    case_decide as Hk.
    + subst k0. assert (Hother : forall k' d' x, k' <> k -> ds !! k' = Some d' ->
        cores m !! k' = Some x -> outside d' x).
      { intros k' d' x Hne Hd' Hx. specialize (Hk0 k' d' x Hd' Hx). by rewrite decide_False in Hk0. }
      destruct Hin as [r| |r]; intros [= <-]; (eapply exclusive_move; [done..| |done|]);
        try constructor; unfold added; simpl; lia.
    + destruct Hin; done.
  - pose proof (Hfree eq_refl k d c Hd Hc) as Hout. destruct Hout as [r|r]; [|done].
    intros [= <-]. eapply exclusive_move; [done..| | |constructor].
    + unfold added. simpl. lia.
    + intros. by eapply Hfree.
Qed.

Lemma exclusive_schedule z0 ds ks : forall m m',
  exclusive z0 ds m -> schedule ks m = Some m' -> exclusive z0 ds m'.
Proof.
  induction ks as [|k ks IH]; intros m m' Hm; simpl; [by intros [= <-]|].
  destruct (step_core k m) as [m1|] eqn:E; [|done]. simpl. apply IH. by eapply exclusive_step.
Qed.

Lemma total_finished ds : forall cs,
  length cs = length ds -> Forall (fun c => code c = []) cs -> total ds cs = foldr Z.add 0%Z ds.
Proof.
  induction ds as [|d ds IH]; intros [|c cs] Hlen Hf; try done. apply Forall_cons in Hf as [Hc Hf].
  unfold total in *. simpl. rewrite IH; [|simpl in Hlen; lia|done]. unfold added. by rewrite Hc.
Qed.

(** With a lock that is taken, whatever the interleaving of any number of
    threads, the count at the end is the sum. *)
Lemma locked_count z ds ks m :
  schedule ks (start z (locked_code <$> ds)) = Some m -> finished m = true ->
  memory m = (z + foldr Z.add 0%Z ds)%Z.
Proof.
  intros Hs Hf. destruct (exclusive_schedule z ds ks _ m (exclusive_start z ds) Hs) as [Hlen -> _ _].
  rewrite total_finished; [done|done|].
  apply Forall_forall. intros c Hc. unfold finished in Hf. rewrite forallb_forall in Hf.
  apply list_elem_of_In, Hf in Hc. by destruct (code c).
Qed.

