(* ===== verification/WorkerThread.v ===== *)
(** * src/server/worker.cc: the thread object of a worker

    A [WorkerThread] is shared between the thread that serves requests, which
    sends it messages and stops it, and its own thread.  The fields of the
    class are the fields of the record; [thread] is where its own thread
    stands in [WorkerThread::do_run], [None] as long as there is none.

    [do_run] calls [Worker::run], which for both workers of the server
    (src/xappy/searchworker.cc, src/xappy/indexerworker.cc) is a loop on
    [wait_for_message]; the points of it that other threads can see are the
    constructors of [position].  The results of the pthread calls are
    parameters. *)

From S2P Require Import Prelude ServerH Dispatch.

(** Where a worker's thread is. *)
Inductive position :=
| AtWait                 (* about to call wait_for_message *)
| Waiting                (* in wait_for_message, at the loop on message_cond *)
| Received (m : Message) (* wait_for_message has returned m *)
| Exiting                (* run has ended; before cleanup and worker_exited *)
| Finished.              (* do_run has returned *)

#[export] Instance position_eq_dec : EqDecision position.
Proof. solve_decision. Defined.

Record WorkerThread (W : Type) := MkWorkerThread {
  worker : W;
  messages : list Message;
  stop_requested : bool;
  started : bool;
  joined : bool;
  had_message : bool;
  thread : option position;
}.
Arguments MkWorkerThread {W}.
Arguments worker {W}. Arguments messages {W}. Arguments stop_requested {W}.
Arguments started {W}. Arguments joined {W}. Arguments had_message {W}. Arguments thread {W}.

(** What the thread objects and the pool do besides changing their state.  A
    worker thread is named by its address. *)
Inductive event :=
| LogEntry (type : ascii) (msg : bytes)
| SetSysError (message : bytes) (errno_value : Z)
| SendMessage (w : N) (msg : Message)           (* WorkerThread::send_message *)
| QueueResponse (w : N) (connection_num : Z) (msg : bytes) (* queue_response *)
| CondSignal                                    (* pthread_cond_signal *)
| Deleted (w : N).                              (* the object is freed *)

#[export] Instance event_eq_dec : EqDecision event.
Proof. solve_decision. Defined.

(** ** The bodies of the workers' loops

    What [run] does with a message it received: [None] leaves the loop, a
    pair is a call of [send_response]. *)
Class WorkerLoop (W : Type) := run_body : W -> Message -> option (Z * bytes).

Definition SearchWorker_run (msg : Message) : option (Z * bytes) :=
  if decide (connection_num msg < 0)%Z then None
  else Some (connection_num msg, payload msg).

Definition IndexerWorker_run (dbname : bytes) (msg : Message) : option (Z * bytes) :=
  if decide (connection_num msg < 0)%Z then None
  else Some (connection_num msg, payload msg).

#[export] Instance XappyWorker_loop : WorkerLoop XappyWorker := fun w msg =>
  match w with
  | SearchWorker => SearchWorker_run msg
  | IndexerWorker dbname => IndexerWorker_run dbname msg
  end.

Section WorkerThread.
Context {W : Type}.

(** [WorkerThread::WorkerThread] *)
Definition new_WorkerThread (worker_ : W) : WorkerThread W :=
  MkWorkerThread worker_ [] false false false false None.

Definition set_messages ms (t : WorkerThread W) :=
  MkWorkerThread (worker t) ms (stop_requested t) (started t) (joined t) (had_message t) (thread t).
Definition set_stop_requested b (t : WorkerThread W) :=
  MkWorkerThread (worker t) (messages t) b (started t) (joined t) (had_message t) (thread t).
Definition set_joined b (t : WorkerThread W) :=
  MkWorkerThread (worker t) (messages t) (stop_requested t) (started t) b (had_message t) (thread t).
Definition set_had_message b (t : WorkerThread W) :=
  MkWorkerThread (worker t) (messages t) (stop_requested t) (started t) (joined t) b (thread t).
Definition set_started b (t : WorkerThread W) :=
  MkWorkerThread (worker t) (messages t) (stop_requested t) b (joined t) (had_message t) (thread t).
Definition set_thread p (t : WorkerThread W) :=
  MkWorkerThread (worker t) (messages t) (stop_requested t) (started t) (joined t) (had_message t) p.

(** The results of [pthread_mutex_lock] and [pthread_mutex_unlock] on
    [message_mutex], of [pthread_create] and of [pthread_join], and errno. *)
Record pthread := MkPthread {
  lock_rc : Z;
  unlock_rc : Z;
  create_rc : Z;
  join_rc : Z;
  errno_now : Z;
}.

Variable P : pthread.

Definition set_sys_error_if (failed : bool) (message : bytes)
    : st (WorkerThread W) event unit :=
  if failed then tell (SetSysError message (errno_now P)) else mret ().

(** [WorkerThread::start].  [pthread_create] gives a thread when it returns
    0; its errors are positive. *)
Definition start : st (WorkerThread W) event bool :=
  t ← get;
  lift_st (assert_that (started t = false));;
  modify (set_started true);;
  tell (LogEntry "D" (B "Starting worker"));;
  modify (set_thread (if decide (create_rc P = 0)%Z then Some AtWait else None));;
  if decide (create_rc P = -1)%Z then
    set_sys_error_if true (B "Can't create worker thread");;
    mret false
  else mret true.

(** [WorkerThread::stop] *)
Definition stop : st (WorkerThread W) event unit :=
  t ← get;
  if negb (started t) then mret ()
  else
    set_sys_error_if (bool_decide (lock_rc P <> 0)%Z) (B "Can't get lock on worker to stop it");;
    (if negb (stop_requested t) then
       modify (set_stop_requested true);;
       tell (LogEntry "D" (B "Stopping worker"));;
       tell CondSignal
     else mret ());;
    set_sys_error_if (bool_decide (unlock_rc P <> 0)%Z)
      (B "Can't release lock on worker after stopping it").

(** [WorkerThread::join], from the moment [pthread_join] returns. *)
Definition join : st (WorkerThread W) event unit :=
  t ← get;
  if negb (started t) || joined t then mret ()
  else
    tell (LogEntry "D" (B "Waiting for worker to stop"));;
    set_sys_error_if (bool_decide (join_rc P <> 0)%Z) (B "Failed to join worker thread");;
    modify (set_joined true);;
    tell (LogEntry "D" (B "Worker stopped")).

(** Whether [join] does not have to wait. *)
Definition join_ready (t : WorkerThread W) : Prop :=
  started t = false \/ joined t = true \/ thread t = None \/ thread t = Some Finished.

(** [WorkerThread::send_message] *)
Definition send_message (msg : Message) : st (WorkerThread W) event unit :=
  set_sys_error_if (bool_decide (lock_rc P <> 0)%Z)
    (B "Can't get lock on worker to send message to it");;
  modify (fun t => set_messages (messages t ++ [msg]) t);;
  tell CondSignal;;
  set_sys_error_if (bool_decide (unlock_rc P <> 0)%Z)
    (B "Can't release lock on worker after sending message to it").

(** The part of [wait_for_message] under [message_mutex]: [None] while it
    waits on the condition. *)
Definition wait_take (t : WorkerThread W) : option (outcome (Message * WorkerThread W)) :=
  if decide (lock_rc P <> 0)%Z then Some (Throw (StopWorker []))
  else if stop_requested t then Some (Throw (StopWorker []))
  else match messages t with
  | [] => None
  | result :: ms =>
      if decide (unlock_rc P <> 0)%Z then Some (Throw (StopWorker []))
      else Some (Ret (result, set_messages ms t))
  end.

(** ** What the operations change *)

Lemma set_sys_error_if_spec failed message (t : WorkerThread W) :
  exists evs, set_sys_error_if failed message t = (evs, Ret ((), t))
    /\ Forall (fun e => exists m n, e = SetSysError m n) evs.
Proof.
  unfold set_sys_error_if. destruct failed; [|by exists []].
  eexists. split; [done|]. constructor; [eauto|done].
Qed.
End WorkerThread.

(** The ghost history of a trace. *)
Definition sent (w : N) (l : list event) : list Message :=
  omap (fun e => match e with
    | SendMessage w' m => if decide (w' = w) then Some m else None
    | _ => None end) l.

Definition answered (w : N) (l : list event) : list (Z * bytes) :=
  omap (fun e => match e with
    | QueueResponse w' c m => if decide (w' = w) then Some (c, m) else None
    | _ => None end) l.

Lemma sent_app w l1 l2 : sent w (l1 ++ l2) = sent w l1 ++ sent w l2.
Proof. apply omap_app. Qed.
Lemma answered_app w l1 l2 : answered w (l1 ++ l2) = answered w l1 ++ answered w l2.
Proof. apply omap_app. Qed.
#[export] Hint Rewrite sent_app answered_app : xap.

(** Events that are neither. *)
Definition silent (e : event) : Prop :=
  match e with SendMessage _ _ | QueueResponse _ _ _ => False | _ => True end.

Lemma silent_history l w : Forall silent l -> sent w l = [] /\ answered w l = [].
Proof.
  induction 1 as [|[] l He _ [IH1 IH2]]; by simpl.
Qed.

Section operations.
Context {W : Type} (P : pthread).
Implicit Types t : WorkerThread W.

Ltac silent_trace := repeat constructor.

(** [send_message] appends the message. *)
Lemma send_message_spec msg t :
  exists l, send_message P msg t = (l, Ret ((), set_messages (messages t ++ [msg]) t))
    /\ Forall silent l.
Proof.
  unfold send_message, set_sys_error_if. destruct (bool_decide _), (bool_decide _);
    (eexists; split; [reflexivity|silent_trace]).
Qed.

(** [stop] on a started thread sets the flag. *)
Lemma stop_spec t :
  exists l, stop P t = (l, Ret ((), if started t then set_stop_requested true t else t))
    /\ Forall silent l.
Proof.
  unfold stop, set_sys_error_if. destruct (bool_decide _), (bool_decide _);
    destruct t as [w ms [] [] j h p]; (eexists; split; [reflexivity|silent_trace]).
Qed.

(** [start] on a new thread. *)
Lemma start_spec t :
  started t = false ->
  exists l b, start P t = (l, Ret (b, set_thread (if decide (create_rc P = 0)%Z then Some AtWait
                                        else None) (set_started true t)))
    /\ Forall silent l.
Proof.
  intros Hs. unfold start, set_sys_error_if, assert_that. destruct t as [w ms s st j h p].
  simpl in Hs. subst st. cbn [started set_thread set_started worker messages stop_requested joined
    had_message thread].
  destruct (decide (create_rc P = -1)%Z); (do 2 eexists; split; [reflexivity|silent_trace]).
Qed.

(** [join], once the thread is done: only the flag changes. *)
Lemma join_spec t :
  exists l, join P t = (l, Ret ((), if started t then set_joined true t else t))
    /\ Forall silent l.
Proof.
  unfold join, set_sys_error_if. destruct (bool_decide _);
    destruct t as [w ms s [] [] h p]; (eexists; split; [reflexivity|silent_trace]).
Qed.
End operations.
