(* ===== verification/WorkerPool.v ===== *)
(** * src/server/workerpool.cc: the pool of workers

    [WorkerThread *] is an address ([N]); [threads] is the heap of the
    objects they point to, so the sharing of an object between the pool's
    containers and the thread itself is explicit, and an access to a deleted
    object faults with [BadAddress].  [std::map] and [std::set] of pointers
    are iterated in the order of addresses.  The operations here are the
    critical sections the code means to have; what [ContextLocker] really does
    is in Locker.v. *)

From S2P Require Import Prelude CxxString Str ServerH WorkerThread.

(** [struct WorkerDetails] *)
Record WorkerDetails := MkWorkerDetails {
  d_group : bytes;
  d_messages : Z;
  d_ready_to_exit : bool;
}.

Definition new_WorkerDetails (group_ : bytes) : WorkerDetails := MkWorkerDetails group_ 0 true.

Record WorkerPool (W : Type) := MkWorkerPool {
  workers : gmap N WorkerDetails;
  workers_by_group : gmap bytes (gset N);
  exiting_workers : gset N;
  exited_workers : list N; (* a queue, front first *)
  threads : gmap N (WorkerThread W);
}.
Arguments MkWorkerPool {W}.
Arguments workers {W}. Arguments workers_by_group {W}. Arguments exiting_workers {W}.
Arguments exited_workers {W}. Arguments threads {W}.

(** A set of pointers in the order of addresses. *)
Definition by_address (s : gset N) : list N := merge_sort N.le (elements s).

(** [std::map::insert] keeps an entry that is there. *)
Definition map_insert {K V} `{Countable K} (k : K) (v : V) (m : gmap K V) : gmap K V :=
  match m !! k with Some _ => m | None => <[k := v]> m end.

Section WorkerPool.
Context {W : Type} `{D : Dispatcher W} (P : pthread).
(** [operator new]: an address that is not in use. *)
Variable alloc : gset N -> N.

Abbreviation pool := (WorkerPool W).
Abbreviation M := (st pool event).

Definition set_workers x (p : pool) : pool :=
  MkWorkerPool x (workers_by_group p) (exiting_workers p) (exited_workers p) (threads p).
Definition set_by_group x (p : pool) : pool :=
  MkWorkerPool (workers p) x (exiting_workers p) (exited_workers p) (threads p).
Definition set_exiting x (p : pool) : pool :=
  MkWorkerPool (workers p) (workers_by_group p) x (exited_workers p) (threads p).
Definition set_exited x (p : pool) : pool :=
  MkWorkerPool (workers p) (workers_by_group p) (exiting_workers p) x (threads p).
Definition set_threads x (p : pool) : pool :=
  MkWorkerPool (workers p) (workers_by_group p) (exiting_workers p) (exited_workers p) x.

(** [WorkerPool::WorkerPool] *)
Definition new_WorkerPool : pool := MkWorkerPool ∅ ∅ ∅ [] ∅.

Definition log (type : ascii) (msg : bytes) : M unit := tell (LogEntry type msg).

(** A call of a method of the object at [w]. *)
Definition call {A} (w : N) (op : st (WorkerThread W) event A) : M A := fun p =>
  match threads p !! w with
  | None => lift_outcome (Throw BadAddress)
  | Some t => '(a, t') ← op t; mret (a, set_threads (<[w := t']> (threads p)) p)
  end.

(** [delete worker], its destructor's [stop] and [join] included. *)
Definition delete (w : N) : M unit :=
  call w (stop P);;
  call w (join P);;
  modify (fun p => set_threads (base.delete w (threads p)) p);;
  tell (Deleted w).

(** [WorkerPool::add_worker] *)
Definition add_worker (worker : N) (group : bytes) : M unit :=
  modify (fun p => set_workers (map_insert worker (new_WorkerDetails group) (workers p)) p);;
  modify (fun p => set_by_group (map_insert group ∅ (workers_by_group p)) p);;
  modify (fun p => set_by_group (alter (fun s => {[worker]} ∪ s) group (workers_by_group p)) p).

(** [WorkerPool::remove_current_worker] *)
Definition remove_current_worker (worker : N) : M bool :=
  p ← get;
  match workers p !! worker with
  | None => mret false
  | Some i =>
      match workers_by_group p !! d_group i with
      | None => mret false
      | Some j =>
          if decide (worker ∈ j) then
            modify (fun p => set_by_group (<[d_group i := j ∖ {[worker]}]> (workers_by_group p)) p);;
            modify (fun p => set_workers (base.delete worker (workers p)) p);;
            mret true
          else mret false
      end
  end.

Definition resource_leak : bytes :=
  B "Couldn't remove worker - not in list of current workers.  Possible resource leak.".

(** [WorkerPool::request_exit] *)
Definition request_exit (worker : N) : M unit :=
  log "D" (B "Sending stop request to worker");;
  removed ← remove_current_worker worker;
  (if (removed : bool) then mret () else log "E" resource_leak);;
  modify (fun p => set_exiting ({[worker]} ∪ exiting_workers p) p);;
  call worker (stop P).

(** The [for] of [send_to_worker]: the first worker of the group without an
    outstanding message. *)
Fixpoint find_idle (js : list N) (ws : gmap N WorkerDetails) : outcome (option N) :=
  match js with
  | [] => Ret None
  | j :: js' =>
      match ws !! j with
      | None => Throw AssertFailed
      | Some k => if decide (d_messages k = 0)%Z then Ret (Some j) else find_idle js' ws
      end
  end.

Definition idle_worker (group : bytes) (p : pool) : outcome (option N) :=
  match workers_by_group p !! group with
  | None => Ret None
  | Some i => find_idle (by_address i) (workers p)
  end.

(** The branch that makes a worker. *)
Definition make_worker (group : bytes) : M N :=
  log "D" (B "Starting new worker");;
  match get_worker group 0 with
  | None => throw NullDeref
  | Some w =>
      p ← get;
      let a := alloc (dom (threads p)) in
      modify (fun p => set_threads (<[a := new_WorkerThread w]> (threads p)) p);;
      add_worker a group;;
      call a (start P);;
      mret a
  end.

(** [++(k->second.messages)] and the reset of the flag. *)
Definition count_message (worker : N) : M unit :=
  p ← get;
  match workers p !! worker with
  | None => throw BadAddress
  | Some k =>
      let m := (d_messages k + 1)%Z in
      if decide (in_int 32 m)
      then modify (fun p => set_workers (<[worker := MkWorkerDetails (d_group k) m false]> (workers p)) p)
      else throw IntOverflow
  end.

(** [WorkerPool::send_to_worker] *)
Definition send_to_worker (group : bytes) (msg : Message) : M unit :=
  p ← get;
  idle ← lift_st (idle_worker group p);
  worker ← match idle with Some w => mret w | None => make_worker group end;
  n ← lift_st (str_int (connection_num msg));
  log "D" (B "sending request from connection " ++ n ++ B " to worker");;
  count_message worker;;
  tell (SendMessage worker msg);;
  call worker (send_message P msg).

(** [WorkerPool::worker_message_handled] *)
Definition worker_message_handled (worker : N) (ready_to_exit : bool) : M unit :=
  p ← get;
  match workers p !! worker with
  | None => throw AssertFailed
  | Some i =>
      lift_st (assert_that (0 < d_messages i)%Z);;
      let m := (d_messages i - 1)%Z in
      let r := if decide (ready_to_exit = true /\ m = 0%Z) then true else d_ready_to_exit i in
      modify (fun p => set_workers (<[worker := MkWorkerDetails (d_group i) m r]> (workers p)) p)
  end.

(** [WorkerPool::worker_exited] *)
Definition worker_exited (worker : N) : M unit :=
  removed ← remove_current_worker worker;
  (if (removed : bool) then mret ()
   else modify (fun p => set_exiting (exiting_workers p ∖ {[worker]}) p));;
  modify (fun p => set_exited (exited_workers p ++ [worker]) p).

(** The [while (!workers.empty())] of [WorkerPool::stop]. *)
Fixpoint stop_loop (fuel : nat) : M unit :=
  match fuel with
  | 0 => throw OutOfFuel
  | S fuel' =>
      p ← get;
      match by_address (dom (workers p)) with
      | [] => mret ()
      | worker :: _ =>
          call worker (stop P);;
          removed ← remove_current_worker worker;
          (if (removed : bool) then mret () else log "E" resource_leak);;
          modify (fun p => set_exiting ({[worker]} ∪ exiting_workers p) p);;
          stop_loop fuel'
      end
  end.

(** [WorkerPool::stop] *)
Definition stop_all : M unit :=
  log "D" (B "Stopping all workers");;
  p ← get;
  stop_loop (S (size (dom (workers p)))).

(** [wait w]: what the other threads do until the thread of [w] has finished,
    while [join] waits for it without the mutex. *)
Variable wait : N -> M unit.

(** The first [while] of [WorkerPool::join]. *)
Fixpoint join_exiting (fuel : nat) : M unit :=
  match fuel with
  | 0 => throw OutOfFuel
  | S fuel' =>
      p ← get;
      match by_address (exiting_workers p) with
      | [] => mret ()
      | worker :: _ =>
          wait worker;;
          call worker (join P);;
          p ← get;
          (if decide (worker ∈ exiting_workers p) then
             modify (fun p => set_exiting (exiting_workers p ∖ {[worker]}) p);;
             delete worker
           else mret ());;
          join_exiting fuel'
      end
  end.

(** The second [while] of [WorkerPool::join]. *)
Fixpoint join_exited (fuel : nat) : M unit :=
  match fuel with
  | 0 => throw OutOfFuel
  | S fuel' =>
      p ← get;
      match exited_workers p with
      | [] => mret ()
      | worker :: rest =>
          call worker (join P);;
          delete worker;;
          modify (fun p => set_exited (tail (exited_workers p)) p);;
          join_exited fuel'
      end
  end.

(** [WorkerPool::join] *)
Definition join_all : M unit :=
  log "D" (B "Joining all workers");;
  p ← get;
  join_exiting (S (size (exiting_workers p)));;
  p ← get;
  join_exited (S (length (exited_workers p))).

(** The loops of [WorkerPool::~WorkerPool] over [workers] and over
    [exiting_workers]: the thread that is waited for erases its entry, and the
    iterator is then used again. *)
Fixpoint delete_workers (ws : list N) : M unit :=
  match ws with
  | [] => mret ()
  | worker :: ws' =>
      wait worker;;
      call worker (join P);;
      p ← get;
      (if decide (worker ∈ dom (workers p) ∪ exiting_workers p)
       then delete worker else throw BadAddress);;
      delete_workers ws'
  end.

Fixpoint stop_workers (ws : list N) : M unit :=
  match ws with
  | [] => mret ()
  | worker :: ws' => call worker (stop P);; stop_workers ws'
  end.

(** [WorkerPool::~WorkerPool] *)
Definition delete_WorkerPool : M unit :=
  p ← get;
  stop_workers (by_address (dom (workers p)));;
  delete_workers (by_address (dom (workers p)));;
  p ← get;
  delete_workers (by_address (exiting_workers p));;
  p ← get;
  join_exited (S (length (exited_workers p))).
End WorkerPool.

(** ** Iteration by address *)

Lemma elem_of_by_address w s : w ∈ by_address s <-> w ∈ s.
Proof. unfold by_address. by rewrite merge_sort_Permutation, elem_of_elements. Qed.

Lemma by_address_NoDup s : NoDup (by_address s).
Proof. unfold by_address. rewrite merge_sort_Permutation. apply NoDup_elements. Qed.

Lemma by_address_sorted s : StronglySorted N.le (by_address s).
Proof. apply (StronglySorted_merge_sort N.le). Qed.

Lemma by_address_nil s : by_address s = [] <-> s = ∅.
Proof.
  split; intros H.
  - apply set_eq. intros w. rewrite <- elem_of_by_address, H. set_solver.
  - by subst s.
Qed.

(** ** The well-formed pools *)

Definition group_of {W} (p : WorkerPool W) (g : bytes) : gset N :=
  default ∅ (workers_by_group p !! g).

(** The two indexes hold the same workers; a thread object is referred to by
    exactly one of the containers, and no object is lost. *)
Record pool_wf {W} (p : WorkerPool W) : Prop := {
  wf_grouped w d : workers p !! w = Some d -> w ∈ group_of p (d_group d);
  wf_member g w : w ∈ group_of p g -> exists d, workers p !! w = Some d /\ d_group d = g;
  wf_exiting w : w ∈ exiting_workers p -> ~ (w ∈ dom (workers p));
  wf_exited w : w ∈ exited_workers p ->
    ~ (w ∈ dom (workers p)) /\ ~ (w ∈ exiting_workers p);
  wf_exited_once : NoDup (exited_workers p);
  wf_heap : dom (threads p) =
            dom (workers p) ∪ exiting_workers p ∪ list_to_set (exited_workers p);
}.

Lemma wf_alive {W} (p : WorkerPool W) w :
  pool_wf p -> w ∈ dom (workers p) \/ w ∈ exiting_workers p \/ w ∈ exited_workers p ->
  is_Some (threads p !! w).
Proof.
  intros Hp Hw. apply elem_of_dom. rewrite (wf_heap p Hp). set_solver.
Qed.

Lemma wf_worker {W} (p : WorkerPool W) w d :
  pool_wf p -> workers p !! w = Some d -> is_Some (threads p !! w).
Proof. intros Hp Hw. apply wf_alive; [done|]. left. by apply elem_of_dom_2 in Hw. Qed.

(** Only the containers and the set of objects matter. *)
Lemma wf_same {W} (p q : WorkerPool W) :
  pool_wf p -> d_group <$> workers q = d_group <$> workers p ->
  workers_by_group q = workers_by_group p -> exiting_workers q = exiting_workers p ->
  exited_workers q = exited_workers p -> dom (threads q) = dom (threads p) -> pool_wf q.
Proof.
  intros Hp Hw Hg He Hd Ht.
  assert (Hl : forall w, d_group <$> workers q !! w = d_group <$> workers p !! w)
    by (intros w; by rewrite <- !lookup_fmap, Hw).
  assert (Hdom : dom (workers q) = dom (workers p)).
  { rewrite <- (dom_fmap_L d_group (workers q)), Hw. by rewrite dom_fmap_L. }
  assert (Hgo : forall g, group_of q g = group_of p g) by (intros g; unfold group_of; by rewrite Hg).
  split.
  - intros w d Hwd. specialize (Hl w). rewrite Hwd in Hl. rewrite Hgo.
    destruct (workers p !! w) as [d'|] eqn:E; [|done]. simplify_eq/=.
    rewrite Hl. by apply (wf_grouped p Hp).
  - intros g w Hin. rewrite Hgo in Hin. apply (wf_member p Hp) in Hin as (d&E&<-).
    specialize (Hl w). rewrite E in Hl. destruct (workers q !! w) as [d'|]; [|done].
    simplify_eq/=. eauto.
  - intros w. rewrite He, Hdom. apply (wf_exiting p Hp).
  - intros w. rewrite Hd, He, Hdom. apply (wf_exited p Hp).
  - rewrite Hd. apply (wf_exited_once p Hp).
  - rewrite Ht, Hdom, He, Hd. apply (wf_heap p Hp).
Qed.

(** ** The operations on well-formed pools *)

Section specs.
#[local] Set Default Proof Using "Type".
Context {W : Type} `{D : Dispatcher W} (P : pthread) (alloc : gset N -> N).
Implicit Types p q : WorkerPool W.

Lemma call_spec {A} w (op : st (WorkerThread W) event A) p t l a t' :
  threads p !! w = Some t -> op t = (l, Ret (a, t')) ->
  call w op p = (l, Ret (a, set_threads (<[w := t']> (threads p)) p)).
Proof. intros Ht Ho. unfold call. rewrite Ht, Ho, eff_bind_pair. simpl. by rewrite app_nil_r. Qed.

(** Pools that differ only in the fields of the objects. *)
Lemma wf_set_threads p w t :
  pool_wf p -> w ∈ dom (threads p) -> pool_wf (set_threads (<[w := t]> (threads p)) p).
Proof.
  intros Hp Hw. apply (wf_same p); try done. simpl. set_solver.
Qed.

Lemma wf_set_details p w d d' :
  pool_wf p -> workers p !! w = Some d -> d_group d' = d_group d ->
  pool_wf (set_workers (<[w := d']> (workers p)) p).
Proof.
  intros Hp Hw Hd. apply (wf_same p); try done. simpl.
  rewrite fmap_insert, Hd. apply insert_id. by rewrite lookup_fmap, Hw.
Qed.

(** [add_worker] for a new object. *)
Definition with_worker (w : N) (g : bytes) (p : WorkerPool W) : WorkerPool W :=
  set_by_group (<[g := {[w]} ∪ group_of p g]> (workers_by_group p))
    (set_workers (<[w := new_WorkerDetails g]> (workers p)) p).

Lemma add_worker_spec p w g :
  w ∉ dom (workers p) -> add_worker w g p = ([], Ret ((), with_worker w g p)).
Proof.
  intros Hw. apply not_elem_of_dom in Hw.
  unfold add_worker, with_worker, mbind, st_bind, modify, map_insert. rewrite !eff_bind_ret.
  destruct p as [ws bg ex ed ts]. unfold group_of. simpl in *. rewrite Hw.
  unfold mret, eff_ret, set_by_group, set_workers. simpl. do 5 f_equal.
  destruct (bg !! g) as [s|] eqn:E; simpl.
  - apply map_eq. intros g'. destruct (decide (g = g')) as [<-|].
    + by rewrite lookup_alter, lookup_insert, E, !decide_True.
    + by rewrite lookup_alter_ne, lookup_insert_ne.
  - apply map_eq. intros g'. destruct (decide (g = g')) as [<-|].
    + by rewrite lookup_alter, !lookup_insert, !decide_True.
    + by rewrite lookup_alter_ne, !lookup_insert_ne.
Qed.

Lemma group_of_insert p g s g' :
  default ∅ (<[g := s]> (workers_by_group p) !! g') = if decide (g' = g) then s else group_of p g'.
Proof.
  unfold group_of. destruct (decide (g' = g)) as [->|].
  - by rewrite lookup_insert, decide_True.
  - by rewrite lookup_insert_ne.
Qed.

Lemma wf_with_worker p w g t :
  pool_wf p -> w ∉ dom (threads p) ->
  pool_wf (with_worker w g (set_threads (<[w := t]> (threads p)) p)).
Proof.
  intros Hp Hw.
  assert (Hnw : (w ∉ dom (workers p)) /\ (w ∉ exiting_workers p) /\ w ∉ exited_workers p).
  { rewrite (wf_heap p Hp) in Hw. set_solver. }
  destruct Hnw as (Hn1&Hn2&Hn3).
  assert (Hgo : forall g', group_of (with_worker w g (set_threads (<[w := t]> (threads p)) p)) g'
    = if decide (g' = g) then {[w]} ∪ group_of p g else group_of p g').
  { intros g'. unfold group_of at 1. simpl. apply group_of_insert. }
  split; simpl.
  - intros w' d. rewrite Hgo. destruct (decide (w' = w)) as [->|Hne].
    + rewrite lookup_insert, decide_True by done. intros [= <-]. simpl.
      rewrite decide_True by done. set_solver.
    + rewrite lookup_insert_ne by done. intros Hd%(wf_grouped p Hp). case_decide; [|done].
      subst. set_solver.
  - intros g' w'. rewrite Hgo. intros Hin.
    destruct (decide (w' = w)) as [->|Hne].
    + eexists. rewrite lookup_insert, decide_True by done. split; [done|]. simpl.
      case_decide as Hg; [done|]. apply (wf_member p Hp) in Hin as (d&Hd&_).
      exfalso. apply Hn1. by eapply elem_of_dom_2.
    + rewrite lookup_insert_ne by done. apply (wf_member p Hp). case_decide; set_solver.
  - intros w' Hw'. pose proof (wf_exiting p Hp w' Hw'). set_solver.
  - intros w' Hw'. destruct (wf_exited p Hp w' Hw'). split; [|done]. set_solver.
  - apply (wf_exited_once p Hp).
  - rewrite !dom_insert_L, (wf_heap p Hp). set_solver.
Qed.

(** [remove_current_worker] *)
Definition without_worker (w : N) (p : WorkerPool W) : WorkerPool W :=
  match workers p !! w with
  | None => p
  | Some d =>
      set_workers (base.delete w (workers p))
        (set_by_group (<[d_group d := group_of p (d_group d) ∖ {[w]}]> (workers_by_group p)) p)
  end.

Lemma remove_current_worker_spec p w :
  pool_wf p ->
  remove_current_worker w p
  = ([], Ret (bool_decide (w ∈ dom (workers p)), without_worker w p)).
Proof.
  intros Hp. unfold remove_current_worker, without_worker, mbind, st_bind, get.
  rewrite eff_bind_ret. destruct (workers p !! w) as [d|] eqn:Hw.
  - pose proof (wf_grouped p Hp w d Hw) as Hin. unfold group_of in *.
    destruct (workers_by_group p !! d_group d) as [s|] eqn:Hs; [|set_solver].
    cbn [default from_option id] in *. rewrite decide_True by done. unfold modify.
    rewrite !eff_bind_ret, bool_decide_true by by eapply elem_of_dom_2. done.
  - rewrite bool_decide_false; [done|]. by apply not_elem_of_dom.
Qed.

(** A worker that leaves the current ones has to go to another container. *)
Lemma without_worker_facts p w :
  pool_wf p ->
  dom (workers (without_worker w p)) = dom (workers p) ∖ {[w]}
  /\ (forall w', w' <> w -> workers (without_worker w p) !! w' = workers p !! w')
  /\ workers (without_worker w p) !! w = None
  /\ (forall g, group_of (without_worker w p) g = group_of p g ∖ {[w]})
  /\ exiting_workers (without_worker w p) = exiting_workers p
  /\ exited_workers (without_worker w p) = exited_workers p
  /\ threads (without_worker w p) = threads p.
Proof.
  intros Hp. unfold without_worker. destruct (workers p !! w) as [d|] eqn:Hw; simpl.
  - split_and!; try done.
    + by rewrite dom_delete_L.
    + intros. by rewrite lookup_delete_ne.
    + by rewrite lookup_delete, decide_True.
    + intros g. unfold group_of at 1. simpl. rewrite group_of_insert. case_decide as Hg; [by subst|].
      apply set_eq. intros w'. split; [|set_solver]. intros Hin.
      apply elem_of_difference. split; [done|]. rewrite elem_of_singleton. intros ->.
      apply (wf_member p Hp) in Hin as (d'&?&?). congruence.
  - split_and!; try done.
    + apply not_elem_of_dom in Hw. set_solver.
    + intros g. apply set_eq. intros w'. split; [|set_solver]. intros Hin.
      apply elem_of_difference. split; [done|]. rewrite elem_of_singleton. intros ->.
      apply (wf_member p Hp) in Hin as (d'&?&?). congruence.
Qed.

(** The search of [send_to_worker] does not fail its assertion, and finds the
    idle worker of the lowest address. *)
Definition idle (p : WorkerPool W) (w : N) : Prop :=
  exists d, workers p !! w = Some d /\ d_messages d = 0%Z.

Lemma find_idle_spec js ws :
  (forall w, w ∈ js -> is_Some (ws !! w)) ->
  exists o, find_idle js ws = Ret o /\
    match o with
    | Some w => exists d pre post, js = pre ++ w :: post /\ ws !! w = Some d
        /\ d_messages d = 0%Z
        /\ forall w' d', w' ∈ pre -> ws !! w' = Some d' -> d_messages d' <> 0%Z
    | None => forall w' d', w' ∈ js -> ws !! w' = Some d' -> d_messages d' <> 0%Z
    end.
Proof.
  induction js as [|j js IH]; intros Hin; cbn [find_idle].
  - exists None. split; [done|]. by intros w' d' ?%not_elem_of_nil.
  - destruct (Hin j) as [d Hd]; [set_solver|]. rewrite Hd. case_decide as H0.
    + exists (Some j). split; [done|]. exists d, [], js. split_and!; try done.
      by intros w' d' ?%not_elem_of_nil.
    + destruct IH as (o&->&Ho); [set_solver|]. exists o. split; [done|].
      destruct o as [w|].
      * destruct Ho as (d0&pre&post&->&?&?&Hpre). exists d0, (j :: pre), post.
        split_and!; try done. intros w' d' [->|?]%elem_of_cons ?; [by simplify_eq|eauto].
      * intros w' d' [->|?]%elem_of_cons ?; [by simplify_eq|eauto].
Qed.

Lemma idle_worker_spec p g :
  pool_wf p ->
  exists o, idle_worker g p = Ret o /\
    match o with
    | Some w => w ∈ group_of p g /\ idle p w
        /\ forall w', w' ∈ group_of p g -> idle p w' -> (w <= w')%N
    | None => forall w, w ∈ group_of p g -> ~ idle p w
    end.
Proof.
  clear alloc. intros Hp. unfold idle_worker. pose proof (wf_member p Hp g) as Hm. unfold group_of in *.
  destruct (workers_by_group p !! g) as [s|]; cbn [default from_option id] in *.
  2: { exists None. split; [done|]. intros w Hw. by apply not_elem_of_empty in Hw. }
  destruct (find_idle_spec (by_address s) (workers p)) as (o&->&Ho).
  { intros w ?%elem_of_by_address. destruct (Hm w) as (d&?&_); eauto. }
  exists o. split; [done|]. destruct o as [w|].
  - destruct Ho as (d&pre&post&Hs&Hd&H0&Hpre).
    assert (Hw : w ∈ by_address s) by (rewrite Hs; set_solver).
    split_and!; [by apply elem_of_by_address|by exists d|].
    intros w' Hw'%elem_of_by_address (d'&Hd'&H0'). rewrite Hs in Hw'.
    pose proof (by_address_sorted s) as Hsort. rewrite Hs in Hsort.
    apply elem_of_app in Hw' as [Hin|[->|Hin]%elem_of_cons].
    + by destruct (Hpre w' d' Hin Hd').
    + done.
    + apply StronglySorted_app_1_r in Hsort. apply StronglySorted_inv in Hsort as [_ Hall].
      rewrite Forall_forall in Hall. auto.
  - intros w Hw%elem_of_by_address (d&Hd&H0). by eapply Ho.
Qed.

(** The pool after a message went to a worker with the details [d]. *)
Definition delivered (w : N) (d : WorkerDetails) (t : WorkerThread W) (msg : Message)
    (p : WorkerPool W) : WorkerPool W :=
  set_threads (<[w := set_messages (messages t ++ [msg]) t]> (threads p))
    (set_workers (<[w := MkWorkerDetails (d_group d) (d_messages d + 1) false]> (workers p)) p).

(** The last part of [send_to_worker]: count, then push. *)
Lemma deliver_spec p w d t msg :
  workers p !! w = Some d -> threads p !! w = Some t ->
  in_int 32 (d_messages d + 1) ->
  in_int 32 (connection_num msg) -> connection_num msg <> int_min 32 ->
  exists l, (n ← lift_st (str_int (connection_num msg));
    log "D" (B "sending request from connection " ++ n ++ B " to worker");;
    count_message w;; tell (SendMessage w msg);; call w (send_message P msg)) p
    = (l, Ret ((), delivered w d t msg p))
  /\ sent w l = [msg] /\ (forall w', w' <> w -> sent w' l = [])
  /\ forall w', answered w' l = [].
Proof.
  intros Hw Ht Hd Hc Hm.
  destruct (str_int_ok (connection_num msg)) as (n&Hn); [done..|].
  destruct (send_message_spec P msg t) as (l&El&Hl).
  exists (LogEntry "D" (B "sending request from connection " ++ n ++ B " to worker")
          :: SendMessage w msg :: l).
  split.
  - unfold log, count_message. rewrite Hn, st_lift, st_tell, st_assoc, st_get, Hw.
    rewrite decide_True by done. rewrite st_modify, st_tell.
    erewrite (call_spec w); [|exact Ht|exact El]. done.
  - assert (Hsil : forall w', sent w' l = [] /\ answered w' l = []) by (intros; by apply silent_history).
    simpl. split_and!.
    + rewrite decide_True by done. f_equal. apply Hsil.
    + intros w' ?. rewrite decide_False by done. apply Hsil.
    + intros w'. apply Hsil.
Qed.

Definition sendable (msg : Message) : Prop :=
  in_int 32 (connection_num msg) /\ connection_num msg <> int_min 32.

Lemma sendable_nonneg msg :
  (0 <= connection_num msg <= int_max 32)%Z -> sendable msg.
Proof. intros H. split; [|unfold int_min; simpl; lia]. unfold in_int, int_min in *. simpl. lia. Qed.

(** A message for a group with an idle worker. *)
Lemma send_to_idle p g msg w :
  pool_wf p -> sendable msg -> idle_worker g p = Ret (Some w) ->
  exists d t l, workers p !! w = Some d /\ threads p !! w = Some t
    /\ d_group d = g /\ d_messages d = 0%Z
    /\ send_to_worker P alloc g msg p = (l, Ret ((), delivered w d t msg p))
    /\ sent w l = [msg] /\ (forall w', w' <> w -> sent w' l = [])
    /\ forall w', answered w' l = [].
Proof.
  intros Hp [Hc Hm] Hi. destruct (idle_worker_spec p g Hp) as (o&Ho&Hspec).
  assert (o = Some w) as -> by congruence. destruct Hspec as (Hg&(d&Hd&H0)&_).
  destruct (wf_member p Hp g w Hg) as (d'&Hd'&Hgd). assert (d' = d) as -> by congruence.
  destruct (wf_worker p w d Hp Hd) as [t Ht].
  destruct (deliver_spec p w d t msg) as (l&El&Hl); [done|done|by rewrite H0; vm_compute|done|done|].
  exists d, t, l. split_and!; try done; try apply Hl.
  unfold send_to_worker. rewrite st_get, Hi, st_lift, st_mret. exact El.
Qed.

(** A message for a group without one: a worker is made and started. *)
Definition new_thread (wk : W) : WorkerThread W :=
  set_thread (if decide (create_rc P = 0)%Z then Some AtWait else None)
    (set_started true (new_WorkerThread wk)).

Definition with_new_worker (a : N) (wk : W) (g : bytes) (p : WorkerPool W) : WorkerPool W :=
  set_threads (<[a := new_thread wk]> (threads p)) (with_worker a g p).

Lemma send_to_new p g msg wk :
  (forall s, alloc s ∉ s) ->
  pool_wf p -> sendable msg -> idle_worker g p = Ret None -> get_worker g 0 = Some wk ->
  let a := alloc (dom (threads p)) in
  exists l, send_to_worker P alloc g msg p
      = (l, Ret ((), delivered a (new_WorkerDetails g) (new_thread wk) msg
                       (with_new_worker a wk g p)))
    /\ sent a l = [msg] /\ (forall w', w' <> a -> sent w' l = [])
    /\ forall w', answered w' l = [].
Proof.
  intros Halloc Hp [Hc Hm] Hi Hwk a.
  assert (Ha : a ∉ dom (threads p)) by apply Halloc.
  assert (Hna : a ∉ dom (workers p)) by (rewrite (wf_heap p Hp) in Ha; set_solver).
  destruct (start_spec P (new_WorkerThread wk)) as (ls&b&Es&Hs); [done|].
  destruct (deliver_spec (with_new_worker a wk g p) a (new_WorkerDetails g) (new_thread wk) msg)
    as (l&El&Hl1&Hl2&Hl3).
  { simpl. by rewrite lookup_insert, decide_True. }
  { simpl. by rewrite lookup_insert, decide_True. }
  { by vm_compute. }
  { done. }
  { done. }
  exists (LogEntry "D" (B "Starting new worker") :: ls ++ l). split.
  - unfold send_to_worker, make_worker. rewrite st_get, Hi, st_lift, Hwk.
    unfold log in *. rewrite st_assoc, st_tell, st_assoc, st_get. fold a. rewrite st_assoc, st_modify, st_assoc.
    erewrite st_run; [|apply add_worker_spec; exact Hna].
    rewrite st_assoc. erewrite st_run.
    2: { eapply call_spec; [|exact Es]. simpl. by rewrite lookup_insert, decide_True. }
    rewrite st_mret. cbn [events result fst snd app].
    replace (set_threads _ (with_worker a g _)) with (with_new_worker a wk g p).
    2: { unfold with_new_worker, with_worker. destruct p. cbn. by rewrite insert_insert, decide_True. }
    by rewrite El.
  - assert (Hsil : forall w', sent w' ls = [] /\ answered w' ls = []) by (intros; by apply silent_history).
    simpl. autorewrite with xap. split_and!.
    + by rewrite (proj1 (Hsil a)), Hl1.
    + intros w' Hw'. rewrite sent_app, (proj1 (Hsil w')). by apply Hl2.
    + intros w'. rewrite answered_app, (proj2 (Hsil w')). apply Hl3.
Qed.

Lemma wf_delivered p w d t t' msg :
  pool_wf p -> workers p !! w = Some d -> threads p !! w = Some t' ->
  pool_wf (delivered w d t msg p).
Proof.
  intros Hp Hd Ht. unfold delivered. apply (wf_set_threads (set_workers _ p)).
  - by apply (wf_set_details p w d).
  - simpl. by eapply elem_of_dom_2.
Qed.

Lemma wf_with_new_worker p a wk g :
  pool_wf p -> a ∉ dom (threads p) -> pool_wf (with_new_worker a wk g p).
Proof.
  intros Hp Ha. pose proof (wf_with_worker p a g (new_thread wk) Hp Ha) as H.
  destruct p. exact H.
Qed.

(** [worker_message_handled] for a current worker with a message counted. *)
Lemma worker_message_handled_spec p w b d :
  workers p !! w = Some d -> (0 < d_messages d)%Z ->
  exists r, worker_message_handled w b p
    = ([], Ret ((), set_workers (<[w := MkWorkerDetails (d_group d) (d_messages d - 1) r]>
                                   (workers p)) p)).
Proof.
  intros Hd H0. unfold worker_message_handled, assert_that. eexists.
  rewrite st_get, Hd. rewrite (decide_True (P := (0 < d_messages d)%Z)) by done.
  rewrite st_lift. reflexivity.
Qed.

(** [worker_exited]: the object moves to the exited ones. *)
Definition exited (w : N) (p : WorkerPool W) : WorkerPool W :=
  set_exited (exited_workers p ++ [w])
    (if decide (w ∈ dom (workers p)) then without_worker w p
     else set_exiting (exiting_workers p ∖ {[w]}) p).

Lemma worker_exited_spec p w :
  pool_wf p -> worker_exited w p = ([], Ret ((), exited w p)).
Proof.
  intros Hp. unfold worker_exited, exited.
  erewrite st_run; [|by apply remove_current_worker_spec].
  destruct (without_worker_facts p w Hp) as (_&_&_&_&_&Hex&_).
  case_bool_decide as Hw.
  - rewrite st_mret. rewrite decide_True by done. unfold modify. cbn. by rewrite Hex.
  - rewrite decide_False by done. unfold without_worker.
    apply not_elem_of_dom in Hw. rewrite Hw. rewrite st_modify. done.
Qed.

Lemma wf_exited_step p w :
  pool_wf p -> w ∈ dom (workers p) ∪ exiting_workers p -> pool_wf (exited w p).
Proof.
  intros Hp Hw. unfold exited.
  pose proof (wf_exited p Hp w) as Hnw.
  assert (Hnot : w ∉ exited_workers p) by set_solver. clear Hnw.
  destruct (without_worker_facts p w Hp) as (F1&F2&F3&F4&F5&F6&F7).
  case_decide as Hin.
  - split; simpl.
    + intros w' d Hd. destruct (decide (w' = w)) as [->|Hne]; [congruence|].
      rewrite F2 in Hd by done. change (group_of _ ?g) with (group_of (without_worker w p) g).
      rewrite F4. apply (wf_grouped p Hp) in Hd. set_solver.
    + intros g w' Hg. change (w' ∈ group_of (without_worker w p) g) in Hg. rewrite F4 in Hg.
      apply elem_of_difference in Hg as [Hg Hne]. rewrite F2 by set_solver.
      by apply (wf_member p Hp).
    + intros w'. rewrite F5, F1. intros Hw'%(wf_exiting p Hp). set_solver.
    + intros w'. rewrite F5, F1. intros [Hw'|Hw'%list_elem_of_singleton]%elem_of_app.
      * destruct (wf_exited p Hp w' Hw'). set_solver.
      * subst w'. split; [set_solver|]. intros Hx%(wf_exiting p Hp). done.
    + rewrite NoDup_app. split_and!; [apply (wf_exited_once p Hp)| |apply NoDup_singleton].
      intros w' Hw' Hx%list_elem_of_singleton. by subst.
    + rewrite F7, F1, F5, list_to_set_app_L, (wf_heap p Hp). simpl.
      apply set_eq. intros x. destruct (decide (x = w)) as [->|]; set_solver.
  - split; simpl.
    + apply (wf_grouped p Hp).
    + apply (wf_member p Hp).
    + intros w' [Hw' _]%elem_of_difference. by apply (wf_exiting p Hp).
    + intros w' [Hw'|Hw'%list_elem_of_singleton]%elem_of_app.
      * destruct (wf_exited p Hp w' Hw'). set_solver.
      * subst w'. set_solver.
    + rewrite NoDup_app. split_and!; [apply (wf_exited_once p Hp)| |apply NoDup_singleton].
      intros w' Hw' Hx%list_elem_of_singleton. by subst.
    + rewrite list_to_set_app_L, (wf_heap p Hp). simpl.
      apply set_eq. intros x. destruct (decide (x = w)) as [->|]; set_solver.
Qed.

(** A current worker becomes an exiting one. *)
Definition made_exiting (w : N) (p : WorkerPool W) : WorkerPool W :=
  set_exiting ({[w]} ∪ exiting_workers (without_worker w p)) (without_worker w p).

Lemma wf_made_exiting p w :
  pool_wf p -> w ∈ dom (workers p) -> pool_wf (made_exiting w p).
Proof.
  intros Hp Hw. unfold made_exiting.
  destruct (without_worker_facts p w Hp) as (F1&F2&F3&F4&F5&F6&F7).
  assert (Hnex : w ∉ exited_workers p) by (intros H; by apply (wf_exited p Hp) in H as [? _]).
  split; simpl.
  - intros w' d Hd. destruct (decide (w' = w)) as [->|Hne]; [congruence|].
    rewrite F2 in Hd by done. change (group_of _ ?g) with (group_of (without_worker w p) g).
    rewrite F4. apply (wf_grouped p Hp) in Hd. set_solver.
  - intros g w' Hg. change (w' ∈ group_of (without_worker w p) g) in Hg. rewrite F4 in Hg.
    apply elem_of_difference in Hg as [Hg Hne]. rewrite F2 by set_solver. by apply (wf_member p Hp).
  - intros w'. rewrite F5, F1. intros [?|Hx%(wf_exiting p Hp)]%elem_of_union; set_solver.
  - intros w'. rewrite F6, F5, F1. intros Hx. destruct (wf_exited p Hp w' Hx).
    split; [set_solver|]. intros [->%elem_of_singleton|?]%elem_of_union; done.
  - rewrite F6. apply (wf_exited_once p Hp).
  - rewrite F7, F1, F5, F6, (wf_heap p Hp). apply set_eq. intros x.
    destruct (decide (x = w)) as [->|]; set_solver.
Qed.

Definition stop_thread (t : WorkerThread W) : WorkerThread W :=
  if started t then set_stop_requested true t else t.

(** What [WorkerPool::stop] leaves: every current worker has been told to
    stop and is an exiting one. *)
Record stopped (p p' : WorkerPool W) : Prop := {
  stopped_wf : pool_wf p';
  stopped_workers : workers p' = ∅;
  stopped_exiting : exiting_workers p' = dom (workers p) ∪ exiting_workers p;
  stopped_exited : exited_workers p' = exited_workers p;
  stopped_threads w : threads p' !! w =
    (if decide (w ∈ dom (workers p)) then stop_thread else id) <$> threads p !! w;
}.

Lemma stop_loop_spec fuel : forall p,
  pool_wf p -> size (dom (workers p)) < fuel ->
  exists l p', stop_loop P fuel p = (l, Ret ((), p')) /\ Forall silent l /\ stopped p p'.
Proof.
  induction fuel as [|fuel IH]; intros p Hp Hf; [lia|].
  cbn [stop_loop]. rewrite st_get. destruct (by_address (dom (workers p))) as [|w ws] eqn:Hws.
  - apply by_address_nil in Hws. apply dom_empty_inv_L in Hws as Hw.
    exists [], p. split_and!; [done|done|]. split; try done.
    + rewrite Hws. set_solver.
    + intros w. rewrite Hws, decide_False by set_solver. by destruct (threads p !! w).
  - assert (Hw : w ∈ dom (workers p)) by (apply elem_of_by_address; rewrite Hws; set_solver).
    apply elem_of_dom in Hw as Hd. destruct Hd as [d Hd].
    destruct (wf_worker p w d Hp Hd) as [t Ht].
    destruct (stop_spec P t) as (l1&E1&Hl1). fold (stop_thread t) in E1.
    set (p1 := set_threads (<[w := stop_thread t]> (threads p)) p).
    assert (Hp1 : pool_wf p1) by (apply wf_set_threads; [done|by eapply elem_of_dom_2]).
    assert (Hw1 : w ∈ dom (workers p1)) by done.
    set (p2 := made_exiting w p1).
    assert (Hp2 : pool_wf p2) by by apply wf_made_exiting.
    destruct (without_worker_facts p1 w Hp1) as (F1&F2&F3&F4&F5&F6&F7).
    assert (Hdom2 : dom (workers p2) = dom (workers p) ∖ {[w]}) by exact F1.
    destruct (IH p2 Hp2) as (l&p'&E&Hl&Hst).
    { rewrite Hdom2. rewrite size_difference by set_solver. rewrite size_singleton.
      assert (0 < size (dom (workers p))); [|lia].
      apply Nat.neq_0_lt_0. intros H0%size_empty_inv. set_solver. }
    exists (l1 ++ l), p'. split_and!.
    + erewrite st_run; [|eapply call_spec; [exact Ht|exact E1]]. fold p1.
      erewrite st_run; [|by apply remove_current_worker_spec].
      rewrite bool_decide_true by done. rewrite st_mret, st_modify.
      change (set_exiting _ (without_worker w p1)) with p2. by rewrite E.
    + by apply Forall_app.
    + destruct Hst as [G1 G2 G3 G4 G5]. split; try done.
      * rewrite G3, Hdom2. change (exiting_workers p2) with ({[w]} ∪ exiting_workers (without_worker w p1)).
        rewrite F5. change (exiting_workers p1) with (exiting_workers p).
        apply set_eq. intros x. destruct (decide (x = w)) as [->|]; set_solver.
      * rewrite G4. change (exited_workers p2) with (exited_workers (without_worker w p1)).
        by rewrite F6.
      * intros w'. rewrite G5, Hdom2.
        change (threads p2) with (threads (without_worker w p1)). rewrite F7. simpl.
        destruct (decide (w' = w)) as [->|Hne].
        -- rewrite decide_False by set_solver. rewrite lookup_insert, decide_True by done.
           by rewrite decide_True, Ht by done.
        -- rewrite lookup_insert_ne by done. f_equal.
           destruct (decide (w' ∈ dom (workers p))); [rewrite decide_True by set_solver|
             rewrite decide_False by set_solver]; done.
Qed.

Lemma stop_all_spec p :
  pool_wf p ->
  exists l p', stop_all P p = (l, Ret ((), p')) /\ Forall silent l /\ stopped p p'.
Proof.
  intros Hp. unfold stop_all, log. rewrite st_tell, st_get.
  destruct (stop_loop_spec (S (size (dom (workers p)))) p Hp) as (l&p'&->&Hl&Hs); [lia|].
  eexists _, p'. split_and!; [done|by constructor|done].
Qed.

(** The objects a trace frees. *)
Definition deleted (l : list event) : list N :=
  omap (fun e => match e with Deleted w => Some w | _ => None end) l.

Lemma deleted_app l1 l2 : deleted (l1 ++ l2) = deleted l1 ++ deleted l2.
Proof. apply omap_app. Qed.

Lemma call_silent_deleted l :
  Forall (fun e => forall w, e <> Deleted w) l -> deleted l = [].
Proof. induction 1 as [|[] l He _ IH]; simpl; try done. by destruct (He w). Qed.

Lemma stop_no_delete (t : WorkerThread W) l r : stop P t = (l, r) -> deleted l = [].
Proof.
  unfold stop, set_sys_error_if. destruct (bool_decide _), (bool_decide _), t as [? ? [] [] ? ? ?];
    cbn; intros [= <- _]; done.
Qed.

Lemma join_no_delete (t : WorkerThread W) l r : join P t = (l, r) -> deleted l = [].
Proof.
  unfold join, set_sys_error_if. destruct (bool_decide _), t as [? ? ? [] [] ? ?];
    cbn; intros [= <- _]; done.
Qed.

(** [delete] frees the object. *)
Lemma delete_spec p w :
  is_Some (threads p !! w) ->
  exists l, delete P w p
    = (l, Ret ((), set_threads (base.delete w (threads p)) p)) /\ deleted l = [w].
Proof.
  intros [t Ht]. unfold delete.
  destruct (stop_spec P t) as (l1&E1&_). destruct (join_spec P (stop_thread t)) as (l2&E2&_).
  pose proof (stop_no_delete _ _ _ E1). pose proof (join_no_delete _ _ _ E2).
  eexists. split.
  - erewrite st_run; [|eapply call_spec; [exact Ht|exact E1]].
    erewrite st_run; [|eapply call_spec; [|exact E2]].
    2: { cbn [threads set_threads]. rewrite lookup_insert. by rewrite decide_True. }
    rewrite st_modify. unfold tell. rewrite eff_bind_emit.
    cbn [threads set_threads workers workers_by_group exiting_workers exited_workers].
    rewrite insert_insert, decide_True by done. by rewrite delete_insert_eq.
  - cbn [events fst]. rewrite !deleted_app. rewrite H, H0. done.
Qed.

(** What is relied on while [join] waits for the thread of an exiting worker:
    in the meantime threads may finish, in particular that one, each moving
    its object from the exiting to the exited workers.  [J] is what is known
    of the pool when the wait starts and ends; the flag [joined] does not
    matter to it. *)
Record wait_ok (J : WorkerPool W -> Prop) (wait : N -> st (WorkerPool W) event unit) : Prop := {
  wait_wf p : J p -> pool_wf p;
  wait_joined p w t : J p -> threads p !! w = Some t ->
    J (set_threads (<[w := if started t then set_joined true t else t]> (threads p)) p);
  wait_ends p w : J p -> workers p = ∅ -> w ∈ exiting_workers p ->
    exists l p', wait w p = (l, Ret ((), p')) /\ J p' /\ workers p' = ∅
    /\ exiting_workers p' ⊆ exiting_workers p /\ w ∈ exited_workers p'
    /\ dom (threads p') = dom (threads p) /\ deleted l = [];
}.

Lemma join_exiting_spec J wait fuel : wait_ok J wait -> forall p,
  J p -> workers p = ∅ -> size (exiting_workers p) < fuel ->
  exists l p', join_exiting P wait fuel p = (l, Ret ((), p')) /\ J p'
    /\ workers p' = ∅ /\ exiting_workers p' = ∅ /\ dom (threads p') = dom (threads p)
    /\ deleted l = [].
Proof.
  intros Hwait. induction fuel as [|fuel IH]; intros p Hp Hw Hf; [lia|].
  cbn [join_exiting]. rewrite st_get. destruct (by_address (exiting_workers p)) as [|w ws] eqn:Hex.
  - apply by_address_nil in Hex. by exists [], p.
  - assert (Hin : w ∈ exiting_workers p) by (apply elem_of_by_address; rewrite Hex; set_solver).
    destruct (wait_ends _ _ Hwait p w Hp Hw Hin) as (l1&p1&E1&Hp1&Hw1&Hsub&Hed&Hdom&Hdel).
    pose proof (wait_wf _ _ Hwait p1 Hp1) as Hwf1.
    destruct (wf_alive p1 w Hwf1) as [t Ht]; [auto|].
    destruct (wf_exited p1 Hwf1 w Hed) as [_ Hnex].
    destruct (join_spec P t) as (l2&E2&_). pose proof (join_no_delete _ _ _ E2) as Hd2.
    set (p2 := set_threads (<[w := if started t then set_joined true t else t]> (threads p1)) p1).
    destruct (IH p2) as (l3&p3&E3&Hp3&Hw3&He3&Hdom3&Hd3).
    { by apply (wait_joined _ _ Hwait). }
    { done. }
    { simpl. assert (exiting_workers p1 ⊆ exiting_workers p ∖ {[w]}) as Hs by set_solver.
      apply subseteq_size in Hs. rewrite size_difference, size_singleton in Hs by set_solver.
      assert (0 < size (exiting_workers p)); [|lia].
      apply Nat.neq_0_lt_0. intros H0%size_empty_inv. set_solver. }
    exists (l1 ++ l2 ++ l3), p3. split_and!; try done.
    + erewrite st_run; [|exact E1]. erewrite st_run; [|eapply call_spec; [exact Ht|exact E2]].
      fold p2. rewrite st_get. rewrite decide_False by done. rewrite st_mret, E3. done.
    + rewrite Hdom3. simpl. rewrite dom_insert_L, Hdom. rewrite <- Hdom.
      assert (w ∈ dom (threads p1)) by by eapply elem_of_dom_2. set_solver.
    + by rewrite !deleted_app, Hdel, Hd2, Hd3.
Qed.

Lemma join_exited_spec fuel : forall p,
  pool_wf p -> workers p = ∅ -> exiting_workers p = ∅ -> length (exited_workers p) < fuel ->
  exists l p', join_exited P fuel p = (l, Ret ((), p')) /\ pool_wf p'
    /\ workers p' = ∅ /\ exiting_workers p' = ∅ /\ exited_workers p' = []
    /\ deleted l = exited_workers p.
Proof.
  induction fuel as [|fuel IH]; intros p Hp Hw He Hf; [lia|].
  cbn [join_exited]. rewrite st_get. destruct (exited_workers p) as [|w rest] eqn:Hex.
  - by exists [], p.
  - destruct (wf_alive p w Hp) as [t Ht]; [rewrite Hex; set_solver|].
    destruct (join_spec P t) as (l1&E1&_). pose proof (join_no_delete _ _ _ E1) as Hd1.
    set (p1 := set_threads (<[w := if started t then set_joined true t else t]> (threads p)) p).
    destruct (delete_spec p1 w) as (l2&E2&Hd2).
    { simpl. rewrite lookup_insert, decide_True by done. eauto. }
    set (p2 := set_exited rest (set_threads (base.delete w (threads p1)) p1)).
    pose proof (wf_exited_once p Hp) as Hnd. rewrite Hex in Hnd. apply NoDup_cons in Hnd as [Hnr Hnd].
    destruct (IH p2) as (l3&p3&E3&Hp3&Hw3&He3&Hx3&Hd3); try done.
    { split; simpl.
      - apply (wf_grouped p Hp).
      - apply (wf_member p Hp).
      - apply (wf_exiting p Hp).
      - intros w' Hw'. apply (wf_exited p Hp). rewrite Hex. set_solver.
      - done.
      - rewrite dom_delete_L, dom_insert_L, (wf_heap p Hp), Hw, He, Hex. set_solver. }
    { simpl. simpl in Hf. lia. }
    exists (l1 ++ l2 ++ l3), p3. split_and!; try done.
    + erewrite st_run; [|eapply call_spec; [exact Ht|exact E1]]. fold p1.
      erewrite st_run; [|exact E2]. rewrite st_modify.
      replace (set_exited _ (set_threads _ p1)) with p2 by (unfold p2; cbn; by rewrite Hex).
      by rewrite E3.
    + rewrite !deleted_app, Hd1, Hd2, Hd3. done.
Qed.

Lemma join_all_spec J wait p :
  wait_ok J wait -> J p -> workers p = ∅ ->
  exists l p', join_all P wait p = (l, Ret ((), p')) /\ threads p' = ∅
    /\ workers p' = ∅ /\ exiting_workers p' = ∅ /\ exited_workers p' = []
    /\ NoDup (deleted l) /\ list_to_set (deleted l) = dom (threads p).
Proof.
  intros Hwait Hp Hw. unfold join_all, log. rewrite st_tell, st_get.
  destruct (join_exiting_spec J wait (S (size (exiting_workers p))) Hwait p Hp Hw)
    as (l1&p1&E1&HJ1&Hw1&He1&Hdom&Hd1); [lia|].
  pose proof (wait_wf _ _ Hwait p1 HJ1) as Hp1.
  erewrite st_run; [|exact E1]. rewrite st_get.
  destruct (join_exited_spec (S (length (exited_workers p1))) p1 Hp1 Hw1 He1)
    as (l2&p2&E2&Hp2&Hw2&He2&Hx2&Hd2); [lia|].
  rewrite E2. do 2 eexists. split; [reflexivity|]. split_and!; try done.
  - apply dom_empty_inv_L. rewrite (wf_heap p2 Hp2), Hw2, He2, Hx2. set_solver.
  - simpl. rewrite deleted_app, Hd1, Hd2. apply (wf_exited_once p1 Hp1).
  - simpl. rewrite deleted_app, Hd1, Hd2, <- Hdom, (wf_heap p1 Hp1), Hw1, He1. set_solver.
Qed.
End specs.
