(* ===== verification/WorkerSystem.v ===== *)
(** * The pool and the workers' threads together

    The thread's side of src/server/worker.cc ([do_run], [wait_for_message],
    [send_response]) as steps on the shared pool, and the interleavings of
    these steps with what the serving thread does: [send_to_worker] for the
    messages the dispatcher routes, and [stop] when the main loop has ended. *)

From S2P Require Import Prelude ServerH WorkerThread WorkerPool.

(** What is relied on outside the sources: the mutex calls on initialised
    mutexes succeed, [operator new] gives an address not in use, and a worker
    answers every message of a connection (connection numbers are >= 0). *)
Record environment {W} `{Dispatcher W} `{L : WorkerLoop W} (P : pthread)
    (alloc : gset N -> N) (queue_ok : bool) : Prop := {
  env_locks : lock_rc P = 0%Z /\ unlock_rc P = 0%Z;
  env_queues : queue_ok = true;
  env_alloc s : alloc s ∉ s;
  env_answers (wk : W) m : (0 <= connection_num m)%Z -> is_Some (run_body wk m);
}.

Section WorkerSystem.
Context {W : Type} `{D : Dispatcher W} `{L : WorkerLoop W} (P : pthread).
Variable alloc : gset N -> N.
(** Whether [ServerInternal::queue_response] returns; otherwise it throws
    [StopWorkerException]. *)
Variable queue_ok : bool.

Abbreviation M := (st (WorkerPool W) event).

(** The thread of [w] goes to a position. *)
Definition go (w : N) (pos : position) : M unit := call w (modify (set_thread (Some pos))).

(** [WorkerThread::wait_for_message] up to the lock. *)
Definition wait_for_message_begin (w : N) (t : WorkerThread W) (ready_to_exit : bool) : M unit :=
  if had_message t then worker_message_handled w ready_to_exit
  else call w (modify (set_had_message true)).

(** One step of [do_run]: false when the thread is blocked or has ended. *)
Definition thread_step (w : N) : M bool :=
  p ← get;
  match threads p !! w with
  | None => throw BadAddress
  | Some t =>
      match thread t with
      | None | Some Finished => mret false
      | Some AtWait =>
          wait_for_message_begin w t true;;
          go w Waiting;;
          mret true
      | Some Waiting =>
          match wait_take P t with
          | None => mret false
          | Some (Ret (m, t')) =>
              call w (put t');;
              go w (Received m);;
              mret true
          | Some (Throw (StopWorker _)) => go w Exiting;; mret true
          | Some (Throw f) => throw f
          end
      | Some (Received m) =>
          match run_body (worker t) m with
          | None => go w Exiting;; mret true
          | Some (c, text) =>
              if queue_ok then
                tell (QueueResponse w c text);;
                go w AtWait;;
                mret true
              else go w Exiting;; mret true
          end
      | Some Exiting =>
          worker_exited w;;
          go w Finished;;
          mret true
      end
  end.

(** ** Interleavings *)

Record system := MkSystem {
  sys_pool : WorkerPool W;
  stopping : bool;
  trace : list event;
}.

Definition init : system := MkSystem new_WorkerPool false [].

Inductive step : system -> system -> Prop :=
| step_send s g m l p' :
    stopping s = false -> (0 <= connection_num m <= int_max 32)%Z ->
    is_Some (get_worker g 0) ->
    send_to_worker P alloc g m (sys_pool s) = (l, Ret ((), p')) ->
    step s (MkSystem p' false (trace s ++ l))
| step_thread s w b l p' :
    thread_step w (sys_pool s) = (l, Ret (b, p')) ->
    step s (MkSystem p' (stopping s) (trace s ++ l))
| step_stop s l p' :
    stopping s = false ->
    stop_all P (sys_pool s) = (l, Ret ((), p')) ->
    step s (MkSystem p' true (trace s ++ l)).

Definition reachable : system -> Prop := rtc step init.

(** ** The invariant *)

(** The message a thread is handling. *)
Definition received (t : WorkerThread W) : list Message :=
  match thread t with Some (Received m) => [m] | _ => [] end.

(** Messages taken from the queue and not yet reported as handled. *)
Definition in_flight (t : WorkerThread W) : Z :=
  match thread t with
  | Some (Received _) => 1
  | Some AtWait => if had_message t then 1 else 0
  | _ => 0
  end.

Definition replies (t : WorkerThread W) (ms : list Message) : list (Z * bytes) :=
  omap (run_body (worker t)) ms.

(** What holds of one object, by the container it is in. *)
Record thread_ok (p : WorkerPool W) (tr : list event) (w : N) (t : WorkerThread W) : Prop := {
  ok_started : started t = true;
  ok_had : thread t = Some Waiting \/ received t <> [] -> had_message t = true;
  ok_current d : workers p !! w = Some d ->
    stop_requested t = false /\ (thread t <> Some Exiting) /\ (thread t <> Some Finished)
    /\ d_messages d = (Z.of_nat (length (messages t)) + in_flight t)%Z
    /\ (d_messages d <= 1)%Z;
  ok_exiting : w ∈ exiting_workers p -> stop_requested t = true /\ thread t <> Some Finished;
  ok_exited : w ∈ exited_workers p -> thread t = Some Finished;
  ok_answerable m : m ∈ received t ++ messages t -> is_Some (run_body (worker t) m);
  ok_history : replies t (sent w tr) = answered w tr ++ replies t (received t ++ messages t);
}.

Record system_ok (s : system) : Prop := {
  ok_wf : pool_wf (sys_pool s);
  ok_threads w t : threads (sys_pool s) !! w = Some t -> thread_ok (sys_pool s) (trace s) w t;
  ok_unused w : threads (sys_pool s) !! w = None -> sent w (trace s) = [] /\ answered w (trace s) = [];
}.

Hypothesis locks : lock_rc P = 0%Z /\ unlock_rc P = 0%Z.
Hypothesis queues : queue_ok = true.
Hypothesis alloc_fresh : forall s, alloc s ∉ s.
Hypothesis answers : forall wk m, (0 <= connection_num m)%Z -> is_Some (run_body wk m).

Lemma init_ok : system_ok init.
Proof.
  split; simpl.
  - split; unfold group_of; cbn.
    + intros w d. by rewrite lookup_empty.
    + intros g w. rewrite lookup_empty. set_solver.
    + set_solver.
    + set_solver.
    + constructor.
    + rewrite !dom_empty_L. set_solver.
  - intros w t. by rewrite lookup_empty.
  - done.
Qed.

(** A change that concerns the worker [w] only. *)
Record only (w : N) (p p' : WorkerPool W) : Prop := {
  only_workers w' : w' <> w -> workers p' !! w' = workers p !! w';
  only_exiting w' : w' <> w -> w' ∈ exiting_workers p' <-> w' ∈ exiting_workers p;
  only_exited w' : w' <> w -> w' ∈ exited_workers p' <-> w' ∈ exited_workers p;
  only_threads w' : w' <> w -> threads p' !! w' = threads p !! w';
}.

Lemma system_ok_only s w t' p' l b :
  system_ok s -> pool_wf p' -> only w (sys_pool s) p' ->
  (forall w', w' <> w -> sent w' l = [] /\ answered w' l = []) ->
  threads p' !! w = Some t' -> thread_ok p' (trace s ++ l) w t' ->
  system_ok (MkSystem p' b (trace s ++ l)).
Proof.
  intros [_ Hth Hun] Hwf [F1 F2 F3 F4] Hl Ht Hok. split; simpl; [done| |].
  - intros w' t0 Ht0. destruct (decide (w' = w)) as [->|Hne]; [by simplify_eq|].
    rewrite F4 in Ht0 by done. destruct (Hth w' t0 Ht0) as [G1 G2 G3 G4 G5 G6 G7].
    destruct (Hl w' Hne) as [Hs Ha]. split; try done.
    + intros d. rewrite F1 by done. apply G3.
    + rewrite F2 by done. apply G4.
    + rewrite F3 by done. apply G5.
    + by rewrite sent_app, answered_app, Hs, Ha, !app_nil_r.
  - intros w' H0. destruct (decide (w' = w)) as [->|Hne]; [congruence|].
    rewrite F4 in H0 by done. destruct (Hun w' H0) as [Hs Ha], (Hl w' Hne) as [Hs' Ha'].
    by rewrite sent_app, answered_app, Hs, Ha, Hs', Ha'.
Qed.

Lemma only_set_threads w t p : only w p (set_threads (<[w := t]> (threads p)) p).
Proof. split; try done. intros. simpl. by rewrite lookup_insert_ne. Qed.

Lemma only_set_details w d p : only w p (set_workers (<[w := d]> (workers p)) p).
Proof. split; try done. intros. simpl. by rewrite lookup_insert_ne. Qed.

Lemma only_trans w p q r : only w p q -> only w q r -> only w p r.
Proof.
  intros [A1 A2 A3 A4] [B1 B2 B3 B4]. split; intros w' Hw.
  - by rewrite B1, A1.
  - by rewrite B2, A2.
  - by rewrite B3, A3.
  - by rewrite B4, A4.
Qed.

Lemma only_delivered w d t m p : only w p (delivered w d t m p).
Proof.
  unfold delivered. eapply only_trans; [apply only_set_details|].
  apply (only_set_threads w _ (set_workers _ p)).
Qed.

Lemma only_new w wk g p : w ∉ dom (threads p) -> only w p (with_new_worker P w wk g p).
Proof.
  intros Hw. split; try done; intros w' Hne; simpl; by rewrite lookup_insert_ne.
Qed.

(** Appending to the history of the own thread. *)
Lemma replies_app (t : WorkerThread W) l1 l2 : replies t (l1 ++ l2) = replies t l1 ++ replies t l2.
Proof. apply omap_app. Qed.

(** [send_to_worker] to the object [t] with the details [d]. *)
Lemma delivered_ok s w d t m l b :
  system_ok s -> workers (sys_pool s) !! w = Some d -> d_messages d = 0%Z ->
  threads (sys_pool s) !! w = Some t -> (0 <= connection_num m)%Z ->
  sent w l = [m] -> (forall w', w' <> w -> sent w' l = []) -> (forall w', answered w' l = []) ->
  system_ok (MkSystem (delivered w d t m (sys_pool s)) b (trace s ++ l)).
Proof.
  intros Hok Hd H0 Ht Hm Hl1 Hl2 Hl3. pose proof (ok_wf s Hok) as Hwf.
  destruct (ok_threads s Hok w t Ht) as [G1 G2 G3 G4 G5 G6 G7].
  eapply (system_ok_only s w); [done| |apply only_delivered|by auto| |].
  - by eapply wf_delivered.
  - simpl. by rewrite lookup_insert, decide_True.
  - split; try done; simpl.
    + intros d'. rewrite lookup_insert, decide_True by done. intros [= <-]. simpl.
      destruct (G3 d Hd) as (?&?&?&Hc&_). split_and!; try done; [|lia].
      rewrite length_app. simpl. unfold in_flight in *. simpl. lia.
    + intros m'. rewrite app_assoc. intros [?|Hx%list_elem_of_singleton]%elem_of_app; [auto|subst; auto].
    + rewrite sent_app, answered_app, Hl1, Hl3, app_nil_r.
      change (replies (set_messages _ t)) with (replies t).
      change (received (set_messages _ t)) with (received t).
      by rewrite !replies_app, G7, !replies_app, <- !app_assoc.
Qed.

Lemma send_ok s g m l p' :
  system_ok s -> (0 <= connection_num m <= int_max 32)%Z -> is_Some (get_worker g 0) ->
  send_to_worker P alloc g m (sys_pool s) = (l, Ret ((), p')) ->
  system_ok (MkSystem p' false (trace s ++ l)).
Proof.
  intros Hok Hm [wk Hwk] E. pose proof (ok_wf s Hok) as Hwf.
  pose proof (sendable_nonneg m Hm) as Hs.
  destruct (idle_worker_spec (sys_pool s) g Hwf) as ([w|]&Hi&_).
  - destruct (send_to_idle P alloc (sys_pool s) g m w Hwf Hs Hi)
      as (d&t&l0&Hd&Ht&Hg&H0&E0&Hl). rewrite E in E0. simplify_eq.
    destruct Hl as (?&?&?). apply delivered_ok; auto. lia.
  - destruct (send_to_new P alloc (sys_pool s) g m wk alloc_fresh Hwf Hs Hi Hwk)
      as (l0&E0&Hl). rewrite E in E0. simplify_eq.
    set (a := alloc (dom (threads (sys_pool s)))) in *.
    assert (Ha : a ∉ dom (threads (sys_pool s))) by apply alloc_fresh.
    assert (Hna : (a ∉ dom (workers (sys_pool s))) /\ (a ∉ exiting_workers (sys_pool s))
                  /\ a ∉ exited_workers (sys_pool s)).
    { rewrite (wf_heap _ Hwf) in Ha. set_solver. }
    set (s1 := MkSystem (with_new_worker P a wk g (sys_pool s)) false (trace s)).
    assert (Hok1 : system_ok s1).
    { unfold s1. rewrite <- (app_nil_r (trace s)).
      apply (system_ok_only s a (new_thread P wk)); try done.
      - by apply wf_with_new_worker.
      - by apply only_new.
      - simpl. by rewrite lookup_insert, decide_True.
      - destruct (ok_unused s Hok a) as [Hs0 Ha0]; [by apply not_elem_of_dom|].
        unfold new_thread. destruct (decide (create_rc P = 0)%Z).
        all: split; simpl; try done.
        all: try by intros ?%(proj1 (proj2 Hna)).
        all: try by intros ?%(proj2 (proj2 Hna)).
        all: try by intros ? ?%not_elem_of_nil.
        all: try by rewrite app_nil_r, Hs0, Ha0.
        all: try (intros [?|?]; done).
        all: intros d; rewrite lookup_insert, decide_True by done; intros [= <-]; by split_and!. }
    destruct Hl as (?&?&?).
    apply (delivered_ok s1 a (new_WorkerDetails g) (new_thread P wk) m); auto; try lia.
    + simpl. by rewrite lookup_insert, decide_True.
    + simpl. by rewrite lookup_insert, decide_True.
Qed.

(** The own thread of [w] moves: its object changes, and nothing else. *)
Lemma own_ok s w t t' l :
  system_ok s -> threads (sys_pool s) !! w = Some t ->
  (forall w', w' <> w -> sent w' l = [] /\ answered w' l = []) ->
  thread_ok (sys_pool s) (trace s ++ l) w t' ->
  system_ok (MkSystem (set_threads (<[w := t']> (threads (sys_pool s))) (sys_pool s))
    (stopping s) (trace s ++ l)).
Proof.
  intros Hok Ht Hl [G1 G2 G3 G4 G5 G6 G7]. eapply (system_ok_only s w); try done.
  - apply wf_set_threads; [apply (ok_wf s Hok)|by eapply elem_of_dom_2].
  - apply only_set_threads.
  - simpl. by rewrite lookup_insert, decide_True.
Qed.

Lemma go_spec w pos (p : WorkerPool W) t :
  threads p !! w = Some t ->
  go w pos p = ([], Ret ((), set_threads (<[w := set_thread (Some pos) t]> (threads p)) p)).
Proof. intros Ht. unfold go. by eapply call_spec. Qed.

Lemma set_threads_twice w (t1 t2 : WorkerThread W) p :
  set_threads (<[w := t2]> (threads (set_threads (<[w := t1]> (threads p)) p)))
    (set_threads (<[w := t1]> (threads p)) p) = set_threads (<[w := t2]> (threads p)) p.
Proof. unfold set_threads. cbn. by rewrite insert_insert, decide_True. Qed.

Lemma lookup_set_threads w (t : WorkerThread W) p :
  threads (set_threads (<[w := t]> (threads p)) p) !! w = Some t.
Proof. simpl. by rewrite lookup_insert, decide_True. Qed.

(** A move of a thread that is not its last. *)
Lemma thread_ok_move (p p' : WorkerPool W) tr l w t t' :
  thread_ok p tr w t -> thread t <> Some Finished -> thread t' <> Some Finished ->
  worker t' = worker t -> started t' = started t -> stop_requested t' = stop_requested t ->
  exiting_workers p' = exiting_workers p -> exited_workers p' = exited_workers p ->
  (thread t' = Some Waiting \/ received t' <> [] -> had_message t' = true) ->
  (forall d', workers p' !! w = Some d' -> stop_requested t = false -> exists d,
     workers p !! w = Some d /\ thread t' <> Some Exiting
     /\ (d_messages d' - d_messages d = Z.of_nat (length (messages t')) + in_flight t'
           - (Z.of_nat (length (messages t)) + in_flight t))%Z
     /\ (d_messages d' <= d_messages d)%Z) ->
  (forall d', workers p' !! w = Some d' -> is_Some (workers p !! w)) ->
  sent w l = [] ->
  replies t (received t ++ messages t) = answered w l ++ replies t (received t' ++ messages t') ->
  (forall m, m ∈ received t' ++ messages t' -> m ∈ received t ++ messages t) ->
  thread_ok p' (tr ++ l) w t'.
Proof.
  intros [G1 G2 G3 G4 G5 G6 G7] Hf Hf' Hw Hst Hstop Hex Hed Hhad Hd Hdom Hs Hr Hm.
  split; try done.
  - by rewrite Hst.
  - intros d' Hd'. destruct (Hdom d' Hd') as [d0 Hd0]. destruct (G3 d0 Hd0) as (E1&E2&E3&E4&E5).
    destruct (Hd d' Hd' E1) as (d&Hd1&?&?&?). assert (d = d0) as -> by congruence.
    rewrite Hstop. split_and!; try done; lia.
  - rewrite Hex, Hstop. intros H. split; [by apply G4|done].
  - rewrite Hed. by intros H%G5.
  - intros m. rewrite Hw. auto.
  - unfold replies in *. rewrite Hw, sent_app, answered_app, Hs, app_nil_r, G7, Hr, app_assoc. done.
Qed.

Abbreviation moves s w t := (exists l b p', thread_step w (sys_pool s) = (l, Ret (b, p'))
    /\ system_ok (MkSystem p' (stopping s) (trace s ++ l))) (only parsing).

Lemma stay_ok (s : system) :
  system_ok s -> exists l b p', (mret false : M bool) (sys_pool s) = (l, Ret (b, p'))
    /\ system_ok (MkSystem p' (stopping s) (trace s ++ l)).
Proof.
  intros Hok. exists [], false, (sys_pool s). split; [done|]. rewrite app_nil_r. by destruct s.
Qed.

(** The start of [wait_for_message]. *)
Lemma step_at_wait s w t :
  system_ok s -> threads (sys_pool s) !! w = Some t -> thread t = Some AtWait ->
  (had_message t = true -> w ∈ dom (workers (sys_pool s))) ->
  exists l b p', thread_step w (sys_pool s) = (l, Ret (b, p'))
    /\ system_ok (MkSystem p' (stopping s) (trace s ++ l)).
Proof.
  intros Hok Ht Hpos Hcur. pose proof (ok_wf s Hok) as Hwf.
  pose proof (ok_threads s Hok w t Ht) as Hth. set (p := sys_pool s) in *.
  assert (Hrec : received t = []) by (unfold received; by rewrite Hpos).
  unfold thread_step, wait_for_message_begin. rewrite st_get, Ht, Hpos.
  destruct (had_message t) eqn:Hhad.
  - apply elem_of_dom in Hcur as [d Hd]; [|done].
    destruct (ok_current _ _ _ _ Hth d Hd) as (E1&E2&E3&E4&E5).
    unfold in_flight in E4. rewrite Hpos, Hhad in E4.
    destruct (worker_message_handled_spec p w true d) as [r Er]; [done|lia|].
    erewrite st_run; [|exact Er]. erewrite st_run; [|apply go_spec; exact Ht].
    do 3 eexists. split; [reflexivity|].
    eapply (system_ok_only s w); [done| | |by split|apply lookup_set_threads|].
    + apply (wf_set_threads (set_workers _ p)); [by apply (wf_set_details p w d)|].
      by eapply elem_of_dom_2.
    + eapply only_trans; [apply only_set_details|]. apply (only_set_threads w _ (set_workers _ p)).
    + apply (thread_ok_move p _ _ _ _ t); try done; rewrite ?Hpos, ?Hrec; try done; try (by eauto).
      * intros d'. simpl. rewrite lookup_insert, decide_True by done. intros [= <-] _.
        exists d. unfold in_flight. rewrite Hpos, Hhad. simpl. split_and!; try done; lia.
  - erewrite st_run; [|eapply call_spec; [exact Ht|reflexivity]].
    erewrite st_run; [|apply go_spec, lookup_set_threads]. rewrite set_threads_twice.
    do 3 eexists. split; [reflexivity|]. apply (own_ok s w t); try done.
    apply (thread_ok_move p _ _ _ _ t); try done; rewrite ?Hpos, ?Hrec; try done; try (by eauto).
    + intros d' Hd' _. exists d'. unfold in_flight. rewrite Hpos, Hhad. simpl.
      split_and!; try done; lia.
Qed.

(** The wait for a message. *)
Lemma step_waiting s w t :
  system_ok s -> threads (sys_pool s) !! w = Some t -> thread t = Some Waiting ->
  exists l b p', thread_step w (sys_pool s) = (l, Ret (b, p'))
    /\ system_ok (MkSystem p' (stopping s) (trace s ++ l))
    /\ (stop_requested t = false -> messages t <> [] -> b = true).
Proof.
  intros Hok Ht Hpos. pose proof (ok_threads s Hok w t Ht) as Hth.
  set (p := sys_pool s) in *. destruct locks as [Hlk Hul].
  assert (Hrec : received t = []) by (unfold received; by rewrite Hpos).
  pose proof (ok_had _ _ _ _ Hth (or_introl Hpos)) as Hhad.
  unfold thread_step, wait_take. rewrite st_get, Ht, Hpos.
  rewrite (decide_False (P := lock_rc P <> 0%Z)) by auto. destruct (stop_requested t) eqn:Hstop.
  - erewrite st_run; [|apply go_spec; exact Ht].
    do 3 eexists. split; [reflexivity|]. split; [|done]. apply (own_ok s w t); try done.
    apply (thread_ok_move p _ _ _ _ t); try done; rewrite ?Hpos, ?Hrec; try done; try (by eauto).
    + by rewrite Hstop.
  - destruct (messages t) as [|m ms] eqn:Hms.
    + destruct (stay_ok s Hok) as (l&b&p'&?&?). exists l, b, p'. by split_and!.
    + rewrite (decide_False (P := unlock_rc P <> 0%Z)) by auto.
      erewrite st_run; [|eapply call_spec; [exact Ht|reflexivity]].
      erewrite st_run; [|apply go_spec, lookup_set_threads]. rewrite set_threads_twice.
      do 3 eexists. split; [reflexivity|]. split; [|done]. apply (own_ok s w t); try done.
      apply (thread_ok_move p _ _ _ _ t); try done; rewrite ?Hpos, ?Hrec; try done; try (by eauto).
      * intros d' Hd' _. exists d'. unfold in_flight. rewrite Hpos, Hms. simpl.
        split_and!; try done; lia.
      * by rewrite Hms.
      * by rewrite Hms.
Qed.

(** The response. *)
Lemma step_received s w t m :
  system_ok s -> threads (sys_pool s) !! w = Some t -> thread t = Some (Received m) ->
  exists l b p', thread_step w (sys_pool s) = (l, Ret (b, p'))
    /\ system_ok (MkSystem p' (stopping s) (trace s ++ l)).
Proof.
  intros Hok Ht Hpos. pose proof (ok_threads s Hok w t Ht) as Hth. set (p := sys_pool s) in *.
  assert (Hrec : received t = [m]) by (unfold received; by rewrite Hpos).
  assert (Hhad : had_message t = true) by (apply (ok_had _ _ _ _ Hth); right; by rewrite Hrec).
  unfold thread_step. rewrite st_get, Ht, Hpos.
  destruct (ok_answerable _ _ _ _ Hth m) as [[c text] Hrun]; [rewrite Hrec; set_solver|].
  rewrite Hrun, queues, st_tell. erewrite st_run; [|apply go_spec; exact Ht].
  do 3 eexists. split; [reflexivity|]. apply (own_ok s w t); try done.
  - intros w' Hne. simpl. by rewrite decide_False.
  - apply (thread_ok_move p _ _ _ _ t); try done; rewrite ?Hpos, ?Hrec; try done; try (by eauto).
    + intros d' Hd' _. exists d'. unfold in_flight. rewrite Hpos. simpl. rewrite Hhad.
      split_and!; try done; lia.
    + simpl. rewrite decide_True by done. unfold replies. simpl. by rewrite Hrun.
    + simpl. set_solver.
Qed.

(** The end of the thread. *)
Lemma step_exiting s w t :
  system_ok s -> threads (sys_pool s) !! w = Some t -> thread t = Some Exiting ->
  exists l b p', thread_step w (sys_pool s) = (l, Ret (b, p'))
    /\ system_ok (MkSystem p' (stopping s) (trace s ++ l)).
Proof.
  intros Hok Ht Hpos. pose proof (ok_wf s Hok) as Hwf.
  pose proof (ok_threads s Hok w t Ht) as [G1 G2 G3 G4 G5 G6 G7]. set (p := sys_pool s) in *.
  assert (Hnw : w ∉ dom (workers p)).
  { intros [d Hd]%elem_of_dom. by destruct (G3 d Hd) as (?&?&_). }
  assert (Hned : w ∉ exited_workers p) by (intros ?%G5; congruence).
  assert (Hex : w ∈ exiting_workers p).
  { apply elem_of_dom_2 in Ht. rewrite (wf_heap p Hwf) in Ht. set_solver. }
  unfold thread_step. rewrite st_get, Ht, Hpos.
  erewrite st_run; [|by apply worker_exited_spec].
  assert (Hwf' : pool_wf (exited w p)) by (apply wf_exited_step; [done|set_solver]).
  unfold exited in *. rewrite decide_False in * by done.
  set (p1 := set_exited _ _) in *. assert (Ht1 : threads p1 !! w = Some t) by done.
  erewrite st_run; [|apply go_spec; exact Ht1].
  do 3 eexists. split; [reflexivity|].
  eapply (system_ok_only s w); [done| | |by split|apply lookup_set_threads|].
  - apply wf_set_threads; [done|by eapply elem_of_dom_2].
  - split; intros w' Hne; simpl; [done|set_solver|set_solver|by rewrite lookup_insert_ne].
  - split; simpl; try done.
    + by intros [?|?].
    + intros d Hd. apply elem_of_dom_2 in Hd. done.
    + set_solver.
    + intros m Hm. apply G6. unfold received. rewrite Hpos. done.
    + rewrite app_nil_r. unfold replies in *. simpl. rewrite G7. unfold received. by rewrite Hpos.
Qed.

(** Every step of a thread keeps the invariant, and only the report of a
    handled message by a worker that is no longer a current one faults. *)
Lemma thread_step_spec s w t :
  system_ok s -> threads (sys_pool s) !! w = Some t ->
  (thread t = Some AtWait -> had_message t = true -> w ∈ dom (workers (sys_pool s))) ->
  exists l b p', thread_step w (sys_pool s) = (l, Ret (b, p'))
    /\ system_ok (MkSystem p' (stopping s) (trace s ++ l)).
Proof.
  intros Hok Ht Hcur. destruct (thread t) as [[| |m| |]|] eqn:Hpos.
  - apply (step_at_wait s w t); auto.
  - destruct (step_waiting s w t) as (l&b&p'&?&?&_); eauto.
  - by apply (step_received s w t m).
  - by apply (step_exiting s w t).
  - unfold thread_step. rewrite st_get, Ht, Hpos. by apply stay_ok.
  - unfold thread_step. rewrite st_get, Ht, Hpos. by apply stay_ok.
Qed.

Lemma stop_ok s l p' :
  system_ok s -> stop_all P (sys_pool s) = (l, Ret ((), p')) ->
  system_ok (MkSystem p' true (trace s ++ l)).
Proof.
  intros Hok E. pose proof (ok_wf s Hok) as Hwf.
  destruct (stop_all_spec P (sys_pool s) Hwf) as (l0&p0&E0&Hl&Hst). rewrite E in E0. simplify_eq.
  destruct Hst as [H1 H2 H3 H4 H5].
  assert (Hsil : forall w, sent w l0 = [] /\ answered w l0 = []) by (intros; by apply silent_history).
  split; simpl; [done| |].
  - intros w t' Ht'. rewrite H5 in Ht'. apply fmap_Some in Ht' as (t&Ht&->).
    destruct (ok_threads s Hok w t Ht) as [G1 G2 G3 G4 G5 G6 G7].
    destruct (Hsil w) as [Hs Ha].
    case_decide as Hw.
    + apply elem_of_dom in Hw as Hd. destruct Hd as [d Hd]. destruct (G3 d Hd) as (?&?&?&_).
      unfold stop_thread. rewrite G1. split; simpl; try done.
      * intros d'. by rewrite H2, lookup_empty.
      * rewrite H4. intros Hx%(wf_exited _ Hwf). by destruct Hx.
      * by rewrite sent_app, answered_app, Hs, Ha, !app_nil_r.
    + split; simpl; try done.
      * intros d'. by rewrite H2, lookup_empty.
      * rewrite H3. intros [?|?]%elem_of_union; [done|]. by apply G4.
      * by rewrite H4.
      * by rewrite sent_app, answered_app, Hs, Ha, !app_nil_r.
  - intros w H0. rewrite H5 in H0. apply fmap_None in H0.
    destruct (ok_unused s Hok w H0) as [Hs1 Ha1], (Hsil w) as [Hs2 Ha2].
    by rewrite sent_app, answered_app, Hs1, Ha1, Hs2, Ha2.
Qed.

(** In a state that is not stopping every object is that of a current
    worker. *)
Lemma serving_current s w t :
  system_ok s -> (stopping s = false -> exiting_workers (sys_pool s) = ∅
    /\ exited_workers (sys_pool s) = []) ->
  stopping s = false -> threads (sys_pool s) !! w = Some t -> w ∈ dom (workers (sys_pool s)).
Proof.
  intros Hok Hserv Hst Ht. destruct (Hserv Hst) as [He Hd].
  apply elem_of_dom_2 in Ht. rewrite (wf_heap _ (ok_wf s Hok)), He, Hd in Ht. set_solver.
Qed.

(** While serving nothing leaves the current workers. *)
Definition serving_ok (s : system) : Prop :=
  stopping s = false -> exiting_workers (sys_pool s) = ∅ /\ exited_workers (sys_pool s) = [].

Lemma thread_step_containers w p l b p' t :
  threads p !! w = Some t -> thread t <> Some Exiting ->
  thread_step w p = (l, Ret (b, p')) ->
  exiting_workers p' = exiting_workers p /\ exited_workers p' = exited_workers p.
Proof.
  intros Ht Hne. unfold thread_step. rewrite st_get, Ht.
  assert (Hcall : forall (op : st (WorkerThread W) event unit) w q l q', call w op q = (l, Ret ((), q')) ->
    exiting_workers q' = exiting_workers q /\ exited_workers q' = exited_workers q).
  { intros op w0 q l0 q' E. unfold call in E. destruct (threads q !! w0) as [t0|]; [|done].
    unfold mbind, eff_bind in E. destruct (op t0) as [l1 [[a t1]|f]]; [|done]. simpl in E.
    by simplify_eq. }
  assert (Hgo : forall pos q l q', (go w pos;; mret true) q = (l, Ret (b, q')) ->
    exiting_workers q' = exiting_workers q /\ exited_workers q' = exited_workers q).
  { intros pos q l0 q' (l1&[]&p1&l2&E1&E2&->)%st_bind_inv. injection E2 as _ _ <-.
    by apply Hcall in E1. }
  destruct (thread t) as [[| |m| |]|]; try done; try (intros E; by injection E as _ _ <-).
  - intros E. apply st_bind_inv in E as (l1&[]&p1&l2&E1&E2&->).
    apply st_bind_inv in E2 as (l3&[]&p2&l4&E2&E3&->).
    apply Hcall in E2 as [H1 H2]. injection E3 as _ _ <-. rewrite H1, H2. clear H1 H2.
    unfold wait_for_message_begin in E1. destruct (had_message t); [|by apply Hcall in E1].
    unfold worker_message_handled in E1. rewrite st_get in E1.
    destruct (workers p !! w) as [d|]; [|done]. unfold assert_that in E1.
    destruct (decide (0 < d_messages d)%Z); [|done]. rewrite st_lift in E1.
    by injection E1 as _ <-.
  - destruct (wait_take P t) as [[[m t']|f]|]; [| |intros E; by injection E as _ _ <-].
    + intros E. apply st_bind_inv in E as (l1&[]&p1&l2&E1&E2&->).
      apply st_bind_inv in E2 as (l3&[]&p2&l4&E2&E3&->). injection E3 as _ _ <-.
      apply Hcall in E2 as [H1 H2], E1 as [H3 H4]. split; congruence.
    + destruct f; try done. apply Hgo.
  - destruct (run_body (worker t) m) as [[c text]|]; [destruct queue_ok|]; [|apply Hgo..].
    rewrite st_tell. intros E. injection E as _ E.
    destruct ((go w AtWait;; mret true) p) as [l1 r] eqn:E1. simpl in E. subst r. by eapply Hgo.
Qed.

(** A worker that reports a handled message after it has been told to stop
    fails the pool's assertion. *)
Lemma report_after_stop w p t :
  threads p !! w = Some t -> thread t = Some AtWait -> had_message t = true ->
  w ∉ dom (workers p) -> thread_step w p = ([], Throw AssertFailed).
Proof.
  intros Ht Hpos Hhad Hw. apply not_elem_of_dom in Hw.
  unfold thread_step, wait_for_message_begin. rewrite st_get, Ht, Hpos, Hhad.
  apply st_throw. unfold worker_message_handled. by rewrite st_get, Hw.
Qed.

Lemma step_invariant s s' : step s s' -> system_ok s /\ serving_ok s -> system_ok s' /\ serving_ok s'.
Proof.
  intros Hstep [Hok Hserv]. destruct Hstep as [s g m l p' Hst Hm Hg E|s w b l p' E|s l p' Hst E].
  - split; [by eapply send_ok|]. intros _. simpl. destruct (Hserv Hst) as [<- <-].
    pose proof (sendable_nonneg m Hm) as Hs. destruct Hg as [wk Hwk].
    destruct (idle_worker_spec (sys_pool s) g (ok_wf s Hok)) as ([w|]&Hi&_).
    + destruct (send_to_idle P alloc (sys_pool s) g m w (ok_wf s Hok) Hs Hi)
        as (d&t&l0&_&_&_&_&E0&_). rewrite E in E0. by injection E0 as _ ->.
    + destruct (send_to_new P alloc (sys_pool s) g m wk alloc_fresh (ok_wf s Hok) Hs Hi Hwk)
        as (l0&E0&_). rewrite E in E0. by injection E0 as _ ->.
  - destruct (threads (sys_pool s) !! w) as [t|] eqn:Ht.
    2: { unfold thread_step in E. by rewrite st_get, Ht in E. }
    destruct (decide (thread t = Some AtWait /\ had_message t = true
                      /\ w ∉ dom (workers (sys_pool s)))) as [(Ha&Hh&Hw)|Hno].
    { by rewrite (report_after_stop w _ t Ht Ha Hh Hw) in E. }
    destruct (thread_step_spec s w t Hok Ht) as (l0&b0&p0&E0&Hok0).
    { intros Ha Hh. destruct (decide (w ∈ dom (workers (sys_pool s)))); naive_solver. }
    rewrite E in E0. injection E0 as <- <- <-. split; [done|].
    intros Hst. simpl in *. destruct (Hserv Hst) as [<- <-].
    eapply thread_step_containers; [exact Ht| |exact E]. intros Hex.
    pose proof (serving_current s w t Hok Hserv Hst Ht) as Hin. apply elem_of_dom in Hin as [d Hd].
    by destruct (ok_current _ _ _ _ (ok_threads s Hok w t Ht) d Hd) as (_&?&_).
  - split; [by apply stop_ok|]. done.
Qed.

Lemma reachable_ok s : reachable s -> system_ok s /\ serving_ok s.
Proof.
  intros H. assert (Hi : system_ok init /\ serving_ok init) by (split; [apply init_ok|done]).
  revert Hi. unfold reachable in H. induction H as [|s1 s2 s3 Hstep _ IH]; [done|].
  intros Hi. apply IH. by eapply step_invariant.
Qed.

(** A step of the thread of [w] that is not blocked. *)
Definition own_step (w : N) (s s' : system) : Prop :=
  exists l p', thread_step w (sys_pool s) = (l, Ret (true, p'))
    /\ s' = MkSystem p' (stopping s) (trace s ++ l).

Lemma own_step_reachable w s s' : reachable s -> own_step w s s' -> reachable s'.
Proof. intros H (l&p'&E&->). eapply rtc_r; [exact H|]. by eapply step_thread. Qed.

(** What a thread has to answer. *)
Lemma own_received s w t m :
  threads (sys_pool s) !! w = Some t -> thread t = Some (Received m) ->
  is_Some (run_body (worker t) m) ->
  exists s', own_step w s s' /\ answered w (trace s') = answered w (trace s) ++ replies t [m].
Proof.
  intros Ht Hpos [[c text] Hrun]. eexists. split.
  - do 2 eexists. split; [|reflexivity]. unfold thread_step. rewrite st_get, Ht, Hpos, Hrun, queues, st_tell.
    erewrite st_run; [|by apply go_spec]. reflexivity.
  - simpl. rewrite answered_app. simpl. rewrite decide_True by done. unfold replies. simpl.
    by rewrite Hrun.
Qed.

Lemma own_waiting s w t m ms :
  threads (sys_pool s) !! w = Some t -> thread t = Some Waiting -> stop_requested t = false ->
  messages t = m :: ms ->
  exists s' t', own_step w s s' /\ threads (sys_pool s') !! w = Some t'
    /\ thread t' = Some (Received m) /\ worker t' = worker t
    /\ answered w (trace s') = answered w (trace s).
Proof.
  intros Ht Hpos Hst Hms. destruct locks as [Hlk Hul]. do 2 eexists. split.
  - do 2 eexists. split; [|reflexivity]. unfold thread_step, wait_take. rewrite st_get, Ht, Hpos.
    rewrite (decide_False (P := lock_rc P <> 0%Z)), Hst, Hms by auto.
    rewrite (decide_False (P := unlock_rc P <> 0%Z)) by auto.
    erewrite st_run; [|eapply call_spec; [exact Ht|reflexivity]].
    erewrite st_run; [|apply go_spec, lookup_set_threads]. rewrite set_threads_twice. reflexivity.
  - split; [apply lookup_set_threads|]. split_and!; [done|done|]. simpl. by rewrite app_nil_r.
Qed.

Lemma own_first_wait s w t :
  threads (sys_pool s) !! w = Some t -> thread t = Some AtWait -> had_message t = false ->
  exists s' t', own_step w s s' /\ threads (sys_pool s') !! w = Some t'
    /\ thread t' = Some Waiting /\ worker t' = worker t /\ messages t' = messages t
    /\ stop_requested t' = stop_requested t /\ answered w (trace s') = answered w (trace s).
Proof.
  intros Ht Hpos Hhad. do 2 eexists. split.
  - do 2 eexists. split; [|reflexivity]. unfold thread_step, wait_for_message_begin.
    rewrite st_get, Ht, Hpos, Hhad.
    erewrite st_run; [|eapply call_spec; [exact Ht|reflexivity]].
    erewrite st_run; [|apply go_spec, lookup_set_threads]. rewrite set_threads_twice. reflexivity.
  - split; [apply lookup_set_threads|]. split_and!; try done. simpl. by rewrite app_nil_r.
Qed.

(** At most one message is outstanding, so what is pending is one message at
    most. *)
Lemma pending_shape s w t d :
  system_ok s -> threads (sys_pool s) !! w = Some t -> workers (sys_pool s) !! w = Some d ->
  thread t <> None ->
  (exists m, thread t = Some (Received m) /\ messages t = [])
  \/ (thread t = Some Waiting /\ (messages t = [] \/ exists m, messages t = [m]))
  \/ (thread t = Some AtWait /\ had_message t = true /\ messages t = [])
  \/ (thread t = Some AtWait /\ had_message t = false /\ (messages t = [] \/ exists m, messages t = [m])).
Proof.
  intros Hok Ht Hd Hn. destruct (ok_current _ _ _ _ (ok_threads s Hok w t Ht) d Hd)
    as (Hst&Hex&Hfin&Hc&H1).
  assert (Hlen : (Z.of_nat (length (messages t)) + in_flight t <= 1)%Z) by lia.
  assert (Hsh : forall ms : list Message, length ms <= 1 -> ms = [] \/ exists m, ms = [m]).
  { intros [|m [|m' ms]]; simpl; [eauto..|lia]. }
  unfold in_flight in Hlen. destruct (thread t) as [[| |m| |]|]; try done.
  - right; right. destruct (had_message t).
    + left. split_and!; try done. apply nil_length_inv. lia.
    + right. split_and!; try done. apply Hsh. lia.
  - right; left. split; [done|]. apply Hsh. lia.
  - left. exists m. split; [done|]. apply nil_length_inv. lia.
Qed.

(** The thread of a worker, run alone, answers all that was sent to it. *)
Lemma answers_pending s w t d :
  system_ok s -> threads (sys_pool s) !! w = Some t -> workers (sys_pool s) !! w = Some d ->
  thread t <> None ->
  exists n s', n <= 3 /\ relations.nsteps (own_step w) n s s'
    /\ answered w (trace s') = replies t (sent w (trace s)).
Proof.
  intros Hok Ht Hd Hn. pose proof (ok_threads s Hok w t Ht) as Hth.
  destruct (ok_current _ _ _ _ Hth d Hd) as (Hst&_).
  rewrite (ok_history _ _ _ _ Hth).
  assert (Hans : forall m, m ∈ received t ++ messages t -> is_Some (run_body (worker t) m))
    by apply (ok_answerable _ _ _ _ Hth).
  unfold received in *.
  destruct (pending_shape s w t d Hok Ht Hd Hn)
    as [(m&Hpos&Hms)|[(Hpos&[Hms|[m Hms]])|[(Hpos&Hhad&Hms)|(Hpos&Hhad&[Hms|[m Hms]])]]];
    rewrite Hpos, Hms in *; cbn [app] in *.
  - destruct (own_received s w t m Ht Hpos) as (s'&Hs'&E); [apply Hans; set_solver|].
    exists 1, s'. split_and!; [lia|by apply nsteps_once|done].
  - exists 0, s. split_and!; [lia|constructor|]. by rewrite app_nil_r.
  - destruct (own_waiting s w t m [] Ht Hpos Hst Hms) as (s1&t1&H1&Ht1&Hp1&Hw1&E1).
    destruct (own_received s1 w t1 m Ht1 Hp1) as (s2&H2&E2); [rewrite Hw1; apply Hans; set_solver|].
    exists 2, s2. split_and!; [lia|eapply nsteps_l; [exact H1|by apply nsteps_once]|].
    rewrite E2, E1. unfold replies. by rewrite Hw1.
  - exists 0, s. split_and!; [lia|constructor|]. by rewrite app_nil_r.
  - exists 0, s. split_and!; [lia|constructor|]. by rewrite app_nil_r.
  - destruct (own_first_wait s w t Ht Hpos Hhad) as (s1&t1&H1&Ht1&Hp1&Hw1&Hm1&Hst1&E1).
    destruct (own_waiting s1 w t1 m [] Ht1 Hp1) as (s2&t2&H2&Ht2&Hp2&Hw2&E2); [congruence..|].
    destruct (own_received s2 w t2 m Ht2 Hp2) as (s3&H3&E3);
      [rewrite Hw2, Hw1; apply Hans; set_solver|].
    exists 3, s3. split_and!; [lia| |].
    + eapply nsteps_l; [exact H1|]. eapply nsteps_l; [exact H2|]. by apply nsteps_once.
    + rewrite E3, E2, E1. unfold replies. by rewrite Hw2, Hw1.
Qed.
End WorkerSystem.
