(* ===== verification/WorkerProps.v ===== *)
(** * Theorems on the pool and the workers' threads

    Every theorem here is about every interleaving of [send_to_worker], the
    steps of the workers' threads and [stop] ([reachable] of
    WorkerSystem.v). *)

From S2P Require Import Prelude ServerH WorkerThread WorkerPool WorkerSystem.
From S2P Require Dispatch.

Section props.
Context {W : Type} `{D : Dispatcher W} `{L : WorkerLoop W} (P : pthread).
Context (alloc : gset N -> N) (queue_ok : bool).

(** What the serving thread and the workers' threads can reach. *)
Definition reach : system -> Prop := reachable (D := D) P alloc queue_ok.

Lemma env_reach (E : environment P alloc queue_ok) s : reach s -> system_ok s /\ serving_ok s.
Proof. destruct E as [E1 E2 E3 E4]. by apply reachable_ok. Qed.

Lemma env_idle_or_new (E : environment P alloc queue_ok) (p : WorkerPool W) g m :
  pool_wf p -> sendable m -> is_Some (get_worker g 0) ->
  exists l p', send_to_worker P alloc g m p = (l, Ret ((), p')).
Proof.
  intros Hwf Hs [wk Hwk]. destruct (idle_worker_spec p g Hwf) as ([w|]&Hi&_).
  - destruct (send_to_idle P alloc p g m w Hwf Hs Hi) as (d&t&l&_&_&_&_&E0&_). eauto.
  - destruct (send_to_new P alloc p g m wk (env_alloc _ _ _ E) Hwf Hs Hi Hwk) as (l&E0&_). eauto.
Qed.

Lemma env_current (E : environment P alloc queue_ok) s w t :
  system_ok s -> serving_ok s -> stopping s = false -> threads (sys_pool s) !! w = Some t ->
  w ∈ dom (workers (sys_pool s)).
Proof. destruct E as [E1 E2 E3 E4]. intros. by eapply serving_current. Qed.

(** ** Shutting down idle workers *)

(** The thread of [w] runs to its end. *)
Fixpoint run_thread (fuel : nat) (w : N) : st (WorkerPool W) event unit :=
  match fuel with
  | 0 => throw OutOfFuel
  | S fuel' =>
      p ← get;
      match threads p !! w with
      | None => throw BadAddress
      | Some t =>
          if decide (thread t = Some Finished) then mret ()
          else thread_step P queue_ok w;; run_thread fuel' w
      end
  end.

Definition idle_exit (p : WorkerPool W) : Prop :=
  pool_wf p /\ forall w t, threads p !! w = Some t -> w ∈ exiting_workers p ->
    stop_requested t = true /\ thread t = Some Waiting.

Lemma run_thread_exits (p : WorkerPool W) w :
  idle_exit p -> w ∈ exiting_workers p ->
  exists t, threads p !! w = Some t /\
    let p1 := set_exited (exited_workers p ++ [w])
                (set_exiting (exiting_workers p ∖ {[w]})
                   (set_threads (<[w := set_thread (Some Exiting) t]> (threads p)) p)) in
    run_thread 3 w p = ([], Ret ((), set_threads (<[w := set_thread (Some Finished) t]> (threads p)) p1))
    /\ pool_wf (set_threads (<[w := set_thread (Some Finished) t]> (threads p)) p1).
Proof.
  intros [Hwf Hidle] Hw. destruct (wf_alive p w Hwf) as [t Ht]; [auto|].
  destruct (Hidle w t Ht Hw) as [Hst Hpos]. exists t. split; [done|]. intros p1.
  set (p0 := set_threads (<[w := set_thread (Some Exiting) t]> (threads p)) p).
  assert (Hwf0 : pool_wf p0) by (apply wf_set_threads; [done|by eapply elem_of_dom_2]).
  assert (Hnw : w ∉ dom (workers p)) by by apply (wf_exiting p Hwf).
  assert (Hex : exited w p0 = p1).
  { unfold exited. by rewrite decide_False. }
  assert (Hwf1 : pool_wf p1).
  { rewrite <- Hex. apply wf_exited_step; [done|]. simpl. set_solver. }
  assert (Ht0 : threads p0 !! w = Some (set_thread (Some Exiting) t)) by apply lookup_set_threads.
  assert (E0 : thread_step P queue_ok w p = ([], Ret (true, p0))).
  { unfold thread_step, wait_take. rewrite st_get, Ht, Hpos.
    destruct (decide (lock_rc P <> 0%Z)); [|rewrite Hst];
      (erewrite st_run; [|by apply go_spec]); done. }
  assert (E1 : thread_step P queue_ok w p0
    = ([], Ret (true, set_threads (<[w := set_thread (Some Finished) t]> (threads p)) p1))).
  { unfold thread_step. rewrite st_get, Ht0. cbn [thread set_thread].
    erewrite st_run; [|by apply worker_exited_spec]. rewrite Hex.
    erewrite st_run; [|apply go_spec; exact Ht0].
    unfold p1, set_threads, set_exited, set_exiting. cbn. by rewrite insert_insert, decide_True. }
  split.
  - cbn [run_thread]. rewrite st_get, Ht, Hpos, decide_False by done.
    erewrite st_run; [|exact E0]. rewrite st_get, Ht0, decide_False by done.
    erewrite st_run; [|exact E1]. rewrite st_get. cbn [threads set_threads].
    rewrite lookup_insert, decide_True by done. cbn [thread set_thread]. by rewrite decide_True.
  - apply (wf_same p1); try done. simpl. rewrite !dom_insert_L. set_solver.
Qed.

(** While [join] waits for an idle worker that was told to stop, that worker
    ends. *)
Lemma idle_wait_ok : wait_ok idle_exit (run_thread 3).
Proof.
  split.
  - by intros p [H _].
  - intros p w t [Hwf Hidle] Ht. split; [apply wf_set_threads; [done|by eapply elem_of_dom_2]|].
    intros w' t'. simpl. destruct (decide (w' = w)) as [->|Hne].
    + rewrite lookup_insert, decide_True by done. intros [= <-] Hw.
      destruct (Hidle w t Ht Hw). by destruct (started t).
    + rewrite lookup_insert_ne by done. apply Hidle.
  - intros p w HJ Hw Hin. destruct (run_thread_exits p w HJ Hin) as (t&Ht&E&Hwf').
    do 2 eexists. split; [exact E|]. destruct HJ as [Hwf Hidle]. split_and!; try done.
    + split; [done|]. intros w' t'. simpl. destruct (decide (w' = w)) as [->|Hne].
      * set_solver.
      * rewrite lookup_insert_ne by done. intros Ht' Hw'. apply (Hidle w' t' Ht'). set_solver.
    + simpl. set_solver.
    + simpl. set_solver.
    + simpl. rewrite dom_insert_L. apply elem_of_dom_2 in Ht. set_solver.
Qed.


(** ** While serving *)


(** C6: no message and no response is lost, made up, repeated or reordered: at
    any moment, the responses a worker owes for the messages it was sent are
    those it gave, in the order of the messages, then the one for the message
    it is handling, then those for the messages in its queue. *)
Theorem responses_in_order s w t :
  environment P alloc queue_ok -> reach s -> threads (sys_pool s) !! w = Some t ->
  replies t (sent w (trace s)) = answered w (trace s) ++ replies t (received t ++ messages t)
  /\ Forall (fun m => is_Some (run_body (worker t) m)) (received t ++ messages t).
Proof.
  intros E Hr Ht. destruct (env_reach E s Hr) as [Hok _].
  pose proof (ok_threads _ Hok w t Ht) as Hth. split; [by apply (ok_history _ _ _ _ Hth)|].
  apply Forall_forall. intros m Hm. by apply (ok_answerable _ _ _ _ Hth).
Qed.



(** C36: stopping the pool while a worker handles a message ends the process:
    [stop] takes the worker off the current ones, and when the worker then
    reports the message as handled the assertion of [worker_message_handled]
    fails. *)
Theorem stop_while_working s w t m :
  environment P alloc queue_ok -> reach s -> stopping s = false ->
  threads (sys_pool s) !! w = Some t -> thread t = Some (Received m) ->
  exists s1 s2, step (D := D) P alloc queue_ok s s1 /\ own_step P queue_ok w s1 s2
    /\ thread_step P queue_ok w (sys_pool s2) = ([], Throw AssertFailed).
Proof.
  intros E Hr Hst Ht Hpos. destruct (env_reach E s Hr) as [Hok Hserv].
  pose proof (ok_wf _ Hok) as Hwf. pose proof (ok_threads _ Hok w t Ht) as Hth.
  pose proof (env_current E s w t Hok Hserv Hst Ht) as Hin.
  destruct (stop_all_spec P (sys_pool s) Hwf) as (l&p1&E1&_&[H1 H2 H3 H4 H5]).
  assert (Ht1 : threads p1 !! w = Some (stop_thread t)) by (by rewrite H5, decide_True, Ht).
  assert (Hrun : is_Some (run_body (worker t) m)).
  { apply (ok_answerable _ _ _ _ Hth). unfold received. rewrite Hpos. set_solver. }
  assert (Hhad : had_message t = true).
  { apply (ok_had _ _ _ _ Hth). right. unfold received. by rewrite Hpos. }
  unfold stop_thread in Ht1. rewrite (ok_started _ _ _ _ Hth) in Ht1.
  destruct Hrun as [[c text] Hrun].
  eexists (MkSystem p1 true (trace s ++ l)), _. split; [by apply step_stop|].
  split.
  - do 2 eexists. split; [|reflexivity]. cbn [sys_pool]. unfold thread_step.
    rewrite st_get, Ht1. cbn [thread set_stop_requested worker]. rewrite Hpos, Hrun.
    rewrite (env_queues _ _ _ E), st_tell. erewrite st_run; [|by apply go_spec]. reflexivity.
  - cbn [sys_pool]. eapply report_after_stop; [apply lookup_set_threads|done|done|].
    simpl. rewrite H2. set_solver.
Qed.

(** ** Sending *)

(** Nothing but [w] is sent a message or changes. *)
Definition only_changes (w : N) (l : list event) (p p' : WorkerPool W) : Prop :=
  forall w', w' <> w -> sent w' l = [] /\ threads p' !! w' = threads p !! w'
    /\ workers p' !! w' = workers p !! w'.

(** C32: [send_to_worker] gives the message to exactly one worker of the group:
    the idle one of the lowest address, or, when all the group's workers have
    a message outstanding, a new one it makes and starts; it counts the
    message there, keeps the pool well-formed and changes no other worker. *)
Theorem send_to_worker_spec p g m wk :
  environment P alloc queue_ok -> pool_wf p -> sendable m -> get_worker g 0 = Some wk ->
  exists l w p', send_to_worker P alloc g m p = (l, Ret ((), p'))
    /\ pool_wf p' /\ sent w l = [m]
    /\ only_changes w l p p'
    /\ (exists d t, workers p' !! w = Some d /\ d_group d = g /\ d_messages d = 1%Z
          /\ threads p' !! w = Some t /\ last (messages t) = Some m)
    /\ ((w ∈ group_of p g /\ idle p w
         /\ forall w', w' ∈ group_of p g -> idle p w' -> (w <= w')%N)
        \/ ((forall w', w' ∈ group_of p g -> ~ idle p w') /\ threads p !! w = None
            /\ exists t, threads p' !! w = Some t /\ worker t = wk /\ started t = true
                 /\ messages t = [m])).
Proof.
  intros E Hwf Hs Hwk. destruct (idle_worker_spec p g Hwf) as ([w|]&Hi&Hsp).
  - destruct (send_to_idle P alloc p g m w Hwf Hs Hi) as (d&t&l&Hd&Ht&Hg&H0&E0&Hl1&Hl2&_).
    exists l, w, (delivered w d t m p). split_and!; try done.
    + by eapply wf_delivered.
    + intros w' Hne. destruct (only_delivered w d t m p). auto.
    + do 2 eexists. simpl. rewrite !lookup_insert, !decide_True by done. split; [done|].
      split; [done|]. split; [simpl; lia|]. split; [done|]. simpl. apply last_snoc.
    + by left.
  - destruct (send_to_new P alloc p g m wk (env_alloc _ _ _ E) Hwf Hs Hi Hwk) as (l&E0&Hl1&Hl2&_).
    set (a := alloc (dom (threads p))) in *. assert (Ha : a ∉ dom (threads p)) by apply (env_alloc _ _ _ E).
    exists l, a. eexists. split; [exact E0|].
    pose proof (only_new P a wk g p Ha) as Hnew.
    set (q := with_new_worker P a wk g p) in *.
    assert (Hq : threads q !! a = Some (new_thread P wk)) by (simpl; by rewrite lookup_insert, decide_True).
    assert (Hqd : workers q !! a = Some (new_WorkerDetails g)) by (simpl; by rewrite lookup_insert, decide_True).
    split_and!; try done.
    + eapply wf_delivered; [by apply wf_with_new_worker|exact Hqd|exact Hq].
    + intros w' Hne. pose proof (only_delivered a (new_WorkerDetails g) (new_thread P wk) m q) as Hdel.
      pose proof (only_trans _ _ _ _ Hnew Hdel) as [F1 _ _ F4]. auto.
    + do 2 eexists. simpl. rewrite !lookup_insert, !decide_True by done. by split_and!.
    + right. split; [done|]. split; [by apply not_elem_of_dom|].
      eexists. simpl. rewrite lookup_insert, decide_True by done. split; [done|].
      unfold new_thread. by case_decide.
Qed.

(** Nothing limits the number of workers: with requests arriving faster
    than they are answered, every number of them is reached, in one group,
    whatever the settings' [search_workers] and [update_workers] say. *)
Theorem workers_unbounded g n :
  environment P alloc queue_ok -> is_Some (get_worker g 0) ->
  exists s, reach s /\ stopping s = false /\ size (dom (workers (sys_pool s))) = n
    /\ forall w d, workers (sys_pool s) !! w = Some d -> d_group d = g /\ d_messages d = 1%Z.
Proof.
  intros E [wk Hwk]. induction n as [|n (s&Hr&Hst&Hn&Hall)].
  - exists init. split_and!; [apply rtc_refl|done|done|]. intros w d. simpl. by rewrite lookup_empty.
  - destruct (env_reach E s Hr) as [Hok _]. pose proof (ok_wf _ Hok) as Hwf.
    set (m := MkMessage 0 [] [] []).
    assert (Hm : (0 <= connection_num m <= int_max 32)%Z) by (by vm_compute).
    pose proof (sendable_nonneg m Hm) as Hs.
    destruct (idle_worker_spec (sys_pool s) g Hwf) as ([w|]&Hi&Hsp).
    { destruct Hsp as (_&(d&Hd&H0)&_). destruct (Hall w d Hd). lia. }
    destruct (send_to_new P alloc (sys_pool s) g m wk (env_alloc _ _ _ E) Hwf Hs Hi Hwk) as (l&E0&_).
    set (a := alloc (dom (threads (sys_pool s)))) in *.
    assert (Ha : a ∉ dom (workers (sys_pool s))).
    { intros Hin. apply (env_alloc _ _ _ E (dom (threads (sys_pool s)))).
      rewrite (wf_heap _ Hwf) at 2. set_solver. }
    eexists. split_and!.
    + eapply rtc_r; [exact Hr|]. exact (step_send _ _ _ s g m l _ Hst Hm (mk_is_Some _ _ Hwk) E0).
    + done.
    + simpl. rewrite !dom_insert_L. rewrite union_assoc_L, union_idemp_L.
      rewrite size_union, size_singleton, Hn by set_solver. lia.
    + intros w d. simpl. rewrite insert_insert, decide_True by done.
      destruct (decide (w = a)) as [->|Hne].
      * rewrite lookup_insert, decide_True by done. by intros [= <-].
      * rewrite lookup_insert_ne by done. apply Hall.
Qed.

(** A thread that cannot be created goes unnoticed: [pthread_create]
    returns a positive number, [start] tests for -1, reports nothing and
    returns true, and the object has no thread. *)
Theorem create_failure_unnoticed (t : WorkerThread W) :
  (0 < create_rc P)%Z -> started t = false ->
  exists t', start P t = ([LogEntry "D" (B "Starting worker")], Ret (true, t'))
    /\ started t' = true /\ thread t' = None.
Proof.
  intros Hrc Hs. unfold start, assert_that. rewrite st_get, (decide_True (P := started t = false)), st_lift by done.
  rewrite st_modify, st_tell, st_modify.
  rewrite (decide_False (P := create_rc P = 0%Z)) by lia.
  rewrite (decide_False (P := create_rc P = (-1)%Z)) by lia.
  eexists. split; [reflexivity|done].
Qed.
End props.


(** ** A run of the server's own workers *)

Module Demo.
Definition P0 : pthread := MkPthread 0 0 0 0 0.

(** An allocator: one more than the greatest address in use. *)
Definition alloc0 (s : gset N) : N := (foldr N.max 0 (elements s) + 1)%N.

Lemma foldr_max_ge l x : x ∈ l -> (x <= foldr N.max 0 l)%N.
Proof. induction l as [|y l IH]; simpl; [by intros ?%not_elem_of_nil|].
  intros [->|?%IH]%elem_of_cons; lia. Qed.

Lemma alloc0_fresh s : alloc0 s ∉ s.
Proof. intros H. apply elem_of_elements, foldr_max_ge in H. unfold alloc0 in H. lia. Qed.

#[export] Instance dispatcher : Dispatcher Dispatch.XappyWorker :=
  Dispatch.XappyDispatcher (B "0.1") (fun _ => []).

Lemma env0 : environment (W := Dispatch.XappyWorker) P0 alloc0 true.
Proof.
  split; [done|done|apply alloc0_fresh|]. intros [] m Hm;
    unfold run_body, XappyWorker_loop, SearchWorker_run, IndexerWorker_run;
    rewrite decide_False by lia; eauto.
Qed.

Abbreviation sys := (system (W := Dispatch.XappyWorker)).

Definition after_send (g : bytes) (m : Message) (s : sys) : sys :=
  match send_to_worker P0 alloc0 g m (sys_pool s) with
  | (l, Ret (_, p')) => MkSystem p' false (trace s ++ l)
  | _ => s
  end.

Definition after_thread (w : N) (s : sys) : sys :=
  match thread_step P0 true w (sys_pool s) with
  | (l, Ret (_, p')) => MkSystem p' (stopping s) (trace s ++ l)
  | _ => s
  end.

Abbreviation reach := (reachable (W := Dispatch.XappyWorker) P0 alloc0 true).

Lemma reach_send g m s :
  reach s -> stopping s = false -> (0 <= connection_num m <= int_max 32)%Z ->
  is_Some (get_worker g 0) -> reach (after_send g m s).
Proof.
  intros Hr Hst Hm Hg. unfold after_send.
  destruct (send_to_worker P0 alloc0 g m (sys_pool s)) as [l [[[] p']|]] eqn:E; [|done].
  eapply rtc_r; [exact Hr|]. by eapply step_send.
Qed.

Lemma reach_thread w s : reach s -> reach (after_thread w s).
Proof.
  intros Hr. unfold after_thread.
  destruct (thread_step P0 true w (sys_pool s)) as [l [[b p']|]] eqn:E; [|done].
  eapply rtc_r; [exact Hr|]. by eapply step_thread.
Qed.

Definition msg1 : Message := MkMessage 0 (B "1") (B "Gdb/a") (B "{}").
Definition msg2 : Message := MkMessage 0 (B "2") (B "Udb/a") (B "[]").

(** Two messages to two groups, and the worker of the first one at work. *)
Definition s1 : sys := after_send (B "search") msg1 init.
Definition s2 : sys := after_send (B "indexer_a") msg2 s1.
Definition s3 : sys := after_thread 1 (after_thread 1 s2).
(** Both have answered and wait. *)
Definition s4 : sys := Nat.iter 3 (after_thread 2) (Nat.iter 2 (after_thread 1) s3).
Definition s5 : sys := after_thread 2 s4.

Lemma reach_s3 : reach s3.
Proof.
  do 2 apply reach_thread.
  apply reach_send; [apply reach_send; [apply rtc_refl|done|done|]|by vm_compute|done|];
    eexists; by vm_compute.
Qed.

Lemma reach_s5 : reach s5.
Proof. do 6 apply reach_thread. apply reach_s3. Qed.

Definition t1 : WorkerThread Dispatch.XappyWorker :=
  MkWorkerThread Dispatch.SearchWorker [] false true false true (Some (Received msg1)).

Lemma t1_in_s3 : threads (sys_pool s3) !! 1%N = Some t1.
Proof. by vm_compute. Qed.

(** All the objects of [s5]. *)
Lemma s5_idle w t : threads (sys_pool s5) !! w = Some t -> thread t = Some Waiting /\ messages t = [].
Proof.
  intros Ht. apply elem_of_map_to_list in Ht.
  assert (Forall (fun x => thread x.2 = Some Waiting /\ messages x.2 = [])
    (map_to_list (threads (sys_pool s5)))) as Hall.
  { vm_compute. by repeat constructor. }
  rewrite Forall_forall in Hall. apply (Hall (w, t) Ht).
Qed.



Lemma responses_in_order_witness :
  threads (sys_pool s3) !! 1%N = Some t1 /\
  replies t1 (sent 1 (trace s3)) = answered 1 (trace s3) ++ replies t1 (received t1 ++ messages t1)
  /\ Forall (fun m => is_Some (run_body (worker t1) m)) (received t1 ++ messages t1).
Proof.
  split; [exact t1_in_s3|].
  exact (responses_in_order P0 alloc0 true s3 1 t1 env0 reach_s3 t1_in_s3).
Defined.



Lemma stop_while_working_witness :
  exists s1 s2, step P0 alloc0 true s3 s1 /\ own_step P0 true 1 s1 s2
    /\ thread_step P0 true 1 (sys_pool s2) = ([], Throw AssertFailed).
Proof.
  apply (stop_while_working P0 alloc0 true s3 1 t1 msg1 env0 reach_s3).
  - by vm_compute.
  - exact t1_in_s3.
  - reflexivity.
Defined.

Lemma wf_s3 : pool_wf (sys_pool s3).
Proof. apply (ok_wf s3), (env_reach P0 alloc0 true env0 s3 reach_s3). Qed.

Lemma send_to_worker_spec_witness :
  exists l w p', send_to_worker P0 alloc0 (B "search") msg2 (sys_pool s3) = (l, Ret ((), p'))
    /\ pool_wf p' /\ sent w l = [msg2]
    /\ (forall w', w' <> w -> sent w' l = [] /\ threads p' !! w' = threads (sys_pool s3) !! w'
                     /\ workers p' !! w' = workers (sys_pool s3) !! w')
    /\ (exists d t, workers p' !! w = Some d /\ d_group d = B "search" /\ d_messages d = 1%Z
          /\ threads p' !! w = Some t /\ last (messages t) = Some msg2)
    /\ ((w ∈ group_of (sys_pool s3) (B "search") /\ idle (sys_pool s3) w
         /\ forall w', w' ∈ group_of (sys_pool s3) (B "search") -> idle (sys_pool s3) w' -> (w <= w')%N)
        \/ ((forall w', w' ∈ group_of (sys_pool s3) (B "search") -> ~ idle (sys_pool s3) w')
            /\ threads (sys_pool s3) !! w = None
            /\ exists t, threads p' !! w = Some t /\ worker t = Dispatch.SearchWorker
                 /\ started t = true /\ messages t = [msg2])).
Proof.
  apply (send_to_worker_spec P0 alloc0 true (sys_pool s3) (B "search") msg2 Dispatch.SearchWorker
    env0 wf_s3).
  - split; [by vm_compute|done].
  - by vm_compute.
Defined.

Lemma workers_unbounded_witness :
  exists s, reach s /\ stopping s = false /\ size (dom (workers (sys_pool s))) = 1000
    /\ forall w d, workers (sys_pool s) !! w = Some d -> d_group d = B "search" /\ d_messages d = 1%Z.
Proof. apply (workers_unbounded P0 alloc0 true (B "search") 1000 env0). eexists. by vm_compute. Defined.

Lemma create_failure_unnoticed_witness :
  exists t', start (MkPthread 0 0 11 0 0) (new_WorkerThread Dispatch.SearchWorker)
      = ([LogEntry "D" (B "Starting worker")], Ret (true, t'))
    /\ started t' = true /\ thread t' = None.
Proof.
  apply (create_failure_unnoticed (MkPthread 0 0 11 0 0) (new_WorkerThread Dispatch.SearchWorker));
    done.
Defined.
End Demo.
