(* ===== verification/Settings.v ===== *)
(** * src/settings.cc and src/cli.cc: the command line

    [getopt_long] is outside the sources: [parse_args] is a function of the
    results it gives, one by one, and of the number of arguments it leaves. *)

From stdpp Require Import pretty.
From S2P Require Import Prelude.

Record ServerSettings := MkServerSettings {
  use_stdio : bool;
  interface : bytes;
  log_filename : bytes;
  port : Z;
  search_workers : Z;
  update_workers : Z;
}.

(** [ServerSettings::ServerSettings] *)
Definition default_settings : ServerSettings :=
  MkServerSettings false (B "0.0.0.0") (B "log") 8080 10 1.

(** What is printed. *)
Inductive output := Cout (text : bytes) | Cerr (text : bytes).

(** [atoi]: blanks, a sign, digits; a number that is not an [int] is
    undefined. *)
Fixpoint atoi_digits (s : bytes) (acc : Z) : Z :=
  match s with
  | c :: s' => if isdigit c then atoi_digits s' (acc * 10 + (uchar c - 48)) else acc
  | [] => acc
  end.

Fixpoint atoi_blanks (s : bytes) : bytes :=
  match s with
  | c :: s' => if isspace c then atoi_blanks s' else s
  | [] => []
  end.

Definition atoi (s : bytes) : outcome Z :=
  let v := match atoi_blanks s with
           | "-"%char :: s' => (- atoi_digits s' 0)%Z
           | "+"%char :: s' => atoi_digits s' 0
           | s' => atoi_digits s' 0
           end in
  if decide (in_int 32 v) then Ret v else Throw IntOverflow.

(** One result of [getopt_long] with its argument. *)
Record getopt_result := Opt {
  getopt_ret : ascii;
  optarg : bytes;
}.

Section Settings.
Variable VERSION XAPIAN_VERSION : bytes.

Definition newline : bytes := ["010"%char].

Definition help_text : bytes :=
  B "xappy-server - server for xapian" ++ newline ++ newline
  ++ B "Usage: xappy-server [OPTIONS]" ++ newline ++ newline
  ++ B "Options:" ++ newline
  ++ B "  -i, --interface   Set the interface to listen on" ++ newline
  ++ B "  -p, --port        Set the port to listen on" ++ newline
  ++ B "  -s, --searchers   Set the maximum number of concurrent search workers" ++ newline
  ++ B "  -u, --updaters    Set the maximum number of concurrent update workers" ++ newline
  ++ B "  -l, --log         Set the filename to write log entries to" ++ newline
  ++ B "  -h, --help        Display this help and exit" ++ newline
  ++ B "  -v, --version     Output version information and exit" ++ newline
  ++ B "  --stdio           Listen on stdin, and write on stdout" ++ newline ++ newline.

Definition version_text : bytes :=
  B "xappy-server version " ++ VERSION ++ newline
  ++ B "Using xapian version " ++ XAPIAN_VERSION ++ newline.

(** [ServerSettings::validate] *)
Definition validate (s : ServerSettings) : eff output bool :=
  (if decide (search_workers s < 1)%Z then
     emit (Cerr (B "Error: must have at least one search worker - got "
                 ++ B (pretty (search_workers s)) ++ newline))
   else mret ());;
  (if decide (update_workers s < 1)%Z then
     emit (Cerr (B "Error: must have at least one update worker - got "
                 ++ B (pretty (update_workers s)) ++ newline))
   else mret ());;
  mret (bool_decide (1 <= search_workers s /\ 1 <= update_workers s)%Z).

(** The [while] of [parse_args]: an exit code if it returns, and the
    settings. *)
Fixpoint parse_options (opts : list getopt_result) (s : ServerSettings)
    : eff output (option Z * ServerSettings) :=
  match opts with
  | [] => mret (None, s)
  | Opt c arg :: opts' =>
      let '(MkServerSettings st i l p sw uw) := s in
      if decide (c = "?"%char) then mret (Some 1%Z, s)
      else if decide (c = "h"%char) then emit (Cout help_text);; mret (Some 0%Z, s)
      else if decide (c = "v"%char) then emit (Cout version_text);; mret (Some 0%Z, s)
      else if decide (c = "o"%char) then parse_options opts' (MkServerSettings true i l p sw uw)
      else if decide (c = "i"%char) then parse_options opts' (MkServerSettings st arg l p sw uw)
      else if decide (c = "p"%char) then
        n ← lift_outcome (atoi arg); parse_options opts' (MkServerSettings st i l n sw uw)
      else if decide (c = "s"%char) then
        n ← lift_outcome (atoi arg); parse_options opts' (MkServerSettings st i l p n uw)
      else if decide (c = "u"%char) then
        n ← lift_outcome (atoi arg); parse_options opts' (MkServerSettings st i l p sw n)
      else if decide (c = "l"%char) then parse_options opts' (MkServerSettings st i arg p sw uw)
      else parse_options opts' s
  end.

(** [ServerSettings::parse_args]: -1 to go on, or the exit code; [rest] is
    [argc - optind]. *)
Definition parse_args (opts : list getopt_result) (rest : Z) (s : ServerSettings)
    : eff output (Z * ServerSettings) :=
  '(code, s) ← parse_options opts s;
  match code with
  | Some code => mret (code, s)
  | None =>
      ok ← validate s;
      if negb ok then mret (1%Z, s)
      else if decide (0 < rest)%Z then
        emit (Cout (B "Too many arguments - use -h for help" ++ newline));;
        mret (1%Z, s)
      else mret ((-1)%Z, s)
  end.

(** [main] of src/cli.cc: [server_run] is [Server::run] for a server with
    these settings, and the error message it leaves. *)
Definition main (opts : list getopt_result) (rest : Z)
    (server_run : ServerSettings -> outcome (bool * bytes)) : eff output Z :=
  '(args_err, settings) ← parse_args opts rest default_settings;
  if decide (args_err <> -1)%Z then mret args_err
  else
    '(ok, error_message) ← lift_outcome (server_run settings);
    if (ok : bool) then mret 0%Z
    else
      emit (Cerr (error_message ++ newline));;
      mret 1%Z.

(** ** Options *)

Lemma validate_spec s :
  result (validate s) = Ret (bool_decide (1 <= search_workers s /\ 1 <= update_workers s)%Z)
  /\ (events (validate s) = [] <-> (1 <= search_workers s /\ 1 <= update_workers s)%Z).
Proof.
  unfold validate. destruct (decide (search_workers s < 1)%Z), (decide (update_workers s < 1)%Z);
    simpl; split; try done; split; done || lia.
Qed.

(** The arguments of the [c] options, and the last of them. *)
Definition args (c : ascii) (opts : list getopt_result) : list bytes :=
  omap (fun o => if decide (getopt_ret o = c) then Some (optarg o) else None) opts.

Definition last_arg (c : ascii) (opts : list getopt_result) (d : bytes) : bytes :=
  default d (last (args c opts)).

(** The last number given for [c], or the default. *)
Definition last_number (c : ascii) (opts : list getopt_result) (d n : Z) : Prop :=
  match last (args c opts) with
  | Some arg => atoi arg = Ret n
  | None => n = d
  end.

Lemma args_cons c c' arg opts :
  args c (Opt c' arg :: opts) = if decide (c' = c) then arg :: args c opts else args c opts.
Proof. unfold args. simpl. by destruct (decide (c' = c)). Qed.

Lemma last_cons_default {A} (x : A) l d : default d (last (x :: l)) = default x (last l).
Proof.
  destruct l as [|y l]; [done|]. rewrite last_cons_cons.
  destruct (last (y :: l)) eqn:E; [done|by apply last_None in E].
Qed.

Lemma last_cons_match {A} (x : A) l (P : A -> Prop) Q :
  match last (x :: l) with Some y => P y | None => Q end
  <-> match last l with Some y => P y | None => P x end.
Proof.
  destruct l as [|y l]; [done|]. rewrite last_cons_cons.
  destruct (last (y :: l)) eqn:E; [done|]. by apply last_None in E.
Qed.

Lemma last_arg_cons c c' arg opts d :
  last_arg c (Opt c' arg :: opts) d = last_arg c opts (if decide (c' = c) then arg else d).
Proof.
  unfold last_arg. rewrite args_cons. destruct (decide (c' = c)); [|done]. apply last_cons_default.
Qed.

Lemma last_number_cons c c' arg opts d d' n :
  (if decide (c' = c) then atoi arg = Ret d' else d' = d) ->
  last_number c opts d' n -> last_number c (Opt c' arg :: opts) d n.
Proof.
  unfold last_number. rewrite args_cons. destruct (decide (c' = c)); intros Hd.
  - rewrite last_cons_match. destruct (last (args c opts)); [done|]. by intros ->.
  - by subst.
Qed.

(** What the loop leaves when it ends without an exit code. *)
Lemma parse_options_spec opts : forall s l s',
  parse_options opts s = (l, Ret (None, s')) ->
  l = [] /\ use_stdio s' = use_stdio s || existsb (fun o => bool_decide (getopt_ret o = "o"%char)) opts
  /\ interface s' = last_arg "i" opts (interface s)
  /\ log_filename s' = last_arg "l" opts (log_filename s)
  /\ last_number "p" opts (port s) (port s')
  /\ last_number "s" opts (search_workers s) (search_workers s')
  /\ last_number "u" opts (update_workers s) (update_workers s').
Proof.
  induction opts as [|[c arg] opts IH]; intros [st i lf p sw uw] l s' E.
  - simpl in E. injection E as <- <-. simpl. by rewrite orb_false_r.
  - assert (Hstep : forall s0, parse_options opts s0 = (l, Ret (None, s')) ->
      use_stdio s0 = st || bool_decide (c = "o"%char) ->
      interface s0 = (if decide (c = "i"%char) then arg else i) ->
      log_filename s0 = (if decide (c = "l"%char) then arg else lf) ->
      (if decide (c = "p"%char) then atoi arg = Ret (port s0) else port s0 = p) ->
      (if decide (c = "s"%char) then atoi arg = Ret (search_workers s0) else search_workers s0 = sw) ->
      (if decide (c = "u"%char) then atoi arg = Ret (update_workers s0) else update_workers s0 = uw) ->
      l = [] /\ use_stdio s' = st || existsb (fun o => bool_decide (getopt_ret o = "o"%char)) (Opt c arg :: opts)
      /\ interface s' = last_arg "i" (Opt c arg :: opts) i
      /\ log_filename s' = last_arg "l" (Opt c arg :: opts) lf
      /\ last_number "p" (Opt c arg :: opts) p (port s')
      /\ last_number "s" (Opt c arg :: opts) sw (search_workers s')
      /\ last_number "u" (Opt c arg :: opts) uw (update_workers s')).
    { intros s0 E0 H1 H2 H3 H4 H5 H6. destruct (IH s0 l s' E0) as (->&G1&G2&G3&G4&G5&G6).
      rewrite !last_arg_cons. split_and!; try (by eapply last_number_cons).
      - done.
      - rewrite G1, H1. simpl. by rewrite orb_assoc.
      - by rewrite G2, H2.
      - by rewrite G3, H3. }
    assert (Hnum : forall (f : Z -> ServerSettings),
      (n ← lift_outcome (atoi arg); parse_options opts (f n)) = (l, Ret (None, s')) ->
      exists n, atoi arg = Ret n /\ parse_options opts (f n) = (l, Ret (None, s'))).
    { intros f Ef. destruct (atoi arg) as [n|e]; [|done]. rewrite eff_bind_lift in Ef. eauto. }
    cbn [parse_options] in E.
    repeat (destruct (decide (c = _)) as [->|?]; [try discriminate E|]).
    all: try (apply Hnum in E as (num&Hn&E)).
    all: eapply Hstep; [exact E|..]; cbn [use_stdio interface log_filename port search_workers
      update_workers]; rewrite ?decide_False, ?decide_True, ?bool_decide_false, ?bool_decide_true,
      ?orb_false_r, ?orb_true_r by done; done.
Qed.

(** ** Properties *)

(** C39: when [parse_args] lets the program go on, nothing was printed, no
    argument is left over, there is at least one search and one update
    worker, and every setting is the last one the options give, or the
    default. *)
Theorem parse_args_spec opts rest l s :
  parse_args opts rest default_settings = (l, Ret ((-1)%Z, s)) ->
  l = [] /\ (rest <= 0)%Z /\ (1 <= search_workers s)%Z /\ (1 <= update_workers s)%Z
  /\ use_stdio s = existsb (fun o => bool_decide (getopt_ret o = "o"%char)) opts
  /\ interface s = last_arg "i" opts (B "0.0.0.0")
  /\ log_filename s = last_arg "l" opts (B "log")
  /\ last_number "p" opts 8080 (port s)
  /\ last_number "s" opts 10 (search_workers s) /\ last_number "u" opts 1 (update_workers s).
Proof.
  unfold parse_args. destruct (parse_options opts default_settings) as [l1 [[code s1]|e]] eqn:E; [|done].
  rewrite eff_bind_pair. destruct code as [code|].
  { simpl. intros [= <- -> ->]. exfalso.
    assert (Hcode : forall opts s l c s', parse_options opts s = (l, Ret (Some c, s')) -> (0 <= c)%Z).
    { clear. induction opts as [|[c arg] opts IH]; intros [st i lf p sw uw] l0 c0 s' E0; [done|].
      cbn [parse_options] in E0.
      repeat (destruct (decide (c = _)) as [->|?]; [try (injection E0; intros; lia)|]);
        try (destruct (atoi arg); [rewrite eff_bind_lift in E0|done]); by eapply IH. }
    apply Hcode in E. lia. }
  destruct (validate_spec s1) as [Hv He]. destruct (validate s1) as [l2 r2]. simpl in Hv, He. subst r2.
  rewrite eff_bind_pair. destruct (decide (1 <= search_workers s1 /\ 1 <= update_workers s1)%Z) as [Hok|].
  2: { by rewrite bool_decide_false. }
  rewrite bool_decide_true by done. cbn [negb]. case_decide; [done|]. simpl.
  intros [= <- <-]. apply He in Hok as Hl. subst l2.
  apply parse_options_spec in E as (->&H1&H2&H3&H4&H5&H6). simpl in H1.
  split_and!; try done; lia.
Qed.

End Settings.

Lemma parse_args_spec_witness :
  let opts := [Opt "o" []; Opt "s" (B "4"); Opt "l" (B "x.log"); Opt "s" (B " 12rest")] in
  let s := MkServerSettings true (B "0.0.0.0") (B "x.log") 8080 12 1 in
  parse_args (B "0.1") (B "1.0.18") opts 0 default_settings = ([], Ret ((-1)%Z, s)) /\
  (([] : list output) = [] /\ (0 <= 0)%Z /\ (1 <= search_workers s)%Z /\ (1 <= update_workers s)%Z
  /\ use_stdio s = existsb (fun o => bool_decide (getopt_ret o = "o"%char)) opts
  /\ interface s = last_arg "i" opts (B "0.0.0.0")
  /\ log_filename s = last_arg "l" opts (B "log")
  /\ last_number "p" opts 8080 (port s)
  /\ last_number "s" opts 10 (search_workers s) /\ last_number "u" opts 1 (update_workers s)).
Proof.
  intros opts s. assert (H : parse_args (B "0.1") (B "1.0.18") opts 0 default_settings = ([], Ret ((-1)%Z, s))) by (by vm_compute).
  split; [exact H|].
  destruct (parse_args_spec (B "0.1") (B "1.0.18") opts 0 [] s H) as (_&H2). split; [reflexivity|exact H2].
Defined.
