(* ===== verification/Signals.v ===== *)
(** * src/server/signals.cc: the signal handlers of the server process *)

From S2P Require Import Prelude.

Inductive disposition := SIG_DFL | handle_sig_d | emergency_exit_handler_d.

#[export] Instance disposition_eq_dec : EqDecision disposition.
Proof. solve_decision. Defined.

Definition SIGINT : Z := 2.
Definition SIGTERM : Z := 15.
Definition SIGCHLD : Z := 17.

(** The dispositions of the process (default where there is no entry) and the
    global variables of the file; [g_server] points to the one server. *)
Record signals := MkSignals {
  dispositions : gmap Z disposition;
  g_server_pid : Z;
}.

Definition disposition_of (signum : Z) (s : signals) : disposition :=
  default SIG_DFL (dispositions s !! signum).

(** What the handlers call. *)
Inductive signal_event :=
| SetSysError (message : bytes)    (* internal->set_sys_error(message, errno) *)
| Shutdown                         (* g_server->shutdown() *)
| EmergencyShutdown                (* g_server->emergency_shutdown() *)
| KillGroup (signum : Z)           (* kill(0, signum) *)
| Waited (child : Z)               (* waitpid gave this child *)
| Exit (status : Z).

Section Signals.
(** Whether [sigaction] accepts a signal, and [getpid()]. *)
Variable sigaction_ok : Z -> bool.
Variable pid : Z.

Abbreviation M := (st signals signal_event).

Definition sigaction (signum : Z) (act : disposition) : M bool :=
  if sigaction_ok signum then
    modify (fun s => MkSignals (<[signum := act]> (dispositions s)) (g_server_pid s));;
    mret true
  else mret false.

(** [signal_process_group] *)
Definition signal_process_group (signum : Z) : M unit :=
  sigaction signum SIG_DFL;;
  tell (KillGroup signum).

(** [release_signal_handlers] *)
Definition release_signal_handlers : M unit :=
  sigaction SIGTERM SIG_DFL;;
  sigaction SIGINT SIG_DFL;;
  sigaction SIGCHLD SIG_DFL;;
  mret ().

(** [set_up_emergency_signal_handlers] *)
Definition set_up_emergency_signal_handlers : M unit :=
  ok ← sigaction SIGINT emergency_exit_handler_d;
  if (ok : bool) then mret () else release_signal_handlers.

(** [emergency_exit_handler]; [exit] does not return. *)
Definition emergency_exit_handler (signum : Z) : M unit :=
  s ← get;
  (if decide (g_server_pid s = pid) then tell EmergencyShutdown else mret ());;
  signal_process_group signum;;
  release_signal_handlers;;
  tell (Exit 0).

(** The [while] of the SIGCHLD case over the results of [waitpid]. *)
Fixpoint reap (waitpids : list Z) : M unit :=
  match waitpids with
  | [] => mret ()
  | ret :: rest => if decide (ret <= 0)%Z then mret () else tell (Waited ret);; reap rest
  end.

(** [handle_sig] *)
Definition handle_sig (waitpids : list Z) (signum : Z) : M unit :=
  if decide (signum = SIGINT) then
    s ← get;
    (if decide (g_server_pid s = pid) then tell Shutdown else mret ());;
    set_up_emergency_signal_handlers
  else if decide (signum = SIGCHLD) then reap waitpids
  else
    release_signal_handlers;;
    signal_process_group signum.

(** [set_up_signal_handlers] *)
Definition set_up_signal_handlers : M bool :=
  modify (fun s => MkSignals (dispositions s) pid);;
  ok ← sigaction SIGINT handle_sig_d;
  if negb ok then tell (SetSysError (B "Unable to set SIGINT handler"));; mret false
  else
    ok ← sigaction SIGCHLD handle_sig_d;
    if negb ok then tell (SetSysError (B "Unable to set SIGCHLD handler"));; mret false
    else
      ok ← sigaction SIGTERM emergency_exit_handler_d;
      if negb ok then tell (SetSysError (B "Unable to set SIGTERM handler"));; mret false
      else mret true.

(** A signal arrives: the handler installed for it runs. *)
Definition deliver (waitpids : list Z) (signum : Z) : M unit :=
  s ← get;
  match disposition_of signum s with
  | SIG_DFL => mret ()
  | handle_sig_d => handle_sig waitpids signum
  | emergency_exit_handler_d => emergency_exit_handler signum
  end.

(** ** Handlers when [sigaction] succeeds *)

Lemma sigaction_spec signum act s :
  sigaction_ok signum = true ->
  sigaction signum act s = ([], Ret (true, MkSignals (<[signum := act]> (dispositions s)) (g_server_pid s))).
Proof. intros H. unfold sigaction. by rewrite H, st_modify. Qed.

Lemma reap_spec children s :
  Forall (fun c => 0 < c)%Z children ->
  reap (children ++ [0%Z]) s = (Waited <$> children, Ret ((), s)).
Proof.
  induction 1 as [|c children Hc _ IH]; [done|]. simpl app. cbn [reap].
  rewrite decide_False by lia. by rewrite st_tell, IH.
Qed.

Ltac dispositions :=
  unfold disposition_of; cbn [dispositions]; rewrite ?lookup_insert; reflexivity.

Lemma release_spec s :
  (forall signum, sigaction_ok signum = true) ->
  release_signal_handlers s = ([], Ret ((), MkSignals (<[SIGCHLD := SIG_DFL]>
    (<[SIGINT := SIG_DFL]> (<[SIGTERM := SIG_DFL]> (dispositions s)))) (g_server_pid s))).
Proof.
  intros Hok. unfold release_signal_handlers.
  do 3 (erewrite st_run; [|by apply sigaction_spec]). done.
Qed.

Lemma emergency_exit_spec signum s :
  (forall signum, sigaction_ok signum = true) -> g_server_pid s = pid ->
  exists s', emergency_exit_handler signum s
      = ([EmergencyShutdown; KillGroup signum; Exit 0], Ret ((), s'))
    /\ forall n, n ∈ [SIGTERM; SIGINT; SIGCHLD] -> disposition_of n s' = SIG_DFL.
Proof.
  intros Hok Hpid. unfold emergency_exit_handler, signal_process_group.
  rewrite st_get, decide_True, st_tell by done. rewrite st_assoc.
  erewrite st_run; [|by apply sigaction_spec]. rewrite st_tell.
  erewrite st_run; [|by apply release_spec]. eexists. split; [reflexivity|].
  intros n Hn. repeat (apply elem_of_cons in Hn as [->|Hn]); [dispositions..|].
  by apply not_elem_of_nil in Hn.
Qed.

(** ** Properties *)

(** With the handlers set up (and [sigaction] accepting the signals), the
    first SIGINT asks for a shutdown and arms the emergency exit: the second
    one, as a SIGTERM at any time, performs the emergency shutdown, signals
    the process group, restores the defaults and exits; children are reaped
    in between without any other effect. *)
Theorem interrupt_protocol s children :
  (forall signum, sigaction_ok signum = true) -> Forall (fun c => 0 < c)%Z children ->
  exists s0 s1 s2 s3, set_up_signal_handlers s = ([], Ret (true, s0))
    /\ deliver [] SIGINT s0 = ([Shutdown], Ret ((), s1))
    /\ deliver (children ++ [0%Z]) SIGCHLD s1 = (Waited <$> children, Ret ((), s1))
    /\ deliver [] SIGINT s1 = ([EmergencyShutdown; KillGroup SIGINT; Exit 0], Ret ((), s2))
    /\ deliver [] SIGTERM s0 = ([EmergencyShutdown; KillGroup SIGTERM; Exit 0], Ret ((), s3))
    /\ (forall signum, signum ∈ [SIGTERM; SIGINT; SIGCHLD] ->
          disposition_of signum s2 = SIG_DFL /\ disposition_of signum s3 = SIG_DFL).
Proof.
  intros Hok Hch. set (d0 := <[SIGTERM := emergency_exit_handler_d]> (<[SIGCHLD := handle_sig_d]>
    (<[SIGINT := handle_sig_d]> (dispositions s)))).
  set (s0 := MkSignals d0 pid). set (s1 := MkSignals (<[SIGINT := emergency_exit_handler_d]> d0) pid).
  assert (Hint0 : disposition_of SIGINT s0 = handle_sig_d)
    by (unfold s1, s0, d0; dispositions).
  assert (Hterm0 : disposition_of SIGTERM s0 = emergency_exit_handler_d)
    by (unfold s1, s0, d0; dispositions).
  assert (Hint1 : disposition_of SIGINT s1 = emergency_exit_handler_d)
    by (unfold s1, s0, d0; dispositions).
  assert (Hchld1 : disposition_of SIGCHLD s1 = handle_sig_d)
    by (unfold s1, s0, d0; dispositions).
  destruct (emergency_exit_spec SIGINT s1 Hok eq_refl) as (s2&E2&H2).
  destruct (emergency_exit_spec SIGTERM s0 Hok eq_refl) as (s3&E3&H3).
  exists s0, s1, s2, s3. split_and!.
  - unfold set_up_signal_handlers. rewrite st_modify.
    do 3 (erewrite st_run; [|by apply sigaction_spec]; cbn [negb]). done.
  - unfold deliver. rewrite st_get, Hint0. unfold handle_sig. rewrite decide_True by done.
    rewrite st_get, decide_True, st_tell by done. unfold set_up_emergency_signal_handlers.
    erewrite st_run; [|by apply sigaction_spec]. done.
  - unfold deliver. rewrite st_get, Hchld1. unfold handle_sig.
    rewrite decide_False, decide_True by done. by apply reap_spec.
  - unfold deliver. by rewrite st_get, Hint1.
  - unfold deliver. by rewrite st_get, Hterm0.
  - intros signum Hs. auto.
Qed.
End Signals.

Lemma interrupt_protocol_witness :
  let start := MkSignals ∅ 0 in
  exists s0 s1 s2 s3, set_up_signal_handlers (fun _ => true) 77 start = ([], Ret (true, s0))
    /\ deliver (fun _ => true) 77 [] SIGINT s0 = ([Shutdown], Ret ((), s1))
    /\ deliver (fun _ => true) 77 ([8; 9] ++ [0])%Z SIGCHLD s1 = (Waited <$> [8; 9]%Z, Ret ((), s1))
    /\ deliver (fun _ => true) 77 [] SIGINT s1
       = ([EmergencyShutdown; KillGroup SIGINT; Exit 0], Ret ((), s2))
    /\ deliver (fun _ => true) 77 [] SIGTERM s0
       = ([EmergencyShutdown; KillGroup SIGTERM; Exit 0], Ret ((), s3))
    /\ (forall signum, signum ∈ [SIGTERM; SIGINT; SIGCHLD] ->
          disposition_of signum s2 = SIG_DFL /\ disposition_of signum s3 = SIG_DFL).
Proof.
  apply (interrupt_protocol (fun _ => true) 77 (MkSignals ∅ 0) [8; 9]%Z).
  - reflexivity.
  - repeat constructor.
Defined.
