(* ===== verification/Server.v ===== *)
(** * src/server/server.cc: the serving thread

    [ServerInternal]'s state, its main loop over [select], the queue of
    responses the workers fill, starting and shutting down.  What the kernel
    answers in one round of the main loop is a record of scripts (Io.v); the
    pool and the log are reached through events. *)

From S2P Require Import Prelude CxxString Str Utils Io ServerH Settings.

(** [struct Connection] *)
Record Connection := MkConnection {
  read_fd : Z;
  write_fd : Z;
  read_buf : bytes;
  write_buf : bytes;
}.

(** [Connection(int read_fd_, int write_fd_)] *)
Definition new_Connection (read_fd_ write_fd_ : Z) : Connection :=
  MkConnection read_fd_ write_fd_ [] [].

(** [class ServerInternal]; the settings, the dispatcher, the logger and the
    pool are not state of it. *)
Record ServerInternal := MkServerInternal {
  started : bool;
  shutting_down : bool;
  nudge_write_end : Z;
  nudge_read_end : Z;
  error_message : bytes;
  connections : gmap Z Connection;
  outgoing_messages : list (Z * bytes);
}.

(** What the server does besides changing its state. *)
Inductive event :=
| LogEntry (type : ascii) (msg : bytes)
| Queued (conn : Z) (response : bytes)     (* outgoing_messages.push *)
| Nudge (data : bytes)                     (* written to nudge_write_end *)
| Received (conn : Z) (data : bytes)       (* the kernel gave these bytes *)
| Written (conn : Z) (data : bytes)        (* the kernel took these bytes *)
| ToPool (group : bytes) (msg : Message)   (* pool->send_to_worker *)
| PoolStop                                 (* workers.stop() *)
| PoolJoin                                 (* workers.join() *)
| SetUpSignalHandlers
| ReleaseSignalHandlers
| Closed (fd : Z).

#[export] Instance event_eq_dec : EqDecision event.
Proof. solve_decision. Defined.

(** The size of the reads of the main loop. *)
Definition read_size : nat := Z.to_nat 65536.

(** The kernel's answers in one round; [select_result] from the [nfds],
    [rfds] and [wfds] it is called with. *)
Record round := Round {
  select_result : Z -> gset Z -> gset Z -> sysres (Z * (gset Z * gset Z)); (* count, rfds, wfds *)
  nudge_reads : list (sysres bytes);
  conn_reads : Z -> list (sysres bytes);
  conn_writes : Z -> list (sysres nat);
}.

Section ServerInternal.
Context {worker : Type} `{D : Dispatcher worker}.
Variable settings : ServerSettings.
(** [strerror] and the variants behind [get_sys_error] (Utils.v). *)
Variables (strerror strerror_r_gnu : Z -> bytes) (strerror_r_xsi : Z -> Z * bytes)
  (variant : strerror_variant).
(** Results of locking and unlocking [outgoing_message_mutex], and errno at
    the time of a failure of a pthread call. *)
Variables lock_rc unlock_rc errno_now : Z.

Abbreviation M := (st ServerInternal event).

Definition set_error_message x s :=
  MkServerInternal (started s) (shutting_down s) (nudge_write_end s) (nudge_read_end s) x
    (connections s) (outgoing_messages s).
Definition set_connections x s :=
  MkServerInternal (started s) (shutting_down s) (nudge_write_end s) (nudge_read_end s)
    (error_message s) x (outgoing_messages s).
Definition set_outgoing x s :=
  MkServerInternal (started s) (shutting_down s) (nudge_write_end s) (nudge_read_end s)
    (error_message s) (connections s) x.
Definition set_started x s :=
  MkServerInternal x (shutting_down s) (nudge_write_end s) (nudge_read_end s)
    (error_message s) (connections s) (outgoing_messages s).
Definition set_nudges w r s :=
  MkServerInternal (started s) (shutting_down s) w r
    (error_message s) (connections s) (outgoing_messages s).

Definition set_read_buf b (c : Connection) := MkConnection (read_fd c) (write_fd c) b (write_buf c).
Definition set_write_buf b (c : Connection) := MkConnection (read_fd c) (write_fd c) (read_buf c) b.

(** [ServerInternal::ServerInternal] *)
Definition new_ServerInternal : ServerInternal :=
  MkServerInternal false false (-1) (-1) [] ∅ [].

Definition log (type : ascii) (msg : bytes) : M unit := tell (LogEntry type msg).

(** [Logger::syserr] *)
Definition syserr (msg : bytes) (en : Z) : M unit := log "S" (msg ++ B ": " ++ strerror en).

(** [ServerInternal::set_sys_error] *)
Definition set_sys_error (message : bytes) (errno_value : Z) : M unit :=
  e ← lift_st (get_sys_error strerror strerror_r_gnu strerror_r_xsi variant errno_value);
  let new_message := message ++ B ": " ++ e in
  log "E" new_message;;
  s ← get;
  if decide (error_message s <> []) then mret ()
  else put (set_error_message new_message s).

(** [ServerInternal::shutdown] *)
Definition shutdown : M unit :=
  log "I" (B "Received shutdown request");;
  tell (Nudge (B "S")).

(** [ServerInternal::emergency_shutdown] *)
Definition emergency_shutdown : M unit := log "I" (B "Performing emergency shutdown").

(** [ServerInternal::start_listening] *)
Definition start_listening : M bool :=
  (if use_stdio settings then
     log "I" (B "Listening on stdio");;
     modify (fun s => set_connections (<[0%Z := new_Connection 0 1]> (connections s)) s)
   else mret ());;
  mret true.

(** [ServerInternal::stop_listening] *)
Definition stop_listening : M unit := mret ().

(** [ServerInternal::queue_response], called by the workers and by the
    dispatcher. *)
Definition queue_response (connection_num : Z) (response : bytes) : M unit :=
  if decide (lock_rc <> 0)%Z then throw (StopWorker (B "Couldn't lock outgoing message mutex"))
  else
    modify (fun s => set_outgoing (outgoing_messages s ++ [(connection_num, response)]) s);;
    tell (Queued connection_num response);;
    if decide (unlock_rc <> 0)%Z then throw (StopWorker (B "Couldn't unlock outgoing message mutex"))
    else tell (Nudge (B "R")).

(** The [while] of [dispatch_responses], over the messages queued. *)
Fixpoint dispatch_responses_loop (msgs : list (Z * bytes)) : M unit :=
  match msgs with
  | [] => modify (set_outgoing [])
  | (conn_num, response) :: msgs' =>
      s ← get;
      n ← lift_st (str_int conn_num);
      (match connections s !! conn_num with
       | Some i =>
           log "D" (B "Dispatching response for connection " ++ n);;
           modify (fun s => set_connections
             (<[conn_num := set_write_buf (write_buf i ++ response) i]> (connections s)) s)
       | None =>
           log "I" (B "Couldn't add response to connection number " ++ n
                    ++ B " - connection not found")
       end);;
      dispatch_responses_loop msgs'
  end.

(** [ServerInternal::dispatch_responses] *)
Definition dispatch_responses : M bool :=
  if decide (lock_rc <> 0)%Z then
    set_sys_error (B "Couldn't lock outgoing message mutex") errno_now;; mret false
  else
    s ← get;
    dispatch_responses_loop (outgoing_messages s);;
    if decide (unlock_rc <> 0)%Z then
      set_sys_error (B "Couldn't unlock outgoing message mutex") errno_now;; mret false
    else mret true.

(** The calls the dispatcher makes on the server while it handles a request. *)
Fixpoint perform (actions : list action) : M unit :=
  match actions with
  | [] => mret ()
  | a :: actions' =>
      (match a with
       | Log type msg => log type msg
       | SendResponse c msg => queue_response c msg
       | SendToWorker g m => tell (ToPool g m)
       end);;
      perform actions'
  end.

(** [while (dispatcher->dispatch_request(i->first, i->second.read_buf)) {}]
    on the text [buf]. *)
Definition dispatch_buffer (n : Z) (buf : bytes) : M bytes := fun s =>
  let '(actions, r) := dispatch_all (S (length buf)) n buf in
  '(_, s') ← perform actions s;
  match r with
  | Ret rest => mret (rest, s')
  | Throw f => lift_outcome (Throw f)
  end.

Definition for_connection (what : bytes) (fd n : Z) : outcome bytes :=
  f ← str_int fd; c ← str_int n; Ret (what ++ f ++ B " for connection " ++ c).

Definition update_connection (n : Z) (f : Connection -> Connection) : M unit :=
  modify (fun s => set_connections (alter f n (connections s)) s).

(** The first [if] of the loop over the connections: whether the connection
    is closed. *)
Definition serve_read (k : round) (rfds : gset Z) (n : Z) (c : Connection) : M bool :=
  if decide (read_fd c ∈ rfds) then
    match io_read_append_max (read_buf c) read_size 0 (conn_reads k n) with
    | None => throw OutOfFuel
    | Some (text, r) =>
        if decide (ret r < 0)%Z then
          m ← lift_st (for_connection (B "Failed to read from fd ") (read_fd c) n);
          syserr m (errno r);; mret false
        else if decide (ret r = 0)%Z then
          m ← lift_st (str_int n);
          log "I" (B "Connection " ++ m ++ B " closed");; mret true
        else
          tell (Received n (drop (length (read_buf c)) text));;
          rest ← dispatch_buffer n text;
          update_connection n (set_read_buf rest);; mret false
    end
  else mret false.

(** The second [if]. *)
Definition serve_write (k : round) (wfds : gset Z) (n : Z) (c : Connection) : M bool :=
  if decide (write_fd c ∈ wfds) then
    match io_write_some (write_buf c) 0 (conn_writes k n) with
    | (_, None) => throw OutOfFuel
    | (data, Some r) =>
        if decide (ret r <= 0)%Z then
          m ← lift_st (for_connection (B "Failed to write to fd ") (write_fd c) n);
          syserr m (errno r);; mret true
        else
          tell (Written n data);;
          lift_st (assert_that (ret r <= Z.of_nat (length (write_buf c)))%Z);;
          update_connection n (set_write_buf (erase_front (write_buf c) (Z.to_nat (ret r))));;
          mret false
    end
  else mret false.

(** The loop over the connections, by number: the closed ones. *)
Fixpoint serve_connections (k : round) (rfds wfds : gset Z) (ns : list Z) : M (list Z) :=
  match ns with
  | [] => mret []
  | n :: ns' =>
      s ← get;
      match connections s !! n with
      | None => throw BadAddress
      | Some c =>
          closed1 ← serve_read k rfds n c;
          closed2 ← serve_write k wfds n c;
          closed ← serve_connections k rfds wfds ns';
          mret (if closed1 || closed2 : bool then n :: closed else closed)
      end
  end.

(** The keys of a [std::map<int, _>], in order. *)
Definition in_order (s : gset Z) : list Z := merge_sort Z.le (elements s).

(** [FD_SET] of the C library: an [fd_set] has [FD_SETSIZE] bits. *)
Definition FD_SETSIZE : Z := 1024.
Definition FD_SET (fd : Z) (fds : gset Z) : outcome (gset Z) :=
  if decide (0 <= fd < FD_SETSIZE)%Z then Ret ({[fd]} ∪ fds) else Throw BadIndex.

(** [FD_SET(fd, &fds); if (fd > maxfd) maxfd = fd;] *)
Definition mark (fd maxfd : Z) (fds : gset Z) : outcome (Z * gset Z) :=
  fds' ← FD_SET fd fds; Ret (if decide (fd > maxfd)%Z then fd else maxfd, fds').

(** The loop that marks the descriptors the connections are interested in. *)
Fixpoint mark_connections (cs : list Connection) (maxfd : Z) (rfds wfds : gset Z)
    : outcome (Z * (gset Z * gset Z)) :=
  match cs with
  | [] => Ret (maxfd, (rfds, wfds))
  | c :: cs' =>
      '(maxfd, rfds) ← mark (read_fd c) maxfd rfds;
      if decide (write_buf c <> []) then
        '(maxfd, wfds) ← mark (write_fd c) maxfd wfds;
        mark_connections cs' maxfd rfds wfds
      else mark_connections cs' maxfd rfds wfds
  end.

(** The sets and [maxfd] a round starts with. *)
Definition fd_sets (s : ServerInternal) : outcome (Z * (gset Z * gset Z)) :=
  '(maxfd, rfds) ← mark (nudge_read_end s) 0 ∅;
  mark_connections (omap (connections s !!.) (in_order (dom (connections s)))) maxfd rfds ∅.

(** What the main loop does next. *)
Inductive loop_verdict := Continue | Return.

(** The [if] on the nudge socket: true to go on. *)
Definition check_nudge (k : round) (rfds : gset Z) : M bool :=
  s ← get;
  if decide (nudge_read_end s ∈ rfds) then
    match io_read_append [] 0 (nudge_reads k) with
    | None => throw OutOfFuel
    | Some (result, r) =>
        if negb (ret r) then
          set_sys_error (B "Couldn't read from internal socket") (errno r);; mret false
        else
          match find result "S"%char 0 with
          | Some _ => log "I" (B "Shutting down");; mret false
          | None => dispatch_responses
          end
    end
  else mret true.

(** The body of the [while] of [mainloop]. *)
Definition mainloop_round (k : round) : M loop_verdict :=
  s ← get;
  '(maxfd, (rfds, wfds)) ← lift_st (fd_sets s);
  match select_result k (swrap 32 (maxfd + 1)) rfds wfds with
  | SysErr e =>
      if decide (e = EINTR) then mret Continue
      else set_sys_error (B "Select failed") e;; mret Return
  | SysOk (count, (rfds, wfds)) =>
      if decide (count = 0)%Z then mret Continue
      else
        go_on ← check_nudge k rfds;
        if negb go_on then mret Return
        else
          s ← get;
          closed ← serve_connections k rfds wfds (in_order (dom (connections s)));
          modify (fun s => set_connections (foldr delete (connections s) closed) s);;
          mret Continue
  end.

(** [ServerInternal::mainloop] over the rounds the kernel lets it have. *)
Fixpoint mainloop (ks : list round) : M unit :=
  s ← get;
  if decide (connections s = ∅) then mret ()
  else
    match ks with
    | [] => throw OutOfFuel
    | k :: ks' =>
        v ← mainloop_round k;
        match v with Continue => mainloop ks' | Return => mret () end
    end.

(** [io_close] of a descriptor, with its error. *)
Definition close_nudge (fd : Z) (kc : list (sysres unit)) : M unit :=
  match io_close 0 kc with
  | None => throw OutOfFuel
  | Some r =>
      tell (Closed fd);;
      if ret r then mret ()
      else set_sys_error (B "Couldn't close internal socketpair") (errno r)
  end.

(** The [catch(...)] of [run]: exceptions are caught, the process does not
    survive the rest. *)
Definition is_exception (f : fault) : bool :=
  match f with OutOfRange | StopWorker _ => true | _ => false end.

Definition catching {A} (m handler : M A) : M A := fun s =>
  match m s with
  | (l, Throw f) => if is_exception f then (l ++ events (handler s), Throw f) else (l, Throw f)
  | r => r
  end.

(** [ServerInternal::run]; [pair] is the result of [socketpair]. *)
Definition run (pair : sysres (Z * Z)) (ks : list round) (kc1 kc2 : list (sysres unit)) : M bool :=
  s ← get;
  if started s || shutting_down s then mret true
  else
    modify (set_started true);;
    log "I" (B "Starting server");;
    match pair with
    | SysErr e => set_sys_error (B "Couldn't create internal socketpair") e;; mret false
    | SysOk (fd0, fd1) =>
        modify (set_nudges fd0 fd1);;
        tell SetUpSignalHandlers;;
        catching
          (listening ← start_listening;
           (if (listening : bool) then
              mainloop ks;;
              stop_listening;;
              tell PoolStop;;
              tell PoolJoin
            else mret ());;
           tell ReleaseSignalHandlers;;
           close_nudge fd0 kc1;;
           close_nudge fd1 kc2)
          (tell ReleaseSignalHandlers;; tell (Closed fd0);; tell (Closed fd1));;
        log "I" (B "Shut down");;
        s ← get;
        mret (bool_decide (error_message s = []))
    end.
End ServerInternal.

(** ** What the operations do *)

(** The responses for one connection, in order. *)
Definition responses_for (n : Z) (msgs : list (Z * bytes)) : bytes :=
  concat (omap (fun r => if decide (r.1 = n) then Some r.2 else None) msgs).

Lemma responses_for_cons n c r msgs :
  responses_for n ((c, r) :: msgs) = (if decide (c = n) then r else []) ++ responses_for n msgs.
Proof. unfold responses_for. simpl. by destruct (decide (c = n)). Qed.

(** Bytes the kernel took for a connection. *)
Definition written (n : Z) (l : list event) : bytes :=
  concat (omap (fun e => match e with
    | Written n' d => if decide (n' = n) then Some d else None
    | _ => None end) l).

(** The responses queued. *)
Definition queued (l : list event) : list (Z * bytes) :=
  omap (fun e => match e with Queued n r => Some (n, r) | _ => None end) l.

(** Bytes the kernel gave for a connection, read by read. *)
Definition received (n : Z) (l : list event) : list bytes :=
  omap (fun e => match e with
    | Received n' d => if decide (n' = n) then Some d else None
    | _ => None end) l.

(** What was queued for a connection, and handed to the pool for it. *)
Definition acted (n : Z) (l : list event) : list action :=
  omap (fun e => match e with
    | Queued c r => if decide (c = n) then Some (SendResponse c r) else None
    | ToPool g m => if decide (connection_num m = n) then Some (SendToWorker g m) else None
    | _ => None end) l.

Lemma received_app n l1 l2 : received n (l1 ++ l2) = received n l1 ++ received n l2.
Proof. apply omap_app. Qed.

Lemma acted_app n l1 l2 : acted n (l1 ++ l2) = acted n l1 ++ acted n l2.
Proof. apply omap_app. Qed.

(** Nothing happened that a client could see. *)
Definition unseen (l : list event) : Prop :=
  forall n, written n l = [] /\ received n l = [] /\ acted n l = [].

Lemma unseen_log l : Forall (fun e => exists t m, e = LogEntry t m) l -> unseen l /\ queued l = [].
Proof. induction 1 as [|e l (t&m&->) _ IH]; [done|exact IH]. Qed.

Lemma queued_app l1 l2 : queued (l1 ++ l2) = queued l1 ++ queued l2.
Proof. apply omap_app. Qed.

Lemma written_app n l1 l2 : written n (l1 ++ l2) = written n l1 ++ written n l2.
Proof. unfold written. by rewrite omap_app, concat_app. Qed.

(** Numbers that [str] can print. *)
Definition printable (n : Z) : Prop := in_int 32 n /\ n <> int_min 32.

Lemma fd_printable n : (0 <= n < FD_SETSIZE)%Z -> printable n.
Proof. unfold printable, in_int, int_min, int_max, FD_SETSIZE. simpl. lia. Qed.

Lemma str_int_printable n : printable n -> exists t, str_int n = Ret t.
Proof. intros [? ?]. by apply str_int_ok. Qed.

Section specs.
Context {worker : Type} `{DL : DispatcherLaws worker}.
Variable settings : ServerSettings.
Variables (strerror strerror_r_gnu : Z -> bytes) (strerror_r_xsi : Z -> Z * bytes)
  (variant : strerror_variant) (errno_now : Z).
Implicit Types s : ServerInternal.

(** The connections after the queue was emptied into their buffers. *)
Definition filled (msgs : list (Z * bytes)) (cs : gmap Z Connection) : gmap Z Connection :=
  map_imap (fun n c => Some (set_write_buf (write_buf c ++ responses_for n msgs) c)) cs.

Lemma lookup_filled msgs cs n :
  filled msgs cs !! n = (fun c => set_write_buf (write_buf c ++ responses_for n msgs) c) <$> cs !! n.
Proof. unfold filled. rewrite map_lookup_imap. by destruct (cs !! n). Qed.

Lemma set_write_buf_id c : set_write_buf (write_buf c) c = c.
Proof. by destruct c. Qed.

Lemma set_write_buf_twice x y c : set_write_buf x (set_write_buf y c) = set_write_buf x c.
Proof. done. Qed.

Lemma filled_nil cs : filled [] cs = cs.
Proof.
  apply map_eq. intros n. rewrite lookup_filled. destruct (cs !! n) as [x|]; [|done]. simpl.
  unfold responses_for. simpl. by rewrite app_nil_r, set_write_buf_id.
Qed.

Lemma filled_cons_some c r i msgs cs :
  cs !! c = Some i ->
  filled msgs (<[c := set_write_buf (write_buf i ++ r) i]> cs) = filled ((c, r) :: msgs) cs.
Proof.
  intros Hi. apply map_eq. intros n. rewrite !lookup_filled, responses_for_cons.
  destruct (decide (c = n)) as [<-|Hne].
  - rewrite lookup_insert, decide_True, Hi by done. simpl. f_equal.
    unfold set_write_buf. simpl. by rewrite app_assoc.
  - by rewrite lookup_insert_ne.
Qed.

Lemma filled_cons_none c r msgs cs : cs !! c = None -> filled msgs cs = filled ((c, r) :: msgs) cs.
Proof.
  intros Hi. apply map_eq. intros n. rewrite !lookup_filled, responses_for_cons.
  destruct (decide (c = n)) as [<-|Hne]; [by rewrite Hi|done].
Qed.

Lemma set_connections_id s : set_connections (connections s) s = s.
Proof. by destruct s. Qed.

Lemma dispatch_responses_loop_spec msgs : forall s,
  Forall (fun r => printable r.1) msgs ->
  exists l, dispatch_responses_loop msgs s
      = (l, Ret ((), set_outgoing [] (set_connections (filled msgs (connections s)) s)))
    /\ unseen l /\ queued l = [].
Proof.
  induction msgs as [|[c r] msgs IH]; intros s Hp.
  - exists []. rewrite filled_nil, set_connections_id. done.
  - apply Forall_cons in Hp as [Hc Hp]. destruct (str_int_printable c Hc) as [t Ht].
    cbn [dispatch_responses_loop]. rewrite st_get, Ht, st_lift. unfold log.
    destruct (connections s !! c) as [i|] eqn:Hi.
    + rewrite st_assoc, st_tell, st_modify.
      match goal with |- context [dispatch_responses_loop msgs ?s1] =>
        destruct (IH s1 Hp) as (l&E&Hl&Hq) end.
      cbn [connections set_connections] in E. rewrite filled_cons_some in E by done.
      eexists. rewrite E. split; [reflexivity|]. split; [apply Hl|apply Hq].
    + rewrite st_tell. destruct (IH s Hp) as (l&E&Hl&Hq).
      rewrite (filled_cons_none c r) in E by done.
      eexists. rewrite E. split; [reflexivity|]. split; [apply Hl|apply Hq].
Qed.

(** [dispatch_responses] when the mutex works. *)
Lemma dispatch_responses_spec s :
  Forall (fun r => printable r.1) (outgoing_messages s) ->
  exists l, dispatch_responses strerror strerror_r_gnu strerror_r_xsi variant 0 0 errno_now s
      = (l, Ret (true, set_outgoing []
               (set_connections (filled (outgoing_messages s) (connections s)) s)))
    /\ unseen l /\ queued l = [].
Proof.
  intros Hp. unfold dispatch_responses. rewrite decide_False by auto. rewrite st_get.
  destruct (dispatch_responses_loop_spec (outgoing_messages s) s Hp) as (l&E&Hl&Hq).
  erewrite st_run; [|exact E]. rewrite decide_False by auto.
  eexists. split; [reflexivity|]. split.
  - intros n. destruct (Hl n) as (H1&H2&H3). by rewrite written_app, received_app, acted_app, H1, H2, H3.
  - rewrite queued_app, Hq. done.
Qed.

(** The dispatcher's calls. *)
Lemma perform_spec actions : forall s,
  exists l, perform 0 0 actions s
      = (l, Ret ((), set_outgoing (outgoing_messages s ++ responses actions) s))
    /\ (forall n, written n l = [] /\ received n l = []
          /\ acted n l = List.filter (fun a => bool_decide (concerns n a)) (visible actions))
    /\ queued l = responses actions.
Proof.
  induction actions as [|a actions IH]; intros s.
  - exists []. rewrite app_nil_r. split; [|done]. by destruct s.
  - cbn [perform]. destruct a as [type msg|c msg|g m].
    + unfold log. rewrite st_tell. destruct (IH s) as (l&->&Hl&Hp). eexists. split; [reflexivity|].
      split; [apply Hl|apply Hp].
    + unfold queue_response. rewrite !decide_False by auto. rewrite st_assoc, st_modify, st_assoc, !st_tell.
      match goal with |- context [perform 0 0 actions ?s1] => destruct (IH s1) as (l&->&Hl&Hp) end.
      change (responses (SendResponse c msg :: actions)) with ((c, msg) :: responses actions).
      cbn [outgoing_messages set_outgoing]. rewrite <- app_assoc.
      eexists. split; [reflexivity|]. split; [|rewrite <- Hp; reflexivity].
      intros n. destruct (Hl n) as (H1&H2&H3). split; [exact H1|]. split; [exact H2|].
      change (acted n (Queued c msg :: Nudge (B "R") :: l) = List.filter (fun a => bool_decide (concerns n a))
        (SendResponse c msg :: visible actions)).
      cbn [List.filter concerns]. rewrite <- H3. unfold acted. cbn [omap list_omap].
      case_decide; [by rewrite bool_decide_true|by rewrite bool_decide_false].
    + rewrite st_tell. destruct (IH s) as (l&->&Hl&Hp). eexists. split; [reflexivity|].
      split; [|apply Hp]. intros n. destruct (Hl n) as (H1&H2&H3). split; [exact H1|]. split; [exact H2|].
      change (acted n (ToPool g m :: l) = List.filter (fun a => bool_decide (concerns n a))
        (SendToWorker g m :: visible actions)).
      cbn [List.filter concerns]. rewrite <- H3. unfold acted. cbn [omap list_omap].
      case_decide; [by rewrite bool_decide_true|by rewrite bool_decide_false].
Qed.

(** [io_write_some]'s count is what it took. *)
Lemma io_write_some_result data en k w r :
  (Z.of_nat (length data) < 2 ^ 31)%Z -> io_write_some data en k = (w, Some r) ->
  (ret r <= 0)%Z /\ w = [] \/ (0 < ret r)%Z /\ ret r = Z.of_nat (length w) /\ w `prefix_of` data.
Proof.
  intros Hlen. revert en. induction k as [|[n|e] k IH]; intros en; cbn [io_write_some].
  - case_decide; [|done]. intros [= <- <-]. left. by simpl.
  - case_decide; [intros [= <- <-]; left; by simpl|]. intros [= <- <-]. simpl.
    assert (Hin : in_int 32 (Z.of_nat (Nat.min n (length data)))).
    { split; [unfold int_min; simpl; lia|]. unfold int_max. simpl in *. lia. }
    rewrite (swrap_small 32) by done.
    destruct (decide (Nat.min n (length data) = 0)) as [Hz|Hz].
    + left. rewrite Hz. done.
    + right. split_and!; [lia| |apply prefix_take]. rewrite length_take. lia.
  - case_decide; [intros [= <- <-]; left; by simpl|]. case_decide; [apply IH|].
    intros [= <- <-]. left. by simpl.
Qed.

(** What a round relies on: descriptors and numbers that fit [int], buffers
    within memory, and a kernel that answers. *)
Record connection_ok (k : round) (n : Z) (c : Connection) : Prop := {
  conn_number : printable n;
  conn_read_fd : (0 <= read_fd c < FD_SETSIZE)%Z;
  conn_write_fd : (0 <= write_fd c < FD_SETSIZE)%Z;
  conn_read_buf : (Z.of_nat (length (read_buf c)) + 65536 < 2 ^ 31)%Z;
  conn_reads_answer : is_Some (next_read (conn_reads k n));
  conn_writes_answer : is_Some (io_write_some (write_buf c) 0 (conn_writes k n)).2;
  conn_write_buf : (Z.of_nat (length (write_buf c)) < 2 ^ 31)%Z;
}.

Lemma for_connection_ok what fd n : printable fd -> printable n -> exists t, for_connection what fd n = Ret t.
Proof.
  intros Hf Hn. unfold for_connection. destruct (str_int_printable fd Hf) as [t1 ->].
  destruct (str_int_printable n Hn) as [t2 ->]. eexists. reflexivity.
Qed.

Lemma update_connection_id s n c f :
  connections s !! n = Some c -> f c = c ->
  set_connections (alter f n (connections s)) s = s.
Proof.
  intros Hc Hf. transitivity (set_connections (connections s) s); [|apply set_connections_id].
  f_equal. apply map_eq. intros n'. destruct (decide (n = n')) as [<-|Hne].
  - rewrite lookup_alter, decide_True, Hc by done. simpl. by rewrite Hf.
  - by rewrite lookup_alter_ne.
Qed.

Lemma set_read_buf_id c : set_read_buf (read_buf c) c = c.
Proof. by destruct c. Qed.

(** The state after the first [if]: the text read so far, and the responses
    the dispatcher queued. *)
Definition after_read (n : Z) (rb : bytes) (new : list (Z * bytes)) s : ServerInternal :=
  set_connections (alter (set_read_buf rb) n (connections s))
    (set_outgoing (outgoing_messages s ++ new) s).

Lemma after_read_id n c s : connections s !! n = Some c -> after_read n (read_buf c) [] s = s.
Proof.
  intros Hc. unfold after_read. rewrite app_nil_r.
  transitivity (set_connections (alter (set_read_buf (read_buf c)) n (connections s)) s); [by destruct s|].
  apply (update_connection_id s n c _ Hc), set_read_buf_id.
Qed.

(** The text [b] of a connection and what was read for it since were given to
    the dispatcher, read by read, what is left is [b'], and what the dispatcher
    did was done. *)
Definition fed (n : Z) (l : list event) (b b' : bytes) : Prop :=
  exists la, receive n b (received n l) = (la, Ret b') /\ acted n l = visible la.

Lemma fed_nil n l b : received n l = [] -> acted n l = [] -> fed n l b b.
Proof. intros H1 H2. exists []. by rewrite H1, H2. Qed.

Lemma fed_app n l1 l2 b b1 b2 : fed n l1 b b1 -> fed n l2 b1 b2 -> fed n (l1 ++ l2) b b2.
Proof.
  intros (la1&E1&H1) (la2&E2&H2). exists (la1 ++ la2).
  by rewrite received_app, acted_app, receive_app, E1, eff_bind_pair, E2, visible_app, H1, H2.
Qed.

Lemma filter_concerns n n' la : Forall (concerns n) la ->
  List.filter (fun a => bool_decide (concerns n' a)) la = if decide (n' = n) then la else [].
Proof.
  induction 1 as [|a la Ha _ IH]; cbn [List.filter]; [by case_decide|]. rewrite IH.
  assert (concerns n' a <-> n' = n) by (destruct a; cbn in *; naive_solver).
  case_decide; [by rewrite bool_decide_true by naive_solver|by rewrite bool_decide_false by naive_solver].
Qed.

(** Requests in a buffer: the answers the dispatcher gives at once are queued
    for the same connection. *)
Lemma dispatch_buffer_spec n buf s :
  fits_memory buf ->
  exists l rest new la, dispatch_buffer 0 0 n buf s
      = (l, Ret (rest, set_outgoing (outgoing_messages s ++ new) s))
    /\ dispatch_all (S (length buf)) n buf = (la, Ret rest)
    /\ (forall n', written n' l = [] /\ received n' l = []
          /\ acted n' l = if decide (n' = n) then visible la else [])
    /\ queued l = new /\ rest `suffix_of` buf /\ Forall (fun r => r.1 = n) new.
Proof.
  intros Hb. unfold dispatch_buffer.
  destruct (dispatch_all_returns (S (length buf)) n buf Hb) as (rest&E&Hs); [lia|].
  pose proof (dispatch_all_connection (S (length buf)) n buf Hb) as Hc.
  pose proof (dispatch_all_concerns (S (length buf)) n buf Hb) as Hv.
  destruct (dispatch_all (S (length buf)) n buf) as [actions r]. simpl in E, Hc, Hv. subst r.
  destruct (perform_spec actions s) as (l&->&Hl&Hq). rewrite eff_bind_pair.
  exists l, rest, (responses actions), actions. split_and!; [|done|..|done|done|done].
  - simpl. by rewrite app_nil_r.
  - intros n'. rewrite <- (filter_concerns n n') by done. apply Hl.
Qed.

Lemma serve_read_spec k rfds n c s :
  connection_ok k n c -> connections s !! n = Some c ->
  exists l b rb new, serve_read strerror 0 0 k rfds n c s = (l, Ret (b, after_read n rb new s))
    /\ (forall n', written n' l = [] /\ (n' <> n -> received n' l = [] /\ acted n' l = []))
    /\ fed n l (read_buf c) rb /\ queued l = new /\ Forall (fun r => r.1 = n) new
    /\ (next_read (conn_reads k n) <> Some (SysOk []) -> b = false).
Proof.
  intros [H1 H2 H3 H4 H5 H6 H7] Hc. unfold serve_read.
  assert (Hsame : forall l b, Forall (fun e => exists t m, e = LogEntry t m) l ->
    (next_read (conn_reads k n) <> Some (SysOk []) -> b = false) ->
    exists l' b' rb new, (l, Ret (b, s)) = (l', Ret (b' : bool, after_read n rb new s))
    /\ (forall n', written n' l' = [] /\ (n' <> n -> received n' l' = [] /\ acted n' l' = []))
    /\ fed n l' (read_buf c) rb /\ queued l' = new /\ Forall (fun r => r.1 = n) new
    /\ (next_read (conn_reads k n) <> Some (SysOk []) -> b' = false)).
  { intros l b [Hu Hq]%unseen_log Hb. exists l, b, (read_buf c), []. rewrite after_read_id by done.
    split_and!; try done; [intros n'; destruct (Hu n') as (?&?&?); by split_and!|].
    destruct (Hu n) as (?&?&?). by apply fed_nil. }
  case_decide as Hin; [|by apply (Hsame [])].
  destruct H5 as [a Ha].
  pose proof (io_read_append_max_next (read_buf c) read_size 0 (conn_reads k n)
    ltac:(unfold read_size; lia) ltac:(unfold read_size; rewrite Z2Nat.id; by vm_compute)) as Hr.
  rewrite Ha in Hr. destruct a as [d|e].
  - destruct Hr as (en'&k'&->&_). cbn [ret errno answers]. rewrite decide_False by lia.
    case_decide as H0.
    + destruct (str_int_printable n H1) as [t Ht]. rewrite Ht, st_lift. unfold log. rewrite st_tell.
      apply (Hsame [_] true); [constructor; [eauto|constructor]|].
      intros Hne. destruct Hne. rewrite length_take in H0.
      destruct d; [done|]. unfold read_size in H0. simpl length in H0. lia.
    + assert (Hfit : fits_memory (read_buf c ++ take read_size d)).
      { unfold fits_memory. rewrite length_app, length_take. unfold read_size. lia. }
      rewrite drop_app_length, st_tell.
      destruct (dispatch_buffer_spec n _ s Hfit) as (l&rest&new&la&E&Ela&Hl&Hq&_&Hnew).
      erewrite st_run; [|exact E]. unfold update_connection. rewrite st_modify.
      exists (Received n (take read_size d) :: l), false, rest, new.
      split; [cbn [events result fst snd mret st_ret eff_ret]; by rewrite app_nil_r|].
      split; [|split; [|by split_and!]].
      * intros n'. destruct (Hl n') as (Hw&Hrd&Had). split; [exact Hw|]. intros Hne.
        unfold received, acted in *. cbn [omap list_omap]. rewrite decide_False by done.
        rewrite Hrd, Had, decide_False by done. done.
      * destruct (Hl n) as (_&Hrd&Had). rewrite decide_True in Had by done. exists la.
        change (acted n (Received n (take read_size d) :: l)) with (acted n l).
        unfold received. cbn [omap list_omap]. rewrite decide_True by done. fold (received n l).
        rewrite Hrd, Had. split; [|done]. cbn [receive]. rewrite Ela, eff_bind_pair. cbn. by rewrite app_nil_r.
  - destruct Hr as (k'&_&->). cbn [ret errno answers]. rewrite decide_True by lia.
    destruct (for_connection_ok (B "Failed to read from fd ") (read_fd c) n (fd_printable _ H2) H1) as [t Ht].
    rewrite Ht, st_lift. unfold syserr, log. rewrite st_tell.
    apply (Hsame [_] false); [|done]. constructor; [eauto|constructor].
Qed.

(** The kernel takes some of what is to be written to the connection. *)
Definition taken (k : round) (n : Z) (c : Connection) : Prop :=
  exists w r, io_write_some (write_buf c) 0 (conn_writes k n) = (w, Some r) /\ (0 < ret r)%Z.

(** The state after the second [if], from the connection as it was before. *)
Definition after_write (n : Z) (wb : bytes) s : ServerInternal :=
  set_connections (alter (set_write_buf wb) n (connections s)) s.

Lemma written_other n n' d : n' <> n -> written n' [Written n d] = [].
Proof. intros. unfold written. simpl. by rewrite decide_False. Qed.

Lemma written_own n d : written n [Written n d] = d.
Proof. unfold written. simpl. rewrite decide_True by done. apply app_nil_r. Qed.

Lemma serve_write_spec k wfds n c s :
  connection_ok k n c -> (exists c', connections s !! n = Some c' /\ write_buf c' = write_buf c) ->
  exists l b wb, serve_write strerror k wfds n c s = (l, Ret (b, after_write n wb s))
    /\ written n l ++ wb = write_buf c /\ (forall n', n' <> n -> written n' l = []) /\ queued l = []
    /\ (forall n', received n' l = [] /\ acted n' l = [])
    /\ ((write_fd c ∈ wfds -> taken k n c) -> b = false).
Proof.
  intros [H1 H2 H3 H4 H5 H6 H7] (c'&Hc&Hwb). unfold serve_write.
  assert (Hid : after_write n (write_buf c) s = s).
  { unfold after_write. apply (update_connection_id s n c' _ Hc). rewrite <- Hwb. apply set_write_buf_id. }
  case_decide as Hin.
  2: { exists [], false, (write_buf c). by rewrite Hid. }
  destruct (io_write_some (write_buf c) 0 (conn_writes k n)) as [data [r|]] eqn:E; [|by destruct H6].
  destruct (io_write_some_result _ _ _ _ _ H7 E) as [[Hr ->]|(Hr&Hlen&Hpre)].
  - rewrite decide_True by done.
    destruct (for_connection_ok (B "Failed to write to fd ") (write_fd c) n (fd_printable _ H3) H1) as [t Ht].
    rewrite Ht, st_lift. unfold syserr, log. rewrite st_tell.
    exists [LogEntry "S" (t ++ B ": " ++ strerror (errno r))], true, (write_buf c).
    rewrite Hid. split_and!; try done. intros Ht'. destruct (Ht' Hin) as (w&r'&E'&?).
    rewrite E in E'. injection E' as _ <-. lia.
  - rewrite decide_False by lia. rewrite st_tell. unfold assert_that.
    apply prefix_length in Hpre as Hle. rewrite (decide_True (P := (ret r <= _)%Z)) by lia. rewrite st_lift.
    unfold update_connection. rewrite st_modify.
    exists [Written n data], false, (erase_front (write_buf c) (Z.to_nat (ret r))).
    split; [reflexivity|]. split.
    + rewrite written_own. unfold erase_front. rewrite Hlen, Nat2Z.id.
      destruct Hpre as [rest ->]. by rewrite drop_app_length.
    + split_and!; try done. intros n' Hne. by apply written_other.
Qed.

(** What a pass over the connections [ns] may do to a connection. *)
Definition moved (l : list event) (n : Z) (c c' : Connection) : Prop :=
  read_fd c' = read_fd c /\ write_fd c' = write_fd c /\ written n l ++ write_buf c' = write_buf c
  /\ fed n l (read_buf c) (read_buf c').

Lemma serve_connections_spec k rfds wfds ns : forall s,
  NoDup ns -> (forall n, n ∈ ns -> exists c, connections s !! n = Some c /\ connection_ok k n c) ->
  exists l closed cs new, serve_connections strerror 0 0 k rfds wfds ns s
      = (l, Ret (closed, set_connections cs (set_outgoing (outgoing_messages s ++ new) s)))
    /\ closed ⊆ ns
    /\ (forall n, n ∉ ns -> cs !! n = connections s !! n
          /\ written n l = [] /\ received n l = [] /\ acted n l = [])
    /\ (forall n c, n ∈ ns -> connections s !! n = Some c ->
          exists c', cs !! n = Some c' /\ moved l n c c')
    /\ Forall (fun r => r.1 ∈ ns) new /\ queued l = new
    /\ (forall n c, connections s !! n = Some c -> next_read (conn_reads k n) <> Some (SysOk []) ->
          (write_fd c ∈ wfds -> taken k n c) -> n ∉ closed).
Proof.
  induction ns as [|n ns IH]; intros s Hnd Hok.
  - exists [], [], (connections s), []. rewrite app_nil_r. split_and!; try done.
    + cbn. by destruct s.
    + by intros n c ?%not_elem_of_nil.
    + intros n c _ _ _. apply not_elem_of_nil.
  - apply NoDup_cons in Hnd as [Hn Hnd].
    destruct (Hok n) as (c&Hc&Hcok); [set_solver|]. cbn [serve_connections].
    rewrite st_get, Hc.
    destruct (serve_read_spec k rfds n c s Hcok Hc) as (l1&b1&rb&new1&E1&Hl1&Hf1&Hq1&Hn1&Hb1).
    assert (Hc1 : connections (after_read n rb new1 s) !! n = Some (set_read_buf rb c)).
    { simpl. by rewrite lookup_alter, decide_True, Hc. }
    destruct (serve_write_spec k wfds n c (after_read n rb new1 s) Hcok) as (l2&b2&wb&E2&Hw&Hl2&Hq2&Hra2&Hb2).
    { eexists. split; [exact Hc1|done]. }
    set (s2 := after_write n wb (after_read n rb new1 s)) in *.
    assert (Hs2 : forall n', n' <> n -> connections s2 !! n' = connections s !! n').
    { intros n' Hne. unfold s2, after_write, after_read. simpl. by rewrite !lookup_alter_ne. }
    assert (Hs2n : connections s2 !! n = Some (set_write_buf wb (set_read_buf rb c))).
    { unfold s2, after_write. cbn [connections set_connections]. rewrite lookup_alter, decide_True by done.
      by rewrite Hc1. }
    destruct (IH s2 Hnd) as (l3&closed&cs&new3&E3&Hcl&Hout&Hin&Hnew3&Hq3&Hkeep).
    { intros n' Hn'. destruct (Hok n') as (c0&?&?); [set_solver|]. exists c0.
      rewrite Hs2; [done|]. intros ->. done. }
    exists (l1 ++ l2 ++ l3), (if b1 || b2 then n :: closed else closed), cs, (new1 ++ new3).
    split_and!.
    + erewrite st_run; [|exact E1]. erewrite st_run; [|exact E2]. erewrite st_run; [|exact E3].
      unfold s2, after_write, after_read. cbn. by rewrite app_nil_r, <- app_assoc.
    + destruct (b1 || b2); set_solver.
    + intros n' [Hne Hn']%not_elem_of_cons. destruct (Hout n' Hn') as (->&Hw3&Hr3&Ha3).
      destruct (Hl1 n') as [Hw1 Hra1]. destruct (Hra1 Hne) as [Hr1 Ha1]. destruct (Hra2 n') as [Hr2 Ha2].
      by rewrite !written_app, !received_app, !acted_app, Hw1, Hr1, Ha1, Hl2, Hr2, Ha2, Hw3, Hr3, Ha3, Hs2.
    + intros n' c' Hn' Hc'. destruct (decide (n' = n)) as [->|Hne].
      * assert (c' = c) as -> by congruence. destruct (Hout n Hn) as (Hcs&Hw3&Hr3&Ha3).
        exists (set_write_buf wb (set_read_buf rb c)). rewrite Hcs. split; [done|].
        destruct (Hl1 n) as [Hw1 _]. destruct (Hra2 n) as [Hr2 Ha2].
        unfold moved. rewrite !written_app, Hw1, Hw3, app_nil_r. split_and!; [done..|].
        apply (fed_app _ _ _ _ rb _ Hf1), fed_nil; by rewrite ?received_app, ?acted_app, ?Hr2, ?Ha2, ?Hr3, ?Ha3.
      * apply elem_of_cons in Hn' as [?|Hn']; [done|].
        destruct (Hin n' c' Hn') as (c''&?&Hm); [by rewrite Hs2|]. exists c''. split; [done|].
        destruct (Hl1 n') as [Hw1 Hra1]. destruct (Hra1 Hne) as [Hr1 Ha1]. destruct (Hra2 n') as [Hr2 Ha2].
        destruct Hm as (Hm1&Hm2&Hm3&Hm4). unfold moved. rewrite !written_app, Hw1, Hl2 by done.
        split_and!; [done..|]. apply (fed_app _ _ _ _ (read_buf c')); [by apply fed_nil|].
        apply (fed_app _ _ _ _ (read_buf c')); [by apply fed_nil|done].
    + apply Forall_app. split; [eapply Forall_impl; [exact Hn1|]; simpl; set_solver|].
      eapply Forall_impl; [exact Hnew3|]. simpl. set_solver.
    + by rewrite !queued_app, Hq1, Hq2, Hq3.
    + intros n' c' Hc' Hr' Ht'. destruct (decide (n' = n)) as [->|Hne].
      * assert (c' = c) as -> by congruence. rewrite Hb1, Hb2 by done.
        intros ?%Hcl. done.
      * specialize (Hkeep n' c' ltac:(by rewrite Hs2) Hr' Ht'). destruct (b1 || b2); set_solver.
Qed.
End specs.

(** The sets a round starts with: every descriptor a connection reads from,
    those it writes to where there is something to write, and no descriptor
    above [maxfd]. *)
Lemma mark_spec fd maxfd fds :
  (0 <= fd < FD_SETSIZE)%Z -> mark fd maxfd fds = Ret (Z.max fd maxfd, {[fd]} ∪ fds).
Proof.
  intros Hfd. unfold mark, FD_SET. rewrite (decide_True (P := (0 <= fd < FD_SETSIZE)%Z)) by done. cbn [mbind outcome_bind].
  destruct (decide (fd > maxfd)%Z); do 2 f_equal; lia.
Qed.

Definition fds_ok (c : Connection) : Prop :=
  (0 <= read_fd c < FD_SETSIZE)%Z /\ (0 <= write_fd c < FD_SETSIZE)%Z.

Definition wants_read (cs : list Connection) (fd : Z) : Prop := exists c, c ∈ cs /\ fd = read_fd c.
Definition wants_write (cs : list Connection) (fd : Z) : Prop :=
  exists c, c ∈ cs /\ write_buf c <> [] /\ fd = write_fd c.

Lemma wants_read_cons c cs fd : wants_read (c :: cs) fd <-> fd = read_fd c \/ wants_read cs fd.
Proof. unfold wants_read. set_solver. Qed.

Lemma wants_write_cons c cs fd :
  wants_write (c :: cs) fd <-> (write_buf c <> [] /\ fd = write_fd c) \/ wants_write cs fd.
Proof. unfold wants_write. set_solver. Qed.

Lemma mark_connections_spec cs : forall maxfd rfds wfds,
  Forall fds_ok cs -> (forall fd, fd ∈ rfds ∪ wfds -> fd <= maxfd)%Z -> (0 <= maxfd < FD_SETSIZE)%Z ->
  exists m r w, mark_connections cs maxfd rfds wfds = Ret (m, (r, w))
    /\ (forall fd, fd ∈ r <-> fd ∈ rfds \/ wants_read cs fd)
    /\ (forall fd, fd ∈ w <-> fd ∈ wfds \/ wants_write cs fd)
    /\ (forall fd, fd ∈ r ∪ w -> fd <= m)%Z /\ (0 <= m < FD_SETSIZE)%Z.
Proof.
  induction cs as [|c cs IH]; intros maxfd rfds wfds Hok Hmax Hm.
  - exists maxfd, rfds, wfds. unfold wants_read, wants_write.
    refine (conj eq_refl (conj _ (conj _ (conj _ _)))); try done; set_solver.
  - apply Forall_cons in Hok as [[Hr Hw] Hok]. cbn [mark_connections].
    rewrite mark_spec by done. cbn [mbind outcome_bind]. case_decide as Hb.
    + rewrite mark_spec by done. cbn [mbind outcome_bind].
      destruct (IH (Z.max (write_fd c) (Z.max (read_fd c) maxfd)) ({[read_fd c]} ∪ rfds)
        ({[write_fd c]} ∪ wfds) Hok) as (m&r&w&->&Hr'&Hw'&?&?); [|lia|].
      * intros fd Hfd. assert (fd = read_fd c \/ fd = write_fd c \/ fd ∈ rfds ∪ wfds) as [->|[->|?%Hmax]]
          by set_solver; lia.
      * exists m, r, w. refine (conj eq_refl (conj _ (conj _ (conj _ _)))); try done; intros fd.
        -- rewrite Hr', wants_read_cons. set_solver.
        -- rewrite Hw', wants_write_cons. set_solver.
    + destruct (IH (Z.max (read_fd c) maxfd) ({[read_fd c]} ∪ rfds) wfds Hok) as (m&r&w&->&Hr'&Hw'&?&?); [|lia|].
      * intros fd Hfd. assert (fd = read_fd c \/ fd ∈ rfds ∪ wfds) as [->|?%Hmax] by set_solver; lia.
      * exists m, r, w. refine (conj eq_refl (conj _ (conj _ (conj _ _)))); try done; intros fd.
        -- rewrite Hr', wants_read_cons. set_solver.
        -- rewrite Hw', wants_write_cons. set_solver.
Qed.

Lemma elem_of_in_order n X : n ∈ in_order X <-> n ∈ X.
Proof. unfold in_order. by rewrite merge_sort_Permutation, elem_of_elements. Qed.

Lemma in_order_NoDup X : NoDup (in_order X).
Proof. unfold in_order. rewrite merge_sort_Permutation. apply NoDup_elements. Qed.

Lemma elem_of_connections (s : ServerInternal) c :
  c ∈ omap (connections s !!.) (in_order (dom (connections s))) <-> exists n, connections s !! n = Some c.
Proof.
  rewrite list_elem_of_omap. setoid_rewrite elem_of_in_order. split; [naive_solver|].
  intros [n Hn]. exists n. split; [by eapply elem_of_dom_2|done].
Qed.

Lemma fd_sets_spec (s : ServerInternal) :
  (0 <= nudge_read_end s < FD_SETSIZE)%Z -> (forall n c, connections s !! n = Some c -> fds_ok c) ->
  exists m r w, fd_sets s = Ret (m, (r, w))
    /\ (forall fd, fd ∈ r <-> fd = nudge_read_end s \/ exists n c, connections s !! n = Some c /\ fd = read_fd c)
    /\ (forall fd, fd ∈ w <-> exists n c, connections s !! n = Some c /\ write_buf c <> [] /\ fd = write_fd c)
    /\ (forall fd, fd ∈ r ∪ w -> fd <= m)%Z /\ (0 <= m < FD_SETSIZE)%Z.
Proof.
  intros Hn Hc. unfold fd_sets. rewrite mark_spec by done. cbn [mbind outcome_bind].
  destruct (mark_connections_spec (omap (connections s !!.) (in_order (dom (connections s))))
    (Z.max (nudge_read_end s) 0) ({[nudge_read_end s]} ∪ ∅) ∅) as (m&r&w&->&Hr&Hw&?&?).
  - apply Forall_forall. intros c [n ?]%elem_of_connections. by apply (Hc n).
  - set_unfold. intros fd. naive_solver lia.
  - lia.
  - exists m, r, w. refine (conj eq_refl (conj _ (conj _ (conj _ _)))); try done; intros fd.
    + rewrite Hr. unfold wants_read. setoid_rewrite elem_of_connections. set_solver.
    + rewrite Hw. unfold wants_write. setoid_rewrite elem_of_connections. set_solver.
Qed.
