(* ===== verification/ServerProps.v ===== *)
(** * Theorems on the serving thread

    The bytes a client reads are the responses queued for its connection, in
    order, whatever the rounds of the main loop deliver; how the main loop
    ends; starting without a connection. *)

From S2P Require Import Prelude CxxString Str Utils Io ServerH Settings Server.
From S2P Require Dispatch.

Section props.
Context {worker : Type} `{DL : DispatcherLaws worker}.
Variable settings : ServerSettings.
Variables (strerror strerror_r_gnu : Z -> bytes) (strerror_r_xsi : Z -> Z * bytes)
  (variant : strerror_variant) (errno_now : Z).
Implicit Types s : ServerInternal.

(** A round of the main loop in which no call on the mutex fails. *)
Definition round_of (k : round) : st ServerInternal event loop_verdict :=
  mainloop_round strerror strerror_r_gnu strerror_r_xsi variant 0 0 errno_now k.
Abbreviation sys_error := (set_sys_error strerror strerror_r_gnu strerror_r_xsi variant).

(** The text of every errno can be made. *)
Definition errors_have_text : Prop :=
  forall e, exists t, get_sys_error strerror strerror_r_gnu strerror_r_xsi variant e = Ret t.

(** What a round relies on. *)
Record round_ok (k : round) s : Prop := {
  round_connections n c : connections s !! n = Some c ->
    connection_ok k n c
    /\ connection_ok k n (set_write_buf (write_buf c ++ responses_for n (outgoing_messages s)) c);
  round_queue : Forall (fun r => printable r.1) (outgoing_messages s);
  round_nudge : is_Some (next_read (nudge_reads k));
  round_nudge_fd : (0 <= nudge_read_end s < FD_SETSIZE)%Z;
  round_select m r w :
    match select_result k m r w with SysOk (_, (r', w')) => r' ⊆ r /\ w' ⊆ w | SysErr _ => True end;
  round_errors : errors_have_text;
}.

(** [set_sys_error] keeps the first error. *)
Lemma set_sys_error_spec message e s :
  errors_have_text ->
  exists t, get_sys_error strerror strerror_r_gnu strerror_r_xsi variant e = Ret t /\
    sys_error message e s = ([LogEntry "E" (message ++ B ": " ++ t)],
      Ret ((), if decide (error_message s <> []) then s
               else set_error_message (message ++ B ": " ++ t) s)).
Proof.
  intros He. destruct (He e) as [t Ht]. exists t. split; [done|].
  unfold set_sys_error, log. rewrite Ht, st_lift, st_tell, st_get. by case_decide.
Qed.

(** The parts of the state that matter to the clients. *)
Definition same_service s s' : Prop :=
  connections s' = connections s /\ outgoing_messages s' = outgoing_messages s
  /\ nudge_read_end s' = nudge_read_end s.

Lemma sys_error_same message e s :
  errors_have_text -> exists l s', sys_error message e s = (l, Ret ((), s'))
    /\ same_service s s' /\ unseen l /\ queued l = []
    /\ error_message s' <> [].
Proof.
  intros He. destruct (set_sys_error_spec message e s He) as (t&_&E).
  do 2 eexists. split; [exact E|]. split_and!; try done.
  - by case_decide.
  - case_decide as Hd; [done|]. simpl. destruct message; [|done]. done.
Qed.

(** The nudge socket: the queue is emptied into the buffers, or not. *)
Lemma check_nudge_spec k rfds s :
  round_ok k s ->
  exists l b s', check_nudge strerror strerror_r_gnu strerror_r_xsi variant 0 0 errno_now k rfds s
      = (l, Ret (b, s'))
    /\ unseen l /\ queued l = []
    /\ (same_service s s'
        \/ s' = set_outgoing [] (set_connections (filled (outgoing_messages s) (connections s)) s)).
Proof.
  intros [Hc Hq [a Ha] _ _ He]. unfold check_nudge. rewrite st_get. case_decide as Hin.
  2: { exists [], true, s. by split_and!; [..|left]. }
  pose proof (io_read_append_bool_cases [] 0 (nudge_reads k)) as Hr. rewrite Ha in Hr.
  destruct Hr as (text&en&k'&b&->). cbn [ret errno].
  destruct b; cbn [negb].
  - destruct (find text "S"%char 0).
    + unfold log. rewrite st_tell. do 3 eexists. split; [reflexivity|]. by split_and!; [..|left].
    + destruct (dispatch_responses_spec strerror strerror_r_gnu strerror_r_xsi variant errno_now s Hq)
        as (l&E&Hl&Hq'). do 3 eexists. split; [exact E|]. by split_and!; [..|right].
  - destruct (sys_error_same (B "Couldn't read from internal socket") en s He) as (l&s'&E&Hs&Hw&Hq'&_).
    erewrite st_run; [|exact E]. do 3 eexists. split; [reflexivity|].
    rewrite app_nil_r. split_and!; try done. by left.
Qed.

(** The connections that are left after the closed ones are erased. *)
Lemma erased_lookup (closed : list Z) (cs : gmap Z Connection) n :
  foldr delete cs closed !! n = if decide (n ∈ closed) then None else cs !! n.
Proof.
  induction closed as [|m closed IH]; cbn [foldr].
  - destruct (decide (n ∈ [])) as [H0|]; [by apply not_elem_of_nil in H0|done].
  - destruct (decide (m = n)) as [->|Hne].
    + rewrite lookup_delete, decide_True by done. by rewrite decide_True by by left.
    + rewrite lookup_delete_ne, IH by done. destruct (decide (n ∈ closed)).
      * by rewrite decide_True by by right.
      * rewrite decide_False; [done|]. by intros [?|?]%elem_of_cons.
Qed.

(** The client of connection [n] reads, and does not end its stream. *)
Record stays (k : round) s (n : Z) (c : Connection) : Prop := {
  stays_reading : next_read (conn_reads k n) <> Some (SysOk []);
  stays_writing : write_buf c <> [] ->
    taken k n c /\ taken k n (set_write_buf (write_buf c ++ responses_for n (outgoing_messages s)) c);
  stays_alone n' c' : connections s !! n' = Some c' -> write_fd c' = write_fd c -> n' = n;
}.

(** What one round does to the connections and to the queue. *)
Record round_effect (k : round) (l : list event) (delivered : list (Z * bytes)) s s' : Prop := {
  effect_connections n c : connections s !! n = Some c ->
    match connections s' !! n with
    | Some c' => written n l ++ write_buf c' = write_buf c ++ responses_for n delivered
                 /\ fed n l (read_buf c) (read_buf c')
    | None => True
    end;
  effect_stays n c : connections s !! n = Some c -> stays k s n c -> is_Some (connections s' !! n);
  effect_none n : connections s !! n = None -> connections s' !! n = None
    /\ written n l = [] /\ received n l = [] /\ acted n l = [];
  effect_queue : delivered = [] /\ outgoing_messages s' = outgoing_messages s ++ queued l
              \/ delivered = outgoing_messages s /\ outgoing_messages s' = queued l;
}.

Lemma responses_for_nil n : responses_for n [] = [].
Proof. done. Qed.

Lemma same_service_effect k l s s' :
  same_service s s' -> unseen l -> queued l = [] -> round_effect k l [] s s'.
Proof.
  intros (Hc&Ho&_) Hu Hq. split.
  - intros n c Hn. destruct (Hu n) as (Hw&Hr&Ha). rewrite Hc, Hn, Hw, responses_for_nil, app_nil_r.
    split; [done|by apply fed_nil].
  - intros n c Hn _. by rewrite Hc, Hn.
  - intros n Hn. rewrite Hc. split; [done|apply Hu].
  - left. by rewrite Ho, Hq, app_nil_r.
Qed.

Lemma mainloop_round_effect k s :
  round_ok k s ->
  exists l v s' delivered, round_of k s = (l, Ret (v, s')) /\ round_effect k l delivered s s'.
Proof.
  intros Hk. unfold round_of, mainloop_round. rewrite st_get.
  destruct (fd_sets_spec s (round_nudge_fd _ _ Hk)) as (m&r&w&->&_&Hwant&_&_).
  { intros n c Hc. destruct (round_connections _ _ Hk n c Hc) as [[] _]. done. }
  rewrite st_lift. pose proof (round_select _ _ Hk (swrap 32 (m + 1)) r w) as Hsel.
  destruct (select_result k _ r w) as [[count [rfds wfds]]|e].
  2: { case_decide.
       - exists [], Continue, s, []. split; [done|]. by apply same_service_effect.
       - destruct (sys_error_same (B "Select failed") e s (round_errors _ _ Hk)) as (l&s'&E&Hs&Hw&Hq&_).
         erewrite st_run; [|exact E]. do 4 eexists. split; [reflexivity|].
         rewrite app_nil_r. by apply same_service_effect. }
  case_decide as H0.
  { exists [], Continue, s, []. split; [done|]. by apply same_service_effect. }
  destruct (check_nudge_spec k rfds s Hk) as (l1&b&s1&E1&Hw1&Hq1&Hs1).
  erewrite st_run; [|exact E1]. destruct b; cbn [negb].
  2: { destruct Hs1 as [Hs1| ->]; do 3 eexists.
       - exists []. split; [reflexivity|]. rewrite app_nil_r. by apply same_service_effect.
       - exists (outgoing_messages s). split; [reflexivity|]. rewrite app_nil_r. split; simpl.
         + intros n c Hn. destruct (Hw1 n) as (Hw&Hr&Ha). rewrite lookup_filled, Hn. simpl. rewrite Hw.
           split; [done|by apply fed_nil].
         + intros n c Hn _. rewrite lookup_filled, Hn. by eexists.
         + intros n Hn. rewrite lookup_filled, Hn. split; [done|apply Hw1].
         + right. by rewrite Hq1. }
  rewrite st_get.
  assert (Hpre : exists delivered, (forall n, connections s1 !! n
      = (fun c => set_write_buf (write_buf c ++ responses_for n delivered) c) <$> connections s !! n)
    /\ (delivered = [] /\ outgoing_messages s1 = outgoing_messages s
        \/ delivered = outgoing_messages s /\ outgoing_messages s1 = [])).
  { destruct Hs1 as [(Hc&Ho&_)| ->].
    - exists []. split; [|by left]. intros n. rewrite Hc. destruct (connections s !! n) as [c|]; [|done].
      simpl. by rewrite app_nil_r, set_write_buf_id.
    - exists (outgoing_messages s). split; [|by right]. intros n. simpl. apply lookup_filled. }
  destruct Hpre as (delivered&Hcs1&Ho1).
  destruct (serve_connections_spec strerror strerror_r_gnu strerror_r_xsi errno_now k rfds wfds (in_order (dom (connections s1))) s1)
    as (l2&closed&cs&new&E2&Hcl&Hout&Hin&Hnew&Hq2&Hkeep).
  { apply in_order_NoDup. }
  { intros n Hn%elem_of_in_order. apply elem_of_dom in Hn as [c1 Hc1]. exists c1. split; [done|].
    rewrite Hcs1 in Hc1. destruct (connections s !! n) as [c|] eqn:Hc; [|done]. simpl in Hc1.
    injection Hc1 as <-. destruct (round_connections _ _ Hk n c Hc) as [Hok1 Hok2].
    destruct Ho1 as [[-> _]|[-> _]]; [|done]. by rewrite responses_for_nil, app_nil_r, set_write_buf_id. }
  erewrite st_run; [|exact E2]. rewrite st_modify. do 3 eexists. exists delivered.
  split; [reflexivity|]. cbn [events fst mret st_ret eff_ret]. rewrite app_nil_r.
  split; cbn [connections set_connections outgoing_messages set_outgoing].
  - intros n c Hc. rewrite erased_lookup. case_decide; [done|].
    assert (Hc1 : connections s1 !! n = Some (set_write_buf (write_buf c ++ responses_for n delivered) c))
      by (by rewrite Hcs1, Hc).
    destruct (Hin n _ ltac:(apply elem_of_in_order; by eapply elem_of_dom_2) Hc1) as (c'&Hc'&_&_&Hm&Hf).
    destruct (Hw1 n) as (Hw&Hr&Ha). rewrite Hc', written_app, Hw. split; [exact Hm|].
    apply (fed_app _ _ _ _ (read_buf c)); [by apply fed_nil|exact Hf].
  - intros n c Hc [Hr Ht Halone]. set (c1 := set_write_buf (write_buf c ++ responses_for n delivered) c).
    assert (Hc1 : connections s1 !! n = Some c1) by (by rewrite Hcs1, Hc).
    rewrite erased_lookup, decide_False.
    + destruct (Hin n _ ltac:(apply elem_of_in_order; by eapply elem_of_dom_2) Hc1) as (c'&->&_). by eexists.
    + apply (Hkeep n c1 Hc1 Hr). intros (n'&c'&Hc'&Hne&Hfd)%(proj2 Hsel)%Hwant.
      assert (n' = n) as -> by (by eapply Halone). assert (c' = c) as -> by congruence.
      destruct (Ht Hne) as [Ht1 Ht2]. unfold c1. destruct Ho1 as [[-> _]|[-> _]]; [|done].
      by rewrite responses_for_nil, app_nil_r, set_write_buf_id.
  - intros n Hn. destruct (Hw1 n) as (Hw&Hr&Ha).
    rewrite erased_lookup, written_app, received_app, acted_app, Hw, Hr, Ha.
    destruct (Hout n) as (Hcs&->&->&->).
    { rewrite elem_of_in_order. apply not_elem_of_dom. by rewrite Hcs1, Hn. }
    rewrite Hcs, Hcs1, Hn. by case_decide.
  - rewrite queued_app, Hq1, Hq2. destruct Ho1 as [[-> ->]|[-> ->]]; [by left|by right].
Qed.

(** ** Serving: rounds of the main loop, and workers queueing responses in
    between *)

Inductive serves : ServerInternal -> list event -> list (Z * bytes) -> ServerInternal -> Prop :=
| serves_nil s : serves s [] [] s
| serves_round s l q s1 k l' v s2 :
    serves s l q s1 -> round_ok k s1 -> round_of k s1 = (l', Ret (v, s2)) ->
    serves s (l ++ l') (q ++ queued l') s2
| serves_worker s l q s1 c text l' s2 :
    serves s l q s1 -> queue_response 0 0 c text s1 = (l', Ret ((), s2)) ->
    serves s (l ++ l') (q ++ queued l') s2.

Lemma responses_for_app n q1 q2 : responses_for n (q1 ++ q2) = responses_for n q1 ++ responses_for n q2.
Proof. unfold responses_for. by rewrite omap_app, concat_app. Qed.

Lemma queue_response_spec c text s :
  queue_response 0 0 c text s
  = ([Queued c text; Nudge (B "R")], Ret ((), set_outgoing (outgoing_messages s ++ [(c, text)]) s)).
Proof. done. Qed.

Lemma serves_output s l q s' :
  serves s l q s' -> forall n c, connections s !! n = Some c ->
  forall c', connections s' !! n = Some c' ->
  written n l ++ write_buf c' ++ responses_for n (outgoing_messages s')
  = write_buf c ++ responses_for n (outgoing_messages s ++ q).
Proof.
  induction 1 as [s|s l q s1 k l' v s2 Hs IH Hk E|s l q s1 c0 text l' s2 Hs IH E]; intros n c Hc c' Hc'.
  - rewrite app_nil_r. assert (c' = c) as -> by congruence. done.
  - destruct (mainloop_round_effect k s1 Hk) as (l0&v0&s0&delivered&E0&[F1 _ F2 F3]).
    rewrite E in E0. injection E0 as <- <- <-.
    destruct (connections s1 !! n) as [c1|] eqn:Hc1.
    2: { destruct (F2 n Hc1). congruence. }
    specialize (IH n c Hc c1 Hc1). specialize (F1 n c1 Hc1). rewrite Hc' in F1. destruct F1 as [F1 _].
    rewrite (app_assoc (outgoing_messages s) q), (responses_for_app n (_ ++ q)).
    rewrite (app_assoc (write_buf c)), <- IH, written_app.
    destruct F3 as [[-> ->]|[-> ->]].
    + rewrite responses_for_nil, app_nil_r in F1. rewrite responses_for_app, <- F1.
      by rewrite <- !app_assoc.
    + rewrite <- !app_assoc, (app_assoc (written n l')), F1. by rewrite <- !app_assoc.
  - rewrite queue_response_spec in E. injection E as <- <-. simpl in Hc'.
    specialize (IH n c Hc c' Hc'). rewrite written_app.
    change (written n [_; _]) with (@nil ascii). change (queued [_; _]) with [(c0, text)].
    cbn [outgoing_messages set_outgoing].
    rewrite (app_assoc (outgoing_messages s) q), !(responses_for_app n _ [_]).
    rewrite (app_assoc (write_buf c)), <- IH, app_nil_r. by rewrite <- !app_assoc.
Qed.

(** C3: what a client reads is what was queued for it: whatever the rounds of
    the main loop and the interleaving with the workers, for a connection
    that stays open the bytes written so far, then its buffer, then what is
    still queued for it, are the responses queued for it, each once and in
    the order they were queued. *)
Theorem output_in_order s l q s' n c c' :
  serves s l q s' -> connections s !! n = Some c -> connections s' !! n = Some c' ->
  written n l ++ write_buf c' ++ responses_for n (outgoing_messages s')
  = write_buf c ++ responses_for n (outgoing_messages s ++ q).
Proof. intros. by eapply serves_output. Qed.

(** C23: a round of the main loop never fails (no exception, no assertion, no
    endless loop, no descriptor outside an [fd_set]), and it either leaves the
    queue of responses as it was, new ones behind, or appends every queued
    response to the buffer of its connection and empties it; a connection
    whose client takes what is written and has not ended its stream stays
    open. *)
Theorem mainloop_round_total k s :
  round_ok k s ->
  exists l v s' delivered, round_of k s = (l, Ret (v, s')) /\ round_effect k l delivered s s'.
Proof. apply mainloop_round_effect. Qed.

(** ** Ends *)

(** A shutdown request on the nudge socket ends the main loop in the round
    that reads it: nothing is read, queued, or written any more. *)
Theorem shutdown_request_stops k s count rfds wfds d rest :
  (0 <= nudge_read_end s < FD_SETSIZE)%Z -> (forall n c, connections s !! n = Some c -> fds_ok c) ->
  (forall m r w, select_result k m r w = SysOk (count, (rfds, wfds))) ->
  count <> 0%Z -> nudge_read_end s ∈ rfds ->
  nudge_reads k = SysOk d :: rest -> "S"%char ∈ d -> length d <= CHUNKSIZE ->
  round_of k s = ([LogEntry "I" (B "Shutting down")], Ret (Return, s)).
Proof.
  intros Hnud Hfds Hsel Hcount Hin Hn HS Hlen. unfold round_of, mainloop_round. rewrite st_get.
  destruct (fd_sets_spec s Hnud Hfds) as (m&r&w&->&_). rewrite st_lift, Hsel, decide_False by done.
  assert (E : check_nudge strerror strerror_r_gnu strerror_r_xsi variant 0 0 errno_now k rfds s
    = ([LogEntry "I" (B "Shutting down")], Ret (false, s))).
  { unfold check_nudge. rewrite st_get, decide_True, Hn by done.
    unfold io_read_append. cbn [io_read_append_max]. rewrite take_ge by done.
    rewrite (decide_False (P := length d = 0)) by (destruct d; [by apply not_elem_of_nil in HS|done]).
    cbn [mbind option_bind ret errno answers app].
    rewrite bool_decide_true; cbn [negb].
    - destruct (find d "S"%char 0) eqn:Hf; [done|]. apply find_None in Hf. by rewrite drop_0 in Hf.
    - rewrite (swrap_small 32); [|done|].
      + destruct d; [by apply not_elem_of_nil in HS|done].
      + unfold CHUNKSIZE in Hlen. unfold in_int, int_min, int_max. simpl. lia. }
  erewrite st_run; [|exact E]. done.
Qed.

(** The end of a client's stream discards what was not written to it yet:
    the connection is erased in that round with its buffer. *)
Theorem eof_discards_responses k s n c rest :
  connections s = {[n := c]} -> printable n -> nudge_read_end s ∉ ({[read_fd c]} : gset Z) ->
  (0 <= nudge_read_end s < FD_SETSIZE)%Z -> fds_ok c ->
  (forall m r w, select_result k m r w = SysOk (1%Z, ({[read_fd c]}, ∅))) -> conn_reads k n = SysOk [] :: rest ->
  exists l s', round_of k s = (l, Ret (Continue, s')) /\ connections s' = ∅ /\ written n l = [].
Proof.
  intros Hc Hn Hnud Hnfd Hfds Hsel Hread. unfold round_of, mainloop_round, check_nudge. rewrite st_get.
  destruct (fd_sets_spec s Hnfd) as (m&r&w&->&_).
  { rewrite Hc. intros n' c' [<- <-]%lookup_singleton_Some. done. }
  rewrite st_lift, Hsel, decide_False by done.
  rewrite st_assoc, st_get, decide_False, st_mret by done. cbn [negb]. rewrite st_get.
  assert (in_order (dom (connections s)) = [n]) as ->.
  { rewrite Hc, dom_singleton_L. unfold in_order. by rewrite elements_singleton. }
  cbn [serve_connections]. rewrite st_assoc, st_get.
  assert (connections s !! n = Some c) as -> by (by rewrite Hc, lookup_singleton, decide_True).
  destruct (str_int_printable n Hn) as [t Ht].
  assert (E : serve_read strerror 0 0 k {[read_fd c]} n c s
    = ([LogEntry "I" (B "Connection " ++ t ++ B " closed")], Ret (true, s))).
  { unfold serve_read. rewrite decide_True by set_solver. rewrite Hread. cbn [io_read_append_max].
    rewrite take_nil. rewrite (decide_True (P := length [] = 0)) by done.
    cbn [ret errno answers]. rewrite decide_False, decide_True by lia. by rewrite Ht, st_lift. }
  rewrite st_assoc. erewrite st_run; [|exact E]. unfold serve_write.
  rewrite decide_False by set_solver. rewrite st_assoc, st_mret, st_assoc, st_mret, st_mret, st_modify.
  do 2 eexists. split; [reflexivity|]. split; [|done]. simpl. rewrite Hc. apply delete_singleton_eq.
Qed.

(** A server without [--stdio] has no connection to wait for: [run]
    returns true at once, having called [select] never, whatever the
    interface and the port of the settings. *)
Theorem run_without_stdio ks fd0 fd1 :
  use_stdio settings = false ->
  exists l s', run settings strerror strerror_r_gnu strerror_r_xsi variant 0 0 errno_now
      (SysOk (fd0, fd1)) ks [SysOk ()] [SysOk ()] new_ServerInternal = (l, Ret (true, s'))
    /\ l = [LogEntry "I" (B "Starting server"); SetUpSignalHandlers; PoolStop; PoolJoin;
            ReleaseSignalHandlers; Closed fd0; Closed fd1; LogEntry "I" (B "Shut down")].
Proof.
  intros Hs. unfold run, start_listening. rewrite Hs. do 2 eexists. split; [|reflexivity].
  destruct ks; reflexivity.
Qed.

(** [set_sys_error] for one failure after the other. *)
Fixpoint sys_errors (errs : list (bytes * Z)) : st ServerInternal event unit :=
  match errs with
  | [] => mret ()
  | (m, e) :: errs' => sys_error m e;; sys_errors errs'
  end.

(** Once there is an error message it stays. *)
Lemma later_errors errs : forall s,
  errors_have_text -> error_message s <> [] -> exists l,
    sys_errors errs s = (l, Ret ((), s))
    /\ Forall2 (fun ev '(m', e') => exists t',
         get_sys_error strerror strerror_r_gnu strerror_r_xsi variant e' = Ret t'
         /\ ev = LogEntry "E" (m' ++ B ": " ++ t')) l errs.
Proof.
  induction errs as [|[m e] errs IH]; intros s He Hs; [by exists []|]. cbn [sys_errors].
  destruct (set_sys_error_spec m e s He) as (t&Ht&E). rewrite decide_True in E by done.
  destruct (IH s He Hs) as (l&El&Hl). erewrite st_run; [|exact E]. rewrite El.
  eexists. split; [reflexivity|]. constructor; [by exists t|exact Hl].
Qed.

(** The error message of a server is that of its first failure, whatever
    fails later; every failure is logged, in order. *)
Theorem first_error_kept m e errs s :
  errors_have_text -> error_message s = [] ->
  exists l s' t, sys_errors ((m, e) :: errs) s = (l, Ret ((), s'))
    /\ get_sys_error strerror strerror_r_gnu strerror_r_xsi variant e = Ret t
    /\ error_message s' = m ++ B ": " ++ t
    /\ Forall2 (fun ev '(m', e') => exists t',
         get_sys_error strerror strerror_r_gnu strerror_r_xsi variant e' = Ret t'
         /\ ev = LogEntry "E" (m' ++ B ": " ++ t')) l ((m, e) :: errs).
Proof.
  intros He Hs. cbn [sys_errors].
  destruct (set_sys_error_spec m e s He) as (t&Ht&E). rewrite decide_False in E by auto.
  erewrite st_run; [|exact E]. set (s1 := set_error_message _ s).
  destruct (later_errors errs s1 He) as (l&El&Hl); [simpl; by destruct m|].
  rewrite El. do 2 eexists. exists t. split; [reflexivity|]. split_and!; [done|done|].
  constructor; [by exists t|exact Hl].
Qed.
End props.

(** ** A run of the server with its own dispatcher *)

Module Demo.


Definition VERSION : bytes := B "0.1".
Definition fmt (d : SpecFloat.spec_float) : bytes := [].

Lemma version_fits : fits_memory VERSION.
Proof. by vm_compute. Qed.

#[export] Instance dispatcher : Dispatcher Dispatch.XappyWorker := Dispatch.XappyDispatcher VERSION fmt.
#[export] Instance laws : DispatcherLaws Dispatch.XappyWorker :=
  Dispatch.XappyDispatcher_laws VERSION fmt version_fits.

Definition strerror (e : Z) : bytes := B "?".
Abbreviation round_of := (round_of strerror strerror (fun e => (e, [])) NoStrerrorR 0).
Abbreviation serves := (serves strerror strerror (fun e => (e, [])) NoStrerrorR 0).
Abbreviation round_ok := (round_ok strerror strerror (fun e => (e, [])) NoStrerrorR).

Lemma errors_ok : errors_have_text strerror strerror (fun e => (e, [])) NoStrerrorR.
Proof. intros e. eexists. reflexivity. Qed.

Definition next (k : round) (s : ServerInternal) : list event * ServerInternal :=
  match round_of k s with (l, Ret (v, s')) => (l, s') | (l, _) => (l, s) end.

Lemma serves_next s l q s1 k :
  serves s l q s1 -> round_ok k s1 ->
  serves s (l ++ (next k s1).1) (q ++ queued (next k s1).1) (next k s1).2.
Proof.
  intros Hs Hk. unfold next.
  destruct (mainloop_round_effect strerror strerror (fun e => (e, [])) NoStrerrorR 0 k s1 Hk)
    as (l1&v&s2&d&E&_).
  rewrite E. by eapply serves_round.
Qed.

(** The connection on stdin and stdout, a request, a nudge, a write. *)
Definition s0 : ServerInternal :=
  MkServerInternal true false 5 6 [] {[0%Z := new_Connection 0 1]} [].
Definition k1 : round := Round (fun _ r _ => SysOk (1%Z, (r ∩ {[0%Z]}, ∅))) [SysOk (B "R")]
  (fun _ => [SysErr EINTR; SysOk (B "12 7 Gversion x3 ab")]) (fun _ => [SysOk 9]).
Definition k2 : round := Round (fun _ r _ => SysOk (1%Z, (r ∩ {[6%Z]}, ∅))) [SysOk (B "R")]
  (fun _ => [SysOk []]) (fun _ => [SysOk 9]).
Definition k3 : round := Round (fun _ _ w => SysOk (1%Z, (∅, w ∩ {[1%Z]}))) [SysOk (B "R")]
  (fun _ => [SysOk []]) (fun _ => [SysOk 3]).
Definition s1 : ServerInternal := (next k1 s0).2.
Definition s2 : ServerInternal := (next k2 s1).2.
Definition s3 : ServerInternal := (next k3 s2).2.

(** One connection is enough: what a round relies on, on that connection. *)
Lemma one_connection_ok k s c :
  connections s = {[0%Z := c]} ->
  connection_ok k 0 c ->
  connection_ok k 0 (set_write_buf (write_buf c ++ responses_for 0 (outgoing_messages s)) c) ->
  Forall (fun r => printable r.1) (outgoing_messages s) -> is_Some (next_read (nudge_reads k)) ->
  (0 <= nudge_read_end s < FD_SETSIZE)%Z ->
  (forall m r w, match select_result k m r w with SysOk (_, (r', w')) => r' ⊆ r /\ w' ⊆ w | SysErr _ => True end) ->
  round_ok k s.
Proof.
  intros Hs H1 H2 Hq Hr Hn Hsel. split; [|done..|exact errors_ok].
  intros n c'. rewrite Hs. intros [<- <-]%lookup_singleton_Some. done.
Qed.

Ltac connection_ok_here :=
  split;
  [ by apply (fd_printable 0) | by vm_compute | by vm_compute
  | vm_compute; reflexivity
  | eexists; reflexivity
  | vm_compute; eexists; reflexivity
  | vm_compute; reflexivity ].

Definition c0 : Connection := new_Connection 0 1.

Lemma queue_ok (q : list (Z * bytes)) :
  Forall (fun r => 0 <= r.1 < FD_SETSIZE)%Z q -> Forall (fun r => printable r.1) q.
Proof. intros H. eapply Forall_impl; [exact H|]. intros r. apply fd_printable. Qed.

Lemma round1_ok : round_ok k1 s0.
Proof.
  apply (one_connection_ok _ _ c0); [done| | |constructor|by eexists|done|simpl; set_solver];
    connection_ok_here.
Qed.

(** The connection of a state of the run. *)
Definition conn (s : ServerInternal) : Connection := default c0 (connections s !! 0%Z).

Lemma round2_ok : round_ok k2 s1.
Proof.
  apply (one_connection_ok _ _ (conn s1));
    [by vm_compute| | |apply queue_ok, (bool_decide_unpack _); vm_compute; exact I|by eexists|by vm_compute|simpl; set_solver];
    connection_ok_here.
Qed.

Lemma round3_ok : round_ok k3 s2.
Proof.
  apply (one_connection_ok _ _ (conn s2));
    [by vm_compute| | |constructor|by eexists|by vm_compute|simpl; set_solver];
    connection_ok_here.
Qed.

(** The run, from the connection of stdin and stdout on. *)
Definition trace : list event := (([] ++ (next k1 s0).1) ++ (next k2 s1).1) ++ (next k3 s2).1.
Definition trace_queued : list (Z * bytes) :=
  (([] ++ queued (next k1 s0).1) ++ queued (next k2 s1).1) ++ queued (next k3 s2).1.

Lemma three_rounds : serves s0 trace trace_queued s3.
Proof. repeat apply serves_next; [constructor|apply round1_ok|apply round2_ok|apply round3_ok]. Qed.

(** The answer to the request is queued in the first round, put in the buffer
    in the second, three bytes of it are written in the third. *)
Lemma output_in_order_witness :
  written 0 trace = B "6 7" /\ write_buf (conn s3) = B " S0.1"
  /\ outgoing_messages s3 = []
  /\ written 0 trace ++ write_buf (conn s3) ++ responses_for 0 (outgoing_messages s3)
     = [] ++ responses_for 0 ([] ++ trace_queued).
Proof.
  split_and!; [by vm_compute..|].
  eapply (output_in_order strerror strerror (fun e => (e, [])) NoStrerrorR 0 s0 _ _ s3 0 c0);
    [apply three_rounds|by vm_compute..].
Defined.

Lemma mainloop_round_total_witness :
  exists l v s' delivered, round_of k2 s1 = (l, Ret (v, s')) /\ round_effect k2 l delivered s1 s'.
Proof. apply mainloop_round_total, round2_ok. Defined.

(** A shutdown request. *)
Definition k_stop : round := Round (fun _ r _ => SysOk (1%Z, ({[6%Z]}, ∅))) [SysOk (B "RS")]
  (fun _ => [SysOk []]) (fun _ => [SysOk 9]).

Lemma s0_fds n c : connections s0 !! n = Some c -> fds_ok c.
Proof. simpl. by intros [<- <-]%lookup_singleton_Some. Qed.

Lemma shutdown_request_stops_witness :
  round_of k_stop s0 = ([LogEntry "I" (B "Shutting down")], Ret (Return, s0)).
Proof.
  apply (shutdown_request_stops strerror strerror (fun e => (e, [])) NoStrerrorR 0
    k_stop s0 1 {[6%Z]} ∅ (B "RS") []);
    [done|exact s0_fds|done|done|by apply elem_of_singleton|done|by right; left
    |by apply Nat.leb_le; vm_compute].
Defined.

(** The end of stdin, with four bytes not written yet. *)
Definition s_eof : ServerInternal :=
  MkServerInternal true false 5 6 [] {[0%Z := MkConnection 0 1 [] (B "left")]} [].
Definition k_eof : round := Round (fun _ r _ => SysOk (1%Z, ({[0%Z]}, ∅))) [SysOk (B "R")]
  (fun _ => [SysOk []]) (fun _ => [SysOk 9]).

Lemma eof_discards_responses_witness :
  write_buf (conn s_eof) = B "left"
  /\ exists l s', round_of k_eof s_eof = (l, Ret (Continue, s')) /\ connections s' = ∅
       /\ written 0 l = [].
Proof.
  split; [done|].
  apply (eof_discards_responses strerror strerror (fun e => (e, [])) NoStrerrorR 0
    k_eof s_eof 0 (MkConnection 0 1 [] (B "left")) []);
    [done|by apply fd_printable|set_solver|done|done|done|done].
Defined.

Definition tcp_settings : ServerSettings := default_settings.

Lemma run_without_stdio_witness :
  exists l s', run tcp_settings strerror strerror (fun e => (e, [])) NoStrerrorR 0 0 0
      (SysOk (5, 6)%Z) [] [SysOk ()] [SysOk ()] new_ServerInternal = (l, Ret (true, s'))
    /\ l = [LogEntry "I" (B "Starting server"); SetUpSignalHandlers; PoolStop; PoolJoin;
            ReleaseSignalHandlers; Closed 5; Closed 6; LogEntry "I" (B "Shut down")].
Proof. by apply run_without_stdio. Defined.

Lemma first_error_kept_witness :
  exists l s' t, sys_errors strerror strerror (fun e => (e, [])) NoStrerrorR
      [(B "Select failed", 9%Z); (B "Couldn't close internal socketpair", 5%Z)] s0 = (l, Ret ((), s'))
    /\ get_sys_error strerror strerror (fun e => (e, [])) NoStrerrorR 9 = Ret t
    /\ error_message s' = B "Select failed" ++ B ": " ++ t
    /\ Forall2 (fun ev '(m', e') => exists t',
         get_sys_error strerror strerror (fun e => (e, [])) NoStrerrorR e' = Ret t'
         /\ ev = LogEntry "E" (m' ++ B ": " ++ t')) l
         [(B "Select failed", 9%Z); (B "Couldn't close internal socketpair", 5%Z)].
Proof. apply first_error_kept; [exact errors_ok|done]. Defined.
End Demo.
