(* ===== verification/ServerStream.v ===== *)
(** * From the bytes a client sends to those it reads

    The server with its dispatcher, over any rounds of the main loop and with
    the workers queueing responses in between: the requests of a client are
    handled once each and in order, however its bytes arrive, and what it reads
    are the responses to them, merged with those of the workers. *)

From S2P Require Import Prelude CxxString Utils Io ServerH Settings Server ServerProps.
From S2P Require Import Dispatch DispatchSpec DispatchStream.

(** [q] is made of [a] and [b], each in its order. *)
Inductive merges {A} : list A -> list A -> list A -> Prop :=
| merges_nil : merges [] [] []
| merges_left a b q x : merges a b q -> merges (a ++ x) b (q ++ x)
| merges_right a b q x : merges a b q -> merges a (b ++ x) (q ++ x).

(** The responses for a connection, one by one. *)
Definition answers (n : Z) (q : list (Z * bytes)) : list bytes :=
  omap (fun r => if decide (r.1 = n) then Some r.2 else None) q.

Lemma responses_for_answers n q : responses_for n q = concat (answers n q).
Proof. done. Qed.

Lemma answers_app n q1 q2 : answers n (q1 ++ q2) = answers n q1 ++ answers n q2.
Proof. apply omap_app. Qed.

(** What was queued for a connection in a round is what the dispatcher did. *)
Lemma answers_queued n l : answers n (queued l) = (responses (acted n l)).*2.
Proof.
  induction l as [|e l IH]; [done|]. destruct e as [t m|c r|d|k d|k d|g m| | | | |fd]; try exact IH.
  - change (queued (Queued c r :: l)) with ((c, r) :: queued l). unfold answers, acted in *.
    cbn [omap list_omap fst snd]. case_decide; [|exact IH]. cbn. by f_equal.
  - unfold acted in *. cbn [omap list_omap]. case_decide; exact IH.
Qed.

Section session.
Context {worker : Type} `{DL : DispatcherLaws worker}.
Variables (strerror strerror_r_gnu : Z -> bytes) (strerror_r_xsi : Z -> Z * bytes)
  (variant : strerror_variant) (errno_now : Z).
Implicit Types s : ServerInternal.
Abbreviation round_of := (round_of strerror strerror_r_gnu strerror_r_xsi variant errno_now).
Abbreviation round_ok := (round_ok strerror strerror_r_gnu strerror_r_xsi variant).

(** Rounds of the main loop with the events [l], and workers that queue [w] in
    between; [q] is everything that was queued, in order. *)
Inductive session : ServerInternal -> list event -> list (Z * bytes) -> list (Z * bytes) ->
    ServerInternal -> Prop :=
| session_nil s : session s [] [] [] s
| session_round s l w q s1 k l' v s2 :
    session s l w q s1 -> round_ok k s1 -> round_of k s1 = (l', Ret (v, s2)) ->
    session s (l ++ l') w (q ++ queued l') s2
| session_worker s l w q s1 c text l' s2 :
    session s l w q s1 -> queue_response 0 0 c text s1 = (l', Ret ((), s2)) ->
    session s l (w ++ [(c, text)]) (q ++ [(c, text)]) s2.

(** The state of a connection that is there at the end, and what happened to it. *)
Lemma session_effect s l w q s' n c' : session s l w q s' -> connections s' !! n = Some c' ->
  exists c, connections s !! n = Some c /\ fed n l (read_buf c) (read_buf c')
    /\ written n l ++ write_buf c' ++ responses_for n (outgoing_messages s')
       = write_buf c ++ responses_for n (outgoing_messages s ++ q)
    /\ merges ((responses (acted n l)).*2) (answers n w) (answers n q).
Proof.
  intros Hs. revert c'. induction Hs as [s|s l w q s1 k l' v s2 Hs IH Hk E|s l w q s1 c0 text l' s2 Hs IH E]; intros c2 Hc2.
  - exists c2. rewrite app_nil_r. split_and!; [done|by apply fed_nil|done|constructor].
  - destruct (mainloop_round_effect strerror strerror_r_gnu strerror_r_xsi variant errno_now k s1 Hk)
      as (l0&v0&s0&delivered&E0&[F1 _ F2 F3]).
    rewrite E in E0. injection E0 as <- <- <-.
    destruct (connections s1 !! n) as [c1|] eqn:Hc1; [|by destruct (F2 n Hc1); congruence].
    destruct (IH c1 eq_refl) as (c&Hc&Hf&Hw&Hm). specialize (F1 n c1 Hc1). rewrite Hc2 in F1.
    destruct F1 as [F1 Hf1]. exists c. split; [done|]. split; [by eapply fed_app|]. split.
    + rewrite (app_assoc (outgoing_messages s) q), (responses_for_app n (_ ++ q)).
      rewrite (app_assoc (write_buf c)), <- Hw, written_app.
      destruct F3 as [[-> ->]|[-> ->]].
      * rewrite responses_for_nil, app_nil_r in F1. rewrite responses_for_app, <- F1.
        by rewrite <- !app_assoc.
      * rewrite <- !app_assoc, (app_assoc (written n l')), F1. by rewrite <- !app_assoc.
    + rewrite acted_app, responses_app, fmap_app, answers_app, answers_queued. by apply merges_left.
  - rewrite queue_response_spec in E. injection E as <- <-. simpl in Hc2.
    destruct (IH c2 Hc2) as (c&Hc&Hf&Hw&Hm). exists c. split_and!; [done..| |].
    + cbn [outgoing_messages set_outgoing].
      rewrite (app_assoc (outgoing_messages s) q), !(responses_for_app n _ [_]).
      rewrite (app_assoc (write_buf c)), <- Hw. by rewrite <- !app_assoc.
    + rewrite !answers_app. by apply merges_right.
Qed.
End session.

(** ** Properties *)


(** ** A run: a request, a worker's message, a nudge, a write *)

Module Demo.
Import ServerProps.Demo.

Abbreviation session := (session strerror strerror (fun e => (e, [])) NoStrerrorR 0).

Lemma session_next s l w q s1 k :
  session s l w q s1 -> round_ok k s1 ->
  session s (l ++ (next k s1).1) w (q ++ queued (next k s1).1) (next k s1).2.
Proof.
  intros Hs Hk. unfold next.
  destruct (mainloop_round_effect strerror strerror (fun e => (e, [])) NoStrerrorR 0 k s1 Hk)
    as (l1&v&s2&d&E&_).
  rewrite E. by eapply session_round.
Qed.

(** A worker queues a message between the first round and the second. *)
Definition t1 : ServerInternal := set_outgoing (outgoing_messages s1 ++ [(0%Z, B "4 late")]) s1.
Definition t2 : ServerInternal := (next k2 t1).2.
Definition t3 : ServerInternal := (next k3 t2).2.
Definition seen : list event := (([] ++ (next k1 s0).1) ++ (next k2 t1).1) ++ (next k3 t2).1.
Definition queued_all : list (Z * bytes) :=
  ((([] ++ queued (next k1 s0).1) ++ [(0%Z, B "4 late")]) ++ queued (next k2 t1).1)
  ++ queued (next k3 t2).1.

Ltac round_here c :=
  apply (one_connection_ok _ _ c);
    [by vm_compute| | |apply queue_ok, (bool_decide_unpack _); vm_compute; exact I|by eexists|by vm_compute|simpl; set_solver];
    connection_ok_here.

Lemma session_here : session s0 seen [(0%Z, B "4 late")] queued_all t3.
Proof.
  apply session_next; [apply session_next|].
  - eapply (session_worker _ _ _ _ _ _ _ [] _ s1 0%Z (B "4 late")); [|reflexivity].
    apply session_next; [constructor|apply round1_ok].
  - round_here (conn t1).
  - round_here (conn t2).
Qed.

(** The frame of the request that came, and the start of the next. *)
Lemma request_here : is_request (B "7 Gversion x") (B "12 7 Gversion x").
Proof. exists (B "12"). split_and!; [done|by repeat constructor|simpl; lia|done|by repeat constructor|done]. Qed.

Lemma partial_here : is_partial (B "3 ab").
Proof.
  exists (B "abc"), (B "3 abc"). split_and!; [|by exists (B "c")|done].
  exists (B "3"). split_and!; [done|by repeat constructor|simpl; lia|done|by repeat constructor|done].
Qed.

End Demo.
