(* ===== verification/Rune.v ===== *)
(** * UTF-8: src/libs/re2/src/util/rune.cc and utf.h

    A [const char *] is the list of the bytes that can be read from it on;
    reading past them is the fault [BadIndex].  A [Rune] is a signed 32-bit
    integer. *)

From S2P Require Import Prelude CxxString.

#[local] Open Scope Z_scope.

(** ** Constants of utf.h and rune.cc *)

Definition UTFmax : nat := 4.
Definition Runesync : Z := 0x80.
Definition Runeself : Z := 0x80.
Definition Runeerror : Z := 0xFFFD.
Definition Runemax : Z := 0x10FFFF.

Definition Bit1 : Z := 7.
Definition Bitx : Z := 6.
Definition Bit2 : Z := 5.
Definition Bit3 : Z := 4.
Definition Bit4 : Z := 3.
Definition Bit5 : Z := 2.

Definition T1 : Z := Z.lxor (Z.shiftl 1 (Bit1 + 1) - 1) 0xFF.
Definition Tx : Z := Z.lxor (Z.shiftl 1 (Bitx + 1) - 1) 0xFF.
Definition T2 : Z := Z.lxor (Z.shiftl 1 (Bit2 + 1) - 1) 0xFF.
Definition T3 : Z := Z.lxor (Z.shiftl 1 (Bit3 + 1) - 1) 0xFF.
Definition T4 : Z := Z.lxor (Z.shiftl 1 (Bit4 + 1) - 1) 0xFF.
Definition T5 : Z := Z.lxor (Z.shiftl 1 (Bit5 + 1) - 1) 0xFF.

Definition Rune1 : Z := Z.shiftl 1 (Bit1 + 0 * Bitx) - 1.
Definition Rune2 : Z := Z.shiftl 1 (Bit2 + 1 * Bitx) - 1.
Definition Rune3 : Z := Z.shiftl 1 (Bit3 + 2 * Bitx) - 1.
Definition Rune4 : Z := Z.shiftl 1 (Bit4 + 3 * Bitx) - 1.

Definition Maskx : Z := Z.shiftl 1 Bitx - 1.
Definition Testx : Z := Z.lxor Maskx 0xFF.
Definition Bad : Z := Runeerror.

(** ** Decoding and encoding *)

(** [*(unsigned char * )(str + i)]. *)
Definition byte_at (str : bytes) (i : nat) : outcome Z :=
  c ← from_option_or BadIndex (str !! i); mret (uchar c).

(** The rune at [str] and how many bytes it takes; [bad:] is [Bad] and one
    byte. *)
Definition chartorune (str : bytes) : outcome (Z * nat) :=
  c ← byte_at str 0;
  if decide (c < Tx) then mret (c, 1%nat) else
  b1 ← byte_at str 1;
  let c1 := Z.lxor b1 Tx in
  if decide (Z.land c1 Testx <> 0) then mret (Bad, 1%nat) else
  if decide (c < T3) then
    if decide (c < T2) then mret (Bad, 1%nat) else
    let l := Z.land (Z.lor (Z.shiftl c Bitx) c1) Rune2 in
    if decide (l <= Rune1) then mret (Bad, 1%nat) else mret (l, 2%nat)
  else
  b2 ← byte_at str 2;
  let c2 := Z.lxor b2 Tx in
  if decide (Z.land c2 Testx <> 0) then mret (Bad, 1%nat) else
  if decide (c < T4) then
    let l := Z.land (Z.lor (Z.shiftl (Z.lor (Z.shiftl c Bitx) c1) Bitx) c2) Rune3 in
    if decide (l <= Rune2) then mret (Bad, 1%nat) else mret (l, 3%nat)
  else
  b3 ← byte_at str 3;
  let c3 := Z.lxor b3 Tx in
  if decide (Z.land c3 Testx <> 0) then mret (Bad, 1%nat) else
  if decide (c < T5) then
    let l := Z.land (Z.lor (Z.shiftl (Z.lor (Z.shiftl (Z.lor (Z.shiftl c Bitx) c1) Bitx) c2) Bitx) c3) Rune4 in
    if decide (l <= Rune3) then mret (Bad, 1%nat) else mret (l, 4%nat)
  else mret (Bad, 1%nat).

(** The bytes written for a rune; the returned count is their number. *)
Definition runetochar (rune : Z) : bytes :=
  let c := uwrap 64 rune in
  if decide (c <= Rune1) then [char_of_Z c] else
  if decide (c <= Rune2) then
    [char_of_Z (Z.lor T2 (Z.shiftr c (1 * Bitx))); char_of_Z (Z.lor Tx (Z.land c Maskx))] else
  let c := if decide (c > Runemax) then Runeerror else c in
  if decide (c <= Rune3) then
    [char_of_Z (Z.lor T3 (Z.shiftr c (2 * Bitx)));
     char_of_Z (Z.lor Tx (Z.land (Z.shiftr c (1 * Bitx)) Maskx));
     char_of_Z (Z.lor Tx (Z.land c Maskx))]
  else
    [char_of_Z (Z.lor T4 (Z.shiftr c (3 * Bitx)));
     char_of_Z (Z.lor Tx (Z.land (Z.shiftr c (2 * Bitx)) Maskx));
     char_of_Z (Z.lor Tx (Z.land (Z.shiftr c (1 * Bitx)) Maskx));
     char_of_Z (Z.lor Tx (Z.land c Maskx))].

Definition runelen (rune : Z) : nat := length (runetochar rune).

Definition fullrune (str : bytes) (n : Z) : outcome bool :=
  if decide (n > 0) then
    c ← byte_at str 0;
    if decide (c < Tx) then mret true else
    if decide (n > 1) then
      if decide (c < T3) then mret true else
      if decide (n > 2) then
        mret (bool_decide (c < T4 \/ n > 3))
      else mret false
    else mret false
  else mret false.

(** The loop of [utflen]; [n] counts the runes. *)
Fixpoint utflen_loop (fuel : nat) (s : bytes) (n : Z) : outcome Z :=
  match fuel with
  | O => Throw OutOfFuel
  | S fuel' =>
      c ← byte_at s 0;
      if decide (c < Runeself) then
        if decide (c = 0) then mret n else utflen_loop fuel' (drop 1 s) (n + 1)
      else
        '(_, k) ← chartorune s;
        utflen_loop fuel' (drop k s) (n + 1)
  end.

(** The [long] count is returned as an [int]. *)
Definition utflen (s : bytes) : outcome Z :=
  n ← utflen_loop (S (length s)) s 0; mret (swrap 32 n).

(** [strchr] of the C library: the terminator is part of the string. *)
Fixpoint strchr (s : bytes) (c : ascii) : outcome (option nat) :=
  match s with
  | [] => Throw BadIndex
  | d :: s' =>
      if decide (d = c) then mret (Some O)
      else if decide (d = NUL) then mret None
      else p ← strchr s' c; Ret (option_map S p)
  end.

(** The loop of [utfrune]; [i] is the offset of [s]. *)
Fixpoint utfrune_loop (fuel : nat) (s : bytes) (i : nat) (c : Z) : outcome (option nat) :=
  match fuel with
  | O => Throw OutOfFuel
  | S fuel' =>
      c1 ← byte_at s 0;
      if decide (c1 < Runeself) then
        if decide (c1 = 0) then mret None else
        if decide (c1 = c) then mret (Some i) else
        utfrune_loop fuel' (drop 1 s) (S i) c
      else
        '(r, n) ← chartorune s;
        if decide (r = c) then mret (Some i)
        else utfrune_loop fuel' (drop n s) (i + n) c
  end.

Definition utfrune (s : bytes) (c : Z) : outcome (option nat) :=
  if decide (c < Runesync) then strchr s (char_of_Z c)
  else utfrune_loop (S (length s)) s 0 c.

Example utf8_euro : runetochar 0x20AC = char_of_Z <$> [0xE2; 0x82; 0xAC].
Proof. by vm_compute. Qed.
Example utf8_above_max : runetochar 0x110000 = runetochar Runeerror.
Proof. by vm_compute. Qed.

(** ** The bytes of a rune, by arithmetic *)

Definition utf8 (r : Z) : list Z :=
  if decide (r < 0x80) then [r] else
  if decide (r < 0x800) then [0xC0 + r / 64; 0x80 + r mod 64] else
  if decide (r < 0x10000) then [0xE0 + r / 64 / 64; 0x80 + r / 64 mod 64; 0x80 + r mod 64]
  else [0xF0 + r / 64 / 64 / 64; 0x80 + r / 64 / 64 mod 64; 0x80 + r / 64 mod 64; 0x80 + r mod 64].

(** A disjunction of a multiple of a power of two and something below it. *)
Lemma lor_low a b k : 0 <= k -> 0 <= b < 2 ^ k -> Z.lor (a * 2 ^ k) b = a * 2 ^ k + b.
Proof.
  intros Hk Hb.
  assert (H : Z.land (a * 2 ^ k) b = 0).
  { apply Z.bits_inj'; intros i Hi. rewrite Z.land_spec, Z.bits_0.
    destruct (Z.lt_ge_cases i k); [by rewrite Z.mul_pow2_bits_low|].
    rewrite <- (Z.mod_small b (2 ^ k)), Z.mod_pow2_bits_high, andb_false_r by lia. done. }
  by rewrite Z.add_nocarry_lxor, Z.lxor_lor.
Qed.

Lemma shift6_lor a x : 0 <= x < 64 -> Z.lor (Z.shiftl a Bitx) x = a * 64 + x.
Proof. intros H. rewrite Z.shiftl_mul_pow2 by done. by apply (lor_low a x 6). Qed.

(** A property of the bytes, or of some of the smallest integers. *)
Lemma forall_below (n : nat) (P : Z -> bool) :
  forallb P (Z.of_nat <$> seq 0 n) = true -> forall z, 0 <= z < Z.of_nat n -> P z = true.
Proof.
  intros H z Hz. rewrite forallb_forall in H. apply H, list_elem_of_In, list_elem_of_fmap.
  exists (Z.to_nat z). split; [lia|]. apply elem_of_seq. lia.
Qed.

Lemma cont_byte x : 0 <= x < 64 -> Z.lor Tx x = 0x80 + x.
Proof. intros H. by apply (lor_low 2 x 6). Qed.

(** A continuation byte is tested by [^ Tx] and [& Testx]. *)
Lemma test_byte b : 0 <= b < 256 ->
  (0x80 <= b < 0xC0 /\ Z.lxor b Tx = b - 0x80 /\ Z.land (Z.lxor b Tx) Testx = 0)
  \/ (~ 0x80 <= b < 0xC0) /\ Z.land (Z.lxor b Tx) Testx <> 0.
Proof.
  intros Hb.
  assert (H : (bool_decide (0x80 <= b < 0xC0 /\ Z.lxor b Tx = b - 0x80 /\ Z.land (Z.lxor b Tx) Testx = 0)
    || bool_decide ((~ 0x80 <= b < 0xC0) /\ Z.land (Z.lxor b Tx) Testx <> 0)) = true).
  { revert b Hb. change 256 with (Z.of_nat 256). apply forall_below. by vm_compute. }
  apply orb_true_iff in H as [H%bool_decide_eq_true|H%bool_decide_eq_true]; auto.
Qed.

Lemma uchar_small z : 0 <= z < 256 -> uchar (char_of_Z z) = z.
Proof. intros H. rewrite uchar_char_of_Z. by apply Z.mod_small. Qed.

Ltac divs := Z.div_mod_to_equations; lia.

(** The encoder, by arithmetic. *)
Lemma runetochar_utf8 r : 0 <= r <= Runemax -> runetochar r = char_of_Z <$> utf8 r.
Proof.
  intros H. unfold Runemax in H. unfold runetochar, utf8, uwrap. rewrite Z.mod_small by lia.
  change Rune1 with 127. change Rune2 with 2047. change Rune3 with 65535. change Runemax with 0x10FFFF.
  rewrite (decide_False (P := r > _)) by lia.
  change (1 * Bitx) with 6. change (2 * Bitx) with 12. change (3 * Bitx) with 18.
  change Maskx with (Z.ones 6). rewrite !Z.land_ones, !Z.shiftr_div_pow2 by lia.
  change (2 ^ 6) with 64. change (2 ^ 12) with (64 * 64). change (2 ^ 18) with (64 * 64 * 64).
  rewrite <- !Z.div_div by lia.
  rewrite !cont_byte by (apply Z.mod_pos_bound; lia).
  repeat case_decide; try lia; cbn; [done|..]; repeat f_equal.
  - apply (lor_low 6 _ 5); divs.
  - apply (lor_low 14 _ 4); divs.
  - apply (lor_low 30 _ 3); divs.
Qed.

(** The runes two to four bytes can encode, 11, 16 and 21 bits wide. *)
Definition rune_max (n : nat) : Z :=
  match n with 1%nat => Rune1 | 2%nat => Rune2 | 3%nat => Rune3 | _ => Rune4 end.

Lemma utf8_bytes r : 0 <= r <= Rune4 -> Forall (fun b => 0 <= b < 256) (utf8 r).
Proof.
  change Rune4 with 2097151. intros H. unfold utf8.
  repeat case_decide; repeat constructor; try divs.
Qed.

Lemma byte_at_fmap (l : list Z) rest i b :
  l !! i = Some b -> 0 <= b < 256 -> byte_at ((char_of_Z <$> l) ++ rest) i = Ret b.
Proof.
  intros Hl Hb. unfold byte_at. rewrite lookup_app_l.
  - rewrite list_lookup_fmap, Hl. cbn. by rewrite uchar_small.
  - rewrite length_fmap. by eapply lookup_lt_Some.
Qed.

Lemma test_ok x : 0 <= x < 64 -> Z.lxor (0x80 + x) Tx = x /\ Z.land x Testx = 0.
Proof.
  intros H. destruct (test_byte (0x80 + x)) as [(_&E&E2)|[E _]]; [lia| |lia].
  rewrite E in E2 |- *. replace (0x80 + x - 0x80) with x in * by lia. done.
Qed.

(** The decoder, by arithmetic: what the bytes of a rune are decoded into. *)
Lemma chartorune_utf8 r rest : 0 <= r <= Rune4 ->
  chartorune ((char_of_Z <$> utf8 r) ++ rest) = Ret (r, length (utf8 r)).
Proof.
  intros H. pose proof (utf8_bytes r H) as Hb. change Rune4 with 2097151 in H.
  unfold chartorune.
  assert (Hat : forall i b, utf8 r !! i = Some b -> byte_at ((char_of_Z <$> utf8 r) ++ rest) i = Ret b).
  { intros i b Hi. eapply byte_at_fmap; [exact Hi|]. by apply (Forall_lookup_1 _ _ _ _ Hb Hi). }
  revert Hat. generalize ((char_of_Z <$> utf8 r) ++ rest). intros str Hat. unfold utf8 in *.
  change Tx with 128 in *. change T2 with 192. change T3 with 224. change T4 with 240. change T5 with 248.
  change Rune1 with 127. change Rune2 with (Z.ones 11). change Rune3 with (Z.ones 16). change Rune4 with (Z.ones 21).
  repeat case_decide.
  - rewrite (Hat 0%nat r) by done. cbn. by rewrite decide_True.
  - rewrite (Hat 0%nat _ eq_refl), (Hat 1%nat _ eq_refl). cbn [mbind outcome_bind mret outcome_ret].
    destruct (test_ok (r mod 64)) as [E E2]; [divs|]. change Tx with 128 in E.
    rewrite E, E2, shift6_lor by (lia || divs).
    assert ((0xC0 + r / 64) * 64 + r mod 64 = r + 6 * 2 ^ 11) as -> by (cbn; divs).
    rewrite (Z.land_ones (r + 6 * 2 ^ 11) 11), (Z.mod_add r), (Z.mod_small r (2 ^ 11)) by (cbn; lia). change (Z.ones 11) with 2047. repeat case_decide; try divs. done.
  - rewrite (Hat 0%nat _ eq_refl), (Hat 1%nat _ eq_refl), (Hat 2%nat _ eq_refl).
    cbn [mbind outcome_bind mret outcome_ret].
    destruct (test_ok (r / 64 mod 64)) as [E E2]; [divs|]. change Tx with 128 in E.
    destruct (test_ok (r mod 64)) as [E' E2']; [divs|]. change Tx with 128 in E'.
    rewrite E, E2, E', E2', !shift6_lor by (lia || divs).
    assert (((0xE0 + r / 64 / 64) * 64 + r / 64 mod 64) * 64 + r mod 64 = r + 14 * 2 ^ 16) as ->
      by (cbn; divs).
    rewrite (Z.land_ones (r + 14 * 2 ^ 16) 16), (Z.mod_add r), (Z.mod_small r (2 ^ 16)) by (cbn; lia). change (Z.ones 11) with 2047. change (Z.ones 16) with 65535. cbn. repeat case_decide; try divs. done.
  - rewrite (Hat 0%nat _ eq_refl), (Hat 1%nat _ eq_refl), (Hat 2%nat _ eq_refl), (Hat 3%nat _ eq_refl).
    cbn [mbind outcome_bind mret outcome_ret].
    destruct (test_ok (r / 64 / 64 mod 64)) as [E E2]; [divs|]. change Tx with 128 in E.
    destruct (test_ok (r / 64 mod 64)) as [E' E2']; [divs|]. change Tx with 128 in E'.
    destruct (test_ok (r mod 64)) as [E3 E4]; [divs|]. change Tx with 128 in E3.
    rewrite E, E2, E', E2', E3, E4, !shift6_lor by (lia || divs).
    assert ((((0xF0 + r / 64 / 64 / 64) * 64 + r / 64 / 64 mod 64) * 64 + r / 64 mod 64) * 64 + r mod 64
      = r + 30 * 2 ^ 21) as -> by (cbn; divs).
    rewrite (Z.land_ones (r + 30 * 2 ^ 21) 21), (Z.mod_add r), (Z.mod_small r (2 ^ 21)) by (cbn; lia). change (Z.ones 11) with 2047. change (Z.ones 16) with 65535. cbn. repeat case_decide; try divs. done.
Qed.

Lemma byte_at_0 c s : byte_at (c :: s) 0 = Ret (uchar c).
Proof. done. Qed.
Lemma byte_at_S c s i : byte_at (c :: s) (S i) = byte_at s i.
Proof. done. Qed.
Lemma byte_at_nil i : byte_at [] i = Throw BadIndex.
Proof. done. Qed.

(** The text of a decoded rune is its encoding: no rune has two. *)
Lemma chartorune_inv s r n : chartorune s = Ret (r, n) ->
  (r = Bad /\ n = 1%nat /\ s <> [])
  \/ (0 <= r <= Rune4 /\ n = length (utf8 r) /\ take n s = char_of_Z <$> utf8 r).
Proof.
  unfold chartorune. destruct s as [|c0 s]; [done|]. rewrite byte_at_0. cbn [mbind outcome_bind].
  pose proof (uchar_range c0) as Hr0.
  change Tx with 128. change T2 with 192. change T3 with 224. change T4 with 240. change T5 with 248.
  change Rune1 with 127. change Rune2 with (Z.ones 11). change Rune3 with (Z.ones 16). change Rune4 with (Z.ones 21).
  case_decide.
  { intros [= <- <-]. right. change (Z.ones 21) with 2097151. unfold utf8. rewrite decide_True by lia. split_and!; [lia|lia|done|]. cbn [take fmap list_fmap]. by rewrite char_of_Z_uchar. }
  rewrite !byte_at_S. destruct s as [|c1 s]; [done|]. rewrite byte_at_0. cbn [mbind outcome_bind].
  pose proof (test_byte _ (uchar_range c1)) as Ht. change Tx with 128 in Ht.
  destruct Ht as [(Hc1&E1&->)|[_ Hc1]].
  2: { rewrite decide_True by done. intros [= <- <-]. by left. }
  rewrite decide_False by (intros H'; by apply H'). rewrite E1.
  case_decide.
  { case_decide; [intros [= <- <-]; by left|]. rewrite shift6_lor by lia.
    replace (uchar c0 * 64 + (uchar c1 - 128)) with ((uchar c0 - 192) * 64 + (uchar c1 - 128) + 6 * 2 ^ 11) by (cbn; lia).
    rewrite Z.land_ones, Z.mod_add, Z.mod_small by (cbn; lia).
    case_decide; [intros [= <- <-]; by left|]. intros [= <- <-]. right. change (Z.ones 21) with 2097151.
    unfold utf8. rewrite decide_False, decide_True by lia. split_and!; [lia|lia|done|].
    cbn [take fmap list_fmap]. rewrite <- (char_of_Z_uchar c0), <- (char_of_Z_uchar c1) at 1. repeat f_equal; divs. }
  rewrite !byte_at_S. destruct s as [|c2 s]; [done|]. rewrite byte_at_0. cbn [mbind outcome_bind].
  pose proof (test_byte _ (uchar_range c2)) as Ht. change Tx with 128 in Ht.
  destruct Ht as [(Hc2&E2&->)|[_ Hc2]].
  2: { rewrite decide_True by done. intros [= <- <-]. by left. }
  rewrite decide_False by (intros H'; by apply H'). rewrite E2, !shift6_lor by lia.
  case_decide.
  { replace ((uchar c0 * 64 + (uchar c1 - 128)) * 64 + (uchar c2 - 128))
      with (((uchar c0 - 224) * 64 + (uchar c1 - 128)) * 64 + (uchar c2 - 128) + 14 * 2 ^ 16) by (cbn; lia).
    rewrite Z.land_ones, Z.mod_add, Z.mod_small by (cbn; lia). change (Z.ones 11) with 2047.
    case_decide; [intros [= <- <-]; by left|]. intros [= <- <-]. right. change (Z.ones 21) with 2097151.
    unfold utf8. rewrite decide_False, decide_False, decide_True by lia. split_and!; [lia|lia|done|].
    cbn [take fmap list_fmap]. rewrite <- (char_of_Z_uchar c0), <- (char_of_Z_uchar c1), <- (char_of_Z_uchar c2) at 1. repeat f_equal; divs. }
  rewrite !byte_at_S. destruct s as [|c3 s]; [done|]. rewrite byte_at_0. cbn [mbind outcome_bind].
  pose proof (test_byte _ (uchar_range c3)) as Ht. change Tx with 128 in Ht.
  destruct Ht as [(Hc3&E3&->)|[_ Hc3]].
  2: { rewrite decide_True by done. intros [= <- <-]. by left. }
  rewrite decide_False by (intros H'; by apply H'). rewrite E3, !shift6_lor by lia.
  case_decide; [|intros [= <- <-]; by left].
  replace (((uchar c0 * 64 + (uchar c1 - 128)) * 64 + (uchar c2 - 128)) * 64 + (uchar c3 - 128))
    with ((((uchar c0 - 240) * 64 + (uchar c1 - 128)) * 64 + (uchar c2 - 128)) * 64 + (uchar c3 - 128) + 30 * 2 ^ 21) by (cbn; lia).
  rewrite Z.land_ones, Z.mod_add, Z.mod_small by (cbn; lia). change (Z.ones 16) with 65535.
  case_decide; [intros [= <- <-]; by left|]. intros [= <- <-]. right. change (Z.ones 21) with 2097151.
  unfold utf8. rewrite !decide_False by lia. split_and!; [lia|lia|done|].
  cbn [take fmap list_fmap]. rewrite <- (char_of_Z_uchar c0), <- (char_of_Z_uchar c1), <- (char_of_Z_uchar c2), <- (char_of_Z_uchar c3) at 1.
  repeat f_equal; divs.
Qed.

Lemma runetochar_above r : Runemax < r < 2 ^ 64 \/ - 2 ^ 64 + Runemax < r < 0 -> runetochar r = runetochar Runeerror.
Proof.
  intros H. assert (Hw : Runemax < uwrap 64 r).
  { unfold uwrap, Runemax in *. destruct H as [H|H].
    - rewrite Z.mod_small; lia.
    - rewrite <- (Z.mod_add r 1), Z.mod_small; lia. }
  unfold Runemax in *. unfold runetochar at 1. change Rune1 with 127. change Rune2 with 2047.
  rewrite (decide_False (P := uwrap 64 r <= 127)), (decide_False (P := uwrap 64 r <= 2047)) by lia.
  rewrite (decide_True (P := uwrap 64 r > Runemax)) by (change Runemax with 0x10FFFF; lia). by vm_compute.
Qed.

(** The bytes of a rune, as they are written. *)
Lemma runetochar_cons r : 0 <= r <= Runemax ->
  exists c l, runetochar r = c :: l /\ (uchar c < 0x80 <-> r < 0x80)
    /\ (r < 0x80 -> uchar c = r /\ l = []) /\ Forall (fun d => 0x80 <= uchar d) l.
Proof.
  intros H. rewrite runetochar_utf8 by done. unfold Runemax in H. unfold utf8.
  repeat case_decide; do 2 eexists; (split; [reflexivity|]);
    rewrite uchar_small by divs; split_and!; try divs; repeat constructor; rewrite ?uchar_small by divs; try divs.
Qed.

Lemma chartorune_runetochar r rest : 0 <= r <= Runemax ->
  chartorune (runetochar r ++ rest) = Ret (r, length (runetochar r)).
Proof.
  intros H. rewrite runetochar_utf8, length_fmap by done. apply chartorune_utf8.
  change Rune4 with 2097151. unfold Runemax in H. lia.
Qed.

(** Decoding does not pass a terminator. *)
Lemma chartorune_stops s : NUL ∈ s -> head s <> Some NUL ->
  exists r k, chartorune s = Ret (r, k) /\ (0 < k <= length s)%nat /\ NUL ∉ take k s.
Proof.
  intros Hs Hh. destruct s as [|c0 s]; [by apply not_elem_of_nil in Hs|].
  assert (Hc : c0 <> NUL) by (simpl in Hh; congruence).
  apply elem_of_cons in Hs as [Hs|Hs]; [by destruct Hc|].
  assert (Hone : NUL ∉ take 1 (c0 :: s)) by (cbn; by rewrite list_elem_of_singleton).
  unfold chartorune. rewrite byte_at_0. cbn [mbind outcome_bind].
  case_decide; [do 2 eexists; split; [done|]; simpl; split; [lia|done]|].
  rewrite !byte_at_S. destruct s as [|c1 s]; [by apply not_elem_of_nil in Hs|].
  rewrite byte_at_0. cbn [mbind outcome_bind].
  case_decide; [do 2 eexists; split; [done|]; simpl; split; [lia|done]|].
  assert (Hc1 : c1 <> NUL) by (intros ->; by vm_compute in H0).
  apply elem_of_cons in Hs as [Hs|Hs]; [by destruct Hc1|].
  case_decide.
  { repeat case_decide; do 2 eexists; (split; [done|]); simpl; (split; [lia|]);
      rewrite ?not_elem_of_cons; by auto using not_elem_of_nil. }
  rewrite !byte_at_S. destruct s as [|c2 s]; [by apply not_elem_of_nil in Hs|].
  rewrite byte_at_0. cbn [mbind outcome_bind].
  case_decide; [do 2 eexists; split; [done|]; simpl; split; [lia|done]|].
  assert (Hc2 : c2 <> NUL) by (intros ->; by vm_compute in H2).
  apply elem_of_cons in Hs as [Hs|Hs]; [by destruct Hc2|].
  case_decide.
  { repeat case_decide; do 2 eexists; (split; [done|]); simpl; (split; [lia|]);
      rewrite ?not_elem_of_cons; by auto using not_elem_of_nil. }
  rewrite !byte_at_S. destruct s as [|c3 s]; [by apply not_elem_of_nil in Hs|].
  rewrite byte_at_0. cbn [mbind outcome_bind].
  case_decide; [do 2 eexists; split; [done|]; simpl; split; [lia|done]|].
  assert (Hc3 : c3 <> NUL) by (intros ->; by vm_compute in H4).
  repeat case_decide; do 2 eexists; (split; [done|]); simpl; (split; [lia|]);
    rewrite ?not_elem_of_cons; by auto using not_elem_of_nil.
Qed.

(** ** Properties *)

(** C22: decoding inverts encoding: the bytes [runetochar] writes for any rune
    are decoded by [chartorune] into that rune, and into the error rune where
    it is not a code point, and take exactly these bytes, whatever follows. *)
Theorem rune_roundtrip r rest : - 2 ^ 31 <= r < 2 ^ 31 ->
  chartorune (runetochar r ++ rest)
  = Ret (if decide (0 <= r <= Runemax) then r else Runeerror, runelen r).
Proof.
  intros H. unfold runelen. case_decide; [by apply chartorune_runetochar|].
  rewrite runetochar_above by (unfold Runemax in *; lia). by apply chartorune_runetochar.
Qed.

Lemma rune_roundtrip_witness :
  chartorune (runetochar 0x20AC ++ B "x") = Ret (0x20AC, 3%nat)
  /\ chartorune (runetochar (-1) ++ B "x") = Ret (Runeerror, 3%nat).
Proof. split; [apply (rune_roundtrip 0x20AC)|apply (rune_roundtrip (-1))]; lia. Defined.

(** Nothing but the encoding of a rune is decoded into it: where
    [chartorune] returns something else than the error rune and one byte, the
    bytes it took are those [runetochar] writes for the rune; four bytes can
    also give a rune above [Runemax], which has no encoding (it is written as
    the error rune). *)
Theorem chartorune_canonical s r n : chartorune s = Ret (r, n) ->
  r = Runeerror /\ n = 1%nat
  \/ 0 <= r <= Runemax /\ take n s = runetochar r
  \/ Runemax < r <= 0x1FFFFF /\ n = 4%nat /\ runetochar r = runetochar Runeerror.
Proof.
  intros [(->&->&_)|(Hr&->&Ht)]%chartorune_inv; [by left|right].
  change Rune4 with 0x1FFFFF in Hr. destruct (decide (r <= Runemax)) as [Hm|Hm].
  - left. split; [lia|]. by rewrite Ht, runetochar_utf8 by lia.
  - right. split; [lia|]. split; [|apply runetochar_above; unfold Runemax in *; lia].
    unfold utf8. unfold Runemax in Hm. by rewrite !decide_False by lia.
Qed.

Lemma chartorune_canonical_witness :
  chartorune (char_of_Z <$> [0xF4; 0x90; 0x80; 0x80]) = Ret (0x110000, 4%nat)
  /\ (0x110000 = Runeerror /\ 4%nat = 1%nat
      \/ 0 <= 0x110000 <= Runemax /\ take 4 (char_of_Z <$> [0xF4; 0x90; 0x80; 0x80]) = runetochar 0x110000
      \/ Runemax < 0x110000 <= 0x1FFFFF /\ 4%nat = 4%nat /\ runetochar 0x110000 = runetochar Runeerror).
Proof. split; [by vm_compute|]. apply chartorune_canonical. by vm_compute. Defined.

(** ** Lengths and positions in encoded texts *)

(** The text of some runes. *)
Definition encode (rs : list Z) : bytes := mjoin (runetochar <$> rs).

(** Runes a C string can hold. *)
Definition code_point (r : Z) : Prop := 1 <= r <= Runemax.

Lemma encode_cons r rs : encode (r :: rs) = runetochar r ++ encode rs.
Proof. done. Qed.

Lemma encode_length rs : Forall code_point rs -> (length rs <= length (encode rs))%nat.
Proof.
  induction 1 as [|r rs Hr _ IH]; [done|]. rewrite encode_cons, length_app. unfold code_point in Hr.
  destruct (runetochar_cons r) as (c&l&->&_); [lia|]. simpl. lia.
Qed.

(** One step over the text of a rune, and the terminator. *)
Lemma utflen_step fuel r rest n : code_point r ->
  utflen_loop (S fuel) (runetochar r ++ rest) n = utflen_loop fuel rest (n + 1).
Proof.
  unfold code_point. intros Hr. destruct (runetochar_cons r) as (c&l&E&H1&H2&_); [lia|]. cbn [utflen_loop].
  rewrite chartorune_runetochar by lia. rewrite E. cbn [app]. rewrite byte_at_0.
  cbn [mbind outcome_bind]. change Runeself with 0x80. case_decide as Hc.
  - destruct H2 as [H2 ->]; [lia|]. rewrite decide_False by lia. done.
  - change (c :: l ++ rest) with ((c :: l) ++ rest). by rewrite drop_app_length.
Qed.

Lemma utflen_encoded rs : Forall code_point rs -> forall fuel rest n, (length rs < fuel)%nat ->
  utflen_loop fuel (encode rs ++ NUL :: rest) n = Ret (n + Z.of_nat (length rs)).
Proof.
  induction 1 as [|r rs Hr _ IH]; intros [|fuel] rest n Hf; [lia| |lia|].
  - simpl. f_equal. lia.
  - rewrite encode_cons, <- app_assoc, utflen_step, IH by (done || simpl in Hf; lia). f_equal. simpl. lia.
Qed.

(** A step of [utfrune] over a rune. *)
Lemma utfrune_step fuel r rest i c : code_point r ->
  utfrune_loop (S fuel) (runetochar r ++ rest) i c
  = if decide (r = c) then Ret (Some i) else utfrune_loop fuel rest (i + length (runetochar r)) c.
Proof.
  unfold code_point. intros Hr. destruct (runetochar_cons r) as (d&l&E&H1&H2&_); [lia|]. cbn [utfrune_loop].
  rewrite chartorune_runetochar by lia. rewrite E. cbn [app]. rewrite byte_at_0.
  cbn [mbind outcome_bind]. change Runeself with 0x80. case_decide as Hc.
  - destruct H2 as [H2 ->]; [lia|]. rewrite H2, decide_False by lia.
    case_decide; [done|]. simpl. by rewrite Nat.add_1_r.
  - case_decide; [done|]. change (d :: l ++ rest) with ((d :: l) ++ rest). by rewrite drop_app_length.
Qed.

(** Where the first [c] among the runes starts in their text. *)
Definition rune_offset (rs : list Z) (c : Z) : option nat :=
  (fun p => length (encode (take p.1 rs))) <$> list_find (c =.) rs.

Lemma rune_offset_cons r rs c :
  rune_offset (r :: rs) c
  = if decide (c = r) then Some O else Nat.add (length (runetochar r)) <$> rune_offset rs c.
Proof.
  unfold rune_offset. cbn [list_find]. case_decide; [done|].
  destruct (list_find _ rs) as [[k x]|]; [|done]. simpl.
  by rewrite encode_cons, length_app.
Qed.

Lemma utfrune_encoded rs c : Forall code_point rs -> forall fuel rest i, (length rs < fuel)%nat ->
  utfrune_loop fuel (encode rs ++ NUL :: rest) i c = Ret (Nat.add i <$> rune_offset rs c).
Proof.
  induction 1 as [|r rs Hr _ IH]; intros [|fuel] rest i Hf; [lia|done|lia|].
  rewrite encode_cons, <- app_assoc, utfrune_step, rune_offset_cons by done.
  case_decide as Hc; [rewrite decide_True by done; simpl; by rewrite Nat.add_0_r|].
  rewrite decide_False, IH by (auto || simpl in Hf; lia).
  destruct (rune_offset rs c); simpl; [|done]. by rewrite Nat.add_assoc.
Qed.

(** [strchr] over a text without the character. *)
Lemma strchr_app l s d : d ∉ l -> NUL ∉ l ->
  strchr (l ++ s) d
  = match strchr s d with Ret p => Ret (option_map (Nat.add (length l)) p) | Throw f => Throw f end.
Proof.
  induction l as [|e l IH]; intros Hd H0.
  - simpl. by destruct (strchr s d) as [[p|]|].
  - apply not_elem_of_cons in Hd as [Hd1 Hd], H0 as [H1 H0]. cbn [app strchr].
    rewrite decide_False, decide_False, IH by auto.
    destruct (strchr s d) as [[p|]|]; done.
Qed.

Lemma strchr_encoded rs c rest : Forall code_point rs -> 1 <= c < 0x80 ->
  strchr (encode rs ++ NUL :: rest) (char_of_Z c) = Ret (rune_offset rs c).
Proof.
  intros Hrs Hc. assert (Hcc : uchar (char_of_Z c) = c) by (apply uchar_small; lia).
  induction Hrs as [|r rs Hr _ IH].
  - cbn [encode app mjoin list_join fmap list_fmap strchr]. rewrite decide_False; [done|].
    intros E. rewrite <- E in Hcc. change (uchar NUL) with 0 in Hcc. lia.
  - rewrite encode_cons, <- app_assoc, rune_offset_cons. unfold code_point in Hr.
    destruct (runetochar_cons r) as (d&l&E&H1&H2&H3); [lia|]. rewrite E. case_decide as Hd.
    + destruct H2 as [H2 ->]; [lia|]. cbn. rewrite decide_True; [done|]. apply uchar_inj. lia.
    + assert (Hdc : d <> char_of_Z c /\ d <> NUL).
      { split; intros ->; [rewrite Hcc in H1, H2; apply Hd; apply H2; lia|].
        change (uchar NUL) with 0 in *. lia. }
      rewrite Forall_forall in H3.
      rewrite strchr_app.
      * by rewrite IH.
      * rewrite not_elem_of_cons. split; [naive_solver|]. intros Hin%H3. lia.
      * rewrite not_elem_of_cons. split; [naive_solver|]. intros Hin%H3. change (uchar NUL) with 0 in Hin. lia.
Qed.

(** On the text of any runes with its terminator [utflen] returns their
    number and [utfrune] where the first one that was asked for starts, or
    NULL; they read nothing behind the terminator. *)
Theorem utf_functions_spec rs rest c : Forall code_point rs -> Z.of_nat (length rs) < 2 ^ 31 -> code_point c ->
  utflen (encode rs ++ NUL :: rest) = Ret (Z.of_nat (length rs))
  /\ utfrune (encode rs ++ NUL :: rest) c = Ret (rune_offset rs c).
Proof.
  intros Hrs Hlen Hc. pose proof (encode_length rs Hrs). split.
  - unfold utflen. rewrite utflen_encoded by (done || rewrite length_app; simpl; lia).
    cbn [mbind outcome_bind]. rewrite (swrap_small 32); [done|lia|]. bounds.
  - unfold utfrune. change Runesync with 0x80. unfold code_point in Hc. case_decide.
    + apply strchr_encoded; [done|lia].
    + rewrite utfrune_encoded by (done || rewrite length_app; simpl; lia). by destruct (rune_offset rs c).
Qed.

Lemma utf_functions_spec_witness :
  utflen (encode [0x61; 0x20AC; 0x10348] ++ NUL :: B "z") = Ret 3
  /\ utfrune (encode [0x61; 0x20AC; 0x10348] ++ NUL :: B "z") 0x10348 = Ret (Some 4%nat).
Proof.
  apply (utf_functions_spec [0x61; 0x20AC; 0x10348] (B "z") 0x10348);
    [repeat constructor; by vm_compute|done|by vm_compute].
Defined.

(** A text that [fullrune] takes for complete is decoded without reading
    behind its first [n] bytes. *)
Theorem fullrune_enough str n : fullrune str n = Ret true -> n <= Z.of_nat (length str) ->
  exists r k, chartorune (take (Z.to_nat n) str) = Ret (r, k).
Proof.
  unfold fullrune. case_decide as H0; [|done]. intros H Hn.
  assert (Hb : forall i, Z.of_nat i < n -> exists b, byte_at (take (Z.to_nat n) str) i = Ret b /\ byte_at str i = Ret b).
  { intros i Hi. unfold byte_at. rewrite lookup_take_lt by lia.
    destruct (lookup_lt_is_Some_2 str i) as [b ->]; [lia|]. by eexists. }
  destruct (Hb 0%nat) as (c&E0&E0'); [lia|]. rewrite E0' in H. unfold chartorune. rewrite E0.
  cbn [mbind outcome_bind] in *. case_decide; [do 2 eexists; reflexivity|].
  case_decide; [|done]. destruct (Hb 1%nat) as (c1&E1&_); [lia|]. rewrite E1. cbn [mbind outcome_bind].
  case_decide; [repeat case_decide; do 2 eexists; reflexivity|].
  case_decide; [|done]. injection H as H%bool_decide_eq_true.
  destruct (Hb 2%nat) as (c2&E2&_); [lia|]. rewrite E2. cbn [mbind outcome_bind].
  case_decide; [do 2 eexists; reflexivity|]. case_decide; [do 2 eexists; reflexivity|].
  case_decide; [case_decide; do 2 eexists; reflexivity|].
  destruct H as [H|H]; [done|].
  destruct (Hb 3%nat) as (c3&E3&_); [lia|]. rewrite E3. cbn [mbind outcome_bind].
  repeat case_decide; do 2 eexists; reflexivity.
Qed.

Lemma fullrune_enough_witness :
  exists r k, chartorune (take 3 (runetochar 0x20AC ++ B "tail")) = Ret (r, k).
Proof. apply (fullrune_enough (runetochar 0x20AC ++ B "tail") 3); [by vm_compute|simpl; lia]. Defined.
