(* ===== verification/CharClass.v ===== *)
(** * Character classes: [CharClass] of src/libs/re2/src/re2/regexp.h and
    regexp.cc

    A class is a set of ranges of runes, which do not overlap nor touch, the
    number of its runes, and two bitmaps for the ASCII letters.  The
    [std::set] is the list of its elements in order; two ranges are equivalent
    in it when they overlap, and [find] gives the first one of those. *)

From S2P Require Import Prelude Rune.

#[local] Open Scope Z_scope.

(** ** Data *)

(** [lo] and [hi], both in the range. *)
Abbreviation RuneRange := (Z * Z)%type.

(** [RuneRangeLess]. *)
Definition RuneRangeLess (a b : RuneRange) : Prop := a.2 < b.1.

Record CharClass := MkCharClass {
  upper_ : Z;
  lower_ : Z;
  nrunes_ : Z;
  ranges_ : list RuneRange;
}.

Definition new_CharClass : CharClass := MkCharClass 0 0 0 [].

Definition set_ranges (rs : list RuneRange) (cc : CharClass) : CharClass :=
  MkCharClass (upper_ cc) (lower_ cc) (nrunes_ cc) rs.
Definition set_nrunes (n : Z) (cc : CharClass) : CharClass :=
  MkCharClass (upper_ cc) (lower_ cc) n (ranges_ cc).
Definition set_upper (u : Z) (cc : CharClass) : CharClass :=
  MkCharClass u (lower_ cc) (nrunes_ cc) (ranges_ cc).
Definition set_lower (l : Z) (cc : CharClass) : CharClass :=
  MkCharClass (upper_ cc) l (nrunes_ cc) (ranges_ cc).

Definition AlphaMask : Z := Z.shiftl 1 26 - 1.

(** The set: neither range is less than the other. *)
Definition equivalent (a b : RuneRange) : Prop := ~ RuneRangeLess a b /\ ~ RuneRangeLess b a.

#[export] Instance equivalent_dec a b : Decision (equivalent a b).
Proof. unfold equivalent, RuneRangeLess. apply _. Defined.

Definition find (rs : list RuneRange) (key : RuneRange) : option (nat * RuneRange) :=
  list_find (fun it => equivalent it key) rs.

(** [insert] does nothing when there is an equivalent element. *)
Fixpoint insert_range (x : RuneRange) (rs : list RuneRange) : list RuneRange :=
  match rs with
  | [] => [x]
  | y :: rs' =>
      if decide (y.2 < x.1) then y :: insert_range x rs'
      else if decide (x.2 < y.1) then x :: rs else rs
  end.

(** [nrunes_ -= it->hi - it->lo + 1; ranges_.erase(it)]. *)
Definition erase_counted (it : nat * RuneRange) (cc : CharClass) : CharClass :=
  set_nrunes (nrunes_ cc - (it.2.2 - it.2.1 + 1)) (set_ranges (delete it.1 (ranges_ cc)) cc).

(** ** Operations *)

Definition size (cc : CharClass) : Z := nrunes_ cc.
Definition empty (cc : CharClass) : bool := bool_decide (nrunes_ cc = 0).
Definition full (cc : CharClass) : bool := bool_decide (nrunes_ cc = Runemax + 1).

(** The part of [lo] to [hi] within the letters from [first] to [last], as
    bits. *)
Definition letter_bits (first last lo hi : Z) : Z :=
  let lo1 := Z.max lo first in
  let hi1 := Z.min hi last in
  if decide (lo1 <= hi1) then Z.shiftl (Z.shiftl 1 (hi1 - lo1 + 1) - 1) (lo1 - first) else 0.

Definition mark_letters (lo hi : Z) (cc : CharClass) : CharClass :=
  if decide (lo <= 122 /\ 65 <= hi) then
    set_lower (Z.lor (lower_ cc) (letter_bits 97 122 lo hi))
      (set_upper (Z.lor (upper_ cc) (letter_bits 65 90 lo hi)) cc)
  else cc.

(** The loop that takes the ranges between [lo] and [hi] out. *)
Fixpoint erase_between (fuel : nat) (lo hi : Z) (cc : CharClass) : CharClass :=
  match fuel with
  | O => cc
  | S fuel' =>
      match find (ranges_ cc) (lo, hi) with
      | None => cc
      | Some it => erase_between fuel' lo hi (erase_counted it cc)
      end
  end.

(** Whether [lo] to [hi] is in one of the ranges. *)
Definition covered (lo hi : Z) (cc : CharClass) : bool :=
  match find (ranges_ cc) (lo, lo) with
  | Some (_, it) => bool_decide (it.1 <= lo /\ hi <= it.2)
  | None => false
  end.

(** The range that touches [lo] on the left is taken out and joined. *)
Definition join_left (lo hi : Z) (cc : CharClass) : Z * Z * CharClass :=
  if decide (0 < lo) then
    match find (ranges_ cc) (lo - 1, lo - 1) with
    | Some it => (it.2.1, if decide (hi < it.2.2) then it.2.2 else hi, erase_counted it cc)
    | None => (lo, hi, cc)
    end
  else (lo, hi, cc).

(** The range that touches [hi] on the right. *)
Definition join_right (hi : Z) (cc : CharClass) : Z * CharClass :=
  if decide (hi < Runemax) then
    match find (ranges_ cc) (hi + 1, hi + 1) with
    | Some it => (it.2.2, erase_counted it cc)
    | None => (hi, cc)
    end
  else (hi, cc).

Definition AddRange (lo hi : Z) (cc : CharClass) : CharClass * bool :=
  if decide (hi < lo) then (cc, false) else
  let cc := mark_letters lo hi cc in
  if covered lo hi cc then (cc, false) else
  let '(lo, hi, cc) := join_left lo hi cc in
  let '(hi, cc) := join_right hi cc in
  let cc := erase_between (length (ranges_ cc)) lo hi cc in
  (set_ranges (insert_range (lo, hi) (ranges_ cc)) (set_nrunes (nrunes_ cc + (hi - lo + 1)) cc), true).

(** [AddCharClass]: the ranges of [cc'] one by one. *)
Fixpoint AddRanges (rs : list RuneRange) (cc : CharClass) (added : bool) : CharClass * bool :=
  match rs with
  | [] => (cc, added)
  | it :: rs' => let '(cc, b) := AddRange it.1 it.2 cc in AddRanges rs' cc (added || b)
  end.

Definition AddCharClass (cc' cc : CharClass) : CharClass * bool := AddRanges (ranges_ cc') cc false.

Definition Contains (r : Z) (cc : CharClass) : bool := bool_decide (is_Some (find (ranges_ cc) (r, r))).

Definition FoldsASCII (cc : CharClass) : bool :=
  bool_decide (Z.land (Z.lxor (upper_ cc) (lower_ cc)) AlphaMask = 0).

Definition Copy (cc : CharClass) : CharClass :=
  MkCharClass (upper_ cc) (lower_ cc) (nrunes_ cc) (foldl (fun rs it => insert_range it rs) [] (ranges_ cc)).

(** The loop of [RemoveAbove]. *)
Fixpoint remove_above_loop (fuel : nat) (r : Z) (cc : CharClass) : CharClass :=
  match fuel with
  | O => cc
  | S fuel' =>
      match find (ranges_ cc) (r + 1, Runemax) with
      | None => cc
      | Some (i, rr) =>
          let cc := erase_counted (i, rr) cc in
          remove_above_loop fuel' r
            (if decide (rr.1 <= r)
             then set_nrunes (nrunes_ cc + (r - rr.1 + 1)) (set_ranges (insert_range (rr.1, r) (ranges_ cc)) cc)
             else cc)
      end
  end.

(** [letters &= AlphaMask >> (last - r)], or none of them. *)
Definition letters_up_to (first last r letters : Z) : Z :=
  if decide (r < last) then
    if decide (r < first) then 0 else Z.land letters (Z.shiftr AlphaMask (last - r))
  else letters.

Definition RemoveAbove (r : Z) (cc : CharClass) : CharClass :=
  if decide (Runemax <= r) then cc else
  let cc := set_lower (letters_up_to 97 122 r (lower_ cc)) cc in
  let cc := set_upper (letters_up_to 65 90 r (upper_ cc)) cc in
  remove_above_loop (S (length (ranges_ cc))) r cc.

(** The ranges between those of [rs], from [nextlo] on. *)
Fixpoint gaps (nextlo : Z) (rs : list RuneRange) : list RuneRange :=
  match rs with
  | [] => if decide (nextlo <= Runemax) then [(nextlo, Runemax)] else []
  | it :: rs' => (nextlo, it.1 - 1) :: gaps (it.2 + 1) rs'
  end.

(** The vector [v] of [Negate]. *)
Definition negated (rs : list RuneRange) : list RuneRange :=
  match rs with
  | [] => [(0, Runemax)]
  | it :: rs' => if decide (it.1 = 0) then gaps (it.2 + 1) rs' else gaps 0 rs
  end.

Definition Negate (cc : CharClass) : CharClass :=
  MkCharClass (Z.land AlphaMask (Z.lnot (upper_ cc))) (Z.land AlphaMask (Z.lnot (lower_ cc)))
    (Runemax + 1 - nrunes_ cc) (foldl (fun rs it => insert_range it rs) [] (negated (ranges_ cc))).

Example add_joins :
  let cc := (AddRange 70 80 (AddRange 90 99 (AddRange 60 69 new_CharClass).1).1).1 in
  ranges_ cc = [(60, 80); (90, 99)] /\ ranges_ (AddRange 81 89 cc).1 = [(60, 99)].
Proof. by vm_compute. Qed.

(** ** The ranges of a class *)

(** Before another range, with a gap between them. *)
Definition before (a b : RuneRange) : Prop := a.2 + 1 < b.1.

(** A range of code points. *)
Definition range_ok (it : RuneRange) : Prop := 0 <= it.1 /\ it.1 <= it.2 /\ it.2 <= Runemax.

Definition separated (rs : list RuneRange) : Prop := StronglySorted before rs /\ Forall range_ok rs.

Definition in_range (r : Z) (it : RuneRange) : Prop := it.1 <= r <= it.2.
Definition in_ranges (r : Z) (rs : list RuneRange) : Prop := Exists (in_range r) rs.

#[export] Instance in_ranges_dec r rs : Decision (in_ranges r rs).
Proof. unfold in_ranges, in_range. apply _. Defined.

(** The number of runes in some ranges. *)
Definition count (rs : list RuneRange) : Z := foldr (fun it n => (it.2 - it.1 + 1) + n) 0 rs.

#[export] Instance in_ranges_perm r : Proper ((≡ₚ) ==> iff) (in_ranges r).
Proof. unfold in_ranges. intros rs1 rs2 H. by rewrite H. Qed.

#[export] Instance count_perm : Proper ((≡ₚ) ==> eq) count.
Proof. intros rs1 rs2 H. induction H; simpl; lia. Qed.

Lemma in_ranges_cons r it rs : in_ranges r (it :: rs) <-> in_range r it \/ in_ranges r rs.
Proof. apply Exists_cons. Qed.

Lemma in_ranges_nil r : in_ranges r [] <-> False.
Proof. apply Exists_nil. Qed.

Lemma runes_count_cons it rs : count (it :: rs) = it.2 - it.1 + 1 + count rs.
Proof. done. Qed.

Lemma not_in_ranges r rs : ~ in_ranges r rs <-> forall it, it ∈ rs -> ~ in_range r it.
Proof.
  unfold in_ranges. rewrite Exists_exists. split; [|naive_solver].
  intros H it Hit Hr. apply H. eauto.
Qed.

(** [rs] without the range [it]. *)
Record taken_out (it : RuneRange) (rs rest : list RuneRange) : Prop := {
  taken_perm : rs ≡ₚ it :: rest;
  taken_ok : range_ok it;
  taken_sep : separated rest;
  taken_apart : forall x, x ∈ rest -> before x it \/ before it x;
}.

Lemma taken_out_delete rs i it :
  separated rs -> rs !! i = Some it -> taken_out it rs (delete i rs).
Proof.
  intros [Hs Hf] Hi. pose proof (lookup_lt_Some _ _ _ Hi) as Hlen.
  pose proof (take_drop_middle _ _ _ Hi) as E.
  assert (Ed : delete i rs = take i rs ++ drop (S i) rs) by apply delete_take_drop.
  rewrite Ed. rewrite <- E in Hs, Hf.
  apply StronglySorted_app in Hs as (H1&H2&[H3 H4]%StronglySorted_cons).
  apply Forall_app in Hf as [Hf1 [Hf2 Hf3]%Forall_cons]. rewrite Forall_forall in H3.
  split.
  - rewrite <- E at 1. by rewrite Permutation_middle.
  - done.
  - split; [|by apply Forall_app]. apply StronglySorted_app. split_and!; [|done..].
    intros x y Hx Hy. apply H1; [done|by right].
  - intros x [Hx|Hx]%elem_of_app; [left; apply H1; [done|by left]|right; by apply H3].
Qed.

(** What [find] finds. *)
Lemma find_taken_out rs key i it :
  separated rs -> find rs key = Some (i, it) ->
  taken_out it rs (delete i rs) /\ key.1 <= it.2 /\ it.1 <= key.2.
Proof.
  intros Hs (Hi&[H1 H2]&_)%list_find_Some. unfold RuneRangeLess in *.
  split; [by apply taken_out_delete|lia].
Qed.

Lemma find_one rs r i it :
  separated rs -> find rs (r, r) = Some (i, it) -> taken_out it rs (delete i rs) /\ in_range r it.
Proof. intros Hs (H&H1&H2)%find_taken_out; [|done]. by split. Qed.

Lemma find_nothing rs key : find rs key = None -> forall it, it ∈ rs -> it.2 < key.1 \/ key.2 < it.1.
Proof.
  intros H%list_find_None it Hit. rewrite Forall_forall in H.
  specialize (H it Hit). unfold equivalent, RuneRangeLess in H. lia.
Qed.

Lemma find_none_one rs r : find rs (r, r) = None -> ~ in_ranges r rs.
Proof.
  intros H. apply not_in_ranges. intros it Hit [H1 H2].
  destruct (find_nothing _ _ H it Hit); simpl in *; lia.
Qed.

Lemma find_is_Some rs r : separated rs -> is_Some (find rs (r, r)) <-> in_ranges r rs.
Proof.
  intros Hs. destruct (find rs (r, r)) as [[i it]|] eqn:E.
  - apply find_one in E as [H Hr]; [|done]. split; [intros _|by eexists].
    rewrite (taken_perm _ _ _ H), in_ranges_cons. by left.
  - split; [by intros []|]. by intros H%find_none_one.
Qed.

Lemma in_ranges_taken it rs rest r :
  taken_out it rs rest -> in_ranges r rs <-> in_range r it \/ in_ranges r rest.
Proof. intros H. by rewrite (taken_perm _ _ _ H), in_ranges_cons. Qed.

Lemma count_taken it rs rest : taken_out it rs rest -> count rs = it.2 - it.1 + 1 + count rest.
Proof. intros H. by rewrite (taken_perm _ _ _ H). Qed.

(** A range that is apart from all the others is inserted. *)
Lemma insert_range_spec x rs :
  separated rs -> range_ok x -> (forall y, y ∈ rs -> before y x \/ before x y) ->
  separated (insert_range x rs) /\ insert_range x rs ≡ₚ x :: rs.
Proof.
  intros [Hs Hf] Hx. induction rs as [|y rs IH]; intros Ha.
  - split; [|done]. split; [by repeat constructor|by constructor].
  - cbn [insert_range]. apply StronglySorted_cons in Hs as [Hy Hs]. apply Forall_cons in Hf as [Hfy Hf].
    destruct (IH Hs Hf) as [[H1 H1'] H2]; [intros z Hz; apply Ha; by right|].
    pose proof (Ha y (list_elem_of_here _ _)) as Hxy. unfold range_ok, before in *.
    case_decide as D1; [|case_decide as D2].
    + split; [|rewrite H2; apply Permutation_swap]. split; [|by constructor].
      apply StronglySorted_cons. split; [|done]. rewrite H2. apply Forall_cons. split; [unfold before; lia|done].
    + split; [|done]. split; [|apply Forall_cons; split; [exact Hx|by apply Forall_cons]]. apply StronglySorted_cons. split.
      * apply Forall_cons. split; [unfold before; lia|]. eapply Forall_impl; [exact Hy|]. unfold before. simpl. lia.
      * by apply StronglySorted_cons.
    + lia.
Qed.

(** ** Adding a range *)

(** Taking ranges out of [cc] and joining them to [lo] to [hi]. *)
Record joined (lo hi : Z) (cc : CharClass) (lo' hi' : Z) (cc' : CharClass) : Prop := {
  joined_sep : separated (ranges_ cc');
  joined_range : range_ok (lo', hi');
  joined_union r : in_ranges r (ranges_ cc') \/ lo' <= r <= hi' <-> in_ranges r (ranges_ cc) \/ lo <= r <= hi;
  joined_count : nrunes_ cc' - count (ranges_ cc') = nrunes_ cc - count (ranges_ cc);
  joined_upper : upper_ cc' = upper_ cc;
  joined_lower : lower_ cc' = lower_ cc;
}.

Lemma joined_refl lo hi cc : separated (ranges_ cc) -> range_ok (lo, hi) -> joined lo hi cc lo hi cc.
Proof. intros H1 H2. by split. Qed.

Lemma joined_trans lo hi cc lo1 hi1 cc1 lo2 hi2 cc2 :
  joined lo hi cc lo1 hi1 cc1 -> joined lo1 hi1 cc1 lo2 hi2 cc2 -> joined lo hi cc lo2 hi2 cc2.
Proof.
  intros [H1 H2 H3 H4 H5 H6] [K1 K2 K3 K4 K5 K6]. split; [done|done| |lia|congruence|congruence].
  intros r. by rewrite K3, H3.
Qed.

(** One range is taken out that touches or overlaps [lo] to [hi]. *)
Lemma joined_one lo hi cc i it lo' hi' :
  taken_out it (ranges_ cc) (delete i (ranges_ cc)) -> range_ok (lo, hi) ->
  it.1 <= hi + 1 -> lo <= it.2 + 1 -> lo' = Z.min lo it.1 -> hi' = Z.max hi it.2 ->
  joined lo hi cc lo' hi' (erase_counted (i, it) cc).
Proof.
  intros Ht Hok H1 H2 -> ->. pose proof (taken_ok _ _ _ Ht) as Ho. unfold range_ok in *. simpl in *.
  split; cbn [ranges_ set_ranges erase_counted set_nrunes nrunes_ upper_ lower_ fst snd]; try done.
  - apply Ht.
  - unfold range_ok. simpl. lia.
  - intros r. rewrite (in_ranges_taken _ _ _ r Ht). unfold in_range. split; [|intuition lia].
    intros [?|?]; [by auto|].
    destruct (decide (lo <= r <= hi)); [by auto|]. left. left. lia.
  - rewrite (count_taken _ _ _ Ht). lia.
Qed.

Lemma join_left_spec lo hi cc :
  separated (ranges_ cc) -> range_ok (lo, hi) ->
  let '(lo', hi', cc') := join_left lo hi cc in
  joined lo hi cc lo' hi' cc' /\ ~ in_ranges (lo' - 1) (ranges_ cc').
Proof.
  intros Hs Hok. pose proof Hok as [Hlo [Hle Hhi]]. simpl in *. unfold join_left. case_decide.
  - destruct (find (ranges_ cc) (lo - 1, lo - 1)) as [[i it]|] eqn:E.
    + apply find_one in E as [Ht [Hi1 Hi2]]; [|done]. cbn [fst snd].
      assert (Hj : joined lo hi cc it.1 (if decide (hi < it.2) then it.2 else hi) (erase_counted (i, it) cc)).
      { apply joined_one; [done|done|lia|lia|lia|case_decide; lia]. }
      split; [exact Hj|]. cbn. apply not_in_ranges. intros x Hx [Hx1 Hx2].
      destruct (taken_apart _ _ _ Ht x Hx) as [Hb|Hb]; unfold before in Hb; [lia|].
      destruct (taken_ok _ _ _ Ht) as (_&?&_). lia.
    + split; [by apply joined_refl|]. by apply find_none_one.
  - split; [by apply joined_refl|]. apply not_in_ranges. intros x Hx [Hx1 Hx2].
    destruct Hs as [_ Hf]. rewrite Forall_forall in Hf. destruct (Hf x Hx) as [? _]. lia.
Qed.

Lemma join_right_spec lo hi cc :
  separated (ranges_ cc) -> range_ok (lo, hi) -> ~ in_ranges (lo - 1) (ranges_ cc) ->
  let '(hi', cc') := join_right hi cc in
  joined lo hi cc lo hi' cc' /\ ~ in_ranges (lo - 1) (ranges_ cc') /\ ~ in_ranges (hi' + 1) (ranges_ cc').
Proof.
  intros Hs Hok Hl. pose proof Hok as [Hlo [Hle Hhi]]. simpl in *. unfold join_right. case_decide.
  - destruct (find (ranges_ cc) (hi + 1, hi + 1)) as [[i it]|] eqn:E.
    + apply find_one in E as [Ht [Hi1 Hi2]]; [|done]. cbn [fst snd].
      rewrite (in_ranges_taken _ _ _ _ Ht) in Hl. unfold in_range in Hl.
      assert (~ it.1 <= lo - 1 <= it.2) by tauto.
      split; [|split]; [| |cbn].
      * apply joined_one; [done|done|lia|lia|lia|lia].
      * cbn. tauto.
      * apply not_in_ranges. intros x Hx [Hx1 Hx2].
        destruct (taken_apart _ _ _ Ht x Hx) as [Hb|Hb]; unfold before in Hb; [|lia].
        destruct (taken_ok _ _ _ Ht) as (_&?&_). lia.
    + split; [by apply joined_refl|]. split; [done|]. by apply find_none_one.
  - split; [by apply joined_refl|]. split; [done|]. apply not_in_ranges. intros x Hx [Hx1 Hx2].
    destruct Hs as [_ Hf]. rewrite Forall_forall in Hf. destruct (Hf x Hx) as (_&_&?). lia.
Qed.

Lemma erase_between_spec lo hi fuel : forall cc,
  separated (ranges_ cc) -> range_ok (lo, hi) -> (length (ranges_ cc) <= fuel)%nat ->
  ~ in_ranges (lo - 1) (ranges_ cc) -> ~ in_ranges (hi + 1) (ranges_ cc) ->
  let cc' := erase_between fuel lo hi cc in
  joined lo hi cc lo hi cc' /\ forall x, x ∈ ranges_ cc' -> before x (lo, hi) \/ before (lo, hi) x.
Proof.
  assert (Hend : forall cc, separated (ranges_ cc) -> find (ranges_ cc) (lo, hi) = None ->
    ~ in_ranges (lo - 1) (ranges_ cc) -> ~ in_ranges (hi + 1) (ranges_ cc) ->
    forall x, x ∈ ranges_ cc -> before x (lo, hi) \/ before (lo, hi) x).
  { intros cc [_ Hs] E Hl Hh x Hx. rewrite Forall_forall in Hs. destruct (Hs x Hx) as (_&?&_). rewrite not_in_ranges in Hl, Hh.
    specialize (Hl x Hx). specialize (Hh x Hx). pose proof (find_nothing _ _ E x Hx).
    unfold in_range, before in *. simpl in *. lia. }
  induction fuel as [|fuel IH]; intros cc Hs Hok Hf Hl Hh; cbn [erase_between].
  - split; [by apply joined_refl|]. destruct (ranges_ cc) eqn:E; [|simpl in Hf; lia].
    intros x Hx. by apply not_elem_of_nil in Hx.
  - destruct (find (ranges_ cc) (lo, hi)) as [[i it]|] eqn:E.
    2: { split; [by apply joined_refl|]. by apply Hend. }
    apply find_taken_out in E as [Ht [Hi1 Hi2]]; [|done]. pose proof (taken_perm _ _ _ Ht) as Hp.
    rewrite (in_ranges_taken _ _ _ _ Ht) in Hl. rewrite (in_ranges_taken _ _ _ _ Ht) in Hh. unfold in_range in Hl, Hh. simpl in *.
    assert (~ it.1 <= lo - 1 <= it.2) by tauto. assert (~ it.1 <= hi + 1 <= it.2) by tauto.
    destruct (taken_ok _ _ _ Ht) as (Ho1&Ho2&Ho3).
    assert (Hj : joined lo hi cc lo hi (erase_counted (i, it) cc)).
    { apply joined_one; [done|done|lia|lia|lia|lia]. }
    destruct (IH (erase_counted (i, it) cc)) as [Hj' Ha]; [apply Hj|done| |tauto|tauto|].
    + cbn. apply Permutation_length in Hp. simpl in Hp. lia.
    + split; [by eapply joined_trans|done].
Qed.

(** ** The invariant of a class *)

(** Bit [k] says whether the letter [first + k] is in the class. *)
Definition letters_ok (first letters : Z) (rs : list RuneRange) : Prop :=
  forall k, 0 <= k -> Z.testbit letters k = bool_decide (k < 26 /\ in_ranges (first + k) rs).

Record wf (cc : CharClass) : Prop := {
  wf_sep : separated (ranges_ cc);
  wf_count : nrunes_ cc = count (ranges_ cc);
  wf_upper : letters_ok 65 (upper_ cc) (ranges_ cc);
  wf_lower : letters_ok 97 (lower_ cc) (ranges_ cc);
}.

Lemma new_CharClass_wf : wf new_CharClass.
Proof.
  split; [by split; constructor|done| |]; intros k Hk; cbn; rewrite Z.bits_0; symmetry;
    apply bool_decide_eq_false; rewrite in_ranges_nil; tauto.
Qed.

Lemma ones_bit n k : 0 <= n -> 0 <= k -> Z.testbit (Z.shiftl 1 n - 1) k = bool_decide (k < n).
Proof.
  intros Hn Hk. change (Z.shiftl 1 n - 1) with (Z.ones n).
  case_bool_decide; [by apply Z.ones_spec_low|by apply Z.ones_spec_high; lia].
Qed.

Lemma letter_bits_bit first lo hi k : 0 <= k ->
  Z.testbit (letter_bits first (first + 25) lo hi) k = bool_decide (k < 26 /\ lo <= first + k <= hi).
Proof.
  intros Hk. unfold letter_bits. case_decide.
  - rewrite Z.shiftl_spec by lia. destruct (Z.lt_ge_cases k (Z.max lo first - first)).
    + rewrite Z.testbit_neg_r by lia. symmetry. apply bool_decide_eq_false. lia.
    + rewrite ones_bit by lia. apply bool_decide_ext. lia.
  - rewrite Z.bits_0. symmetry. apply bool_decide_eq_false. lia.
Qed.

(** Marking the letters of a range. *)
Lemma letters_ok_mark first letters rs rs' lo hi :
  letters_ok first letters rs -> (forall r, in_ranges r rs' <-> in_ranges r rs \/ lo <= r <= hi) ->
  letters_ok first (Z.lor letters (letter_bits first (first + 25) lo hi)) rs'.
Proof.
  intros H Hrs k Hk. rewrite Z.lor_spec, H, letter_bits_bit by done.
  rewrite <- bool_decide_or. apply bool_decide_ext. rewrite Hrs. tauto.
Qed.

Lemma mark_letters_ok lo hi cc rs' :
  wf cc -> (forall r, in_ranges r rs' <-> in_ranges r (ranges_ cc) \/ lo <= r <= hi) ->
  letters_ok 65 (upper_ (mark_letters lo hi cc)) rs' /\ letters_ok 97 (lower_ (mark_letters lo hi cc)) rs'.
Proof.
  intros [_ _ Hu Hl] Hrs. unfold mark_letters. case_decide as Hd; cbn.
  - split; [by apply (letters_ok_mark 65 _ (ranges_ cc))|by apply (letters_ok_mark 97 _ (ranges_ cc))].
  - split; intros k Hk; [rewrite Hu by done|rewrite Hl by done];
      apply bool_decide_ext; rewrite Hrs; intuition lia.
Qed.

Lemma mark_letters_same lo hi cc :
  ranges_ (mark_letters lo hi cc) = ranges_ cc /\ nrunes_ (mark_letters lo hi cc) = nrunes_ cc.
Proof. unfold mark_letters. by case_decide. Qed.

Lemma covered_spec lo hi cc : separated (ranges_ cc) -> lo <= hi ->
  if covered lo hi cc then forall r, lo <= r <= hi -> in_ranges r (ranges_ cc)
  else exists r, lo <= r <= hi /\ ~ in_ranges r (ranges_ cc).
Proof.
  intros Hs Hle. unfold covered. destruct (find (ranges_ cc) (lo, lo)) as [[i it]|] eqn:E.
  - apply find_one in E as [Ht [H1 H2]]; [|done]. case_bool_decide as Hd.
    + intros r Hr. apply (in_ranges_taken _ _ _ _ Ht). left. unfold in_range. lia.
    + exists (it.2 + 1). split; [lia|]. intros [[? ?]|H]%(in_ranges_taken _ _ _ _ Ht); [lia|].
      apply Exists_exists in H as (x&Hx&[Hx1 Hx2]).
      destruct (taken_apart _ _ _ Ht x Hx) as [Hb|Hb]; unfold before in Hb; lia.
  - exists lo. split; [lia|]. by apply find_none_one.
Qed.

(** [AddRange] on a class. *)
Lemma AddRange_ok lo hi cc : wf cc -> 0 <= lo -> hi <= Runemax ->
  let '(cc', b) := AddRange lo hi cc in
  wf cc' /\ (forall r, in_ranges r (ranges_ cc') <-> in_ranges r (ranges_ cc) \/ lo <= r <= hi)
  /\ (b = true <-> exists r, lo <= r <= hi /\ ~ in_ranges r (ranges_ cc)).
Proof.
  intros Hwf Hlo Hhi. unfold AddRange. case_decide.
  { split; [done|]. split; [intros r; intuition lia|]. split; [done|]. intros (r&?&_). lia. }
  destruct (mark_letters_same lo hi cc) as [Er En].
  assert (Hcov : covered lo hi (mark_letters lo hi cc) = covered lo hi cc) by (unfold covered; by rewrite Er).
  rewrite Hcov. pose proof (covered_spec lo hi cc (wf_sep _ Hwf) ltac:(lia)) as Hc.
  destruct (covered lo hi cc).
  { assert (Hall : forall r, in_ranges r (ranges_ cc) <-> in_ranges r (ranges_ cc) \/ lo <= r <= hi).
    { intros r. split; [auto|]. intros [?|?]; [done|]. by apply Hc. }
    split_and!; rewrite ?Er; [|done|].
    - destruct (mark_letters_ok lo hi cc _ Hwf Hall) as [Hu Hl].
      split; rewrite ?Er, ?En; [apply Hwf|apply Hwf|done|done].
    - split; [done|]. intros (r&Hr&Hn). by destruct Hn; apply Hc. }
  assert (Hm : joined lo hi cc lo hi cc) by (apply joined_refl; [apply Hwf|unfold range_ok; simpl; lia]).
  pose proof (join_left_spec lo hi (mark_letters lo hi cc)) as H1. rewrite Er in H1.
  destruct (join_left lo hi (mark_letters lo hi cc)) as [[lo1 hi1] cc1].
  destruct H1 as [J1 L1]; [apply Hwf|apply Hm|].
  pose proof (join_right_spec lo1 hi1 cc1 (joined_sep _ _ _ _ _ _ J1) (joined_range _ _ _ _ _ _ J1) L1) as H2.
  destruct (join_right hi1 cc1) as [hi2 cc2]. destruct H2 as (J2&L2&R2).
  destruct (erase_between_spec lo1 hi2 (length (ranges_ cc2)) cc2) as [J3 Ha];
    [apply J2|apply J2|done|done|done|].
  set (cc3 := erase_between _ _ _ _) in *.
  pose proof (joined_trans _ _ _ _ _ _ _ _ _ J1 (joined_trans _ _ _ _ _ _ _ _ _ J2 J3)) as [S1 S2 S3 S4 S5 S6].
  rewrite Er, En in *.
  destruct (insert_range_spec (lo1, hi2) (ranges_ cc3) S1 S2 Ha) as [I1 I2].
  assert (Hall : forall r, in_ranges r (insert_range (lo1, hi2) (ranges_ cc3))
    <-> in_ranges r (ranges_ cc) \/ lo <= r <= hi).
  { intros r. rewrite I2, in_ranges_cons, <- S3. unfold in_range. simpl. tauto. }
  destruct (mark_letters_ok lo hi cc _ Hwf Hall) as [Hu Hl]. split_and!.
  - split; cbn; [done| |by rewrite S5|by rewrite S6].
    rewrite I2, runes_count_cons. rewrite (wf_count _ Hwf) in S4. cbn [fst snd]. lia.
  - exact Hall.
  - by split.
Qed.

(** ** Adding a class, testing, copying *)

Lemma AddRanges_ok rs : forall cc added, wf cc -> separated rs ->
  let '(cc', b) := AddRanges rs cc added in
  wf cc' /\ (forall r, in_ranges r (ranges_ cc') <-> in_ranges r (ranges_ cc) \/ in_ranges r rs)
  /\ (b = true <-> added = true \/ exists r, in_ranges r rs /\ ~ in_ranges r (ranges_ cc)).
Proof.
  induction rs as [|it rs IH]; intros cc added Hwf [Hs Hf]; cbn [AddRanges].
  { split; [done|]. split; [intros r; rewrite in_ranges_nil; tauto|].
    split; [auto|]. intros [?|(r&[]%in_ranges_nil&_)]. done. }
  apply StronglySorted_cons in Hs as [_ Hs]. apply Forall_cons in Hf as [(H1&_&H3) Hf].
  pose proof (AddRange_ok it.1 it.2 cc Hwf H1 H3) as H. destruct (AddRange it.1 it.2 cc) as [cc1 b1].
  destruct H as (Hwf1&Hin1&Hb1). specialize (IH cc1 (added || b1) Hwf1 (conj Hs Hf)).
  destruct (AddRanges rs cc1 (added || b1)) as [cc2 b2]. destruct IH as (Hwf2&Hin2&Hb2).
  split; [done|]. split.
  - intros r. rewrite Hin2, Hin1, in_ranges_cons. unfold in_range. tauto.
  - rewrite Hb2, orb_true_iff, Hb1. setoid_rewrite in_ranges_cons. setoid_rewrite Hin1. unfold in_range. split.
    + intros [[?|(r&?&?)]|(r&?&?)]; [by left|right; exists r; tauto|right; exists r; tauto].
    + intros [?|(r&[Hr|Hr]&?)]; [by left; left|left; right; by exists r|].
      destruct (decide (it.1 <= r <= it.2)); [left; right; by exists r|right; exists r; tauto].
Qed.

Lemma Contains_ok r cc : wf cc -> Contains r cc = true <-> in_ranges r (ranges_ cc).
Proof. intros Hwf. unfold Contains. rewrite bool_decide_eq_true. apply find_is_Some, Hwf. Qed.

Lemma AlphaMask_bit k : 0 <= k -> Z.testbit AlphaMask k = bool_decide (k < 26).
Proof. intros Hk. by apply ones_bit. Qed.

Lemma FoldsASCII_ok cc : wf cc ->
  FoldsASCII cc = true <-> forall k, 0 <= k < 26 -> in_ranges (65 + k) (ranges_ cc) <-> in_ranges (97 + k) (ranges_ cc).
Proof.
  intros Hwf. unfold FoldsASCII. rewrite bool_decide_eq_true. split.
  - intros H k Hk. apply (f_equal (fun z => Z.testbit z k)) in H.
    rewrite Z.land_spec, Z.lxor_spec, AlphaMask_bit, Z.bits_0, (wf_upper _ Hwf), (wf_lower _ Hwf) in H by lia.
    repeat case_bool_decide; simpl in H; try done; intuition lia.
  - intros H. apply Z.bits_inj'. intros k Hk.
    rewrite Z.land_spec, Z.lxor_spec, AlphaMask_bit, Z.bits_0, (wf_upper _ Hwf), (wf_lower _ Hwf) by lia.
    destruct (decide (k < 26)) as [Hk'|Hk'].
    + specialize (H k (conj Hk Hk')). repeat case_bool_decide; try done; tauto.
    + rewrite (bool_decide_false (k < 26)) by done. apply andb_false_r.
Qed.

(** Inserting the ranges of a sorted list one by one gives the list. *)
Lemma insert_last x rs : (forall y, y ∈ rs -> y.2 < x.1) -> insert_range x rs = rs ++ [x].
Proof.
  induction rs as [|y rs IH]; intros H; [done|]. cbn [insert_range].
  rewrite decide_True by (apply H; by left). simpl. rewrite IH; [done|]. intros z Hz. apply H. by right.
Qed.

Lemma insert_all rs : forall acc, StronglySorted before (acc ++ rs) ->
  foldl (fun rs it => insert_range it rs) acc rs = acc ++ rs.
Proof.
  induction rs as [|x rs IH]; intros acc H; simpl; [by rewrite app_nil_r|].
  rewrite insert_last.
  - rewrite IH; [by rewrite <- app_assoc|]. by rewrite <- app_assoc.
  - intros y Hy. apply StronglySorted_app in H as [H _]. specialize (H y x Hy ltac:(by left)). unfold before in H. lia.
Qed.

Lemma Copy_ok cc : wf cc -> Copy cc = cc.
Proof.
  intros [[Hs _] _ _ _]. unfold Copy. rewrite insert_all by done. by destruct cc.
Qed.

(** ** The complement *)

Lemma gaps_ok rs : forall nextlo, separated rs -> 0 <= nextlo <= Runemax + 1 -> (forall x, x ∈ rs -> nextlo < x.1) ->
  separated (gaps nextlo rs) /\ (forall x, x ∈ gaps nextlo rs -> nextlo <= x.1)
  /\ (forall r, in_ranges r (gaps nextlo rs) <-> nextlo <= r <= Runemax /\ ~ in_ranges r rs)
  /\ count (gaps nextlo rs) = Runemax + 1 - nextlo - count rs.
Proof.
  induction rs as [|it rs IH]; intros nextlo [Hs Hf] Hn Hx; cbn [gaps].
  - case_decide.
    + split_and!.
      * split; [by repeat constructor|]. apply Forall_singleton. unfold range_ok. simpl. lia.
      * intros x ->%list_elem_of_singleton. simpl. lia.
      * intros r. rewrite in_ranges_cons, !in_ranges_nil. unfold in_range. simpl. tauto.
      * rewrite runes_count_cons. simpl. lia.
    + split_and!; [by split; constructor|by intros x ?%not_elem_of_nil| |simpl; lia].
      intros r. rewrite in_ranges_nil. lia.
  - apply StronglySorted_cons in Hs as [Ha Hs]. apply Forall_cons in Hf as [(H1&H2&H3) Hf].
    rewrite Forall_forall in Ha. pose proof (Hx it ltac:(by left)) as Hit.
    destruct (IH (it.2 + 1)) as ([I1 I2]&I3&I4&I5); [done|lia|exact Ha|].
    split_and!.
    + split; [|constructor; [unfold range_ok; simpl; lia|done]]. apply StronglySorted_cons. split; [|done].
      apply Forall_forall. intros x Hx'%I3. unfold before. simpl. lia.
    + intros x [->|Hx']%elem_of_cons; [simpl; lia|]. apply I3 in Hx'. lia.
    + intros r. rewrite !in_ranges_cons, I4. unfold in_range. simpl. split.
      * intros [?|[? ?]]; [|by split; [lia|intros [?|?]; [lia|done]]].
        split; [lia|]. intros [?|Hr]; [lia|]. apply Exists_exists in Hr as (x&Hx'&[? ?]).
        specialize (Ha x Hx'). unfold before in Ha. lia.
      * intros [? Hno]. destruct (decide (r <= it.1 - 1)); [left; lia|right]. split; [|tauto].
        destruct (decide (r <= it.2)); [|lia]. exfalso. apply Hno. left. lia.
    + rewrite !runes_count_cons, I5. simpl. lia.
Qed.

Lemma negated_ok rs : separated rs ->
  separated (negated rs) /\ (forall r, in_ranges r (negated rs) <-> 0 <= r <= Runemax /\ ~ in_ranges r rs)
  /\ count (negated rs) = Runemax + 1 - count rs.
Proof.
  intros Hsep. pose proof Hsep as [Hs Hf]. destruct rs as [|it rs]; cbn [negated].
  - split_and!; [|intros r|done].
    + split; [by repeat constructor|]. apply Forall_singleton. unfold range_ok, Runemax. simpl. lia.
    + rewrite in_ranges_cons, !in_ranges_nil. unfold in_range. simpl. tauto.
  - apply StronglySorted_cons in Hs as [Ha Hs]. apply Forall_cons in Hf as [(H1&H2&H3) Hf].
    rewrite Forall_forall in Ha. case_decide.
    + destruct (gaps_ok rs (it.2 + 1)) as (I1&_&I3&I4); [done|lia|exact Ha|].
      split_and!; [done| |rewrite I4, runes_count_cons; lia].
      intros r. rewrite I3, in_ranges_cons. unfold in_range. split; [intros [? ?]; split; [lia|intros [?|?]; [lia|done]]|].
      intros [? Hno]. split; [|tauto]. destruct (decide (r <= it.2)); [|lia]. exfalso. apply Hno. left. lia.
    + destruct (gaps_ok (it :: rs) 0) as (I1&_&I3&I4); [done|unfold Runemax; lia| |].
      { intros x [->|Hx]%elem_of_cons; [lia|]. specialize (Ha x Hx). unfold before in Ha. lia. }
      split_and!; [done|done|rewrite I4; lia].
Qed.

Lemma letters_ok_negate first letters rs rs' :
  0 <= first -> first + 25 <= Runemax ->
  letters_ok first letters rs -> (forall r, in_ranges r rs' <-> 0 <= r <= Runemax /\ ~ in_ranges r rs) ->
  letters_ok first (Z.land AlphaMask (Z.lnot letters)) rs'.
Proof.
  intros H0 H1 H Hrs k Hk. rewrite Z.land_spec, Z.lnot_spec, AlphaMask_bit, H by done.
  rewrite <- bool_decide_not, <- bool_decide_and. apply bool_decide_ext. rewrite Hrs. intuition lia.
Qed.

Lemma Negate_ok cc : wf cc ->
  wf (Negate cc) /\ forall r, in_ranges r (ranges_ (Negate cc)) <-> 0 <= r <= Runemax /\ ~ in_ranges r (ranges_ cc).
Proof.
  intros [Hs Hc Hu Hl]. destruct (negated_ok _ Hs) as (I1&I2&I3).
  assert (E : ranges_ (Negate cc) = negated (ranges_ cc)) by (cbn; rewrite insert_all; [done|apply I1]).
  rewrite E. split; [|done]. split; rewrite E; [done|cbn; lia| |].
  - by apply (letters_ok_negate 65 _ (ranges_ cc)).
  - by apply (letters_ok_negate 97 _ (ranges_ cc)).
Qed.

Lemma count_nonneg rs : Forall range_ok rs -> 0 <= count rs /\ (count rs = 0 <-> rs = []).
Proof.
  induction 1 as [|it rs (H1&H2&H3) _ [IH1 IH2]]; [done|]. rewrite runes_count_cons. split; [lia|]. split; [lia|done].
Qed.

Lemma empty_ok cc : wf cc -> empty cc = true <-> forall r, ~ in_ranges r (ranges_ cc).
Proof.
  intros [[Hs Hf] Hc _ _]. unfold empty. rewrite bool_decide_eq_true, Hc, (proj2 (count_nonneg _ Hf)). split.
  - intros ->. by intros r []%in_ranges_nil.
  - intros H. destruct (ranges_ cc) as [|it rs]; [done|]. destruct (H it.1). apply in_ranges_cons. left.
    apply Forall_cons in Hf as [(_&?&_) _]. unfold in_range. lia.
Qed.

Lemma full_ok cc : wf cc -> full cc = true <-> forall r, 0 <= r <= Runemax -> in_ranges r (ranges_ cc).
Proof.
  intros Hwf. destruct (Negate_ok cc Hwf) as [Hn Hin]. pose proof (empty_ok _ Hn) as He.
  unfold full. unfold empty in He. rewrite bool_decide_eq_true in *. cbn [nrunes_ Negate] in He.
  assert (nrunes_ cc = Runemax + 1 <-> Runemax + 1 - nrunes_ cc = 0) as -> by lia. rewrite He.
  setoid_rewrite Hin. split; [|naive_solver].
  intros H r Hr. destruct (decide (in_ranges r (ranges_ cc))); [done|]. by destruct (H r).
Qed.

(** ** Removing the runes above another *)

(** The ranges that reach above [r]. *)
Definition reaching (r : Z) (rs : list RuneRange) : list RuneRange := filter (fun it => r < it.2) rs.

Lemma remove_above_ok r : forall fuel cc,
  separated (ranges_ cc) -> r < Runemax -> (length (reaching r (ranges_ cc)) < fuel)%nat ->
  let cc' := remove_above_loop fuel r cc in
  separated (ranges_ cc') /\ (forall x, in_ranges x (ranges_ cc') <-> in_ranges x (ranges_ cc) /\ x <= r)
  /\ nrunes_ cc' - count (ranges_ cc') = nrunes_ cc - count (ranges_ cc)
  /\ upper_ cc' = upper_ cc /\ lower_ cc' = lower_ cc.
Proof.
  induction fuel as [|fuel IH]; intros cc Hs Hr Hf; [lia|]. cbn [remove_above_loop].
  destruct (find (ranges_ cc) (r + 1, Runemax)) as [[i rr]|] eqn:E.
  2: { split; [done|]. split; [|done]. intros x. split; [|tauto]. intros Hx. split; [done|].
       apply Exists_exists in Hx as (it&Hit&[? ?]). destruct (find_nothing _ _ E it Hit); simpl in *; [lia|].
       destruct Hs as [_ Hs]. rewrite Forall_forall in Hs. destruct (Hs it Hit) as (_&?&?). lia. }
  apply find_taken_out in E as [Ht [H1 H2]]; [|done]. simpl in H1, H2.
  destruct (taken_ok _ _ _ Ht) as (Ho1&Ho2&Ho3).
  assert (Hlen : (length (reaching r (delete i (ranges_ cc))) < fuel)%nat).
  { unfold reaching in *. rewrite (taken_perm _ _ _ Ht), filter_cons_True in Hf by lia. simpl in Hf. lia. }
  assert (Hin : forall x, in_ranges x (ranges_ cc) <-> in_range x rr \/ in_ranges x (delete i (ranges_ cc)))
    by (intros x; apply (in_ranges_taken _ _ _ x Ht)).
  pose proof (count_taken _ _ _ Ht) as Hcount. pose proof (taken_sep _ _ _ Ht) as Hsep.
  set (cc1 := erase_counted (i, rr) cc).
  assert (Hn1 : nrunes_ cc1 = nrunes_ cc - (rr.2 - rr.1 + 1)) by done. change (delete i (ranges_ cc)) with (ranges_ cc1) in *.
  case_decide as Hd.
  - destruct (insert_range_spec (rr.1, r) (ranges_ cc1)) as [I1 I2]; [done|unfold range_ok; simpl; lia| |].
    { intros y Hy. pose proof (taken_apart _ _ _ Ht y Hy) as Ha. unfold before in *. simpl. lia. }
    set (cc2 := set_nrunes _ _). assert (Hn2 : nrunes_ cc2 = nrunes_ cc1 + (r - rr.1 + 1)) by done.
    change (insert_range (rr.1, r) (ranges_ cc1)) with (ranges_ cc2) in I1, I2.
    destruct (IH cc2) as (J1&J2&J3&J4&J5); [done|done| |].
    + unfold reaching in *. rewrite I2, filter_cons_False by (simpl; lia). done.
    + split; [done|]. split; [|split; [|done]].
      * intros x. rewrite J2, I2, in_ranges_cons, Hin. unfold in_range. simpl. intuition lia.
      * rewrite I2, runes_count_cons in J3. cbn [fst snd] in *. lia.
  - destruct (IH cc1) as (J1&J2&J3&J4&J5); [done|done|done|].
    split; [done|]. split; [|split; [|done]].
    + intros x. rewrite J2, Hin. unfold in_range. intuition lia.
    + lia.
Qed.

Lemma letters_ok_up_to first r letters rs rs' :
  letters_ok first letters rs -> (forall x, in_ranges x rs' <-> in_ranges x rs /\ x <= r) ->
  letters_ok first (letters_up_to first (first + 25) r letters) rs'.
Proof.
  intros H Hrs k Hk. unfold letters_up_to. case_decide as H1; [case_decide as H2|].
  - rewrite Z.bits_0. symmetry. apply bool_decide_eq_false. rewrite Hrs. lia.
  - rewrite Z.land_spec, Z.shiftr_spec, AlphaMask_bit, H by lia. rewrite <- bool_decide_and.
    apply bool_decide_ext. rewrite Hrs. intuition lia.
  - rewrite H by done. apply bool_decide_ext. rewrite Hrs. intuition lia.
Qed.

Lemma RemoveAbove_ok r cc : wf cc ->
  wf (RemoveAbove r cc) /\ forall x, in_ranges x (ranges_ (RemoveAbove r cc)) <-> in_ranges x (ranges_ cc) /\ x <= r.
Proof.
  intros [Hs Hc Hu Hl]. unfold RemoveAbove. case_decide as Hr.
  - split; [done|]. intros x. split; [|tauto]. intros Hx. split; [done|].
    apply Exists_exists in Hx as (it&Hit&[_ ?]). destruct Hs as [_ Hs]. rewrite Forall_forall in Hs.
    destruct (Hs it Hit) as (_&_&?). lia.
  - match goal with |- context [remove_above_loop ?f r ?c] =>
      destruct (remove_above_ok r f c) as (J1&J2&J3&J4&J5) end;
      [done|lia|cbn; unfold reaching; pose proof (length_filter (fun it : RuneRange => r < it.2) (ranges_ cc)); lia|].
    cbn [ranges_ nrunes_ set_upper set_lower] in *. split; [|done]. split; [done|lia| |].
    + rewrite J4. by apply (letters_ok_up_to 65 r _ (ranges_ cc)).
    + rewrite J5. by apply (letters_ok_up_to 97 r _ (ranges_ cc)).
Qed.

(** ** Properties *)

Lemma Contains_decide r cc : wf cc -> Contains r cc = bool_decide (in_ranges r (ranges_ cc)).
Proof. intros H. apply eq_bool_prop_intro. rewrite !Is_true_true, Contains_ok, bool_decide_eq_true by done. done. Qed.

(** C20: a [CharClass] is a set of code points: its operations keep the ranges
    sorted, apart and counted and the two bitmaps of letters right; [AddRange]
    adds the runes from [lo] to [hi] and says whether there were new ones,
    [AddCharClass] is the union, [Negate] the complement, [RemoveAbove] cuts
    off what is above [r], [Copy] gives the same class. *)
Theorem class_operations cc cc' lo hi r :
  wf cc -> wf cc' -> 0 <= lo -> hi <= Runemax ->
  wf (AddRange lo hi cc).1 /\ wf (AddCharClass cc' cc).1 /\ wf (Negate cc) /\ wf (RemoveAbove r cc)
  /\ Copy cc = cc
  /\ (forall x, Contains x (AddRange lo hi cc).1 = Contains x cc || bool_decide (lo <= x <= hi))
  /\ ((AddRange lo hi cc).2 = true <-> exists x, lo <= x <= hi /\ Contains x cc = false)
  /\ (forall x, Contains x (AddCharClass cc' cc).1 = Contains x cc || Contains x cc')
  /\ ((AddCharClass cc' cc).2 = true <-> exists x, Contains x cc' = true /\ Contains x cc = false)
  /\ (forall x, Contains x (Negate cc) = bool_decide (0 <= x <= Runemax) && negb (Contains x cc))
  /\ (forall x, Contains x (RemoveAbove r cc) = Contains x cc && bool_decide (x <= r)).
Proof.
  intros Hcc Hcc' Hlo Hhi.
  pose proof (AddRange_ok lo hi cc Hcc Hlo Hhi) as Ha.
  pose proof (AddRanges_ok (ranges_ cc') cc false Hcc (wf_sep _ Hcc')) as Hb.
  destruct (Negate_ok cc Hcc) as [Hn1 Hn2]. destruct (RemoveAbove_ok r cc Hcc) as [Hr1 Hr2].
  unfold AddCharClass. destruct (AddRange lo hi cc) as [c1 b1], (AddRanges _ cc false) as [c2 b2].
  destruct Ha as (A1&A2&A3), Hb as (B1&B2&B3). cbn [fst snd].
  split_and!; try done; [by apply Copy_ok|..].
  - intros x. rewrite !Contains_decide, <- bool_decide_or by done. by apply bool_decide_ext.
  - rewrite A3. setoid_rewrite (Contains_decide _ cc Hcc). by setoid_rewrite bool_decide_eq_false.
  - intros x. rewrite !Contains_decide, <- bool_decide_or by done. by apply bool_decide_ext.
  - rewrite B3. setoid_rewrite (Contains_decide _ cc Hcc). setoid_rewrite (Contains_decide _ cc' Hcc').
    setoid_rewrite bool_decide_eq_false. setoid_rewrite bool_decide_eq_true. naive_solver.
  - intros x. rewrite !Contains_decide, <- bool_decide_not, <- bool_decide_and by done. by apply bool_decide_ext.
  - intros x. rewrite !Contains_decide, <- bool_decide_and by done. by apply bool_decide_ext.
Qed.

(** What a [CharClass] is asked: whether it has a rune, none, all of them,
    and whether it has the same letters in upper and in lower case. *)
Theorem class_queries cc : wf cc ->
  (empty cc = true <-> forall x, Contains x cc = false)
  /\ (full cc = true <-> forall x, 0 <= x <= Runemax -> Contains x cc = true)
  /\ (FoldsASCII cc = true <-> forall k, 0 <= k < 26 -> Contains (65 + k) cc = Contains (97 + k) cc)
  /\ size cc = count (ranges_ cc).
Proof.
  intros Hcc. rewrite empty_ok, full_ok, FoldsASCII_ok by done.
  setoid_rewrite (Contains_decide _ cc Hcc). setoid_rewrite bool_decide_eq_false. setoid_rewrite bool_decide_eq_true.
  split_and!; [done|done| |apply Hcc].
  split; intros H k Hk; specialize (H k Hk); [by apply bool_decide_ext|].
  by rewrite <- (bool_decide_eq_true (in_ranges (65 + k) _)), H, bool_decide_eq_true.
Qed.

(** [a-z] with [A-Z], and the digits. *)
Definition some_letters : CharClass := (AddRange 65 90 (AddRange 97 122 new_CharClass).1).1.
Definition some_digits : CharClass := (AddRange 48 57 new_CharClass).1.

Lemma AddRange_wf lo hi cc : wf cc -> 0 <= lo -> hi <= Runemax -> wf (AddRange lo hi cc).1.
Proof. intros H H1 H2. pose proof (AddRange_ok lo hi cc H H1 H2). by destruct (AddRange lo hi cc) as [cc' b]; destruct H0. Qed.

Lemma some_classes_wf : wf some_letters /\ wf some_digits.
Proof. split; repeat apply AddRange_wf; done || apply new_CharClass_wf. Qed.

Lemma class_operations_witness :
  ranges_ (AddRange 58 64 some_letters).1 = [(58, 90); (97, 122)]
  /\ wf (AddRange 58 64 some_letters).1 /\ wf (AddCharClass some_digits some_letters).1
  /\ wf (Negate some_letters) /\ wf (RemoveAbove 99 some_letters)
  /\ Copy some_letters = some_letters
  /\ (forall x, Contains x (AddRange 58 64 some_letters).1 = Contains x some_letters || bool_decide (58 <= x <= 64))
  /\ ((AddRange 58 64 some_letters).2 = true <-> exists x, 58 <= x <= 64 /\ Contains x some_letters = false)
  /\ (forall x, Contains x (AddCharClass some_digits some_letters).1 = Contains x some_letters || Contains x some_digits)
  /\ ((AddCharClass some_digits some_letters).2 = true <-> exists x, Contains x some_digits = true /\ Contains x some_letters = false)
  /\ (forall x, Contains x (Negate some_letters) = bool_decide (0 <= x <= Runemax) && negb (Contains x some_letters))
  /\ (forall x, Contains x (RemoveAbove 99 some_letters) = Contains x some_letters && bool_decide (x <= 99)).
Proof.
  split; [by vm_compute|]. destruct some_classes_wf.
  by apply (class_operations some_letters some_digits 58 64 99).
Defined.

Lemma class_queries_witness :
  (empty some_letters = true <-> forall x, Contains x some_letters = false)
  /\ (full some_letters = true <-> forall x, 0 <= x <= Runemax -> Contains x some_letters = true)
  /\ (FoldsASCII some_letters = true <-> forall k, 0 <= k < 26 -> Contains (65 + k) some_letters = Contains (97 + k) some_letters)
  /\ size some_letters = count (ranges_ some_letters).
Proof. apply (class_queries some_letters), some_classes_wf. Defined.
