(* ===== verification/Regexp.v ===== *)
(** * Regular expressions: src/libs/re2/src/re2/regexp.h and regexp.cc

    A [Regexp] is a tree; the arguments of an operator are those of its
    constructor.  Where the library shares a node between several parents the
    tree has it several times: reference counts are not modelled. *)

From S2P Require Import Prelude Rune CharClass.

#[local] Open Scope Z_scope.

(** ** Data *)

(** [RegexpOp], with [rune_], [runes_], [min_] and [max_], [cap_] and [name_],
    [cc_]. *)
Inductive RegexpOp :=
| kRegexpNoMatch
| kRegexpEmptyMatch
| kRegexpLiteral (rune : Z)
| kRegexpLiteralString (runes : list Z)
| kRegexpConcat
| kRegexpAlternate
| kRegexpStar
| kRegexpPlus
| kRegexpQuest
| kRegexpRepeat (min max : Z)
| kRegexpCapture (cap : Z) (name : option bytes)
| kRegexpAnyChar
| kRegexpAnyByte
| kRegexpBeginLine
| kRegexpEndLine
| kRegexpWordBoundary
| kRegexpNoWordBoundary
| kRegexpBeginText
| kRegexpEndText
| kRegexpCharClass (cc : CharClass).

(** [op_], [parse_flags_], [simple_] and [sub_]. *)
Inductive Regexp :=
| Re (op : RegexpOp) (flags : Z) (simple : bool) (subs : list Regexp).

Definition op_ (re : Regexp) : RegexpOp := let 'Re op _ _ _ := re in op.
Definition parse_flags_ (re : Regexp) : Z := let 'Re _ f _ _ := re in f.
Definition simple_ (re : Regexp) : bool := let 'Re _ _ s _ := re in s.
Definition sub_ (re : Regexp) : list Regexp := let 'Re _ _ _ subs := re in subs.

Definition set_simple (b : bool) (re : Regexp) : Regexp := let 'Re op f _ subs := re in Re op f b subs.

(** [ParseFlags]. *)
Definition FoldCase : Z := Z.shiftl 1 0.
Definition Latin1 : Z := Z.shiftl 1 5.
Definition NonGreedy : Z := Z.shiftl 1 6.

(** A bit of the flags. *)
Definition flag (flags bit : Z) : bool := bool_decide (Z.land flags bit <> 0).

#[export] Instance CharClass_eq_dec : EqDecision CharClass.
Proof. solve_decision. Defined.
#[export] Instance RegexpOp_eq_dec : EqDecision RegexpOp.
Proof. solve_decision. Defined.

(** Induction that goes into the children. *)
Fixpoint Regexp_rec_subs (P : Regexp -> Prop)
    (H : forall op f s subs, Forall P subs -> P (Re op f s subs)) (re : Regexp) : P re :=
  let 'Re op f s subs := re in
  H op f s subs
    ((fix go (l : list Regexp) : Forall P l :=
        match l with [] => Forall_nil_2 P | r :: l' => Forall_cons_2 P r l' (Regexp_rec_subs P H r) (go l') end) subs).

(** How many nodes. *)
Fixpoint nodes (re : Regexp) : nat :=
  let 'Re _ _ _ subs := re in
  S ((fix go (l : list Regexp) : nat := match l with [] => O | r :: l' => (nodes r + go l')%nat end) subs).

(** ** Construction *)

(** [new Regexp(op, flags)] with its children. *)
Definition new_Regexp (op : RegexpOp) (flags : Z) (subs : list Regexp) : Regexp := Re op flags false subs.

Definition is_Plus (op : RegexpOp) : bool := match op with kRegexpPlus => true | _ => false end.
Definition is_Star (op : RegexpOp) : bool := match op with kRegexpStar => true | _ => false end.
Definition is_Quest (op : RegexpOp) : bool := match op with kRegexpQuest => true | _ => false end.

Definition Plus (sub : Regexp) (flags : Z) : Regexp :=
  if is_Plus (op_ sub) && bool_decide (parse_flags_ sub = flags) then sub
  else new_Regexp kRegexpPlus flags [sub].
Definition Star (sub : Regexp) (flags : Z) : Regexp :=
  if is_Star (op_ sub) && bool_decide (parse_flags_ sub = flags) then sub
  else new_Regexp kRegexpStar flags [sub].
Definition Quest (sub : Regexp) (flags : Z) : Regexp :=
  if is_Quest (op_ sub) && bool_decide (parse_flags_ sub = flags) then sub
  else new_Regexp kRegexpQuest flags [sub].

Definition Concat (subs : list Regexp) (flags : Z) : Regexp := new_Regexp kRegexpConcat flags subs.
Definition Alternate (subs : list Regexp) (flags : Z) : Regexp := new_Regexp kRegexpAlternate flags subs.
Definition Capture (sub : Regexp) (flags : Z) (cap : Z) : Regexp :=
  new_Regexp (kRegexpCapture cap None) flags [sub].
Definition Repeat (sub : Regexp) (flags : Z) (min max : Z) : Regexp :=
  new_Regexp (kRegexpRepeat min max) flags [sub].
Definition NewLiteral (rune : Z) (flags : Z) : Regexp := new_Regexp (kRegexpLiteral rune) flags [].
Definition NewCharClass (cc : CharClass) (flags : Z) : Regexp := new_Regexp (kRegexpCharClass cc) flags [].
Definition LiteralString (runes : list Z) (flags : Z) : Regexp :=
  match runes with
  | [] => new_Regexp kRegexpEmptyMatch flags []
  | [rune] => NewLiteral rune flags
  | _ => new_Regexp (kRegexpLiteralString runes) flags []
  end.

(** ** The prefix a match must start with *)

(** The bytes of a rune of a prefix. *)
Definition prefix_rune (latin1 : bool) (r : Z) : bytes :=
  if latin1 || bool_decide (r < Runeself) then [char_of_Z r] else runetochar r.

Fixpoint skip_anchors (subs : list Regexp) : list Regexp :=
  match subs with
  | Re kRegexpBeginText _ _ _ :: subs' => skip_anchors subs'
  | _ => subs
  end.

(** [RequiredPrefix]: the prefix, whether its case is folded, and the rest. *)
Definition RequiredPrefix (re : Regexp) : option (bytes * bool * Regexp) :=
  match op_ re with
  | kRegexpConcat =>
      let rest := skip_anchors (sub_ re) in
      if decide (length rest = length (sub_ re)) then None else
      let suffix l := match l with
        | [] => new_Regexp kRegexpEmptyMatch (parse_flags_ re) []
        | _ => Concat l (parse_flags_ re) end in
      match rest with
      | [] => Some ([], false, suffix [])
      | sub :: rest' =>
          let latin1 := flag (parse_flags_ sub) Latin1 in
          let fold := flag (parse_flags_ sub) FoldCase in
          match op_ sub with
          | kRegexpLiteralString runes => Some (mjoin (prefix_rune latin1 <$> runes), fold, suffix rest')
          | kRegexpLiteral r => Some (prefix_rune latin1 r, fold, suffix rest')
          | _ => None
          end
      end
  | _ => None
  end.
