(* ===== verification/Walker.v ===== *)
(** * Traversals of regular expressions: src/libs/re2/src/re2/walker-inl.h

    The traversal keeps its own stack instead of recurring, and stops early
    when it has visited too many nodes.  It gives what the recursion gives. *)

From S2P Require Import Prelude Rune CharClass Regexp.

#[local] Open Scope Z_scope.

(** ** Calls of a walker's methods: they change its state and may fail *)

Definition comp (S A : Type) : Type := S -> outcome (A * S).

#[export] Instance comp_ret {S} : MRet (comp S) := fun A a s => Ret (a, s).
#[export] Instance comp_bind {S} : MBind (comp S) := fun A B f m s =>
  match m s with Ret (a, s') => f a s' | Throw e => Throw e end.

Definition comp_throw {S A} (f : fault) : comp S A := fun _ => Throw f.
Definition comp_get {S} : comp S S := fun s => Ret (s, s).
Definition comp_put {S} (s : S) : comp S unit := fun _ => Ret ((), s).
Definition lift {S A} (o : outcome A) : comp S A := fun s =>
  match o with Ret a => Ret (a, s) | Throw e => Throw e end.

(** The call returns, with a value and a state for which [Q] holds. *)
Definition wp {S A} (m : comp S A) (Q : A -> S -> Prop) (s : S) : Prop :=
  match m s with Ret (a, s') => Q a s' | Throw _ => False end.

Lemma call_bind {S A B} (m : comp S A) (k : A -> comp S B) Q s :
  wp m (fun a s' => wp (k a) Q s') s -> wp (m ≫= k) Q s.
Proof. unfold wp, mbind, comp_bind. by destruct (m s) as [[a s']|]. Qed.

Lemma call_ret {S A} (a : A) (Q : A -> S -> Prop) s : Q a s -> wp (mret a) Q s.
Proof. done. Qed.

Lemma call_get {S} (Q : S -> S -> Prop) s : Q s s -> wp comp_get Q s.
Proof. done. Qed.

Lemma call_run {S A} (m : comp S A) (Q : A -> S -> Prop) s : wp m Q s -> exists a s', m s = Ret (a, s') /\ Q a s'.
Proof. unfold wp. destruct (m s) as [[a s']|]; [|done]. by exists a, s'. Qed.

Lemma call_lift {S A} (a : A) (o : outcome A) (Q : A -> S -> Prop) s : o = Ret a -> Q a s -> wp (lift o) Q s.
Proof. unfold wp, lift. by intros ->. Qed.

Lemma call_mono {S A} (m : comp S A) (Q Q' : A -> S -> Prop) s :
  wp m Q s -> (forall a s', Q a s' -> Q' a s') -> wp m Q' s.
Proof. unfold wp. destruct (m s) as [[a s']|]; [|done]. intros H HQ. by apply HQ. Qed.

Section walker.
Context {S T : Type}.

(** The methods of a walker. *)
Variable PreVisit : Regexp -> T -> comp S (T * bool).
Variable PostVisit : Regexp -> T -> T -> list T -> comp S T.
Variable Copy : T -> comp S T.
Variable ShortVisit : Regexp -> T -> comp S T.

(** Whether children [n - 1] and [n] of a node are the same object. *)
Variable same_child : Regexp -> nat -> bool.

(** ** The traversal *)

(** [WalkState]: [progress] is None where [n] is -1, and otherwise [pre_arg]
    and the child arguments so far, whose number is [n]. *)
Record WalkState := MkWalkState {
  re : Regexp;
  parent_arg : T;
  progress : option (T * list T);
}.

(** What the loop keeps besides the stack: [max_visits_], [stopped_early_]. *)
Abbreviation budget := (Z * bool)%type.

(** The top is finished with [t]. *)
Definition pop (t : T) (stack : list WalkState) : option (list WalkState) :=
  match stack with
  | [] => None
  | s :: stack' =>
      Some (match progress s with
            | Some (pre, args) => MkWalkState (re s) (parent_arg s) (Some (pre, args ++ [t])) :: stack'
            | None => stack
            end)
  end.

Section loop.
Variable use_copy : bool.

(** The previous child's argument, where the next child is the same object. *)
Definition reused (r : Regexp) (args : list T) : option T :=
  arg ← last args; if use_copy && same_child r (length args) then Some arg else None.

(** The loop of [WalkInternal]. *)
Fixpoint walk_loop (fuel : nat) (stack : list WalkState) (b : budget) : comp S (T * budget) :=
  match fuel with
  | O => comp_throw OutOfFuel
  | Datatypes.S fuel' =>
      let finish t b stack' :=
        match pop t stack' with
        | None => mret (t, b)
        | Some stack => walk_loop fuel' stack b
        end in
      match stack with
      | [] => comp_throw BadAddress
      | s :: stack' =>
          let children pre args b :=
            match sub_ (re s) !! length args with
            | Some sub =>
                match reused (re s) args with
                | Some arg =>
                    t ← Copy arg;
                    walk_loop fuel' (MkWalkState (re s) (parent_arg s) (Some (pre, args ++ [t])) :: stack') b
                | None =>
                    walk_loop fuel' (MkWalkState sub pre None
                      :: MkWalkState (re s) (parent_arg s) (Some (pre, args)) :: stack') b
                end
            | None =>
                t ← PostVisit (re s) (parent_arg s) pre args;
                finish t b stack'
            end in
          match progress s with
          | None =>
              if decide (b.1 - 1 < 0) then
                t ← ShortVisit (re s) (parent_arg s);
                finish t (b.1 - 1, true) stack'
              else
                '(pre, stop) ← PreVisit (re s) (parent_arg s);
                if (stop : bool) then finish pre (b.1 - 1, b.2) stack'
                else children pre [] (b.1 - 1, b.2)
          | Some (pre, args) => children pre args b
          end
      end
  end.

(** ** The recursion it stands for *)

(** The children of [r] one after the other, each visited by [visit]. *)
Definition walk_children (visit : Regexp -> T -> budget -> comp S (T * budget)) (r : Regexp) (pre : T) :=
  fix go (l : list Regexp) (args : list T) (b : budget) : comp S (list T * budget) :=
    match l with
    | [] => mret (args, b)
    | sub :: l' =>
        match reused r args with
        | Some arg => t ← Copy arg; go l' (args ++ [t]) b
        | None => '(t, b') ← visit sub pre b; go l' (args ++ [t]) b'
        end
    end.

Fixpoint walk (r : Regexp) (parent : T) (b : budget) : comp S (T * budget) :=
  if decide (b.1 - 1 < 0) then t ← ShortVisit r parent; mret (t, (b.1 - 1, true)) else
  '(pre, stop) ← PreVisit r parent;
  if (stop : bool) then mret (pre, (b.1 - 1, b.2)) else
  let 'Re _ _ _ subs := r in
  '(args, b') ← walk_children walk r pre subs [] (b.1 - 1, b.2);
  t ← PostVisit r parent pre args;
  mret (t, b').

Lemma walk_unfold r parent b :
  walk r parent b =
    (if decide (b.1 - 1 < 0) then t ← ShortVisit r parent; mret (t, (b.1 - 1, true)) else
    '(pre, stop) ← PreVisit r parent;
    if (stop : bool) then mret (pre, (b.1 - 1, b.2)) else
    '(args, b') ← walk_children walk r pre (sub_ r) [] (b.1 - 1, b.2);
    t ← PostVisit r parent pre args;
    mret (t, b')).
Proof. by destruct r. Qed.

(** The loop, started on a node, gives what the recursion gives and goes on
    with what is below on the stack. *)
Definition loop_walks (r : Regexp) : Prop := forall parent stack b fuel s,
  (2 * nodes r <= fuel + 1)%nat ->
  match walk r parent b s with
  | Throw e => walk_loop fuel (MkWalkState r parent None :: stack) b s = Throw e
  | Ret (t, b', s') => exists fuel', (fuel + 1 <= fuel' + 2 * nodes r)%nat /\
      walk_loop fuel (MkWalkState r parent None :: stack) b s
      = match pop t stack with None => Ret (t, b', s') | Some stack' => walk_loop fuel' stack' b' s' end
  end.

Definition sum_nodes (l : list Regexp) : nat := foldr (fun r n => (nodes r + n)%nat) O l.

Lemma nodes_subs r : nodes r = Datatypes.S (sum_nodes (sub_ r)).
Proof. by destruct r. Qed.

Lemma loop_walks_children r parent pre stack : forall l done args b fuel s,
  Forall loop_walks l -> sub_ r = done ++ l -> length done = length args ->
  (2 * sum_nodes l < fuel)%nat ->
  match walk_children walk r pre l args b s with
  | Throw e => walk_loop fuel (MkWalkState r parent (Some (pre, args)) :: stack) b s = Throw e
  | Ret (args', b', s') => exists fuel', (fuel <= fuel' + 2 * sum_nodes l)%nat /\ (0 < fuel')%nat /\
      walk_loop fuel (MkWalkState r parent (Some (pre, args)) :: stack) b s
      = walk_loop fuel' (MkWalkState r parent (Some (pre, args')) :: stack) b' s'
      /\ length args' = length (sub_ r)
  end.
Proof.
  induction l as [|sub l IH]; intros done args b fuel s Hl Hd Hlen Hf.
  - cbn. exists fuel. rewrite app_nil_r in Hd. rewrite Hd. split_and!; [lia|lia|done|done].
  - apply Forall_cons in Hl as [Hsub Hl]. destruct fuel as [|fuel]; [lia|].
    assert (Hi : sub_ r !! length args = Some sub) by (by rewrite Hd, <- Hlen, list_lookup_middle).
    assert (Hd' : sub_ r = (done ++ [sub]) ++ l) by (by rewrite <- app_assoc).
    assert (Hn : (0 < nodes sub)%nat) by (rewrite nodes_subs; lia).
    cbn [walk_children walk_loop progress re parent_arg sum_nodes foldr] in *. rewrite Hi.
    destruct (reused r args) as [arg|].
    + unfold mbind, comp_bind. destruct (Copy arg s) as [[t s']|e]; [|done].
      specialize (IH (done ++ [sub]) (args ++ [t]) b fuel s' Hl Hd').
      rewrite !length_app in IH. specialize (IH ltac:(simpl; lia) ltac:(unfold sum_nodes; lia)).
      destruct (walk_children _ _ _ _ _ _ _) as [[[args' b'] s'']|e]; [|done].
      destruct IH as (f'&H1&H2&H3&H4). exists f'. unfold sum_nodes in *. split_and!; [lia|lia|done|done].
    + unfold mbind, comp_bind.
      specialize (Hsub pre (MkWalkState r parent (Some (pre, args)) :: stack) b fuel s ltac:(unfold sum_nodes in Hf; lia)).
      destruct (walk sub pre b s) as [[[t b'] s']|e]; [|done].
      destruct Hsub as (f1&Hf1&->). cbn [pop progress re parent_arg].
      specialize (IH (done ++ [sub]) (args ++ [t]) b' f1 s' Hl Hd').
      rewrite !length_app in IH. specialize (IH ltac:(simpl; lia) ltac:(unfold sum_nodes in *; lia)).
      destruct (walk_children _ _ _ _ _ _ _) as [[[args' b''] s'']|e]; [|done].
      destruct IH as (f'&H1&H2&H3&H4). exists f'. unfold sum_nodes in *. split_and!; [lia|lia|done|done].
Qed.

(** What is done with the value of a finished node. *)
Definition finish (fuel : nat) (t : T) (b : budget) (stack : list WalkState) : comp S (T * budget) :=
  match pop t stack with None => mret (t, b) | Some stack' => walk_loop fuel stack' b end.

(** Entering a node, and leaving it. *)
Lemma walk_loop_enter r parent stack b fuel :
  walk_loop (Datatypes.S fuel) (MkWalkState r parent None :: stack) b
  = if decide (b.1 - 1 < 0) then t ← ShortVisit r parent; finish fuel t (b.1 - 1, true) stack
    else '(pre, stop) ← PreVisit r parent;
      if (stop : bool) then finish fuel pre (b.1 - 1, b.2) stack
      else walk_loop (Datatypes.S fuel) (MkWalkState r parent (Some (pre, [])) :: stack) (b.1 - 1, b.2).
Proof. done. Qed.

Lemma walk_loop_leave r parent pre args stack b fuel : length args = length (sub_ r) ->
  walk_loop (Datatypes.S fuel) (MkWalkState r parent (Some (pre, args)) :: stack) b
  = t ← PostVisit r parent pre args; finish fuel t b stack.
Proof. intros H. cbn [walk_loop progress re parent_arg]. by rewrite lookup_ge_None_2 by lia. Qed.

Lemma finish_eq fuel t b stack s :
  finish fuel t b stack s = match pop t stack with None => Ret (t, b, s) | Some stack' => walk_loop fuel stack' b s end.
Proof. unfold finish. by destruct (pop t stack). Qed.

Lemma loop_walks_all r : loop_walks r.
Proof.
  induction r as [op f sm subs IH] using Regexp_rec_subs. set (r := Re op f sm subs) in *.
  intros parent stack b fuel s Hf. rewrite nodes_subs in *. destruct fuel as [|fuel]; [simpl in Hf; lia|].
  rewrite walk_unfold, walk_loop_enter. unfold mbind, comp_bind. case_decide as Hb.
  { destruct (ShortVisit r parent s) as [[t s']|e]; [|done]. exists fuel. split; [lia|]. apply finish_eq. }
  destruct (PreVisit r parent s) as [[[pre []] s']|e]; [| |done].
  { exists fuel. split; [lia|]. apply finish_eq. }
  pose proof (loop_walks_children r parent pre stack subs [] [] (b.1 - 1, b.2) (Datatypes.S fuel) s' IH eq_refl eq_refl
    ltac:(simpl in *; lia)) as H'.
  change (sub_ r) with subs.
  destruct (walk_children walk r pre subs [] (b.1 - 1, b.2) s') as [[[args b'] s'']|e]; [|exact H'].
  destruct H' as (f'&H1&H2&H3&H4). rewrite H3. destruct f' as [|f']; [lia|].
  rewrite walk_loop_leave by done. unfold mbind, comp_bind.
  destruct (PostVisit r parent pre args s'') as [[t s3]|e]; [|done].
  exists f'. change (sub_ r) with subs in *. split; [simpl in *; lia|]. apply finish_eq.
Qed.

(** The loop by itself. *)
Lemma WalkInternal_walk r top_arg max_visits fuel s : (2 * nodes r <= fuel + 1)%nat ->
  ('(t, b) ← walk_loop fuel [MkWalkState r top_arg None] (max_visits, false); mret (t, b.2)) s
  = ('(t, b) ← walk r top_arg (max_visits, false); mret (t, b.2)) s.
Proof.
  intros Hf. pose proof (loop_walks_all r top_arg [] (max_visits, false) fuel s Hf) as H.
  unfold mbind, comp_bind. destruct (walk r top_arg (max_visits, false) s) as [[[t b'] s']|e].
  - by destruct H as (f'&_&->).
  - by rewrite H.
Qed.
End loop.

Definition WalkInternal (fuel : nat) (r : Regexp) (top_arg : T) (use_copy : bool) (max_visits : Z) : comp S (T * bool) :=
  '(t, b) ← walk_loop use_copy fuel [MkWalkState r top_arg None] (max_visits, false);
  mret (t, b.2).

(** Two turns of the loop for each node are enough. *)
Definition Walk (r : Regexp) (top_arg : T) : comp S (T * bool) :=
  WalkInternal (2 * nodes r) r top_arg true 1000000.

Definition WalkExponential (r : Regexp) (top_arg : T) (max_visits : Z) : comp S (T * bool) :=
  WalkInternal (2 * nodes r) r top_arg false max_visits.

(** C19: the traversal with its own stack is the recursion over the tree: with
    two turns of the loop for each node it always ends, and for every walker
    whose methods change a state or fail, with or without [Copy], and with any
    budget of visits, it gives the same value, the same state or the same
    failure, and says in the same cases that it stopped early. *)
Theorem walker_is_recursion r top_arg use_copy max_visits fuel s : (2 * nodes r <= fuel + 1)%nat ->
  WalkInternal fuel r top_arg use_copy max_visits s
  = ('(t, b) ← walk use_copy r top_arg (max_visits, false); mret (t, b.2)) s.
Proof. intros Hf. by apply WalkInternal_walk. Qed.
End walker.

(** ** Walkers that look at every node once: [NumCapturesWalker] and
    [NamedCapturesWalker] of regexp.cc *)

Section visitors.
Context {S : Type} (f : S -> Regexp -> S).

(** [PreVisit] changes the state; the other methods are the default ones. *)
Definition visit_pre (r : Regexp) (ignored : unit) : comp S (unit * bool) := fun s => Ret (ignored, false, f s r).
Definition visit_post (r : Regexp) (parent pre : unit) (args : list unit) : comp S unit := mret pre.
Definition visit_copy (arg : unit) : comp S unit := mret arg.
Definition visit_short (r : Regexp) (ignored : unit) : comp S unit := mret ignored.

Definition visit (same_child : Regexp -> nat -> bool) (r : Regexp) (s : S) : outcome S :=
  match Walk visit_pre visit_post visit_copy visit_short same_child r () s with
  | Ret (_, s') => Ret s'
  | Throw e => Throw e
  end.

(** The nodes from the root on. *)
Fixpoint preorder (r : Regexp) : list Regexp :=
  let 'Re _ _ _ subs := r in r :: mjoin (preorder <$> subs).

Lemma preorder_unfold r : preorder r = r :: mjoin (preorder <$> sub_ r).
Proof. by destruct r. Qed.

Lemma length_preorder r : length (preorder r) = nodes r.
Proof.
  induction r as [op fl sm subs IH] using Regexp_rec_subs. rewrite preorder_unfold, nodes_subs. cbn [length sub_]. f_equal.
  induction IH as [|x l Hx _ IH]; [done|]. change (mjoin (preorder <$> x :: l)) with (preorder x ++ mjoin (preorder <$> l)).
  by rewrite length_app, Hx, IH.
Qed.

Abbreviation walk := (walk visit_pre visit_post visit_copy visit_short (fun _ _ => false)).

Lemma visit_walk r : forall b s, Z.of_nat (nodes r) <= b.1 ->
  walk true r () b s = Ret ((), (b.1 - Z.of_nat (nodes r), b.2), foldl f s (preorder r)).
Proof.
  induction r as [op fl sm subs IH] using Regexp_rec_subs. set (r := Re op fl sm subs) in *. intros b s Hb.
  rewrite walk_unfold. rewrite nodes_subs in *. rewrite decide_False by lia.
  rewrite preorder_unfold. unfold mbind, comp_bind, visit_pre at 1. cbn [foldl].
  assert (H : forall l args b s, Forall (fun r => forall b s, Z.of_nat (nodes r) <= b.1 ->
      walk true r () b s = Ret ((), (b.1 - Z.of_nat (nodes r), b.2), foldl f s (preorder r))) l ->
    Z.of_nat (sum_nodes l) <= b.1 ->
    walk_children visit_copy (fun _ _ => false) true (walk true) r () l args b s
    = Ret (args ++ replicate (length l) (), (b.1 - Z.of_nat (sum_nodes l), b.2), foldl f s (mjoin (preorder <$> l)))).
  { intros l. induction l as [|x l IHl]; intros args b0 s0 Hl Hb0.
    - cbn. rewrite app_nil_r, Z.sub_0_r. by destruct b0.
    - apply Forall_cons in Hl as [Hx Hl]. cbn [walk_children sum_nodes foldr] in *.
      assert (reused (fun _ _ => false) true r args = None) as ->.
      { unfold reused. by destruct (last args). }
      unfold mbind, comp_bind. rewrite Hx by (unfold sum_nodes in *; lia).
      rewrite IHl by (done || (cbn; unfold sum_nodes in *; lia)). cbn [fst snd length replicate fmap list_fmap mjoin list_join].
      by rewrite <- app_assoc, foldl_app, Nat2Z.inj_add, Z.sub_add_distr. }
  rewrite H by (done || (cbn in *; lia)). cbn [fst snd app]. unfold visit_post, mret, comp_ret.
  by rewrite Nat2Z.inj_succ, <- Z.add_1_l, Z.sub_add_distr.
Qed.

Lemma visit_foldl r s : Z.of_nat (nodes r) <= 1000000 -> visit (fun _ _ => false) r s = Ret (foldl f s (preorder r)).
Proof.
  intros Hr. unfold visit, Walk, WalkInternal. rewrite WalkInternal_walk by lia. unfold mbind, comp_bind.
  by rewrite visit_walk.
Qed.
End visitors.

(** [NumCapturesWalker]. *)
Definition count_capture (n : Z) (r : Regexp) : Z :=
  match op_ r with kRegexpCapture _ _ => n + 1 | _ => n end.

Definition NumCaptures (same_child : Regexp -> nat -> bool) (r : Regexp) : outcome Z :=
  visit count_capture same_child r 0.

(** [NamedCapturesWalker]: the map is made for the first name; only the first
    capture of a name is recorded. *)
Definition record_name (m : option (gmap bytes Z)) (r : Regexp) : option (gmap bytes Z) :=
  match op_ r with
  | kRegexpCapture cap (Some name) =>
      let map := default ∅ m in
      match map !! name with None => Some (<[name := cap]> map) | Some _ => Some map end
  | _ => m
  end.

Definition NamedCaptures (same_child : Regexp -> nat -> bool) (r : Regexp) : outcome (option (gmap bytes Z)) :=
  visit record_name same_child r None.

(** A capturing group, and those of a regexp from the left. *)
Definition capture_of (x : Regexp) : option (Z * option bytes) :=
  match op_ x with kRegexpCapture cap name => Some (cap, name) | _ => None end.
Definition captures (r : Regexp) : list (Z * option bytes) := omap capture_of (preorder r).

(** The first group of a name. *)
Definition first_named (name : bytes) (cs : list (Z * option bytes)) : option Z :=
  fst <$> head (filter (fun c => c.2 = Some name) cs).

Lemma count_captures l : forall n, foldl count_capture n l = n + Z.of_nat (length (omap capture_of l)).
Proof.
  induction l as [|x l IH]; intros n; [simpl; lia|]. cbn [foldl]. rewrite IH.
  unfold count_capture, capture_of. cbn. destruct (op_ x); simpl; lia.
Qed.

Lemma record_names l : forall m,
  (forall name, foldl record_name m l ≫= (.!! name)
     = match m ≫= (.!! name) with Some c => Some c | None => first_named name (omap capture_of l) end)
  /\ (foldl record_name m l = None <-> m = None /\ Forall (fun c => c.2 = None) (omap capture_of l)).
Proof.
  induction l as [|x l IH]; intros m.
  { split; [intros name; cbn; by destruct m as [m|]; [cbn; destruct (m !! name)|]|].
    simpl. split; [by intros ->|by intros [-> _]]. }
  cbn [foldl]. destruct (IH (record_name m x)) as [IH1 IH2].
  assert (E : omap capture_of (x :: l) = match capture_of x with Some c => c :: omap capture_of l | None => omap capture_of l end)
    by done.
  rewrite E. destruct (capture_of x) as [[cap [name0|]]|] eqn:Ec.
  - assert (Er : record_name m x = Some (match default ∅ m !! name0 with None => <[name0 := cap]> (default ∅ m) | Some _ => default ∅ m end)).
    { unfold record_name, capture_of in *. destruct (op_ x); try done. injection Ec as -> ->. by destruct (_ !! name0). }
    split.
    + intros name. rewrite IH1, Er. unfold first_named. rewrite filter_cons. cbn [mbind option_bind snd].
      assert (Em : m ≫= (.!! name) = default ∅ m !! name) by (destruct m; [done|symmetry; apply lookup_empty]).
      rewrite Em. destruct (decide (name0 = name)) as [->|Hne].
      * rewrite decide_True by done. destruct (default ∅ m !! name) eqn:El; [by rewrite El|by rewrite lookup_insert_eq].
      * rewrite decide_False by congruence. destruct (default ∅ m !! name0); [done|by rewrite lookup_insert_ne].
    + rewrite IH2, Er, Forall_cons. cbn. split; [by intros [? _]|by intros [_ [? _]]].
  - assert (Er : record_name m x = m).
    { unfold record_name, capture_of in *. destruct (op_ x); try done. by injection Ec as -> ->. }
    split.
    + intros name. rewrite IH1, Er. unfold first_named. rewrite filter_cons. by rewrite decide_False.
    + rewrite IH2, Er, Forall_cons. cbn. tauto.
  - assert (Er : record_name m x = m) by (unfold record_name, capture_of in *; by destruct (op_ x)).
    rewrite Er in *. by split.
Qed.

(** [NumCaptures] counts the capturing groups, and [NamedCaptures] has for
    each name the index of the first group of this name, and is NULL where
    there are no names; in a regexp without shared nodes, of up to a million
    nodes. *)
Theorem captures_spec r : Z.of_nat (nodes r) <= 1000000 ->
  NumCaptures (fun _ _ => false) r = Ret (Z.of_nat (length (captures r)))
  /\ exists m, NamedCaptures (fun _ _ => false) r = Ret m
    /\ (forall name, m ≫= (.!! name) = first_named name (captures r))
    /\ (m = None <-> Forall (fun c => c.2 = None) (captures r)).
Proof.
  intros Hr. unfold NumCaptures, NamedCaptures. rewrite !visit_foldl by done. split.
  - by rewrite count_captures, Z.add_0_l.
  - eexists. split; [reflexivity|]. destruct (record_names (preorder r) None) as [H1 H2].
    split; [exact H1|]. rewrite H2. unfold captures. tauto.
Qed.

(** [(?P<x>a)|(b)|(?P<x>c)] *)
Definition three_groups : Regexp :=
  Alternate
    [new_Regexp (kRegexpCapture 1 (Some (B "x"))) 0 [NewLiteral 97 0];
     Capture (NewLiteral 98 0) 0 2;
     new_Regexp (kRegexpCapture 3 (Some (B "x"))) 0 [NewLiteral 99 0]] 0.

Lemma captures_spec_witness :
  first_named (B "x") (captures three_groups) = Some 1 /\
  NumCaptures (fun _ _ => false) three_groups = Ret (Z.of_nat (length (captures three_groups)))
  /\ exists m, NamedCaptures (fun _ _ => false) three_groups = Ret m
    /\ (forall name, m ≫= (.!! name) = first_named name (captures three_groups))
    /\ (m = None <-> Forall (fun c => c.2 = None) (captures three_groups)).
Proof. split; [by vm_compute|]. apply captures_spec. by vm_compute. Defined.

Lemma walker_is_recursion_witness :
  WalkInternal (visit_pre count_capture) visit_post visit_copy visit_short (fun _ _ => false) 20 three_groups () true 3 0
    = Ret ((), true, 1) /\
  WalkInternal (visit_pre count_capture) visit_post visit_copy visit_short (fun _ _ => false) 20 three_groups () true 3 0
    = ('(t, b) ← walk (visit_pre count_capture) visit_post visit_copy visit_short (fun _ _ => false) true three_groups () (3, false);
       mret (t, b.2)) 0.
Proof.
  split; [by vm_compute|].
  apply (walker_is_recursion (visit_pre count_capture) visit_post visit_copy visit_short (fun _ _ => false)
    three_groups () true 3 20 0). by vm_compute; lia.
Defined.
