(* ===== verification/RegexpSem.v ===== *)
(** * What regular expressions match

    The meaning of a [Regexp] as the comments of src/libs/re2/src/re2/regexp.h
    have it: which stretches of a text it matches, the text around them being
    seen by the empty-width operators.  The text is UTF-8 or Latin-1. *)

From stdpp Require Import relations.
From S2P Require Import Prelude Rune CharClass Regexp.

#[local] Open Scope Z_scope.

(** A relation between where a match starts and where it ends. *)
Abbreviation span := (nat -> nat -> Prop).

Definition then_ (R1 R2 : span) : span := fun i k => exists j, R1 i j /\ R2 j k.
Definition or_ (R1 R2 : span) : span := fun i j => R1 i j \/ R2 i j.

(** As many times as [min] and [max] say; -1 is no limit. *)
Definition repeated (R : span) (min max : Z) : span := fun i j =>
  exists n, min <= Z.of_nat n /\ (max = -1 \/ Z.of_nat n <= max) /\ nsteps R n i j.

(** [x] is [r], or the same ASCII letter in the other case where case is
    folded. *)
Definition same_letter (fold : bool) (r x : Z) : Prop :=
  x = r \/ fold = true /\ (65 <= x <= 90 /\ r = x + 32 \/ 97 <= x <= 122 /\ r = x - 32).

Section text.
(** The encoding and the text. *)
Variables (latin1 : bool) (text : bytes).

Definition max_rune : Z := if latin1 then 0xFF else Runemax.
Definition rune_bytes (x : Z) : bytes := if latin1 then [char_of_Z x] else runetochar x.

(** The text has [s] at [i]. *)
Definition has_at (s : bytes) : span := fun i j => s `prefix_of` drop i text /\ j = (i + length s)%nat.

(** A rune for which [P] holds. *)
Definition reads_rune (P : Z -> Prop) : span := fun i j =>
  exists x, 0 <= x <= max_rune /\ P x /\ has_at (rune_bytes x) i j.

Definition reads_byte : span := fun i j => exists c, has_at [c] i j.

Definition is_word_char (c : ascii) : bool :=
  let c := uchar c in
  bool_decide (65 <= c <= 90 \/ 97 <= c <= 122 \/ 48 <= c <= 57 \/ c = 95).

(** Whether the character at [i] is a word character. *)
Definition word_at (i : nat) : bool := match text !! i with Some c => is_word_char c | None => false end.
Definition word_before (i : nat) : bool := match i with O => false | S i' => word_at i' end.

Definition begin_text (i : nat) : Prop := i = O.
Definition end_text (i : nat) : Prop := i = length text.
Definition begin_line (i : nat) : Prop := i = O \/ exists i', i = S i' /\ text !! i' = Some "010"%char.
Definition end_line (i : nat) : Prop := i = length text \/ text !! i = Some "010"%char.
Definition word_boundary (i : nat) : Prop := word_before i <> word_at i.

#[export] Instance begin_text_dec i : Decision (begin_text i).
Proof. unfold begin_text. apply _. Defined.
#[export] Instance end_text_dec i : Decision (end_text i).
Proof. unfold end_text. apply _. Defined.
#[export] Instance begin_line_dec i : Decision (begin_line i).
Proof.
  unfold begin_line. destruct i as [|i]; [by left; left|].
  destruct (decide (text !! i = Some "010"%char)); [left; right; by exists i|right].
  intros [?|(i'&[= <-]&?)]; done.
Defined.
#[export] Instance end_line_dec i : Decision (end_line i).
Proof. unfold end_line. apply _. Defined.

(** Nothing is read where [P] holds. *)
Definition here (P : nat -> Prop) : span := fun i j => i = j /\ (i <= length text)%nat /\ P i.

Fixpoint matches (re : Regexp) : span :=
  let 'Re op f _ subs := re in
  match op with
  | kRegexpNoMatch => fun _ _ => False
  | kRegexpEmptyMatch => eq
  | kRegexpLiteral r => reads_rune (same_letter (flag f FoldCase) r)
  | kRegexpLiteralString rs => foldr (fun r => then_ (reads_rune (same_letter (flag f FoldCase) r))) eq rs
  | kRegexpConcat => foldr (fun sub => then_ (matches sub)) eq subs
  | kRegexpAlternate => foldr (fun sub => or_ (matches sub)) (fun _ _ => False) subs
  | kRegexpStar => match subs with [sub] => rtc (matches sub) | _ => fun _ _ => False end
  | kRegexpPlus => match subs with [sub] => tc (matches sub) | _ => fun _ _ => False end
  | kRegexpQuest => match subs with [sub] => or_ (matches sub) eq | _ => fun _ _ => False end
  | kRegexpRepeat min max => match subs with [sub] => repeated (matches sub) min max | _ => fun _ _ => False end
  | kRegexpCapture _ _ => match subs with [sub] => matches sub | _ => fun _ _ => False end
  | kRegexpAnyChar => reads_rune (fun _ => True)
  | kRegexpAnyByte => reads_byte
  | kRegexpBeginLine => here begin_line
  | kRegexpEndLine => here end_line
  | kRegexpWordBoundary => here word_boundary
  | kRegexpNoWordBoundary => here (fun i => ~ word_boundary i)
  | kRegexpBeginText => here begin_text
  | kRegexpEndText => here end_text
  | kRegexpCharClass cc => reads_rune (fun x => Contains x cc = true)
  end.
End text.

(** ** Regular expressions as the parser makes them *)

(** A literal in the encoding; one whose case is folded is in lower case. *)
Definition literal_ok (latin1 : bool) (f r : Z) : Prop :=
  0 <= r <= max_rune latin1 /\ ~ (flag f FoldCase = true /\ 65 <= r <= 90).

(** The arguments of an operator and the number of its children. *)
Definition op_ok (latin1 : bool) (op : RegexpOp) (f : Z) (n : nat) : Prop :=
  match op with
  | kRegexpLiteral r => n = 0%nat /\ literal_ok latin1 f r
  | kRegexpLiteralString rs => n = 0%nat /\ Forall (literal_ok latin1 f) rs
  | kRegexpConcat | kRegexpAlternate => (0 < n)%nat
  | kRegexpStar | kRegexpPlus | kRegexpQuest => n = 1%nat
  | kRegexpRepeat min max => n = 1%nat /\ 0 <= min /\ (max = -1 \/ min <= max)
  | kRegexpCapture _ _ => n = 1%nat
  | kRegexpCharClass cc => n = 0%nat /\ CharClass.wf cc /\ forall x, Contains x cc = true -> x <= max_rune latin1
  | _ => n = 0%nat
  end.

Fixpoint re_ok (latin1 : bool) (re : Regexp) : Prop :=
  let 'Re op f _ subs := re in
  op_ok latin1 op f (length subs) /\ foldr (fun sub => and (re_ok latin1 sub)) True subs.

Lemma re_ok_unfold latin1 op f sm subs :
  re_ok latin1 (Re op f sm subs) <-> op_ok latin1 op f (length subs) /\ Forall (re_ok latin1) subs.
Proof.
  cbn. assert (H : foldr (fun sub => and (re_ok latin1 sub)) True subs <-> Forall (re_ok latin1) subs); [|tauto].
  induction subs as [|x l IH]; cbn; [by split|]. by rewrite Forall_cons, IH.
Qed.

(** The same meaning, in both encodings of the text. *)
Definition equiv_re (latin1 : bool) (re re' : Regexp) : Prop :=
  forall text i j, matches latin1 text re i j <-> matches latin1 text re' i j.

#[export] Instance equiv_re_equivalence latin1 : Equivalence (equiv_re latin1).
Proof.
  split; unfold equiv_re; [done|by intros x y H text i j; rewrite H|by intros x y z H1 H2 text i j; rewrite H1, H2].
Qed.

(** ** Spans as sets of pairs *)

Abbreviation span_eq := (pointwise_relation nat (pointwise_relation nat iff)).
Infix "≡ₛ" := span_eq (at level 70) : xap_scope.
#[local] Open Scope xap_scope.

#[export] Instance then_proper : Proper (span_eq ==> span_eq ==> span_eq) then_.
Proof. intros R1 R1' H1 R2 R2' H2 i k. unfold then_. split; intros (j&?&?); exists j; by rewrite (H1 i j), (H2 j k) in *. Qed.

#[export] Instance or_proper : Proper (span_eq ==> span_eq ==> span_eq) or_.
Proof. intros R1 R1' H1 R2 R2' H2 i j. unfold or_. by rewrite (H1 i j), (H2 i j). Qed.

Lemma nsteps_mono (R R' : span) n : (forall i j, R i j -> R' i j) -> forall i j, nsteps R n i j -> nsteps R' n i j.
Proof. intros H i j. induction 1; econstructor; eauto. Qed.

#[export] Instance nsteps_proper : Proper (span_eq ==> eq ==> span_eq) (@nsteps nat).
Proof. intros R R' H n ? <- i j. split; apply nsteps_mono; intros; by apply H. Qed.

#[export] Instance rtc_proper : Proper (span_eq ==> span_eq) (@rtc nat).
Proof. intros R R' H i j. rewrite !rtc_nsteps. split; intros [n Hn]; exists n; by apply (nsteps_proper R R' H n n eq_refl). Qed.

#[export] Instance tc_proper : Proper (span_eq ==> span_eq) (@tc nat).
Proof. intros R R' H i j. rewrite !tc_nsteps. split; intros (n&?&Hn); exists n; (split; [done|]); by apply (nsteps_proper R R' H n n eq_refl). Qed.

#[export] Instance repeated_proper : Proper (span_eq ==> eq ==> eq ==> span_eq) repeated.
Proof.
  intros R R' H min ? <- max ? <- i j. unfold repeated.
  split; intros (n&?&?&Hn); exists n; (split_and!; [done..|]); by apply (nsteps_proper R R' H n n eq_refl).
Qed.

Lemma then_eq_r R : then_ R eq ≡ₛ R.
Proof. intros i j. unfold then_. split; [by intros (k&?&<-)|intros ?; by exists j]. Qed.

Lemma then_assoc R1 R2 R3 : then_ (then_ R1 R2) R3 ≡ₛ then_ R1 (then_ R2 R3).
Proof. intros i j. unfold then_. naive_solver. Qed.

Lemma rtc_idemp (R : span) : rtc (rtc R) ≡ₛ rtc R.
Proof. intros i j. split; [|by apply rtc_once]. induction 1; [done|by etrans]. Qed.

Lemma tc_idemp (R : span) : tc (tc R) ≡ₛ tc R.
Proof. intros i j. split; [|by apply tc_once]. induction 1; [done|by etrans]. Qed.

Lemma or_eq_idemp R : or_ (or_ R eq) eq ≡ₛ or_ R eq.
Proof. intros i j. unfold or_. tauto. Qed.

Lemma nsteps_eq n : nsteps (A := nat) eq n ≡ₛ eq.
Proof. intros i j. split; [by induction 1; subst|intros ->; induction n; by econstructor]. Qed.

Lemma rtc_eq : rtc (A := nat) eq ≡ₛ eq.
Proof. intros i j. rewrite rtc_nsteps. split; [by intros [n H%nsteps_eq]|intros ->; by exists O; apply nsteps_eq]. Qed.

Lemma tc_eq : tc (A := nat) eq ≡ₛ eq.
Proof. intros i j. split; [by induction 1; subst|intros ->; by constructor]. Qed.

Lemma repeated_eq min max : 0 <= min -> max = -1 \/ min <= max -> repeated eq min max ≡ₛ eq.
Proof.
  intros H0 Hm i j. unfold repeated. split; [by intros (n&_&_&H%nsteps_eq)|].
  intros ->. exists (Z.to_nat min). split_and!; [lia|lia|by apply nsteps_eq].
Qed.

(** ** Counted repetition by the simple operators *)

Lemma repeated_star R : repeated R 0 (-1) ≡ₛ rtc R.
Proof. intros i j. rewrite rtc_nsteps. unfold repeated. split; [intros (n&_&_&?)|intros [n ?]]; exists n; [done|split_and!; [lia|by left|done]]. Qed.

Lemma repeated_plus R : repeated R 1 (-1) ≡ₛ tc R.
Proof.
  intros i j. rewrite tc_nsteps. unfold repeated.
  split; [intros (n&?&_&?)|intros (n&?&?)]; exists n; [split; [lia|done]|split_and!; [lia|by left|done]].
Qed.

Lemma nsteps_foldr (R : span) n : foldr then_ eq (replicate n R) ≡ₛ nsteps R n.
Proof.
  induction n as [|n IH]; cbn [replicate foldr]; intros i j.
  - split; [intros ->; constructor|by inversion 1].
  - unfold then_. split; [intros (k&?&?%IH); by econstructor|].
    inversion 1; subst. eexists. split; [done|by apply IH].
Qed.

Lemma foldr_then_app l (R : span) : foldr then_ R l ≡ₛ then_ (foldr then_ eq l) R.
Proof.
  induction l as [|R1 l IH]; simpl.
  - intros i j. unfold then_. split; [intros ?; by exists i|by intros (k&->&?)].
  - by rewrite IH, then_assoc.
Qed.

Lemma repeated_from R n : (0 < n)%nat -> repeated R (Z.of_nat n) (-1) ≡ₛ then_ (nsteps R (n - 1)) (tc R).
Proof.
  intros Hn i j. unfold repeated, then_. setoid_rewrite tc_nsteps. split.
  - intros (m&Hm&_&H). replace m with ((n - 1) + (m - (n - 1)))%nat in H by lia.
    apply nsteps_add_inv in H as (k&?&?). exists k. split; [done|]. exists (m - (n - 1))%nat. split; [lia|done].
  - intros (k&H1&m&Hm&H2). exists ((n - 1) + m)%nat. split_and!; [lia|by left|]. by eapply nsteps_trans.
Qed.

Lemma repeated_between R m k : repeated R (Z.of_nat m) (Z.of_nat (m + k)) ≡ₛ then_ (nsteps R m) (bsteps R k).
Proof.
  intros i j. unfold repeated, then_. setoid_rewrite bsteps_nsteps. split.
  - intros (n&H1&H2&H). replace n with (m + (n - m))%nat in H by lia.
    apply nsteps_add_inv in H as (x&?&?). exists x. split; [done|]. exists (n - m)%nat. split; [lia|done].
  - intros (x&H1&n&Hn&H2). exists (m + n)%nat. split_and!; [lia|right; lia|]. by eapply nsteps_trans.
Qed.

Lemma bsteps_S_iff (R : span) k : bsteps R (S k) ≡ₛ or_ (then_ R (bsteps R k)) eq.
Proof.
  intros i j. unfold or_, then_. split.
  - inversion 1; subst; [by right|left; eauto].
  - intros [(x&?&?)| ->]; [by econstructor|constructor].
Qed.

Lemma bsteps_0_iff (R : span) : bsteps R 0 ≡ₛ eq.
Proof. intros i j. split; [by inversion 1|intros ->; constructor]. Qed.
