(* ===== verification/Simplify.v ===== *)
(** * Simplification: src/libs/re2/src/re2/simplify.cc

    [Simplify] rewrites counted repetitions and the empty and the full
    character classes; what it gives matches the same texts.  The values of
    the walk are a regexp and whether it is the very object that was visited,
    which the code finds out by comparing pointers. *)

From stdpp Require Import relations.
From S2P Require Import Prelude Rune CharClass Regexp Walker RegexpSem.

#[local] Open Scope Z_scope.
#[local] Open Scope xap_scope.

(** ** Operations *)

(** [Assuming the simple_ flags on the children are accurate]. *)
Definition ComputeSimple (re : Regexp) : bool :=
  match op_ re with
  | kRegexpNoMatch | kRegexpEmptyMatch | kRegexpLiteral _ | kRegexpLiteralString _
  | kRegexpBeginLine | kRegexpEndLine | kRegexpBeginText | kRegexpWordBoundary
  | kRegexpNoWordBoundary | kRegexpEndText | kRegexpAnyChar | kRegexpAnyByte => true
  | kRegexpConcat | kRegexpAlternate => forallb simple_ (sub_ re)
  | kRegexpCharClass cc => negb (empty cc) && negb (full cc)
  | kRegexpCapture _ _ => match sub_ re with sub :: _ => simple_ sub | [] => false end
  | kRegexpStar | kRegexpPlus | kRegexpQuest =>
      match sub_ re with
      | sub :: _ =>
          if negb (simple_ sub) then false else
          match op_ sub with
          | kRegexpStar | kRegexpPlus | kRegexpQuest | kRegexpEmptyMatch | kRegexpNoMatch => false
          | _ => true
          end
      | [] => false
      end
  | kRegexpRepeat _ _ => false
  end.

Definition Concat2 (re1 re2 : Regexp) (flags : Z) : Regexp := new_Regexp kRegexpConcat flags [re1; re2].

(** [(x(x(x)?)?)?]: [n] more copies around the first. *)
Fixpoint nested_quests (re : Regexp) (f : Z) (n : nat) : Regexp :=
  match n with
  | O => Quest re f
  | S n' => Quest (Concat2 re (nested_quests re f n') f) f
  end.

Definition SimplifyRepeat (re : Regexp) (min max f : Z) : outcome Regexp :=
  if decide (max = -1) then
    if decide (min = 0) then Ret (Star re f) else
    if decide (min = 1) then Ret (Plus re f) else
    if decide (min < 1) then Throw BadIndex else
    Ret (new_Regexp kRegexpConcat f (replicate (Z.to_nat (min - 1)) re ++ [Plus re f]))
  else
  if decide (min = 0 /\ max = 0) then Ret (new_Regexp kRegexpEmptyMatch f []) else
  if decide (min = 1 /\ max = 1) then Ret re else
  let prefix := if decide (0 < min) then Some (new_Regexp kRegexpConcat f (replicate (Z.to_nat min) re)) else None in
  let nre :=
    if decide (min < max) then
      let suf := nested_quests re f (Z.to_nat (max - (min + 1))) in
      match prefix with None => Some suf | Some nre => Some (Concat2 nre suf f) end
    else prefix in
  match nre with
  | None => Ret (new_Regexp kRegexpNoMatch f [])
  | Some nre => Ret nre
  end.

(** The new class, and whether it is the node itself. *)
Definition SimplifyCharClass (re : Regexp) (cc : CharClass) : Regexp * bool :=
  if empty cc then (new_Regexp kRegexpNoMatch (parse_flags_ re) [], false)
  else if full cc then (new_Regexp kRegexpAnyChar (parse_flags_ re) [], false)
  else (re, true).

(** A simplified [Regexp *], which can be NULL. *)
Abbreviation result := (option (Regexp * bool)).

Definition is_EmptyMatch (op : RegexpOp) : bool := match op with kRegexpEmptyMatch => true | _ => false end.

(** The children, and whether all of them are those of the node. *)
Fixpoint take_args (child_args : list result) : outcome (list Regexp * bool) :=
  match child_args with
  | [] => Ret ([], true)
  | None :: _ => Throw NullDeref
  | Some (newsub, same) :: args =>
      '(subs, all) ← take_args args; Ret (newsub :: subs, same && all)
  end.

Definition PreVisit (re : Regexp) (parent_arg : result) : comp unit (result * bool) :=
  if simple_ re then mret (Some (re, true), true) else mret (None, false).

Definition PostVisit (re : Regexp) (parent_arg pre_arg : result) (child_args : list result) : comp unit result :=
  fun u =>
  match take_args child_args with Throw e => Throw e | Ret (subs, same) =>
  let f := parse_flags_ re in
  match op_ re with
  | kRegexpNoMatch | kRegexpEmptyMatch | kRegexpLiteral _ | kRegexpLiteralString _
  | kRegexpBeginLine | kRegexpEndLine | kRegexpBeginText | kRegexpWordBoundary
  | kRegexpNoWordBoundary | kRegexpEndText | kRegexpAnyChar | kRegexpAnyByte =>
      Ret (Some (set_simple true re, true), u)
  | kRegexpConcat | kRegexpAlternate => Ret (Some (Re (op_ re) f true subs, same), u)
  | kRegexpCapture cap name =>
      match subs with
      | newsub :: _ => Ret (Some (Re (kRegexpCapture cap (if same then name else None)) f true [newsub], same), u)
      | [] => Throw BadIndex
      end
  | kRegexpStar | kRegexpPlus | kRegexpQuest =>
      match subs with
      | newsub :: _ =>
          if is_EmptyMatch (op_ newsub) then Ret (Some (newsub, false), u) else
          if same then Ret (Some (Re (op_ re) f true [newsub], true), u) else
          if decide (op_ re = op_ newsub /\ f = parse_flags_ newsub) then Ret (Some (newsub, false), u) else
          Ret (Some (Re (op_ re) f true [newsub], false), u)
      | [] => Throw BadIndex
      end
  | kRegexpRepeat min max =>
      match subs with
      | newsub :: _ =>
          if is_EmptyMatch (op_ newsub) then Ret (Some (newsub, false), u) else
          match SimplifyRepeat newsub min max f with
          | Ret nre => Ret (Some (set_simple true nre, false), u)
          | Throw e => Throw e
          end
      | [] => Throw BadIndex
      end
  | kRegexpCharClass cc =>
      let '(nre, same) := SimplifyCharClass re cc in
      Ret (Some (set_simple true nre, same), u)
  end end.

Definition Copy (re : result) : comp unit result := mret re.
Definition ShortVisit (re : Regexp) (parent_arg : result) : comp unit result := mret (Some (re, true)).

(** [Simplify], and whether the walk was cut off. *)
Definition Simplify (same_child : Regexp -> nat -> bool) (re : Regexp) : outcome (Regexp * bool) :=
  if simple_ re then Ret (re, false) else
  match Walk PreVisit PostVisit Copy ShortVisit same_child re None () with
  | Ret (Some (sre, _), stopped, _) => Ret (sre, stopped)
  | Ret (None, _, _) => Throw NullDeref
  | Throw e => Throw e
  end.

(** [a{2,4}] is [aa(a(a)?)?]. *)
Example simplify_repeat :
  let a := NewLiteral 97 0 in
  let a' := set_simple true a in
  Simplify (fun _ _ => false) (Repeat a 0 2 4)
  = Ret (Re kRegexpConcat 0 true
          [new_Regexp kRegexpConcat 0 [a'; a']; Quest (Concat2 a' (Quest a' 0) 0) 0], false).
Proof. by vm_compute. Qed.

(** ** Simple regexps *)

Definition op_simple (op : RegexpOp) : Prop :=
  match op with
  | kRegexpRepeat _ _ => False
  | kRegexpCharClass cc => CharClass.empty cc = false /\ full cc = false
  | _ => True
  end.

(** Neither counted repetitions nor empty or full classes. *)
Fixpoint is_simple (re : Regexp) : Prop :=
  let 'Re op _ _ subs := re in op_simple op /\ foldr (fun sub => and (is_simple sub)) True subs.

(** The flags [simple_] are right. *)
Fixpoint flags_ok (re : Regexp) : Prop :=
  let 'Re _ _ sm subs := re in
  (sm = true -> is_simple re) /\ foldr (fun sub => and (flags_ok sub)) True subs.

Lemma foldr_and {A} (P : A -> Prop) l : foldr (fun x => and (P x)) True l <-> Forall P l.
Proof. induction l as [|x l IH]; cbn; [by split|]. by rewrite Forall_cons, IH. Qed.

Lemma is_simple_unfold op f sm subs : is_simple (Re op f sm subs) <-> op_simple op /\ Forall is_simple subs.
Proof. cbn. by rewrite foldr_and. Qed.

Lemma flags_ok_unfold op f sm subs :
  flags_ok (Re op f sm subs) <-> (sm = true -> is_simple (Re op f sm subs)) /\ Forall flags_ok subs.
Proof. by rewrite <- (foldr_and flags_ok). Qed.

Lemma flags_ok_simple re : flags_ok re -> simple_ re = true -> is_simple re.
Proof. destruct re as [op f sm subs]. intros [H _]%flags_ok_unfold. exact H. Qed.

(** The parser sets the flag of a node by [ComputeSimple], when those of its
    children are right. *)
Lemma ComputeSimple_flags_ok latin1 op f sm subs :
  op_ok latin1 op f (length subs) -> Forall flags_ok subs -> ComputeSimple (Re op f sm subs) = true ->
  is_simple (Re op f sm subs).
Proof.
  intros Hop Hf H. apply is_simple_unfold.
  assert (Hone : length subs = 1%nat -> (forall sub, head subs = Some sub -> simple_ sub = true) -> Forall is_simple subs).
  { intros Hl Hh. destruct subs as [|x [|y l]]; try done. apply Forall_cons in Hf as [Hf _]. apply Forall_singleton.
    apply flags_ok_simple; [done|]. by apply Hh. }
  assert (Hall : forallb simple_ subs = true -> Forall is_simple subs).
  { intros Hs. rewrite Forall_forall in *. intros x Hx. apply flags_ok_simple; [by apply Hf|].
    rewrite forallb_forall in Hs. apply Hs. by apply list_elem_of_In. }
  assert (Hnil : length subs = 0%nat -> Forall is_simple subs) by (by intros ->%nil_length_inv).
  destruct op; cbn in *; try done; try (by split; [|apply Hall]); try (by split; [|apply Hnil]);
    try (by split; [|apply Hnil; destruct Hop]);
    try (split; [done|]; apply Hone; [done|]; intros sub Hs; destruct subs as [|x l]; [done|]; injection Hs as ->;
      destruct (simple_ sub); done).
  apply andb_true_iff in H as [H1 H2]. apply negb_true_iff in H1, H2. by split; [|apply Hnil; destruct Hop].
Qed.

Section meaning.
Variables (latin1 : bool).
Abbreviation ok := (re_ok latin1).
Abbreviation means := (matches latin1).

Lemma matches_set_simple text b re : means text (set_simple b re) = means text re.
Proof. by destruct re. Qed.

Lemma ok_set_simple b re : ok (set_simple b re) <-> ok re.
Proof. by destruct re. Qed.

Lemma simple_set_simple b re : is_simple (set_simple b re) <-> is_simple re.
Proof. by destruct re. Qed.

(** Changing the children, the flags stay. *)
Lemma ok_subs op f sm sm' subs subs' :
  ok (Re op f sm subs) -> length subs' = length subs -> Forall ok subs' -> ok (Re op f sm' subs').
Proof. rewrite !re_ok_unfold. by intros [H _] ->. Qed.

(** The three constructors give what their operator means. *)
Lemma unary_sub op f sm subs :
  ok (Re op f sm subs) -> op = kRegexpStar \/ op = kRegexpPlus \/ op = kRegexpQuest -> exists sub, subs = [sub].
Proof.
  intros [H _]%re_ok_unfold Hop. assert (length subs = 1%nat) as Hl by (by destruct Hop as [->|[->| ->]]).
  destruct subs as [|x [|y l]]; try done. by exists x.
Qed.

Lemma Star_means text sub f : ok sub -> ok (Star sub f) /\ (is_simple sub -> is_simple (Star sub f))
  /\ means text (Star sub f) ≡ₛ rtc (means text sub).
Proof.
  intros Hok. unfold Star. destruct (is_Star (op_ sub) && _) eqn:E.
  - apply andb_true_iff in E as [E _]. destruct sub as [[] f0 sm subs]; try done.
    destruct (unary_sub _ _ _ _ Hok) as [x ->]; [by auto|]. split_and!; [done|done|]. cbn. by rewrite rtc_idemp.
  - split_and!; [by apply re_ok_unfold; repeat constructor|intros; by apply is_simple_unfold; repeat constructor|done].
Qed.

Lemma Plus_means text sub f : ok sub -> ok (Plus sub f) /\ (is_simple sub -> is_simple (Plus sub f))
  /\ means text (Plus sub f) ≡ₛ tc (means text sub).
Proof.
  intros Hok. unfold Plus. destruct (is_Plus (op_ sub) && _) eqn:E.
  - apply andb_true_iff in E as [E _]. destruct sub as [[] f0 sm subs]; try done.
    destruct (unary_sub _ _ _ _ Hok) as [x ->]; [by auto|]. split_and!; [done|done|]. cbn. by rewrite tc_idemp.
  - split_and!; [by apply re_ok_unfold; repeat constructor|intros; by apply is_simple_unfold; repeat constructor|done].
Qed.

Lemma Quest_means text sub f : ok sub -> ok (Quest sub f) /\ (is_simple sub -> is_simple (Quest sub f))
  /\ means text (Quest sub f) ≡ₛ or_ (means text sub) eq.
Proof.
  intros Hok. unfold Quest. destruct (is_Quest (op_ sub) && _) eqn:E.
  - apply andb_true_iff in E as [E _]. destruct sub as [[] f0 sm subs]; try done.
    destruct (unary_sub _ _ _ _ Hok) as [x ->]; [by auto|]. split_and!; [done|done|]. cbn. by rewrite or_eq_idemp.
  - split_and!; [by apply re_ok_unfold; repeat constructor|intros; by apply is_simple_unfold; repeat constructor|done].
Qed.

Lemma Concat2_means text re1 re2 f : ok re1 -> ok re2 -> ok (Concat2 re1 re2 f)
  /\ (is_simple re1 -> is_simple re2 -> is_simple (Concat2 re1 re2 f))
  /\ means text (Concat2 re1 re2 f) ≡ₛ then_ (means text re1) (means text re2).
Proof.
  intros H1 H2. split_and!.
  - apply re_ok_unfold. split; [simpl; lia|]. by repeat constructor.
  - intros. apply is_simple_unfold. by repeat constructor.
  - cbn. by rewrite then_eq_r.
Qed.

Lemma nested_quests_means text re f n : ok re -> ok (nested_quests re f n)
  /\ (is_simple re -> is_simple (nested_quests re f n))
  /\ means text (nested_quests re f n) ≡ₛ bsteps (means text re) (S n).
Proof.
  intros Hok. induction n as [|n (IH1&IH2&IH3)]; cbn [nested_quests].
  - destruct (Quest_means text re f Hok) as (H1&H2&H3). split_and!; [done|done|].
    by rewrite H3, bsteps_S_iff, bsteps_0_iff, then_eq_r.
  - destruct (Concat2_means text re (nested_quests re f n) f Hok IH1) as (H1&H2&H3).
    destruct (Quest_means text _ f H1) as (H4&H5&H6). split_and!; [done|auto|].
    by rewrite H6, H3, IH3, <- bsteps_S_iff.
Qed.

Lemma copies_means text re f n : ok re -> (0 < n)%nat -> ok (new_Regexp kRegexpConcat f (replicate n re))
  /\ (is_simple re -> is_simple (new_Regexp kRegexpConcat f (replicate n re)))
  /\ means text (new_Regexp kRegexpConcat f (replicate n re)) ≡ₛ nsteps (means text re) n.
Proof.
  intros Hok Hn. split_and!.
  - apply re_ok_unfold. split; [by rewrite length_replicate|]. by apply Forall_replicate.
  - intros H. apply is_simple_unfold. split; [done|]. by apply Forall_replicate.
  - rewrite <- nsteps_foldr. cbn. clear Hn. induction n as [|n IH]; cbn; [done|]. by rewrite IH.
Qed.

(** Counted repetition. *)
Lemma SimplifyRepeat_means re min max f : ok re -> 0 <= min -> max = -1 \/ min <= max ->
  exists nre, SimplifyRepeat re min max f = Ret nre /\ ok nre /\ (is_simple re -> is_simple nre)
    /\ forall text, means text nre ≡ₛ repeated (means text re) min max.
Proof.
  intros Hok H0 Hm. unfold SimplifyRepeat. case_decide as Hmax.
  { subst max. case_decide as Hmin; [|case_decide as Hmin1; [|rewrite decide_False by lia]].
    - eexists. split; [reflexivity|]. split_and!; [by apply (Star_means [])|by apply (Star_means [])|].
      intros text. destruct (Star_means text re f Hok) as (_&_&->). subst. by rewrite repeated_star.
    - eexists. split; [reflexivity|]. split_and!; [by apply (Plus_means [])|by apply (Plus_means [])|].
      intros text. destruct (Plus_means text re f Hok) as (_&_&->). subst. by rewrite repeated_plus.
    - eexists. split; [reflexivity|]. split_and!.
      + apply re_ok_unfold. split; [rewrite length_app; simpl; lia|].
        apply Forall_app. split; [by apply Forall_replicate|]. apply Forall_singleton. by apply (Plus_means []).
      + intros H. apply is_simple_unfold. split; [done|]. apply Forall_app. split; [by apply Forall_replicate|].
        apply Forall_singleton. by apply (Plus_means []).
      + intros text. replace min with (Z.of_nat (Z.to_nat min)) at 2 by lia. rewrite repeated_from by lia.
        replace (Z.to_nat (min - 1)) with (Z.to_nat min - 1)%nat by lia. generalize (Z.to_nat min - 1)%nat as n.
        intros n. cbn. destruct (Plus_means text re f Hok) as (_&_&H). induction n as [|n IH]; cbn.
        * rewrite then_eq_r, H. intros i j. unfold then_. split; [intros ?; exists i; split; [constructor|done]|].
          intros (k&Hk&?). by inversion Hk; subst.
        * rewrite IH, <- then_assoc. apply then_proper; [|done]. intros i j. unfold then_.
          split; [intros (k&?&?); by econstructor|]. inversion 1; subst; eauto. }
  case_decide as H1.
  { eexists. split; [reflexivity|]. destruct H1 as [-> ->]. split_and!; [by repeat constructor|by repeat constructor|].
    intros text i j. cbn. unfold repeated. split.
    - intros ->. exists O. split_and!; [lia|right; lia|constructor].
    - intros (n&?&[?|?]&Hn); [done|]. replace n with O in Hn by lia. by inversion Hn. }
  case_decide as H2.
  { eexists. split; [reflexivity|]. destruct H2 as [-> ->]. split_and!; [done|done|]. intros text i j. unfold repeated. split.
    - intros ?. exists 1%nat. split_and!; [lia|right; lia|by apply nsteps_once].
    - intros (n&?&[?|?]&Hn); [done|]. replace n with 1%nat in Hn by lia. by apply nsteps_once_inv. }
  destruct Hm as [Hm|Hm]; [done|].
  assert (Hrep : forall text, repeated (means text re) min max
    ≡ₛ then_ (nsteps (means text re) (Z.to_nat min)) (bsteps (means text re) (Z.to_nat (max - min)))).
  { intros text. rewrite <- repeated_between. by replace (Z.of_nat (Z.to_nat min)) with min by lia;
      replace (Z.of_nat (Z.to_nat min + Z.to_nat (max - min))) with max by lia. }
  case_decide as Hmin; case_decide as Hlt; try lia; eexists; (split; [reflexivity|]).
  - set (n := Z.to_nat min) in *. assert (0 < n)%nat by lia. set (k := Z.to_nat (max - (min + 1))).
    replace (Z.to_nat (max - min)) with (S k) in Hrep by (unfold k; lia).
    split_and!; [| |intros text].
    + apply (Concat2_means []); [by apply (copies_means [])|by apply (nested_quests_means [])].
    + intros. apply (Concat2_means []); [by apply (copies_means [])|by apply (nested_quests_means [])| |].
      * by apply (copies_means []).
      * by apply (nested_quests_means []).
    + destruct (copies_means text re f n Hok) as (K1&_&K2); [done|].
      destruct (nested_quests_means text re f k Hok) as (K3&_&K4).
      destruct (Concat2_means text _ _ f K1 K3) as (_&_&->). by rewrite K2, K4, Hrep.
  - assert (min = 0) as -> by lia. set (k := Z.to_nat (max - (0 + 1))).
    replace (Z.to_nat (max - 0)) with (S k) in Hrep by (unfold k; lia).
    split_and!; [by apply (nested_quests_means [])|by apply (nested_quests_means [])|intros text].
    destruct (nested_quests_means text re f k Hok) as (_&_&->). rewrite Hrep.
    intros i j. unfold then_. split; [intros ?; exists i; split; [constructor|done]|].
    intros (x&Hx&?). by inversion Hx; subst.
  - replace (Z.to_nat (max - min)) with O in Hrep by lia.
    split_and!; [apply (copies_means []); [done|lia]|apply (copies_means []); [done|lia]|intros text].
    destruct (copies_means text re f (Z.to_nat min) Hok) as (_&_&->); [lia|].
    by rewrite Hrep, bsteps_0_iff, then_eq_r.
Qed.

(** ** The walk *)

(** What is kept: the meaning, and what the parser promised. *)
Definition good (re re' : Regexp) : Prop := ok re' /\ forall text, means text re' ≡ₛ means text re.

(** The value of a visit, where the walk was not cut off unless [stopped]. *)
Definition visited (stopped : bool) (re : Regexp) (res : result) : Prop :=
  exists re' same, res = Some (re', same) /\ good re re'
    /\ (stopped = false -> flags_ok re -> is_simple re').

Lemma visited_weaken b b' re res : (b' = false -> b = false) -> visited b re res -> visited b' re res.
Proof. intros H (re'&same&->&Hg&Hs). exists re', same. split_and!; [done|done|auto]. Qed.

Lemma take_args_visited b subs args : Forall2 (visited b) subs args ->
  exists subs' same, take_args args = Ret (subs', same) /\ Forall2 good subs subs'
    /\ (b = false -> Forall flags_ok subs -> Forall is_simple subs').
Proof.
  induction 1 as [|sub arg subs args (re'&same&->&Hg&Hs) _ (subs'&all&IH1&IH2&IH3)].
  - exists [], true. by split_and!; [|constructor|].
  - exists (re' :: subs'), (same && all). cbn. rewrite IH1. split_and!; [done|by constructor|].
    intros Hb [H1 H2]%Forall_cons. constructor; auto.
Qed.

Lemma good_ok subs subs' : Forall2 good subs subs' -> Forall ok subs'.
Proof. induction 1 as [|x y l k [H _] _ IH]; by constructor. Qed.

Lemma good_concat text subs subs' : Forall2 good subs subs' ->
  foldr (fun sub => then_ (means text sub)) eq subs' ≡ₛ foldr (fun sub => then_ (means text sub)) eq subs.
Proof. induction 1 as [|x y l k [_ H] _ IH]; cbn; [done|]. by rewrite H, IH. Qed.

Lemma good_alternate text subs subs' : Forall2 good subs subs' ->
  foldr (fun sub => or_ (means text sub)) (fun _ _ => False) subs'
  ≡ₛ foldr (fun sub => or_ (means text sub)) (fun _ _ => False) subs.
Proof. induction 1 as [|x y l k [_ H] _ IH]; cbn; [done|]. by rewrite H, IH. Qed.

Lemma class_full text cc : CharClass.wf cc -> full cc = true ->
  reads_rune latin1 text (fun x => Contains x cc = true) ≡ₛ reads_rune latin1 text (fun _ => True).
Proof.
  intros Hcc Hf i j. unfold reads_rune. split; intros (x&Hx&H&Hat); exists x; (split; [done|split; [|done]]); [done|].
  apply Contains_ok; [done|]. apply (proj1 (full_ok cc Hcc) Hf). unfold max_rune in Hx. destruct latin1; unfold Runemax in *; lia.
Qed.

Lemma class_empty text cc : CharClass.wf cc -> CharClass.empty cc = true ->
  reads_rune latin1 text (fun x => Contains x cc = true) ≡ₛ (fun _ _ => False).
Proof.
  intros Hcc He i j. split; [|done]. intros (x&_&H%Contains_ok&_); [|done].
  by eapply (proj1 (empty_ok cc Hcc) He).
Qed.

(** A child that matches the empty text only. *)
Lemma EmptyMatch_means text re : is_EmptyMatch (op_ re) = true -> means text re ≡ₛ eq.
Proof. by destruct re as [[] ? ? ?]. Qed.

(** The three operators that a second application does not change. *)
Definition loops (op : RegexpOp) (R : span) : span :=
  match op with kRegexpStar => rtc R | kRegexpPlus => tc R | _ => or_ R eq end.

Definition loop_op (op : RegexpOp) : Prop := op = kRegexpStar \/ op = kRegexpPlus \/ op = kRegexpQuest.

#[local] Instance loops_proper op : Proper (span_eq ==> span_eq) (loops op).
Proof. intros R R' H. unfold loops. by destruct op; rewrite H. Qed.

Lemma loops_means text op f sm sub : loop_op op -> means text (Re op f sm [sub]) = loops op (means text sub).
Proof. by intros [->|[->| ->]]. Qed.

Lemma loops_idemp op R : loops op (loops op R) ≡ₛ loops op R.
Proof. unfold loops. destruct op; apply or_eq_idemp || apply rtc_idemp || apply tc_idemp. Qed.

Lemma loops_eq op : loops op eq ≡ₛ eq.
Proof. unfold loops. destruct op; try apply rtc_eq; try apply tc_eq; intros i j; unfold or_; tauto. Qed.

(** One call of [PostVisit]. *)
Lemma PostVisit_visited b re parent pre args :
  ok re -> Forall2 (visited b) (sub_ re) args ->
  exists res, PostVisit re parent pre args () = Ret (res, ()) /\ visited b re res.
Proof.
  intros Hok Hargs. destruct (take_args_visited _ _ _ Hargs) as (subs'&same&E&Hgood&Hsimple).
  unfold PostVisit. rewrite E. pose proof (good_ok _ _ Hgood) as Hoks.
  pose proof (Forall2_length _ _ _ Hgood) as Hlen.
  destruct re as [op f sm subs]. cbn [sub_ op_ parse_flags_] in *.
  pose proof Hok as [Hop _]%re_ok_unfold.
  assert (Hfl : flags_ok (Re op f sm subs) -> Forall flags_ok subs) by (intros [_ H]%flags_ok_unfold; exact H).
  (* The same operator over the new children. *)
  assert (Hsame : forall same', op_simple op -> (forall text, means text (Re op f true subs') ≡ₛ means text (Re op f sm subs)) ->
    visited b (Re op f sm subs) (Some (Re op f true subs', same'))).
  { intros same' Hs Hm. eexists _, _. split_and!; [done| |].
    - split; [|exact Hm]. by eapply ok_subs.
    - intros Hb Hf. apply is_simple_unfold. split; [done|]. by apply Hsimple; [|apply Hfl]. }
  assert (Hleaf : length subs = 0%nat -> op_simple op -> visited b (Re op f sm subs) (Some (Re op f true subs, true))).
  { intros Hl Hs. assert (subs' = subs) as E' by (apply nil_length_inv in Hl as ->; by destruct subs').
    rewrite <- E' at 2. apply Hsame; [done|]. intros text. by rewrite E'. }
  assert (Hone : length subs = 1%nat -> exists sub sub', subs = [sub] /\ subs' = [sub'] /\ good sub sub'
    /\ (b = false -> flags_ok (Re op f sm subs) -> is_simple sub')).
  { intros Hl. destruct subs as [|x [|? ?]]; try done. destruct subs' as [|x' [|? ?]]; try done.
    exists x, x'. apply Forall2_cons in Hgood as [Hg _]. split_and!; [done..|]. intros Hb Hf.
    by apply Hfl, (Hsimple Hb), Forall_cons in Hf as [? _]. }
  (* The child itself. *)
  assert (Hchild : forall sub' same', subs' = [sub'] -> (forall text, means text sub' ≡ₛ means text (Re op f sm subs)) ->
    visited b (Re op f sm subs) (Some (sub', same'))).
  { intros sub' same' -> Hm. eexists _, _. split_and!; [done| |].
    - split; [|exact Hm]. by apply Forall_cons in Hoks as [? _].
    - intros Hb Hf. by apply Hfl, (Hsimple Hb), Forall_cons in Hf as [? _]. }
  assert (Hloop : loop_op op -> length subs = 1%nat -> exists res,
    match subs' with
    | newsub :: _ =>
        if is_EmptyMatch (op_ newsub) then Ret (Some (newsub, false), ()) else
        if same then Ret (Some (Re op f true [newsub], true), ()) else
        if decide (op = op_ newsub /\ f = parse_flags_ newsub) then Ret (Some (newsub, false), ()) else
        Ret (Some (Re op f true [newsub], false), ())
    | [] => Throw BadIndex
    end = Ret (res, ()) /\ visited b (Re op f sm subs) res).
  { intros Hlo Hl. destruct (Hone Hl) as (sub&sub'&->&->&[_ Hm]&_).
    assert (Hs : op_simple op) by (by destruct Hlo as [->|[->| ->]]).
    assert (Hnew : forall text, means text (Re op f true [sub']) ≡ₛ means text (Re op f sm [sub])).
    { intros text. rewrite !loops_means by done. by rewrite Hm. }
    destruct (is_EmptyMatch (op_ sub')) eqn:Em.
    { eexists. split; [reflexivity|]. apply Hchild; [done|]. intros text.
      rewrite loops_means by done. by rewrite <- Hm, (EmptyMatch_means _ _ Em), loops_eq. }
    destruct same; [eexists; split; [reflexivity|]; by apply Hsame|].
    case_decide as Hd; eexists; (split; [reflexivity|]); [|by apply Hsame].
    apply Hchild; [done|]. intros text. rewrite loops_means by done. rewrite <- Hm.
    destruct sub' as [op' f' sm' subs']. cbn in Hd. destruct Hd as [<- <-].
    apply Forall_cons in Hoks as [Hok' _]. destruct (unary_sub _ _ _ _ Hok' Hlo) as [x ->].
    by rewrite loops_means, loops_idemp by done. }
  destruct op as [| | | | | | | | |min max|cap name| | | | | | | | |cc]; cbn [op_ok] in Hop;
    try (eexists; split; [reflexivity|]; apply Hleaf; [tauto|done]);
    try (apply Hloop; [unfold loop_op; by auto|done]).
  - eexists. split; [reflexivity|]. apply Hsame; [done|]. intros text. cbn. by apply good_concat.
  - eexists. split; [reflexivity|]. apply Hsame; [done|]. intros text. cbn. by apply good_alternate.
  - destruct Hop as (Hl&H0&Hmm). destruct (Hone Hl) as (sub&sub'&->&->&[Hsub Hm]&Hsimple').
    destruct (is_EmptyMatch (op_ sub')) eqn:Em.
    { eexists. split; [reflexivity|]. apply Hchild; [done|]. intros text. cbn.
      by rewrite <- Hm, (EmptyMatch_means _ _ Em), repeated_eq. }
    destruct (SimplifyRepeat_means sub' min max f Hsub H0 Hmm) as (nre&->&Hn1&Hn2&Hn3).
    eexists. split; [reflexivity|]. eexists _, _. split_and!; [done| |].
    + split; [by apply ok_set_simple|]. intros text. rewrite matches_set_simple. cbn. by rewrite Hn3, Hm.
    + intros Hb Hf. apply simple_set_simple. auto.
  - destruct (Hone Hop) as (sub&sub'&->&->&[Hsub Hm]&Hsimple').
    eexists. split; [reflexivity|]. eexists _, _. split_and!; [done| |].
    + split; [|exact Hm]. apply re_ok_unfold. by repeat constructor.
    + intros Hb Hf. apply is_simple_unfold. split; [done|]. apply Forall_singleton. auto.
  - destruct Hop as (Hl&Hcc&_). unfold SimplifyCharClass. cbn [parse_flags_].
    destruct (CharClass.empty cc) eqn:He; [|destruct (full cc) eqn:Hfull].
    + eexists. split; [reflexivity|]. eexists _, _. split_and!; [done| |done].
      split; [by apply re_ok_unfold|]. intros text. cbn. by rewrite class_empty.
    + eexists. split; [reflexivity|]. eexists _, _. split_and!; [done| |done].
      split; [by apply re_ok_unfold|]. intros text. cbn. by rewrite class_full.
    + eexists. split; [reflexivity|]. by apply Hleaf.
Qed.

(** ** The whole walk *)

Variable same_child : Regexp -> nat -> bool.

(** Children that are one object are equal. *)
Hypothesis same_child_eq : forall re n, same_child re (S n) = true -> sub_ re !! n = sub_ re !! S n.

Abbreviation walk := (walk PreVisit PostVisit Copy ShortVisit same_child true).

(** One visit: it returns, it is cut off when the visits of its nodes are more
    than are left, and the mark that says so stays. *)
Definition visits (re : Regexp) : Prop := forall parent b, ok re -> exists res b',
  walk re parent b () = Ret (res, b', ()) /\ visited b'.2 re res
  /\ (b'.2 = false -> b.2 = false)
  /\ (Z.of_nat (nodes re) <= b.1 -> b'.2 = b.2 /\ b.1 - Z.of_nat (nodes re) <= b'.1).

Lemma visits_children re pre : forall l done args b,
  Forall visits l -> Forall ok l -> sub_ re = done ++ l -> Forall2 (visited b.2) done args ->
  exists args' b',
    walk_children Copy same_child true walk re pre l args b () = Ret (args', b', ())
    /\ Forall2 (visited b'.2) (sub_ re) args' /\ (b'.2 = false -> b.2 = false)
    /\ (Z.of_nat (sum_nodes l) <= b.1 -> b'.2 = b.2 /\ b.1 - Z.of_nat (sum_nodes l) <= b'.1).
Proof.
  induction l as [|sub l IH]; intros done args b Hl Hok Hd Hargs.
  { exists args, b. rewrite app_nil_r in Hd. rewrite Hd. split_and!; [done..|]. intros _. split; [done|simpl; lia]. }
  apply Forall_cons in Hl as [Hsub Hl], Hok as [Hoksub Hok].
  assert (Hd' : sub_ re = (done ++ [sub]) ++ l) by (by rewrite <- app_assoc).
  cbn [walk_children]. unfold mbind, comp_bind.
  destruct (reused same_child true re args) as [arg|] eqn:Er.
  - (* the last argument again *)
    unfold reused in Er. destruct args as [|arg0 args0] using rev_ind; [done|]. clear IHargs0.
    rewrite last_snoc in Er. cbn [mbind option_bind andb] in Er.
    destruct (same_child re _) eqn:Es; [|done]. injection Er as ->.
    rewrite length_app, Nat.add_1_r in Es. pose proof (Forall2_length _ _ _ Hargs) as Hlen. rewrite length_app in Hlen.
    destruct done as [|y done0] using rev_ind; [simpl in Hlen; lia|]. clear IHdone0.
    apply same_child_eq in Es. rewrite Hd, <- app_assoc in Es. rewrite length_app in Hlen. simpl in Hlen.
    replace (length args0) with (length done0) in Es by lia. cbn [app] in Es.
    rewrite list_lookup_middle in Es by done.
    rewrite lookup_app_r, Nat.sub_succ_l, Nat.sub_diag in Es by lia. cbn in Es. injection Es as ->.
    cbn [Copy mret comp_ret].
    destruct (IH ((done0 ++ [sub]) ++ [sub]) ((args0 ++ [arg]) ++ [arg]) b) as (args'&b'&E&H1&H2&H3); [done|done|done| |].
    + apply Forall2_app; [done|]. apply Forall2_app_inv_l in Hargs as (?&?&_&Hlast&Eq).
      apply Forall2_cons_inv_l in Hlast as (a&?&Ha&->%Forall2_nil_inv_l&->). apply app_inj_tail in Eq as [_ <-].
      by repeat constructor.
    + exists args', b'. rewrite E. split_and!; [done|done|done|]. cbn [sum_nodes foldr] in *. unfold sum_nodes in *.
      intros Hb. destruct H3 as [H3 H3']; [lia|]. split; [done|lia].
  - destruct (Hsub pre b Hoksub) as (res&b1&E1&V1&M1&N1). rewrite E1.
    destruct (IH (done ++ [sub]) (args ++ [res]) b1) as (args'&b'&E&H1&H2&H3); [done|done|done| |].
    + apply Forall2_app; [|by repeat constructor]. eapply Forall2_impl; [exact Hargs|]. intros x y. by apply visited_weaken.
    + exists args', b'. rewrite E. split_and!; [done|done|auto|].
      cbn [sum_nodes foldr] in *. unfold sum_nodes in *. intros Hb. destruct N1 as [N1 N1']; [lia|]. destruct H3 as [H3 H3']; [lia|].
      split; [congruence|lia].
Qed.

Lemma visits_all re : visits re.
Proof.
  induction re as [op f sm subs IH] using Regexp_rec_subs. set (re := Re op f sm subs) in *.
  intros parent b Hok. rewrite walk_unfold. unfold mbind, comp_bind. case_decide as Hb.
  { exists (Some (re, true)), (b.1 - 1, true). split_and!; [done| |done|].
    - exists re, true. by split_and!.
    - rewrite nodes_subs. cbn in *. lia. }
  assert (Hpre : PreVisit re parent () = Ret (if simple_ re then (Some (re, true), true) else (None, false), ()))
    by (unfold PreVisit; by destruct (simple_ re)).
  rewrite Hpre. destruct (simple_ re) eqn:Es.
  { exists (Some (re, true)), (b.1 - 1, b.2). split_and!; [done| |done|].
    - exists re, true. split_and!; [done|done|]. intros _ Hf. by apply flags_ok_simple.
    - rewrite nodes_subs. intros _. cbn. split; [done|lia]. }
  pose proof Hok as [_ Hoks]%re_ok_unfold.
  destruct (visits_children re None subs [] [] (b.1 - 1, b.2)) as (args&b'&E&H1&H2&H3); [done|done|done|constructor|].
  change (sub_ re) with subs. rewrite E.
  destruct (PostVisit_visited b'.2 re parent None args Hok H1) as (res&E2&V). rewrite E2.
  exists res, b'. split_and!; [done|done|exact H2|]. rewrite nodes_subs. change (sub_ re) with subs. cbn [fst snd] in H3.
  intros Hn. destruct H3 as [H3 H3']; [lia|]. split; [done|lia].
Qed.
End meaning.

(** [Simplify], in both encodings. *)
Lemma Simplify_good latin1 same_child re :
  (forall re n, same_child re (S n) = true -> sub_ re !! n = sub_ re !! S n) -> re_ok latin1 re ->
  exists sre stopped, Simplify same_child re = Ret (sre, stopped) /\ good latin1 re sre
    /\ (stopped = false -> flags_ok re -> is_simple sre)
    /\ (Z.of_nat (nodes re) <= 1000000 -> stopped = false).
Proof.
  intros Hsame Hok. unfold Simplify. destruct (simple_ re) eqn:Es.
  { exists re, false. split; [done|]. split; [by split|]. split; [|done]. intros _ ?. by apply flags_ok_simple. }
  unfold Walk, WalkInternal. rewrite WalkInternal_walk by lia. unfold mbind, comp_bind.
  destruct (visits_all latin1 same_child Hsame re None (1000000, false) Hok) as (res&b&->&(sre&same&->&Hg&Hs)&_&Hb).
  exists sre, b.2. split; [done|]. split; [done|]. split; [exact Hs|]. intros Hn. by destruct Hb as [-> _].
Qed.

(** ** Properties *)


(** [(?:ab{2,3}|[^\x{0}-\x{10FFFF}])*] *)
Definition some_repeats : Regexp :=
  new_Regexp kRegexpStar 0
    [Alternate
       [Concat [set_simple true (NewLiteral 97 0); Repeat (set_simple true (NewLiteral 98 0)) 0 2 3] 0;
        NewCharClass new_CharClass 0] 0].

