(* ===== verification/Prog.v ===== *)
(** * Compiled regular expressions: src/libs/re2/src/re2/prog.h and prog.cc

    An [Inst *] is the number of the instruction in the order of allocation,
    its [id_].  While a program is compiled, the word of an instruction that
    is to point to the next one can hold the next entry of a patch list
    instead; that is why a word has three forms. *)

From S2P Require Import Prelude Rune CharClass Regexp RegexpSem.

#[local] Open Scope Z_scope.

(** ** Bitmaps *)

(** [Bitmap<Bits>], all of its words in one. *)
Definition Bitmap : Type := Z.
Definition Bitmap_Get (b : Bitmap) (k : Z) : bool := Z.testbit b k.
Definition Bitmap_Set (b : Bitmap) (k : Z) : Bitmap := Z.lor b (Z.shiftl 1 k).
Definition Bitmap_Word (b : Bitmap) (i : Z) : Z := uwrap 32 (Z.shiftr b (32 * i)).

(** ** Instructions *)

(** The two words of an instruction that can point to another one. *)
Inductive field := Out | Out1.

(** The address of such a word. *)
Definition loc : Type := (nat * field)%type.

(** What it holds: NULL, an instruction, or the next entry of a patch list. *)
Inductive word :=
| NULL
| ToInst (id : nat)
| ToSlot (l : loc).

(** [InstOp] with the union of its arguments. *)
Inductive InstOp :=
| kInstAlt (out1 : word)
| kInstByteRange (lo hi : Z) (foldcase : bool)
| kInstCapture (cap : Z)
| kInstEmptyWidth (empty : Z)
| kInstMatch
| kInstNop
| kInstFail
| kInstAltMatch (out1 : word).

Record Inst := MkInst { opcode_ : InstOp; out_ : word }.

#[export] Instance field_eq_dec : EqDecision field.
Proof. solve_decision. Defined.
#[export] Instance word_eq_dec : EqDecision word.
Proof. solve_decision. Defined.
#[export] Instance InstOp_eq_dec : EqDecision InstOp.
Proof. solve_decision. Defined.

(** [EmptyOp]. *)
Definition kEmptyBeginLine : Z := Z.shiftl 1 0.
Definition kEmptyEndLine : Z := Z.shiftl 1 1.
Definition kEmptyBeginText : Z := Z.shiftl 1 2.
Definition kEmptyEndText : Z := Z.shiftl 1 3.
Definition kEmptyWordBoundary : Z := Z.shiftl 1 4.
Definition kEmptyNonWordBoundary : Z := Z.shiftl 1 5.

(** [InitByteRange] keeps the low bytes. *)
Definition InitByteRange (lo hi : Z) (foldcase : bool) (out : word) : Inst :=
  MkInst (kInstByteRange (Z.land lo 0xFF) (Z.land hi 0xFF) foldcase) out.

(** [Matches] of a [kInstByteRange]. *)
Definition Matches (lo hi : Z) (foldcase : bool) (c : Z) : bool :=
  let c := if foldcase && bool_decide (65 <= c <= 90) then c + (97 - 65) else c in
  bool_decide (lo <= c <= hi).

(** ** The text around a position *)

Definition IsWordChar (c : Z) : bool :=
  bool_decide (65 <= c <= 90) || bool_decide (97 <= c <= 122) || bool_decide (48 <= c <= 57) || bool_decide (c = 95).

(** Reading [p[0]] and [p[-1]]. *)
Definition at_ (text : bytes) (p : nat) : outcome Z := c ← from_option_or BadIndex (text !! p); mret (uchar c).
Definition before_ (text : bytes) (p : nat) : outcome Z :=
  match p with O => Throw BadIndex | S p' => at_ text p' end.

Definition EmptyFlags (text : bytes) (p : nat) : outcome Z :=
  let bit (b : bool) (f : Z) := if b then f else 0 in
  flags ← (if decide (p = O) then Ret (Z.lor kEmptyBeginText kEmptyBeginLine)
           else c ← before_ text p; Ret (bit (bool_decide (c = 10)) kEmptyBeginLine));
  flags ← (if decide (p = length text) then Ret (Z.lor flags (Z.lor kEmptyEndText kEmptyEndLine))
           else if decide (p < length text)%nat then
             c ← at_ text p; Ret (Z.lor flags (bit (bool_decide (c = 10)) kEmptyEndLine))
           else Ret flags);
  boundary ← (if decide (p = O /\ p = length text) then Ret false
              else if decide (p = O) then c ← at_ text p; Ret (IsWordChar c)
              else if decide (p = length text) then c ← before_ text p; Ret (IsWordChar c)
              else c ← before_ text p; d ← at_ text p; Ret (xorb (IsWordChar c) (IsWordChar d)));
  Ret (if (boundary : bool) then Z.lor flags kEmptyWordBoundary else Z.lor flags kEmptyNonWordBoundary).

(** ** Byte classes *)

(** [MarkByteRange], after its checks. *)
Definition MarkByteRange (lo hi : Z) (b : Bitmap) : outcome Bitmap :=
  if decide (0 <= lo <= 255 /\ 0 <= hi <= 255) then
    Ret (Bitmap_Set (if decide (0 < lo) then Bitmap_Set b (lo - 1) else b) hi)
  else Throw AssertFailed.

(** The loop of [ComputeByteMap]: [bytemap_] from byte [i] on, [bits] being the
    rest of the word and [n] the class. *)
Fixpoint bytemap_loop (fuel : nat) (b : Bitmap) (i bits n : Z) : list Z :=
  match fuel with
  | O => []
  | S fuel' =>
      let bits := if decide (Z.land i 31 = 0) then Bitmap_Word b (Z.shiftr i 5) else bits in
      n :: bytemap_loop fuel' b (i + 1) (Z.shiftr bits 1) (uwrap 8 (n + Z.land bits 1))
  end.

(** [bytemap_]. *)
Definition ComputeByteMap (b : Bitmap) : list Z := bytemap_loop 256 b 0 0 0.

(** ** Running a program *)

(** The word [f] of an instruction. *)
Definition slot (ip : Inst) (f : field) : option word :=
  match f, opcode_ ip with
  | Out, _ => Some (out_ ip)
  | Out1, kInstAlt w | Out1, kInstAltMatch w => Some w
  | Out1, _ => None
  end.

(** The conditions at a position are those an empty-width instruction asks
    for. *)
Definition empty_holds (text : bytes) (empty : Z) (i : nat) : Prop :=
  exists flags, EmptyFlags text i = Ret flags /\ Z.land empty (Z.lnot flags) = 0.

(** An instruction is left through its word [f], from [i] to [j] in the text. *)
Definition leaves (text : bytes) (op : InstOp) (f : field) (i j : nat) : Prop :=
  match op with
  | kInstAlt _ | kInstAltMatch _ => i = j
  | kInstByteRange lo hi fold =>
      f = Out /\ j = S i /\ exists c, text !! i = Some c /\ Matches lo hi fold (uchar c) = true
  | kInstCapture _ | kInstNop => f = Out /\ i = j
  | kInstEmptyWidth empty => f = Out /\ i = j /\ empty_holds text empty i
  | kInstMatch | kInstFail => False
  end.

(** One instruction is run. *)
Definition steps (text : bytes) (insts : list Inst) (x y : nat * nat) : Prop :=
  exists ip f, insts !! x.1 = Some ip /\ slot ip f = Some (ToInst y.1) /\ leaves text (opcode_ ip) f x.2 y.2.

(** ** The conditions of the empty-width operators *)

Lemma IsWordChar_spec c : IsWordChar (uchar c) = is_word_char c.
Proof. unfold IsWordChar, is_word_char. repeat case_bool_decide; cbn; done || tauto. Qed.

Lemma at_spec text p c : text !! p = Some c -> at_ text p = Ret (uchar c).
Proof. unfold at_. by intros ->. Qed.

Lemma newline_spec c : bool_decide (uchar c = 10) = bool_decide (c = "010"%char).
Proof. apply bool_decide_ext. split; [|by intros ->]. intros H. by apply uchar_inj. Qed.

(** Cases of the conditions that are not settled. *)
#[local] Ltac if_decide := repeat
  match goal with |- context [if @decide ?P ?d then _ else _] => destruct (@decide P d); try (exfalso; lia) end.

(** The flags at a position. *)
Definition flags_of (bt bl et el wb : bool) : Z :=
  Z.lor (Z.lor (if bt then 5 else if bl then 1 else 0) (if et then 10 else if el then 2 else 0)) (if wb then 16 else 32).

Lemma EmptyFlags_spec text p : (p <= length text)%nat ->
  EmptyFlags text p = Ret (flags_of (bool_decide (begin_text p)) (bool_decide (begin_line text p))
    (bool_decide (end_text text p)) (bool_decide (end_line text p)) (xorb (word_before text p) (word_at text p))).
Proof.
  intros Hp. unfold EmptyFlags, begin_text, end_text.
  assert (Hlt : p <> length text -> exists c, text !! p = Some c) by (intros; apply lookup_lt_is_Some; lia).
  assert (Hend : p = length text -> text !! p = None) by (intros ->; by apply lookup_ge_None).
  assert (Hel : bool_decide (end_line text p) = bool_decide (p = length text) || bool_decide (text !! p = Some "010"%char))
    by apply bool_decide_or.
  rewrite Hel. clear Hel. destruct p as [|p].
  - rewrite !(bool_decide_true (0%nat = 0%nat)), (bool_decide_true (begin_line text 0)) by (done || by left).
    cbn [word_before]. unfold word_at. destruct (decide (0%nat = length text)) as [E|E].
    + rewrite Hend, bool_decide_true by done. if_decide. by vm_compute.
    + destruct (Hlt E) as [c Hc]. rewrite (bool_decide_false (0%nat = length text)), (at_spec _ _ _ Hc), Hc by done.
      rewrite xorb_false_l, (bool_decide_ext (Some c = Some "010"%char) (c = "010"%char)) by (by split; [intros [=]|intros ->]).
      if_decide. cbn [mbind outcome_bind].
      rewrite newline_spec, IsWordChar_spec. by case_bool_decide; destruct (is_word_char c).
  - destruct (lookup_lt_is_Some_2 text p) as [b Hb]; [lia|].
    rewrite (bool_decide_false (S p = 0%nat)) by done.
    assert (Hbl : bool_decide (begin_line text (S p)) = bool_decide (b = "010"%char)).
    { apply bool_decide_ext. unfold begin_line. split; [|intros ->; right; by exists p].
      intros [?|(i'&[= <-]&Hi)]; [done|congruence]. }
    rewrite Hbl. unfold word_before, word_at. cbn [before_]. rewrite (at_spec _ _ _ Hb), Hb. destruct (decide (S p = length text)) as [E|E].
    + rewrite Hend, (bool_decide_true (S p = length text)), xorb_false_r by done. if_decide.
      cbn [mbind outcome_bind]. rewrite newline_spec, !IsWordChar_spec.
      by case_bool_decide; destruct (is_word_char b).
    + destruct (Hlt E) as [c Hc]. rewrite (bool_decide_false (S p = length text)), (at_spec _ _ _ Hc), Hc by done.
      rewrite (bool_decide_ext (Some c = Some "010"%char) (c = "010"%char)) by (by split; [intros [=]|intros ->]).
      if_decide. cbn [mbind outcome_bind].
      rewrite !newline_spec, !IsWordChar_spec.
      by repeat case_bool_decide; destruct (is_word_char b), (is_word_char c).
Qed.

(** What each single flag asks for. *)
Lemma empty_holds_spec text i :
  (empty_holds text kEmptyBeginLine i <-> (i <= length text)%nat /\ begin_line text i)
  /\ (empty_holds text kEmptyEndLine i <-> (i <= length text)%nat /\ end_line text i)
  /\ (empty_holds text kEmptyBeginText i <-> (i <= length text)%nat /\ begin_text i)
  /\ (empty_holds text kEmptyEndText i <-> (i <= length text)%nat /\ end_text text i)
  /\ (empty_holds text kEmptyWordBoundary i <-> (i <= length text)%nat /\ word_boundary text i)
  /\ (empty_holds text kEmptyNonWordBoundary i <-> (i <= length text)%nat /\ ~ word_boundary text i).
Proof.
  destruct (decide (i <= length text)%nat) as [Hi|Hi].
  2: { assert (H : forall e, ~ empty_holds text e i).
       { intros e (flags&H&_). unfold EmptyFlags, before_, at_ in H. destruct i as [|i]; [lia|].
         destruct (decide (S i = 0%nat)); [done|]. by rewrite (lookup_ge_None_2 text i) in H by lia. }
       pose proof (H kEmptyBeginLine). pose proof (H kEmptyEndLine). pose proof (H kEmptyBeginText).
       pose proof (H kEmptyEndText). pose proof (H kEmptyWordBoundary). pose proof (H kEmptyNonWordBoundary). tauto. }
  assert (H : forall e, empty_holds text e i <-> Z.land e (Z.lnot (flags_of (bool_decide (begin_text i)) (bool_decide (begin_line text i))
    (bool_decide (end_text text i)) (bool_decide (end_line text i)) (xorb (word_before text i) (word_at text i)))) = 0).
  { intros e. unfold empty_holds. rewrite EmptyFlags_spec by done. split; [by intros (flags&[= <-]&?)|intros ?; by eexists]. }
  assert (Hb : begin_text i -> begin_line text i) by (by left).
  assert (He : end_text text i -> end_line text i) by (by left).
  rewrite !H. unfold word_boundary.
  destruct (word_before text i), (word_at text i); repeat case_bool_decide; try tauto;
    repeat match goal with |- context [Z.land ?a ?b] => let v := eval vm_compute in (Z.land a b) in change (Z.land a b) with v end;
    intuition congruence.
Qed.

(** ** Byte classes *)

(** The ends of classes from byte [i] on. *)
Fixpoint marks (b : Bitmap) (i : Z) (k : nat) : Z :=
  match k with O => 0 | S k' => Z.b2z (Bitmap_Get b i) + marks b (i + 1) k' end.

Lemma marks_range b k : forall i, 0 <= marks b i k <= Z.of_nat k.
Proof. induction k as [|k IH]; intros i; cbn [marks]; [lia|]. specialize (IH (i + 1)). destruct (Bitmap_Get b i); cbn; lia. Qed.

Lemma marks_add b k : forall k' i, marks b i (k + k') = marks b i k + marks b (i + Z.of_nat k) k'.
Proof.
  induction k as [|k IH]; intros k' i; cbn [marks Nat.add]; [by rewrite Z.add_0_r|]. rewrite IH.
  replace (i + 1 + Z.of_nat k) with (i + Z.of_nat (S k)) by lia. lia.
Qed.

Lemma marks_none b k : forall i, marks b i k = 0 -> forall j, i <= j < i + Z.of_nat k -> Bitmap_Get b j = false.
Proof.
  induction k as [|k IH]; intros i H j Hj; cbn [marks] in H; [lia|]. pose proof (marks_range b k (i + 1)).
  destruct (Bitmap_Get b i) eqn:E; cbn in H; [lia|]. destruct (decide (j = i)) as [->|]; [done|]. apply (IH (i + 1)); lia.
Qed.

(** The rest of the current word. *)
Definition rest_of (b : Bitmap) (i bits : Z) : Prop := forall j, 0 <= j < 32 - i mod 32 -> Z.testbit bits j = Z.testbit b (i + j).

Lemma rest_of_word b i : 0 <= i -> Z.land i 31 = 0 -> rest_of b i (Bitmap_Word b (Z.shiftr i 5)).
Proof.
  intros Hi H0 j Hj. change 31 with (Z.ones 5) in H0. rewrite Z.land_ones in H0 by lia. change (2 ^ 5) with 32 in H0.
  unfold Bitmap_Word, uwrap. rewrite Z.mod_pow2_bits_low by lia. rewrite Z.shiftr_spec by lia. f_equal.
  rewrite Z.shiftr_div_pow2 by lia. change (2 ^ 5) with 32. pose proof (Z.div_mod i 32). lia.
Qed.

Lemma rest_of_next b i bits : 0 <= i -> rest_of b i bits -> Z.land (i + 1) 31 <> 0 -> rest_of b (i + 1) (Z.shiftr bits 1).
Proof.
  intros Hi H Hn j Hj. change 31 with (Z.ones 5) in Hn. rewrite Z.land_ones in Hn by lia. change (2 ^ 5) with 32 in Hn.
  assert (Hm : (i + 1) mod 32 = i mod 32 + 1).
  { pose proof (Z.div_mod i 32 ltac:(lia)). pose proof (Z.mod_pos_bound i 32 ltac:(lia)).
    destruct (decide (i mod 32 = 31)) as [E|]; [|symmetry; apply (Z.mod_unique _ _ (i / 32)); lia].
    exfalso. apply Hn. symmetry. apply (Z.mod_unique _ _ (i / 32 + 1)); lia. }
  rewrite Z.shiftr_spec by lia. rewrite H by lia. f_equal. lia.
Qed.

Lemma bytemap_loop_spec b fuel : forall i bits n, 0 <= i -> 0 <= n < 256 -> (Z.land i 31 <> 0 -> rest_of b i bits) ->
  forall k, (k < fuel)%nat -> bytemap_loop fuel b i bits n !! k = Some (uwrap 8 (n + marks b i k)).
Proof.
  induction fuel as [|fuel IH]; intros i bits n Hi Hn Hb k Hk; [lia|]. cbn [bytemap_loop].
  destruct k as [|k]; cbn [lookup list_lookup marks].
  { f_equal. unfold uwrap. rewrite Z.add_0_r, Z.mod_small; [done|]. change (2 ^ 8) with 256. lia. }
  set (bits' := if decide (Z.land i 31 = 0) then _ else bits).
  assert (H : rest_of b i bits') by (unfold bits'; case_decide; [by apply rest_of_word|by apply Hb]).
  assert (H0 : Z.land bits' 1 = Z.b2z (Bitmap_Get b i)).
  { change 1 with (Z.ones 1). rewrite Z.land_ones by lia. rewrite <- Z.bit0_mod. f_equal.
    pose proof (Z.mod_pos_bound i 32 ltac:(lia)). rewrite H by lia. unfold Bitmap_Get. f_equal. lia. }
  etrans; [apply IH; [lia| | |lia]|].
  - unfold uwrap. change (2 ^ 8) with 256. apply Z.mod_pos_bound. lia.
  - intros Hn'. by apply rest_of_next.
  - f_equal. rewrite H0. unfold uwrap. rewrite Zplus_mod_idemp_l. f_equal. lia.
Qed.

(** Bytes of one class: no class ends between them. *)
Lemma ComputeByteMap_class b c d : (c <= d < 256)%nat ->
  ComputeByteMap b !! c = ComputeByteMap b !! d -> forall k, Z.of_nat c <= k < Z.of_nat d -> Bitmap_Get b k = false.
Proof.
  intros Hcd. unfold ComputeByteMap. rewrite !bytemap_loop_spec by (done || lia). intros [= E] k Hk.
  replace d with (c + (d - c))%nat in E by lia. rewrite marks_add, !Z.add_0_l in E. pose proof (marks_range b (d - c) (Z.of_nat c)) as Hr.
  apply (marks_none b (d - c) (Z.of_nat c)); [|lia]. unfold uwrap in E. change (2 ^ 8) with 256 in E.
  pose proof (Z.div_mod (marks b 0 c) 256 ltac:(lia)). pose proof (Z.div_mod (marks b 0 c + marks b (Z.of_nat c) (d - c)) 256 ltac:(lia)).
  lia.
Qed.
