(* ===== verification/Compile.v ===== *)
(** * The compiler: src/libs/re2/src/re2/compile.cc

    A regular expression is compiled bottom up: the fragment of a node is put
    together from those of its children, which are left open where they end;
    the open words of a fragment are linked to a list through the words
    themselves and are patched when it is known where the program goes on.
    Logging is not modelled. *)

From stdpp Require Import gmap.
From S2P Require Import Prelude Rune CharClass Regexp Walker RegexpSem Simplify Prog.

#[local] Open Scope Z_scope.

(** ** Instructions in memory *)

(** An [Inst *], NULL being None. *)
Definition ptr : Type := option nat.

Definition word_of (p : ptr) : word := match p with Some id => ToInst id | None => NULL end.

(** The word of [ip] changed to [w]. *)
Definition set_slot (f : field) (w : word) (ip : Inst) : option Inst :=
  match f, opcode_ ip with
  | Out, op => Some (MkInst op w)
  | Out1, kInstAlt _ => Some (MkInst (kInstAlt w) (out_ ip))
  | Out1, kInstAltMatch _ => Some (MkInst (kInstAltMatch w) (out_ ip))
  | Out1, _ => None
  end.

Definition read_word (insts : list Inst) (l : loc) : outcome word :=
  from_option_or BadAddress (ip ← insts !! l.1; slot ip l.2).

Definition write_word (insts : list Inst) (l : loc) (w : word) : outcome (list Inst) :=
  from_option_or BadAddress (ip ← insts !! l.1; ip' ← set_slot l.2 w ip; Some (<[l.1 := ip']> insts)).

(** ** Patch lists *)

(** A [PatchList *]: the first open word. *)
Definition PatchList : Type := option loc.

(** [ll->next]: a word of a patch list cannot point to an instruction. *)
Definition next (insts : list Inst) (l : loc) : outcome PatchList :=
  w ← read_word insts l;
  match w with
  | NULL => Ret None
  | ToSlot l' => Ret (Some l')
  | ToInst _ => Throw BadAddress
  end.

Definition word_of_list (l : PatchList) : word := match l with Some l => ToSlot l | None => NULL end.

Fixpoint patch_loop (fuel : nat) (insts : list Inst) (ll : PatchList) (val : ptr) : outcome (list Inst) :=
  match fuel, ll with
  | _, None => Ret insts
  | O, Some _ => Throw OutOfFuel
  | S fuel', Some l =>
      nxt ← next insts l;
      insts ← write_word insts l (word_of val);
      patch_loop fuel' insts nxt val
  end.

(** There are at most two words for each instruction. *)
Definition Patch (insts : list Inst) (l : PatchList) (val : ptr) : outcome (list Inst) :=
  patch_loop (2 * length insts) insts l val.

(** The loop of [Append]: the last word of the list. *)
Fixpoint append_loop (fuel : nat) (insts : list Inst) (l : loc) : outcome loc :=
  match fuel with
  | O => Throw OutOfFuel
  | S fuel' =>
      nxt ← next insts l;
      match nxt with Some l' => append_loop fuel' insts l' | None => Ret l end
  end.

Definition Append (insts : list Inst) (l1 l2 : PatchList) : outcome (PatchList * list Inst) :=
  match l1, l2 with
  | None, _ => Ret (l2, insts)
  | _, None => Ret (l1, insts)
  | Some l, Some _ =>
      last ← append_loop (2 * length insts) insts l;
      insts ← write_word insts last (word_of_list l2);
      Ret (l1, insts)
  end.

(** ** The compiler *)

Record Frag := MkFrag { begin : ptr; end_ : PatchList }.

Definition kNullFrag : Frag := MkFrag None None.

Inductive Encoding := kEncodingUTF8 | kEncodingLatin1.

#[export] Instance Encoding_eq_dec : EqDecision Encoding.
Proof. solve_decision. Defined.

(** The [Compiler], with the instructions of [prog_], its count of byte
    instructions and its byte ranges; [fail_inst_] is instruction 0. *)
Record Compiler := MkCompiler {
  insts : list Inst;
  byte_inst_count_ : Z;
  byterange_ : Bitmap;
  failed_ : bool;
  encoding_ : Encoding;
  reversed_ : bool;
  inst_count_ : Z;
  max_inst_ : Z;
  rune_cache_ : gmap Z ptr;
  rune_range_ : Frag;
}.

Definition fail_inst_ : nat := 0.

(** [Compiler::Compiler], with the members that [Compile] sets. *)
Definition new_Compiler (encoding : Encoding) (reversed : bool) (max_inst : Z) : Compiler :=
  MkCompiler [MkInst kInstFail NULL] 0 0 false encoding reversed 1 max_inst ∅ kNullFrag.

Abbreviation compiling := (comp Compiler).

(** What changes one member. *)
Definition set_insts (prog : list Inst) : compiling unit := fun c =>
  Ret ((), MkCompiler prog (byte_inst_count_ c) (byterange_ c) (failed_ c) (encoding_ c) (reversed_ c)
    (inst_count_ c) (max_inst_ c) (rune_cache_ c) (rune_range_ c)).
Definition set_byte_inst_count (n : Z) : compiling unit := fun c =>
  Ret ((), MkCompiler (insts c) n (byterange_ c) (failed_ c) (encoding_ c) (reversed_ c)
    (inst_count_ c) (max_inst_ c) (rune_cache_ c) (rune_range_ c)).
Definition set_byterange (b : Bitmap) : compiling unit := fun c =>
  Ret ((), MkCompiler (insts c) (byte_inst_count_ c) b (failed_ c) (encoding_ c) (reversed_ c)
    (inst_count_ c) (max_inst_ c) (rune_cache_ c) (rune_range_ c)).
Definition set_failed : compiling unit := fun c =>
  Ret ((), MkCompiler (insts c) (byte_inst_count_ c) (byterange_ c) true (encoding_ c) (reversed_ c)
    (inst_count_ c) (max_inst_ c) (rune_cache_ c) (rune_range_ c)).
Definition set_reversed (b : bool) : compiling unit := fun c =>
  Ret ((), MkCompiler (insts c) (byte_inst_count_ c) (byterange_ c) (failed_ c) (encoding_ c) b
    (inst_count_ c) (max_inst_ c) (rune_cache_ c) (rune_range_ c)).
Definition set_inst_count (n : Z) : compiling unit := fun c =>
  Ret ((), MkCompiler (insts c) (byte_inst_count_ c) (byterange_ c) (failed_ c) (encoding_ c) (reversed_ c)
    n (max_inst_ c) (rune_cache_ c) (rune_range_ c)).
Definition set_rune_cache (m : gmap Z ptr) : compiling unit := fun c =>
  Ret ((), MkCompiler (insts c) (byte_inst_count_ c) (byterange_ c) (failed_ c) (encoding_ c) (reversed_ c)
    (inst_count_ c) (max_inst_ c) m (rune_range_ c)).
Definition set_rune_range (f : Frag) : compiling unit := fun c =>
  Ret ((), MkCompiler (insts c) (byte_inst_count_ c) (byterange_ c) (failed_ c) (encoding_ c) (reversed_ c)
    (inst_count_ c) (max_inst_ c) (rune_cache_ c) f).

(** [inst_count_++ > max_inst_] counts the failing call as well. *)
Definition CanAllocInst : compiling bool :=
  c ← comp_get;
  if failed_ c then mret false else
  set_inst_count (inst_count_ c + 1);;
  if decide (max_inst_ c < inst_count_ c) then set_failed;; mret false else mret true.

(** [AllocInst] and the [Init] of the new instruction. *)
Definition AllocInst (ip : Inst) : compiling nat :=
  c ← comp_get; set_insts (insts c ++ [ip]);; mret (length (insts c)).

Definition patch (l : PatchList) (val : ptr) : compiling unit :=
  c ← comp_get; prog ← lift (Patch (insts c) l val); set_insts prog.

Definition append (l1 l2 : PatchList) : compiling PatchList :=
  c ← comp_get; '(l, prog) ← lift (Append (insts c) l1 l2); set_insts prog;; mret l.

(** The instruction a pointer points to. *)
Definition deref (p : ptr) : compiling Inst :=
  c ← comp_get; lift (id ← from_option_or NullDeref p; from_option_or BadAddress (insts c !! id)).

Definition NoMatch : Frag := MkFrag (Some fail_inst_) None.

Definition is_Fail (op : InstOp) : bool := match op with kInstFail => true | _ => false end.
Definition is_Nop (op : InstOp) : bool := match op with kInstNop => true | _ => false end.

Definition IsNoMatch (a : Frag) : compiling bool :=
  match begin a with None => mret true | Some _ => ip ← deref (begin a); mret (is_Fail (opcode_ ip)) end.

Definition Cat (a b : Frag) : compiling Frag :=
  no_a ← IsNoMatch a;
  no_b ← (if (no_a : bool) then mret true else IsNoMatch b);
  if (no_b : bool) then mret NoMatch else
  ip ← deref (begin a);
  if is_Nop (opcode_ ip) && bool_decide (end_ a = option_map (fun id => (id, Out)) (begin a)) && bool_decide (out_ ip = NULL) then
    patch (end_ a) (begin b);; mret b
  else
  c ← comp_get;
  if reversed_ c then patch (end_ b) (begin a);; mret (MkFrag (begin b) (end_ a))
  else patch (end_ a) (begin b);; mret (MkFrag (begin a) (end_ b)).

Definition Alt (a b : Frag) : compiling Frag :=
  no_a ← IsNoMatch a;
  if (no_a : bool) then mret b else
  no_b ← IsNoMatch b;
  if (no_b : bool) then mret a else
  ok ← CanAllocInst;
  if negb ok then mret NoMatch else
  ip ← AllocInst (MkInst (kInstAlt (word_of (begin b))) (word_of (begin a)));
  l ← append (end_ a) (end_ b);
  mret (MkFrag (Some ip) l).

(** [ip->InitAlt(NULL, NULL)] and the assignment after the patch. *)
Definition Star (a : Frag) (nongreedy : bool) : compiling Frag :=
  ok ← CanAllocInst;
  if negb ok then mret NoMatch else
  ip ← AllocInst (MkInst (kInstAlt NULL) NULL);
  patch (end_ a) (Some ip);;
  let f := if nongreedy then Out1 else Out in
  c ← comp_get;
  prog ← lift (write_word (insts c) (ip, f) (word_of (begin a)));
  set_insts prog;;
  mret (MkFrag (Some ip) (Some (ip, if nongreedy then Out else Out1))).

Definition Plus (a : Frag) (nongreedy : bool) : compiling Frag :=
  f ← Star a nongreedy; mret (MkFrag (begin a) (end_ f)).

Definition Quest (a : Frag) (nongreedy : bool) : compiling Frag :=
  ok ← CanAllocInst;
  if negb ok then mret NoMatch else
  ip ← AllocInst (if nongreedy then MkInst (kInstAlt (word_of (begin a))) NULL
                  else MkInst (kInstAlt NULL) (word_of (begin a)));
  l ← append (Some (ip, if nongreedy then Out else Out1)) (end_ a);
  mret (MkFrag (Some ip) l).

Definition mark (lo hi : Z) : compiling unit :=
  c ← comp_get; b ← lift (MarkByteRange lo hi (byterange_ c)); set_byterange b.

(** The upper-case letters of a range whose case is folded are marked too. *)
Definition ByteRange (lo hi : Z) (foldcase : bool) : compiling Frag :=
  ok ← CanAllocInst;
  if negb ok then mret NoMatch else
  c ← comp_get;
  set_byte_inst_count (byte_inst_count_ c + 1);;
  ip ← AllocInst (InitByteRange lo hi foldcase NULL);
  mark lo hi;;
  (if foldcase && bool_decide (lo <= 122) && bool_decide (97 <= hi) then
     let lo := if decide (lo < 97) then 97 else lo in
     let hi := if decide (122 < hi) then 122 else hi in
     if decide (lo <= hi) then mark (lo + 65 - 97) (hi + 65 - 97) else mret ()
   else mret ());;
  mret (MkFrag (Some ip) (Some (ip, Out))).

Definition Nop : compiling Frag :=
  ok ← CanAllocInst;
  if negb ok then mret NoMatch else
  ip ← AllocInst (MkInst kInstNop NULL);
  mret (MkFrag (Some ip) (Some (ip, Out))).

Definition Match : compiling Frag :=
  ok ← CanAllocInst;
  if negb ok then mret NoMatch else
  ip ← AllocInst (MkInst kInstMatch NULL);
  mret (MkFrag (Some ip) None).

(** Where the class of [i], word characters or others, ends: the inner loop of
    [EmptyWidth] from [j] on. *)
Fixpoint class_end (fuel : nat) (i j : Z) : Z :=
  match fuel with
  | O => j
  | S fuel' =>
      if decide (j < 256) then
        if eqb (IsWordChar i) (IsWordChar j) then class_end fuel' i (j + 1) else j
      else j
  end.

Fixpoint mark_words (fuel : nat) (i : Z) : compiling unit :=
  match fuel with
  | O => comp_throw OutOfFuel
  | S fuel' =>
      if decide (i < 256) then
        let j := class_end 256 i (i + 1) in
        mark i (j - 1);; mark_words fuel' j
      else mret ()
  end.

Definition EmptyWidth (empty : Z) : compiling Frag :=
  ok ← CanAllocInst;
  if negb ok then mret NoMatch else
  ip ← AllocInst (MkInst (kInstEmptyWidth empty) NULL);
  (if decide (Z.land empty (Z.lor kEmptyBeginLine kEmptyEndLine) <> 0) then mark 10 10 else mret ());;
  (if decide (Z.land empty (Z.lor kEmptyWordBoundary kEmptyNonWordBoundary) <> 0) then mark_words 257 0 else mret ());;
  mret (MkFrag (Some ip) (Some (ip, Out))).

(** The second [CanAllocInst] is not called where the first fails. *)
Definition Capture (a : Frag) (n : Z) : compiling Frag :=
  ok ← CanAllocInst;
  ok ← (if (ok : bool) then CanAllocInst else mret false);
  if negb ok then mret NoMatch else
  left ← AllocInst (MkInst (kInstCapture (2 * n)) (word_of (begin a)));
  right ← AllocInst (MkInst (kInstCapture (2 * n + 1)) NULL);
  patch (end_ a) (Some right);;
  mret (MkFrag (Some left) (Some (right, Out))).

(** ** Rune ranges *)

Definition MaxRune (len : Z) : Z :=
  let b := if decide (len = 1) then 7 else 8 - (len + 1) + 6 * (len - 1) in
  Z.shiftl 1 b - 1.

Definition BeginRange : compiling unit := set_rune_cache ∅;; set_rune_range kNullFrag.

Definition UncachedRuneByteSuffix (lo hi : Z) (foldcase : bool) (next : ptr) : compiling ptr :=
  f ← ByteRange lo hi foldcase;
  match next with
  | Some _ => patch (end_ f) next
  | None =>
      c ← comp_get;
      l ← append (end_ (rune_range_ c)) (end_ f);
      set_rune_range (MkFrag (begin (rune_range_ c)) l)
  end;;
  mret (begin f).

(** [next->id()], -1 for NULL, as a [uint64]. *)
Definition cache_key (lo hi : Z) (foldcase : bool) (next : ptr) : Z :=
  let id := match next with Some id => Z.of_nat id | None => -1 end in
  Z.lor (Z.lor (Z.lor (uwrap 64 (Z.shiftl (uwrap 64 id) 17)) (Z.shiftl lo 9)) (Z.shiftl hi 1)) (Z.b2z foldcase).

Definition RuneByteSuffix (lo hi : Z) (foldcase : bool) (next : ptr) : compiling ptr :=
  c ← comp_get;
  if bool_decide (encoding_ c = kEncodingLatin1)
     || bool_decide (encoding_ c = kEncodingUTF8) && negb (reversed_ c) && negb (bool_decide (0x80 <= lo) && bool_decide (hi <= 0xbf))
  then UncachedRuneByteSuffix lo hi foldcase next else
  let key := cache_key lo hi foldcase next in
  match rune_cache_ c !! key with
  | Some inst => mret inst
  | None =>
      inst ← UncachedRuneByteSuffix lo hi foldcase next;
      c ← comp_get;
      set_rune_cache (<[key := inst]> (rune_cache_ c));;
      mret inst
  end.

(** Where no instruction may be allocated one is allocated all the same. *)
Definition AddSuffix (ip : ptr) : compiling unit :=
  c ← comp_get;
  match begin (rune_range_ c) with
  | None => set_rune_range (MkFrag ip (end_ (rune_range_ c)))
  | Some _ =>
      ok ← CanAllocInst;
      (if (ok : bool) then mret () else
         c ← comp_get; set_rune_range (MkFrag (Some fail_inst_) (end_ (rune_range_ c))));;
      c ← comp_get;
      alt ← AllocInst (MkInst (kInstAlt (word_of ip)) (word_of (begin (rune_range_ c))));
      set_rune_range (MkFrag (Some alt) (end_ (rune_range_ c)))
  end.

Definition EndRange : compiling Frag := c ← comp_get; mret (rune_range_ c).

Definition AddRuneRangeLatin1 (lo hi : Z) (foldcase : bool) : compiling unit :=
  if decide (hi < lo \/ 0xFF < lo) then mret () else
  let hi := if decide (0xFF < hi) then 0xFF else hi in
  inst ← RuneByteSuffix lo hi foldcase None; AddSuffix inst.

(** [next], [lo] and [hi]. *)
Definition prog_80_10ffff : list (Z * Z * Z) :=
  [(-1, 0x80, 0xBF); (0, 0xC2, 0xDF);
   (0, 0xA0, 0xBF); (2, 0xE0, 0xE0); (0, 0x80, 0xBF); (4, 0xE1, 0xEF);
   (4, 0x90, 0xBF); (6, 0xF0, 0xF0); (4, 0x80, 0xBF); (8, 0xF1, 0xF3); (4, 0x80, 0x8F); (10, 0xF4, 0xF4)].

(** The loop of [Add_80_10ffff]: [inst] is the array filled so far. *)
Fixpoint add_table (table : list (Z * Z * Z)) (inst : list ptr) : compiling unit :=
  match table with
  | [] => mret ()
  | (next, lo, hi) :: table' =>
      next ← (if decide (0 <= next) then lift (from_option_or BadIndex (inst !! Z.to_nat next)) else mret None);
      ip ← UncachedRuneByteSuffix lo hi false next;
      (if decide (Z.land lo 0xC0 <> 0x80) then AddSuffix ip else mret ());;
      add_table table' (inst ++ [ip])
  end.

Definition Add_80_10ffff : compiling unit := add_table prog_80_10ffff [].

(** How [AddRuneRangeUTF8] splits a range: the first of [i] = 1, 2, 3 for which
    a test holds. *)
Definition split_length (lo hi : Z) : option Z :=
  List.find (fun max => bool_decide (lo <= max) && bool_decide (max < hi)) (MaxRune <$> [1; 2; 3]).

(** [m] and [~m], as [uint]s. *)
Definition low_mask (i : Z) : Z := Z.shiftl 1 (6 * i) - 1.
Definition high_mask (i : Z) : Z := uwrap 32 (Z.lnot (low_mask i)).

Fixpoint split_prefix (lo hi : Z) (levels : list Z) : option (Z * Z) :=
  match levels with
  | [] => None
  | i :: levels' =>
      let m := low_mask i in
      let notm := high_mask i in
      if decide (Z.land lo notm <> Z.land hi notm) then
        if decide (Z.land lo m <> 0) then Some (Z.lor lo m, Z.lor lo m + 1)
        else if decide (Z.land hi m <> m) then Some (Z.land hi notm - 1, Z.land hi notm)
        else split_prefix lo hi levels'
      else split_prefix lo hi levels'
  end.

(** The bytes of the two ends from the last to the first, or, for a reversed
    program, from the first to the last. *)
Fixpoint add_bytes (ranges : list (Z * Z)) (ip : ptr) : compiling ptr :=
  match ranges with
  | [] => mret ip
  | (lo, hi) :: ranges' => ip ← RuneByteSuffix lo hi false ip; add_bytes ranges' ip
  end.

Fixpoint AddRuneRangeUTF8 (fuel : nat) (lo hi : Z) (foldcase : bool) : compiling unit :=
  match fuel with
  | O => comp_throw OutOfFuel
  | S fuel' =>
      if decide (hi < lo) then mret () else
      c ← comp_get;
      if bool_decide (lo = 0x80) && bool_decide (hi = 0x10ffff) && negb (reversed_ c) then Add_80_10ffff else
      match split_length lo hi with
      | Some max => AddRuneRangeUTF8 fuel' lo max foldcase;; AddRuneRangeUTF8 fuel' (max + 1) hi foldcase
      | None =>
          if decide (hi < Runeself) then inst ← RuneByteSuffix lo hi foldcase None; AddSuffix inst else
          match split_prefix lo hi [1; 2; 3] with
          | Some (hi', lo') => AddRuneRangeUTF8 fuel' lo hi' foldcase;; AddRuneRangeUTF8 fuel' lo' hi foldcase
          | None =>
              let ranges := zip (uchar <$> runetochar lo) (uchar <$> runetochar hi) in
              ip ← add_bytes (if reversed_ c then ranges else reverse ranges) None;
              AddSuffix ip
          end
      end
  end.

(** The recursion is at most ten deep: [range_depth_bound]. *)
Definition AddRuneRange (lo hi : Z) (foldcase : bool) : compiling unit :=
  c ← comp_get;
  match encoding_ c with
  | kEncodingUTF8 => AddRuneRangeUTF8 10 lo hi foldcase
  | kEncodingLatin1 => AddRuneRangeLatin1 lo hi foldcase
  end.

(** ** Nodes *)

(** The bytes after the first of a literal in UTF-8. *)
Fixpoint cat_bytes (f : Frag) (buf : list Z) : compiling Frag :=
  match buf with
  | [] => mret f
  | b :: buf' => f1 ← ByteRange b b false; f ← Cat f f1; cat_bytes f buf'
  end.

Definition Literal (r : Z) (foldcase : bool) : compiling Frag :=
  c ← comp_get;
  match encoding_ c with
  | kEncodingLatin1 => ByteRange r r foldcase
  | kEncodingUTF8 =>
      if decide (r < Runeself) then ByteRange r r foldcase else
      match uchar <$> runetochar r with
      | [] => comp_throw BadIndex
      | b :: buf => f ← ByteRange b b false; cat_bytes f buf
      end
  end.

Fixpoint cat_literals (f : Frag) (runes : list Z) (foldcase : bool) : compiling Frag :=
  match runes with
  | [] => mret f
  | r :: runes' => f1 ← Literal r foldcase; f ← Cat f f1; cat_literals f runes' foldcase
  end.

(** [f = join(f, child_frags[i])] for the children after the first. *)
Fixpoint join_frags (join : Frag -> Frag -> compiling Frag) (f : Frag) (child_frags : list Frag) : compiling Frag :=
  match child_frags with
  | [] => mret f
  | g :: child_frags' => f ← join f g; join_frags join f child_frags'
  end.

Definition child (child_frags : list Frag) (i : nat) : compiling Frag :=
  lift (from_option_or BadIndex (child_frags !! i)).

(** The ranges of a character class; [foldascii] as in the code. *)
Fixpoint add_class (rs : list RuneRange) (foldascii : bool) : compiling unit :=
  match rs with
  | [] => mret ()
  | (lo, hi) :: rs' =>
      (if foldascii && bool_decide (65 <= lo) && bool_decide (hi <= 90) then mret () else
       let fold := if decide ((lo <= 65 /\ 122 <= hi) \/ hi < 65 \/ 122 < lo) then false else foldascii in
       AddRuneRange lo hi fold);;
      add_class rs' foldascii
  end.

Definition PreVisit (re : Regexp) (parent_arg : Frag) : compiling (Frag * bool) :=
  c ← comp_get; mret (kNullFrag, failed_ c).

Definition ShortVisit (re : Regexp) (parent_arg : Frag) : compiling Frag := set_failed;; mret NoMatch.
Definition Copy (arg : Frag) : compiling Frag := set_failed;; mret NoMatch.

Definition PostVisit (re : Regexp) (parent_arg pre_arg : Frag) (child_frags : list Frag) : compiling Frag :=
  c ← comp_get;
  if failed_ c then mret NoMatch else
  let nongreedy := flag (parse_flags_ re) NonGreedy in
  let foldcase := flag (parse_flags_ re) FoldCase in
  match op_ re with
  | kRegexpRepeat _ _ => set_failed;; mret NoMatch
  | kRegexpNoMatch => mret NoMatch
  | kRegexpEmptyMatch => Nop
  | kRegexpConcat => f ← child child_frags 0; join_frags Cat f (tail child_frags)
  | kRegexpAlternate => f ← child child_frags 0; join_frags Alt f (tail child_frags)
  | kRegexpStar => f ← child child_frags 0; Star f nongreedy
  | kRegexpPlus => f ← child child_frags 0; Plus f nongreedy
  | kRegexpQuest => f ← child child_frags 0; Quest f nongreedy
  | kRegexpLiteral rune => Literal rune foldcase
  | kRegexpLiteralString [] => Nop
  | kRegexpLiteralString (r :: runes) => f ← Literal r foldcase; cat_literals f runes foldcase
  | kRegexpAnyChar => BeginRange;; AddRuneRange 0 Runemax false;; EndRange
  | kRegexpAnyByte => ByteRange 0x00 0xFF false
  | kRegexpCharClass cc =>
      if CharClass.empty cc then set_failed;; mret NoMatch else
      BeginRange;; add_class (ranges_ cc) (FoldsASCII cc);; EndRange
  | kRegexpCapture cap _ =>
      f ← child child_frags 0;
      if decide (cap < 0) then mret f else Capture f cap
  | kRegexpBeginLine => EmptyWidth (if reversed_ c then kEmptyEndLine else kEmptyBeginLine)
  | kRegexpEndLine => EmptyWidth (if reversed_ c then kEmptyBeginLine else kEmptyEndLine)
  | kRegexpBeginText => EmptyWidth (if reversed_ c then kEmptyEndText else kEmptyBeginText)
  | kRegexpEndText => EmptyWidth (if reversed_ c then kEmptyBeginText else kEmptyEndText)
  | kRegexpWordBoundary => EmptyWidth kEmptyWordBoundary
  | kRegexpNoWordBoundary => EmptyWidth kEmptyNonWordBoundary
  end.

(** ** The whole program *)

(** [IsAnchorStart] and [IsAnchorEnd]: whether an anchor was taken out, and the
    expression without it. *)
Fixpoint IsAnchorStart (re : Regexp) : bool * Regexp :=
  let 'Re op flags simple subs := re in
  match op with
  | kRegexpConcat | kRegexpCapture _ _ =>
      match subs with
      | sub :: subs' => let '(b, sub) := IsAnchorStart sub in (b, Re op flags simple (sub :: subs'))
      | [] => (false, re)
      end
  | kRegexpBeginText => (true, LiteralString [] flags)
  | _ => (false, re)
  end.

Fixpoint IsAnchorEnd (re : Regexp) : bool * Regexp :=
  let 'Re op flags simple subs := re in
  match op with
  | kRegexpConcat | kRegexpCapture _ _ =>
      let '(b, subs) := (fix last_sub (l : list Regexp) : bool * list Regexp :=
        match l with
        | [] => (false, [])
        | [sub] => let '(b, sub) := IsAnchorEnd sub in (b, [sub])
        | sub :: l' => let '(b, l') := last_sub l' in (b, sub :: l')
        end) subs in
      (b, Re op flags simple subs)
  | kRegexpEndText => (true, LiteralString [] flags)
  | _ => (false, re)
  end.
