(* ===== verification/CompileSem.v ===== *)
(** * What a part of a program does

    A fragment is a set of instructions with some words left open.  [runs] is
    the relation between where it is entered in the text and where it is left
    through one of its open words; the lemmas say what patching, linking and
    joining fragments does to it. *)

From stdpp Require Import gmap fin_sets relations.
From S2P Require Import Prelude Rune CharClass Regexp RegexpSem Walker Prog Compile.

#[local] Open Scope nat_scope.
#[local] Open Scope xap_scope.

(** ** The words and the kinds of instructions *)

(** The instruction without the word among its arguments. *)
Definition kind (op : InstOp) : InstOp :=
  match op with kInstAlt _ => kInstAlt NULL | kInstAltMatch _ => kInstAltMatch NULL | _ => op end.

Definition op_at (prog : list Inst) (x : nat) : option InstOp := ip ← prog !! x; Some (kind (opcode_ ip)).
Definition target (prog : list Inst) (l : loc) : option word := ip ← prog !! l.1; slot ip l.2.

Lemma leaves_kind text op f i j : leaves text (kind op) f i j <-> leaves text op f i j.
Proof. by destruct op. Qed.

Lemma target_op prog l w : target prog l = Some w -> is_Some (op_at prog l.1).
Proof. unfold target, op_at. destruct (prog !! l.1); [by eexists|done]. Qed.

(** [prog'] is [prog] with the words [ls] changed to [w]. *)
Record patched (prog prog' : list Inst) (ls : list loc) (w : word) : Prop := {
  patched_length : length prog' = length prog;
  patched_op x : op_at prog' x = op_at prog x;
  patched_target l : target prog' l = if decide (l ∈ ls) then Some w else target prog l;
  patched_same x : (forall f, (x, f) ∉ ls) -> prog' !! x = prog !! x;
}.

Lemma patched_nil prog w : patched prog prog [] w.
Proof. split; [done..|]. intros. done. Qed.

Lemma patched_cons prog prog1 prog2 l ls w :
  patched prog prog1 [l] w -> patched prog1 prog2 ls w -> patched prog prog2 (l :: ls) w.
Proof.
  intros [L1 O1 T1 S1] [L2 O2 T2 S2]. split.
  - congruence.
  - intros x. by rewrite O2, O1.
  - intros l'. rewrite T2, T1. repeat case_decide; set_solver.
  - intros x Hx. rewrite S2, S1; [done|intros f; specialize (Hx f); set_solver..].
Qed.

Lemma set_slot_spec f w ip : is_Some (slot ip f) -> exists ip', set_slot f w ip = Some ip'
  /\ kind (opcode_ ip') = kind (opcode_ ip) /\ slot ip' f = Some w
  /\ forall f', f' <> f -> slot ip' f' = slot ip f'.
Proof.
  destruct ip as [op o]. intros [w' Hw]. destruct f; [|destruct op; try done];
    (eexists; split_and!; [done..|]; by intros []).
Qed.

Lemma write_word_spec prog l w : is_Some (target prog l) ->
  exists prog', write_word prog l w = Ret prog' /\ patched prog prog' [l] w.
Proof.
  destruct l as [x f]. unfold target, write_word. cbn. destruct (prog !! x) as [ip|] eqn:Hx; [|by intros [??]].
  cbn. intros Hs. destruct (set_slot_spec f w ip Hs) as (ip'&->&Hk&Hf&Ho). eexists. split; [done|].
  pose proof (lookup_lt_Some _ _ _ Hx) as Hlt. split.
  - apply length_insert.
  - intros y. unfold op_at. destruct (decide (y = x)) as [->|Hy].
    + rewrite list_lookup_insert_eq, Hx by done. cbn. by rewrite Hk.
    + by rewrite list_lookup_insert_ne.
  - intros [y g]. unfold target. cbn. destruct (decide (y = x)) as [->|Hy].
    + rewrite list_lookup_insert_eq, Hx by done. cbn. case_decide as Hin; [set_solver|].
      apply Ho. set_solver.
    + rewrite list_lookup_insert_ne by done. by rewrite decide_False by set_solver.
  - intros y Hy. rewrite list_lookup_insert_ne; [done|]. intros <-. specialize (Hy f). set_solver.
Qed.

(** ** Patch lists *)

(** [p] is a list of the words [ls]. *)
Fixpoint plist (prog : list Inst) (p : PatchList) (ls : list loc) : Prop :=
  match ls with
  | [] => p = None
  | l :: ls' => p = Some l /\ exists q, target prog l = Some (word_of_list q) /\ plist prog q ls'
  end.

Lemma plist_proper prog prog' p ls : (forall l, l ∈ ls -> target prog' l = target prog l) ->
  plist prog p ls -> plist prog' p ls.
Proof.
  revert p. induction ls as [|l ls IH]; intros p H; [done|]. cbn. intros (->&q&Hq&Hp).
  split; [done|]. exists q. split; [rewrite H; set_solver|]. apply IH; [set_solver|done].
Qed.

Lemma plist_target prog p ls l : plist prog p ls -> l ∈ ls -> exists q, target prog l = Some (word_of_list q).
Proof.
  revert p. induction ls as [|l' ls IH]; intros p; [set_solver|]. cbn. intros (->&q&Hq&Hp) [->|Hl]%elem_of_cons; eauto.
Qed.

(** There are two words for each instruction at most. *)
Lemma words_bound (prog : list Inst) (ls : list loc) : NoDup ls -> (forall l, l ∈ ls -> l.1 < length prog) -> (length ls <= 2 * length prog)%nat.
Proof.
  intros Hnd Hin. set (all := (x ← seq 0 (length prog); [(x, Out); (x, Out1)]) : list loc).
  assert (Hall : forall n k, length ((x ← seq k n; [(x, Out); (x, Out1)]) : list loc) = 2 * n).
  { induction n as [|n IH]; intros k; [done|]. cbn. specialize (IH (S k)). cbn in IH. rewrite IH. lia. }
  rewrite <- (Hall (length prog) 0). fold all.
  apply submseteq_length, NoDup_submseteq; [done|]. intros [x f] Hx. unfold all.
  apply list_elem_of_bind. exists x. split; [destruct f; set_solver|]. apply elem_of_seq. specialize (Hin _ Hx). cbn in Hin. lia.
Qed.

Lemma next_spec prog l q : target prog l = Some (word_of_list q) -> next prog l = Ret q.
Proof.
  unfold next, read_word, target. destruct (prog !! l.1) as [ip|]; [|done]. cbn. intros ->. by destruct q.
Qed.

Lemma patch_loop_spec val : forall ls fuel prog p, plist prog p ls -> NoDup ls -> length ls <= fuel ->
  exists prog', patch_loop fuel prog p val = Ret prog' /\ patched prog prog' ls (word_of val).
Proof.
  induction ls as [|l ls IH]; intros fuel prog p Hp Hnd Hf; cbn in *.
  - subst p. exists prog. split; [by destruct fuel|apply patched_nil].
  - destruct Hp as (->&q&Hq&Hp). apply NoDup_cons in Hnd as [Hl Hnd]. destruct fuel as [|fuel]; [lia|].
    destruct (write_word_spec prog l (word_of val)) as (prog1&E1&P1); [by eexists|].
    destruct (IH fuel prog1 q) as (prog'&E2&P2); [|done|lia|].
    { apply (plist_proper prog); [|done]. intros l' Hl'. rewrite (patched_target _ _ _ _ P1). by rewrite decide_False by set_solver. }
    exists prog'. cbn. rewrite (next_spec _ _ _ Hq). cbn. rewrite E1. cbn. split; [done|]. by eapply patched_cons.
Qed.

Lemma plist_lt prog p ls l : plist prog p ls -> l ∈ ls -> l.1 < length prog.
Proof.
  intros Hp Hl. destruct (plist_target _ _ _ _ Hp Hl) as [q Hq]. unfold target in Hq.
  destruct (prog !! l.1) eqn:E; [|done]. by eapply lookup_lt_Some.
Qed.

Lemma Patch_spec prog p ls val : plist prog p ls -> NoDup ls ->
  exists prog', Patch prog p val = Ret prog' /\ patched prog prog' ls (word_of val).
Proof. intros Hp Hnd. apply patch_loop_spec; [done|done|]. apply words_bound; [done|]. intros l. by apply (plist_lt _ p). Qed.

(** [prog'] is [prog] but for how open words among [ls] are linked. *)
Record relinked (prog prog' : list Inst) (ls : list loc) : Prop := {
  relinked_length : length prog' = length prog;
  relinked_op x : op_at prog' x = op_at prog x;
  relinked_target l : l ∉ ls -> target prog' l = target prog l;
  relinked_same x : (forall f, (x, f) ∉ ls) -> prog' !! x = prog !! x;
}.

Lemma append_loop_spec : forall ls fuel prog l, plist prog (Some l) (l :: ls) -> length ls < fuel ->
  exists k, append_loop fuel prog l = Ret k /\ last (l :: ls) = Some k /\ target prog k = Some NULL.
Proof.
  induction ls as [|l' ls IH]; intros fuel prog l Hp Hf; (destruct fuel as [|fuel]; [lia|]).
  - destruct Hp as (_&q&Hq&Hp). cbn in *. subst q. rewrite (next_spec _ _ _ Hq). cbn. by exists l.
  - destruct Hp as (_&q&Hq&Hp). destruct Hp as [-> Hp]. cbn [append_loop]. rewrite (next_spec _ _ _ Hq). cbn [mbind outcome_bind].
    destruct (IH fuel prog l') as (k&->&Hk&Hn); [by split|cbn in Hf; lia|]. by exists k.
Qed.

Lemma plist_app prog p ls k q ls' : plist prog p ls -> last ls = Some k -> NoDup (ls ++ ls') -> plist prog q ls' ->
  forall prog', patched prog prog' [k] (word_of_list q) -> plist prog' p (ls ++ ls').
Proof.
  revert p. induction ls as [|l ls IH]; intros p Hp Hlast Hnd Hq prog' P; [done|].
  destruct Hp as (->&r&Hr&Hp). rewrite <- app_comm_cons in *. apply NoDup_cons in Hnd as [Hl Hnd]. split; [done|].
  destruct ls as [|l2 ls].
  - injection Hlast as ->. exists q. rewrite (patched_target _ _ _ _ P), decide_True by set_solver. split; [done|].
    apply (plist_proper prog); [|done]. intros l' Hl'. rewrite (patched_target _ _ _ _ P). rewrite decide_False; [done|].
    intros ->%list_elem_of_singleton. apply Hl. set_solver.
  - exists r. rewrite (patched_target _ _ _ _ P). rewrite decide_False.
    + split; [done|]. by apply IH.
    + change (last (l2 :: ls) = Some k) in Hlast. apply last_Some_elem_of in Hlast.
      intros ->%list_elem_of_singleton. apply Hl, elem_of_app. by left.
Qed.

Lemma Append_spec prog p1 ls1 p2 ls2 : plist prog p1 ls1 -> plist prog p2 ls2 -> NoDup (ls1 ++ ls2) ->
  exists p prog', Append prog p1 p2 = Ret (p, prog') /\ plist prog' p (ls1 ++ ls2) /\ relinked prog prog' ls1.
Proof.
  intros H1 H2 Hnd. assert (Hrefl : relinked prog prog ls1) by (split; intros; reflexivity).
  destruct ls1 as [|l1 ls1].
  { cbn in H1. subst p1. exists p2, prog. by destruct p2. }
  pose proof H1 as [-> _]. destruct ls2 as [|l2 ls2].
  { cbn in H2. subst p2. exists (Some l1), prog. rewrite app_nil_r. done. }
  pose proof H2 as [-> _]. cbn [Append].
  assert (Hlen : length ls1 < 2 * length prog).
  { apply (words_bound prog (l1 :: ls1)); [by destruct (proj1 (NoDup_app _ _) Hnd)|]. intros l. by apply (plist_lt _ (Some l1)). }
  destruct (append_loop_spec ls1 (2 * length prog) prog l1 H1 Hlen) as (k&->&Hk&Hn). cbn [mbind outcome_bind].
  destruct (write_word_spec prog k (word_of_list (Some l2))) as (prog'&->&P); [by eexists|]. cbn [mbind outcome_bind].
  exists (Some l1), prog'. split; [done|]. split; [by eapply plist_app|].
  apply last_Some_elem_of in Hk. destruct P as [PL PO PT PS]. split; [done|done|..].
  - intros l Hl. rewrite PT. by rewrite decide_False by set_solver.
  - intros x Hx. apply PS. intros f. specialize (Hx f). set_solver.
Qed.

(** ** Running a part of a program *)

Section runs.
Context (text : bytes).

(** The instruction of a word is left through it. *)
Definition moves (prog : list Inst) (l : loc) (i j : nat) : Prop :=
  exists op, op_at prog l.1 = Some op /\ leaves text op l.2 i j.

(** Run from instruction [x] at [i], the program is left through a word of
    [ls] at [j]. *)
Inductive runs (prog : list Inst) (ls : list loc) : nat -> span :=
| runs_out x f i j : (x, f) ∈ ls -> moves prog (x, f) i j -> runs prog ls x i j
| runs_step x f y i k j : target prog (x, f) = Some (ToInst y) -> moves prog (x, f) i k ->
    runs prog ls y k j -> runs prog ls x i j.

(** The spans are the same from the positions of the text on. *)
Definition agree (R1 R2 : span) : Prop := forall i j, i <= length text -> R1 i j <-> R2 i j.

#[export] Instance agree_equivalence : Equivalence agree.
Proof.
  split; unfold agree; [done|intros x y H i j Hi; by rewrite H|intros x y z H1 H2 i j Hi; by rewrite H1, H2].
Qed.
#[export] Instance span_eq_agree : subrelation span_eq agree.
Proof. intros R1 R2 H i j _. apply H. Qed.

(** The text is not left. *)
Definition bounded (R : span) : Prop := forall i j, i <= length text -> R i j -> j <= length text.

Lemma bounded_agree R1 R2 : agree R1 R2 -> bounded R1 -> bounded R2.
Proof. intros H B i j Hi Hr. apply (B i j Hi). by apply H. Qed.

Lemma then_agree R1 R1' R2 R2' : bounded R1 -> agree R1 R1' -> agree R2 R2' -> agree (then_ R1 R2) (then_ R1' R2').
Proof.
  intros B H1 H2 i j Hi. unfold then_.
  split; intros (k&Hk&Hj); exists k.
  - split; [by apply H1|]. apply H2; [by eapply B|done].
  - apply H1 in Hk; [|done]. split; [done|]. apply H2; [by eapply B|done].
Qed.

#[export] Instance or_agree : Proper (agree ==> agree ==> agree) or_.
Proof. intros R1 R1' H1 R2 R2' H2 i j Hi. unfold or_. by rewrite (H1 i j Hi), (H2 i j Hi). Qed.

Lemma rtc_agree R R' : bounded R -> agree R R' -> agree (rtc R) (rtc R').
Proof.
  intros B H. assert (B' : bounded R') by by eapply bounded_agree.
  intros i j Hi. split; intros Hr; revert Hi; induction Hr as [|i k j Hk _ IH]; intros Hi; try done.
  - eapply rtc_l; [by apply H|]. apply IH. by eapply B.
  - eapply rtc_l; [by apply H|]. apply IH. by eapply B'.
Qed.

Lemma moves_bounded prog l : bounded (moves prog l).
Proof.
  intros i j Hi (op&_&H). destruct op; cbn in H; try lia.
  destruct H as (_&->&c&Hc&_). apply lookup_lt_Some in Hc. lia.
Qed.

Lemma runs_bounded prog ls x : bounded (runs prog ls x).
Proof.
  intros i j Hi H. revert Hi. induction H as [x f i j _ Hm|x f y i k j _ Hm _ IH]; intros Hi.
  - by eapply moves_bounded.
  - apply IH. by eapply moves_bounded.
Qed.

(** ** Regions *)

(** In the region, or the instruction that fails. *)
Definition inside (D : gset nat) (x : nat) : Prop := x = 0 \/ x ∈ D.

Definition fails (prog : list Inst) : Prop := prog !! 0 = Some (MkInst kInstFail NULL).

Definition closed (D : gset nat) (prog : list Inst) : Prop :=
  forall x f y, inside D x -> target prog (x, f) = Some (ToInst y) -> inside D y.

(** The same instructions in the region; open words may be linked otherwise. *)
Record same_code (D : gset nat) (prog prog' : list Inst) : Prop := {
  same_op x : inside D x -> op_at prog' x = op_at prog x;
  same_target x f y : inside D x -> target prog' (x, f) = Some (ToInst y) <-> target prog (x, f) = Some (ToInst y);
}.

Lemma same_code_sym D prog prog' : same_code D prog prog' -> same_code D prog' prog.
Proof. intros [H1 H2]. split; intros; symmetry; auto. Qed.

Lemma closed_same D prog prog' : same_code D prog prog' -> closed D prog -> closed D prog'.
Proof. intros S C x f y Hx Ht. apply (same_target _ _ _ S) in Ht; [|done]. by eapply C. Qed.

Lemma moves_same D prog prog' l i j : same_code D prog prog' -> inside D l.1 -> moves prog l i j -> moves prog' l i j.
Proof. intros S Hl (op&Ho&H). exists op. by rewrite (same_op _ _ _ S). Qed.

Lemma moves_fail prog f i j : fails prog -> ~ moves prog (0, f) i j.
Proof. intros F (op&Ho&H). unfold op_at in Ho. cbn in Ho. rewrite F in Ho. by injection Ho as <-. Qed.

Lemma target_fail prog f y : fails prog -> target prog (0, f) <> Some (ToInst y).
Proof. intros F. unfold target. cbn. rewrite F. by destruct f. Qed.

Lemma runs_fail prog ls i j : fails prog -> ~ runs prog ls 0 i j.
Proof. intros F H. inversion H; subst; by eapply moves_fail. Qed.

Lemma runs_frame_1 D prog prog' ls ls' x i j : fails prog -> closed D prog -> same_code D prog prog' ->
  (forall x f, x ∈ D -> (x, f) ∈ ls -> (x, f) ∈ ls') ->
  inside D x -> runs prog ls x i j -> runs prog' ls' x i j.
Proof.
  intros F C S Hls Hx H. revert Hx. induction H as [x f i j Hl Hm|x f y i k j Ht Hm _ IH]; intros Hx.
  - destruct Hx as [->|Hx]; [by apply moves_fail in Hm|]. apply runs_out with f; [auto|].
    eapply moves_same; [done| |done]. by right.
  - apply runs_step with f y k; [by apply (same_target _ _ _ S)|by eapply moves_same|]. apply IH. by eapply C.
Qed.

(** What is outside the region does not matter. *)
Lemma runs_frame D prog prog' ls ls' x i j : fails prog -> fails prog' -> closed D prog -> same_code D prog prog' ->
  (forall x f, x ∈ D -> (x, f) ∈ ls <-> (x, f) ∈ ls') ->
  inside D x -> runs prog' ls' x i j <-> runs prog ls x i j.
Proof.
  intros F F' C S Hls Hx. split; intros H.
  - eapply (runs_frame_1 D prog' prog); [done|by eapply closed_same|by apply same_code_sym| |done|done].
    intros y f Hy. by apply Hls.
  - eapply (runs_frame_1 D prog prog'); [done|done|done| |done|done]. intros y f Hy. by apply Hls.
Qed.

(** Where the open words [ls] of a region are patched with [y], the region is
    run and then the program from [y] on. *)
Lemma runs_patched D prog prog' ls L y x i j : fails prog -> closed D prog ->
  (forall x, inside D x -> op_at prog' x = op_at prog x) ->
  (forall x f w, inside D x -> target prog' (x, f) = Some (ToInst w) <->
     ((x, f) ∈ ls /\ w = y) \/ (~ (x, f) ∈ ls /\ target prog (x, f) = Some (ToInst w))) ->
  (forall l, l ∈ ls -> l.1 ∈ D /\ forall w, target prog l <> Some (ToInst w)) ->
  (forall l, l ∈ L -> l.1 ∉ D) ->
  inside D x -> runs prog' L x i j <-> then_ (runs prog ls x) (runs prog' L y) i j.
Proof.
  intros F C Ho Ht Hls HL Hx.
  assert (Hm : forall x f i j, inside D x -> moves prog' (x, f) i j <-> moves prog (x, f) i j).
  { intros z f i' j' Hz. unfold moves. cbn. by rewrite Ho. }
  assert (F0 : forall f i j, ~ moves prog' (0, f) i j).
  { intros f i' j' H. apply Hm in H; [|by left]. by apply moves_fail in H. }
  split.
  - intros H. revert Hx. induction H as [x f i j Hl Hm'|x f w i k j Hw Hm' Hr IH]; intros Hx.
    + destruct Hx as [->|Hx]; [by apply F0 in Hm'|]. by destruct (HL _ Hl).
    + rewrite Hm in Hm' by done. apply Ht in Hw as [[Hl ->]|[Hl Hw]]; [| |done].
      * exists k. split; [by apply runs_out with f|done].
      * destruct IH as (m&H1&H2); [by eapply C|]. exists m. split; [by apply runs_step with f w k|done].
  - intros (m&H1&H2). revert Hx H2. induction H1 as [x f i j' Hl Hm'|x f w i k j' Hw Hm' Hr IH]; intros Hx H2.
    + apply runs_step with f y j'; [apply Ht; auto|by apply Hm|done].
    + apply runs_step with f w k; [|by apply Hm|apply IH; [by eapply C|done]].
      apply Ht; [done|]. right. split; [|done]. intros Hl. destruct (Hls _ Hl) as [_ Hn]. by apply (Hn w).
Qed.
End runs.
