(* ===== verification/CompileFrags.v ===== *)
(** * Fragments and what the compiler makes of them

    [frag_ok] says that a fragment of the compiler is well formed in memory and,
    as long as the compiler has not given up, does what a span says.  Each
    method that joins or makes fragments keeps the others as they are. *)

From stdpp Require Import gmap fin_sets relations.
From S2P Require Import Prelude Rune CharClass Regexp RegexpSem Walker Prog Compile CompileSem.

#[local] Open Scope nat_scope.
#[local] Open Scope xap_scope.

(** ** Byte classes that the instructions do not tell apart *)

(** No class ends between the two bytes.  A range whose case is folded and that
    has upper-case letters itself is treated as a range without them; where
    they end is marked with the class it is of only.  Ranges start at a byte,
    and there are no marked alternatives before the optimizer. *)
Definition same_class (b : Bitmap) (c d : Z) : Prop :=
  forall k, (Z.min c d <= k < Z.max c d)%Z -> Bitmap_Get b k = false.

Definition op_marked (b : Bitmap) (op : InstOp) : Prop :=
  forall c d, (0 <= c <= 255)%Z -> (0 <= d <= 255)%Z -> same_class b c d ->
  match op with
  | kInstByteRange lo hi fold =>
      (0 <= lo)%Z /\ (fold = false \/ (hi < 65)%Z \/ (90 < lo)%Z -> Matches lo hi fold c = Matches lo hi fold d)
  | kInstEmptyWidth e =>
      (Z.land e (Z.lor kEmptyBeginLine kEmptyEndLine) <> 0%Z -> c = 10%Z <-> d = 10%Z)
      /\ (Z.land e (Z.lor kEmptyWordBoundary kEmptyNonWordBoundary) <> 0%Z -> IsWordChar c = IsWordChar d)
  | kInstAltMatch _ => False
  | _ => True
  end.

Definition marks_kept (b b' : Bitmap) : Prop := forall k, Bitmap_Get b k = true -> Bitmap_Get b' k = true.

Lemma op_marked_kept b b' op : marks_kept b b' -> op_marked b op -> op_marked b' op.
Proof.
  intros K H c d Hc Hd S. apply H; [done..|]. intros k Hk. specialize (S k Hk).
  destruct (Bitmap_Get b k) eqn:E; [|done]. apply K in E. congruence.
Qed.

Definition marked (prog : list Inst) (b : Bitmap) : Prop := forall x op, op_at prog x = Some op -> op_marked b op.

(** ** States of the compiler *)

(** While it has not failed, the compiler has counted its instructions, and
    [k] more that are yet to be allocated. *)
Definition counts (k : Z) (c : Compiler) : Prop :=
  failed_ c = false -> (Z.of_nat (length (insts c)) + k = inst_count_ c /\ inst_count_ c <= max_inst_ c + 1)%Z.

Record sound (c : Compiler) : Prop := {
  sound_counts : counts 0 c;
  sound_fails : fails (insts c);
  sound_marked : marked (insts c) (byterange_ c);
}.

(** What happens between [c] and [c']: only instructions of [D] are changed. *)
Record grows (D : gset nat) (c c' : Compiler) : Prop := {
  grows_encoding : encoding_ c' = encoding_ c;
  grows_reversed : reversed_ c' = reversed_ c;
  grows_max : max_inst_ c' = max_inst_ c;
  grows_failed : failed_ c = true -> failed_ c' = true;
  grows_marks : marks_kept (byterange_ c) (byterange_ c');
  grows_length : length (insts c) <= length (insts c');
  grows_same x : x < length (insts c) -> x ∉ D -> insts c' !! x = insts c !! x;
}.

Lemma grows_refl D c : grows D c c.
Proof. split; unfold marks_kept; done. Qed.

(** The instructions allocated since [c], and those of [D]. *)
Definition since (c : Compiler) (D D' : gset nat) : Prop := forall x, x ∈ D' -> x ∈ D \/ length (insts c) <= x.

Lemma grows_trans D D' c c1 c2 : grows D c c1 -> grows D' c1 c2 -> since c D D' -> grows D c c2.
Proof.
  intros [E1 R1 M1 F1 K1 L1 S1] [E2 R2 M2 F2 K2 L2 S2] H. split; try congruence; unfold marks_kept; auto with lia.
  intros x Hx HD. rewrite S2, S1; [done|done|done|lia|]. intros HD'. destruct (H x HD'); [done|lia].
Qed.

Lemma grows_weaken D D' c c' : grows D c c' -> D ⊆ D' -> grows D' c c'.
Proof. intros [? ? ? ? ? ? S] H. split; auto. Qed.

(** ** Fragments *)

(** The fragment [f] has the instructions [D], and its open words are [ls]. *)
Record frag_wf (prog : list Inst) (D : gset nat) (f : Frag) (ls : list loc) : Prop := {
  wf_nodes x : x ∈ D -> 0 < x < length prog;
  wf_begin : exists b, begin f = Some b /\ inside D b;
  wf_list : plist prog (end_ f) ls;
  wf_nodup : NoDup ls;
  wf_open l : l ∈ ls -> l.1 ∈ D;
}.

(** Going on without reading and without a choice: a cycle of such steps would
    be one for the optimizer, too. *)
Definition silent_op (op : InstOp) : Prop := op = kInstNop \/ exists cap, op = kInstCapture cap.
Definition silent (prog : list Inst) (y x : nat) : Prop :=
  (exists op, op_at prog x = Some op /\ silent_op op) /\ target prog (x, Out) = Some (ToInst y).

(** Every word of the region is open or points into the region. *)
Definition filled (prog : list Inst) (D : gset nat) (ls : list loc) : Prop := forall x f w,
  x ∈ D -> target prog (x, f) = Some w ->
  (x, f) ∈ ls \/ (exists y, w = ToInst y /\ inside D y) \/ (op_at prog x = Some kInstMatch /\ w = NULL).

Section frags.
Context (text : bytes).

Record frag_does (prog : list Inst) (D : gset nat) (f : Frag) (ls : list loc) (R : span) : Prop := {
  does_filled : filled prog D ls;
  does_silent x : x ∈ D -> Acc (silent prog) x;
  does_span b : begin f = Some b -> agree text (runs text prog ls b) R;
}.

Definition frag_ok (c : Compiler) (D : gset nat) (f : Frag) (R : span) : Prop :=
  exists ls, frag_wf (insts c) D f ls /\ (failed_ c = false -> frag_does (insts c) D f ls R).

(** The outcome of a method: a fragment of the instructions [D] and new ones. *)
Definition yields (D : gset nat) (c : Compiler) (R : span) (f : Frag) (c' : Compiler) : Prop :=
  sound c' /\ grows D c c' /\ exists D', frag_ok c' D' f R /\ since c D D'.

Lemma open_not_inst prog p ls l y : plist prog p ls -> l ∈ ls -> target prog l <> Some (ToInst y).
Proof. intros Hp Hl. destruct (plist_target _ _ _ _ Hp Hl) as [q ->]. by destruct q. Qed.

Lemma filled_closed prog D f ls : fails prog -> frag_wf prog D f ls -> filled prog D ls -> closed D prog.
Proof.
  intros F W H x g y [->|Hx] Ht.
  - by apply target_fail in Ht.
  - destruct (H _ _ _ Hx Ht) as [Hl|[(y'&[= <-]&?)|[_ ?]]]; [|done|done].
    by apply (open_not_inst _ _ _ _ _ (wf_list _ _ _ _ W)) in Ht.
Qed.

Lemma frag_wf_same prog prog' D f ls : (forall x, x ∈ D -> prog' !! x = prog !! x) -> length prog <= length prog' ->
  frag_wf prog D f ls -> frag_wf prog' D f ls.
Proof.
  intros S L [N B P Nd O]. split; [|done| |done|done].
  - intros x Hx. specialize (N x Hx). lia.
  - eapply plist_proper; [|done]. intros l Hl. unfold target. by rewrite S by auto.
Qed.

(** The same instructions at the same places. *)
Lemma same_code_eq D prog prog' : fails prog -> fails prog' -> (forall x, x ∈ D -> prog' !! x = prog !! x) -> same_code D prog prog'.
Proof.
  intros F F' S. assert (H : forall x, inside D x -> prog' !! x = prog !! x).
  { intros x [->|Hx]; [by rewrite F, F'|by apply S]. }
  split; intros x; [|intros f y]; intros Hx; unfold op_at, target; cbn; by rewrite H.
Qed.

Lemma silent_same D prog prog' x : closed D prog -> same_code D prog prog' -> inside D x ->
  Acc (silent prog) x -> Acc (silent prog') x.
Proof.
  intros C S Hx A. revert Hx. induction A as [x _ IH]. intros Hx. constructor. intros y [(op&Ho&Hs) Ht].
  rewrite (same_op _ _ _ S) in Ho by done. apply (same_target _ _ _ S) in Ht; [|done].
  apply IH; [split; [by exists op|done]|by eapply C].
Qed.

Lemma does_same prog prog' D f ls R : fails prog -> fails prog' -> (forall x, x ∈ D -> prog' !! x = prog !! x) ->
  frag_wf prog D f ls -> frag_does prog D f ls R -> frag_does prog' D f ls R.
Proof.
  intros F F' S W [Fi Si Sp]. pose proof (filled_closed _ _ _ _ F W Fi) as C.
  pose proof (same_code_eq _ _ _ F F' S) as SC. split.
  - intros x g w Hx. unfold target, op_at. cbn. rewrite S by done. by apply Fi.
  - intros x Hx. eapply silent_same; [done|done|by right|by apply Si].
  - intros b Hb i j Hi. rewrite <- (Sp b Hb i j Hi).
    destruct (wf_begin _ _ _ _ W) as (b'&Hb'&Hin). rewrite Hb in Hb'. injection Hb' as <-. by apply (runs_frame text D).
Qed.

(** Other fragments are kept. *)
Lemma frag_ok_kept c c' D D' f R : sound c -> sound c' -> grows D c c' -> D ## D' -> frag_ok c D' f R -> frag_ok c' D' f R.
Proof.
  intros [_ F _] [_ F' _] G HD (ls&W&H). pose proof (wf_nodes _ _ _ _ W) as N.
  assert (S : forall x, x ∈ D' -> insts c' !! x = insts c !! x).
  { intros x Hx. apply (grows_same _ _ _ G); [|set_solver]. by apply N. }
  exists ls. split; [eapply frag_wf_same; [done|apply G|done]|]. intros Hf. apply (does_same (insts c)); [done..|].
  apply H. destruct (failed_ c) eqn:E; [|done]. apply (grows_failed _ _ _ G) in E. congruence.
Qed.

Lemma frag_ok_agree c D f R R' : agree text R R' -> frag_ok c D f R -> frag_ok c D f R'.
Proof.
  intros H (ls&W&Hd). exists ls. split; [done|]. intros Hf. destruct (Hd Hf) as [? ? Sp]. split; [done..|].
  intros b Hb. by rewrite (Sp b Hb).
Qed.

(** ** Joining fragments, in memory *)

Lemma runs_inv prog L x i j : runs text prog L x i j <->
  (exists f, (x, f) ∈ L /\ moves text prog (x, f) i j)
  \/ (exists f y k, target prog (x, f) = Some (ToInst y) /\ moves text prog (x, f) i k /\ runs text prog L y k j).
Proof.
  split.
  - inversion 1; subst; [left|right]; eauto 10.
  - intros [(f&?&?)|(f&y&k&?&?&?)]; [by apply runs_out with f|by apply runs_step with f y k].
Qed.

(** In the region the open words are patched with [y]. *)
Record patched_on (D : gset nat) (prog prog' : list Inst) (ls : list loc) (y : nat) : Prop := {
  on_op x : x ∈ D -> op_at prog' x = op_at prog x;
  on_target l : l.1 ∈ D -> target prog' l = if decide (l ∈ ls) then Some (ToInst y) else target prog l;
}.

Lemma patched_patched_on D prog prog' ls y : patched prog prog' ls (ToInst y) -> patched_on D prog prog' ls y.
Proof. intros [_ O T _]. split; auto. Qed.

Section patch.
Context (D : gset nat) (prog prog' : list Inst) (f : Frag) (ls : list loc) (y : nat).
Hypotheses (F : fails prog) (F' : fails prog') (W : frag_wf prog D f ls) (Fi : filled prog D ls)
  (P : patched_on D prog prog' ls y).

Lemma on_filled x g w : x ∈ D -> target prog' (x, g) = Some w ->
  w = ToInst y \/ (exists z, w = ToInst z /\ inside D z) \/ (op_at prog' x = Some kInstMatch /\ w = NULL).
Proof.
  intros Hx. rewrite (on_target _ _ _ _ _ P (x, g) Hx), (on_op _ _ _ _ _ P x Hx). case_decide as Hl; [intros [= <-]; by left|].
  intros Ht. destruct (Fi _ _ _ Hx Ht) as [?|H]; [done|by right].
Qed.

Lemma on_silent x : Acc (silent prog') y -> (forall x, x ∈ D -> Acc (silent prog) x) -> x ∈ D -> Acc (silent prog') x.
Proof.
  intros Hy A Hx. pose proof (A x Hx) as Ax. revert Hx. induction Ax as [x _ IH]. intros Hx. constructor. intros z [(op&Ho&Hs) Ht].
  rewrite (on_op _ _ _ _ _ P x Hx) in Ho. rewrite (on_target _ _ _ _ _ P (x, Out) Hx) in Ht.
  case_decide as Hl; [injection Ht as <-; done|].
  pose proof (filled_closed _ _ _ _ F W Fi x Out z (or_intror Hx) Ht) as [->|Hz].
  - constructor. intros z' [_ H]. by apply target_fail in H.
  - apply IH; [split; [by exists op|done]|done].
Qed.

Lemma on_runs L x i j : (forall l, l ∈ L -> l.1 ∉ D) -> inside D x ->
  runs text prog' L x i j <-> then_ (runs text prog ls x) (runs text prog' L y) i j.
Proof.
  intros HL Hx. apply (runs_patched text D); [done|by eapply filled_closed|..| |done|done].
  - intros z [->|Hz]; [unfold op_at; by rewrite F, F'|by apply P].
  - intros z g w [->|Hz].
    + split; [by intros ?%target_fail|]. intros [[Hl _]|[_ ?%target_fail]]; [|done..].
      apply (wf_open _ _ _ _ W), (wf_nodes _ _ _ _ W) in Hl. cbn in Hl. lia.
    + rewrite (on_target _ _ _ _ _ P (z, g) Hz). case_decide as Hl.
      * split; [intros [= <-]; by left|]. by intros [[_ ->]|[? _]].
      * split; [by right|]. by intros [[? _]|[_ ?]].
  - intros l Hl. split; [by apply (wf_open _ _ _ _ W)|]. intros w. by apply (open_not_inst _ _ _ _ _ (wf_list _ _ _ _ W)).
Qed.
End patch.

(** [ab]. *)
Lemma cat_does prog prog' Da Db a b lsa lsb Ra Rb bb : fails prog -> fails prog' ->
  frag_wf prog Da a lsa -> frag_does prog Da a lsa Ra -> frag_wf prog Db b lsb -> frag_does prog Db b lsb Rb ->
  Da ## Db -> begin b = Some bb -> patched prog prog' lsa (ToInst bb) ->
  frag_does prog' (Da ∪ Db) (MkFrag (begin a) (end_ b)) lsb (then_ Ra Rb).
Proof.
  intros F F' Wa [Fa Sa Ra'] Wb Db' HD Hb P. pose proof (wf_open _ _ _ _ Wa) as Oa. pose proof (wf_open _ _ _ _ Wb) as Ob.
  assert (Hsame : forall x, x ∈ Db -> prog' !! x = prog !! x).
  { intros x Hx. apply (patched_same _ _ _ _ P). intros g Hg. apply Oa in Hg. set_solver. }
  destruct (does_same _ _ _ _ _ _ F F' Hsame Wb Db') as [Fb Sb Rb'].
  pose proof (patched_patched_on Da _ _ _ _ P) as Pa.
  destruct (wf_begin _ _ _ _ Wb) as (bb'&E&Hbb). rewrite Hb in E. injection E as <-. split.
  - intros x g w [Hx|Hx]%elem_of_union Ht.
    + destruct (on_filled _ _ _ _ _ Fa Pa x g w Hx Ht) as [->|[(z&->&Hz)|H]]; right; [left|left|by right].
      * exists bb. split; [done|]. destruct Hbb; [by left|right; set_solver].
      * exists z. split; [done|]. destruct Hz; [by left|right; set_solver].
    + destruct (Fb x g w Hx Ht) as [?|[(z&->&Hz)|H]]; [by left| |by right; right].
      right; left. exists z. split; [done|]. destruct Hz; [by left|right; set_solver].
  - assert (Hacc : Acc (silent prog') bb).
    { destruct Hbb as [->|Hbb]; [|by apply Sb]. constructor. intros z [_ H]. by apply target_fail in H. }
    intros x [Hx|Hx]%elem_of_union; [|by apply Sb]. by apply (on_silent Da prog prog' a lsa bb).
  - intros x Hx i j Hi. cbn in Hx. destruct (wf_begin _ _ _ _ Wa) as (x'&E&Hin). rewrite Hx in E. injection E as <-.
    rewrite (on_runs Da prog prog' a lsa bb) by (done || intros l Hl; apply Ob in Hl; set_solver).
    revert i j Hi. apply then_agree; [apply runs_bounded|by apply Ra'|by apply Rb'].
Qed.

(** A fragment whose instructions are the same but for links. *)
Lemma does_linked prog prog' D f ls ls' R : fails prog -> fails prog' -> same_code D prog prog' ->
  (forall l, l.1 ∈ D -> l ∉ ls -> target prog' l = target prog l) ->
  frag_wf prog D f ls -> frag_does prog D f ls R ->
  (forall x g, x ∈ D -> (x, g) ∈ ls <-> (x, g) ∈ ls') ->
  filled prog' D ls' /\ (forall x, x ∈ D -> Acc (silent prog') x)
  /\ forall b, begin f = Some b -> agree text (runs text prog' ls' b) R.
Proof.
  intros F F' SC T W [Fi Si Sp] Hls. pose proof (filled_closed _ _ _ _ F W Fi) as C. split_and!.
  - intros x g w Hx Ht. destruct (decide ((x, g) ∈ ls)) as [Hl|Hl]; [left; by apply Hls|].
    rewrite T in Ht by done. rewrite (same_op _ _ _ SC) by by right. destruct (Fi x g w Hx Ht) as [?|H]; [done|by right].
  - intros x Hx. by apply (silent_same D prog); [..|by right|apply Si].
  - intros b Hb i j Hi. rewrite <- (Sp b Hb i j Hi).
    destruct (wf_begin _ _ _ _ W) as (b'&Hb'&Hin). rewrite Hb in Hb'. injection Hb' as <-. by apply (runs_frame text D).
Qed.

Lemma relinked_code D prog prog' p ls p' ls' : relinked prog prog' ls -> plist prog p ls -> plist prog' p' ls' ->
  (forall l, l ∈ ls -> l ∈ ls') -> same_code D prog prog'.
Proof.
  intros [_ O T _] Hp Hp' Hls. split; [auto|]. intros x f y _. destruct (decide ((x, f) ∈ ls)) as [Hl|Hl]; [|by rewrite T].
  split; intros H; exfalso; [by eapply open_not_inst in H; [..|by apply Hls]|by eapply open_not_inst in H].
Qed.

(** The new instruction. *)
Lemma op_at_app prog ip x : x < length prog -> op_at (prog ++ [ip]) x = op_at prog x.
Proof. intros H. unfold op_at. by rewrite lookup_app_l. Qed.
Lemma target_app prog ip l : l.1 < length prog -> target (prog ++ [ip]) l = target prog l.
Proof. intros H. unfold target. by rewrite lookup_app_l. Qed.
Lemma op_at_new prog ip : op_at (prog ++ [ip]) (length prog) = Some (kind (opcode_ ip)).
Proof. unfold op_at. by rewrite list_lookup_middle. Qed.
Lemma target_new prog ip f : target (prog ++ [ip]) (length prog, f) = slot ip f.
Proof. unfold target. cbn. by rewrite list_lookup_middle. Qed.

Lemma fails_lt prog : fails prog -> 0 < length prog.
Proof. intros F. by apply lookup_lt_Some in F. Qed.

Lemma moves_op prog x f op i j : op_at prog x = Some op -> moves text prog (x, f) i j <-> leaves text op f i j.
Proof. intros H. unfold moves. cbn. rewrite H. split; [by intros (?&[= <-]&?)|by exists op]. Qed.

(** A fragment after an instruction is added and open words [ls0] are linked. *)
Lemma does_new prog ip prog' ls0 D f ls ls' R : fails prog -> fails prog' ->
  relinked (prog ++ [ip]) prog' ls0 -> same_code D (prog ++ [ip]) prog' ->
  frag_wf prog D f ls -> frag_does prog D f ls R ->
  (forall l, l.1 ∈ D -> l ∈ ls0 -> l ∈ ls) -> (forall x g, x ∈ D -> (x, g) ∈ ls <-> (x, g) ∈ ls') ->
  filled prog' D ls' /\ (forall x, x ∈ D -> Acc (silent prog') x)
  /\ forall b, begin f = Some b -> agree text (runs text prog' ls' b) R.
Proof.
  intros F F' R' SC W H H0 Hls. pose proof (wf_nodes _ _ _ _ W) as N. pose proof (fails_lt _ F) as Hpos.
  assert (F1 : fails (prog ++ [ip])) by (unfold fails; by rewrite lookup_app_l).
  assert (S : forall x, x ∈ D -> (prog ++ [ip]) !! x = prog !! x) by (intros x Hx; apply lookup_app_l, N, Hx).
  apply (does_linked (prog ++ [ip]) prog' D f ls); [done|done|done| | | |done].
  - intros l Hl Hn. apply R'. auto.
  - apply (frag_wf_same prog); [done|rewrite length_app; lia|done].
  - by apply (does_same prog).
Qed.

(** [prog'] is [prog] with instruction [ip] and some links. *)
Lemma new_link prog ip prog' ls0 p' ls' : fails prog -> relinked (prog ++ [ip]) prog' ls0 -> 
  (forall l, l ∈ ls0 -> 0 < l.1) -> (forall l, l ∈ ls0 -> exists q, target (prog ++ [ip]) l = Some (word_of_list q)) ->
  plist prog' p' ls' -> (forall l, l ∈ ls0 -> l ∈ ls') -> fails prog' /\ forall D, same_code D (prog ++ [ip]) prog'.
Proof.
  intros F R Hpos Ht Hp Hls. pose proof (fails_lt _ F) as Hlt. split.
  - unfold fails. rewrite (relinked_same _ _ _ R); [by rewrite lookup_app_l|]. intros f Hf. apply Hpos in Hf. cbn in Hf. lia.
  - intros D. split; [intros; apply R|]. intros x f y _. destruct (decide ((x, f) ∈ ls0)) as [Hl|Hl]; [|by rewrite (relinked_target _ _ _ R)].
    split; intros H; exfalso; [by eapply open_not_inst in H; [..|by apply Hls]|].
    destruct (Ht _ Hl) as [q Hq]. rewrite H in Hq. by destruct q.
Qed.

Lemma alt_not_silent prog n : op_at prog n = Some (kInstAlt NULL) -> Acc (silent prog) n.
Proof. intros Ho. constructor. intros y [(op&Ho'&Hs) _]. rewrite Ho in Ho'. injection Ho' as <-. by destruct Hs as [?|[? ?]]. Qed.

(** A choice between the words of instruction [n]. *)
Lemma runs_alt prog L n w w' i j : op_at prog n = Some (kInstAlt NULL) ->
  target prog (n, Out) = Some w -> target prog (n, Out1) = Some w' ->
  runs text prog L n i j <->
    (i = j /\ ((n, Out) ∈ L \/ (n, Out1) ∈ L))
    \/ (exists y, w = ToInst y /\ runs text prog L y i j) \/ (exists y, w' = ToInst y /\ runs text prog L y i j).
Proof.
  intros Ho H1 H2. rewrite runs_inv. setoid_rewrite (moves_op _ _ _ _ _ _ Ho). cbn. split.
  - intros [(f&Hl&->)|(f&y&k&Ht&->&Hr)]; [left; split; [done|]; destruct f; auto|right].
    destruct f; [left|right]; exists y; (split; [congruence|done]).
  - intros [[-> [?|?]]|[(y&->&Hr)|(y&->&Hr)]]; [left; eauto..|right|right]; [exists Out, y, i|exists Out1, y, i]; done.
Qed.

(** [a|b]. *)
Lemma alt_does prog prog' Da Db a b lsa lsb Ra Rb ba bb l : fails prog ->
  frag_wf prog Da a lsa -> frag_does prog Da a lsa Ra -> frag_wf prog Db b lsb -> frag_does prog Db b lsb Rb ->
  Da ## Db -> begin a = Some ba -> begin b = Some bb ->
  plist prog' l (lsa ++ lsb) -> relinked (prog ++ [MkInst (kInstAlt (ToInst bb)) (ToInst ba)]) prog' lsa ->
  fails prog' /\
  frag_does prog' ({[length prog]} ∪ (Da ∪ Db)) (MkFrag (Some (length prog)) l) (lsa ++ lsb) (or_ Ra Rb).
Proof.
  intros F Wa Ha Wb Hb HD Ba Bb Hl R. set (n := length prog) in *.
  pose proof (wf_nodes _ _ _ _ Wa) as Na. pose proof (wf_nodes _ _ _ _ Wb) as Nb.
  pose proof (wf_open _ _ _ _ Wa) as Oa. pose proof (wf_open _ _ _ _ Wb) as Ob.
  assert (Hn : forall f, (n, f) ∉ lsa) by (intros f Hf; apply Oa, Na in Hf; cbn in Hf; unfold n in Hf; lia).
  assert (Hm : forall f, (n, f) ∉ lsb) by (intros f Hf; apply Ob, Nb in Hf; cbn in Hf; unfold n in Hf; lia).
  destruct (new_link _ _ _ _ l (lsa ++ lsb) F R) as [F' SC]; [..|done| |].
  { intros k Hk. by apply Na, Oa. }
  { intros k Hk. rewrite target_app by by apply Na, Oa. eapply plist_target; [apply Wa|done]. }
  { set_solver. }
  destruct (does_new _ _ prog' lsa Da a lsa (lsa ++ lsb) Ra F F' R (SC _)) as (Fa&Sa&Ra'); [done|done|done| |].
  { intros x g Hx. rewrite elem_of_app. split; [by left|]. intros [?|H]; [done|]. apply Ob in H. set_solver. }
  destruct (does_new _ _ prog' lsa Db b lsb (lsa ++ lsb) Rb F F' R (SC _)) as (Fb&Sb&Rb'); [done|done| | |].
  { intros k Hk H%Oa. set_solver. }
  { intros x g Hx. rewrite elem_of_app. split; [by right|]. intros [H|?]; [|done]. apply Oa in H. set_solver. }
  assert (On : op_at prog' n = Some (kInstAlt NULL)) by (rewrite (relinked_op _ _ _ R); apply op_at_new).
  assert (T0 : target prog' (n, Out) = Some (ToInst ba)) by (rewrite (relinked_target _ _ _ R) by done; apply target_new).
  assert (T1 : target prog' (n, Out1) = Some (ToInst bb)) by (rewrite (relinked_target _ _ _ R) by done; apply target_new).
  destruct (wf_begin _ _ _ _ Wa) as (?&E&Ia). rewrite Ba in E. injection E as <-.
  destruct (wf_begin _ _ _ _ Wb) as (?&E&Ib). rewrite Bb in E. injection E as <-.
  assert (I : forall y, inside Da y \/ inside Db y -> inside ({[n]} ∪ (Da ∪ Db)) y).
  { intros y [[->|?]|[->|?]]; [by left|right; set_solver|by left|right; set_solver]. }
  split; [done|]. split.
  - intros x g w [->%elem_of_singleton|[Hx|Hx]%elem_of_union]%elem_of_union Ht.
    + right; left. destruct g; [rewrite T0 in Ht|rewrite T1 in Ht]; injection Ht as <-; eauto.
    + destruct (Fa x g w Hx Ht) as [?|[(y&->&?)|?]]; [by left|right; left; exists y; auto|by right; right].
    + destruct (Fb x g w Hx Ht) as [?|[(y&->&?)|?]]; [by left|right; left; exists y; auto|by right; right].
  - intros x [->%elem_of_singleton|[Hx|Hx]%elem_of_union]%elem_of_union; [|by apply Sa|by apply Sb].
    by apply (alt_not_silent prog' n).
  - intros ? [= <-] i j Hi. rewrite (runs_alt _ _ _ _ _ _ _ On T0 T1). unfold or_.
    rewrite <- (Ra' _ Ba i j Hi), <- (Rb' _ Bb i j Hi). split.
    + intros [[_ H]|[(y&[= <-]&?)|(y&[= <-]&?)]]; [|by left|by right].
      exfalso. destruct H as [H|H]; apply elem_of_app in H as [H|H]; by apply Hn in H || by apply Hm in H.
    + intros [?|?]; right; [left|right]; eauto.
Qed.

(** [a?]. *)
Lemma quest_does prog prog' D a ls R b l ip g : fails prog -> frag_wf prog D a ls -> frag_does prog D a ls R ->
  begin a = Some b -> kind (opcode_ ip) = kInstAlt NULL -> slot ip g = Some NULL ->
  (forall g', g' <> g -> slot ip g' = Some (ToInst b)) ->
  plist prog' l ((length prog, g) :: ls) -> relinked (prog ++ [ip]) prog' [(length prog, g)] ->
  fails prog' /\
  frag_does prog' ({[length prog]} ∪ D) (MkFrag (Some (length prog)) l) ((length prog, g) :: ls) (or_ R eq).
Proof.
  intros F W H B Ok Og Og' Hl RL. set (n := length prog) in *.
  pose proof (wf_nodes _ _ _ _ W) as N. pose proof (wf_open _ _ _ _ W) as O. pose proof (fails_lt _ F) as Hpos.
  assert (Hn : forall f, (n, f) ∉ ls) by (intros f Hf; apply O, N in Hf; cbn in Hf; unfold n in Hf; lia).
  assert (HnD : n ∉ D) by (intros Hf; apply N in Hf; unfold n in Hf; lia).
  destruct (new_link _ _ _ _ l ((n, g) :: ls) F RL) as [F' SC]; [..|done| |].
  { by intros k ->%list_elem_of_singleton. }
  { intros k ->%list_elem_of_singleton. exists None. by rewrite target_new. }
  { set_solver. }
  destruct (does_new _ _ prog' _ D a ls ((n, g) :: ls) R F F' RL (SC _)) as (Fa&Sa&Ra'); [done|done| | |].
  { intros k Hk ->%list_elem_of_singleton. done. }
  { intros x f Hx. rewrite elem_of_cons. split; [by right|]. intros [[= -> _]|?]; done. }
  assert (On : op_at prog' n = Some (kInstAlt NULL)) by (rewrite (relinked_op _ _ _ RL), <- Ok; apply op_at_new).
  assert (T : forall g', g' <> g -> target prog' (n, g') = Some (ToInst b)).
  { intros g' Hg. rewrite (relinked_target _ _ _ RL) by set_solver. rewrite target_new. by apply Og'. }
  assert (exists q, target prog' (n, g) = Some (word_of_list q)) as [q Hq] by (eapply plist_target; [done|set_solver]).
  destruct (wf_begin _ _ _ _ W) as (?&E&Ia). rewrite B in E. injection E as <-.
  split; [done|]. split.
  - intros x f w [->%elem_of_singleton|Hx]%elem_of_union Ht.
    + destruct (decide (f = g)) as [->|Hf]; [left; set_solver|]. rewrite T in Ht by done. injection Ht as <-.
      right; left. exists b. split; [done|]. destruct Ia; [by left|right; set_solver].
    + destruct (Fa x f w Hx Ht) as [?|[(y&->&Hy)|?]]; [by left| |by right; right].
      right; left. exists y. split; [done|]. destruct Hy; [by left|right; set_solver].
  - intros x [->%elem_of_singleton|Hx]%elem_of_union; [|by apply Sa]. by apply (alt_not_silent prog' n).
  - intros ? [= <-] i j Hi. unfold or_. rewrite <- (Ra' _ B i j Hi).
    assert (Hin : (n, g) ∈ (n, g) :: ls) by set_solver.
    destruct g; [pose proof (T Out1 ltac:(done)) as T'; rewrite (runs_alt _ _ _ _ _ _ _ On Hq T')
                |pose proof (T Out ltac:(done)) as T'; rewrite (runs_alt _ _ _ _ _ _ _ On T' Hq)];
      (split; [intros [[? _]|[(y&E&?)|(y&E&?)]]; (destruct q; discriminate E) || (injection E as <-; tauto) || tauto
              |intros [?| ->]; [right; eauto|left; tauto]]).
Qed.

(** [a*] and [a+]: where the region is left it is entered again through
    instruction [n], or [n] is left. *)
Section star.
Context (prog prog' : list Inst) (D : gset nat) (a : Frag) (ls : list loc) (R : span) (b n : nat) (f g : field).
Hypotheses (F : fails prog) (F' : fails prog') (W : frag_wf prog D a ls) (H : frag_does prog D a ls R)
  (B : begin a = Some b) (Hn : n ∉ D) (Hn0 : n <> 0) (P : patched_on D prog prog' ls n)
  (On : op_at prog' n = Some (kInstAlt NULL)) (Tf : target prog' (n, f) = Some (ToInst b))
  (Tg : target prog' (n, g) = Some NULL) (Hfg : f <> g).

Abbreviation L := [(n, g)].

Lemma star_outside l : l ∈ L -> l.1 ∉ D.
Proof. by intros ->%list_elem_of_singleton. Qed.

Lemma star_turn i j : runs text prog' L n i j <-> i = j \/ runs text prog' L b i j.
Proof.
  assert (Hin : (n, g) ∈ L) by set_solver.
  destruct f, g; try done; rewrite (runs_alt _ _ _ _ _ _ _ On ltac:(eassumption) ltac:(eassumption)); split.
  - intros [[? _]|[(y&[= <-]&?)|(y&?&?)]]; [by left|by right|done].
  - intros [->|?]; [left; auto|right; left; eauto].
  - intros [[? _]|[(y&?&?)|(y&[= <-]&?)]]; [by left|done|by right].
  - intros [->|?]; [left; auto|right; right; eauto].
Qed.

Lemma star_inside_begin : inside D b.
Proof. destruct (wf_begin _ _ _ _ W) as (b'&E&I). rewrite B in E. by injection E as <-. Qed.

Lemma star_runs_1 x i j : runs text prog' L x i j ->
  (x = n -> rtc (runs text prog ls b) i j) /\ (inside D x -> then_ (runs text prog ls x) (rtc (runs text prog ls b)) i j).
Proof.
  pose proof (filled_closed _ _ _ _ F W (does_filled _ _ _ _ _ H)) as C.
  induction 1 as [x h i j Hl Hm|x h y i k j Ht Hm Hr [IH1 IH2]].
  - apply list_elem_of_singleton in Hl as [= -> ->]. rewrite (moves_op _ _ _ _ _ _ On) in Hm. split.
    + intros _. by rewrite Hm.
    + intros [?|?]; done.
  - split.
    + intros ->. rewrite (moves_op _ _ _ _ _ _ On) in Hm. cbn in Hm. subst k.
      assert (y = b) as ->.
      { destruct (decide (h = f)) as [->|]; [congruence|]. assert (h = g) as -> by (destruct f, g, h; done). congruence. }
      destruct (IH2 star_inside_begin) as (k&?&?). by eapply rtc_l.
    + intros [->|Hx]; [by apply moves_fail in Hm|]. unfold moves in Hm. cbn in Hm. rewrite (on_op _ _ _ _ _ P x Hx) in Hm.
      rewrite (on_target _ _ _ _ _ P (x, h) Hx) in Ht. case_decide as Hl.
      * injection Ht as <-. exists k. split; [by apply runs_out with h|auto].
      * destruct IH2 as (m&?&?); [eapply C; [by right|done]|]. exists m. split; [by apply runs_step with h y k|done].
Qed.

Lemma star_runs : agree text (runs text prog' L n) (rtc R) /\ agree text (runs text prog' L b) (tc R).
Proof.
  assert (E : forall i j, runs text prog' L n i j <-> rtc (runs text prog ls b) i j).
  { intros i j. split; [intros Hr; by apply (star_runs_1 n i j Hr)|].
    induction 1 as [|i k j Hk _ IH]; apply star_turn; [by left|right].
    apply (on_runs D prog prog' a ls n); [done..|apply H|done|apply star_outside|apply star_inside_begin|]. by exists k. }
  pose proof (does_span _ _ _ _ _ H b B) as Sp. assert (Bo : bounded text (runs text prog ls b)) by apply runs_bounded.
  split.
  - intros i j Hi. rewrite E. by apply (rtc_agree text).
  - intros i j Hi. rewrite (on_runs D prog prog' a ls n F F' W (does_filled _ _ _ _ _ H) P L b _ _ star_outside star_inside_begin).
    assert (T : tc R i j <-> then_ R (rtc R) i j).
    { split; [|intros (k&?&?); eapply tc_rtc_r; [by apply tc_once|done]].
      inversion 1; subst; [by exists j|]. eexists. split; [done|]. by apply tc_rtc. }
    rewrite T. clear T. revert i j Hi. apply then_agree; [done|done|]. intros i' j' Hi'. rewrite E. by apply (rtc_agree text).
Qed.

Lemma star_does : filled prog' ({[n]} ∪ D) L /\ (forall x, x ∈ {[n]} ∪ D -> Acc (silent prog') x).
Proof.
  destruct H as [Fi Si _]. split.
  - intros x h w [->%elem_of_singleton|Hx]%elem_of_union Ht.
    + destruct (decide (h = f)) as [->|]; [|assert (h = g) as -> by (destruct f, g, h; done); left; set_solver].
      right; left. exists b. split; [congruence|]. destruct star_inside_begin; [by left|right; set_solver].
    + destruct (on_filled D prog prog' ls n Fi P x h w Hx Ht) as [->|[(y&->&Hy)|?]]; right; [left..|by right].
      * exists n. split; [done|]. right. set_solver.
      * exists y. split; [done|]. destruct Hy; [by left|right; set_solver].
  - intros x [->%elem_of_singleton|Hx]%elem_of_union; [by apply alt_not_silent|].
    apply (on_silent D prog prog' a ls n); [done..|by apply alt_not_silent|done|done].
Qed.
End star.

(** An instruction by itself. *)
Lemma single_does prog ip : fails prog -> slot ip Out = Some NULL -> slot ip Out1 = None ->
  frag_does (prog ++ [ip]) {[length prog]} (MkFrag (Some (length prog)) (Some (length prog, Out))) [(length prog, Out)]
    (leaves text (opcode_ ip) Out).
Proof.
  intros F S0 S1. assert (T : forall h y, target (prog ++ [ip]) (length prog, h) <> Some (ToInst y)).
  { intros h y. rewrite target_new. destruct h; congruence. }
  split.
  - intros x h w ->%elem_of_singleton. rewrite target_new. destruct h; [intros _; left; set_solver|by rewrite S1].
  - intros x ->%elem_of_singleton. constructor. intros y [_ Ht]. by apply T in Ht.
  - intros ? [= <-] i j Hi. rewrite runs_inv. setoid_rewrite (moves_op _ _ _ _ _ _ (op_at_new prog ip)).
    setoid_rewrite leaves_kind. split.
    + intros [(h&[= ->]%list_elem_of_singleton&?)|(h&y&k&Ht&_)]; [done|by apply T in Ht].
    + intros ?. left. exists Out. split; [set_solver|done].
Qed.

(** [(a)]: instruction [x] goes into the region, which is left to [y]. *)
Lemma capture_does prog prog' D a ls R b x y m k : fails prog -> fails prog' -> frag_wf prog D a ls -> frag_does prog D a ls R ->
  begin a = Some b -> patched_on D prog prog' ls y -> x ∉ D -> y ∉ D -> x <> y ->
  op_at prog' x = Some (kInstCapture m) -> op_at prog' y = Some (kInstCapture k) ->
  (forall f, target prog' (x, f) = if decide (f = Out) then Some (ToInst b) else None) ->
  (forall f, target prog' (y, f) = if decide (f = Out) then Some NULL else None) ->
  frag_does prog' ({[x; y]} ∪ D) (MkFrag (Some x) (Some (y, Out))) [(y, Out)] R.
Proof.
  intros F F' W H B P Hx Hy Hxy Ox Oy Tx Ty. destruct (wf_begin _ _ _ _ W) as (b'&E&I). rewrite B in E. injection E as <-.
  assert (Hin : forall z, inside D z -> inside ({[x; y]} ∪ D) z) by (intros z [->|?]; [by left|right; set_solver]).
  assert (Ay : Acc (silent prog') y) by (constructor; intros z [_ Ht]; rewrite Ty in Ht; by case_decide).
  assert (AD : forall z, z ∈ D -> Acc (silent prog') z).
  { intros z Hz. apply (on_silent D prog prog' a ls y); [done..|apply H|done|done|apply H|done]. }
  assert (Ab : Acc (silent prog') b).
  { destruct I as [->|I]; [|by apply AD]. constructor. intros z [_ Ht]. by apply target_fail in Ht. }
  split.
  - intros z f w Hz Ht. assert (z = x \/ z = y \/ z ∈ D) as [->|[->|HzD]] by set_solver.
    + rewrite Tx in Ht. case_decide; [|done]. injection Ht as <-. right; left. eauto.
    + rewrite Ty in Ht. case_decide; [|done]. subst. left. set_solver.
    + destruct (on_filled D prog prog' ls y (does_filled _ _ _ _ _ H) P z f w HzD Ht) as [->|[(y'&->&?)|?]]; right; [left..|by right].
      * exists y. split; [done|right; set_solver].
      * eauto.
  - intros z Hz. assert (z = x \/ z = y \/ z ∈ D) as [->|[->|HzD]] by set_solver; [|done|by apply AD].
    constructor. intros z [_ Ht]. rewrite Tx in Ht. case_decide; [|done]. by injection Ht as <-.
  - intros ? [= <-] i j Hi. rewrite <- (does_span _ _ _ _ _ H b B i j Hi).
    assert (Ey : forall i j, runs text prog' [(y, Out)] y i j <-> i = j).
    { intros i' j'. rewrite runs_inv. setoid_rewrite (moves_op _ _ _ _ _ _ Oy). cbn. split.
      - intros [(f&_&_&->)|(f&z&k'&Ht&_)]; [done|]. rewrite Ty in Ht. by case_decide.
      - intros ->. left. exists Out. split; [set_solver|done]. }
    rewrite runs_inv. setoid_rewrite (moves_op _ _ _ _ _ _ Ox). cbn. split.
    + intros [(f&[= ? ->]%list_elem_of_singleton&_)|(f&z&k'&Ht&[-> <-]&Hr)]; [done|]. rewrite Tx in Ht. injection Ht as <-.
      apply (on_runs D prog prog' a ls y F F' W (does_filled _ _ _ _ _ H) P) in Hr; [|by intros l ->%list_elem_of_singleton|done].
      destruct Hr as (k'&Hr&Hk). apply Ey in Hk. by subst.
    + intros Hr. right. exists Out, b, i. rewrite Tx. split_and!; [done|done|done|].
      apply (on_runs D prog prog' a ls y F F' W (does_filled _ _ _ _ _ H) P); [by intros l ->%list_elem_of_singleton|done|].
      exists j. split; [done|by apply Ey].
Qed.
End frags.
