(* ===== verification/CompileMethods.v ===== *)
(** * The methods of the compiler that make and join fragments

    Each of them returns, keeps the other fragments, and yields a fragment for
    the span that its regular expression stands for. *)

From stdpp Require Import gmap fin_sets relations.
From S2P Require Import Prelude Rune CharClass Regexp RegexpSem Walker Prog Compile CompileSem CompileFrags.

#[local] Open Scope nat_scope.
#[local] Open Scope xap_scope.

(** ** The basic calls *)

Definition with_insts (prog : list Inst) (c : Compiler) : Compiler :=
  MkCompiler prog (byte_inst_count_ c) (byterange_ c) (failed_ c) (encoding_ c) (reversed_ c)
    (inst_count_ c) (max_inst_ c) (rune_cache_ c) (rune_range_ c).
Definition with_count (n : Z) (failed : bool) (c : Compiler) : Compiler :=
  MkCompiler (insts c) (byte_inst_count_ c) (byterange_ c) failed (encoding_ c) (reversed_ c)
    n (max_inst_ c) (rune_cache_ c) (rune_range_ c).
Definition with_marks (n : Z) (b : Bitmap) (c : Compiler) : Compiler :=
  MkCompiler (insts c) n b (failed_ c) (encoding_ c) (reversed_ c)
    (inst_count_ c) (max_inst_ c) (rune_cache_ c) (rune_range_ c).

(** Room for one more instruction has been counted. *)
Definition reserved (k : Z) (c : Compiler) (ok : bool) (c' : Compiler) : Prop :=
  exists n failed, c' = with_count n failed c /\ counts (k + 1) c' /\ (ok = false -> failed = true)
    /\ (ok = true -> failed = false /\ failed_ c = false) /\ (failed_ c = true -> failed = true).

Lemma CanAllocInst_wp k c Q : counts k c -> (forall ok c', reserved k c ok c' -> Q ok c') -> wp CanAllocInst Q c.
Proof.
  intros C H. unfold wp, CanAllocInst, mbind, comp_bind, comp_get. destruct (failed_ c) eqn:Ef.
  - apply H. exists (inst_count_ c), true. split_and!; [destruct c; cbn in *; by subst|intros ?; congruence|done..].
  - specialize (C Ef). cbn. case_decide as Hm; cbn; apply H; eexists _, _; (split; [reflexivity|]).
    + split_and!; [by intros [=]|done..].
    + rewrite Ef. split_and!; [|done..]. intros _. cbn. lia.
Qed.

Lemma AllocInst_wp ip c Q : Q (length (insts c)) (with_insts (insts c ++ [ip]) c) -> wp (AllocInst ip) Q c.
Proof. done. Qed.

Lemma patch_wp l val ls c (Q : unit -> Compiler -> Prop) : plist (insts c) l ls -> NoDup ls ->
  (forall prog', patched (insts c) prog' ls (word_of val) -> Q () (with_insts prog' c)) -> wp (patch l val) Q c.
Proof.
  intros Hp Hnd H. destruct (Patch_spec _ _ _ val Hp Hnd) as (prog'&E&P). unfold wp, patch, mbind, comp_bind, comp_get, lift.
  rewrite E. by apply H.
Qed.

Lemma append_wp p1 p2 ls1 ls2 c (Q : PatchList -> Compiler -> Prop) : plist (insts c) p1 ls1 -> plist (insts c) p2 ls2 ->
  NoDup (ls1 ++ ls2) ->
  (forall p prog', plist prog' p (ls1 ++ ls2) -> relinked (insts c) prog' ls1 -> Q p (with_insts prog' c)) ->
  wp (append p1 p2) Q c.
Proof.
  intros H1 H2 Hnd H. destruct (Append_spec _ _ _ _ _ H1 H2 Hnd) as (p&prog'&E&Hp&R).
  unfold wp, append, mbind, comp_bind, comp_get, lift. rewrite E. by apply H.
Qed.

Section methods.
Context (text : bytes).

Abbreviation frag_ok := (frag_ok text).
Abbreviation yields := (yields text).

Lemma begin_ok c D f R : frag_ok c D f R -> sound c -> exists b ip, begin f = Some b /\ insts c !! b = Some ip.
Proof.
  intros (ls&W&_) [_ F _]. destruct (wf_begin _ _ _ _ W) as (b&Hb&[->|Hin]).
  - exists 0, (MkInst kInstFail NULL). auto.
  - exists b. destruct (lookup_lt_is_Some_2 (insts c) b) as [ip Hip]; [by apply (wf_nodes _ _ _ _ W)|]. eauto.
Qed.

Lemma deref_wp c b ip Q : insts c !! b = Some ip -> Q ip c -> wp (deref (Some b)) Q c.
Proof. intros H HQ. unfold wp, deref, mbind, comp_bind, comp_get, lift. cbn. by rewrite H. Qed.

(** The fragment does not match anything where [IsNoMatch] says so. *)
Lemma IsNoMatch_wp c D f R (Q : bool -> Compiler -> Prop) : frag_ok c D f R -> sound c ->
  (forall ip b, begin f = Some b -> insts c !! b = Some ip -> Q (is_Fail (opcode_ ip)) c) -> wp (IsNoMatch f) Q c.
Proof.
  intros H S HQ. destruct (begin_ok _ _ _ _ H S) as (b&ip&Hb&Hip). unfold IsNoMatch. rewrite Hb.
  apply call_bind, (deref_wp _ _ ip); [done|]. apply call_ret. by eapply HQ.
Qed.

Lemma fail_span c D f R b ip : frag_ok c D f R -> failed_ c = false -> begin f = Some b -> insts c !! b = Some ip ->
  is_Fail (opcode_ ip) = true -> agree text R (fun _ _ => False).
Proof.
  intros (ls&W&H) Hf Hb Hip Hop i j Hi. destruct (H Hf) as [_ _ Sp]. rewrite <- (Sp b Hb i j Hi). split; [|done].
  assert (Ho : op_at (insts c) b = Some kInstFail) by (unfold op_at; rewrite Hip; cbn; by destruct (opcode_ ip)).
  rewrite runs_inv. setoid_rewrite (moves_op _ _ _ _ _ _ _ Ho). cbn. naive_solver.
Qed.

Lemma grows_with_insts D c prog' n fl m b : let c' := with_insts prog' (with_marks m b (with_count n fl c)) in
  (failed_ c = true -> fl = true) -> marks_kept (byterange_ c) b -> length (insts c) <= length prog' ->
  (forall x, x < length (insts c) -> x ∉ D -> prog' !! x = insts c !! x) -> grows D c c'.
Proof. by split. Qed.

Lemma NoMatch_ok c R : (failed_ c = false -> agree text R (fun _ _ => False)) -> sound c -> frag_ok c ∅ NoMatch R.
Proof.
  intros HR [_ F _]. exists []. split.
  - split; [by intros x ?%not_elem_of_empty|by exists 0; split; [|left]|done|constructor|by intros l ?%not_elem_of_nil].
  - intros Hf. split; [by intros x g w ?%not_elem_of_empty|by intros x ?%not_elem_of_empty|]. intros b [= <-] i j Hi. rewrite (HR Hf i j Hi). split; [by apply runs_fail|done].
Qed.

Lemma since_refl c D : since c D D.
Proof. intros x Hx. by left. Qed.

Lemma NoMatch_yields c D R : (failed_ c = false -> agree text R (fun _ _ => False)) -> sound c -> yields D c R NoMatch c.
Proof.
  intros HR S. split; [done|]. split; [apply grows_refl|]. exists ∅. split; [by apply NoMatch_ok|]. by intros x ?%not_elem_of_empty.
Qed.

(** A fragment as it is. *)
Lemma same_yields c D D' R R' f : sound c -> frag_ok c D f R -> D ⊆ D' -> (failed_ c = false -> agree text R R') -> yields D' c R' f c.
Proof.
  intros S (ls&W&H) HD HR. split; [done|]. split; [apply grows_refl|]. exists D. split; [|intros x Hx; left; by apply HD].
  exists ls. split; [done|]. intros Hf. destruct (H Hf) as [? ? Sp]. split; [done..|]. intros b Hb. by rewrite (Sp b Hb), HR.
Qed.

Lemma sound_failed c n : sound c -> sound (with_count n true c) /\ grows ∅ c (with_count n true c).
Proof. intros [_ F M]. split; [by split; [intros [=]|..]|]. split; try done. by intros k Hk. Qed.

(** Where instructions cannot be allocated, and where they can. *)
Lemma alloc_wp_gen c (Q : Frag -> Compiler -> Prop) m : sound c ->
  (forall n, let c' := with_count n false c in failed_ c = false -> counts 1 c' -> wp m Q c') ->
  (forall c', sound c' -> grows ∅ c c' -> failed_ c' = true -> insts c' = insts c -> Q NoMatch c') ->
  wp (ok ← CanAllocInst; if negb ok then mret NoMatch else m) Q c.
Proof.
  intros S H HN. apply call_bind, (CanAllocInst_wp 0); [apply S|]. intros ok c' (n&fl&->&C&H1&H2&H3). destruct ok.
  - destruct (H2 eq_refl) as [-> Hf]. by apply H.
  - cbn. rewrite (H1 eq_refl) in *. destruct (sound_failed c n S). by apply call_ret, HN.
Qed.

Lemma failed_yields c c' D R f : sound c' -> grows ∅ c c' -> failed_ c' = true -> frag_ok c' D f R -> yields D c R f c'.
Proof. intros S G Hf H. split; [done|]. split; [by eapply grows_weaken|]. exists D. split; [done|]. apply since_refl. Qed.

Lemma failed_NoMatch c c' D R : sound c' -> grows ∅ c c' -> failed_ c' = true -> yields D c R NoMatch c'.
Proof.
  intros S G Hf. split; [done|]. split; [eapply grows_weaken; [done|set_solver]|]. exists ∅. split; [|by intros x ?%not_elem_of_empty].
  apply NoMatch_ok; [congruence|done].
Qed.

Lemma alloc_wp c D R m : sound c ->
  (forall n, let c' := with_count n false c in failed_ c = false -> counts 1 c' -> wp m (yields D c R) c') ->
  wp (ok ← CanAllocInst; if negb ok then mret NoMatch else m) (yields D c R) c.
Proof. intros S H. apply alloc_wp_gen; [done|done|]. intros c' S' G Hf _. by apply failed_NoMatch. Qed.

(** ** Joining *)

Lemma patched_relinked prog prog' ls w : patched prog prog' ls w -> relinked prog prog' ls.
Proof. intros [L O T S]. split; [done|done| |done]. intros l Hl. rewrite T. by apply decide_False. Qed.

Lemma relinked_kept c c0 prog' D ls : relinked (insts c) prog' ls -> (forall l, l ∈ ls -> l.1 ∈ D) ->
  (forall x, x ∈ D -> x <> 0) -> sound c ->
  grows D c0 c -> sound (with_insts prog' c) /\ grows D c0 (with_insts prog' c).
Proof.
  intros [L O T S] Hls HD [C F M] G. split.
  - split; cbn.
    + intros Hf. cbn. rewrite L. by apply C.
    + unfold fails. rewrite S; [done|]. intros f Hf. by apply Hls, HD in Hf.
    + intros x op. cbn. rewrite O. apply M.
  - apply (grows_trans D D _ c); [done| |apply since_refl]. split; try done; cbn.
    + by intros k Hk.
    + by rewrite L.
    + intros x Hx HnD. apply S. intros f Hf. by apply Hls in Hf.
Qed.

Lemma patched_kept c c0 prog' D ls w : patched (insts c) prog' ls w -> (forall l, l ∈ ls -> l.1 ∈ D) ->
  (forall x, x ∈ D -> x <> 0) -> sound c ->
  grows D c0 c -> sound (with_insts prog' c) /\ grows D c0 (with_insts prog' c).
Proof. intros P. apply (relinked_kept _ _ _ _ ls). by eapply patched_relinked. Qed.

Lemma nop_span c D a R x : frag_ok c D a R -> failed_ c = false -> begin a = Some x -> end_ a = Some (x, Out) ->
  insts c !! x = Some (MkInst kInstNop NULL) -> agree text R eq.
Proof.
  intros (ls&W&H) Hf Hb He Hx i j Hi. destruct (H Hf) as [_ _ Sp]. rewrite <- (Sp x Hb i j Hi).
  pose proof (wf_list _ _ _ _ W) as Hp. rewrite He in Hp. destruct ls as [|l ls]; [done|]. destruct Hp as ([= <-]&q&Ht&Hp).
  unfold target in Ht. cbn in Ht. rewrite Hx in Ht. destruct q as [|]; [done|]. destruct ls; [|by destruct Hp].
  assert (Ho : op_at (insts c) x = Some kInstNop) by (unfold op_at; by rewrite Hx).
  rewrite runs_inv. setoid_rewrite (moves_op _ _ _ _ _ _ _ Ho). cbn. split.
  - intros [(f&_&_&->)|(f&y&k&Ht'&_)]; [done|]. unfold target in Ht'. cbn in Ht'. rewrite Hx in Ht'. by destruct f.
  - intros ->. left. exists Out. split; [set_solver|done].
Qed.

Lemma patch_wf c D a R v : sound c -> frag_ok c D a R ->
  wp (patch (end_ a) v) (fun _ c' => sound c' /\ grows D c c' /\ failed_ c' = failed_ c) c.
Proof.
  intros S (ls&W&_). apply (patch_wp _ _ ls); [apply W..|]. intros prog' P.
  destruct (patched_kept c c prog' D ls _ P) as [S' G]; [apply W| |done|apply grows_refl|done].
  intros x Hx. apply (wf_nodes _ _ _ _ W) in Hx. lia.
Qed.

(** [a.end] is patched with [b.begin]. *)
Lemma patch_cat c Da Db a b Ra Rb : sound c -> frag_ok c Da a Ra -> frag_ok c Db b Rb -> Da ## Db ->
  wp (patch (end_ a) (begin b);; mret (MkFrag (begin a) (end_ b))) (yields (Da ∪ Db) c (then_ Ra Rb)) c.
Proof.
  intros S (lsa&Wa&Ha) (lsb&Wb&Hb) HD. destruct (wf_begin _ _ _ _ Wb) as (bb&Eb&Ib). rewrite Eb.
  apply call_bind, (patch_wp _ _ lsa); [apply Wa..|]. intros prog' P. apply call_ret.
  pose proof (wf_open _ _ _ _ Wa) as Oa. pose proof (wf_nodes _ _ _ _ Wa) as Na. pose proof (wf_nodes _ _ _ _ Wb) as Nb.
  destruct (patched_kept c c prog' (Da ∪ Db) lsa _ P) as [S' G]; [set_solver| |done|apply grows_refl|].
  { intros x [Hx|Hx]%elem_of_union; [apply Na in Hx|apply Nb in Hx]; lia. }
  split; [done|]. split; [done|]. exists (Da ∪ Db). split; [|apply since_refl]. exists lsb. split.
  - destruct (wf_begin _ _ _ _ Wa) as (ba&Ea&Ia). split.
    + intros x Hx. cbn. rewrite (patched_length _ _ _ _ P). apply elem_of_union in Hx as [Hx|Hx]; auto.
    + exists ba. split; [done|]. destruct Ia; [by left|right; set_solver].
    + cbn. eapply plist_proper; [|apply Wb]. intros l Hl. rewrite (patched_target _ _ _ _ P).
      rewrite decide_False; [done|]. intros H%Oa. apply (wf_open _ _ _ _ Wb) in Hl. set_solver.
    + apply Wb.
    + intros l Hl. apply (wf_open _ _ _ _ Wb) in Hl. set_solver.
  - intros Hf. apply (cat_does _ (insts c) prog' Da Db a b lsa lsb Ra Rb bb); [apply S|apply S'|done|by apply Ha|done|by apply Hb|done..].
Qed.

Lemma frag_bounded c D f R : frag_ok c D f R -> failed_ c = false -> bounded text R.
Proof.
  intros (ls&W&H) Hf. destruct (wf_begin _ _ _ _ W) as (b&Hb&_). apply (bounded_agree _ _ _ (does_span _ _ _ _ _ _ (H Hf) b Hb)).
  apply runs_bounded.
Qed.

Definition cat_span (reversed : bool) (R R' : span) : span := if reversed then then_ R' R else then_ R R'.

Lemma cat_span_agree rv R1 R1' R2 R2' : bounded text R1 -> bounded text R2 -> agree text R1 R1' -> agree text R2 R2' ->
  agree text (cat_span rv R1 R2) (cat_span rv R1' R2').
Proof. intros. destruct rv; by apply then_agree. Qed.

Lemma cat_span_none rv R R' : cat_span rv (fun _ _ => False) R' ≡ₛ (fun _ _ => False) /\ cat_span rv R (fun _ _ => False) ≡ₛ (fun _ _ => False).
Proof. destruct rv; split; intros i j; unfold cat_span, then_; naive_solver. Qed.

Lemma Cat_wp c Da Db a b Ra Rb : sound c -> frag_ok c Da a Ra -> frag_ok c Db b Rb -> Da ## Db ->
  wp (Cat a b) (yields (Da ∪ Db) c (cat_span (reversed_ c) Ra Rb)) c.
Proof.
  intros S Ha Hb HD. unfold Cat. apply call_bind, (IsNoMatch_wp c Da a Ra); [done..|]. intros ip ba Ba Hip.
  assert (Hbo : failed_ c = false -> bounded text Ra /\ bounded text Rb) by (intros Hf; split; by eapply frag_bounded).
  destruct (is_Fail (opcode_ ip)) eqn:Efa.
  { apply call_bind, call_ret, call_ret, NoMatch_yields; [|done]. intros Hf. destruct (Hbo Hf).
    rewrite <- (proj1 (cat_span_none (reversed_ c) Ra Rb)). apply cat_span_agree; [done..|by eapply fail_span|done]. }
  apply call_bind, (IsNoMatch_wp c Db b Rb); [done..|]. intros ip' bb Bb Hip'. destruct (is_Fail (opcode_ ip')) eqn:Efb.
  { apply call_ret, NoMatch_yields; [|done]. intros Hf. destruct (Hbo Hf).
    rewrite <- (proj2 (cat_span_none (reversed_ c) Ra Rb)). apply cat_span_agree; [done..|by eapply fail_span]. }
  rewrite Ba. apply call_bind, (deref_wp _ _ ip); [done|]. destruct (is_Nop _ && _ && _) eqn:En.
  - apply andb_true_iff in En as [[E1 E2%bool_decide_eq_true]%andb_true_iff E3%bool_decide_eq_true].
    assert (insts c !! ba = Some (MkInst kInstNop NULL)) as Hnop.
    { rewrite Hip. destruct ip as [op o]; cbn in *. subst o. by destruct op. }
    apply call_bind. eapply call_mono; [by apply (patch_wf c Da a Ra)|]. intros [] c' (S'&G&Ef). apply call_ret.
    split; [done|]. split; [apply (grows_weaken Da); [done|set_solver]|]. exists Db. split; [|intros x Hx; left; set_solver].
    pose proof (frag_ok_kept text c c' Da Db b Rb S S' G HD Hb) as Hb'. destruct (failed_ c) eqn:Hf.
    { destruct Hb' as (ls&W&_). exists ls. split; [done|]. congruence. }
    destruct (Hbo eq_refl) as [Bra Brb]. apply (frag_ok_agree text _ _ _ Rb); [|done].
    assert (En : agree text Ra eq) by (eapply nop_span; [done..|by rewrite E2|done]).
    rewrite (cat_span_agree (reversed_ c) Ra eq Rb Rb) by done. destruct (reversed_ c); cbn.
    + by rewrite then_eq_r.
    + intros i j _. unfold then_. naive_solver.
  - apply call_bind, call_get. rewrite <- Ba. destruct (reversed_ c).
    + rewrite (union_comm_L Da Db). by apply patch_cat.
    + by apply patch_cat.
Qed.

(** The state after [k] instructions have been allocated. *)
Lemma new_kept k c D n m b prog' : sound c -> counts k (with_count n false c) -> failed_ c = false ->
  Z.of_nat (length prog') = (Z.of_nat (length (insts c)) + k)%Z -> (0 <= k)%Z -> fails prog' -> marked prog' b ->
  marks_kept (byterange_ c) b -> (forall x, x < length (insts c) -> x ∉ D -> prog' !! x = insts c !! x) ->
  let c' := with_insts prog' (with_marks m b (with_count n false c)) in sound c' /\ grows D c c'.
Proof.
  intros S C Hf HL Hk F M K Same c'. split.
  - split; [|done|done]. intros _. specialize (C eq_refl). cbn in *. lia.
  - apply grows_with_insts; [by rewrite Hf|done|lia|done].
Qed.

Lemma marked_new prog ip b : marked prog b -> op_marked b (kind (opcode_ ip)) -> marked (prog ++ [ip]) b.
Proof.
  intros M N x op Ho. unfold op_at in Ho. destruct (decide (x < length prog)) as [Hx|Hx].
  - apply (M x). unfold op_at. by rewrite lookup_app_l in Ho.
  - rewrite lookup_app_r in Ho by lia. destruct (x - length prog) as [|d]; [cbn in Ho; by injection Ho as <-|done].
Qed.

Lemma marked_op prog prog' b : (forall x, op_at prog' x = op_at prog x) -> marked prog b -> marked prog' b.
Proof. intros H M x op. rewrite H. apply M. Qed.

Lemma marks_refl b : marks_kept b b.
Proof. by intros k. Qed.

Lemma begin_word c D f R : frag_ok c D f R -> exists b, begin f = Some b /\ inside D b.
Proof. intros (ls&W&_). apply W. Qed.

Lemma Alt_wp c Da Db a b Ra Rb : sound c -> frag_ok c Da a Ra -> frag_ok c Db b Rb -> Da ## Db ->
  wp (Alt a b) (yields (Da ∪ Db) c (or_ Ra Rb)) c.
Proof.
  intros S Ha Hb HD. unfold Alt. apply call_bind, (IsNoMatch_wp c Da a Ra); [done..|]. intros ip ba Ba Hip.
  destruct (is_Fail (opcode_ ip)) eqn:Efa.
  { apply call_ret, (same_yields c Db _ Rb); [done..|set_solver|]. intros Hf i j Hi. unfold or_.
    pose proof (fail_span c Da a Ra ba ip Ha Hf Ba Hip Efa i j Hi). tauto. }
  apply call_bind, (IsNoMatch_wp c Db b Rb); [done..|]. intros ip' bb Bb Hip'. destruct (is_Fail (opcode_ ip')) eqn:Efb.
  { apply call_ret, (same_yields c Da _ Ra); [done..|set_solver|]. intros Hf i j Hi. unfold or_.
    pose proof (fail_span c Db b Rb bb ip' Hb Hf Bb Hip' Efb i j Hi). tauto. }
  apply alloc_wp; [done|]. intros n c1 Hf C1. apply call_bind, AllocInst_wp. rewrite Ba, Bb. cbn [word_of].
  destruct Ha as (lsa&Wa&Ha), Hb as (lsb&Wb&Hb). pose proof (sound_fails _ S) as F.
  pose proof (wf_open _ _ _ _ Wa) as Oa. pose proof (wf_nodes _ _ _ _ Wa) as Na.
  pose proof (wf_open _ _ _ _ Wb) as Ob. pose proof (wf_nodes _ _ _ _ Wb) as Nb.
  apply call_bind, (append_wp _ _ lsa lsb).
  { apply (plist_proper (insts c)); [|apply Wa]. intros l Hl. by apply target_app, Na, Oa. }
  { apply (plist_proper (insts c)); [|apply Wb]. intros l Hl. by apply target_app, Nb, Ob. }
  { apply NoDup_app. split; [apply Wa|]. split; [|apply Wb]. intros l H1%Oa H2%Ob. set_solver. }
  intros p prog' Hp R. apply call_ret. cbn [insts with_insts with_count] in R.
  destruct (alt_does text (insts c) prog' Da Db a b lsa lsb Ra Rb ba bb p) as [F' Hd]; [done|done|by apply Ha|done|by apply Hb|done..|].
  destruct (new_kept 1 c (Da ∪ Db) n (byte_inst_count_ c) (byterange_ c) prog') as [S' G]; [done..| | |done| |apply marks_refl| |].
  { rewrite (relinked_length _ _ _ R), length_app. cbn. lia. }
  { lia. }
  { apply (marked_op (insts c ++ [MkInst (kInstAlt (ToInst bb)) (ToInst ba)])); [apply R|]. by apply marked_new; [apply S|]. }
  { intros x Hx HnD. rewrite (relinked_same _ _ _ R); [by apply lookup_app_l|]. intros f H%Oa. set_solver. }
  split; [done|]. split; [done|]. exists ({[length (insts c)]} ∪ (Da ∪ Db)). split; [|intros x; set_unfold; intros [->|?]; auto].
  exists (lsa ++ lsb). split; [|done]. cbn. split.
  - intros x. rewrite (relinked_length _ _ _ R), length_app. cbn. pose proof (fails_lt _ F).
    set_unfold. intros [->|[Hx|Hx]]; [lia|apply Na in Hx; lia|apply Nb in Hx; lia].
  - exists (length (insts c)). split; [done|right; set_solver].
  - done.
  - apply NoDup_app. split; [apply Wa|]. split; [|apply Wb]. intros l H1%Oa H2%Ob. set_solver.
  - intros l [H%Oa|H%Ob]%elem_of_app; set_solver.
Qed.

(** The instruction added by [Star], after the fragment is patched to it and
    its word [f] is set. *)
Lemma star_memory prog D a ls b p2 f g : fails prog -> frag_wf prog D a ls -> begin a = Some b -> f <> g ->
  let x := length prog in let prog1 := prog ++ [MkInst (kInstAlt NULL) NULL] in
  patched prog1 p2 ls (ToInst x) ->
  exists p3, write_word p2 (x, f) (ToInst b) = Ret p3 /\ length p3 = x + 1 /\ fails p3
    /\ patched_on D prog p3 ls x /\ (forall y, op_at p3 y = op_at prog1 y)
    /\ (forall y, y ∉ D -> y < x -> p3 !! y = prog !! y)
    /\ target p3 (x, f) = Some (ToInst b) /\ target p3 (x, g) = Some NULL.
Proof.
  intros F W B Hfg x prog1 P2. pose proof (fails_lt _ F) as Hpos.
  pose proof (wf_open _ _ _ _ W) as O. pose proof (wf_nodes _ _ _ _ W) as N.
  assert (Hx : forall h, (x, h) ∉ ls) by (intros h H%O%N; cbn in H; unfold x in H; lia).
  assert (T2 : forall h, target p2 (x, h) = Some NULL).
  { intros h. rewrite (patched_target _ _ _ _ P2), decide_False by done. unfold x, prog1. rewrite target_new. by destruct h. }
  destruct (write_word_spec p2 (x, f) (ToInst b)) as (p3&E3&P3); [by rewrite T2|]. exists p3.
  assert (S3 : forall y, y ∉ D -> y < x -> p3 !! y = prog !! y).
  { intros y Hy Hyx. rewrite (patched_same _ _ _ _ P3) by (intros h; rewrite list_elem_of_singleton; intros [= ->]; lia).
    rewrite (patched_same _ _ _ _ P2); [by apply lookup_app_l|]. by intros h H%O. }
  assert (O3 : forall y, op_at p3 y = op_at prog1 y) by (intros y; by rewrite (patched_op _ _ _ _ P3), (patched_op _ _ _ _ P2)).
  split_and!; [done| | | |done|done| |].
  - rewrite (patched_length _ _ _ _ P3), (patched_length _ _ _ _ P2). unfold prog1. by rewrite length_app.
  - unfold fails. rewrite S3; [done|intros H%N; lia|unfold x; lia].
  - split; [intros y Hy; rewrite O3; by apply op_at_app, N|].
    intros [y h] Hl. cbn in Hl. rewrite (patched_target _ _ _ _ P3), decide_False; [|rewrite list_elem_of_singleton; intros [= -> _]; apply N in Hl; unfold x in Hl; lia].
    rewrite (patched_target _ _ _ _ P2). repeat case_decide; try done. by apply target_app, N.
  - rewrite (patched_target _ _ _ _ P3). apply decide_True. set_solver.
  - rewrite (patched_target _ _ _ _ P3), decide_False; [done|]. rewrite list_elem_of_singleton. congruence.
Qed.

(** The fragment [a] loops through a new instruction. *)
Lemma Star_wp c D a R ng : sound c -> frag_ok c D a R ->
  wp (Star a ng) (fun f c' => yields D c (rtc R) f c' /\ yields D c (tc R) (MkFrag (begin a) (end_ f)) c') c.
Proof.
  intros S Ha. unfold Star. apply alloc_wp_gen; [done| |].
  2: { intros c' S' G Hf E. split; [by apply failed_NoMatch|]. apply failed_yields; [done..|].
       destruct Ha as (ls&W&_). exists []. split; [|congruence]. rewrite E.
       split; [apply W|apply W|done|constructor|by intros l ?%not_elem_of_nil]. }
  intros n c1 Hf C1. destruct Ha as (ls&W&Ha). specialize (Ha Hf). pose proof (sound_fails _ S) as F.
  pose proof (wf_nodes _ _ _ _ W) as N. destruct (wf_begin _ _ _ _ W) as (b&B&I).
  apply call_bind, AllocInst_wp. apply call_bind, (patch_wp _ _ ls); [|apply W|].
  { apply (plist_proper (insts c)); [|apply W]. intros l Hl. by apply target_app, N, (wf_open _ _ _ _ W). }
  intros p2 P2. cbn [insts with_insts with_count word_of] in P2. set (f := if ng then Out1 else Out). set (g := if ng then Out else Out1).
  assert (Hfg : f <> g) by (unfold f, g; by destruct ng).
  destruct (star_memory (insts c) D a ls b p2 f g F W B Hfg P2) as (p3&E3&Len&F3&Po&O3&S3&Tf&Tg).
  change (length (insts c1)) with (length (insts c)) in *. set (x := length (insts c)) in *.
  apply call_bind, call_get. rewrite B. cbn [insts with_insts word_of]. apply call_bind. unfold wp at 1, lift. rewrite E3.
  apply call_bind. unfold wp at 1, set_insts. apply call_ret. pose proof (fails_lt _ F) as Hpos.
  destruct (new_kept 1 c D n (byte_inst_count_ c) (byterange_ c) p3) as [S' G]; [done..|lia|lia|done| |apply marks_refl|auto|].
  { eapply marked_op; [apply O3|]. by apply marked_new; [apply S|]. }
  assert (HxD : x ∉ D) by (intros H%N; unfold x in H; lia).
  assert (On : op_at p3 x = Some (kInstAlt NULL)) by (rewrite O3; apply op_at_new).
  assert (Hx0 : x <> 0) by (unfold x; lia).
  destruct (star_does text (insts c) p3 D a ls R b x f g) as [Fi Si]; [done..|].
  destruct (star_runs text (insts c) p3 D a ls R b x f g) as [Rs Rp]; [done..|].
  assert (Hs : since c D ({[x]} ∪ D)) by (intros y [->%elem_of_singleton|Hy]%elem_of_union; [right; unfold x; lia|by left]).
  assert (Hw : forall bg, inside ({[x]} ∪ D) bg -> frag_wf p3 ({[x]} ∪ D) (MkFrag (Some bg) (Some (x, g))) [(x, g)]).
  { intros bg Hb. split; [|by exists bg| |apply NoDup_singleton|].
    - intros y [->%elem_of_singleton|Hy%N]%elem_of_union; unfold x in *; lia.
    - cbn. split; [done|]. exists None. by rewrite Tg.
    - intros l ->%list_elem_of_singleton. set_solver. }
  split; (split; [done|]; split; [done|]); exists ({[x]} ∪ D); (split; [|done]); exists [(x, g)].
  - split; [apply Hw; right; set_solver|]. intros _. split; [done|done|]. intros ? [= <-]. done.
  - split; [apply Hw; destruct I; [by left|right; set_solver]|]. intros _. split; [done|done|]. intros ? [= <-]. done.
Qed.

Lemma Plus_wp c D a R ng : sound c -> frag_ok c D a R -> wp (Plus a ng) (yields D c (tc R)) c.
Proof. intros S Ha. unfold Plus. apply call_bind. eapply call_mono; [by apply Star_wp|]. intros f c' [_ H]. by apply call_ret. Qed.

Lemma Quest_wp c D a R ng : sound c -> frag_ok c D a R -> wp (Quest a ng) (yields D c (or_ R eq)) c.
Proof.
  intros S Ha. unfold Quest. apply alloc_wp; [done|]. intros n c1 Hf C1. destruct Ha as (ls&W&Ha). specialize (Ha Hf).
  pose proof (sound_fails _ S) as F. pose proof (fails_lt _ F) as Hpos.
  pose proof (wf_nodes _ _ _ _ W) as N. pose proof (wf_open _ _ _ _ W) as O. destruct (wf_begin _ _ _ _ W) as (b&B&I).
  rewrite B. cbn [word_of]. set (x := length (insts c)). set (g := if ng then Out else Out1).
  set (ip := if ng then MkInst (kInstAlt (ToInst b)) NULL else MkInst (kInstAlt NULL) (ToInst b)).
  assert (Ok : kind (opcode_ ip) = kInstAlt NULL) by (unfold ip; by destruct ng).
  assert (Og : slot ip g = Some NULL) by (unfold ip, g; by destruct ng).
  assert (Og' : forall g', g' <> g -> slot ip g' = Some (ToInst b)) by (unfold ip, g; destruct ng; by intros []).
  apply call_bind, AllocInst_wp. change (length (insts c1)) with x. change (insts c1) with (insts c).
  apply call_bind, (append_wp _ _ [(x, g)] ls); cbn [insts with_insts].
  { split; [done|]. exists None. split; [by rewrite target_new|done]. }
  { apply (plist_proper (insts c)); [|apply W]. intros l Hl. by apply target_app, N, O. }
  { apply NoDup_cons. split; [|apply W]. intros H%O%N. cbn in H. unfold x in H. lia. }
  intros p prog' Hp R'. apply call_ret. cbn [app] in Hp.
  destruct (quest_does text (insts c) prog' D a ls R b p ip g) as [F' Hd]; [done..|].
  destruct (new_kept 1 c D n (byte_inst_count_ c) (byterange_ c) prog') as [S' G]; [done..| |lia|done| |apply marks_refl| |].
  { rewrite (relinked_length _ _ _ R'), length_app. cbn. unfold x. lia. }
  { apply (marked_op (insts c ++ [ip])); [apply R'|]. apply marked_new; [apply S|]. by rewrite Ok. }
  { intros y Hy HD. rewrite (relinked_same _ _ _ R'); [by apply lookup_app_l|].
    intros h. rewrite list_elem_of_singleton. intros [= -> _]. unfold x in Hy. lia. }
  split; [done|]. split; [done|]. exists ({[x]} ∪ D).
  split; [|intros y [->%elem_of_singleton|Hy]%elem_of_union; [right; unfold x; lia|by left]].
  exists ((x, g) :: ls). split; [|done]. cbn. split.
  - intros y. rewrite (relinked_length _ _ _ R'), length_app. cbn. intros [->%elem_of_singleton|Hy%N]%elem_of_union; unfold x; lia.
  - exists x. split; [done|right; set_solver].
  - done.
  - apply NoDup_cons. split; [|apply W]. intros H%O%N. cbn in H. unfold x in H. lia.
  - intros l [->|H%O]%elem_of_cons; set_solver.
Qed.

(** The two instructions added by [Capture], after the fragment is patched. *)
Lemma capture_memory prog D a ls b m k p3 : fails prog -> frag_wf prog D a ls -> begin a = Some b ->
  let x := length prog in let prog2 := (prog ++ [MkInst (kInstCapture m) (ToInst b)]) ++ [MkInst (kInstCapture k) NULL] in
  patched prog2 p3 ls (ToInst (S x)) ->
  length p3 = x + 2 /\ fails p3 /\ patched_on D prog p3 ls (S x) /\ (forall y, op_at p3 y = op_at prog2 y)
  /\ (forall y, y ∉ D -> y < x -> p3 !! y = prog !! y)
  /\ op_at p3 x = Some (kInstCapture m) /\ op_at p3 (S x) = Some (kInstCapture k)
  /\ (forall f, target p3 (x, f) = if decide (f = Out) then Some (ToInst b) else None)
  /\ (forall f, target p3 (S x, f) = if decide (f = Out) then Some NULL else None).
Proof.
  intros F W B x prog2 P. pose proof (fails_lt _ F) as Hpos.
  pose proof (wf_open _ _ _ _ W) as O. pose proof (wf_nodes _ _ _ _ W) as N.
  assert (L1 : length (prog ++ [MkInst (kInstCapture m) (ToInst b)]) = S x) by (rewrite length_app; cbn; unfold x; lia).
  assert (Hx : forall y h, x <= y -> (y, h) ∉ ls) by (intros y h Hy H%O%N; cbn in H; unfold x in Hy; lia).
  assert (S3 : forall y, y ∉ D -> y < x -> p3 !! y = prog !! y).
  { intros y Hy Hyx. rewrite (patched_same _ _ _ _ P) by (by intros h H%O). unfold prog2. by rewrite !lookup_app_l by lia. }
  split_and!.
  - rewrite (patched_length _ _ _ _ P). unfold prog2. rewrite length_app, L1. cbn. lia.
  - unfold fails. rewrite S3; [done|intros H%N; lia|unfold x; lia].
  - split.
    + intros y Hy%N. rewrite (patched_op _ _ _ _ P). unfold prog2. rewrite !op_at_app; [done|lia|rewrite L1; unfold x; lia].
    + intros [y h] Hl. cbn in Hl. apply N in Hl. rewrite (patched_target _ _ _ _ P). repeat case_decide; try done.
      unfold prog2. rewrite !target_app; [done|cbn; lia|rewrite L1; cbn; unfold x; lia].
  - apply P.
  - done.
  - rewrite (patched_op _ _ _ _ P). unfold prog2. rewrite op_at_app by (rewrite L1; lia). apply op_at_new.
  - rewrite (patched_op _ _ _ _ P). unfold prog2. rewrite <- L1. apply op_at_new.
  - intros f. rewrite (patched_target _ _ _ _ P), decide_False by by apply Hx.
    unfold prog2. rewrite target_app by (rewrite L1; cbn; lia). unfold x. rewrite target_new. by destruct f.
  - intros f. rewrite (patched_target _ _ _ _ P), decide_False by (apply Hx; lia).
    unfold prog2. rewrite <- L1, target_new. by destruct f.
Qed.

Lemma Capture_wp c D a R k : sound c -> frag_ok c D a R -> wp (Capture a k) (yields D c R) c.
Proof.
  intros S Ha. unfold Capture. apply call_bind, (CanAllocInst_wp 0); [apply S|].
  intros ok c1 (n1&fl1&->&C1&H1&H2&H3). destruct ok.
  2: { rewrite (H1 eq_refl) in *. apply call_bind, call_ret, call_ret. destruct (sound_failed c n1 S). by apply failed_NoMatch. }
  destruct (H2 eq_refl) as [-> Hf]. apply call_bind, (CanAllocInst_wp (0 + 1)); [done|].
  intros ok c2 (n2&fl2&->&C2&G1&G2&G3). change (with_count n2 fl2 (with_count n1 false c)) with (with_count n2 fl2 c) in *.
  destruct ok.
  2: { rewrite (G1 eq_refl) in *. apply call_ret. destruct (sound_failed c n2 S). by apply failed_NoMatch. }
  destruct (G2 eq_refl) as [-> _]. clear C1 H1 H2 H3 G1 G2 G3.
  destruct Ha as (ls&W&Ha). specialize (Ha Hf). pose proof (sound_fails _ S) as F.
  pose proof (wf_nodes _ _ _ _ W) as N. destruct (wf_begin _ _ _ _ W) as (b&B&I).
  rewrite B. cbn [negb word_of]. apply call_bind, AllocInst_wp, call_bind, AllocInst_wp. cbn [insts with_insts with_count].
  rewrite length_app, Nat.add_1_r. cbn [length]. set (x := length (insts c)) in *.
  apply call_bind, (patch_wp _ _ ls); cbn [insts with_insts word_of]; [|apply W|].
  { apply (plist_proper (insts c)); [|apply W]. intros l Hl%(wf_open _ _ _ _ W)%N.
    rewrite !target_app; [done|lia|rewrite length_app; cbn; lia]. }
  intros p3 P. apply call_ret. destruct (capture_memory (insts c) D a ls b _ _ p3 F W B P) as (Len&F3&Po&O3&S3&Ox&Oy&Tx&Ty).
  destruct (new_kept 2 c D n2 (byte_inst_count_ c) (byterange_ c) p3) as [S' G]; [done..|lia|lia|done| |apply marks_refl|auto|].
  { eapply marked_op; [apply O3|]. apply marked_new; [|done]. by apply marked_new; [apply S|]. }
  assert (HxD : (x ∉ D) /\ (Datatypes.S x ∉ D)) by (split; intros H%N; unfold x in H; lia). destruct HxD as [HxD HyD].
  pose proof (capture_does text (insts c) p3 D a ls R b x (Datatypes.S x) _ _ F F3 W Ha B Po HxD HyD ltac:(lia) Ox Oy Tx Ty) as Hd.
  split; [done|]. split; [done|]. exists ({[x; Datatypes.S x]} ∪ D).
  split; [|intros y Hy; assert (y = x \/ y = Datatypes.S x \/ y ∈ D) as [->|[->|?]] by set_solver; unfold x; auto].
  exists [(Datatypes.S x, Out)]. split; [|done]. pose proof (fails_lt _ F). split; cbn.
  - intros y Hy. assert (y = x \/ y = Datatypes.S x \/ y ∈ D) as [->|[->|HD%N]] by set_solver; unfold x in *; lia.
  - exists x. split; [done|right; set_solver].
  - split; [done|]. exists None. by rewrite Ty.
  - apply NoDup_singleton.
  - intros l ->%list_elem_of_singleton. set_solver.
Qed.

(** ** Fragments of one instruction *)

Lemma single_yields c D n m b ip : sound c -> failed_ c = false -> counts 1 (with_count n false c) ->
  slot ip Out = Some NULL -> slot ip Out1 = None -> op_marked b (kind (opcode_ ip)) -> marks_kept (byterange_ c) b ->
  let x := length (insts c) in
  yields D c (leaves text (opcode_ ip) Out) (MkFrag (Some x) (Some (x, Out)))
    (with_insts (insts c ++ [ip]) (with_marks m b (with_count n false c))).
Proof.
  intros S Hf C S0 S1 M K x. pose proof (sound_fails _ S) as F. pose proof (fails_lt _ F) as Hpos.
  destruct (new_kept 1 c D n m b (insts c ++ [ip])) as [S' G]; [done..| |lia| | |done| |].
  { rewrite length_app. cbn. lia. }
  { unfold fails. by rewrite lookup_app_l. }
  { apply marked_new; [|done]. intros y op Ho. eapply op_marked_kept; [done|]. by apply (sound_marked _ S y). }
  { intros y Hy _. by apply lookup_app_l. }
  split; [done|]. split; [done|]. exists {[x]}. split; [|intros y ->%elem_of_singleton; by right].
  exists [(x, Out)]. split; [|intros _; by apply single_does]. split; cbn.
  - intros y ->%elem_of_singleton. rewrite length_app. unfold x. cbn. lia.
  - exists x. split; [done|right; set_solver].
  - split; [done|]. exists None. split; [|done]. unfold x. by rewrite target_new.
  - apply NoDup_singleton.
  - intros l ->%list_elem_of_singleton. set_solver.
Qed.

Lemma Nop_wp c D : sound c -> wp Nop (yields D c eq) c.
Proof.
  intros S. unfold Nop. apply alloc_wp; [done|]. intros n c1 Hf C. apply call_bind, AllocInst_wp, call_ret.
  pose proof (single_yields c D n (byte_inst_count_ c) (byterange_ c) (MkInst kInstNop NULL) S Hf C eq_refl eq_refl) as (S'&G&D'&H&Hs);
    [done|apply marks_refl|]. split; [done|]. split; [done|]. exists D'. split; [|done].
  eapply frag_ok_agree; [|exact H]. intros i j _. cbn. tauto.
Qed.

(** The ends of a range of bytes are marked. *)
Definition ends (b : Bitmap) (lo hi : Z) : Prop := ((0 < lo)%Z -> Bitmap_Get b (lo - 1) = true) /\ Bitmap_Get b hi = true.

Lemma Bitmap_Set_get b k j : (0 <= k)%Z -> (0 <= j)%Z -> Bitmap_Get (Bitmap_Set b k) j = Bitmap_Get b j || bool_decide (j = k).
Proof.
  intros Hk Hj. unfold Bitmap_Get, Bitmap_Set. rewrite Z.lor_spec, Z.shiftl_spec by done. f_equal.
  change 1%Z with (Z.ones 1). rewrite (Z.testbit_ones 1) by lia. case_bool_decide.
  - apply andb_true_iff. rewrite Z.leb_le, Z.ltb_lt. lia.
  - apply andb_false_iff. rewrite Z.leb_gt, Z.ltb_ge. lia.
Qed.

Lemma Bitmap_Get_neg b k : (k < 0)%Z -> Bitmap_Get b k = false.
Proof. intros H. unfold Bitmap_Get. by apply Z.testbit_neg_r. Qed.

Lemma MarkByteRange_spec lo hi b : (0 <= lo <= 255)%Z -> (0 <= hi <= 255)%Z ->
  exists b', MarkByteRange lo hi b = Ret b' /\ marks_kept b b' /\ ends b' lo hi.
Proof.
  intros Hlo Hhi. unfold MarkByteRange. rewrite decide_True by done. eexists. split; [done|]. split.
  - intros k Hk. destruct (decide (0 <= k)%Z) as [H|H]; [|by rewrite Bitmap_Get_neg in Hk by lia].
    rewrite Bitmap_Set_get by lia. case_decide; rewrite ?Bitmap_Set_get, Hk by lia; done.
  - split; [intros H; rewrite decide_True by done|]; rewrite !Bitmap_Set_get by lia.
    + rewrite (bool_decide_true (lo - 1 = lo - 1)%Z) by done. by rewrite orb_true_r.
    + rewrite (bool_decide_true (hi = hi)) by done. by rewrite orb_true_r.
Qed.

Lemma mark_wp lo hi c (Q : unit -> Compiler -> Prop) : (0 <= lo <= 255)%Z -> (0 <= hi <= 255)%Z ->
  (forall b, marks_kept (byterange_ c) b -> ends b lo hi -> Q () (with_marks (byte_inst_count_ c) b c)) -> wp (mark lo hi) Q c.
Proof.
  intros Hlo Hhi H. destruct (MarkByteRange_spec lo hi (byterange_ c) Hlo Hhi) as (b&E&K&En).
  unfold wp, mark, mbind, comp_bind, comp_get, lift. rewrite E. by apply H.
Qed.

Lemma ends_kept b b' lo hi : marks_kept b b' -> ends b lo hi -> ends b' lo hi.
Proof. intros K [H1 H2]. split; auto. Qed.

(** Bytes of the same class are both in a marked range or both outside. *)
Lemma ends_class b lo hi c d : ends b lo hi -> (0 <= lo <= hi)%Z -> same_class b c d -> (lo <= c <= hi)%Z -> (0 <= d)%Z -> (lo <= d <= hi)%Z.
Proof.
  intros [H1 H2] Hr S Hc Hd. split.
  - destruct (decide (lo <= d)%Z); [done|]. specialize (H1 ltac:(lia)). rewrite S in H1 by lia. done.
  - destruct (decide (d <= hi)%Z); [done|]. rewrite S in H2 by lia. done.
Qed.

Lemma ends_class_iff b lo hi c d : ends b lo hi -> (0 <= lo <= hi)%Z -> same_class b c d -> (0 <= c)%Z -> (0 <= d)%Z ->
  (lo <= c <= hi)%Z <-> (lo <= d <= hi)%Z.
Proof.
  intros E Hr S Hc Hd. split; intros H; [by eapply ends_class|]. eapply (ends_class b lo hi d); [done|done| |done|done].
  intros k Hk. apply S. lia.
Qed.

(** A byte of a range is read. *)
Definition reads_in (lo hi : Z) (fold : bool) : span := fun i j =>
  j = S i /\ exists ch, text !! i = Some ch /\ Matches lo hi fold (uchar ch) = true.

(** One instruction has been allocated, or the compiler has failed. *)
Definition alloced (c : Compiler) (ip : Inst) (f : Frag) (c' : Compiler) : Prop :=
  sound c' /\ grows ∅ c c' /\ rune_cache_ c' = rune_cache_ c /\ rune_range_ c' = rune_range_ c
  /\ ((failed_ c' = true /\ f = NoMatch /\ insts c' = insts c)
      \/ (failed_ c' = false /\ failed_ c = false /\ insts c' = insts c ++ [ip]
          /\ f = MkFrag (Some (length (insts c))) (Some (length (insts c), Out)))).

Lemma alloced_yields c D ip f c' : alloced c ip f c' -> sound c -> slot ip Out = Some NULL -> slot ip Out1 = None ->
  yields D c (leaves text (opcode_ ip) Out) f c'.
Proof.
  intros (S'&G&_&_&[(Hf&->&_)|(Hf&Hf0&E&->)]) S S0 S1; [by apply failed_NoMatch|].
  split; [done|]. split; [by eapply grows_weaken|]. set (x := length (insts c)). exists {[x]}.
  split; [|intros y ->%elem_of_singleton; by right]. exists [(x, Out)]. rewrite E.
  pose proof (sound_fails _ S) as F. pose proof (fails_lt _ F).
  split; [|intros _; by apply single_does]. split; cbn.
  - intros y ->%elem_of_singleton. rewrite length_app. unfold x. cbn. lia.
  - exists x. split; [done|right; set_solver].
  - split; [done|]. exists None. split; [|done]. unfold x. by rewrite target_new.
  - apply NoDup_singleton.
  - intros l ->%list_elem_of_singleton. set_solver.
Qed.

Lemma land_255 z : (0 <= z <= 255)%Z -> Z.land z 0xFF = z.
Proof. intros H. change 0xFF%Z with (Z.ones 8). rewrite Z.land_ones by lia. apply Z.mod_small. change (2 ^ 8)%Z with 256%Z. lia. Qed.

(** The marks of a range, and those of its upper-case letters. *)
Lemma range_marked b lo hi fold : (0 <= lo <= hi)%Z -> (hi <= 255)%Z -> ends b lo hi ->
  (fold = true -> (lo <= 122)%Z -> (97 <= hi)%Z -> ends b (Z.max lo 97 + 65 - 97) (Z.min hi 122 + 65 - 97)) ->
  op_marked b (kInstByteRange lo hi fold).
Proof.
  intros Hlo Hhi E EU c d Hc Hd S. split; [lia|]. intros Hex. pose proof (ends_class_iff b lo hi c d E Hlo S ltac:(lia) ltac:(lia)) as H1.
  unfold Matches. destruct fold; cbn [andb]; [|by apply bool_decide_ext].
  assert (HU : ((65 <= c <= 90 /\ lo <= c + 32 <= hi) <-> (65 <= d <= 90 /\ lo <= d + 32 <= hi))%Z).
  { destruct (decide (lo <= 122 /\ 97 <= hi)%Z) as [[L1 L2]|]; [|lia].
    pose proof (ends_class_iff b _ _ c d (EU eq_refl L1 L2) ltac:(lia) S ltac:(lia) ltac:(lia)). lia. }
  apply bool_decide_ext. destruct Hex as [?|Hex]; [done|]. repeat case_bool_decide; lia.
Qed.

Lemma ByteRange_wp c lo hi fold : sound c -> (0 <= lo <= hi)%Z -> (hi <= 255)%Z ->
  wp (ByteRange lo hi fold) (alloced c (MkInst (kInstByteRange lo hi fold) NULL)) c.
Proof.
  intros S Hlo Hhi. unfold ByteRange. apply call_bind, (CanAllocInst_wp 0); [apply S|].
  intros ok c1 (n&fl&->&C&H1&H2&H3). destruct ok.
  2: { rewrite (H1 eq_refl). apply call_ret. destruct (sound_failed c n S). split_and!; [done..|]. left. done. }
  destruct (H2 eq_refl) as [-> Hf]. unfold InitByteRange. rewrite !land_255 by lia.
  set (ip := MkInst (kInstByteRange lo hi fold) NULL). cbn [negb]. apply call_bind, call_get, call_bind. unfold wp at 1, set_byte_inst_count.
  apply call_bind, AllocInst_wp, call_bind, mark_wp; [lia..|]. cbn [byterange_ with_insts with_count]. intros b K E.
  set (m := (byte_inst_count_ c + 1)%Z).
  assert (Hdone : forall b', marks_kept b b' -> (fold = true -> (lo <= 122)%Z -> (97 <= hi)%Z -> ends b' (Z.max lo 97 + 65 - 97) (Z.min hi 122 + 65 - 97)) ->
    alloced c ip (MkFrag (Some (length (insts c))) (Some (length (insts c), Out))) (with_insts (insts c ++ [ip]) (with_marks m b' (with_count n false c)))).
  { intros b' K' EU. destruct (single_yields c ∅ n m b' ip S Hf C eq_refl eq_refl) as (S'&G&_).
    - apply range_marked; [done|done|by eapply ends_kept|done].
    - intros k Hk. by apply K', K.
    - split_and!; [done..|]. right. done. }
  apply call_bind. destruct (fold && _ && _) eqn:Ec.
  - boolify. cbn zeta.
    assert ((if decide (lo < 97)%Z then 97%Z else lo) = Z.max lo 97) as -> by (case_decide; lia).
    assert ((if decide (122 < hi)%Z then 122%Z else hi) = Z.min hi 122) as -> by (case_decide; lia).
    rewrite decide_True by lia. apply mark_wp; [lia..|]. intros b' K' E'. apply call_ret. exact (Hdone b' K' (fun _ _ _ => E')).
  - apply call_ret, call_ret. apply (Hdone b); [apply marks_refl|]. intros -> ? ?. exfalso. rewrite !bool_decide_true in Ec by done. done.
Qed.

Lemma reads_in_leaves lo hi fold : leaves text (kInstByteRange lo hi fold) Out ≡ₛ reads_in lo hi fold.
Proof. intros i j. unfold reads_in. cbn. naive_solver. Qed.

Lemma ByteRange_yields c D lo hi fold : sound c -> (0 <= lo <= hi)%Z -> (hi <= 255)%Z ->
  wp (ByteRange lo hi fold) (yields D c (reads_in lo hi fold)) c.
Proof.
  intros S Hlo Hhi. eapply call_mono; [by apply ByteRange_wp|]. intros f c' H.
  destruct (alloced_yields c D _ f c' H S eq_refl eq_refl) as (S'&G&D'&Hok&Hs). split; [done|]. split; [done|]. exists D'. split; [|done].
  eapply frag_ok_agree; [|exact Hok]. apply span_eq_agree, reads_in_leaves.
Qed.

(** The ranges of word characters and of the others. *)
Definition word_classes : list (Z * Z) :=
  [(0, 47); (48, 57); (58, 64); (65, 90); (91, 94); (95, 95); (96, 96); (97, 122); (123, 255)]%Z.

Definition ends_all (b : Bitmap) (l : list (Z * Z)) : Prop := Forall (fun r => ends b r.1 r.2) l.

Lemma mark_words_wp l : forall i fuel c (Q : unit -> Compiler -> Prop),
  (fix follows (i : Z) (l : list (Z * Z)) : bool := match l with
     | [] => bool_decide (256 <= i)%Z
     | (lo, hi) :: l' => bool_decide (lo = i /\ 0 <= lo <= 255 /\ 0 <= hi <= 255 /\ class_end 256 i (i + 1) = hi + 1)%Z && follows (hi + 1)%Z l'
     end) i l = true -> length l < fuel ->
  (forall b, marks_kept (byterange_ c) b -> ends_all b l -> Q () (with_marks (byte_inst_count_ c) b c)) ->
  wp (mark_words fuel i) Q c.
Proof.
  induction l as [|[lo hi] l IH]; intros i fuel c Q Hl Hf H; (destruct fuel as [|fuel]; [lia|]); cbn [mark_words].
  - boolify. rewrite decide_False by lia. apply call_ret. specialize (H (byterange_ c)). destruct c. apply H; [apply marks_refl|constructor].
  - apply andb_true_iff in Hl as [(->&Hlo&Hhi&Hc)%bool_decide_eq_true Hl]. rewrite decide_True by lia. cbn zeta. rewrite Hc.
    rewrite Z.add_simpl_r. apply call_bind, mark_wp; [done..|]. intros b K E. apply IH; [done|cbn in Hf; lia|].
    intros b' K' E'. apply (H b'); [intros k Hk; by apply K', K|]. constructor; [by eapply ends_kept|done].
Qed.

Lemma words_marked b c d : ends_all b word_classes -> (0 <= c <= 255)%Z -> (0 <= d <= 255)%Z -> same_class b c d ->
  IsWordChar c = IsWordChar d.
Proof.
  intros H Hc Hd S. unfold ends_all, word_classes in H. rewrite !Forall_cons in H. cbn [fst snd] in H. destruct_and!.
  repeat match goal with E : ends b ?lo ?hi |- _ =>
    pose proof (ends_class_iff b lo hi c d E ltac:(lia) S ltac:(lia) ltac:(lia)); clear E end.
  unfold IsWordChar. f_equal; [f_equal; [f_equal|]|]; apply bool_decide_ext; lia.
Qed.

Lemma newline_marked b c d : ends b 10 10 -> (0 <= c <= 255)%Z -> (0 <= d <= 255)%Z -> same_class b c d -> c = 10%Z <-> d = 10%Z.
Proof. intros E Hc Hd S. pose proof (ends_class_iff b 10 10 c d E ltac:(lia) S ltac:(lia) ltac:(lia)). lia. Qed.

Lemma EmptyWidth_wp c D e : sound c -> wp (EmptyWidth e) (yields D c (fun i j => i = j /\ empty_holds text e i)) c.
Proof.
  intros S. unfold EmptyWidth. apply alloc_wp; [done|]. intros n c1 Hf C. apply call_bind, AllocInst_wp.
  set (ip := MkInst (kInstEmptyWidth e) NULL).
  assert (Hdone : forall b, marks_kept (byterange_ c) b -> op_marked b (kInstEmptyWidth e) ->
    yields D c (fun i j => i = j /\ empty_holds text e i) (MkFrag (Some (length (insts c))) (Some (length (insts c), Out)))
      (with_insts (insts c ++ [ip]) (with_marks (byte_inst_count_ c) b (with_count n false c)))).
  { intros b K M. destruct (single_yields c D n (byte_inst_count_ c) b ip S Hf C eq_refl eq_refl M K) as (S'&G&D'&Hok&Hs).
    split; [done|]. split; [done|]. exists D'. split; [|done]. eapply frag_ok_agree; [|exact Hok]. intros i j _. cbn. tauto. }
  apply call_bind. assert (Hlines : forall Q, (forall b, marks_kept (byterange_ c) b ->
      (Z.land e (Z.lor kEmptyBeginLine kEmptyEndLine) <> 0%Z -> ends b 10 10) ->
      Q () (with_insts (insts c ++ [ip]) (with_marks (byte_inst_count_ c) b (with_count n false c)))) ->
    wp (if decide (Z.land e (Z.lor kEmptyBeginLine kEmptyEndLine) <> 0%Z) then mark 10 10 else mret ()) Q
      (with_insts (insts c ++ [ip]) c1)).
  { intros Q H. case_decide as He.
    - apply mark_wp; [lia..|]. intros b K E. by apply (H b).
    - apply call_ret. by apply (H (byterange_ c)); [apply marks_refl|]. }
  apply Hlines. intros b K El. apply call_bind.
  destruct (decide (Z.land e (Z.lor kEmptyWordBoundary kEmptyNonWordBoundary) <> 0%Z)) as [He|He].
  - apply (mark_words_wp word_classes); [by vm_compute|cbn; lia|]. intros b' K' Ew. apply call_ret. apply (Hdone b').
    + intros k Hk. by apply K', K.
    + intros x y Hx Hy Hs. split; [intros Hl; eapply newline_marked; [by eapply ends_kept; [|apply El]|done..]|].
      intros _. by apply (words_marked b').
  - apply call_ret, call_ret, (Hdone b); [done|]. intros x y Hx Hy Hs. split; [|done]. intros Hl. by apply (newline_marked b); [apply El|..].
Qed.
End methods.
