(* ===== verification/RuneRanges.v ===== *)
(** * Ranges of runes as strings of bytes

    What [AddRuneRangeUTF8] of src/libs/re2/src/re2/compile.cc relies on: where
    a range may not be split any more, the encodings of its runes are the
    strings whose bytes are in the ranges between the bytes of its ends. *)

From S2P Require Import Prelude Rune CharClass Regexp Walker RegexpSem Prog Compile.

#[local] Open Scope Z_scope.

(** Each byte is in its range. *)
Definition bytes_in (ranges : list (Z * Z)) (s : bytes) : Prop :=
  Forall2 (fun r ch => r.1 <= uchar ch <= r.2) ranges s.

(** The rune that a letter stands for where case is folded. *)
Definition folded (fold : bool) (x : Z) : Z := if fold && bool_decide (65 <= x <= 90) then x + 32 else x.

(** ** Splitting by the length of the encoding *)

(** How long the encoding is. *)
Definition utf8_len (x : Z) : nat := if decide (x <= 127) then 1%nat else if decide (x <= 2047) then 2%nat
  else if decide (x <= 65535) then 3%nat else 4%nat.

Lemma split_length_Some lo hi max : split_length lo hi = Some max ->
  (max = 127 \/ max = 2047 \/ max = 65535) /\ lo <= max < hi.
Proof.
  unfold split_length. cbn [fmap list_fmap List.find].
  change (MaxRune 1) with 127. change (MaxRune 2) with 2047. change (MaxRune 3) with 65535.
  destruct (bool_decide (lo <= 127) && _) eqn:E1; [intros [= <-]; boolify; lia|].
  destruct (bool_decide (lo <= 2047) && _) eqn:E2; [intros [= <-]; boolify; lia|].
  destruct (bool_decide (lo <= 65535) && _) eqn:E3; [intros [= <-]; boolify; lia|done].
Qed.

Lemma split_length_None lo hi : split_length lo hi = None -> lo <= hi -> utf8_len lo = utf8_len hi.
Proof.
  unfold split_length. cbn [fmap list_fmap List.find].
  change (MaxRune 1) with 127. change (MaxRune 2) with 2047. change (MaxRune 3) with 65535. unfold utf8_len.
  destruct (bool_decide (lo <= 127) && _) eqn:E1; [done|].
  destruct (bool_decide (lo <= 2047) && _) eqn:E2; [done|].
  destruct (bool_decide (lo <= 65535) && _) eqn:E3; [done|]. intros _ Hlh.
  apply andb_false_iff in E1, E2, E3. rewrite !bool_decide_eq_false in E1, E2, E3. repeat case_decide; lia.
Qed.

(** ** Splitting by the leading bytes *)

Definition block (i : Z) : Z := 2 ^ (6 * i).

Lemma block_pos i : 0 <= i -> 0 < block i.
Proof. intros Hi. unfold block. apply Z.pow_pos_nonneg; lia. Qed.

Lemma low_mask_ones i : low_mask i = Z.ones (6 * i).
Proof. unfold low_mask. by rewrite Z.ones_equiv, Z.shiftl_1_l, Z.sub_1_r. Qed.

Lemma low_mask_block i : low_mask i = block i - 1.
Proof. unfold low_mask, block. by rewrite Z.shiftl_1_l. Qed.

Lemma low_mask_land i x : 0 <= i -> Z.land x (low_mask i) = x `mod` block i.
Proof. intros Hi. rewrite low_mask_ones, Z.land_ones by lia. done. Qed.

Lemma high_mask_land i x : 0 < i <= 3 -> 0 <= x < 2 ^ 32 -> Z.land x (high_mask i) = x / block i * block i.
Proof.
  intros Hi Hx. unfold high_mask, uwrap, block. rewrite <- (Z.land_ones _ 32) by lia.
  rewrite (Z.land_comm (Z.lnot _)), Z.land_assoc, (Z.land_ones x 32), (Z.mod_small x) by lia.
  rewrite low_mask_ones, <- Z.ldiff_land, Z.ldiff_ones_r, Z.shiftl_mul_pow2, Z.shiftr_div_pow2 by lia. done.
Qed.

Lemma low_mask_lor i x : 0 < i -> 0 <= x -> Z.lor x (low_mask i) = x / block i * block i + (block i - 1).
Proof.
  intros Hi Hx. pose proof (block_pos i ltac:(lia)) as Hb. pose proof (Z.mod_pos_bound x (block i) Hb) as Hm.
  rewrite (Z.div_mod x (block i)) at 1 by lia. rewrite (Z.mul_comm (block i)).
  unfold block at 2. rewrite <- (lor_low (x / block i) (x `mod` block i) (6 * i)) by (unfold block in *; lia).
  rewrite <- Z.lor_assoc, low_mask_ones, Z.lor_ones_low.
  - rewrite <- low_mask_ones, low_mask_block. apply lor_low; [lia|]. fold (block i). lia.
  - lia.
  - destruct (decide (x mod block i = 0)) as [->|]; [cbn; lia|]. apply Z.log2_lt_pow2; [lia|]. fold (block i). lia.
Qed.

(** Ends in one block, or at the ends of blocks: level [i] does not split. *)
Definition level_done (lo hi i : Z) : Prop :=
  lo / block i = hi / block i \/ (lo mod block i = 0 /\ hi mod block i = block i - 1).

Definition rune_ends (lo hi : Z) : Prop := 0 <= lo <= hi /\ hi <= Runemax.

Lemma split_prefix_spec levels lo hi : rune_ends lo hi -> Forall (fun i => 0 < i <= 3) levels ->
  match split_prefix lo hi levels with
  | None => Forall (level_done lo hi) levels
  | Some (hi', lo') => exists before i after, levels = before ++ i :: after /\ Forall (level_done lo hi) before
      /\ lo' = hi' + 1 /\ lo <= hi' < hi /\ lo / block i <> hi / block i
      /\ ((lo mod block i <> 0 /\ hi' = lo / block i * block i + (block i - 1))
         \/ (lo mod block i = 0 /\ hi mod block i <> block i - 1 /\ lo' = hi / block i * block i))
  end.
Proof.
  intros [Hlh Hhi]. unfold Runemax in Hhi. induction levels as [|i levels IH]; intros HF; [by constructor|]. apply Forall_cons in HF as [Hi HF].
  specialize (IH HF). cbn [split_prefix]. pose proof (block_pos i ltac:(lia)) as Hb.
  rewrite !high_mask_land, !low_mask_land, low_mask_lor, low_mask_block by (lia || (change (2 ^ 32) with 4294967296; lia)).
  assert (Hnext : level_done lo hi i -> match split_prefix lo hi levels with
    | None => Forall (level_done lo hi) (i :: levels)
    | Some (hi', lo') => exists before i0 after, i :: levels = before ++ i0 :: after /\ Forall (level_done lo hi) before
      /\ lo' = hi' + 1 /\ lo <= hi' < hi /\ lo / block i0 <> hi / block i0
      /\ ((lo mod block i0 <> 0 /\ hi' = lo / block i0 * block i0 + (block i0 - 1))
         \/ (lo mod block i0 = 0 /\ hi mod block i0 <> block i0 - 1 /\ lo' = hi / block i0 * block i0)) end).
  { intros D. destruct (split_prefix lo hi levels) as [[hi' lo']|]; [|by constructor].
    destruct IH as (bf&i0&af&->&HD&H). exists (i :: bf), i0, af. split; [done|]. split; [by constructor|done]. }
  pose proof (Z.div_mod lo (block i) ltac:(lia)) as El. pose proof (Z.div_mod hi (block i) ltac:(lia)) as Eh.
  pose proof (Z.mod_pos_bound lo (block i) Hb) as Ml. pose proof (Z.mod_pos_bound hi (block i) Hb) as Mh.
  pose proof (Z.div_le_mono lo hi (block i) Hb ltac:(lia)) as Hd.
  case_decide as E1; [|apply Hnext; left; nia].
  assert (Hne : lo / block i < hi / block i) by nia.
  case_decide as E2.
  - exists [], i, levels. split_and!; [done|done|lia|nia|nia|nia|]. left. done.
  - case_decide as E3.
    + exists [], i, levels. split_and!; [done|done|lia|nia|nia|nia|]. right. split_and!; [lia|done|lia].
    + apply Hnext. right. lia.
Qed.

(** ** Where a range is not split any more *)

(** The 6-bit digits of a rune. *)
Record digits (x d3 d2 d1 d0 : Z) : Prop := {
  digits_sum : x = ((d3 * 64 + d2) * 64 + d1) * 64 + d0;
  digits_bounds : 0 <= d3 /\ 0 <= d2 < 64 /\ 0 <= d1 < 64 /\ 0 <= d0 < 64;
}.

Lemma digits_of x : 0 <= x -> digits x (x / 64 / 64 / 64) (x / 64 / 64 mod 64) (x / 64 mod 64) (x mod 64).
Proof. intros H. split; divs. Qed.

Lemma utf8_digits x d3 d2 d1 d0 : digits x d3 d2 d1 d0 -> 127 < x ->
  utf8 x = if decide (x <= 2047) then [0xC0 + d1; 0x80 + d0]
    else if decide (x <= 65535) then [0xE0 + d2; 0x80 + d1; 0x80 + d0]
    else [0xF0 + d3; 0x80 + d2; 0x80 + d1; 0x80 + d0].
Proof.
  intros [E B] H. unfold utf8.
  assert (x / 64 / 64 / 64 = d3 /\ x / 64 / 64 mod 64 = d2 /\ x / 64 mod 64 = d1 /\ x mod 64 = d0) as (<-&<-&<-&<-) by divs.
  repeat case_decide; try lia; repeat f_equal; divs.
Qed.

Lemma levels_digits lo hi l3 l2 l1 l0 h3 h2 h1 h0 : digits lo l3 l2 l1 l0 -> digits hi h3 h2 h1 h0 ->
  Forall (level_done lo hi) [1; 2; 3] ->
  ((l3 = h3 /\ l2 = h2 /\ l1 = h1) \/ (l0 = 0 /\ h0 = 63))
  /\ ((l3 = h3 /\ l2 = h2) \/ (l1 = 0 /\ l0 = 0 /\ h1 = 63 /\ h0 = 63))
  /\ (l3 = h3 \/ (l2 = 0 /\ l1 = 0 /\ l0 = 0 /\ h2 = 63 /\ h1 = 63 /\ h0 = 63)).
Proof.
  intros [El Bl] [Eh Bh]. rewrite !Forall_cons. unfold level_done.
  change (block 1) with 64. change (block 2) with 4096. change (block 3) with 262144.
  intros (H1&H2&H3&_). split_and!; [clear H2 H3|clear H1 H3|clear H1 H2]; divs.
Qed.

Lemma bytes_in_cons r rs s : bytes_in (r :: rs) s <-> exists b s', s = char_of_Z b :: s' /\ 0 <= b < 256 /\ r.1 <= b <= r.2 /\ bytes_in rs s'.
Proof.
  unfold bytes_in. split.
  - inversion 1 as [|? ch ? s' Hr Hs]; subst. exists (uchar ch), s'. rewrite char_of_Z_uchar. pose proof (uchar_range ch). split_and!; (done || lia).
  - intros (b&s'&->&Hb&Hr&Hs). constructor; [by rewrite uchar_small|done].
Qed.

Lemma bytes_in_nil s : bytes_in [] s <-> s = [].
Proof. unfold bytes_in. split; [by inversion 1|intros ->; constructor]. Qed.

(** The runes between the ends and the strings between their bytes. *)
Lemma leaf_strings lo hi s : rune_ends lo hi -> 127 < lo -> utf8_len lo = utf8_len hi -> Forall (level_done lo hi) [1; 2; 3] ->
  bytes_in (zip (utf8 lo) (utf8 hi)) s <-> exists x, lo <= x <= hi /\ s = char_of_Z <$> utf8 x.
Proof.
  intros [Hlh Hhi] Hlo Hlen Hlev. unfold Runemax in Hhi.
  pose proof (digits_of lo ltac:(lia)) as Dl. pose proof (digits_of hi ltac:(lia)) as Dh.
  pose proof (levels_digits _ _ _ _ _ _ _ _ _ _ Dl Dh Hlev) as L. clear Hlev.
  revert Dl Dh L.
  generalize (lo / 64 / 64 / 64) as l3, (lo / 64 / 64 mod 64) as l2, (lo / 64 mod 64) as l1, (lo mod 64) as l0.
  generalize (hi / 64 / 64 / 64) as h3, (hi / 64 / 64 mod 64) as h2, (hi / 64 mod 64) as h1, (hi mod 64) as h0.
  intros h0 h1 h2 h3 l0 l1 l2 l3 Dl Dh L. rewrite (utf8_digits lo _ _ _ _ Dl), (utf8_digits hi _ _ _ _ Dh) by lia.
  destruct Dl as [El Bl], Dh as [Eh Bh].
  assert (Hx : forall x, lo <= x <= hi -> exists d3 d2 d1 d0, digits x d3 d2 d1 d0 /\ 127 < x) by (intros x Hx; do 4 eexists; split; [apply digits_of|]; lia).
  unfold utf8_len in Hlen. split.
  - repeat case_decide; try lia; cbn [zip zip_with]; rewrite !bytes_in_cons; intros (b0&s0&->&R0&B0&Hs); cbn [fst snd] in B0.
    + apply bytes_in_cons in Hs as (b1&?&->&R1&B1&->%bytes_in_nil). cbn [fst snd] in B1.
      exists ((b0 - 0xC0) * 64 + (b1 - 0x80)). split; [lia|].
      rewrite (utf8_digits _ 0 0 (b0 - 0xC0) (b1 - 0x80)) by (split || idtac; lia).
      rewrite decide_True by lia. cbn. by rewrite !Zplus_minus.
    + apply bytes_in_cons in Hs as (b1&?&->&R1&B1&Hs). apply bytes_in_cons in Hs as (b2&?&->&R2&B2&->%bytes_in_nil).
      cbn [fst snd] in B1, B2. exists (((b0 - 0xE0) * 64 + (b1 - 0x80)) * 64 + (b2 - 0x80)). split; [lia|].
      rewrite (utf8_digits _ 0 (b0 - 0xE0) (b1 - 0x80) (b2 - 0x80)) by (split || idtac; lia).
      rewrite decide_False, decide_True by lia. cbn. by rewrite !Zplus_minus.
    + apply bytes_in_cons in Hs as (b1&?&->&R1&B1&Hs). apply bytes_in_cons in Hs as (b2&?&->&R2&B2&Hs).
      apply bytes_in_cons in Hs as (b3&?&->&R3&B3&->%bytes_in_nil).
      cbn [fst snd] in B1, B2, B3. exists ((((b0 - 0xF0) * 64 + (b1 - 0x80)) * 64 + (b2 - 0x80)) * 64 + (b3 - 0x80)). split; [lia|].
      rewrite (utf8_digits _ (b0 - 0xF0) (b1 - 0x80) (b2 - 0x80) (b3 - 0x80)) by (split || idtac; lia).
      rewrite !decide_False by lia. cbn. by rewrite !Zplus_minus.
  - intros (x&Hx'&->). destruct (Hx x Hx') as (d3&d2&d1&d0&D&H127). rewrite (utf8_digits x _ _ _ _ D H127). destruct D as [Ex Bx].
    repeat case_decide; try lia; cbn [zip zip_with fmap list_fmap fst snd];
      repeat (apply bytes_in_cons; eexists _, _; split_and!; [done|cbn; lia..|]); by apply bytes_in_nil.
Qed.

(** ** How often a range is split *)

(** What is left to split at level [i]. *)
Definition level_splits (lo hi i : Z) : nat :=
  if decide (lo / block i = hi / block i) then 0%nat
  else Nat.add (if decide (lo mod block i = 0) then 0%nat else 1%nat) (if decide (hi mod block i = block i - 1) then 0%nat else 1%nat).

Definition prefix_splits (lo hi : Z) : nat := (level_splits lo hi 1 + level_splits lo hi 2 + level_splits lo hi 3)%nat.

Lemma level_splits_bound lo hi i : (level_splits lo hi i <= 2)%nat.
Proof. unfold level_splits. repeat case_decide; lia. Qed.

#[local] Ltac blocks := change (block 1) with 64 in *; change (block 2) with 4096 in *; change (block 3) with 262144 in *.

Lemma split_level before i after : [1; 2; 3] = before ++ i :: after ->
  (before = [] /\ i = 1) \/ (before = [1] /\ i = 2) \/ (before = [1; 2] /\ i = 3).
Proof.
  destruct before as [|? [|? [|? before]]]; intros [=]; subst; auto.
  by destruct before.
Qed.

Lemma split_prefix_less lo hi hi' lo' : rune_ends lo hi -> split_prefix lo hi [1; 2; 3] = Some (hi', lo') ->
  lo' = hi' + 1 /\ lo <= hi' < hi
  /\ (prefix_splits lo hi' < prefix_splits lo hi)%nat /\ (prefix_splits lo' hi < prefix_splits lo hi)%nat.
Proof.
  intros Hr E. pose proof (split_prefix_spec [1; 2; 3] lo hi Hr ltac:(repeat constructor; lia)) as H. rewrite E in H.
  destruct H as (bf&i&af&El&Hbf&Hlo'&Hh&Hd&Hc). destruct Hr as [H0 _]. split; [done|]. split; [done|]. unfold prefix_splits.
  pose proof (split_level _ _ _ El) as Hi.
  assert (Hk : forall k, k = 1 \/ k = 2 \/ k = 3 -> k <> i ->
    (level_splits lo hi' k <= level_splits lo hi k)%nat /\ (level_splits lo' hi k <= level_splits lo hi k)%nat).
  { intros k Hk Hki. unfold level_splits.
    destruct Hi as [[-> ->]|[[-> ->]|[-> ->]]], Hk as [->|[->| ->]]; try done;
      rewrite ?Forall_cons in Hbf; unfold level_done in Hbf; blocks; split; repeat case_decide; divs. }
  assert (Hs : (level_splits lo hi' i < level_splits lo hi i)%nat /\ (level_splits lo' hi i < level_splits lo hi i)%nat).
  { unfold level_splits. destruct Hi as [[-> ->]|[[-> ->]|[-> ->]]]; blocks; split; repeat case_decide; divs. }
  pose proof (Hk 1 ltac:(lia)). pose proof (Hk 2 ltac:(lia)). pose proof (Hk 3 ltac:(lia)).
  destruct Hi as [[-> ->]|[[-> ->]|[-> ->]]]; lia.
Qed.

Definition length_splits (lo hi : Z) : nat :=
  Nat.add (if decide (lo <= 127 < hi) then 1%nat else 0%nat)
    (Nat.add (if decide (lo <= 2047 < hi) then 1%nat else 0%nat) (if decide (lo <= 65535 < hi) then 1%nat else 0%nat)).

(** How deep [AddRuneRangeUTF8] recurs. *)
Definition range_depth (lo hi : Z) : nat :=
  match length_splits lo hi with O => S (prefix_splits lo hi) | n => (n + 7)%nat end.

Lemma prefix_splits_bound lo hi : (prefix_splits lo hi <= 6)%nat.
Proof.
  unfold prefix_splits. pose proof (level_splits_bound lo hi 1). pose proof (level_splits_bound lo hi 2).
  pose proof (level_splits_bound lo hi 3). lia.
Qed.

Lemma range_depth_bound lo hi : (range_depth lo hi <= 10)%nat.
Proof.
  unfold range_depth. pose proof (prefix_splits_bound lo hi).
  assert (length_splits lo hi <= 3)%nat by (unfold length_splits; repeat case_decide; lia).
  destruct (length_splits lo hi); lia.
Qed.

Lemma range_depth_length lo hi max : split_length lo hi = Some max ->
  lo <= max < hi /\ (range_depth lo max < range_depth lo hi)%nat /\ (range_depth (max + 1) hi < range_depth lo hi)%nat.
Proof.
  intros E. pose proof (split_length_Some _ _ _ E) as [Hm Hr]. split; [done|].
  unfold split_length in E. cbn [fmap list_fmap List.find] in E.
  change (MaxRune 1) with 127 in E. change (MaxRune 2) with 2047 in E. change (MaxRune 3) with 65535 in E.
  assert (H : length_splits lo max = 0%nat /\ (length_splits (max + 1) hi < length_splits lo hi)%nat).
  { unfold length_splits.
    destruct (bool_decide (lo <= 127) && _) eqn:E1; [injection E as <-; boolify; repeat case_decide; lia|].
    destruct (bool_decide (lo <= 2047) && _) eqn:E2;
      [injection E as <-; boolify; apply andb_false_iff in E1; rewrite !bool_decide_eq_false in E1; repeat case_decide; lia|].
    destruct (bool_decide (lo <= 65535) && _) eqn:E3; [|done]. injection E as <-. boolify.
    apply andb_false_iff in E1, E2. rewrite !bool_decide_eq_false in E1, E2. repeat case_decide; lia. }
  destruct H as [H1 H2]. unfold range_depth. rewrite H1.
  pose proof (prefix_splits_bound lo max). pose proof (prefix_splits_bound (max + 1) hi).
  destruct (length_splits lo hi) as [|n]; [lia|]. destruct (length_splits (max + 1) hi); lia.
Qed.

Lemma length_splits_same lo hi lo' hi' : lo <= lo' -> hi' <= hi -> length_splits lo hi = 0%nat -> length_splits lo' hi' = 0%nat.
Proof. unfold length_splits. intros. repeat case_decide; lia. Qed.

Lemma range_depth_prefix lo hi hi' lo' : rune_ends lo hi -> split_length lo hi = None -> split_prefix lo hi [1; 2; 3] = Some (hi', lo') ->
  lo' = hi' + 1 /\ lo <= hi' < hi /\ (range_depth lo hi' < range_depth lo hi)%nat /\ (range_depth lo' hi < range_depth lo hi)%nat.
Proof.
  intros Hr El E. destruct (split_prefix_less _ _ _ _ Hr E) as (H1&H2&H3&H4). split; [done|]. split; [done|].
  assert (H0 : length_splits lo hi = 0%nat).
  { unfold split_length in El. cbn [fmap list_fmap List.find] in El.
    change (MaxRune 1) with 127 in El. change (MaxRune 2) with 2047 in El. change (MaxRune 3) with 65535 in El.
    destruct (bool_decide (lo <= 127) && _) eqn:E1; [done|].
    destruct (bool_decide (lo <= 2047) && _) eqn:E2; [done|].
    destruct (bool_decide (lo <= 65535) && _) eqn:E3; [done|].
    apply andb_false_iff in E1, E2, E3. rewrite !bool_decide_eq_false in E1, E2, E3. unfold length_splits. repeat case_decide; lia. }
  unfold range_depth. rewrite H0, (length_splits_same lo hi lo hi'), (length_splits_same lo hi lo' hi) by (done || lia). lia.
Qed.

(** ** The table for the runes from 0x80 on *)

Lemma leaf_ends lo hi s l h : rune_ends lo hi -> 127 < lo -> utf8_len lo = utf8_len hi ->
  bool_decide (Forall (fun i => lo / block i = hi / block i \/ (lo mod block i = 0 /\ hi mod block i = block i - 1)) [1; 2; 3]) = true ->
  utf8 lo = l -> utf8 hi = h ->
  bytes_in (zip l h) s <-> exists x, lo <= x <= hi /\ s = char_of_Z <$> utf8 x.
Proof. intros Hr Hlo Hlen Hlev%bool_decide_eq_true <- <-. by apply leaf_strings. Qed.

(** The strings of [prog_80_10ffff], each from its first byte on. *)
Definition strings_80_10ffff : list (list (Z * Z)) :=
  [[(0xC2, 0xDF); (0x80, 0xBF)];
   [(0xE0, 0xE0); (0xA0, 0xBF); (0x80, 0xBF)];
   [(0xE1, 0xEF); (0x80, 0xBF); (0x80, 0xBF)];
   [(0xF0, 0xF0); (0x90, 0xBF); (0x80, 0xBF); (0x80, 0xBF)];
   [(0xF1, 0xF3); (0x80, 0xBF); (0x80, 0xBF); (0x80, 0xBF)];
   [(0xF4, 0xF4); (0x80, 0x8F); (0x80, 0xBF); (0x80, 0xBF)]].

Lemma strings_80_10ffff_spec s : Exists (fun rs => bytes_in rs s) strings_80_10ffff
  <-> exists x, 0x80 <= x <= Runemax /\ s = char_of_Z <$> utf8 x.
Proof.
  assert (H : forall lo hi l h, rune_ends lo hi /\ 127 < lo /\ utf8_len lo = utf8_len hi ->
    bool_decide (Forall (fun i => lo / block i = hi / block i \/ (lo mod block i = 0 /\ hi mod block i = block i - 1)) [1; 2; 3]) = true ->
    utf8 lo = l -> utf8 hi = h -> bytes_in (zip l h) s <-> exists x, lo <= x <= hi /\ s = char_of_Z <$> utf8 x).
  { intros lo hi l h (?&?&?). by apply leaf_ends. }
  pose proof (H 0x80 0x7FF [0xC2; 0x80] [0xDF; 0xBF] ltac:(done) eq_refl eq_refl eq_refl) as H1.
  pose proof (H 0x800 0xFFF [0xE0; 0xA0; 0x80] [0xE0; 0xBF; 0xBF] ltac:(done) eq_refl eq_refl eq_refl) as H2.
  pose proof (H 0x1000 0xFFFF [0xE1; 0x80; 0x80] [0xEF; 0xBF; 0xBF] ltac:(done) eq_refl eq_refl eq_refl) as H3.
  pose proof (H 0x10000 0x3FFFF [0xF0; 0x90; 0x80; 0x80] [0xF0; 0xBF; 0xBF; 0xBF] ltac:(done) eq_refl eq_refl eq_refl) as H4.
  pose proof (H 0x40000 0xFFFFF [0xF1; 0x80; 0x80; 0x80] [0xF3; 0xBF; 0xBF; 0xBF] ltac:(done) eq_refl eq_refl eq_refl) as H5.
  pose proof (H 0x100000 0x10FFFF [0xF4; 0x80; 0x80; 0x80] [0xF4; 0x8F; 0xBF; 0xBF] ltac:(done) eq_refl eq_refl eq_refl) as H6.
  cbn [zip zip_with] in *. unfold strings_80_10ffff, Runemax. rewrite !Exists_cons, Exists_nil, H1, H2, H3, H4, H5, H6. clear.
  split.
  - intros [(x&Hx&->)|[(x&Hx&->)|[(x&Hx&->)|[(x&Hx&->)|[(x&Hx&->)|[(x&Hx&->)|[]]]]]]]; exists x; (split; [lia|done]).
  - intros (x&Hx&->). destruct (decide (x <= 0x7FF)); [left|destruct (decide (x <= 0xFFF)); [right; left|destruct (decide (x <= 0xFFFF));
      [do 2 right; left|destruct (decide (x <= 0x3FFFF)); [do 3 right; left|destruct (decide (x <= 0xFFFFF)); [do 4 right; left|do 5 right; left]]]]];
      exists x; (split; [lia|done]).
Qed.

(** ** Keys of the cache *)

Lemma cache_key_eq lo hi fold (next : option nat) : 0 <= lo <= 255 -> 0 <= hi <= 255 ->
  cache_key lo hi fold next
  = ((((match next with Some id => Z.of_nat id | None => -1 end) mod 2 ^ 47 * 256 + lo) * 256 + hi) * 2 + Z.b2z fold).
Proof.
  intros Hlo Hhi. unfold cache_key, uwrap. set (id := match next with Some id => Z.of_nat id | None => -1 end).
  assert (Hb : 0 <= Z.b2z fold <= 1) by (destruct fold; cbn; lia).
  rewrite (Z.shiftl_mul_pow2 _ 17), (Z.shiftl_mul_pow2 lo 9), (Z.shiftl_mul_pow2 hi 1) by lia.
  replace (2 ^ 64) with (2 ^ 47 * 2 ^ 17) at 2 by reflexivity.
  rewrite Z.mul_mod_distr_r by lia.
  replace ((id mod 2 ^ 64) mod 2 ^ 47) with (id mod 2 ^ 47) by (change (2 ^ 64) with (2 ^ 47 * 2 ^ 17); rewrite Z.rem_mul_r; [|lia..]; rewrite Z.mul_comm, Z.mod_add, Z.mod_mod by lia; done).
  rewrite lor_low by (cbn; lia).
  replace (id mod 2 ^ 47 * 2 ^ 17 + lo * 2 ^ 9) with ((id mod 2 ^ 47 * 256 + lo) * 2 ^ 9) by (cbn; lia).
  rewrite lor_low by (cbn; lia).
  replace ((id mod 2 ^ 47 * 256 + lo) * 2 ^ 9 + hi * 2 ^ 1) with (((id mod 2 ^ 47 * 256 + lo) * 256 + hi) * 2 ^ 1) by (cbn; lia).
  rewrite lor_low by (cbn; lia). change (2 ^ 1) with 2. done.
Qed.

(** Different keys for different suffixes. *)
Lemma cache_key_inj lo hi fold (next : option nat) lo' hi' fold' (next' : option nat) :
  0 <= lo <= 255 -> 0 <= hi <= 255 -> 0 <= lo' <= 255 -> 0 <= hi' <= 255 ->
  (forall y, next = Some y -> Z.of_nat y < 2 ^ 46) -> (forall y, next' = Some y -> Z.of_nat y < 2 ^ 46) ->
  cache_key lo hi fold next = cache_key lo' hi' fold' next' ->
  lo = lo' /\ hi = hi' /\ fold = fold' /\ next = next'.
Proof.
  intros H1 H2 H3 H4 Hn Hn'. rewrite !cache_key_eq by done.
  assert (Hb : 0 <= Z.b2z fold <= 1 /\ 0 <= Z.b2z fold' <= 1) by (destruct fold, fold'; cbn; lia).
  set (a := (match next with Some id => Z.of_nat id | None => -1 end) mod 2 ^ 47).
  set (a' := (match next' with Some id => Z.of_nat id | None => -1 end) mod 2 ^ 47).
  intros E. assert (a = a' /\ lo = lo' /\ hi = hi' /\ Z.b2z fold = Z.b2z fold') as (Ea&->&->&Ef) by lia.
  split_and!; [done|done|by destruct fold, fold'|]. unfold a, a' in Ea. change (2 ^ 46) with 70368744177664 in *.
  change (2 ^ 47) with 140737488355328 in Ea.
  destruct next as [y|], next' as [y'|]; [specialize (Hn y eq_refl); specialize (Hn' y' eq_refl)|specialize (Hn y eq_refl)|specialize (Hn' y' eq_refl)|done];
    rewrite ?(Z.mod_small (Z.of_nat _)) in Ea by lia; change (-1 mod 140737488355328) with 140737488355327 in Ea; try lia.
  f_equal. lia.
Qed.
