(* ===== verification/CompileRunes.v ===== *)
(** * Ranges of runes, compiled

    Between [BeginRange] and [EndRange] the compiler builds one fragment for
    many strings of bytes, sharing common endings through [rune_cache_]. *)

From stdpp Require Import gmap fin_sets relations.
From S2P Require Import Prelude Rune CharClass Regexp RegexpSem Walker Prog Compile CompileSem CompileFrags CompileMethods RuneRanges.

#[local] Open Scope nat_scope.
#[local] Open Scope xap_scope.

Section runes.
Context (text : bytes).

Abbreviation runs := (runs text).
Abbreviation agree := (agree text).

(** Strings of a language are read. *)
Definition str_span (L : bytes -> Prop) : span := fun i j => exists s, L s /\ has_at text s i j.

Lemma str_span_ext L L' : (forall s, L s <-> L' s) -> str_span L ≡ₛ str_span L'.
Proof. intros H i j. unfold str_span. by setoid_rewrite H. Qed.

Lemma str_span_or L L' : or_ (str_span L) (str_span L') ≡ₛ str_span (fun s => L s \/ L' s).
Proof. intros i j. unfold or_, str_span. naive_solver. Qed.

Lemma str_span_nil : agree (str_span (eq [])) eq.
Proof.
  intros i j Hi. unfold str_span, has_at. split.
  - intros (s&<-&_&->). cbn. lia.
  - intros <-. exists []. split; [done|]. split; [by exists (drop i text)|]. cbn. lia.
Qed.

(** The bytes that an instruction matches. *)
Definition byte_lang (lo hi : Z) (fold : bool) (s : bytes) : Prop := exists ch, s = [ch] /\ Matches lo hi fold (uchar ch) = true.
Definition app_lang (L L' : bytes -> Prop) (s : bytes) : Prop := exists s1 s2, s = s1 ++ s2 /\ L s1 /\ L' s2.

Lemma has_at_cons ch s i j : has_at text (ch :: s) i j <-> text !! i = Some ch /\ has_at text s (S i) j.
Proof.
  unfold has_at. cbn [length]. destruct (text !! i) as [d|] eqn:E.
  - rewrite (drop_S _ _ _ E). split.
    + intros [[k Hk] ->]. injection Hk as -> Hk. split; [done|]. split; [by exists k|lia].
    + intros [[= ->] [[k ->] ->]]. split; [by exists k|lia].
  - rewrite drop_ge by by apply lookup_ge_None. split; [by intros [[k Hk] _]|by intros [? _]].
Qed.

Lemma reads_in_lang lo hi fold L : then_ (reads_in text lo hi fold) (str_span L) ≡ₛ str_span (app_lang (byte_lang lo hi fold) L).
Proof.
  intros i j. unfold then_, reads_in, str_span, app_lang, byte_lang. split.
  - intros (k&(->&ch&Hch&M)&s&Hs&Hj). exists (ch :: s). split; [exists [ch], s; naive_solver|]. by apply has_at_cons.
  - intros (s&(s1&s2&->&(ch&->&M)&Hs)&Hj). apply has_at_cons in Hj as [Hch Hj]. exists (S i). naive_solver.
Qed.

(** ** A fragment under construction *)

Section range.
(** The compiler at [BeginRange]. *)
Context (c0 : Compiler) (S0 : sound c0).

Lemma c0_pos : 0 < length (insts c0).
Proof. apply fails_lt, S0. Qed.

(** Instruction [x] of the cache. *)
Definition suffix (prog : list Inst) (ls : list loc) (x : nat) (lo hi : Z) (fold : bool) (next : ptr) : Prop :=
  op_at prog x = Some (kInstByteRange lo hi fold)
  /\ match next with Some y => target prog (x, Out) = Some (ToInst y) | None => (x, Out) ∈ ls end.

Definition byte_ends (lo hi : Z) : Prop := (0 <= lo <= hi /\ hi <= 255)%Z.

Record ranging (c : Compiler) (D : gset nat) (ls : list loc) (L : bytes -> Prop) : Prop := {
  rg_sound : sound c;
  rg_grows : grows ∅ c0 c;
  rg_nodes x : x ∈ D -> length (insts c0) <= x < length (insts c);
  rg_list : plist (insts c) (end_ (rune_range_ c)) ls;
  rg_nodup : NoDup ls;
  rg_open l : l ∈ ls -> l.1 ∈ D;
  rg_begin : match begin (rune_range_ c) with Some b => inside D b | None => forall s, ~ L s end;
  rg_code : failed_ c = false -> filled (insts c) D ls /\ (forall x, x ∈ D -> Acc (silent (insts c)) x);
  rg_span : failed_ c = false ->
    match begin (rune_range_ c) with Some b => agree (runs (insts c) ls b) (str_span L) | None => True end;
  rg_cache key p : rune_cache_ c !! key = Some p -> exists x, p = Some x /\ inside D x
    /\ (failed_ c = false -> exists lo hi fold next, key = cache_key lo hi fold next /\ byte_ends lo hi
        /\ (forall y, next = Some y -> y < length (insts c)) /\ suffix (insts c) ls x lo hi fold next);
}.

(** The fragment has grown. *)
Record rext (c : Compiler) (D : gset nat) (ls : list loc) (c' : Compiler) (D' : gset nat) (ls' : list loc) : Prop := {
  rext_nodes : D ⊆ D';
  rext_open l : l ∈ ls -> l ∈ ls';
  rext_new l : l ∈ ls' -> l ∈ ls \/ length (insts c) <= l.1;
  rext_length : length (insts c) <= length (insts c');
  rext_failed : failed_ c' = false -> failed_ c = false;
  rext_code : failed_ c' = false -> same_code D (insts c) (insts c');
}.

Lemma rext_refl c D ls : rext c D ls c D ls.
Proof. split; auto. by split. Qed.

Lemma rext_trans c D ls c1 D1 ls1 c2 D2 ls2 : rext c D ls c1 D1 ls1 -> rext c1 D1 ls1 c2 D2 ls2 -> rext c D ls c2 D2 ls2.
Proof.
  intros [N1 O1 W1 L1 F1 C1] [N2 O2 W2 L2 F2 C2]. split; [set_solver|auto| |lia|auto|].
  - intros l Hl. destruct (W2 l Hl) as [H|H]; [by apply W1|right; lia].
  - intros Hf. destruct (C1 (F2 Hf)) as [P1 Q1], (C2 Hf) as [P2 Q2].
    assert (I : forall x, inside D x -> inside D1 x) by (intros x [->|H]; [by left|right; by apply N1]). split.
    + intros x Hx. rewrite P2, P1 by auto. done.
    + intros x f y Hx. rewrite Q2, Q1 by auto. done.
Qed.

Lemma rg_closed c D ls L : ranging c D ls L -> failed_ c = false -> closed D (insts c).
Proof.
  intros R Hf. destruct (rg_code _ _ _ _ R Hf) as [Fi _]. intros x f y [->|Hx] Ht.
  - by apply target_fail in Ht; [|apply R].
  - destruct (Fi _ _ _ Hx Ht) as [Hl|[(y'&[= <-]&?)|[_ ?]]]; [|done|done].
    by apply (open_not_inst _ _ _ _ _ (rg_list _ _ _ _ R)) in Ht.
Qed.

(** What is already there does the same. *)
Lemma rext_runs c D ls L c' D' ls' x : ranging c D ls L -> sound c' -> rext c D ls c' D' ls' -> failed_ c' = false -> inside D x ->
  runs (insts c') ls' x ≡ₛ runs (insts c) ls x.
Proof.
  intros R S' E Hf Hx i j. pose proof (rext_failed _ _ _ _ _ _ E Hf) as Hf0.
  apply (runs_frame text D); [apply R|apply S'|by eapply rg_closed|by apply E| |done].
  intros y f Hy. split; [apply E|]. intros Hl. destruct (rext_new _ _ _ _ _ _ E _ Hl) as [?|H]; [done|].
  apply (rg_nodes _ _ _ _ R) in Hy. cbn in H. lia.
Qed.

Lemma rext_suffix c D ls c' D' ls' x lo hi fold next : rext c D ls c' D' ls' -> failed_ c' = false -> inside D x ->
  suffix (insts c) ls x lo hi fold next -> suffix (insts c') ls' x lo hi fold next.
Proof.
  intros E Hf Hx [Ho Hn]. destruct (rext_code _ _ _ _ _ _ E Hf) as [C T]. split; [by rewrite C|].
  destruct next; [by apply T|by apply E].
Qed.

(** A step that leaves the beginning and the cache as they are. *)
Lemma ranging_step c D ls L c' D' ls' : ranging c D ls L -> sound c' -> grows D c c' ->
  rune_cache_ c' = rune_cache_ c -> begin (rune_range_ c') = begin (rune_range_ c) -> rext c D ls c' D' ls' ->
  (forall x, x ∈ D' -> length (insts c0) <= x < length (insts c')) ->
  plist (insts c') (end_ (rune_range_ c')) ls' -> NoDup ls' -> (forall l, l ∈ ls' -> l.1 ∈ D') ->
  (failed_ c' = false -> filled (insts c') D' ls' /\ (forall x, x ∈ D' -> Acc (silent (insts c')) x)) ->
  ranging c' D' ls' L.
Proof.
  intros R S' G Hc Hb E N Pl Nd O Co. pose proof R as [S G0 N0 _ _ _ B0 _ Sp Ca].
  assert (I : forall x, inside D x -> inside D' x) by (intros x [->|H]; [by left|right; by apply E]).
  split; [done| |done|done|done|done| |done| |].
  - eapply grows_trans; [done|done|]. intros x Hx. right. by apply N0.
  - rewrite Hb. destruct (begin (rune_range_ c)); auto.
  - intros Hf. rewrite Hb. specialize (Sp (rext_failed _ _ _ _ _ _ E Hf)).
    destruct (begin (rune_range_ c)) as [b|] eqn:Eb; [|done]. rewrite <- Sp.
    apply span_eq_agree. by eapply rext_runs.
  - intros key p. rewrite Hc. intros Hk. destruct (Ca key p Hk) as (x&->&Hx&H). exists x. split; [done|]. split; [auto|].
    intros Hf. destruct (H (rext_failed _ _ _ _ _ _ E Hf)) as (lo&hi&fold&next&->&He&Hn&Hs).
    exists lo, hi, fold, next. split_and!; [done|done| |by eapply rext_suffix].
    intros y Hy. pose proof (rext_length _ _ _ _ _ _ E). specialize (Hn y Hy). lia.
Qed.

Lemma ranging_lang c D ls L L' : (forall s, L s <-> L' s) -> ranging c D ls L -> ranging c D ls L'.
Proof.
  intros H [? ? ? ? ? ? Bg ? Sp ?]. split; try done.
  - destruct (begin (rune_range_ c)); [done|]. intros s. by rewrite <- H.
  - intros Hf. specialize (Sp Hf). destruct (begin (rune_range_ c)); [by rewrite <- (str_span_ext _ _ H)|done].
Qed.

(** A pointer to one of the suffixes. *)
Definition next_ok (c : Compiler) (D : gset nat) (next : ptr) : Prop := forall y, next = Some y -> inside D y.

(** The new fragment has the suffix [p]. *)
Definition suffixed (c : Compiler) (D : gset nat) (ls : list loc) (L : bytes -> Prop) (lo hi : Z) (fold : bool) (next : ptr)
    (p : ptr) (c' : Compiler) : Prop :=
  exists D' ls', ranging c' D' ls' L /\ rext c D ls c' D' ls'
    /\ exists x, p = Some x /\ inside D' x /\ (failed_ c' = false -> suffix (insts c') ls' x lo hi fold next).

Lemma with_insts_same c : with_insts (insts c) c = c.
Proof. by destruct c. Qed.

Lemma patch_nil_wp v c Q : Q () c -> wp (patch None v) Q c.
Proof.
  intros H. apply (patch_wp None v []); [done|constructor|]. intros prog' P.
  assert (prog' = insts c) as ->; [|by rewrite with_insts_same].
  apply list_eq. intros x. apply (patched_same _ _ _ _ P). intros f. by apply not_elem_of_nil.
Qed.

(** After failing, nothing has changed. *)
Lemma ranging_failed c D ls L c' : ranging c D ls L -> sound c' -> grows ∅ c c' -> failed_ c' = true -> insts c' = insts c ->
  rune_cache_ c' = rune_cache_ c -> rune_range_ c' = rune_range_ c -> ranging c' D ls L /\ rext c D ls c' D ls.
Proof.
  intros R S' G Hf Hi Hc Hr. assert (E : rext c D ls c' D ls) by (split; try done; [by left|by rewrite Hi|congruence..]).
  split; [|done]. apply (ranging_step c D ls); [done|done|by eapply grows_weaken|done|by rewrite Hr|done| | | | |congruence].
  - rewrite Hi. apply R.
  - rewrite Hi, Hr. apply R.
  - apply R.
  - apply R.
Qed.

(** One more instruction: its word [Out] goes to [next] or is open. *)
Lemma ranging_new c D ls L c' next lo hi fold ls' : let x := length (insts c) in
  ranging c D ls L -> sound c' -> grows D c c' -> rune_cache_ c' = rune_cache_ c -> begin (rune_range_ c') = begin (rune_range_ c) ->
  failed_ c' = false -> failed_ c = false -> length (insts c') = x + 1 -> next_ok c D next ->
  same_code D (insts c) (insts c') -> op_at (insts c') x = Some (kInstByteRange lo hi fold) ->
  (forall f w, target (insts c') (x, f) = Some w -> f = Out) ->
  match next with
  | Some y => target (insts c') (x, Out) = Some (ToInst y) /\ ls' = ls
  | None => ls' = ls ++ [(x, Out)]
  end ->
  plist (insts c') (end_ (rune_range_ c')) ls' ->
  (forall l, l.1 ∈ D -> l ∉ ls -> target (insts c') l = target (insts c) l) ->
  suffixed c D ls L lo hi fold next (Some x) c'.
Proof.
  intros x R S' G Hc Hb Hf Hf0 Hlen Hn SC Ox Tx Hnext Pl T. pose proof (rg_nodes _ _ _ _ R) as N. pose proof (rg_open _ _ _ _ R) as O.
  destruct (rg_code _ _ _ _ R Hf0) as [Fi Si]. pose proof (fails_lt _ (sound_fails _ (rg_sound _ _ _ _ R))) as Hpos.
  assert (Hls : forall l, l ∈ ls' -> l ∈ ls \/ l = (x, Out)).
  { intros l. destruct next; [destruct Hnext as [_ ->]; by left|]. rewrite Hnext. set_solver. }
  assert (Hls0 : forall l, l ∈ ls -> l ∈ ls') by (intros l Hl; destruct next; [destruct Hnext as [_ ->]; done|rewrite Hnext; set_solver]).
  assert (E : rext c D ls c' (D ∪ {[x]}) ls').
  { split; [set_solver|done| |unfold x in *; lia|done|done]. intros l [H| ->]%Hls; [by left|right; cbn; unfold x; lia]. }
  assert (HxD : x ∉ D) by (intros H%N; unfold x in H; lia).
  assert (Hsuf : suffix (insts c') ls' x lo hi fold next) by (split; [done|]; destruct next; [apply Hnext|rewrite Hnext; set_solver]).
  assert (I : forall y, inside D y -> inside (D ∪ {[x]}) y) by (intros y [->|H]; [by left|right; set_solver]).
  exists (D ∪ {[x]}), ls'. split; [|split; [done|exists x; split; [done|]; split; [right; set_solver|done]]].
  apply (ranging_step c D ls); [done..| |done| | |].
  - intros y [H%N| ->%elem_of_singleton]%elem_of_union; [lia|]. pose proof (grows_length _ _ _ (rg_grows _ _ _ _ R)). unfold x. lia.
  - destruct next; [destruct Hnext as [_ ->]; apply R|]. rewrite Hnext. apply NoDup_app. split; [apply R|].
    split; [intros l Hl%O ->%list_elem_of_singleton; done|apply NoDup_singleton].
  - intros l [H%O| ->]%Hls; set_solver.
  - intros _. split.
    + intros y f w [Hy| ->%elem_of_singleton]%elem_of_union Ht.
      * destruct (decide ((y, f) ∈ ls)) as [Hl|Hl]; [left; auto|]. rewrite T in Ht by done.
        rewrite (same_op _ _ _ SC) by by right. destruct (Fi _ _ _ Hy Ht) as [?|[(z&->&?)|?]]; [done| |by right; right].
        right; left. exists z. auto.
      * assert (f = Out) as -> by by eapply Tx. destruct next as [z|]; [|left; rewrite Hnext; set_solver].
        destruct Hnext as [Hz _]. rewrite Hz in Ht. injection Ht as <-. right; left. exists z. split; [done|]. by apply I, Hn.
    + intros y [Hy| ->%elem_of_singleton]%elem_of_union; [apply (silent_same D (insts c)); [by eapply rg_closed|done|by right|by apply Si]|].
      constructor. intros z [(op&Ho&Hs) _]. rewrite Ox in Ho. injection Ho as <-. by destruct Hs as [?|[? ?]].
Qed.

Lemma append_nil_wp l c (Q : PatchList -> Compiler -> Prop) : Q l c -> wp (append l None) Q c.
Proof.
  intros H. unfold wp, append, mbind, comp_bind, comp_get, lift. assert (Append (insts c) l None = Ret (l, insts c)) as -> by by destruct l.
  by destruct c.
Qed.

Definition with_range (f : Frag) (c : Compiler) : Compiler :=
  MkCompiler (insts c) (byte_inst_count_ c) (byterange_ c) (failed_ c) (encoding_ c) (reversed_ c)
    (inst_count_ c) (max_inst_ c) (rune_cache_ c) f.

Lemma grows_new D c c' : grows D c c' -> (forall x, x ∈ D -> length (insts c) <= x) -> grows ∅ c c'.
Proof. intros [? ? ? ? ? ? S] H. split; try done. intros x Hx _. apply S; [done|]. intros HD%H. lia. Qed.

Lemma UncachedRuneByteSuffix_wp c D ls L lo hi fold next : ranging c D ls L -> byte_ends lo hi -> next_ok c D next ->
  wp (UncachedRuneByteSuffix lo hi fold next) (suffixed c D ls L lo hi fold next) c.
Proof.
  intros R [He1 He2] Hn. pose proof (rg_sound _ _ _ _ R) as S. unfold UncachedRuneByteSuffix.
  apply call_bind. eapply call_mono; [by apply ByteRange_wp|]. intros f c1 (S1&G1&Hc&Hr&[(Hf&->&Hi)|(Hf&Hf0&Hi&->)]).
  - destruct (ranging_failed c D ls L c1 R S1 G1 Hf Hi Hc Hr) as [R1 E1].
    assert (Hdone : suffixed c D ls L lo hi fold next (Some fail_inst_) c1).
    { exists D, ls. split; [done|]. split; [done|]. exists 0. split; [done|]. split; [by left|congruence]. }
    apply call_bind. destruct next as [y|]; [by apply patch_nil_wp, call_ret|].
    apply call_bind, call_get, call_bind, append_nil_wp. cbn. by destruct c1 as [? ? ? ? ? ? ? ? ? []].
  - cbn [begin end_]. set (x := length (insts c)). set (ip := MkInst (kInstByteRange lo hi fold) NULL) in *.
    pose proof (rg_nodes _ _ _ _ R) as N. pose proof (rg_open _ _ _ _ R) as O. pose proof (fails_lt _ (sound_fails _ S)) as Hpos.
    assert (Hx0 : forall y, y ∈ ({[x]} : gset nat) -> y <> 0) by (intros y ->%elem_of_singleton; unfold x; lia).
    assert (T1 : forall l, l.1 ∈ D -> target (insts c1) l = target (insts c) l) by (intros l Hl; rewrite Hi; by apply target_app, N).
    assert (Tx : forall h, target (insts c1) (x, h) = slot ip h) by (intros h; rewrite Hi; apply target_new).
    assert (Ox : op_at (insts c1) x = Some (kInstByteRange lo hi fold)) by (rewrite Hi; apply op_at_new).
    assert (O1 : forall y, inside D y -> op_at (insts c1) y = op_at (insts c) y).
    { intros y Hy. rewrite Hi. apply op_at_app. destruct Hy as [->|Hy%N]; [done|lia]. }
    assert (Hlen : length (insts c1) = x + 1) by (rewrite Hi, length_app; done).
    assert (Hxls : (x, Out) ∉ ls) by (intros H%O%N; cbn in H; unfold x in H; lia).
    apply call_bind. destruct next as [y|].
    + apply (patch_wp _ _ [(x, Out)]); [split; [done|]; exists None; by rewrite Tx|apply NoDup_singleton|]. intros prog' P. apply call_ret.
      destruct (patched_kept c1 c prog' {[x]} [(x, Out)] _ P) as [S' G'];
        [by intros l ->%list_elem_of_singleton; set_solver|done|done|by eapply grows_weaken|].
      assert (Tn : forall l, l.1 ≠ x -> target prog' l = target (insts c1) l).
      { intros l Hl. rewrite (patched_target _ _ _ _ P), decide_False; [done|]. by intros ->%list_elem_of_singleton. }
      assert (HD : forall z, inside D z -> z ≠ x) by (intros z [->|H%N]; unfold x; lia).
      apply (ranging_new c D ls L _ (Some y) lo hi fold ls); cbn [insts with_insts failed_ rune_cache_ rune_range_]; try done.
      * eapply grows_weaken; [eapply grows_new; [done|]|set_solver]. intros z ->%elem_of_singleton. done.
      * by rewrite Hr.
      * by rewrite (patched_length _ _ _ _ P).
      * split; [intros z Hz; rewrite (patched_op _ _ _ _ P); auto|]. intros z h w Hz. rewrite Tn by by apply HD.
        destruct Hz as [->|Hz]; [|by rewrite T1]. rewrite Hi. by rewrite target_app.
      * by rewrite (patched_op _ _ _ _ P).
      * intros h w. rewrite (patched_target _ _ _ _ P). destruct h; [done|]. rewrite decide_False by set_solver. by rewrite Tx.
      * split; [|done]. rewrite (patched_target _ _ _ _ P). apply decide_True. set_solver.
      * rewrite Hr. eapply plist_proper; [|apply R]. intros l Hl. rewrite Tn, T1; [done|by apply O|]. intros E. apply O, N in Hl. unfold x in E. lia.
      * intros l Hl _. rewrite Tn, T1; [done|done|]. intros E. apply N in Hl. unfold x in E. lia.
    + apply call_bind, call_get, call_bind. apply (append_wp _ _ ls [(x, Out)]).
      { rewrite Hr. eapply plist_proper; [|apply R]. intros l Hl. by apply T1, O. }
      { split; [done|]. exists None. by rewrite Tx. }
      { apply NoDup_app. split; [apply R|]. split; [by intros l Hl ->%list_elem_of_singleton|apply NoDup_singleton]. }
      intros p prog' Hp RL. unfold wp at 1, set_rune_range. apply call_ret. change (suffixed c D ls L lo hi fold None (Some x) (with_range (MkFrag (begin (rune_range_ c1)) p) (with_insts prog' c1))).
      destruct (relinked_kept c1 c prog' D ls RL) as [[S'c S'f S'm] G'];
        [done|intros z Hz%N; pose proof c0_pos; lia|done|by eapply grows_weaken|].
      apply (ranging_new c D ls L _ None lo hi fold (ls ++ [(x, Out)])); cbn [insts with_insts with_range failed_ rune_cache_ rune_range_ begin]; try done.
      * by destruct G'.
      * by rewrite Hr.
      * by rewrite (relinked_length _ _ _ RL).
      * assert (SC : same_code D (insts c1) prog').
        { eapply (relinked_code D _ _ (end_ (rune_range_ c)) ls); [done| |done|set_solver].
          eapply plist_proper; [|apply R]. intros l Hl. by apply T1, O. }
        split; [intros z Hz; rewrite (same_op _ _ _ SC) by done; auto|]. intros z h w Hz. rewrite (same_target _ _ _ SC) by done.
        destruct Hz as [->|Hz]; [|by rewrite T1]. rewrite Hi. by rewrite target_app.
      * by rewrite (relinked_op _ _ _ RL).
      * intros h w. rewrite (relinked_target _ _ _ RL) by (intros H%O%N; cbn in H; unfold x in H; lia). rewrite Tx. by destruct h.
      * intros l Hl Hn'. rewrite (relinked_target _ _ _ RL) by done. by apply T1.
Qed.

(** No more instructions than the limit of the compiler. *)
Hypothesis (Hmax : (max_inst_ c0 <= 2 ^ 24)%Z).

Lemma ranging_count c D ls L : ranging c D ls L -> failed_ c = false -> (Z.of_nat (length (insts c)) < 2 ^ 46)%Z.
Proof.
  intros R Hf. destruct (sound_counts _ (rg_sound _ _ _ _ R) Hf) as [H1 H2]. rewrite (grows_max _ _ _ (rg_grows _ _ _ _ R)) in H2.
  change (2 ^ 24)%Z with 16777216%Z in Hmax. change (2 ^ 46)%Z with 70368744177664%Z. lia.
Qed.

Definition with_cache (m : gmap Z ptr) (c : Compiler) : Compiler :=
  MkCompiler (insts c) (byte_inst_count_ c) (byterange_ c) (failed_ c) (encoding_ c) (reversed_ c)
    (inst_count_ c) (max_inst_ c) m (rune_range_ c).

(** A suffix is put into the cache. *)
Lemma ranging_cache c D ls L x lo hi fold next : ranging c D ls L -> byte_ends lo hi -> next_ok c D next -> inside D x ->
  (failed_ c = false -> suffix (insts c) ls x lo hi fold next) ->
  ranging (with_cache (<[cache_key lo hi fold next := Some x]> (rune_cache_ c)) c) D ls L.
Proof.
  intros R He Hn Hx Hs. pose proof R as [[Sc Sf Sm] [] N Pl Nd O B Co Sp Ca]. split; try done.
  intros key p. cbn. destruct (decide (key = cache_key lo hi fold next)) as [->|Hk].
  - rewrite lookup_insert_eq. intros [= <-]. exists x. split; [done|]. split; [done|]. intros Hf.
    exists lo, hi, fold, next. split_and!; [done|done| |by apply Hs].
    intros y Hy. destruct (Hn y Hy) as [->|H%N]; [|lia]. apply fails_lt, Sf.
  - rewrite lookup_insert_ne by done. apply Ca.
Qed.

Lemma suffixed_next c D ls L lo hi fold next p c' : suffixed c D ls L lo hi fold next p c' ->
  exists D' ls' x, ranging c' D' ls' L /\ rext c D ls c' D' ls' /\ p = Some x /\ inside D' x
    /\ (failed_ c' = false -> suffix (insts c') ls' x lo hi fold next).
Proof. intros (D'&ls'&?&?&x&?&?&?). by exists D', ls', x. Qed.

Lemma RuneByteSuffix_wp c D ls L lo hi fold next : ranging c D ls L -> byte_ends lo hi -> next_ok c D next ->
  wp (RuneByteSuffix lo hi fold next) (suffixed c D ls L lo hi fold next) c.
Proof.
  intros R He Hn. unfold RuneByteSuffix. apply call_bind, call_get. destruct (_ || _); [by apply UncachedRuneByteSuffix_wp|].
  cbn zeta. destruct (rune_cache_ c !! cache_key lo hi fold next) as [p|] eqn:Ec.
  - destruct (rg_cache _ _ _ _ R _ _ Ec) as (x&->&Hx&H). apply call_ret. exists D, ls. split; [done|]. split; [apply rext_refl|].
    exists x. split; [done|]. split; [done|]. intros Hf. destruct (H Hf) as (lo'&hi'&fold'&next'&Ek&He'&Hn'&Hs).
    pose proof (ranging_count _ _ _ _ R Hf) as Hc.
    destruct (cache_key_inj lo hi fold next lo' hi' fold' next') as (->&->&->&->); [..|done|done]; unfold byte_ends in *; try lia.
    + intros y Hy. destruct (Hn y Hy) as [->|Hd]; [done|]. apply (rg_nodes _ _ _ _ R) in Hd. lia.
    + intros y Hy. specialize (Hn' y Hy). lia.
  - apply call_bind. eapply call_mono; [by apply UncachedRuneByteSuffix_wp|]. intros p c1 H.
    destruct (suffixed_next _ _ _ _ _ _ _ _ _ _ H) as (D1&ls1&x&R1&E1&->&Hx&Hs). apply call_bind, call_get, call_bind.
    unfold wp at 1, set_rune_cache. apply call_ret. exists D1, ls1. split; [|split].
    + apply (ranging_cache c1 D1 ls1 L x lo hi fold next R1 He); [|done|done].
      intros y Hy. destruct (Hn y Hy) as [->|Hd]; [by left|right; by apply E1].
    + destruct E1. by split.
    + exists x. done.
Qed.

(** What a suffix reads. *)
Lemma suffix_span c D ls L x lo hi fold next : ranging c D ls L -> failed_ c = false -> next_ok c D next ->
  suffix (insts c) ls x lo hi fold next ->
  runs (insts c) ls x ≡ₛ then_ (reads_in text lo hi fold) (match next with Some y => runs (insts c) ls y | None => eq end).
Proof.
  intros R Hf Hn [Ho Hx] i j. rewrite runs_inv. setoid_rewrite (moves_op _ _ _ _ _ _ _ Ho). setoid_rewrite <- leaves_kind.
  pose proof (reads_in_leaves text lo hi fold) as Hl.
  assert (Hm : forall f i k, leaves text (kind (kInstByteRange lo hi fold)) f i k <-> f = Out /\ reads_in text lo hi fold i k).
  { intros f i' k. rewrite <- (Hl i' k). cbn. tauto. }
  setoid_rewrite Hm. unfold then_. destruct next as [y|].
  - split.
    + intros [(f&Hin&->&_)|(f&z&k&Ht&[-> Hr]&Hrun)].
      * exfalso. by apply (open_not_inst _ _ _ _ y (rg_list _ _ _ _ R) Hin).
      * rewrite Hx in Ht. injection Ht as <-. eauto.
    + intros (k&Hr&Hrun). right. exists Out, y, k. auto.
  - split.
    + intros [(f&Hin&->&Hr)|(f&z&k&Ht&[-> Hr]&Hrun)]; [by exists j|].
      exfalso. by apply (open_not_inst _ _ _ _ z (rg_list _ _ _ _ R) Hx).
    + intros (k&Hr&->). left. exists Out. auto.
Qed.

(** The pointer stands for a language. *)
Definition ptr_lang (c : Compiler) (D : gset nat) (ls : list loc) (p : ptr) (L : bytes -> Prop) : Prop :=
  next_ok c D p /\ (failed_ c = false -> agree (match p with Some x => runs (insts c) ls x | None => eq end) (str_span L)).

Lemma ptr_lang_ext c D ls L c' D' ls' L' p Lp : ranging c D ls L -> ranging c' D' ls' L' -> rext c D ls c' D' ls' ->
  ptr_lang c D ls p Lp -> ptr_lang c' D' ls' p Lp.
Proof.
  intros R R' E [Hn Hp]. split.
  - intros y Hy. destruct (Hn y Hy) as [->|H]; [by left|right; by apply E].
  - intros Hf. specialize (Hp (rext_failed _ _ _ _ _ _ E Hf)). rewrite <- Hp. destruct p as [x|]; [|done].
    apply span_eq_agree. eapply rext_runs; [done|apply R'|done|done|by apply Hn].
Qed.

Lemma suffixed_lang c D ls L lo hi fold next p c' Ln : ranging c D ls L -> ptr_lang c D ls next Ln ->
  suffixed c D ls L lo hi fold next p c' -> exists D' ls', ranging c' D' ls' L /\ rext c D ls c' D' ls'
    /\ is_Some p /\ ptr_lang c' D' ls' p (app_lang (byte_lang lo hi fold) Ln).
Proof.
  intros R Hn H. destruct (suffixed_next _ _ _ _ _ _ _ _ _ _ H) as (D'&ls'&x&R'&E&->&Hx&Hs). exists D', ls'.
  split; [done|]. split; [done|]. split; [by eexists|]. destruct (ptr_lang_ext _ _ _ _ _ _ _ _ _ _ R R' E Hn) as [Hn' Hp'].
  split; [intros y [= <-]; done|]. intros Hf. rewrite (span_eq_agree _ _ _ (suffix_span _ _ _ _ _ _ _ _ _ R' Hf Hn' (Hs Hf))).
  rewrite <- (span_eq_agree _ _ _ (reads_in_lang lo hi fold Ln)). apply then_agree; [|done|by apply Hp'].
  intros i j Hi (->&ch&Hch&_). apply lookup_lt_Some in Hch. lia.
Qed.

(** The alternation is extended by an instruction. *)
Lemma ranging_alt c D ls L y Lp b b' n fl : ranging c D ls L -> ptr_lang c D ls (Some y) Lp ->
  begin (rune_range_ c) = Some b -> inside D b' -> (fl = false -> b' = b /\ failed_ c = false) -> counts 1 (with_count n fl c) ->
  (failed_ c = true -> fl = true) ->
  let x := length (insts c) in
  let c' := with_range (MkFrag (Some x) (end_ (rune_range_ c)))
    (with_insts (insts c ++ [MkInst (kInstAlt (ToInst y)) (ToInst b')]) (with_count n fl c)) in
  ranging c' (D ∪ {[x]}) ls (fun s => L s \/ Lp s) /\ rext c D ls c' (D ∪ {[x]}) ls.
Proof.
  intros R [Hy Hp] B Hb' Hfl Cn Hf0 x c'. pose proof R as [[Sc Sf Sm] G N Pl Nd O Bg Co Sp Ca]. pose proof (fails_lt _ Sf) as Hpos.
  set (ip := MkInst (kInstAlt (ToInst y)) (ToInst b')) in *.
  assert (F' : fails (insts c ++ [ip])) by (unfold fails; by rewrite lookup_app_l).
  assert (S' : sound c').
  { split; [|done|by apply marked_new]. intros Hf. specialize (Cn Hf). cbn in *. rewrite length_app. cbn. lia. }
  assert (SC : same_code D (insts c) (insts c ++ [ip])) by (apply same_code_eq; [done|done|]; intros z Hz; apply lookup_app_l, N, Hz).
  assert (E : rext c D ls c' (D ∪ {[x]}) ls).
  { split; [set_solver|done|by left|cbn; rewrite length_app; lia| |done]. intros Hf. by apply Hfl. }
  assert (I : forall z, inside D z -> inside (D ∪ {[x]}) z) by (intros z [->|H]; [by left|right; set_solver]).
  assert (HxD : x ∉ D) by (intros H%N; unfold x in H; lia).
  assert (On : op_at (insts c ++ [ip]) x = Some (kInstAlt NULL)) by apply op_at_new.
  split; [|done]. split; unfold c'; cbn [insts with_range with_insts with_count failed_ rune_cache_ rune_range_ begin end_]; [done| | | |done| | | | |].
  - eapply grows_trans; [exact G| |by intros z []%not_elem_of_empty]. split; try done; [by intros k|cbn; rewrite length_app; lia|].
    intros z Hz _. by apply lookup_app_l.
  - intros z [H%N| ->%elem_of_singleton]%elem_of_union; rewrite length_app; cbn; [lia|].
    pose proof (grows_length _ _ _ G). unfold x. lia.
  - eapply plist_proper; [|done]. intros l Hl. by apply target_app, N, O.
  - intros l Hl%O. set_solver.
  - right. set_solver.
  - intros Hf. destruct (Hfl Hf) as [-> Hfc]. destruct (Co Hfc) as [Fi Si]. split.
    + intros z f w [Hz| ->%elem_of_singleton]%elem_of_union Ht.
      * rewrite target_app in Ht by by apply N. rewrite op_at_app by by apply N.
        destruct (Fi _ _ _ Hz Ht) as [?|[(v&->&?)|?]]; [by left|right; left; eauto|by right; right].
      * unfold x in Ht. rewrite target_new in Ht. right; left. destruct f; injection Ht as <-; eauto.
    + intros z [Hz| ->%elem_of_singleton]%elem_of_union; [|by apply alt_not_silent].
      apply (silent_same D (insts c)); [by eapply rg_closed|done|by right|by apply Si].
  - intros Hf i j Hi. destruct (Hfl Hf) as [-> Hfc]. specialize (Sp Hfc). rewrite B in Sp.
    rewrite (runs_alt text _ ls x (ToInst b) (ToInst y) i j On) by apply target_new.
    pose proof (rext_runs c D ls L c' _ ls b R S' E Hf Hb' i j) as Eb. pose proof (rext_runs c D ls L c' _ ls y R S' E Hf (Hy y eq_refl) i j) as Ey.
    cbn [insts c' with_range with_insts] in Eb, Ey. rewrite <- (str_span_or L Lp i j). unfold or_.
    rewrite <- (Sp i j Hi), <- (Hp Hfc i j Hi). split.
    + intros [[_ [H|H]]|[(z&[= <-]&?)|(z&[= <-]&?)]]; [by apply O in H..|left; by apply Eb|right; by apply Ey].
    + intros [H|H]; right; [left; exists b|right; exists y]; (split; [done|]); [by apply Eb|by apply Ey].
  - intros key p Hk. destruct (Ca key p Hk) as (z&->&Hz&H). exists z. split; [done|]. split; [auto|].
    intros Hf. destruct (H (rext_failed _ _ _ _ _ _ E Hf)) as (lo&hi&fold&nx&->&He&Hn&Hs).
    exists lo, hi, fold, nx. split_and!; [done|done| |by apply (rext_suffix _ _ _ _ _ _ _ _ _ _ _ E)].
    intros v Hv. specialize (Hn v Hv). rewrite length_app. lia.
Qed.

Lemma AddSuffix_wp c D ls L p Lp : ranging c D ls L -> is_Some p -> ptr_lang c D ls p Lp ->
  wp (AddSuffix p) (fun _ c' => exists D', ranging c' D' ls (fun s => L s \/ Lp s) /\ rext c D ls c' D' ls) c.
Proof.
  intros R [y ->] Hp. unfold AddSuffix. apply call_bind, call_get. pose proof (rg_begin _ _ _ _ R) as Hb. destruct (begin (rune_range_ c)) as [b|] eqn:B.
  - apply call_bind, (CanAllocInst_wp 0); [apply R|]. intros ok c1 (n&fl&->&C&H1&H2&H3). destruct ok.
    + destruct (H2 eq_refl) as [-> Hf]. apply call_bind, call_ret, call_bind, call_get, call_bind, AllocInst_wp. unfold wp, set_rune_range.
      cbn [rune_range_ with_count]. rewrite B. exists (D ∪ {[length (insts c)]}).
      apply (ranging_alt c D ls L y Lp b b n false); auto.
    + rewrite (H1 eq_refl) in *. apply call_bind, call_bind, call_get. unfold wp at 1, set_rune_range.
      apply call_bind, call_get, call_bind, AllocInst_wp. unfold wp, set_rune_range. exists (D ∪ {[length (insts c)]}).
      by apply (ranging_alt c D ls L y Lp b 0 n true); [..|left| | |].
  - unfold wp, set_rune_range. exists D. pose proof R as [[Sc Sf Sm] [] N Pl Nd O Bg Co Sp Ca]. split; [|destruct (rext_refl c D ls); by split].
    split; try done; cbn.
    + by apply Hp.
    + intros Hf. destruct Hp as [_ Hp]. rewrite (Hp Hf). apply span_eq_agree, str_span_ext.
      intros s. specialize (Hb s). tauto.
Qed.

(** ** Strings of bytes *)

Lemma byte_lang_false lo hi L s : app_lang (byte_lang lo hi false) L s
  <-> exists ch s', s = ch :: s' /\ (lo <= uchar ch <= hi)%Z /\ L s'.
Proof.
  unfold app_lang, byte_lang, Matches. cbn [andb]. setoid_rewrite bool_decide_eq_true. split.
  - intros (?&s'&->&(ch&->&?)&?). by exists ch, s'.
  - intros (ch&s'&->&?&?). exists [ch], s'. split; [done|]. split; [by exists ch|done].
Qed.

Lemma bytes_in_app_lang lo hi rs s : app_lang (byte_lang lo hi false) (bytes_in rs) s <-> bytes_in ((lo, hi) :: rs) s.
Proof.
  rewrite byte_lang_false. unfold bytes_in. split.
  - intros (ch&s'&->&?&?). by constructor.
  - inversion 1; subst. eauto.
Qed.

Lemma ptr_lang_proper c D ls p L L' : (forall s, L s <-> L' s) -> ptr_lang c D ls p L -> ptr_lang c D ls p L'.
Proof. intros H [Hn Hp]. split; [done|]. intros Hf. rewrite (Hp Hf). apply span_eq_agree, str_span_ext, H. Qed.

Lemma ptr_lang_None c D ls : ptr_lang c D ls None (bytes_in []).
Proof.
  split; [done|]. intros _. rewrite <- str_span_nil. apply span_eq_agree, str_span_ext. intros s. rewrite bytes_in_nil.
  split; intros ?; congruence.
Qed.

(** The outcome of adding strings to the alternation. *)
Definition added (L : bytes -> Prop) (c' : Compiler) : Prop := exists D' ls', ranging c' D' ls' L.

Lemma add_bytes_wp ranges : Forall (fun r => byte_ends r.1 r.2) ranges -> forall c D ls L p rs, ranging c D ls L ->
  ptr_lang c D ls p (bytes_in rs) ->
  wp (add_bytes ranges p) (fun p' c' => exists D' ls', ranging c' D' ls' L /\ (is_Some p \/ ranges <> [] -> is_Some p')
    /\ ptr_lang c' D' ls' p' (bytes_in (reverse ranges ++ rs))) c.
Proof.
  induction 1 as [|[lo hi] ranges He _ IH]; intros c D ls L p rs R Hp; cbn [add_bytes].
  - apply call_ret. exists D, ls. split; [done|]. split; [|done]. by intros [?|?].
  - apply call_bind. eapply call_mono; [apply RuneByteSuffix_wp; [done|done|apply Hp]|]. intros p1 c1 H.
    destruct (suffixed_lang _ _ _ _ _ _ _ _ _ _ _ R Hp H) as (D1&ls1&R1&E1&Hs&Hp1).
    eapply call_mono; [apply (IH c1 D1 ls1 L p1 ((lo, hi) :: rs) R1)|].
    + eapply ptr_lang_proper; [|exact Hp1]. apply bytes_in_app_lang.
    + intros p' c' (D'&ls'&R'&Hs'&Hp'). exists D', ls'. split; [done|]. split; [intros _; auto|].
      by rewrite reverse_cons, <- app_assoc.
Qed.

(** One range of bytes, whose case may be folded. *)
Lemma add_byte_wp c D ls L lo hi fold : ranging c D ls L -> byte_ends lo hi ->
  wp (inst ← RuneByteSuffix lo hi fold None; AddSuffix inst)
    (fun _ => added (fun s => L s \/ byte_lang lo hi fold s)) c.
Proof.
  intros R He. apply call_bind. eapply call_mono; [by apply RuneByteSuffix_wp|]. intros p1 c1 H.
  destruct (suffixed_lang _ _ _ _ _ _ _ _ _ _ _ R (ptr_lang_None c D ls) H) as (D1&ls1&R1&E1&Hs&Hp1).
  eapply call_mono; [by eapply AddSuffix_wp|]. intros [] c' (D'&R'&_). exists D', ls1. eapply ranging_lang; [|exact R'].
  intros s. unfold app_lang. setoid_rewrite bytes_in_nil. split.
  - intros [?|(s1&s2&->&?&->)]; [by left|right; by rewrite app_nil_r].
  - intros [?|?]; [by left|right]. exists s, []. by rewrite app_nil_r.
Qed.

(** ** The table *)

(** The strings from each entry on; [known] are those of the entries before. *)
Fixpoint table_strings (table : list (Z * Z * Z)) (known : list (list (Z * Z))) : list (list (Z * Z)) :=
  match table with
  | [] => []
  | (next, lo, hi) :: table' =>
      let rs := (lo, hi) :: (if decide (0 <= next)%Z then known !!! Z.to_nat next else []) in
      (if decide (Z.land lo 0xC0 <> 0x80)%Z then [rs] else []) ++ table_strings table' (known ++ [rs])
  end.

Definition entry_ok (n : nat) (e : Z * Z * Z) : Prop := byte_ends e.1.2 e.2 /\ (e.1.1 < Z.of_nat n)%Z.

Fixpoint table_ok (n : nat) (table : list (Z * Z * Z)) : Prop :=
  match table with [] => True | e :: table' => entry_ok n e /\ table_ok (S n) table' end.

Lemma add_table_wp table : forall c D ls L inst known, ranging c D ls L -> table_ok (length inst) table ->
  Forall2 (fun p rs => is_Some p /\ ptr_lang c D ls p (bytes_in rs)) inst known ->
  wp (add_table table inst) (fun _ => added (fun s => L s \/ Exists (fun rs => bytes_in rs s) (table_strings table known))) c.
Proof.
  induction table as [|[[next lo] hi] table IH]; intros c D ls L inst known R Ht HF; cbn [add_table].
  - apply call_ret. exists D, ls. eapply ranging_lang; [|exact R]. intros s. cbn. rewrite Exists_nil. tauto.
  - destruct Ht as [[He Hnext] Ht]. cbn [fst snd] in *. set (rs0 := if decide (0 <= next)%Z then known !!! Z.to_nat next else []).
    apply call_bind. assert (Hnx : exists nx, wp (if decide (0 <= next)%Z then lift (from_option_or BadIndex (inst !! Z.to_nat next)) else mret None)
        (fun p c' => p = nx /\ c' = c) c /\ ptr_lang c D ls nx (bytes_in rs0)).
    { unfold rs0. case_decide as Hn; [|exists None; split; [done|apply ptr_lang_None]].
      destruct (lookup_lt_is_Some_2 inst (Z.to_nat next)) as [p Hp]; [lia|].
      pose proof HF as HF'. eapply Forall2_lookup_l in HF' as (rs&Hrs&_&Hl); [|exact Hp]. exists p.
      assert (known !!! Z.to_nat next = rs) as -> by by apply list_lookup_total_correct. by rewrite Hp. }
    destruct Hnx as (nx&Hw&Hl). eapply call_mono; [exact Hw|]. intros ? ? [-> ->].
    apply call_bind. eapply call_mono; [apply UncachedRuneByteSuffix_wp; [done|done|apply Hl]|]. intros p1 c1 H.
    destruct (suffixed_lang _ _ _ _ _ _ _ _ _ _ _ R Hl H) as (D1&ls1&R1&E1&Hs&Hp1).
    apply (ptr_lang_proper _ _ _ _ _ _ (bytes_in_app_lang lo hi rs0)) in Hp1.
    assert (HF1 : Forall2 (fun p rs => is_Some p /\ ptr_lang c1 D1 ls1 p (bytes_in rs)) (inst ++ [p1]) (known ++ [(lo, hi) :: rs0])).
    { apply Forall2_app; [|by constructor]. eapply Forall2_impl; [exact HF|]. intros p rs [? Hp]. split; [done|]. by apply (ptr_lang_ext c D ls L c1 D1 ls1 L). }
    assert (Ht1 : table_ok (length (inst ++ [p1])) table) by (rewrite length_app, Nat.add_1_r; exact Ht).
    cbn [table_strings]. fold rs0. apply call_bind. destruct (decide (Z.land lo 0xC0 <> 0x80)%Z) as [Hlead|Hlead].
    + eapply call_mono; [by eapply AddSuffix_wp|]. intros [] c2 (D2&R2&E2).
      eapply call_mono; [apply (IH c2 D2 ls1 _ _ (known ++ [(lo, hi) :: rs0]) R2 Ht1)|].
      * eapply Forall2_impl; [exact HF1|]. intros p rs [? Hp]. split; [done|]. eapply ptr_lang_ext; [exact R1|exact R2|exact E2|exact Hp].
      * intros [] c' (D'&ls'&R'). exists D', ls'. eapply ranging_lang; [|exact R']. intros s. cbn [app]. rewrite Exists_cons. tauto.
    + apply call_ret. by eapply IH.
Qed.

(** ** Ranges of runes *)

Definition is_latin1 (e : Encoding) : bool := match e with kEncodingLatin1 => true | kEncodingUTF8 => false end.

(** How a rune is read: backward by a reversed program. *)
Definition rune_string (x : Z) : bytes :=
  if reversed_ c0 then reverse (rune_bytes (is_latin1 (encoding_ c0)) x) else rune_bytes (is_latin1 (encoding_ c0)) x.

(** The runes of a range. *)
Definition rune_lang (P : Z -> Prop) (s : bytes) : Prop :=
  exists x, (0 <= x <= max_rune (is_latin1 (encoding_ c0)))%Z /\ P x /\ s = rune_string x.

Definition in_fold (lo hi : Z) (fold : bool) (x : Z) : Prop := (lo <= folded fold x <= hi)%Z.

Lemma Matches_folded lo hi fold x : Matches lo hi fold x = bool_decide (lo <= folded fold x <= hi)%Z.
Proof. unfold Matches, folded. by destruct (fold && _). Qed.

(** Bytes that are runes. *)
Lemma byte_runes lo hi fold s : byte_ends lo hi -> (encoding_ c0 = kEncodingUTF8 -> (hi < 128)%Z) ->
  byte_lang lo hi fold s <-> rune_lang (in_fold lo hi fold) s.
Proof.
  intros [He1 He2] Hu. unfold byte_lang, rune_lang, in_fold. setoid_rewrite Matches_folded. setoid_rewrite bool_decide_eq_true.
  assert (Hs : forall x, (0 <= x <= hi)%Z -> rune_string x = [char_of_Z x]).
  { intros x Hx. unfold rune_string, rune_bytes. destruct (encoding_ c0); cbn [is_latin1]; [|by destruct (reversed_ c0)].
    specialize (Hu eq_refl). rewrite runetochar_utf8 by (unfold Runemax; lia). unfold utf8. rewrite decide_True by lia. by destruct (reversed_ c0). }
  assert (Hf : forall x, (x <= folded fold x)%Z) by (intros x; unfold folded; destruct (fold && _); lia).
  assert (Hf0 : forall x, (0 <= folded fold x -> 0 <= x)%Z).
  { intros x. unfold folded. destruct fold; cbn [andb]; [|done]. case_bool_decide; lia. }
  split.
  - intros (ch&->&H). exists (uchar ch). pose proof (uchar_range ch) as Hr. specialize (Hf (uchar ch)).
    rewrite Hs, char_of_Z_uchar by lia. split; [|done].
    unfold max_rune, Runemax. destruct (is_latin1 _); lia.
  - intros (x&Hx&H&->). specialize (Hf x). specialize (Hf0 x). exists (char_of_Z x). rewrite Hs by lia. split; [done|].
    rewrite uchar_small by lia. done.
Qed.

Lemma in_fold_split lo mid hi fold x : (lo <= mid < hi)%Z -> in_fold lo mid fold x \/ in_fold (mid + 1) hi fold x <-> in_fold lo hi fold x.
Proof. intros H. unfold in_fold. lia. Qed.

Lemma rune_lang_or P P' s : rune_lang P s \/ rune_lang P' s <-> rune_lang (fun x => P x \/ P' x) s.
Proof. unfold rune_lang. split; [intros [(x&?&?&->)|(x&?&?&->)]|intros (x&?&[?|?]&->)]; [exists x; auto..|left|right]; exists x; auto. Qed.

Lemma rune_lang_ext P P' s : (forall x, (0 <= x <= max_rune (is_latin1 (encoding_ c0)))%Z -> P x <-> P' x) -> rune_lang P s <-> rune_lang P' s.
Proof. intros H. unfold rune_lang. split; intros (x&Hx&HP&->); exists x; (split; [done|]); (split; [|done]); by apply H. Qed.

(** Beyond ASCII the runes of a range are strings of bytes. *)
Lemma runes_beyond_ascii lo hi fold s : encoding_ c0 = kEncodingUTF8 -> (127 < lo)%Z -> (hi <= Runemax)%Z ->
  rune_lang (in_fold lo hi fold) s <-> exists x, (lo <= x <= hi)%Z /\ s = (if reversed_ c0 then reverse else id) (char_of_Z <$> utf8 x).
Proof.
  intros He Hlo Hhi. unfold rune_lang, in_fold, rune_string, rune_bytes, max_rune. rewrite He. cbn [is_latin1].
  assert (Hf : forall x, (lo <= folded fold x <-> lo <= x)%Z /\ (127 < x -> folded fold x = x)%Z).
  { intros x. unfold folded. destruct fold; cbn [andb]; [|done]. case_bool_decide; lia. }
  split.
  - intros (x&Hx&[H1 H2]&->). destruct (Hf x) as [F1 F2]. apply F1 in H1. rewrite F2 in H2 by lia. exists x. split; [done|].
    rewrite runetochar_utf8 by done. by destruct (reversed_ c0).
  - intros (x&Hx&->). destruct (Hf x) as [F1 F2]. exists x. split; [lia|]. rewrite F2 by lia. split; [done|].
    rewrite runetochar_utf8 by lia. by destruct (reversed_ c0).
Qed.

Lemma bytes_in_reverse rs s : bytes_in (reverse rs) (reverse s) <-> bytes_in rs s.
Proof. unfold bytes_in. split; intros H; [rewrite <- (reverse_involutive rs), <- (reverse_involutive s)|]; by apply Forall2_reverse. Qed.

Lemma uchar_runetochar x : (0 <= x <= Runemax)%Z -> uchar <$> runetochar x = utf8 x.
Proof.
  intros H. rewrite runetochar_utf8 by done. rewrite <- list_fmap_compose. pose proof (utf8_bytes x) as Hb.
  change Rune4 with 2097151%Z in Hb. unfold Runemax in H. specialize (Hb ltac:(lia)).
  induction Hb as [|b l Hb _ IH]; [done|]. rewrite fmap_cons, IH. cbn [compose]. by rewrite uchar_small.
Qed.

Lemma byte_ends_reverse rs : Forall (fun r => byte_ends r.1 r.2) rs -> Forall (fun r => byte_ends r.1 r.2) (reverse rs).
Proof. by rewrite Forall_reverse. Qed.

(** The bytes of the two ends are the ends of ranges of bytes. *)
Lemma leaf_bytes lo hi : rune_ends lo hi -> (127 < lo)%Z -> utf8_len lo = utf8_len hi -> Forall (level_done lo hi) [1; 2; 3]%Z ->
  Forall (fun r => byte_ends r.1 r.2) (zip (utf8 lo) (utf8 hi)) /\ zip (utf8 lo) (utf8 hi) <> [].
Proof.
  intros Hr Hlo Hlen Hlev. pose proof Hr as [H1 H2]. unfold Runemax in H2.
  assert (Hb : forall x, (lo <= x <= hi)%Z -> Forall (fun b => 0 <= b < 256)%Z (utf8 x)) by (intros x Hx; apply utf8_bytes; change Rune4 with 2097151%Z; lia).
  pose proof (Hb lo ltac:(lia)) as Bl. pose proof (Hb hi ltac:(lia)) as Bh.
  assert (Hle : Forall2 (fun r ch => r.1 <= uchar ch <= r.2)%Z (zip (utf8 lo) (utf8 hi)) (char_of_Z <$> utf8 lo)).
  { apply leaf_strings; [done..|]. exists lo. split; [lia|done]. }
  split.
  - apply Forall_lookup. intros i [a b] Hi. eapply Forall2_lookup_l in Hle as (ch&Hch&Hr'); [|exact Hi]. cbn [fst snd] in *.
    rewrite list_lookup_fmap in Hch. apply lookup_zip_Some in Hi as [Ha Hb']. rewrite Ha in Hch. injection Hch as <-.
    pose proof (Forall_lookup_1 _ _ _ _ Bl Ha). pose proof (Forall_lookup_1 _ _ _ _ Bh Hb'). cbn beta in *. rewrite uchar_small in Hr' by lia.
    split; lia.
  - intros Hn. unfold utf8 in Hn. repeat case_decide; done.
Qed.

Definition with_runes (L : bytes -> Prop) (P : Z -> Prop) (s : bytes) : Prop := L s \/ rune_lang P s.

Lemma add_leaf_wp c D ls L lo hi fold : ranging c D ls L -> encoding_ c0 = kEncodingUTF8 -> rune_ends lo hi -> (127 < lo)%Z ->
  split_length lo hi = None -> split_prefix lo hi [1; 2; 3]%Z = None ->
  wp (ip ← add_bytes (let ranges := zip (uchar <$> runetochar lo) (uchar <$> runetochar hi) in if reversed_ c0 then ranges else reverse ranges) None;
      AddSuffix ip) (fun _ => added (with_runes L (in_fold lo hi fold))) c.
Proof.
  intros R He Hr Hlo Hl Hp. pose proof Hr as [H1 H2]. pose proof (split_length_None _ _ Hl ltac:(lia)) as Hlen.
  pose proof (split_prefix_spec [1; 2; 3]%Z lo hi Hr ltac:(repeat constructor; lia)) as Hlev. rewrite Hp in Hlev.
  rewrite !uchar_runetochar by lia. cbn zeta. set (rs := zip (utf8 lo) (utf8 hi)) in *.
  destruct (leaf_bytes lo hi Hr Hlo Hlen Hlev) as [Hends Hne]. fold rs in Hends, Hne.
  assert (Hends' : Forall (fun r => byte_ends r.1 r.2) (if reversed_ c0 then rs else reverse rs)).
  { destruct (reversed_ c0); [done|by apply byte_ends_reverse]. }
  apply call_bind. eapply call_mono; [exact (add_bytes_wp _ Hends' c D ls L None [] R (ptr_lang_None c D ls))|].
  intros p c1 (D1&ls1&R1&Hs&Hp1). eapply call_mono.
  - eapply AddSuffix_wp; [exact R1|apply Hs; right; destruct (reversed_ c0); [done|]|exact Hp1].
    intros E. apply Hne. by rewrite <- (reverse_involutive rs), E.
  - intros [] c' (D'&R'&_). exists D', ls1. eapply ranging_lang; [|exact R']. intros s. unfold with_runes.
    rewrite runes_beyond_ascii, app_nil_r by done.
    assert (bytes_in (reverse (if reversed_ c0 then rs else reverse rs)) s <->
      exists x, (lo <= x <= hi)%Z /\ s = (if reversed_ c0 then reverse else id) (char_of_Z <$> utf8 x)) as ->; [|done].
    destruct (reversed_ c0).
    + rewrite <- (reverse_involutive s), bytes_in_reverse. unfold rs. rewrite (leaf_strings lo hi) by done.
      split; intros (x&Hx&E); exists x; (split; [done|]); [by rewrite E|]. apply (f_equal reverse) in E. by rewrite !reverse_involutive in E.
    + rewrite reverse_involutive. by apply leaf_strings.
Qed.

Lemma Add_80_10ffff_wp c D ls L fold : ranging c D ls L -> encoding_ c0 = kEncodingUTF8 -> reversed_ c0 = false ->
  wp Add_80_10ffff (fun _ => added (with_runes L (in_fold 0x80 0x10ffff fold))) c.
Proof.
  intros R He Hrev. unfold Add_80_10ffff. eapply call_mono.
  { apply (add_table_wp prog_80_10ffff c D ls L [] []); [done| |constructor]. cbn. unfold entry_ok, byte_ends. cbn. lia. }
  intros [] c' (D'&ls'&R'). exists D', ls'. eapply ranging_lang; [|exact R']. intros s. unfold with_runes.
  rewrite (runes_beyond_ascii 0x80 0x10ffff) by (done || unfold Runemax; lia). rewrite Hrev.
  change (table_strings prog_80_10ffff []) with strings_80_10ffff. by rewrite strings_80_10ffff_spec.
Qed.

Lemma AddRuneRangeUTF8_wp fold fuel : forall lo hi c D ls L, range_depth lo hi <= fuel -> (0 <= lo)%Z -> (hi <= Runemax)%Z ->
  encoding_ c0 = kEncodingUTF8 -> ranging c D ls L ->
  wp (AddRuneRangeUTF8 fuel lo hi fold) (fun _ => added (with_runes L (in_fold lo hi fold))) c.
Proof.
  induction fuel as [|fuel IH]; intros lo hi c D ls L Hd Hlo Hhi He R.
  { unfold range_depth in Hd. destruct (length_splits lo hi); lia. }
  assert (Hseq : forall mid, (lo <= mid < hi)%Z -> range_depth lo mid < range_depth lo hi -> range_depth (mid + 1) hi < range_depth lo hi ->
    wp (AddRuneRangeUTF8 fuel lo mid fold;; AddRuneRangeUTF8 fuel (mid + 1) hi fold) (fun _ => added (with_runes L (in_fold lo hi fold))) c).
  { intros mid Hm D1 D2. apply call_bind. eapply call_mono; [eapply (IH lo mid); [lia|done|lia|done|exact R]|].
    intros [] c1 (Da&lsa&R1). eapply call_mono; [eapply (IH (mid + 1)%Z hi); [lia|lia|done|done|exact R1]|].
    intros [] c' (D'&ls'&R'). exists D', ls'. eapply ranging_lang; [|exact R']. intros s. unfold with_runes.
    pose proof (rune_lang_or (in_fold lo mid fold) (in_fold (mid + 1) hi fold) s) as H1.
    pose proof (rune_lang_ext _ _ s (fun x _ => in_fold_split lo mid hi fold x Hm)) as H2. cbn beta in *. tauto. }
  cbn [AddRuneRangeUTF8]. destruct (decide (hi < lo)%Z) as [Hle|Hle].
  { apply call_ret. exists D, ls. eapply ranging_lang; [|exact R]. intros s. unfold with_runes, rune_lang, in_fold.
    split; [by left|intros [?|(x&_&?&_)]; [done|lia]]. }
  assert (Hr : rune_ends lo hi) by (split; [lia|done]).
  apply call_bind, call_get. rewrite (grows_reversed _ _ _ (rg_grows _ _ _ _ R)). destruct (_ && _ && _) eqn:E80.
  { boolify. destruct (reversed_ c0) eqn:Hrev; [done|]. subst. by eapply Add_80_10ffff_wp. }
  destruct (split_length lo hi) as [max|] eqn:El.
  { destruct (range_depth_length _ _ _ El) as (?&?&?). by apply Hseq. }
  destruct (decide (hi < Runeself)%Z) as [Ha|Ha].
  { unfold Runeself in Ha. eapply call_mono; [apply (add_byte_wp c D ls L); [done|split; lia]|]. intros [] c' (D'&ls'&R'). exists D', ls'.
    eapply ranging_lang; [|exact R']. intros s. unfold with_runes.
    pose proof (byte_runes lo hi fold s ltac:(split; lia) ltac:(intros; lia)). tauto. }
  destruct (split_prefix lo hi [1; 2; 3]%Z) as [[hi' lo']|] eqn:Ep.
  { destruct (range_depth_prefix _ _ _ _ Hr El Ep) as (->&?&?&?). by apply Hseq. }
  apply (add_leaf_wp c D ls L lo hi fold); try done. unfold Runeself in Ha.
  pose proof (split_length_None _ _ El ltac:(lia)) as Hlen. unfold utf8_len in Hlen. repeat case_decide; lia.
Qed.

(** A range of runes is added to the alternation. *)
Lemma AddRuneRange_wp c D ls L lo hi fold : ranging c D ls L -> (0 <= lo)%Z -> (hi <= Runemax)%Z ->
  wp (AddRuneRange lo hi fold) (fun _ => added (with_runes L (in_fold lo hi fold))) c.
Proof.
  intros R Hlo Hhi. unfold AddRuneRange. apply call_bind, call_get. rewrite (grows_encoding _ _ _ (rg_grows _ _ _ _ R)).
  destruct (encoding_ c0) eqn:He.
  - eapply AddRuneRangeUTF8_wp; [apply range_depth_bound|done..].
  - unfold AddRuneRangeLatin1. case_decide as Hout.
    { apply call_ret. exists D, ls. eapply ranging_lang; [|exact R]. intros s. unfold with_runes, rune_lang, in_fold.
      split; [by left|]. intros [?|(x&Hx&Hf&_)]; [done|]. rewrite He in Hx. cbn in Hx. exfalso. revert Hf. unfold folded. destruct fold; cbn [andb]; [case_bool_decide|]; lia. }
    cbn zeta. set (hi1 := if decide (255 < hi)%Z then 255%Z else hi).
    assert (H1 : (hi1 <= 255 /\ lo <= hi1)%Z) by (unfold hi1; case_decide; lia).
    eapply call_mono; [apply (add_byte_wp c D ls L); [done|split; lia]|]. intros [] c' (D'&ls'&R'). exists D', ls'.
    eapply ranging_lang; [|exact R']. intros s. unfold with_runes.
    rewrite (byte_runes lo hi1 fold s ltac:(split; lia) ltac:(congruence)).
    rewrite (rune_lang_ext (in_fold lo hi1 fold) (in_fold lo hi fold)); [done|]. rewrite He. cbn. intros x Hx. unfold in_fold, hi1.
    assert (folded fold x <= 255)%Z by (unfold folded; destruct fold; cbn [andb]; [case_bool_decide|]; lia). case_decide; lia.
Qed.

(** The ranges of a class, those of upper-case letters being skipped where the
    class has the lower-case ones. *)
Definition class_fold (foldascii : bool) (r : RuneRange) : bool :=
  if decide ((r.1 <= 65 /\ 122 <= r.2) \/ r.2 < 65 \/ 122 < r.1)%Z then false else foldascii.
Definition skipped (foldascii : bool) (r : RuneRange) : bool := foldascii && bool_decide (65 <= r.1)%Z && bool_decide (r.2 <= 90)%Z.

Definition class_runes (rs : list RuneRange) (foldascii : bool) (x : Z) : Prop :=
  Exists (fun r => skipped foldascii r = false /\ in_fold r.1 r.2 (class_fold foldascii r) x) rs.

Lemma added_lang L L' c : (forall s, L s <-> L' s) -> added L c -> added L' c.
Proof. intros H (D&ls&R). exists D, ls. by eapply ranging_lang. Qed.

Lemma add_class_wp rs foldascii : Forall range_ok rs -> forall c D ls L, ranging c D ls L ->
  wp (add_class rs foldascii) (fun _ => added (with_runes L (class_runes rs foldascii))) c.
Proof.
  induction 1 as [|[lo hi] rs [H1 [H2 H3]] _ IH]; intros c D ls L R; cbn [add_class fst snd] in *.
  - apply call_ret. apply (added_lang L); [|by exists D, ls]. intros s. unfold with_runes, rune_lang, class_runes.
    split; [by left|]. intros [?|(x&_&?%Exists_nil&_)]; done.
  - apply call_bind. destruct (foldascii && bool_decide (65 <= lo)%Z && bool_decide (hi <= 90)%Z) eqn:Es.
    + apply call_ret. eapply call_mono; [by eapply IH|]. intros [] c'. apply added_lang. intros s. unfold with_runes.
      rewrite (rune_lang_ext (class_runes rs foldascii) (class_runes ((lo, hi) :: rs) foldascii)); [done|].
      intros x _. unfold class_runes, skipped. rewrite Exists_cons. cbn [fst snd]. rewrite Es. naive_solver.
    + cbn zeta. eapply call_mono; [by apply (AddRuneRange_wp c D ls L)|]. intros [] c1 (D1&ls1&R1).
      eapply call_mono; [by eapply IH|]. intros [] c'. apply added_lang. intros s. unfold with_runes at 1 2.
      pose proof (rune_lang_or (in_fold lo hi (class_fold foldascii (lo, hi))) (class_runes rs foldascii) s) as E.
      unfold class_fold in E. cbn [fst snd] in E. unfold with_runes.
      rewrite (rune_lang_ext (class_runes ((lo, hi) :: rs) foldascii) (fun x => in_fold lo hi (class_fold foldascii (lo, hi)) x \/ class_runes rs foldascii x)); [unfold class_fold; cbn [fst snd]; tauto|].
      intros x _. unfold class_runes, skipped. rewrite Exists_cons. cbn [fst snd]. rewrite Es. tauto.
Qed.

(** The skipped ranges are read by the others. *)
Lemma class_runes_Contains cc x : CharClass.wf cc -> class_runes (ranges_ cc) (FoldsASCII cc) x <-> Contains x cc = true.
Proof.
  intros W. rewrite (Contains_ok x cc W).
  assert (HF : FoldsASCII cc = true -> forall y, (65 <= y <= 90)%Z -> in_ranges y (ranges_ cc) <-> in_ranges (y + 32)%Z (ranges_ cc)).
  { intros HF y Hy. pose proof (proj1 (FoldsASCII_ok cc W) HF (y - 65)%Z ltac:(lia)) as H.
    replace (65 + (y - 65))%Z with y in H by lia. by replace (97 + (y - 65))%Z with (y + 32)%Z in H by lia. }
  unfold class_runes, in_ranges, in_range, in_fold, folded in *. rewrite !Exists_exists in *.
  assert (Hup : (65 <= x <= 90)%Z -> FoldsASCII cc = true -> (exists r, r ∈ ranges_ cc /\ (r.1 <= x <= r.2)%Z) ->
    exists r, r ∈ ranges_ cc /\ skipped true r = false
      /\ (r.1 <= (if class_fold true r && bool_decide (65 <= x <= 90) then x + 32 else x) <= r.2)%Z).
  { intros Hx Hf Hr. specialize (HF Hf x Hx). rewrite !Exists_exists in HF. apply HF in Hr as (r&Hr&Hr').
    exists r. split; [done|]. split; [unfold skipped; rewrite (bool_decide_false (r.2 <= 90)%Z) by lia; by rewrite andb_false_r|].
    rewrite (bool_decide_true (65 <= x <= 90)%Z) by done. unfold class_fold. case_decide; cbn [andb]; lia. }
  split.
  - intros (r&Hr&_&Hx). destruct (class_fold (FoldsASCII cc) r) eqn:Ef; cbn [andb] in Hx; [|by exists r].
    assert (Hf : FoldsASCII cc = true) by (unfold class_fold in Ef; by case_decide).
    case_bool_decide as Hu; [|by exists r]. specialize (HF Hf x Hu). rewrite !Exists_exists in HF. apply HF. by exists r.
  - intros Hr. destruct (FoldsASCII cc) eqn:Hf.
    + destruct (decide (65 <= x <= 90)%Z) as [Hu|Hu]; [by apply Hup|]. destruct Hr as (r&Hr&Hx). exists r. split; [done|].
      rewrite (bool_decide_false (65 <= x <= 90)%Z), andb_false_r by done. split; [|done]. unfold skipped. cbn [andb].
      apply andb_false_iff. rewrite !bool_decide_eq_false. lia.
    + destruct Hr as (r&Hr&Hx). exists r. split; [done|]. split; [done|].
      assert (class_fold false r = false) as Ec by (unfold class_fold; by destruct (decide _)). by rewrite Ec.
Qed.

(** ** The whole class *)

Lemma BeginRange_wp : sound c0 -> wp BeginRange (fun _ c => ranging c ∅ [] (fun _ => False)) c0.
Proof.
  intros [Sc Sf Sm]. unfold BeginRange, wp. cbn. split; cbn; try done.
  - split; try done. by intros k.
  - constructor.
  - by intros l ?%not_elem_of_nil.
  - intros s H; exact H.
Qed.

Lemma EndRange_wp c L : added L c -> (exists s, L s) -> wp EndRange (yields text ∅ c0 (str_span L)) c.
Proof.
  intros (D&ls&R) [s Hs]. unfold EndRange. apply call_bind, call_get, call_ret. split; [apply R|]. split; [apply R|].
  exists D. split; [|intros x Hx; right; by apply (rg_nodes _ _ _ _ R)]. pose proof (rg_begin _ _ _ _ R) as Hb. pose proof (rg_span _ _ _ _ R) as Hsp.
  destruct (begin (rune_range_ c)) as [b|] eqn:B; [|by apply Hb in Hs]. exists ls. split.
  - split; [|by exists b|apply R|apply R|apply R]. intros x Hx%(rg_nodes _ _ _ _ R). pose proof c0_pos. lia.
  - intros Hf. destruct (rg_code _ _ _ _ R Hf). split; [done|done|]. intros b' Hb'. rewrite B in Hb'. injection Hb' as <-. by apply Hsp.
Qed.
End range.
End runes.

(** ** Property *)

(** C15: a range of runes is compiled to instructions that read exactly its
    runes: for every range with a rune of the encoding in it, in UTF-8 and in
    Latin-1, forward and, where suffixes are shared through the cache, backward,
    the call returns, and unless the compiler has run out of room the fragment
    is entered and left around the encodings of the runes of the range, folded
    ASCII letters included, and around nothing else.  The table for
    [80-10ffff] and the splitting of a range where the lengths or the prefixes
    of its encodings change are part of this. *)
Theorem rune_range_exact text c lo hi fold x0 : sound c -> (max_inst_ c <= 2 ^ 24)%Z -> (0 <= lo)%Z -> (hi <= Runemax)%Z ->
  (0 <= x0 <= max_rune (is_latin1 (encoding_ c)))%Z -> (lo <= folded fold x0 <= hi)%Z ->
  exists f c' b ls, (BeginRange;; AddRuneRange lo hi fold;; EndRange) c = Ret (f, c')
    /\ begin f = Some b /\ plist (insts c') (end_ f) ls
    /\ (failed_ c' = false -> forall i j, i <= length text -> runs text (insts c') ls b i j
        <-> exists x, (0 <= x <= max_rune (is_latin1 (encoding_ c)))%Z /\ (lo <= folded fold x <= hi)%Z /\ has_at text (rune_string c x) i j).
Proof.
  intros S Hmax Hlo Hhi H1 H2.
  assert (H : wp (BeginRange;; AddRuneRange lo hi fold;; EndRange) (yields text ∅ c (str_span text (rune_lang c (in_fold lo hi fold)))) c).
  { apply call_bind. eapply call_mono; [by apply BeginRange_wp|]. intros [] c1 R.
    apply call_bind. eapply call_mono; [by apply (AddRuneRange_wp text c S Hmax c1 _ _ _ lo hi fold R)|]. intros [] c2 HA.
    apply (EndRange_wp text c S c2); [|by exists (rune_string c x0), x0].
    revert HA. apply added_lang. intros s. unfold with_runes. tauto. }
  unfold wp in H. destruct ((BeginRange;; AddRuneRange lo hi fold;; EndRange) c) as [[f c']|]; [|done]. destruct H as (_&_&D&(ls&W&Hd)&_).
  destruct (wf_begin _ _ _ _ W) as (b&Hb&_). exists f, c', b, ls. split_and!; [done|done|apply W|]. intros Hf i j Hi.
  rewrite (does_span _ _ _ _ _ _ (Hd Hf) b Hb i j Hi). unfold str_span, rune_lang, in_fold. naive_solver.
Qed.

Lemma rune_range_exact_witness : let c := new_Compiler kEncodingUTF8 true 100 in
  exists f c' b ls, (BeginRange;; AddRuneRange 0x7F 0x20AC false;; EndRange) c = Ret (f, c')
    /\ begin f = Some b /\ plist (insts c') (end_ f) ls
    /\ (failed_ c' = false -> forall i j, i <= 3 -> runs (B "abc") (insts c') ls b i j
        <-> exists x, (0 <= x <= max_rune false)%Z /\ (0x7F <= folded false x <= 0x20AC)%Z /\ has_at (B "abc") (rune_string c x) i j).
Proof.
  apply (rune_range_exact (B "abc") (new_Compiler kEncodingUTF8 true 100) 0x7F 0x20AC false 0x7F); try (cbn; unfold Runemax, max_rune; lia).
  split; [intros _; cbn; lia|done|]. by intros [|[|x]] op [= <-].
Defined.
