(* ===== verification/CompileSpans.v ===== *)
(** * What a compiled expression is to do

    A reversed program runs over the text backward: what it reads from [p] to
    [q] of the reversed text is what the expression matches between the same
    places of the text. *)

From stdpp Require Import gmap fin_sets relations.
From S2P Require Import Prelude Rune CharClass Regexp RegexpSem Walker Prog Compile CompileSem CompileFrags CompileMethods RuneRanges CompileRunes.

#[local] Open Scope nat_scope.
#[local] Open Scope xap_scope.

(** The span seen from the end of a text of [n] bytes. *)
Definition mirror (n : nat) (R : span) : span := fun p q => p <= n /\ q <= n /\ R (n - q) (n - p).

Section text.
Context (latin1 : bool) (text : bytes).

Abbreviation agree := (agree text).
Abbreviation bounded := (bounded text).
Abbreviation n := (length text).

(** ** The text is not left *)

Lemma has_at_bounded s : bounded (has_at text s).
Proof. intros i j Hi [[k Hk] ->]. apply (f_equal length) in Hk. rewrite length_drop, length_app in Hk. lia. Qed.

Lemma then_bounded R1 R2 : bounded R1 -> bounded R2 -> bounded (then_ R1 R2).
Proof. intros H1 H2 i j Hi (k&Hk&Hj). apply (H2 k j); [by eapply H1|done]. Qed.

Lemma or_bounded R1 R2 : bounded R1 -> bounded R2 -> bounded (or_ R1 R2).
Proof. intros H1 H2 i j Hi [H|H]; [by eapply H1|by eapply H2]. Qed.

Lemma rtc_bounded R : bounded R -> bounded (rtc R).
Proof. intros H i j Hi Hr. revert Hi. induction Hr as [|i k j Hk _ IH]; intros Hi; [done|]. apply IH. by eapply H. Qed.

Lemma tc_bounded R : bounded R -> bounded (tc R).
Proof. intros H i j Hi Hr%tc_rtc. by eapply (rtc_bounded R). Qed.

Lemma nsteps_bounded R k : bounded R -> bounded (nsteps R k).
Proof. intros H i j Hi Hr. apply (rtc_bounded R H i j Hi). apply rtc_nsteps. by exists k. Qed.

Lemma eq_bounded : bounded eq.
Proof. by intros i j Hi <-. Qed.

Lemma false_bounded : bounded (fun _ _ => False).
Proof. by intros i j Hi. Qed.

Lemma reads_rune_bounded P : bounded (reads_rune latin1 text P).
Proof. intros i j Hi (x&_&_&H). by eapply has_at_bounded. Qed.

Lemma here_bounded P : bounded (here text P).
Proof. intros i j Hi (->&?&_). done. Qed.

Lemma foldr_then_bounded l : Forall bounded l -> bounded (foldr then_ eq l).
Proof. induction 1; [apply eq_bounded|by apply then_bounded]. Qed.

Lemma foldr_or_bounded l : Forall bounded l -> bounded (foldr or_ (fun _ _ => False) l).
Proof. induction 1; [apply false_bounded|by apply or_bounded]. Qed.

Lemma foldr_fmap {A B C} (f : A -> B) (g : B -> C -> C) c l : foldr (fun a => g (f a)) c l = foldr g c (f <$> l).
Proof. induction l as [|a l IH]; [done|]. cbn. by rewrite IH. Qed.

Lemma matches_bounded re : bounded (matches latin1 text re).
Proof.
  induction re as [op f sm subs IH] using Regexp_rec_subs.
  assert (Hsub : forall (F : span -> span), (forall R, bounded R -> bounded (F R)) ->
    bounded (match subs with [sub] => F (matches latin1 text sub) | _ => fun _ _ => False end)).
  { intros F HF. destruct IH as [|sub l Hs Hl]; [apply false_bounded|]. destruct l; [by apply HF|apply false_bounded]. }
  destruct op; cbn; try apply eq_bounded; try apply false_bounded; try apply reads_rune_bounded; try apply here_bounded.
  - induction runes as [|r rs IHr]; cbn; [apply eq_bounded|]. apply then_bounded; [apply reads_rune_bounded|done].
  - rewrite (foldr_fmap (matches latin1 text) then_). by apply foldr_then_bounded, Forall_fmap.
  - rewrite (foldr_fmap (matches latin1 text) or_). by apply foldr_or_bounded, Forall_fmap.
  - apply (Hsub rtc rtc_bounded).
  - apply (Hsub tc tc_bounded).
  - apply (Hsub (fun R => or_ R eq)). intros R H. apply or_bounded; [done|apply eq_bounded].
  - apply (Hsub (fun R => repeated R min max)). intros R H i j Hi (k&_&_&Hk). by eapply nsteps_bounded.
  - apply (Hsub (fun R => R)). done.
  - intros i j Hi (c&H). by eapply has_at_bounded.
Qed.

(** ** Spans seen from the end *)

Lemma mirror_agree R R' : (forall i j, i <= n -> R i j <-> R' i j) -> mirror n R ≡ₛ mirror n R'.
Proof. intros H p q. unfold mirror. rewrite (H (n - q) (n - p)) by lia. done. Qed.

Lemma mirror_eq : agree (mirror n eq) eq.
Proof. intros p q Hp. unfold mirror. lia. Qed.

Lemma mirror_or R1 R2 : mirror n (or_ R1 R2) ≡ₛ or_ (mirror n R1) (mirror n R2).
Proof. intros p q. unfold mirror, or_. tauto. Qed.

Lemma mirror_false : mirror n (fun _ _ => False) ≡ₛ fun _ _ => False.
Proof. intros p q. unfold mirror. tauto. Qed.

Lemma mirror_then R1 R2 : bounded R1 -> agree (mirror n (then_ R1 R2)) (then_ (mirror n R2) (mirror n R1)).
Proof.
  intros B p q Hp. unfold mirror, then_. split.
  - intros (_&Hq&k&H1&H2). pose proof (B (n - q) k ltac:(lia) H1). exists (n - k).
    replace (n - (n - k)) with k by lia. split_and!; lia || done.
  - intros (k&(_&Hk&H2)&_&Hq&H1). split; [done|]. split; [done|]. by exists (n - k).
Qed.

Lemma mirror_bounded R : bounded (mirror n R).
Proof. intros p q _ (_&Hq&_). done. Qed.

Lemma mirror_rtc R : bounded R -> agree (mirror n (rtc R)) (rtc (mirror n R)).
Proof.
  intros B p q Hp. split.
  - intros (_&Hq&Hr). remember (n - q) as i eqn:Ei. remember (n - p) as j eqn:Ej.
    assert (Hi : i <= n) by lia. revert p q Hp Hq Ei Ej. induction Hr as [i|i k j Hk Hr IH]; intros p q Hp Hq Ei Ej; subst.
    + by assert (p = q) as -> by lia.
    + pose proof (B _ _ Hi Hk) as Hkn. specialize (IH Hkn p (n - k) Hp ltac:(lia) ltac:(lia) eq_refl).
      eapply rtc_r; [exact IH|]. unfold mirror. replace (n - (n - k)) with k by lia. split_and!; lia || done.
  - intros Hr. assert (Hq : q <= n) by (by apply (rtc_bounded (mirror n R) (mirror_bounded R) p q Hp)).
    split; [done|]. split; [done|]. clear Hp Hq. induction Hr as [|p k q (Hp&Hk&H) _ IH]; [done|]. by eapply rtc_r.
Qed.

Lemma tc_then_rtc (R : span) : tc R ≡ₛ then_ R (rtc R).
Proof.
  intros i j. split; [|intros (k&?&?); eapply tc_rtc_r; [by apply tc_once|done]].
  inversion 1; subst; [by exists j|]. eexists. split; [done|]. by apply tc_rtc.
Qed.

Lemma tc_rtc_then (R : span) : tc R ≡ₛ then_ (rtc R) R.
Proof.
  intros i j. split.
  - induction 1 as [i j H|i k j H _ (m&IH&H2)]; [by exists i|]. exists m. split; [by eapply rtc_l|done].
  - intros (k&?&?). eapply tc_rtc_l; [done|by apply tc_once].
Qed.

Lemma mirror_tc R : bounded R -> agree (mirror n (tc R)) (tc (mirror n R)).
Proof.
  intros B. rewrite (span_eq_agree _ _ _ (mirror_agree _ _ (fun i j _ => tc_then_rtc R i j))).
  rewrite (mirror_then _ _ B), (span_eq_agree _ _ _ (tc_rtc_then (mirror n R))).
  apply then_agree; [apply mirror_bounded|by apply mirror_rtc|done].
Qed.

(** Strings are read backward. *)
Lemma has_at_split t s i j : i <= length t -> has_at t s i j <-> exists a k, t = a ++ s ++ k /\ length a = i /\ j = i + length s.
Proof.
  intros Hi. unfold has_at. split.
  - intros [[k Hk] ->]. exists (take i t), k. rewrite <- Hk, take_drop, length_take. split_and!; lia || done.
  - intros (a&k&->&<-&->). split; [|done]. exists k. by rewrite drop_app_length.
Qed.

Lemma mirror_has_at s : agree (mirror n (has_at (reverse text) s)) (has_at text (reverse s)).
Proof.
  intros p q Hp. unfold mirror. rewrite (has_at_split text _ p q Hp), (has_at_split (reverse text)) by (rewrite length_reverse; lia). split.
  - intros (_&Hq&a&k&E&Ha&Hj). exists (reverse k), (reverse a). apply (f_equal reverse) in E.
    rewrite reverse_involutive, !reverse_app, <- app_assoc in E.
    assert (Hn : n = length k + (length s + length a)) by (rewrite E, !length_app, !length_reverse; lia).
    rewrite !length_reverse. split; [done|]. lia.
  - intros (a&k&E&Ha&Hj). assert (Hn : n = length a + (length s + length k)) by (rewrite E, !length_app, length_reverse; lia).
    rewrite length_reverse in Hj. split; [done|]. split; [lia|]. exists (reverse k), (reverse a).
    rewrite length_reverse. split; [|lia]. by rewrite E, !reverse_app, reverse_involutive, <- app_assoc.
Qed.

(** ** What an expression does in the direction of the program *)

Definition oriented (rv : bool) (F : bytes -> span) : span := if rv then mirror n (F (reverse text)) else F text.

Lemma oriented_span rv (F : span) : oriented rv (fun _ => F) = (if rv then mirror n F else F).
Proof. done. Qed.

Lemma oriented_agree rv F F' : (forall t i j, i <= length t -> F t i j <-> F' t i j) -> agree (oriented rv F) (oriented rv F').
Proof.
  intros H. destruct rv; [|by intros i j; apply H]. apply span_eq_agree, mirror_agree. intros i j Hi. apply H. by rewrite length_reverse.
Qed.

Lemma oriented_then rv F1 F2 : (forall t, CompileSem.bounded t (F1 t)) ->
  agree (oriented rv (fun t => then_ (F1 t) (F2 t))) (cat_span rv (oriented rv F1) (oriented rv F2)).
Proof.
  intros B. destruct rv; [|done]. apply mirror_then. pose proof (B (reverse text)) as H. unfold CompileSem.bounded in H.
  by rewrite length_reverse in H.
Qed.

Lemma oriented_or rv F1 F2 : agree (oriented rv (fun t => or_ (F1 t) (F2 t))) (or_ (oriented rv F1) (oriented rv F2)).
Proof. destruct rv; [|done]. apply span_eq_agree, mirror_or. Qed.

Lemma oriented_eq rv : agree (oriented rv (fun _ => eq)) eq.
Proof. destruct rv; [apply mirror_eq|done]. Qed.

Lemma oriented_false rv : agree (oriented rv (fun _ _ _ => False)) (fun _ _ => False).
Proof. destruct rv; [|done]. apply span_eq_agree, mirror_false. Qed.

Lemma oriented_rtc rv F : (forall t, CompileSem.bounded t (F t)) -> agree (oriented rv (fun t => rtc (F t))) (rtc (oriented rv F)).
Proof. intros B. destruct rv; [|done]. apply mirror_rtc. pose proof (B (reverse text)) as H. unfold CompileSem.bounded in H. by rewrite length_reverse in H. Qed.

Lemma oriented_tc rv F : (forall t, CompileSem.bounded t (F t)) -> agree (oriented rv (fun t => tc (F t))) (tc (oriented rv F)).
Proof. intros B. destruct rv; [|done]. apply mirror_tc. pose proof (B (reverse text)) as H. unfold CompileSem.bounded in H. by rewrite length_reverse in H. Qed.

Lemma oriented_bounded rv F : (forall t, CompileSem.bounded t (F t)) -> bounded (oriented rv F).
Proof. intros B. destruct rv; [apply mirror_bounded|apply B]. Qed.

(** Strings. *)
Lemma oriented_has_at rv s : agree (oriented rv (fun t => has_at t s)) (has_at text (if rv then reverse s else s)).
Proof. destruct rv; [apply mirror_has_at|done]. Qed.

(** ** The conditions of empty-width operators *)

Lemma reverse_at i : i < n -> reverse text !! i = text !! (n - S i).
Proof. intros. by rewrite reverse_lookup. Qed.

Lemma word_at_mirror p : p <= n -> word_at (reverse text) (n - p) = word_before text p /\ word_before (reverse text) (n - p) = word_at text p.
Proof.
  intros Hp. split.
  - destruct p as [|p]; cbn.
    + unfold word_at. by rewrite lookup_ge_None_2 by (rewrite length_reverse; lia).
    + unfold word_at. rewrite reverse_at by lia. by replace (n - S (n - S p)) with p by lia.
  - unfold word_before. destruct (n - p) as [|k] eqn:E.
    + unfold word_at. by rewrite lookup_ge_None_2 by lia.
    + unfold word_at. rewrite reverse_at by lia. by replace (n - S k) with p by lia.
Qed.

Lemma line_mirror p : p <= n ->
  (begin_line (reverse text) (n - p) <-> end_line text p) /\ (end_line (reverse text) (n - p) <-> begin_line text p).
Proof.
  intros Hp. unfold begin_line, end_line. rewrite length_reverse. split; split.
  - intros [H|(i&E&H)]; [left; lia|right]. rewrite reverse_at in H by lia. by replace (n - S i) with p in H by lia.
  - intros [->|H]; [left; lia|right]. pose proof (lookup_lt_Some _ _ _ H). exists (n - p - 1). split; [lia|].
    rewrite reverse_at by lia. by replace (n - S (n - p - 1)) with p by lia.
  - intros [H|H]; [left; lia|right]. destruct (decide (p = 0)) as [->|Hp0].
    { rewrite lookup_ge_None_2 in H by (rewrite length_reverse; lia). done. }
    rewrite reverse_at in H by lia. exists (p - 1). split; [lia|]. by replace (n - S (n - p)) with (p - 1) in H by lia.
  - intros [->|(i&->&H)]; [left; lia|right]. rewrite reverse_at by lia. by replace (n - S (n - S i)) with i by lia.
Qed.

(** The flag of an operator, in the direction of the program. *)
Lemma oriented_here (rv : bool) (P : bytes -> nat -> Prop) (Q : nat -> Prop) :
  (forall p, p <= n -> (if rv then P (reverse text) (n - p) else P text p) <-> Q p) ->
  agree (oriented rv (fun t => here t (P t))) (fun i j => i = j /\ i <= n /\ Q i).
Proof.
  intros H. destruct rv; intros i j Hi; specialize (H i Hi); unfold oriented, mirror, here.
  - rewrite length_reverse, <- H. split.
    + intros (_&Hj&E&_&HP). assert (j = i) as -> by lia. done.
    + intros (->&_&?). split_and!; done || lia.
  - rewrite <- H. done.
Qed.

(** Runes. *)
Lemma oriented_reads rv P : agree (oriented rv (fun t => reads_rune latin1 t P))
  (str_span text (fun s => exists x, (0 <= x <= max_rune latin1)%Z /\ P x /\ s = if rv then reverse (rune_bytes latin1 x) else rune_bytes latin1 x)).
Proof.
  intros i j Hi. assert (E : str_span text (fun s => exists x, (0 <= x <= max_rune latin1)%Z /\ P x /\ s = if rv then reverse (rune_bytes latin1 x) else rune_bytes latin1 x) i j
    <-> exists x, (0 <= x <= max_rune latin1)%Z /\ P x /\ oriented rv (fun t => has_at t (rune_bytes latin1 x)) i j).
  { unfold str_span. split.
    - intros (s&(x&Hx&HP&->)&H). exists x. split; [done|]. split; [done|]. by apply oriented_has_at.
    - intros (x&Hx&HP&H%oriented_has_at); [|done]. eexists. split; [by exists x|done]. }
  rewrite E. clear E. unfold oriented, mirror, reads_rune. destruct rv; naive_solver.
Qed.

Lemma oriented_byte rv : agree (oriented rv reads_byte) (fun i j => exists c, has_at text [c] i j).
Proof.
  intros i j Hi. unfold reads_byte.
  assert (E : (exists c, has_at text [c] i j) <-> exists c, oriented rv (fun t => has_at t [c]) i j).
  { f_equiv. intros c. rewrite (oriented_has_at rv [c] i j Hi). by destruct rv. }
  rewrite E. unfold oriented, mirror. destruct rv; naive_solver.
Qed.
End text.
