(* ===== verification/CompileNodes.v ===== *)
(** * The nodes of an expression

    [Literal] and the loops over children, and then [PostVisit]: from the
    fragments of the children it makes a fragment for what the expression
    matches, in the direction of the program. *)

From stdpp Require Import gmap fin_sets relations.
From S2P Require Import Prelude Rune CharClass Regexp RegexpSem Walker Prog Compile CompileSem CompileFrags CompileMethods RuneRanges CompileRunes CompileSpans.

#[local] Open Scope nat_scope.
#[local] Open Scope xap_scope.

Section nodes.
Context (text : bytes).

Abbreviation agree := (agree text).
Abbreviation frag_ok := (frag_ok text).
Abbreviation yields := (yields text).
Abbreviation oriented := (oriented text).

(** ** One method after another *)

Lemma since_trans c c1 D D1 D2 : length (insts c) <= length (insts c1) -> since c D D1 -> since c1 D1 D2 -> since c D D2.
Proof. intros HL H1 H2 x [?%H1|?]%H2; [done|right; lia]. Qed.

Lemma yields_after D D1 c c1 R f c2 : grows D c c1 -> since c D D1 -> yields D1 c1 R f c2 -> yields D c R f c2.
Proof.
  intros G H (S&G2&D2&Hok&H2). split; [done|]. split; [by eapply grows_trans|]. exists D2. split; [done|].
  eapply since_trans; [apply G|done|done].
Qed.

Lemma yields_agree D c R R' f c' : agree R R' -> yields D c R f c' -> yields D c R' f c'.
Proof. intros H (S&G&D'&Hok&Hs). split; [done|]. split; [done|]. exists D'. split; [by eapply frag_ok_agree|done]. Qed.

Lemma yields_call D c c1 R R' (m : compiling Frag) : agree R R' -> wp m (yields D c R) c1 -> wp m (yields D c R') c1.
Proof. intros H Hm. eapply call_mono; [exact Hm|]. intros f c'. by apply yields_agree. Qed.

Lemma frag_nodes c D f R x : frag_ok c D f R -> x ∈ D -> x < length (insts c).
Proof. intros (ls&W&_) Hx. by apply (wf_nodes _ _ _ _ W). Qed.

(** A new fragment joins one that is there. *)
Lemma cat_next D c c1 R R1 f (m : compiling Frag) : yields D c R f c1 -> wp m (yields ∅ c1 R1) c1 ->
  wp (f1 ← m; Cat f f1) (yields D c (cat_span (reversed_ c) R R1)) c1.
Proof.
  intros (S1&G1&D1&H1&N1) Hm. apply call_bind. eapply call_mono; [exact Hm|]. intros f1 c2 (S2&G2&D2&H2&N2).
  assert (HD : D1 ## D2).
  { intros x Hx1 Hx2. apply (frag_nodes _ _ _ _ _ H1) in Hx1. destruct (N2 x Hx2) as [?%not_elem_of_empty|?]; [done|lia]. }
  eapply call_mono; [apply (Cat_wp text c2 D1 D2 f f1 R R1); [done| |done|done]|].
  { eapply frag_ok_kept; [exact S1|done|done|set_solver|done]. }
  intros f' c' H. rewrite (grows_reversed _ _ _ G2), (grows_reversed _ _ _ G1) in H. eapply yields_after; [| |exact H].
  - eapply grows_trans; [done|done|]. intros x ?%not_elem_of_empty. done.
  - intros x [Hx|Hx]%elem_of_union; [by apply N1|]. destruct (N2 x Hx) as [?%not_elem_of_empty|?]; [done|right].
    pose proof (grows_length _ _ _ G1). lia.
Qed.

(** ** Literals *)

(** A string in the direction of the program. *)
Definition orient (rv : bool) (s : bytes) : bytes := if rv then reverse s else s.

Lemma has_at_app s1 s2 : then_ (has_at text s1) (has_at text s2) ≡ₛ has_at text (s1 ++ s2).
Proof.
  intros i j. unfold then_, has_at. split.
  - intros (k&[[k1 E1] ->]&[[k2 E2] ->]). rewrite <- drop_drop, E1, drop_app_length in E2. subst k1.
    split; [exists k2; by rewrite E1, app_assoc|rewrite length_app; lia].
  - intros [[k E] ->]. rewrite length_app. exists (i + length s1). split.
    + split; [|done]. rewrite E, <- app_assoc. by eexists.
    + split; [|lia]. rewrite <- drop_drop, E, <- app_assoc, drop_app_length. by eexists.
Qed.

Lemma cat_has_at rv s1 s2 : cat_span rv (has_at text (orient rv s1)) (has_at text (orient rv s2)) ≡ₛ has_at text (orient rv (s1 ++ s2)).
Proof. destruct rv; cbn; [rewrite reverse_app|]; apply has_at_app. Qed.

Lemma orient_one rv b : orient rv [b] = [b].
Proof. destruct rv; [apply reverse_singleton|done]. Qed.

Lemma reads_in_str lo hi fold : reads_in text lo hi fold ≡ₛ str_span text (byte_lang lo hi fold).
Proof.
  intros i j. unfold reads_in, str_span, byte_lang. split.
  - intros (->&ch&Hc&Hm). exists [ch]. split; [by exists ch|]. unfold has_at. rewrite (drop_S _ _ _ Hc). split; [by eexists|cbn; lia].
  - intros (s&(ch&->&Hm)&[[k E] ->]). split; [cbn; lia|]. exists ch. split; [|done]. by rewrite <- (Nat.add_0_r i), <- lookup_drop, E.
Qed.

Lemma byte_has_at b : reads_in text (uchar b) (uchar b) false ≡ₛ has_at text [b].
Proof.
  intros i j. rewrite (reads_in_str _ _ _ i j). unfold str_span, byte_lang. split; [|by exists [b]; split; [exists b; split; [done|unfold Matches; cbn; case_bool_decide; [done|lia]]|]].
  intros (s&(ch&->&Hm)&H). unfold Matches in Hm. cbn in Hm. apply bool_decide_eq_true in Hm.
  assert (ch = b) as -> by (apply uchar_inj; lia). done.
Qed.

Lemma cat_bytes_wp buf : forall D c c1 f s, yields D c (has_at text (orient (reversed_ c) s)) f c1 ->
  wp (cat_bytes f (uchar <$> buf)) (yields D c (has_at text (orient (reversed_ c) (s ++ buf)))) c1.
Proof.
  induction buf as [|b buf IH]; intros D c c1 f s H; cbn [cat_bytes fmap list_fmap].
  - apply call_ret. by rewrite app_nil_r.
  - pose proof (uchar_range b). change (b :: buf) with ([b] ++ buf). rewrite (app_assoc s [b] buf).
    assert (Hb : wp (f1 ← ByteRange (uchar b) (uchar b) false; Cat f f1)
      (yields D c (cat_span (reversed_ c) (has_at text (orient (reversed_ c) s)) (has_at text [b]))) c1).
    { apply cat_next; [done|]. eapply yields_call; [apply span_eq_agree, byte_has_at|]. apply ByteRange_yields; [apply H|lia|lia]. }
    revert Hb. unfold wp, mbind, comp_bind. destruct (ByteRange _ _ _ c1) as [[f1 c2]|]; [|done].
    destruct (Cat f f1 c2) as [[f' c']|]; [|done]. intros Hb. apply IH. eapply yields_agree; [|exact Hb].
    rewrite <- (orient_one (reversed_ c) b) at 1. apply span_eq_agree, cat_has_at.
Qed.

(** What a rune does, in the direction of the program. *)
Definition rune_means (c : Compiler) (P : Z -> Prop) : span := oriented (reversed_ c) (fun t => reads_rune (is_latin1 (encoding_ c)) t P).

Lemma rune_means_lang c P : agree (rune_means c P) (str_span text (rune_lang c P)).
Proof. apply oriented_reads. Qed.

Lemma in_fold_letter f r x : literal_ok false f r \/ literal_ok true f r -> in_fold r r (flag f FoldCase) x <-> same_letter (flag f FoldCase) r x.
Proof.
  intros H. assert (Hn : ~ (flag f FoldCase = true /\ 65 <= r <= 90)%Z) by (destruct H as [[_ H]|[_ H]]; done).
  unfold in_fold, folded, same_letter. destruct (flag f FoldCase); cbn [andb]; [|naive_solver lia].
  case_bool_decide; split; intros; try lia.
Qed.

Lemma Literal_wp c r f : sound c -> literal_ok (is_latin1 (encoding_ c)) f r ->
  wp (Literal r (flag f FoldCase)) (yields ∅ c (rune_means c (same_letter (flag f FoldCase) r))) c.
Proof.
  intros S Hr. pose proof Hr as [Hr1 Hr2]. set (fold := flag f FoldCase) in *.
  assert (Hf : forall x, in_fold r r fold x <-> same_letter fold r x).
  { intros x. apply in_fold_letter. destruct (encoding_ c); [by left|by right]. }
  assert (Hbyte : (r <= 255)%Z -> (encoding_ c = kEncodingUTF8 -> (r < 128)%Z) ->
    wp (ByteRange r r fold) (yields ∅ c (rune_means c (same_letter fold r))) c).
  { intros H1 H2. eapply yields_call; [|apply ByteRange_yields; [done|lia|lia]].
    rewrite rune_means_lang, (span_eq_agree _ _ _ (reads_in_str _ _ _)). apply span_eq_agree, str_span_ext. intros s.
    rewrite (byte_runes c) by (done || by split; lia). by apply rune_lang_ext. }
  unfold Literal. apply call_bind, call_get. destruct (encoding_ c) eqn:He.
  - case_decide as Hself; [apply Hbyte; unfold Runeself in *; lia|].
    assert (Hm : agree (has_at text (orient (reversed_ c) (runetochar r))) (rune_means c (same_letter fold r))).
    { rewrite rune_means_lang. apply span_eq_agree. intros i j. unfold str_span, rune_lang, rune_string, rune_bytes, max_rune.
      rewrite He in *. cbn [is_latin1] in *. split.
      - intros Hs. eexists. split; [exists r|exact Hs]. split; [done|]. split; [by left|done].
      - intros (s&(x&Hx&[->|[_ ?]]&->)&Hs); [exact Hs|]. unfold Runeself in *. lia. }
    eapply yields_call; [exact Hm|]. destruct (runetochar r) as [|b buf] eqn:E; [destruct (runetochar_cons r) as (?&?&E'&_); [cbn in Hr1; unfold max_rune in Hr1; lia|congruence]|].
    cbn [fmap list_fmap]. pose proof (uchar_range b). apply call_bind.
    eapply call_mono; [apply (ByteRange_yields text c ∅ (uchar b) (uchar b) false); [done|lia|lia]|].
    intros f1 c1 H1. apply (cat_bytes_wp buf ∅ c c1 f1 [b]). eapply yields_agree; [|exact H1].
    rewrite orient_one. apply span_eq_agree, byte_has_at.
  - apply Hbyte; [cbn in *; unfold max_rune in *; lia|done].
Qed.

Lemma cat_literals_wp f runes : forall c1 c D F R, let rv := reversed_ c in let fold := flag f FoldCase in
  yields D c R F c1 -> Forall (literal_ok (is_latin1 (encoding_ c)) f) runes ->
  wp (cat_literals F runes fold) (yields D c (foldl (cat_span rv) R ((fun r => rune_means c (same_letter fold r)) <$> runes))) c1.
Proof.
  induction runes as [|r runes IH]; intros c1 c D F R rv fold H Hr; cbn [cat_literals fmap list_fmap foldl].
  - by apply call_ret.
  - apply Forall_cons in Hr as [Hr Hrs]. pose proof H as (S1&G&_).
    assert (Hb : wp (f1 ← Literal r fold; Cat F f1) (yields D c (cat_span rv R (rune_means c (same_letter fold r)))) c1).
    { apply cat_next; [done|]. unfold rune_means. rewrite <- (grows_encoding _ _ _ G), <- (grows_reversed _ _ _ G).
      apply Literal_wp; [done|]. by rewrite (grows_encoding _ _ _ G). }
    revert Hb. unfold wp, mbind, comp_bind. destruct (Literal r fold c1) as [[f1 c2]|]; [|done].
    destruct (Cat F f1 c2) as [[F' c']|]; [|done]. intros Hb. by apply IH.
Qed.

(** ** Children *)

(** Fragments that do not share instructions. *)
Fixpoint frags_ok (c : Compiler) (D : gset nat) (fs : list Frag) (Rs : list span) : Prop :=
  match fs, Rs with
  | [], [] => True
  | f :: fs, R :: Rs => exists D1 D2, D1 ⊆ D /\ D2 ⊆ D /\ D1 ## D2 /\ frag_ok c D1 f R /\ frags_ok c D2 fs Rs
  | _, _ => False
  end.

Lemma frags_ok_kept c c' D0 fs : forall D Rs, sound c -> sound c' -> grows D0 c c' -> D0 ## D -> frags_ok c D fs Rs -> frags_ok c' D fs Rs.
Proof.
  induction fs as [|f fs IH]; intros D [|R Rs] S S' G HD; try done. intros (D1&D2&H1&H2&H12&Hf&Hfs).
  exists D1, D2. split_and!; [done..|eapply frag_ok_kept|eapply IH]; [exact S|exact S'|exact G|set_solver|done|exact S|exact S'|exact G|set_solver|done].
Qed.

Lemma frags_ok_app c fs : forall D D' Rs f R, frags_ok c D fs Rs -> frag_ok c D' f R -> D ## D' ->
  frags_ok c (D ∪ D') (fs ++ [f]) (Rs ++ [R]).
Proof.
  induction fs as [|g fs IH]; intros D D' [|R0 Rs] f R H Hf HD; try done; cbn.
  - exists D', ∅. split_and!; [set_solver..|done|done].
  - destruct H as (D1&D2&H1&H2&H12&Hg&Hfs). exists D1, (D2 ∪ D'). split_and!; [set_solver..|done|]. apply IH; [done|done|set_solver].
Qed.

Lemma frags_nodes c fs : forall D Rs, frags_ok c D fs Rs -> exists D', D' ⊆ D /\ frags_ok c D' fs Rs /\ forall x, x ∈ D' -> x < length (insts c).
Proof.
  induction fs as [|f fs IH]; intros D [|R Rs]; try done.
  - intros _. by exists ∅.
  - intros (D1&D2&H1&H2&H12&Hf&Hfs). destruct (IH _ _ Hfs) as (D'&HD'&Hfs'&N). exists (D1 ∪ D'). split; [set_solver|].
    split; [exists D1, D'; split_and!; [set_solver..|done|done]|]. intros x [?|?]%elem_of_union; [by eapply frag_nodes|auto].
Qed.

(** The loops of [PostVisit] over the children. *)
Lemma join_frags_wp rv join J : (forall c Da Db a b Ra Rb, reversed_ c = rv -> sound c -> frag_ok c Da a Ra -> frag_ok c Db b Rb -> Da ## Db ->
    wp (join a b) (yields (Da ∪ Db) c (J Ra Rb)) c) ->
  forall fs Rs c D1 D2 f R, reversed_ c = rv -> sound c -> frag_ok c D1 f R -> frags_ok c D2 fs Rs -> D1 ## D2 ->
  wp (join_frags join f fs) (yields (D1 ∪ D2) c (foldl J R Rs)) c.
Proof.
  intros HJ. induction fs as [|g fs IH]; intros [|R1 Rs] c D1 D2 f R Hrv S Hf Hfs HD; try done; cbn [join_frags foldl].
  - apply call_ret, (same_yields text c D1 _ R); [done|done|set_solver|done].
  - destruct Hfs as (D3&D4&H3&H4&H34&Hg&Hfs). apply call_bind.
    eapply call_mono; [apply (HJ c D1 D3 f g R R1); [done..|set_solver]|]. intros f' c' (S'&G&D'&Hf'&N).
    destruct (frags_nodes _ _ _ _ Hfs) as (D5&H5&Hfs5&N5).
    eapply call_mono; [apply (IH Rs c' D' D5 f' (J R R1)); [|done|done| |]|].
    + by rewrite (grows_reversed _ _ _ G).
    + eapply frags_ok_kept; [exact S|done|done|set_solver|done].
    + intros x Hx Hx5. destruct (N x Hx) as [?|?]; [set_solver|]. apply N5 in Hx5. lia.
    + intros f'' c'' H. eapply yields_after; [eapply grows_weaken; [exact G|set_solver]| |exact H].
      intros x [[Hx|?]%N|?]%elem_of_union; [left; set_solver|by right|left; set_solver].
Qed.

(** ** Meanings of lists *)

#[export] Instance cat_span_proper rv : Proper (span_eq ==> span_eq ==> span_eq) (cat_span rv).
Proof. intros R1 R1' H1 R2 R2' H2. destruct rv; cbn; by rewrite H1, H2. Qed.

Lemma cat_span_assoc rv R1 R2 R3 : cat_span rv (cat_span rv R1 R2) R3 ≡ₛ cat_span rv R1 (cat_span rv R2 R3).
Proof. destruct rv; cbn; by rewrite then_assoc. Qed.

Lemma cat_span_eq rv R : cat_span rv R eq ≡ₛ R.
Proof. destruct rv; cbn; [|by rewrite then_eq_r]. intros i j. unfold then_. split; [by intros (k&<-&?)|by exists i]. Qed.

Lemma foldl_cat rv Rs : forall R, foldl (cat_span rv) R Rs ≡ₛ cat_span rv R (foldr (cat_span rv) eq Rs).
Proof.
  induction Rs as [|R1 Rs IH]; intros R; cbn [foldl foldr]; [by rewrite cat_span_eq|]. by rewrite IH, cat_span_assoc.
Qed.

Lemma foldl_or Rs : forall R, foldl or_ R Rs ≡ₛ or_ R (foldr or_ (fun _ _ => False) Rs).
Proof.
  induction Rs as [|R1 Rs IH]; intros R i j; cbn [foldl foldr].
  - unfold or_. tauto.
  - rewrite (IH (or_ R R1) i j). unfold or_. tauto.
Qed.

Lemma oriented_foldr_then {A} rv (F : A -> bytes -> span) l : (forall a t, CompileSem.bounded t (F a t)) ->
  agree (oriented rv (fun t => foldr (fun a => then_ (F a t)) eq l)) (foldr (cat_span rv) eq ((fun a => oriented rv (F a)) <$> l)).
Proof.
  intros B. induction l as [|a l IH]; cbn [foldr fmap list_fmap]; [apply oriented_eq|].
  rewrite (oriented_then text rv (F a) (fun t => foldr (fun a => then_ (F a t)) eq l)) by apply B.
  assert (Bl : forall t, CompileSem.bounded t (foldr (fun a => then_ (F a t)) eq l)).
  { intros t. rewrite (foldr_fmap (fun a => F a t) then_). apply foldr_then_bounded. apply Forall_fmap, Forall_true. intros a'. apply B. }
  apply cat_span_agree; [by apply oriented_bounded|by apply oriented_bounded|done|done].
Qed.

Lemma oriented_foldr_or {A} rv (F : A -> bytes -> span) l :
  agree (oriented rv (fun t => foldr (fun a => or_ (F a t)) (fun _ _ => False) l)) (foldr or_ (fun _ _ => False) ((fun a => oriented rv (F a)) <$> l)).
Proof.
  induction l as [|a l IH]; cbn [foldr fmap list_fmap]; [apply oriented_false|].
  rewrite (oriented_or text rv (F a) (fun t => foldr (fun a => or_ (F a t)) (fun _ _ => False) l)). by rewrite IH.
Qed.

(** ** [PostVisit] *)

(** What an expression matches, in the direction of the program. *)
Definition means (c : Compiler) (re : Regexp) : span := oriented (reversed_ c) (fun t => matches (is_latin1 (encoding_ c)) t re).

(** The outcome for a node: where the compiler has failed the fragment does not
    matter. *)
Definition visited (D : gset nat) (c : Compiler) (R : span) (f : Frag) (c' : Compiler) : Prop :=
  sound c' /\ grows D c c' /\ (failed_ c' = false -> yields D c R f c').

Lemma yields_visited D c R f c' : yields D c R f c' -> visited D c R f c'.
Proof. intros H. split; [apply H|]. split; [apply H|done]. Qed.

Lemma visited_call D c R R' (m : compiling Frag) : agree R R' -> wp m (yields D c R) c -> wp m (visited D c R') c.
Proof. intros H Hm. eapply call_mono; [by eapply yields_call|]. intros f c'. apply yields_visited. Qed.

Lemma set_failed_wp c D R : sound c -> wp (set_failed;; mret NoMatch) (visited D c R) c.
Proof.
  intros S. destruct (sound_failed c (inst_count_ c) S) as [S' G]. split; [exact S'|].
  split; [eapply grows_weaken; [exact G|set_solver]|done].
Qed.

Lemma grows_empty D c c' : grows ∅ c c' -> grows D c c'.
Proof. intros G. eapply grows_weaken; [exact G|set_solver]. Qed.

Lemma yields_empty D c R f c' : yields ∅ c R f c' -> yields D c R f c'.
Proof.
  intros (S&G&D'&H&N). split; [done|]. split; [by apply grows_empty|]. exists D'. split; [done|].
  intros x [?%not_elem_of_empty|?]%N; [done|by right].
Qed.

Lemma rune_lang_span c L P : (forall s, L s <-> rune_lang c P s) -> agree (str_span text L) (rune_means c P).
Proof. intros H. rewrite rune_means_lang. apply span_eq_agree, str_span_ext, H. Qed.

(** [.] and character classes. *)
Lemma any_char_wp c : sound c -> (max_inst_ c <= 2 ^ 24)%Z ->
  wp (BeginRange;; AddRuneRange 0 Runemax false;; EndRange) (yields ∅ c (rune_means c (fun _ => True))) c.
Proof.
  intros S Hmax. apply call_bind. eapply call_mono; [by apply BeginRange_wp|]. intros [] c1 R.
  apply call_bind. eapply call_mono; [by apply (AddRuneRange_wp text c S Hmax c1 _ _ _ 0 Runemax false R)|]. intros [] c2 HA.
  eapply yields_call; [|apply EndRange_wp; [done|exact HA|]].
  - apply rune_lang_span. intros s. unfold with_runes. rewrite (rune_lang_ext c _ (fun _ => True)); [tauto|].
    intros x Hx. unfold in_fold, folded. cbn. unfold max_rune, Runemax in *. destruct (is_latin1 _); lia.
  - exists (rune_string c 0). right. exists 0%Z. unfold max_rune, in_fold, folded, Runemax. cbn. split_and!; [lia|by destruct (is_latin1 _)|lia|lia|done].
Qed.

Lemma class_wp c cc : sound c -> (max_inst_ c <= 2 ^ 24)%Z -> CharClass.wf cc -> CharClass.empty cc = false ->
  (forall x, Contains x cc = true -> (x <= max_rune (is_latin1 (encoding_ c)))%Z) ->
  wp (BeginRange;; add_class (ranges_ cc) (FoldsASCII cc);; EndRange) (yields ∅ c (rune_means c (fun x => Contains x cc = true))) c.
Proof.
  intros S Hmax W He Hle. apply call_bind. eapply call_mono; [by apply BeginRange_wp|]. intros [] c1 R.
  apply call_bind. eapply call_mono; [apply (add_class_wp text c S Hmax _ (FoldsASCII cc) (proj2 (wf_sep _ W)) c1 _ _ _ R)|]. intros [] c2 HA.
  eapply yields_call; [|apply EndRange_wp; [done|exact HA|]].
  - apply rune_lang_span. intros s. unfold with_runes. rewrite (rune_lang_ext c _ (fun x => Contains x cc = true)); [tauto|].
    intros x _. by apply class_runes_Contains.
  - destruct (ranges_ cc) as [|[lo hi] rs] eqn:Er; [|clear He].
    { exfalso. assert (He' : CharClass.empty cc = true) by (apply empty_ok; [done|]; intros r Hr; rewrite Er in Hr; by apply Exists_nil in Hr). congruence. }
    assert (Hok : range_ok (lo, hi)) by (pose proof (proj2 (wf_sep _ W)) as Hw; rewrite Er in Hw; by apply Forall_cons in Hw as [? _]).
    assert (Hx : Contains lo cc = true) by (apply Contains_ok; [done|]; rewrite Er; apply Exists_cons_hd; unfold in_range, range_ok in *; cbn in *; lia).
    exists (rune_string c lo). right. exists lo. split; [split; [apply Hok|by apply Hle]|]. split; [|done]. rewrite <- Er. by apply class_runes_Contains.
Qed.

(** One child. *)
Lemma frags_one c D fs R : frags_ok c D fs [R] -> exists f D1, fs = [f] /\ D1 ⊆ D /\ frag_ok c D1 f R.
Proof. destruct fs as [|f [|g fs]]; [done| |by intros (?&?&?&?&?&?&?)]. intros (D1&D2&?&_&_&?&_). eauto. Qed.

Lemma child_wp c fs f i (Q : Frag -> Compiler -> Prop) : fs !! i = Some f -> Q f c -> wp (child fs i) Q c.
Proof. intros H HQ. unfold wp, child, lift. by rewrite H. Qed.

(** A method on the fragment of the only child. *)
Lemma unary_wp c D fs R R' (m : Frag -> compiling Frag) : frags_ok c D fs [R] ->
  (forall D1 f, frag_ok c D1 f R -> wp (m f) (yields D1 c R') c) -> wp (f ← child fs 0; m f) (yields D c R') c.
Proof.
  intros H Hm. destruct (frags_one _ _ _ _ H) as (f&D1&->&HD&Hf). apply call_bind, (child_wp _ _ f); [done|].
  eapply call_mono; [by apply (Hm D1)|]. intros f' c' H'. eapply yields_after; [apply grows_refl| |exact H'].
  intros x Hx. left. set_solver.
Qed.

Lemma yields_widen D D1 c R f c' : D1 ⊆ D -> yields D1 c R f c' -> yields D c R f c'.
Proof. intros HD H. eapply yields_after; [apply grows_refl| |exact H]. intros x Hx. left. set_solver. Qed.

(** The children, joined. *)
Lemma joined_wp c D fs R Rs join J : sound c -> (forall c1 Da Db a b Ra Rb, reversed_ c1 = reversed_ c -> sound c1 -> frag_ok c1 Da a Ra ->
    frag_ok c1 Db b Rb -> Da ## Db -> wp (join a b) (yields (Da ∪ Db) c1 (J Ra Rb)) c1) -> frags_ok c D fs (R :: Rs) ->
  wp (f ← child fs 0; join_frags join f (tail fs)) (yields D c (foldl J R Rs)) c.
Proof.
  intros S HJ H. destruct fs as [|f fs]; [done|]. destruct H as (D1&D2&H1&H2&H12&Hf&Hfs).
  apply call_bind, (child_wp _ _ f); [done|]. cbn [tail].
  eapply call_mono; [by apply (join_frags_wp (reversed_ c) join J HJ fs Rs c D1 D2)|]. intros f' c'. apply yields_widen. set_solver.
Qed.

(** Literal strings. *)
Lemma string_wp c D rs f sm subs : sound c -> Forall (literal_ok (is_latin1 (encoding_ c)) f) rs ->
  wp (match rs with [] => Nop | r :: runes => F ← Literal r (flag f FoldCase); cat_literals F runes (flag f FoldCase) end)
    (visited D c (means c (Re (kRegexpLiteralString rs) f sm subs))) c.
Proof.
  intros S Hrs. destruct rs as [|r rs]; [apply (visited_call _ _ eq); [symmetry; apply oriented_eq|by apply Nop_wp]|].
  apply Forall_cons in Hrs as [Hr Hrs]. set (lit := fun r t => reads_rune (is_latin1 (encoding_ c)) t (same_letter (flag f FoldCase) r)).
  apply (visited_call _ _ (foldl (cat_span (reversed_ c)) (oriented (reversed_ c) (lit r)) ((fun r => oriented (reversed_ c) (lit r)) <$> rs))).
  - rewrite (span_eq_agree _ _ _ (foldl_cat _ _ _)). symmetry. apply (oriented_foldr_then (reversed_ c) lit (r :: rs)).
    intros a t. apply reads_rune_bounded.
  - apply call_bind. eapply call_mono; [by apply Literal_wp|]. intros F c1 H. apply cat_literals_wp; [|done]. by apply yields_empty.
Qed.

Lemma any_byte : reads_in text 0 255 false ≡ₛ fun i j => exists c, has_at text [c] i j.
Proof.
  intros i j. rewrite (reads_in_str _ _ _ i j). unfold str_span, byte_lang. split; [intros (s&(ch&->&_)&H); by exists ch|].
  intros [ch H]. exists [ch]. split; [|done]. exists ch. split; [done|]. pose proof (uchar_range ch). unfold Matches. cbn. apply bool_decide_eq_true. lia.
Qed.

(** The flags of the empty-width operators. *)
Lemma line_holds (rv : bool) :
  (forall p, p <= length text -> (if rv then begin_line (reverse text) (length text - p) else begin_line text p)
    <-> empty_holds text (if rv then kEmptyEndLine else kEmptyBeginLine) p)
  /\ (forall p, p <= length text -> (if rv then end_line (reverse text) (length text - p) else end_line text p)
    <-> empty_holds text (if rv then kEmptyBeginLine else kEmptyEndLine) p).
Proof.
  split; intros p Hp; destruct (empty_holds_spec text p) as (H1&H2&_), (line_mirror text p Hp); destruct rv; tauto.
Qed.

Lemma text_holds (rv : bool) :
  (forall p, p <= length text -> (if rv then begin_text (length text - p) else begin_text p)
    <-> empty_holds text (if rv then kEmptyEndText else kEmptyBeginText) p)
  /\ (forall p, p <= length text -> (if rv then end_text (reverse text) (length text - p) else end_text text p)
    <-> empty_holds text (if rv then kEmptyBeginText else kEmptyEndText) p).
Proof.
  split; intros p Hp; destruct (empty_holds_spec text p) as (_&_&H3&H4&_); destruct rv; rewrite ?H3, ?H4;
    unfold begin_text, end_text; rewrite ?length_reverse; lia.
Qed.

Lemma boundary_holds (rv : bool) :
  (forall p, p <= length text -> (if rv then word_boundary (reverse text) (length text - p) else word_boundary text p)
    <-> empty_holds text kEmptyWordBoundary p)
  /\ (forall p, p <= length text -> (if rv then ~ word_boundary (reverse text) (length text - p) else ~ word_boundary text p)
    <-> empty_holds text kEmptyNonWordBoundary p).
Proof.
  split; intros p Hp; destruct (empty_holds_spec text p) as (_&_&_&_&H5&H6), (word_at_mirror text p Hp) as [E1 E2];
    rewrite ?H5, ?H6; unfold word_boundary; rewrite E1, E2; destruct rv; intuition congruence.
Qed.

Lemma empty_wp c D e P : sound c ->
  (forall p, p <= length text -> (if reversed_ c then P (reverse text) (length text - p) else P text p) <-> empty_holds text e p) ->
  wp (EmptyWidth e) (visited D c (oriented (reversed_ c) (fun t => here t (P t)))) c.
Proof.
  intros S H. eapply visited_call; [|by apply EmptyWidth_wp].
  rewrite (oriented_here text (reversed_ c) P (empty_holds text e)) by done. intros i j Hi. split; [|tauto].
  intros [<- ?]. done.
Qed.

Lemma PostVisit_wp c D re parent pre fs : sound c -> (max_inst_ c <= 2 ^ 24)%Z -> re_ok (is_latin1 (encoding_ c)) re ->
  (failed_ c = false -> frags_ok c D fs (means c <$> sub_ re)) ->
  wp (PostVisit re parent pre fs) (visited D c (means c re)) c.
Proof.
  intros S Hmax Hok Hfs. unfold PostVisit. apply call_bind, call_get. destruct (failed_ c) eqn:Hf.
  { apply call_ret. split; [done|]. split; [apply grows_refl|congruence]. }
  specialize (Hfs eq_refl). destruct re as [op f sm subs]. apply re_ok_unfold in Hok as [Hop Hsubs].
  cbn [op_ parse_flags_ sub_ op_ok] in *. destruct op.
  - apply call_ret, yields_visited, NoMatch_yields; [|done]. intros _. apply oriented_false.
  - apply (visited_call _ _ eq); [symmetry; apply oriented_eq|by apply Nop_wp].
  - apply (visited_call _ _ (means c (Re (kRegexpLiteral rune) f sm subs))); [done|]. eapply call_mono; [apply Literal_wp; [done|apply Hop]|].
    intros g c'. apply yields_empty.
  - apply string_wp; [done|apply Hop].
  - destruct subs as [|re subs]; [simpl in Hop; lia|]. apply (visited_call _ _ (foldl (cat_span (reversed_ c)) (means c re) (means c <$> subs))).
    + rewrite (span_eq_agree _ _ _ (foldl_cat _ _ _)). symmetry.
      apply (oriented_foldr_then (reversed_ c) (fun re t => matches (is_latin1 (encoding_ c)) t re) (re :: subs)). intros a t. apply matches_bounded.
    + apply joined_wp; [done| |done]. intros c1 Da Db a b Ra Rb <-. apply Cat_wp.
  - destruct subs as [|re subs]; [simpl in Hop; lia|]. apply (visited_call _ _ (foldl or_ (means c re) (means c <$> subs))).
    + rewrite (span_eq_agree _ _ _ (foldl_or _ _)). symmetry.
      apply (oriented_foldr_or (reversed_ c) (fun re t => matches (is_latin1 (encoding_ c)) t re) (re :: subs)).
    + apply joined_wp; [done| |done]. intros c1 Da Db a b Ra Rb _. apply Alt_wp.
  - destruct subs as [|sub [|]]; [done| |done]. apply (visited_call _ _ (rtc (means c sub))).
    { symmetry. apply oriented_rtc. intros t. apply matches_bounded. }
    eapply unary_wp; [exact Hfs|]. intros D1 g Hg. eapply call_mono; [by apply Star_wp|]. by intros ? ? [? _].
  - destruct subs as [|sub [|]]; [done| |done]. apply (visited_call _ _ (tc (means c sub))).
    { symmetry. apply oriented_tc. intros t. apply matches_bounded. }
    eapply unary_wp; [exact Hfs|]. intros D1 g Hg. by apply Plus_wp.
  - destruct subs as [|sub [|]]; [done| |done]. apply (visited_call _ _ (or_ (means c sub) eq)).
    { symmetry. unfold means at 1. cbn [matches]. rewrite (oriented_or text (reversed_ c) (fun t => matches _ t sub) (fun _ => eq)). by rewrite (oriented_eq text). }
    eapply unary_wp; [exact Hfs|]. intros D1 g Hg. by apply Quest_wp.
  - by apply set_failed_wp.
  - destruct subs as [|sub [|]]; [done| |done]. apply (visited_call _ _ (means c sub)); [done|].
    eapply unary_wp; [exact Hfs|]. intros D1 g Hg. case_decide; [|by apply Capture_wp].
    apply call_ret. eapply same_yields; [done|exact Hg|done|done].
  - eapply visited_call; [done|]. eapply call_mono; [by apply any_char_wp|]. intros g c'. apply yields_empty.
  - eapply visited_call; [|by apply ByteRange_yields].
    unfold means. cbn [matches]. rewrite oriented_byte. apply span_eq_agree, any_byte.
  - apply (empty_wp _ _ _ begin_line); [done|]. apply line_holds.
  - apply (empty_wp _ _ _ end_line); [done|]. apply line_holds.
  - apply (empty_wp _ _ _ word_boundary); [done|]. apply boundary_holds.
  - apply (empty_wp _ _ _ (fun t i => ~ word_boundary t i)); [done|]. apply boundary_holds.
  - apply (empty_wp _ _ _ (fun _ => begin_text)); [done|]. apply text_holds.
  - apply (empty_wp _ _ _ end_text); [done|]. apply text_holds.
  - destruct Hop as (_&W&Hle). destruct (CharClass.empty cc) eqn:He; [by apply set_failed_wp|].
    eapply visited_call; [done|]. eapply call_mono; [by apply class_wp|]. intros g c'. apply yields_empty.
Qed.

(** ** The walk *)

Abbreviation walk := (walk PreVisit PostVisit Copy ShortVisit (fun _ _ => false) false).
Abbreviation walk_children := (walk_children (S := Compiler) Copy (fun _ _ => false) false walk).

Definition walks (re : Regexp) : Prop := forall parent b c, sound c -> (max_inst_ c <= 2 ^ 24)%Z -> re_ok (is_latin1 (encoding_ c)) re ->
  wp (walk re parent b) (fun x => visited ∅ c (means c re) x.1) c.

(** The fragments of the children that have been visited. *)
Definition children_ok (c0 c : Compiler) (fs : list Frag) (subs : list Regexp) : Prop :=
  failed_ c = false -> exists D, since c0 ∅ D /\ frags_ok c D fs (means c0 <$> subs).

Lemma means_grows D c c' re : grows D c c' -> means c' re = means c re.
Proof. intros G. unfold means. by rewrite (grows_encoding _ _ _ G), (grows_reversed _ _ _ G). Qed.

Lemma children_ok_next c0 c c' fs subs f sub : sound c -> grows ∅ c0 c -> children_ok c0 c fs subs ->
  visited ∅ c (means c0 sub) f c' -> children_ok c0 c' (fs ++ [f]) (subs ++ [sub]).
Proof.
  intros S G Hc (S'&G'&Hy) Hf'. destruct (Hy Hf') as (_&_&D'&Hf&N').
  assert (Hf0 : failed_ c = false) by (destruct (failed_ c) eqn:E; [apply (grows_failed _ _ _ G') in E; congruence|done]).
  destruct (Hc Hf0) as (D&N&Hfs). destruct (frags_nodes _ _ _ _ Hfs) as (D1&HD&Hfs1&N1). exists (D1 ∪ D').
  pose proof (grows_length _ _ _ G) as HL. split.
  - intros x [Hx|Hx]%elem_of_union; right; [destruct (N x) as [?%not_elem_of_empty|?]; [set_solver|done|done]|].
    destruct (N' x Hx) as [?%not_elem_of_empty|?]; [done|lia].
  - rewrite fmap_app. apply frags_ok_app; [|done|].
    + eapply frags_ok_kept; [exact S|done|exact G'|set_solver|done].
    + intros x Hx Hx'. apply N1 in Hx. destruct (N' x Hx') as [?%not_elem_of_empty|?]; [done|lia].
Qed.

Lemma walk_children_wp r pre l : forall c0 c fs subs b, Forall walks l -> sound c -> grows ∅ c0 c -> (max_inst_ c0 <= 2 ^ 24)%Z ->
  Forall (re_ok (is_latin1 (encoding_ c0))) l -> children_ok c0 c fs subs ->
  wp (walk_children r pre l fs b) (fun x c' => sound c' /\ grows ∅ c0 c' /\ children_ok c0 c' x.1 (subs ++ l)) c.
Proof.
  induction l as [|sub l IH]; intros c0 c fs subs b Hl S G Hmax Hok Hc; cbn [Walker.walk_children].
  - apply call_ret. by rewrite app_nil_r.
  - apply Forall_cons in Hl as [Hsub Hl]. apply Forall_cons in Hok as [Hok Hoks].
    assert (Hr : reused (fun _ _ => false) false r fs = None) by (unfold reused; by destruct (last fs)). rewrite Hr.
    apply call_bind. eapply call_mono; [apply Hsub; [done| |]|].
    + by rewrite (grows_max _ _ _ G).
    + by rewrite (grows_encoding _ _ _ G).
    + intros [f b'] c' H. cbn [fst] in H. rewrite (means_grows _ _ _ _ G) in H. rewrite (cons_middle sub subs l), app_assoc.
      pose proof H as (S'&G'&_). apply IH; [done|done| |done|done|by apply (children_ok_next _ c)].
      eapply grows_trans; [done|done|]. by intros x ?%not_elem_of_empty.
Qed.

Lemma walks_all re : walks re.
Proof.
  induction re as [op f sm subs IH] using Regexp_rec_subs. set (re := Re op f sm subs) in *. intros parent b c S Hmax Hok.
  rewrite walk_unfold. case_decide as Hb.
  { apply call_bind. eapply call_mono; [by apply (set_failed_wp c ∅ (means c re))|]. intros g c' H. by apply call_ret. }
  apply call_bind. unfold PreVisit. apply call_bind, call_get, call_ret. destruct (failed_ c) eqn:Hf.
  { apply call_ret. split; [done|]. split; [apply grows_refl|cbn; congruence]. }
  apply call_bind. eapply call_mono; [apply (walk_children_wp re kNullFrag (sub_ re) c c [] []); [done|done|apply grows_refl|done| |]|].
  - by apply re_ok_unfold in Hok as [_ ?].
  - intros _. exists ∅. split; [by intros x ?%not_elem_of_empty|done].
  - intros [fs b'] c' (S'&G&Hc). cbn [fst app] in Hc. apply call_bind.
    assert (HE : exists D, since c ∅ D /\ (failed_ c' = false -> frags_ok c' D fs (means c' <$> sub_ re))).
    { destruct (failed_ c') eqn:Hf'; [exists ∅; split; [by intros x ?%not_elem_of_empty|done]|].
      destruct (Hc Hf') as (D&N&H). exists D. split; [done|]. intros _.
      by rewrite (list_fmap_ext (means c') (means c)) by (intros; by eapply means_grows). }
    destruct HE as (D&N&H). eapply call_mono; [apply (PostVisit_wp c' D); [done| | |done]|].
    + by rewrite (grows_max _ _ _ G).
    + by rewrite (grows_encoding _ _ _ G).
    + intros g c'' (S2&G2&Hy). apply call_ret. rewrite (means_grows _ _ _ _ G) in Hy. split; [done|].
      split; [by eapply grows_trans|]. intros Hf2. by eapply yields_after; [| |by apply Hy].
Qed.

(** The whole expression. *)
Lemma WalkExponential_wp re max_visits c : sound c -> (max_inst_ c <= 2 ^ 24)%Z -> re_ok (is_latin1 (encoding_ c)) re ->
  wp (WalkExponential PreVisit PostVisit Copy ShortVisit (fun _ _ => false) re kNullFrag max_visits)
    (fun x => visited ∅ c (means c re) x.1) c.
Proof.
  intros S Hmax Hok. unfold wp, WalkExponential. unfold WalkInternal. rewrite WalkInternal_walk by lia.
  pose proof (walks_all re kNullFrag (max_visits, false) c S Hmax Hok) as H. revert H. unfold wp, mbind, comp_bind.
  by destruct (walk re kNullFrag _ c) as [[[f b] c']|].
Qed.
End nodes.
