(* ===== verification/Optimize.v ===== *)
(** * The peep-hole optimizer: [Prog::Optimize] of src/libs/re2/src/re2/prog.cc

    Words that point to a [kInstNop] are changed to point behind it, and an
    alternative that is a loop over all bytes or a match is marked as such.
    What is accepted from an instruction stays the same. *)

From stdpp Require Import gmap fin_sets relations.
From S2P Require Import Prelude Rune CharClass Regexp RegexpSem Walker Prog Compile CompileSem CompileFrags.

#[local] Open Scope nat_scope.
#[local] Open Scope xap_scope.

(** ** The code *)

(** A word that is read as an [Inst *]. *)
Definition as_ptr (w : word) : outcome ptr :=
  match w with NULL => Ret None | ToInst id => Ret (Some id) | ToSlot _ => Throw BadAddress end.

Definition inst_of (prog : list Inst) (x : nat) : outcome Inst := from_option_or BadAddress (prog !! x).
Definition inst_at (prog : list Inst) (p : ptr) : outcome Inst := x ← from_option_or NullDeref p; inst_of prog x.

(** [Workq], a [SparseArray<Inst*>], is the list of its entries in order. *)
Definition Workq : Type := list nat.
Definition AddToQueue (q : Workq) (p : ptr) : Workq :=
  match p with Some x => if decide (x ∈ q) then q else q ++ [x] | None => q end.

(** [while (j != NULL && j->opcode() == kInstNop) j = j->out();] *)
Fixpoint skip_nops (fuel : nat) (prog : list Inst) (j : ptr) : outcome ptr :=
  match j with
  | None => Ret None
  | Some x =>
      ip ← inst_of prog x;
      if is_Nop (opcode_ ip) then
        match fuel with
        | O => Throw OutOfFuel
        | S fuel' => j ← as_ptr (out_ ip); skip_nops fuel' prog j
        end
      else Ret j
  end.

(** One word of [ip], and the queue. *)
Definition shorten (prog : list Inst) (q : Workq) (l : loc) : outcome (list Inst * Workq) :=
  w ← read_word prog l;
  j ← as_ptr w;
  j ← skip_nops (length prog) prog j;
  prog ← write_word prog l (word_of j);
  Ret (prog, AddToQueue q j).

Fixpoint nop_loop (fuel : nat) (prog : list Inst) (q : Workq) (i : nat) : outcome (list Inst) :=
  match q !! i with
  | None => Ret prog
  | Some x =>
      match fuel with
      | O => Throw OutOfFuel
      | S fuel' =>
          ip ← inst_of prog x;
          '(prog, q) ← shorten prog q (x, Out);
          '(prog, q) ← (match opcode_ ip with kInstAlt _ => shorten prog q (x, Out1) | _ => Ret (prog, q) end);
          nop_loop fuel' prog q (S i)
      end
  end.

(** Unknown opcodes do not occur. *)
Fixpoint IsMatch (fuel : nat) (prog : list Inst) (p : ptr) : outcome bool :=
  ip ← inst_at prog p;
  match opcode_ ip with
  | kInstAlt _ | kInstAltMatch _ | kInstByteRange _ _ _ | kInstFail | kInstEmptyWidth _ => Ret false
  | kInstCapture _ | kInstNop =>
      match fuel with
      | O => Throw OutOfFuel
      | S fuel' => p ← as_ptr (out_ ip); IsMatch fuel' prog p
      end
  | kInstMatch => Ret true
  end.

(** [j] is a loop over all bytes back to [x]. *)
Definition loops_back (prog : list Inst) (j : ptr) (x : nat) : outcome bool :=
  ip ← inst_at prog j;
  match opcode_ ip with
  | kInstByteRange lo hi _ => Ret (bool_decide (out_ ip = ToInst x) && bool_decide (lo = 0x00%Z) && bool_decide (hi = 0xFF%Z))
  | _ => Ret false
  end.

Definition set_AltMatch (ip : Inst) : Inst :=
  match opcode_ ip with kInstAlt w => MkInst (kInstAltMatch w) (out_ ip) | _ => ip end.

(** The alternative at [x], with the operands of [&&] from left to right. *)
Definition mark_alt (prog : list Inst) (x : nat) (ip : Inst) (j k : ptr) : outcome (list Inst) :=
  let marked := Ret (<[x := set_AltMatch ip]> prog) in
  b ← loops_back prog j x;
  m ← (if (b : bool) then IsMatch (length prog) prog k else Ret false);
  if (m : bool) then marked else
  m ← IsMatch (length prog) prog j;
  b ← (if (m : bool) then loops_back prog k x else Ret false);
  if (b : bool) then marked else Ret prog.

Fixpoint alt_loop (fuel : nat) (prog : list Inst) (q : Workq) (i : nat) : outcome (list Inst) :=
  match q !! i with
  | None => Ret prog
  | Some x =>
      match fuel with
      | O => Throw OutOfFuel
      | S fuel' =>
          ip ← inst_of prog x;
          j ← as_ptr (out_ ip);
          let q := AddToQueue q j in
          match opcode_ ip with
          | kInstAlt w =>
              k ← as_ptr w;
              let q := AddToQueue q k in
              prog ← mark_alt prog x ip j k;
              alt_loop fuel' prog q (S i)
          | _ => alt_loop fuel' prog q (S i)
          end
      end
  end.

(** Each instruction is in the queue once. *)
Definition Optimize (prog : list Inst) (start : ptr) : outcome (list Inst) :=
  prog ← nop_loop (length prog) prog (AddToQueue [] start) 0;
  alt_loop (length prog) prog (AddToQueue [] start) 0.

(** ** What is accepted *)

Section text.
Context (text : bytes).

(** Started at instruction [x], the program finds a match from [i] to [j]. *)
Definition accepts (prog : list Inst) (x : nat) : span := fun i j =>
  exists m, op_at prog m = Some kInstMatch /\ rtc (steps text prog) (x, i) (m, j).

Lemma steps_iff prog x i y j : steps text prog (x, i) (y, j) <->
  exists f, target prog (x, f) = Some (ToInst y) /\ moves text prog (x, f) i j.
Proof.
  unfold steps, target, moves, op_at. cbn. split.
  - intros (ip&f&->&Hs&Hl). exists f. split; [done|]. eexists. split; [done|]. by apply leaves_kind.
  - destruct (prog !! x) as [ip|]; [|by intros (?&?&_)]. intros (f&Hs&op&[= <-]&Hl). exists ip, f. split_and!; [done..|]. by apply leaves_kind.
Qed.

(** Instruction [y] is a [kInstNop] that goes to [z]. *)
Definition nop_to (prog : list Inst) (y z : nat) : Prop := op_at prog y = Some kInstNop /\ target prog (y, Out) = Some (ToInst z).

Lemma nop_steps prog y z i : rtc (nop_to prog) y z -> rtc (steps text prog) (y, i) (z, i).
Proof.
  induction 1 as [|y k z [Ho Ht] _ IH]; [done|]. eapply rtc_l; [|exact IH]. apply steps_iff. exists Out. split; [done|].
  by apply (moves_op _ _ _ _ _ _ _ Ho).
Qed.

(** A run passes the end of a chain of [kInstNop]s that it enters. *)
Lemma nop_passed prog y z m i j n : rtc (nop_to prog) y z -> op_at prog m = Some kInstMatch ->
  nsteps (steps text prog) n (y, i) (m, j) -> exists n', n' <= n /\ nsteps (steps text prog) n' (z, i) (m, j).
Proof.
  intros Hc Hm. revert n. induction Hc as [|y k z [Ho Ht] _ IH]; intros n H; [by exists n|].
  inversion H as [|n0 ? [k' i'] ? Hs Hr]; subst; [congruence|].
  apply steps_iff in Hs as (f&Ht'&Hmv). rewrite (moves_op _ _ _ _ _ _ _ Ho) in Hmv. destruct Hmv as [-> <-].
  assert (k' = k) as -> by congruence. destruct (IH _ Hr) as (n'&?&?). exists n'. split; [lia|done].
Qed.

(** [prog'] is [prog] with some words behind the [kInstNop]s they pointed to,
    and some alternatives marked. *)
Record shortened (prog prog' : list Inst) : Prop := {
  sh_length : length prog' = length prog;
  sh_op x : op_at prog' x = op_at prog x \/ (op_at prog x = Some (kInstAlt NULL) /\ op_at prog' x = Some (kInstAltMatch NULL));
  sh_target l : target prog' l = target prog l
    \/ exists y z, target prog l = Some (ToInst y) /\ target prog' l = Some (ToInst z) /\ rtc (nop_to prog) y z;
}.

Lemma sh_moves prog prog' l i j : shortened prog prog' -> moves text prog' l i j <-> moves text prog l i j.
Proof.
  intros S. unfold moves. destruct (sh_op _ _ S l.1) as [->|[-> ->]]; [done|].
  split; intros (op&[= <-]&H); by eexists.
Qed.

Lemma sh_match prog prog' x : shortened prog prog' -> op_at prog' x = Some kInstMatch <-> op_at prog x = Some kInstMatch.
Proof. intros S. destruct (sh_op _ _ S x) as [->|[-> ->]]; done. Qed.

Lemma sh_steps prog prog' a b : shortened prog prog' -> steps text prog' a b -> rtc (steps text prog) a b.
Proof.
  intros S. destruct a as [x i], b as [y j]. rewrite steps_iff. intros (f&Ht&Hm). rewrite (sh_moves _ _ _ _ _ S) in Hm.
  destruct (sh_target _ _ S (x, f)) as [E|(k&z&Hk&Hz&Hc)].
  - rewrite E in Ht. apply rtc_once, steps_iff. by exists f.
  - rewrite Hz in Ht. injection Ht as ->. eapply rtc_l; [apply steps_iff; by exists f|]. by apply nop_steps.
Qed.

Lemma sh_accepts prog prog' x : shortened prog prog' -> accepts prog' x ≡ₛ accepts prog x.
Proof.
  intros S i j. unfold accepts. split.
  - intros (m&Hm&Hr). exists m. split; [by apply (sh_match _ _ _ S)|]. induction Hr as [|a b c Hab _ IH]; [done|].
    etrans; [by eapply sh_steps|done].
  - intros (m&Hm&[n Hr]%rtc_nsteps). exists m. split; [by apply (sh_match _ _ _ S)|]. revert x i Hr.
    induction (lt_wf n) as [n _ IH]. intros x i Hr. inversion Hr as [|n0 ? [y k] ? Hs Hr']; subst; [done|].
    apply steps_iff in Hs as (f&Ht&Hmv). rewrite <- (sh_moves _ _ _ _ _ S) in Hmv.
    destruct (sh_target _ _ S (x, f)) as [E|(y'&z&Hk&Hz&Hc)].
    + eapply rtc_l; [apply steps_iff; exists f; by rewrite E|]. eapply IH; [|done]. lia.
    + assert (y' = y) as -> by congruence. destruct (nop_passed _ _ _ _ _ _ _ Hc Hm Hr') as (n'&Hn&Hz').
      eapply rtc_l; [apply steps_iff; by exists f|]. eapply IH; [|done]. lia.
Qed.
End text.

(** ** Programs that are complete *)

(** What is reached from the start has no open words and no cycle of steps
    without a choice. *)
Record complete (D : gset nat) (prog : list Inst) : Prop := {
  co_nodes x : inside D x -> x < length prog;
  co_words x f w : inside D x -> target prog (x, f) = Some w ->
    (exists y, w = ToInst y /\ inside D y) \/ (w = NULL /\ (op_at prog x = Some kInstMatch \/ op_at prog x = Some kInstFail));
  co_silent x : inside D x -> Acc (silent prog) x;
}.

Lemma Acc_tc {A} (R : relation A) x : Acc R x -> Acc (tc R) x.
Proof.
  induction 1 as [x _ IH]. constructor. intros y Hy. revert IH. induction Hy as [y x H|y k x H Hk IHk]; intros IH; [by apply IH|].
  specialize (IHk IH). apply IHk. by apply tc_once.
Qed.

Lemma nop_silent prog y z : nop_to prog y z -> silent prog z y.
Proof. intros [Ho Ht]. split; [|done]. exists kInstNop. split; [done|by left]. Qed.

Lemma nops_silent prog y z : rtc (nop_to prog) y z -> rtc (silent prog) z y.
Proof. induction 1 as [|y k z H _ IH]; [done|]. eapply rtc_r; [done|by apply nop_silent]. Qed.

Lemma nops_inside D prog y z : complete D prog -> inside D y -> rtc (nop_to prog) y z -> inside D z.
Proof.
  intros C Hy H. revert Hy. induction H as [|y k z [Ho Ht] _ IH]; intros Hy; [done|]. apply IH.
  destruct (co_words _ _ C _ _ _ Hy Ht) as [(?&[= <-]&?)|[? _]]; done.
Qed.

Lemma sh_complete D prog prog' : shortened prog prog' -> complete D prog -> complete D prog'.
Proof.
  intros S C. split.
  - intros x Hx. rewrite (sh_length _ _ S). by apply (co_nodes _ _ C).
  - intros x f w Hx Ht. destruct (sh_target _ _ S (x, f)) as [E|(y&z&Hy&Hz&Hc)].
    + rewrite E in Ht. destruct (co_words _ _ C _ _ _ Hx Ht) as [?|[? Ho]]; [by left|right]. split; [done|].
      destruct (sh_op _ _ S x) as [->|[E1 _]]; [done|]. rewrite E1 in Ho. by destruct Ho.
    + rewrite Hz in Ht. injection Ht as <-. left. exists z. split; [done|].
      destruct (co_words _ _ C _ _ _ Hx Hy) as [(?&[= <-]&?)|[? _]]; [|done]. by eapply nops_inside.
  - intros x Hx. pose proof (Acc_tc _ _ (co_silent _ _ C x Hx)) as A. clear Hx. induction A as [x _ IH]. constructor.
    intros y [(op&Ho&Hs) Ht]. apply IH.
    assert (Ho' : op_at prog x = Some op).
    { destruct (sh_op _ _ S x) as [<-|[_ E]]; [done|]. rewrite E in Ho. injection Ho as <-. by destruct Hs as [?|[? ?]]. }
    destruct (sh_target _ _ S (x, Out)) as [E|(k&z&Hk&Hz&Hc)].
    + rewrite E in Ht. apply tc_once. split; [by exists op|done].
    + rewrite Hz in Ht. injection Ht as ->. eapply tc_rtc_l; [by apply nops_silent|]. apply tc_once. split; [by exists op|done].
Qed.

Lemma sh_refl prog : shortened prog prog.
Proof. split; [done|by left|by left]. Qed.

Lemma Acc_irrefl {A} (R : relation A) x : Acc R x -> ~ R x x.
Proof. induction 1 as [x _ IH]. intros H. by apply (IH x H). Qed.

Lemma NoDup_below (V : list nat) n : NoDup V -> (forall x, x ∈ V -> x < n) -> length V <= n.
Proof.
  intros Hnd H. rewrite <- (length_seq n 0). apply submseteq_length, NoDup_submseteq; [done|].
  intros x Hx%H. apply elem_of_seq. lia.
Qed.

Lemma silent_room D prog V y : complete D prog -> inside D y -> NoDup V ->
  (forall v, v ∈ V -> v < length prog /\ tc (silent prog) y v) -> NoDup (y :: V) /\ length V < length prog.
Proof.
  intros C Hy Hnd HV. assert (Hn : NoDup (y :: V)).
  { apply NoDup_cons. split; [|done]. intros [_ H]%HV. by apply (Acc_irrefl _ _ (Acc_tc _ _ (co_silent _ _ C y Hy))) in H. }
  split; [done|]. apply (NoDup_below (y :: V)); [done|]. intros x [->|?%HV]%elem_of_cons; [by apply (co_nodes _ _ C)|tauto].
Qed.

Lemma silent_next D prog V y z : inside D y -> complete D prog -> silent prog z y ->
  (forall v, v ∈ V -> v < length prog /\ tc (silent prog) y v) ->
  forall v, v ∈ y :: V -> v < length prog /\ tc (silent prog) z v.
Proof.
  intros Hy C Hs HV v [->|Hv]%elem_of_cons; [split; [by apply (co_nodes _ _ C)|by apply tc_once]|].
  destruct (HV v Hv). split; [done|]. by eapply tc_l.
Qed.

(** An instruction that is passed silently. *)
Lemma silent_inst D prog y ip op : complete D prog -> inside D y -> prog !! y = Some ip -> opcode_ ip = op -> silent_op op ->
  exists z, out_ ip = ToInst z /\ inside D z /\ silent prog z y.
Proof.
  intros C Hy Hip Hop Hs. assert (Ho : op_at prog y = Some op).
  { unfold op_at. rewrite Hip. cbn. rewrite Hop. by destruct Hs as [->|[? ->]]. }
  assert (Ht : target prog (y, Out) = Some (out_ ip)) by (unfold target; cbn; by rewrite Hip).
  destruct (co_words _ _ C _ _ _ Hy Ht) as [(z&E&Hz)|[_ [E|E]]].
  - exists z. split; [done|]. split; [done|]. split; [by exists op|by rewrite <- E].
  - rewrite Ho in E. injection E as ->. by destruct Hs as [?|[? ?]].
  - rewrite Ho in E. injection E as ->. by destruct Hs as [?|[? ?]].
Qed.

Lemma inst_of_inside D prog x : complete D prog -> inside D x -> exists ip, prog !! x = Some ip /\ inst_of prog x = Ret ip.
Proof.
  intros C Hx. destruct (lookup_lt_is_Some_2 prog x (co_nodes _ _ C x Hx)) as [ip Hip]. exists ip. split; [done|].
  unfold inst_of. by rewrite Hip.
Qed.

Lemma skip_nops_spec D prog : complete D prog -> forall fuel V y, inside D y -> NoDup V ->
  (forall v, v ∈ V -> v < length prog /\ tc (silent prog) y v) -> length prog <= length V + fuel ->
  exists z, skip_nops fuel prog (Some y) = Ret (Some z) /\ rtc (nop_to prog) y z /\ inside D z.
Proof.
  intros C. induction fuel as [|fuel IH]; intros V y Hy Hnd HV Hl; destruct (silent_room _ _ _ _ C Hy Hnd HV) as [Hnd' Hlt]; [lia|].
  destruct (inst_of_inside _ _ _ C Hy) as (ip&Hip&E). cbn [skip_nops]. rewrite E. cbn [mbind outcome_bind].
  destruct (is_Nop (opcode_ ip)) eqn:En; [|by exists y].
  assert (Hop : opcode_ ip = kInstNop) by (by destruct (opcode_ ip)).
  destruct (silent_inst _ _ _ _ _ C Hy Hip Hop (or_introl eq_refl)) as (z&->&Hz&Hs). cbn [as_ptr mbind outcome_bind].
  destruct (IH (y :: V) z Hz Hnd' (silent_next _ _ _ _ _ Hy C Hs HV) ltac:(cbn; lia)) as (z'&->&Hc&Hz').
  exists z'. split; [done|]. split; [|done]. eapply rtc_l; [|exact Hc]. split; [|apply Hs]. unfold op_at. rewrite Hip. cbn. by rewrite Hop.
Qed.

Lemma IsMatch_spec text D prog : complete D prog -> forall fuel V y, inside D y -> NoDup V ->
  (forall v, v ∈ V -> v < length prog /\ tc (silent prog) y v) -> length prog <= length V + fuel ->
  exists b, IsMatch fuel prog (Some y) = Ret b /\ (b = true -> forall i, accepts text prog y i i).
Proof.
  intros C. induction fuel as [|fuel IH]; intros V y Hy Hnd HV Hl; destruct (silent_room _ _ _ _ C Hy Hnd HV) as [Hnd' Hlt]; [lia|].
  destruct (inst_of_inside _ _ _ C Hy) as (ip&Hip&E).
  assert (Hsil : silent_op (opcode_ ip) -> exists b, (p ← as_ptr (out_ ip); IsMatch fuel prog p) = Ret b
      /\ (b = true -> forall i, accepts text prog y i i)).
  { intros Hs. destruct (silent_inst _ _ _ _ _ C Hy Hip eq_refl Hs) as (z&->&Hz&Hzy). cbn [as_ptr mbind outcome_bind].
    destruct (IH (y :: V) z Hz Hnd' (silent_next _ _ _ _ _ Hy C Hzy HV) ltac:(cbn; lia)) as (b&->&Hb). exists b. split; [done|].
    intros H i. destruct (Hb H i) as (m&Hm&Hr). exists m. split; [done|]. eapply rtc_l; [|exact Hr]. apply steps_iff. exists Out.
    split; [apply Hzy|]. destruct Hzy as [(op&Ho&Hop) _]. exists op. split; [done|]. by destruct Hop as [->|[? ->]]. }
  cbn [IsMatch]. unfold inst_at. cbn [from_option_or mbind outcome_bind]. rewrite E. cbn [mbind outcome_bind].
  destruct (opcode_ ip) eqn:Hop; try (by exists false).
  - apply Hsil. right. eauto.
  - exists true. split; [done|]. intros _ i. exists y. split; [|done]. unfold op_at. rewrite Hip. cbn. by rewrite Hop.
  - apply Hsil. by left.
Qed.

(** ** The loops *)

Section loops.
Context (text : bytes).

(** From a marked alternative there is a match to every later position. *)
Definition alt_matches (prog : list Inst) : Prop := forall x i j,
  op_at prog x = Some (kInstAltMatch NULL) -> i <= j <= length text -> accepts text prog x i j.

(** The new mark is right. *)
Definition marks_ok (prog prog' : list Inst) : Prop := forall x, op_at prog' x = Some (kInstAltMatch NULL) ->
  op_at prog x = Some (kInstAltMatch NULL) \/ forall i j, i <= j <= length text -> accepts text prog x i j.

Lemma alt_matches_kept prog prog' : shortened prog prog' -> marks_ok prog prog' -> alt_matches prog -> alt_matches prog'.
Proof.
  intros S M H x i j [Hx|Hx]%M Hij; apply (sh_accepts text _ _ x S i j); [by apply H|by apply Hx].
Qed.

(** What the optimizer does to a program. *)
Definition optimized (D : gset nat) (prog prog' : list Inst) : Prop :=
  complete D prog' /\ length prog' = length prog /\ (alt_matches prog -> alt_matches prog')
  /\ (forall x op, op_at prog' x = Some op -> op_at prog x = Some op \/ op = kInstAltMatch NULL)
  /\ forall x, accepts text prog' x ≡ₛ accepts text prog x.

Lemma optimized_refl D prog : complete D prog -> optimized D prog prog.
Proof. intros C. split; [done|]. split; [done|]. split; [done|]. split; [by left|]. by intros x. Qed.

Lemma optimized_next D prog prog1 (o : outcome (list Inst)) : complete D prog -> shortened prog prog1 -> marks_ok prog prog1 ->
  (exists prog', o = Ret prog' /\ optimized D prog1 prog') -> exists prog', o = Ret prog' /\ optimized D prog prog'.
Proof.
  intros C S M (prog'&->&C'&L'&H'&O'&A'). exists prog'. split; [done|]. split; [done|]. split; [by rewrite L', (sh_length _ _ S)|].
  split; [intros H; by apply H', (alt_matches_kept prog)|]. split.
  { intros x op [Ho| ->]%O'; [|by right]. destruct (sh_op _ _ S x) as [<-|[_ E]]; [by left|right; congruence]. }
  intros x. by rewrite A', (sh_accepts text _ _ x S).
Qed.

(** What is in the queue. *)
Definition queue_ok (D : gset nat) (q : Workq) : Prop := NoDup q /\ forall x, x ∈ q -> inside D x.

Lemma AddToQueue_ok D q p : queue_ok D q -> (forall x, p = Some x -> inside D x) -> queue_ok D (AddToQueue q p).
Proof.
  intros [Hn Hq] Hp. destruct p as [x|]; cbn; [|done]. case_decide as Hx; [done|]. split.
  - apply NoDup_app. split; [done|]. split; [|apply NoDup_singleton]. intros y Hy ->%list_elem_of_singleton. done.
  - intros y [?| ->%list_elem_of_singleton]%elem_of_app; auto.
Qed.

Lemma queue_bound D q prog : queue_ok D q -> complete D prog -> length q <= length prog.
Proof. intros [Hn Hq] C. apply NoDup_below; [done|]. intros x Hx. by apply (co_nodes _ _ C), Hq. Qed.

Lemma read_target prog l w : target prog l = Some w -> read_word prog l = Ret w.
Proof. unfold target, read_word. by intros ->. Qed.

Lemma shorten_spec D prog q x f : complete D prog -> queue_ok D q -> inside D x -> is_Some (target prog (x, f)) ->
  exists prog' q', shorten prog q (x, f) = Ret (prog', q') /\ shortened prog prog' /\ marks_ok prog prog' /\ queue_ok D q'.
Proof.
  intros C Q Hx [w Ht]. unfold shorten. rewrite (read_target _ _ _ Ht). cbn [mbind outcome_bind].
  assert (Hj : exists p p', as_ptr w = Ret p /\ skip_nops (length prog) prog p = Ret p' /\ w = word_of p
    /\ (p = p' \/ exists y z, p = Some y /\ p' = Some z /\ rtc (nop_to prog) y z) /\ forall y, p' = Some y -> inside D y).
  { destruct (co_words _ _ C _ _ _ Hx Ht) as [(y&->&Hy)|[-> _]].
    - destruct (skip_nops_spec _ _ C (length prog) [] y Hy ltac:(constructor) ltac:(by intros v ?%not_elem_of_nil) ltac:(cbn; lia)) as (z&E&Hc&Hz).
      exists (Some y), (Some z). split_and!; [done..|right; eauto|by intros ? [= <-]].
    - exists None, None. split_and!; [done| |done|by left|done]. by destruct (length prog). }
  destruct Hj as (p&p'&->&E&->&Hp&Hin). cbn [mbind outcome_bind]. rewrite E. cbn [mbind outcome_bind].
  destruct (write_word_spec prog (x, f) (word_of p') ltac:(by eexists)) as (prog'&->&P). cbn [mbind outcome_bind].
  exists prog', (AddToQueue q p'). split; [done|]. split; [|split; [intros y; rewrite (patched_op _ _ _ _ P); by left|by apply AddToQueue_ok]].
  split; [apply P|by left; apply P|].
  intros l. rewrite (patched_target _ _ _ _ P). case_decide as Hl; [|by left]. apply list_elem_of_singleton in Hl as ->.
  destruct Hp as [->|(y&z&->&->&Hc)]; [by left|right]. by exists y, z.
Qed.

Lemma nop_loop_spec D : forall fuel prog q i, complete D prog -> queue_ok D q -> length prog <= fuel + i ->
  exists prog', nop_loop fuel prog q i = Ret prog' /\ optimized D prog prog'.
Proof.
  induction fuel as [|fuel IH]; intros prog q i C Q Hl; cbn [nop_loop]; destruct (q !! i) as [x|] eqn:Hi;
    try (exists prog; split; [done|by apply optimized_refl]).
  { pose proof (queue_bound _ _ _ Q C). apply lookup_lt_Some in Hi. lia. }
  pose proof (proj2 Q x (list_elem_of_lookup_2 _ _ _ Hi)) as Hx. destruct (inst_of_inside _ _ _ C Hx) as (ip&Hip&->). cbn [mbind outcome_bind].
  destruct (shorten_spec D prog q x Out C Q Hx) as (prog1&q1&->&S1&M1&Q1); [unfold target; cbn; by rewrite Hip; eexists|]. cbn [mbind outcome_bind].
  pose proof (sh_complete _ _ _ S1 C) as C1.
  assert (H2 : exists prog2 q2, (match opcode_ ip with kInstAlt _ => shorten prog1 q1 (x, Out1) | _ => Ret (prog1, q1) end) = Ret (prog2, q2)
    /\ shortened prog1 prog2 /\ marks_ok prog1 prog2 /\ queue_ok D q2).
  { destruct (opcode_ ip) eqn:Hop; try (by exists prog1, q1; split_and!; [done|apply sh_refl|by left|done]).
    apply (shorten_spec D); [done..|]. destruct (sh_target _ _ S1 (x, Out1)) as [->|(?&z&_&->&_)]; [|by eexists].
    unfold target. cbn. rewrite Hip. cbn. unfold slot. rewrite Hop. by eexists. }
  destruct H2 as (prog2&q2&->&S2&M2&Q2). cbn [mbind outcome_bind].
  pose proof (sh_length _ _ S1) as L1. pose proof (sh_length _ _ S2) as L2.
  apply (optimized_next D prog prog1); [done..|]. apply (optimized_next D prog1 prog2); [done..|].
  apply IH; [by eapply sh_complete|done|lia].
Qed.

(** ** Alternatives of a loop over all bytes and a match *)

Lemma alt_of prog x ip w : prog !! x = Some ip -> opcode_ ip = kInstAlt w ->
  op_at prog x = Some (kInstAlt NULL) /\ target prog (x, Out) = Some (out_ ip) /\ target prog (x, Out1) = Some w.
Proof. intros Hip Hop. unfold op_at, target, slot. cbn. rewrite Hip. cbn. by rewrite Hop. Qed.

Lemma accepts_alt prog x f y i j : op_at prog x = Some (kInstAlt NULL) -> target prog (x, f) = Some (ToInst y) ->
  accepts text prog y i j -> accepts text prog x i j.
Proof.
  intros Ho Ht (m&Hm&Hr). exists m. split; [done|]. eapply rtc_l; [|exact Hr]. apply steps_iff. exists f. split; [done|].
  by apply (moves_op _ _ _ _ _ _ _ Ho).
Qed.

Lemma all_bytes prog x f g y z : op_at prog x = Some (kInstAlt NULL) ->
  target prog (x, f) = Some (ToInst y) -> target prog (x, g) = Some (ToInst z) ->
  loops_back prog (Some y) x = Ret true -> (forall i, accepts text prog z i i) ->
  forall i j, i <= j <= length text -> accepts text prog x i j.
Proof.
  intros Ho Hf Hg Hl Hz i j Hij. remember (j - i) as d eqn:Ed. revert i Hij Ed. induction d as [|d IH]; intros i Hij Ed.
  - assert (i = j) as -> by lia. by apply (accepts_alt prog x g z).
  - apply (accepts_alt prog x f y); [done..|]. destruct (IH (S i)) as (m&Hm&Hr); [lia|lia|]. exists m. split; [done|].
    eapply rtc_l; [|exact Hr]. unfold loops_back, inst_at, inst_of in Hl. cbn [from_option_or mbind outcome_bind] in Hl.
    destruct (prog !! y) as [ip|] eqn:Hy; [|done]. cbn in Hl. destruct (opcode_ ip) eqn:Hop; try done. injection Hl as Hl.
    apply andb_true_iff in Hl as [[E1%bool_decide_eq_true ->%bool_decide_eq_true]%andb_true_iff ->%bool_decide_eq_true].
    destruct (lookup_lt_is_Some_2 text i ltac:(lia)) as [c Hc]. exists ip, Out. cbn. rewrite Hy, E1, Hop. split_and!; [done..|].
    split; [done|]. split; [done|]. exists c. split; [done|]. pose proof (uchar_range c). unfold Matches.
    destruct foldcase; cbn [andb]; apply bool_decide_eq_true; [case_bool_decide|]; lia.
Qed.

Lemma set_AltMatch_shortened prog x ip w : prog !! x = Some ip -> opcode_ ip = kInstAlt w ->
  let prog' := <[x := set_AltMatch ip]> prog in shortened prog prog'
  /\ forall y, op_at prog' y = Some (kInstAltMatch NULL) -> op_at prog y = Some (kInstAltMatch NULL) \/ y = x.
Proof.
  intros Hip Hop prog'. destruct (alt_of _ _ _ _ Hip Hop) as (Ho&T0&T1). pose proof (lookup_lt_Some _ _ _ Hip) as Hlt.
  assert (Hx : prog' !! x = Some (MkInst (kInstAltMatch w) (out_ ip))).
  { unfold prog', set_AltMatch. rewrite Hop. by apply list_lookup_insert_eq. }
  assert (Hy : forall y, y <> x -> prog' !! y = prog !! y) by (intros y Hy; by apply list_lookup_insert_ne).
  split; [split|].
  - apply length_insert.
  - intros y. destruct (decide (y = x)) as [->|E]; [right|left; unfold op_at; by rewrite Hy].
    split; [done|]. unfold op_at. by rewrite Hx.
  - intros [y f]. left. destruct (decide (y = x)) as [->|E]; [|unfold target; cbn; by rewrite Hy].
    destruct f; rewrite ?T0, ?T1; unfold target; cbn; by rewrite Hx.
  - intros y H. destruct (decide (y = x)) as [->|E]; [by right|left]. revert H. unfold op_at. by rewrite Hy.
Qed.

Lemma mark_alt_spec D prog x ip w y z : complete D prog -> prog !! x = Some ip -> opcode_ ip = kInstAlt w ->
  out_ ip = ToInst y -> w = ToInst z -> inside D y -> inside D z ->
  exists prog', mark_alt prog x ip (Some y) (Some z) = Ret prog' /\ shortened prog prog' /\ marks_ok prog prog'.
Proof.
  intros C Hip Hop Hy Hz Iy Iz. destruct (alt_of _ _ _ _ Hip Hop) as (Ho&T0&T1). rewrite Hy in T0. rewrite Hz in T1.
  destruct (set_AltMatch_shortened _ _ _ _ Hip Hop) as [S M]. unfold mark_alt.
  assert (HL : forall v, inside D v -> exists b, loops_back prog (Some v) x = Ret b).
  { intros v Hv. destruct (inst_of_inside _ _ _ C Hv) as (ipv&_&E). unfold loops_back, inst_at. cbn [from_option_or mbind outcome_bind].
    rewrite E. cbn [mbind outcome_bind]. destruct (opcode_ ipv); by eexists. }
  assert (HM : forall v, inside D v -> exists b, IsMatch (length prog) prog (Some v) = Ret b /\ (b = true -> forall i, accepts text prog v i i)).
  { intros v Hv. apply (IsMatch_spec text D prog C (length prog) [] v Hv); [constructor|by intros ? ?%not_elem_of_nil|cbn; lia]. }
  assert (Hdone : (forall i j, i <= j <= length text -> accepts text prog x i j) -> exists prog', Ret (<[x := set_AltMatch ip]> prog) = Ret prog'
    /\ shortened prog prog' /\ marks_ok prog prog').
  { intros H. eexists. split; [done|]. split; [done|]. intros v [?| ->]%M; [by left|by right]. }
  assert (Hsame : exists prog', Ret prog = Ret prog' /\ shortened prog prog' /\ marks_ok prog prog').
  { exists prog. split; [done|]. split; [apply sh_refl|]. intros v ?. by left. }
  destruct (HL y Iy) as [b1 E1], (HL z Iz) as [b2 E2], (HM y Iy) as (m1&F1&A1), (HM z Iz) as (m2&F2&A2).
  rewrite E1, F1, E2, F2. cbn [mbind outcome_bind].
  destruct b1, m2, m1, b2; cbn [mbind outcome_bind]; try exact Hsame; apply Hdone.
  all: (apply (all_bytes prog x Out Out1 y z); [done..|by apply A2]) || (apply (all_bytes prog x Out1 Out z y); [done..|by apply A1]).
Qed.

Lemma alt_loop_spec D : forall fuel prog q i, complete D prog -> queue_ok D q -> length prog <= fuel + i ->
  exists prog', alt_loop fuel prog q i = Ret prog' /\ optimized D prog prog'.
Proof.
  induction fuel as [|fuel IH]; intros prog q i C Q Hl; cbn [alt_loop]; destruct (q !! i) as [x|] eqn:Hi;
    try (exists prog; split; [done|by apply optimized_refl]).
  { pose proof (queue_bound _ _ _ Q C). apply lookup_lt_Some in Hi. lia. }
  pose proof (proj2 Q x (list_elem_of_lookup_2 _ _ _ Hi)) as Hx. destruct (inst_of_inside _ _ _ C Hx) as (ip&Hip&->). cbn [mbind outcome_bind].
  assert (HP : forall f w, target prog (x, f) = Some w -> exists p, as_ptr w = Ret p /\ (forall y, p = Some y -> inside D y)
    /\ (op_at prog x = Some (kInstAlt NULL) -> exists y, w = ToInst y /\ p = Some y /\ inside D y)).
  { intros f w Ht. destruct (co_words _ _ C _ _ _ Hx Ht) as [(y&->&Hy)|[-> E]].
    - exists (Some y). split_and!; [done|by intros ? [= <-]|eauto].
    - exists None. split_and!; [done..|]. intros E'. rewrite E' in E. by destruct E. }
  destruct (HP Out (out_ ip)) as (j&->&Ij&Aj); [unfold target; cbn; by rewrite Hip|]. cbn [mbind outcome_bind].
  destruct (opcode_ ip) eqn:Hop; try (apply IH; [done|by apply AddToQueue_ok|lia]).
  destruct (alt_of _ _ _ _ Hip Hop) as (Ho&T0&T1). destruct (HP Out1 _ T1) as (k&->&Ik&Ak). cbn [mbind outcome_bind].
  destruct (Aj Ho) as (y&Ey&->&Iy), (Ak Ho) as (z&Ez&->&Iz).
  destruct (mark_alt_spec D prog x ip _ y z C Hip Hop Ey Ez Iy Iz) as (prog1&->&S1&M1). cbn [mbind outcome_bind].
  pose proof (sh_length _ _ S1) as L1. apply (optimized_next D prog prog1); [done..|].
  apply IH; [by eapply sh_complete|by repeat apply AddToQueue_ok|lia].
Qed.

(** The optimizer always returns, on a complete program. *)
Lemma Optimize_spec D prog start : complete D prog -> inside D start ->
  exists prog', Optimize prog (Some start) = Ret prog' /\ optimized D prog prog'.
Proof.
  intros C Hs. unfold Optimize.
  assert (Q : queue_ok D (AddToQueue [] (Some start))).
  { apply AddToQueue_ok; [split; [constructor|by intros x ?%not_elem_of_nil]|by intros ? [= <-]]. }
  destruct (nop_loop_spec D (length prog) prog _ 0 C Q ltac:(lia)) as (prog1&->&C1&L1&M1&O1&A1). cbn [mbind outcome_bind].
  destruct (alt_loop_spec D (length prog1) prog1 _ 0 C1 Q ltac:(lia)) as (prog2&E2&C2&L2&M2&O2&A2).
  exists prog2. split; [done|]. split; [done|]. split; [congruence|]. split; [auto|].
  split; [by intros x op [Ho| ->]%O2; [apply O1|right]|]. intros x. by rewrite A2, A1.
Qed.
End loops.

(** ** Property *)

(** C17: the optimizer returns for every program whose reachable words are
    filled in and that has no cycle of steps without a choice, it changes
    nothing that can be found from any instruction, also where it did not look,
    and from every alternative it marks as [kInstAltMatch] there is a match to
    each later position of the text, as the engines assume. *)
Theorem optimize_keeps_matches text D prog start : complete D prog -> inside D start -> alt_matches text prog ->
  exists prog', Optimize prog (Some start) = Ret prog' /\ length prog' = length prog
    /\ (forall x i j, accepts text prog' x i j <-> accepts text prog x i j)
    /\ forall x i j, op_at prog' x = Some (kInstAltMatch NULL) -> i <= j <= length text -> accepts text prog' x i j.
Proof.
  intros C Hs A. destruct (Optimize_spec text D prog start C Hs) as (prog'&E&_&L&M&_&HA). exists prog'.
  split_and!; [done|done| |by apply M]. intros x. apply HA.
Qed.

(** [(?s).*] with a [kInstNop] before the match. *)
Definition dot_star : list Inst :=
  [MkInst kInstFail NULL; MkInst (kInstAlt (ToInst 3)) (ToInst 2); MkInst (kInstByteRange 0 255 false) (ToInst 1);
   MkInst kInstNop (ToInst 4); MkInst kInstMatch NULL].

Example dot_star_optimized : Optimize dot_star (Some 1) = Ret
  [MkInst kInstFail NULL; MkInst (kInstAltMatch (ToInst 4)) (ToInst 2); MkInst (kInstByteRange 0 255 false) (ToInst 1);
   MkInst kInstNop (ToInst 4); MkInst kInstMatch NULL].
Proof. by vm_compute. Qed.

Lemma optimize_keeps_matches_witness :
  exists prog', Optimize dot_star (Some 1) = Ret prog' /\ length prog' = length dot_star
    /\ (forall x i j, accepts (B "ab") prog' x i j <-> accepts (B "ab") dot_star x i j)
    /\ forall x i j, op_at prog' x = Some (kInstAltMatch NULL) -> i <= j <= length (B "ab") -> accepts (B "ab") prog' x i j.
Proof.
  apply (optimize_keeps_matches (B "ab") {[1; 2; 3; 4]} dot_star 1).
  - assert (HI : forall x, inside {[1; 2; 3; 4]} x -> x = 0 \/ x = 1 \/ x = 2 \/ x = 3 \/ x = 4).
    { intros x [->|Hx]; [by left|]. rewrite !elem_of_union, !elem_of_singleton in Hx. lia. }
    assert (HA : forall x, x <> 3 -> Acc (silent dot_star) x).
    { intros x Hx. constructor. intros y [(op&Ho&Hs) _]. exfalso.
      destruct x as [|[|[|[|[|x]]]]]; try done; cbn in Ho; injection Ho as <-; by destruct Hs as [?|[? ?]]. }
    split.
    + intros x Hx%HI. cbn. lia.
    + intros x f w Hx%HI Ht. destruct Hx as [->|[->|[->|[->| ->]]]]; destruct f; try discriminate Ht; injection Ht as <-;
        try (by right; split; [|left]); try (by right; split; [|right]); left; eexists; (split; [reflexivity|right; set_solver]).
    + intros x _. destruct (decide (x = 3)) as [->|Hx]; [|by apply HA]. constructor. intros y [_ Ht]. injection Ht as <-. by apply HA.
  - right. set_solver.
  - intros [|[|[|[|[|x]]]]] i j Ho; discriminate Ho.
Defined.
