(* ===== verification/SparseArray.v ===== *)
(** * Sparse arrays: src/libs/re2/src/util/sparse_array.h

    A map from small integers that is made without initializing its memory:
    what an index finds in [sparse_to_dense_] is checked against [dense_].  The
    new memory is a parameter, so that what is shown holds whatever it has in
    it. *)

From stdpp Require Import gmap fin_maps.
From S2P Require Import Prelude Optimize.

#[local] Open Scope Z_scope.
#[local] Open Scope xap_scope.

Record IndexValue {Value : Type} := MkIndexValue { index_ : Z; second : Value }.
Arguments IndexValue Value : clear implicits.
Arguments MkIndexValue {Value} _ _.

(** [sparse_to_dense_] is None for NULL; an iterator is a position in [dense_]. *)
Record SparseArray {Value : Type} := MkSparseArray {
  size_ : Z;
  max_size_ : Z;
  sparse_to_dense_ : option (list Z);
  dense_ : list (IndexValue Value);
}.
Arguments SparseArray Value : clear implicits.
Arguments MkSparseArray {Value} _ _ _ _.

(** ** Memory *)

Definition read_at {A} (l : list A) (i : Z) : outcome A :=
  if decide (0 <= i) then from_option_or BadIndex (l !! Z.to_nat i) else Throw BadIndex.
Definition write_at {A} (l : list A) (i : Z) (a : A) : outcome (list A) :=
  if decide (0 <= i < Z.of_nat (length l)) then Ret (<[Z.to_nat i := a]> l) else Throw BadIndex.

Section sparse_array.
Context {Value : Type} (DEBUG_MODE : bool).

Definition DCHECK (c : bool) : outcome unit := if DEBUG_MODE && negb c then Throw AssertFailed else Ret ().

(** ** The code *)

(** The constructors; [a] and [d] are the new memory. *)
Definition default_SparseArray : SparseArray Value := MkSparseArray 0 0 None [].

Definition DebugCheckInvariants (sa : SparseArray Value) : outcome unit :=
  DCHECK (bool_decide (0 <= size_ sa));;
  DCHECK (bool_decide (size_ sa <= max_size_ sa));;
  DCHECK (bool_decide (size_ sa = 0) || bool_decide (sparse_to_dense_ sa <> None)).

Definition new_SparseArray (max_size : Z) (a : list Z) (d : list (IndexValue Value)) : outcome (SparseArray Value) :=
  let sa := MkSparseArray 0 max_size (Some a) d in DebugCheckInvariants sa;; Ret sa.

Definition iv (sa : SparseArray Value) (i : Z) : outcome (IndexValue Value) :=
  DCHECK (bool_decide (0 <= i));; DCHECK (bool_decide (i < size_ sa));; read_at (dense_ sa) i.

(** [a] is what [new] gives, [blank] what [dense_.resize] adds. *)
Definition resize (sa : SparseArray Value) (max_size : Z) (a : list Z) (blank : IndexValue Value) : outcome (SparseArray Value) :=
  DebugCheckInvariants sa;;
  let sa := if decide (max_size_ sa < max_size) then
      let a := match sparse_to_dense_ sa with
               | Some old => take (Z.to_nat (max_size_ sa)) old ++ drop (Z.to_nat (max_size_ sa)) a
               | None => a
               end in
      MkSparseArray (size_ sa) (max_size_ sa) (Some a) (list.resize (Z.to_nat max_size) blank (dense_ sa))
    else sa in
  let sa := MkSparseArray (if decide (max_size < size_ sa) then max_size else size_ sa) max_size (sparse_to_dense_ sa) (dense_ sa) in
  DebugCheckInvariants sa;; Ret sa.

Definition clear (sa : SparseArray Value) : SparseArray Value := MkSparseArray 0 (max_size_ sa) (sparse_to_dense_ sa) (dense_ sa).

Definition sparse_at (sa : SparseArray Value) (i : Z) : outcome Z :=
  a ← from_option_or NullDeref (sparse_to_dense_ sa); read_at a i.

Definition has_index (sa : SparseArray Value) (i : Z) : outcome bool :=
  DCHECK (bool_decide (0 <= i));; DCHECK (bool_decide (i < max_size_ sa));;
  if decide (uwrap 32 (max_size_ sa) <= uwrap 32 i) then Ret false else
  d ← sparse_at sa i;
  if decide (uwrap 32 d < uwrap 32 (size_ sa)) then
    e ← read_at (dense_ sa) d; Ret (bool_decide (index_ e = i))
  else Ret false.

(** [DCHECK(has_index(i))] and [DCHECK(!has_index(i))]: not evaluated without
    assertions. *)
Definition DCHECK_has_index (sa : SparseArray Value) (i : Z) (expected : bool) : outcome unit :=
  if DEBUG_MODE then b ← has_index sa i; DCHECK (Bool.eqb b expected) else Ret ().

Definition create_index (sa : SparseArray Value) (i : Z) : outcome (SparseArray Value) :=
  DCHECK_has_index sa i false;;
  DCHECK (bool_decide (size_ sa < max_size_ sa));;
  a ← from_option_or NullDeref (sparse_to_dense_ sa);
  a ← write_at a i (size_ sa);
  e ← read_at (dense_ sa) (size_ sa);
  d ← write_at (dense_ sa) (size_ sa) (MkIndexValue i (second e));
  Ret (MkSparseArray (size_ sa + 1) (max_size_ sa) (Some a) d).

Definition set_existing (sa : SparseArray Value) (i : Z) (v : Value) : outcome (SparseArray Value * Z) :=
  DebugCheckInvariants sa;;
  DCHECK_has_index sa i true;;
  k ← sparse_at sa i;
  e ← read_at (dense_ sa) k;
  d ← write_at (dense_ sa) k (MkIndexValue (index_ e) v);
  let sa := MkSparseArray (size_ sa) (max_size_ sa) (sparse_to_dense_ sa) d in
  DebugCheckInvariants sa;; Ret (sa, k).

Definition set (sa : SparseArray Value) (i : Z) (v : Value) : outcome (SparseArray Value * Z) :=
  DebugCheckInvariants sa;;
  if decide (uwrap 32 (max_size_ sa) <= uwrap 32 i) then Ret (sa, 0) else
  b ← has_index sa i;
  sa ← (if (b : bool) then Ret sa else create_index sa i);
  set_existing sa i v.

Definition set_new (sa : SparseArray Value) (i : Z) (v : Value) : outcome (SparseArray Value * Z) :=
  DebugCheckInvariants sa;;
  if decide (uwrap 32 (max_size_ sa) <= uwrap 32 i) then Ret (sa, 0) else
  DCHECK_has_index sa i false;;
  sa ← create_index sa i;
  set_existing sa i v.

Definition insert (sa : SparseArray Value) (new_value : IndexValue Value) : outcome (SparseArray Value * (Z * bool)) :=
  DebugCheckInvariants sa;;
  b ← has_index sa (index_ new_value);
  '(sa, p) ← (if (b : bool) then k ← sparse_at sa (index_ new_value); Ret (sa, (k, false))
              else '(sa, k) ← set_new sa (index_ new_value) (second new_value); Ret (sa, (k, true)));
  DebugCheckInvariants sa;; Ret (sa, p).

Definition get_existing (sa : SparseArray Value) (i : Z) : outcome Value :=
  DCHECK_has_index sa i true;; k ← sparse_at sa i; e ← read_at (dense_ sa) k; Ret (second e).

Definition get (sa : SparseArray Value) (i : Z) (defaultv : Value) : outcome Value :=
  b ← has_index sa i; if (b : bool) then get_existing sa i else Ret defaultv.

Definition find (sa : SparseArray Value) (i : Z) : outcome Z :=
  b ← has_index sa i; if (b : bool) then sparse_at sa i else Ret (size_ sa).

(** The last entry to position [di]. *)
Definition move_last (sa : SparseArray Value) (di : Z) : outcome (SparseArray Value) :=
  e ← read_at (dense_ sa) (size_ sa - 1);
  d ← write_at (dense_ sa) di e;
  a ← from_option_or NullDeref (sparse_to_dense_ sa);
  a ← write_at a (index_ e) di;
  Ret (MkSparseArray (size_ sa) (max_size_ sa) (Some a) d).

Definition erase_existing (sa : SparseArray Value) (i : Z) : outcome (SparseArray Value) :=
  DebugCheckInvariants sa;;
  DCHECK_has_index sa i true;;
  di ← sparse_at sa i;
  sa ← (if decide (di < size_ sa - 1) then move_last sa di else Ret sa);
  let sa := MkSparseArray (size_ sa - 1) (max_size_ sa) (sparse_to_dense_ sa) (dense_ sa) in
  DebugCheckInvariants sa;; Ret sa.

Definition erase (sa : SparseArray Value) (i : Z) : outcome (SparseArray Value) :=
  DebugCheckInvariants sa;;
  b ← has_index sa i;
  sa ← (if (b : bool) then erase_existing sa i else Ret sa);
  DebugCheckInvariants sa;; Ret sa.

(** For sorting. *)
Definition less (a b : IndexValue Value) : bool := bool_decide (index_ a < index_ b).
End sparse_array.

Arguments MkSparseArray {Value} _ _ _ _.

(** ** The array as a map *)

Section laws.
Context {Value : Type} (DEBUG_MODE : bool).
Implicit Types (sa : SparseArray Value) (e : IndexValue Value) (v w : Value).

(** What is in the array, from [begin()] to [end()]. *)
Definition entries sa : list (IndexValue Value) := take (Z.to_nat (size_ sa)) (dense_ sa).
Definition keys sa : list Z := index_ <$> entries sa.
Definition to_map sa : gmap Z Value := list_to_map ((fun e => (index_ e, second e)) <$> entries sa).
Definition sparse_list sa : list Z := default [] (sparse_to_dense_ sa).

(** What [sparse_to_dense_] has at other indices than those of the entries is
    whatever the memory had. *)
Record wf sa : Prop := {
  wf_size : 0 <= size_ sa <= max_size_ sa;
  wf_max : in_int 32 (max_size_ sa);
  wf_sparse : max_size_ sa <= Z.of_nat (length (sparse_list sa));
  wf_dense : max_size_ sa <= Z.of_nat (length (dense_ sa));
  wf_ints : Forall (in_int 32) (sparse_list sa);
  wf_entry k e : entries sa !! k = Some e ->
    0 <= index_ e < max_size_ sa /\ sparse_list sa !! Z.to_nat (index_ e) = Some (Z.of_nat k);
}.

Lemma read_at_nat {A} (l : list A) k a : l !! k = Some a -> read_at l (Z.of_nat k) = Ret a.
Proof. intros Hl. unfold read_at. rewrite decide_True, Nat2Z.id, Hl by lia. done. Qed.

Lemma write_at_nat {A} (l : list A) k a : (k < length l)%nat -> write_at l (Z.of_nat k) a = Ret (<[k := a]> l).
Proof. intros Hk. unfold write_at. by rewrite decide_True, Nat2Z.id by lia. Qed.

Lemma lookup_entries sa k e : entries sa !! k = Some e <-> (k < Z.to_nat (size_ sa))%nat /\ dense_ sa !! k = Some e.
Proof. unfold entries. rewrite lookup_take_Some. naive_solver. Qed.

Lemma length_entries sa : wf sa -> length (entries sa) = Z.to_nat (size_ sa).
Proof. intros [? _ _ ?]. unfold entries. rewrite length_take. lia. Qed.

(** No index has two entries. *)
Lemma entries_inj sa k1 k2 e1 e2 : wf sa -> entries sa !! k1 = Some e1 -> entries sa !! k2 = Some e2 -> index_ e1 = index_ e2 -> k1 = k2.
Proof. intros W H1%(wf_entry _ W) H2%(wf_entry _ W) E. rewrite E in H1. destruct H1, H2. simplify_eq. lia. Qed.

Lemma NoDup_keys sa : wf sa -> NoDup (keys sa).
Proof.
  intros W. apply NoDup_alt. intros k1 k2 i. unfold keys. rewrite !list_lookup_fmap.
  destruct (entries sa !! k1) eqn:H1, (entries sa !! k2) eqn:H2; cbn; try done. intros [= <-] [= ?]. by eapply entries_inj.
Qed.

Lemma lookup_to_map sa i v : wf sa -> to_map sa !! i = Some v <-> exists k, entries sa !! k = Some (MkIndexValue i v).
Proof.
  intros W. unfold to_map. rewrite <- elem_of_list_to_map.
  - rewrite list_elem_of_fmap. setoid_rewrite list_elem_of_lookup. split.
    + intros ([j w]&[= -> ->]&k&?). by exists k.
    + intros [k ?]. exists (MkIndexValue i v). split; [done|]. by exists k.
  - rewrite <- list_fmap_compose. by apply NoDup_keys.
Qed.

Lemma to_map_eq sa (m : gmap Z Value) : wf sa ->
  (forall i v, (exists k, entries sa !! k = Some (MkIndexValue i v)) <-> m !! i = Some v) -> to_map sa = m.
Proof. intros W H. apply map_eq. intros i. apply option_eq. intros v. by rewrite lookup_to_map. Qed.

Lemma to_map_bounds sa i : wf sa -> is_Some (to_map sa !! i) -> 0 <= i < max_size_ sa.
Proof. intros W [v [k Hk]%lookup_to_map]; [|done]. by apply wf_entry in Hk as []. Qed.

Lemma DCHECK_true c : c = true -> DCHECK DEBUG_MODE c = Ret ().
Proof. intros ->. unfold DCHECK. by rewrite andb_false_r. Qed.

Lemma sparse_Some sa : wf sa -> 0 < max_size_ sa -> sparse_to_dense_ sa = Some (sparse_list sa).
Proof. intros W ?. pose proof (wf_sparse _ W) as Hl. unfold sparse_list in *. destruct (sparse_to_dense_ sa); [done|]. cbn in Hl. lia. Qed.

Lemma DebugCheckInvariants_wf sa : wf sa -> DebugCheckInvariants DEBUG_MODE sa = Ret ().
Proof.
  intros W. pose proof (wf_size _ W). unfold DebugCheckInvariants.
  rewrite (bool_decide_true (0 <= size_ sa)), (bool_decide_true (size_ sa <= max_size_ sa)), !(DCHECK_true true) by (done || lia).
  apply DCHECK_true. destruct (decide (size_ sa = 0)); [by rewrite bool_decide_true|]. rewrite (sparse_Some sa W) by lia. apply orb_true_r.
Qed.

(** What [has_index] finds: the position of the index, or that it has none. *)
Inductive found sa (i : Z) : option (nat * Value) -> Prop :=
| found_at k v : entries sa !! k = Some (MkIndexValue i v) -> has_index DEBUG_MODE sa i = Ret true ->
    sparse_at sa i = Ret (Z.of_nat k) -> found sa i (Some (k, v))
| found_none : (forall k v, entries sa !! k <> Some (MkIndexValue i v)) -> has_index DEBUG_MODE sa i = Ret false -> found sa i None.

Lemma sparse_at_list sa i d : wf sa -> 0 <= i < max_size_ sa -> sparse_list sa !! Z.to_nat i = Some d -> sparse_at sa i = Ret d.
Proof. intros W ? Hd. unfold sparse_at. rewrite sparse_Some by (done || lia). cbn. rewrite <- (Z2Nat.id i) by lia. by apply read_at_nat. Qed.

Lemma uwrap_lt d n : in_int 32 d -> 0 <= n <= int_max 32 -> uwrap 32 d < uwrap 32 n <-> 0 <= d < n.
Proof.
  unfold in_int, uwrap, int_min, int_max. intros Hd Hn. rewrite (Z.mod_small n) by lia. destruct (decide (0 <= d)).
  - rewrite Z.mod_small by lia. lia.
  - rewrite <- (Z.mod_add d 1), Z.mod_small by lia. lia.
Qed.

Lemma has_index_found sa i : wf sa -> 0 <= i < max_size_ sa -> exists o, found sa i o.
Proof.
  intros W Hi. pose proof (wf_size _ W). pose proof (wf_sparse _ W). pose proof (wf_max _ W) as [_ ?].
  destruct (lookup_lt_is_Some_2 (sparse_list sa) (Z.to_nat i)) as [d Hd]; [lia|].
  assert (Hd' : in_int 32 d) by (eapply Forall_lookup_1; [apply (wf_ints _ W)|exact Hd]).
  assert (E : has_index DEBUG_MODE sa i = if decide (0 <= d < size_ sa) then e ← read_at (dense_ sa) d; Ret (bool_decide (index_ e = i)) else Ret false).
  { unfold has_index. rewrite !DCHECK_true by (apply bool_decide_eq_true; lia). cbn. rewrite decide_False.
    2:{ unfold uwrap. rewrite !Z.mod_small; unfold int_max in *; lia. }
    rewrite (sparse_at_list _ _ d) by done. cbn. apply decide_ext, uwrap_lt; [done|]. lia. }
  assert (N : forall k v, entries sa !! k = Some (MkIndexValue i v) -> d = Z.of_nat k /\ (k < Z.to_nat (size_ sa))%nat /\ dense_ sa !! k = Some (MkIndexValue i v)).
  { intros k v Hk. pose proof (wf_entry _ W _ _ Hk) as [_ ?]. cbn in *. simplify_eq. by apply lookup_entries in Hk as []. }
  case_decide as Hs.
  - destruct (lookup_lt_is_Some_2 (dense_ sa) (Z.to_nat d)) as [[j v] He]; [pose proof (wf_dense _ W); lia|].
    assert (Hr : read_at (dense_ sa) d = Ret (MkIndexValue j v)) by (rewrite <- (Z2Nat.id d) by lia; by apply read_at_nat).
    rewrite Hr in E. cbn in E. case_bool_decide as Hj.
    + subst j. exists (Some (Z.to_nat d, v)). apply found_at; [apply lookup_entries; split; [lia|done]|done|].
      rewrite Z2Nat.id by lia. by apply sparse_at_list.
    + exists None. apply found_none; [|done]. intros k w (->&_&Hk)%N. rewrite Nat2Z.id in He. simplify_eq.
  - exists None. apply found_none; [|done]. intros k v (->&?&_)%N. lia.
Qed.

Lemma DCHECK_has_index_ok sa i o : found sa i o -> DCHECK_has_index DEBUG_MODE sa i (bool_decide (is_Some o)) = Ret ().
Proof.
  intros [k v _ E _|_ E]; unfold DCHECK_has_index; destruct DEBUG_MODE; try done; rewrite E; cbn; by rewrite ?bool_decide_true, ?bool_decide_false by (eauto || by intros []%is_Some_None).
Qed.

Lemma distinct_below (l : list Z) n : 0 <= n -> NoDup l -> (forall i, i ∈ l -> 0 <= i < n) -> Z.of_nat (length l) <= n.
Proof.
  intros Hn Hd Hb. assert (Hs : l ⊆+ seqZ 0 n) by (apply NoDup_submseteq; [done|]; intros i ?%Hb; apply elem_of_seqZ; lia).
  apply submseteq_length in Hs. rewrite length_seqZ in Hs. lia.
Qed.

Lemma elem_of_keys sa i : i ∈ keys sa <-> exists k v, entries sa !! k = Some (MkIndexValue i v).
Proof.
  unfold keys. rewrite list_elem_of_fmap. setoid_rewrite list_elem_of_lookup. split; [intros ([j v]&->&k&?); eauto|].
  intros (k&v&?). exists (MkIndexValue i v). eauto.
Qed.

(** There is room for an index that is not there. *)
Lemma room_for sa i : wf sa -> 0 <= i < max_size_ sa -> (forall k v, entries sa !! k <> Some (MkIndexValue i v)) -> size_ sa < max_size_ sa.
Proof.
  intros W Hi Hn. enough (Z.of_nat (length (i :: keys sa)) <= max_size_ sa) as Hs.
  { unfold keys in Hs. cbn in Hs. rewrite length_fmap, length_entries in Hs by done. pose proof (wf_size _ W). lia. }
  apply distinct_below; [lia|apply NoDup_cons; split; [|by apply NoDup_keys]|].
  - rewrite elem_of_keys. intros (k&v&Hk). by apply Hn in Hk.
  - intros j [->|(k&v&Hk)%elem_of_keys]%elem_of_cons; [done|]. by apply (wf_entry _ W) in Hk as [? _].
Qed.

Lemma create_index_spec sa i : wf sa -> 0 <= i < max_size_ sa -> found sa i None -> exists sa' w,
  create_index DEBUG_MODE sa i = Ret sa' /\ wf sa' /\ entries sa' = entries sa ++ [MkIndexValue i w] /\ max_size_ sa' = max_size_ sa.
Proof.
  intros W Hi F. pose proof (DCHECK_has_index_ok _ _ _ F) as Hc. inversion F as [|Hn _]; subst.
  pose proof (room_for sa i W Hi Hn) as Hr. destruct W as [Ws Wm Wp Wd Wi We] eqn:EW.
  destruct (lookup_lt_is_Some_2 (dense_ sa) (Z.to_nat (size_ sa))) as [e He]; [lia|].
  assert (Hw : forall (l : list Z), max_size_ sa <= Z.of_nat (length l) -> write_at l i (size_ sa) = Ret (<[Z.to_nat i := size_ sa]> l)).
  { intros l Hl. rewrite <- (Z2Nat.id i) at 1 by lia. apply write_at_nat. lia. }
  exists (MkSparseArray (size_ sa + 1) (max_size_ sa) (Some (<[Z.to_nat i := size_ sa]> (sparse_list sa)))
    (<[Z.to_nat (size_ sa) := MkIndexValue i (second e)]> (dense_ sa))), (second e).
  assert (He' : entries (MkSparseArray (size_ sa + 1) (max_size_ sa) (Some (<[Z.to_nat i := size_ sa]> (sparse_list sa)))
    (<[Z.to_nat (size_ sa) := MkIndexValue i (second e)]> (dense_ sa))) = entries sa ++ [MkIndexValue i (second e)]).
  { unfold entries. cbn. replace (Z.to_nat (size_ sa + 1)) with (S (Z.to_nat (size_ sa))) by lia.
    rewrite (take_S_r _ _ (MkIndexValue i (second e))); [by rewrite take_insert_ge by lia|]. rewrite list_lookup_insert_eq by lia. done. }
  split_and!; [|split; cbn; try done; try lia|exact He'|done].
  - unfold create_index. cbn in Hc. rewrite Hc, DCHECK_true by (apply bool_decide_eq_true; lia). rewrite (sparse_Some sa W) by lia. cbn.
    rewrite Hw by done. cbn. rewrite <- (Z2Nat.id (size_ sa)) at 1 by lia. rewrite (read_at_nat _ _ _ He). cbn.
    rewrite <- (Z2Nat.id (size_ sa)) at 1 by lia. rewrite write_at_nat by lia. done.
  - rewrite length_insert. lia.
  - rewrite length_insert. lia.
  - apply Forall_insert; [done|]. bounds.
  - intros k e'. rewrite He'. pose proof (length_entries sa W) as Hl. intros [Hk|[Hk H']]%lookup_app_Some.
    + pose proof (We _ _ Hk) as [? ?]. split; [done|]. rewrite list_lookup_insert_ne; [done|]. destruct e' as [j u]. cbn in *.
      intros Hj. assert (i = j) as -> by lia. by apply Hn in Hk.
    + apply list_lookup_singleton_Some in H' as [Hk' <-]. cbn. split; [done|]. rewrite list_lookup_insert_eq by lia. f_equal. lia.
Qed.

Lemma set_existing_spec sa i k w v : wf sa -> entries sa !! k = Some (MkIndexValue i w) -> exists sa',
  set_existing DEBUG_MODE sa i v = Ret (sa', Z.of_nat k) /\ wf sa' /\ entries sa' = <[k := MkIndexValue i v]> (entries sa) /\
  max_size_ sa' = max_size_ sa.
Proof.
  intros W Hk. pose proof (wf_entry _ W _ _ Hk) as [Hi Hp]. pose proof (proj1 (lookup_entries _ _ _) Hk) as [Hlt Hd]. cbn in Hi, Hp.
  pose proof (lookup_lt_Some _ _ _ Hd) as Hlen.
  set (sa' := MkSparseArray (size_ sa) (max_size_ sa) (sparse_to_dense_ sa) (<[k := MkIndexValue i v]> (dense_ sa))).
  assert (He : entries sa' = <[k := MkIndexValue i v]> (entries sa)) by (unfold entries; cbn; by apply take_insert_lt).
  assert (W' : wf sa').
  { destruct W as [? ? ? ? ? We]. split; cbn; try done; [by rewrite length_insert|]. intros k' e'. rewrite He.
    intros [(<-&<-&_)|[_ H']]%list_lookup_insert_Some; [done|by apply We]. }
  exists sa'. split_and!; [|done..]. unfold set_existing. rewrite (DebugCheckInvariants_wf sa) by done. cbn.
  destruct (has_index_found sa i W Hi) as [o F]. pose proof (DCHECK_has_index_ok _ _ _ F) as Hc.
  inversion F as [k' v' Hk' _ Hs|Hn _]; subst; [|by apply Hn in Hk]. cbn in Hc. rewrite Hc. cbn.
  assert (k' = k) as -> by (by eapply (entries_inj sa)). rewrite Hs. cbn. rewrite (read_at_nat _ _ _ Hd). cbn.
  rewrite write_at_nat by done. cbn. fold sa'. by rewrite DebugCheckInvariants_wf.
Qed.

(** [entries] where a known index has changed, or a new one is there. *)
Lemma to_map_changed sa sa' k i w v : wf sa -> wf sa' -> entries sa !! k = Some (MkIndexValue i w) ->
  entries sa' = <[k := MkIndexValue i v]> (entries sa) -> to_map sa' = <[i := v]> (to_map sa).
Proof.
  intros W W' Hk He. apply to_map_eq; [done|]. intros j u. rewrite He, lookup_insert_Some, lookup_to_map by done.
  setoid_rewrite list_lookup_insert_Some. split.
  - intros [k' [(<-&[= -> ->]&_)|[Hne H']]]; [by left|]. right. split; [|by exists k']. intros ->. by apply Hne, (entries_inj sa k k' (MkIndexValue j w) (MkIndexValue j u)).
  - intros [[-> ->]|[Hne [k' H']]]; [exists k; left; split_and!; [done..|by apply lookup_lt_Some in Hk]|].
    exists k'. right. split; [|done]. intros ->. by simplify_eq.
Qed.

Lemma to_map_added sa sa' i v : wf sa -> wf sa' -> to_map sa !! i = None ->
  entries sa' = entries sa ++ [MkIndexValue i v] -> to_map sa' = <[i := v]> (to_map sa).
Proof.
  intros W W' Hn He. apply to_map_eq; [done|]. intros j u. rewrite He, lookup_insert_Some, lookup_to_map by done. split.
  - intros [k [Hk|[_ [_ [= -> ->]]%list_lookup_singleton_Some]]%lookup_app_Some]; [|by left]. right. split; [|by exists k].
    intros ->. assert (to_map sa !! j = Some u) by (apply lookup_to_map; eauto). by simplify_eq.
  - intros [[-> ->]|[_ [k Hk]]]; [exists (length (entries sa)); by rewrite lookup_app_r, Nat.sub_diag|exists k; by apply lookup_app_l_Some].
Qed.

Lemma not_found sa i : wf sa -> (forall k v, entries sa !! k <> Some (MkIndexValue i v)) -> to_map sa !! i = None.
Proof. intros W Hn. apply eq_None_not_Some. intros [v [k Hk]%lookup_to_map]; [|done]. by apply Hn in Hk. Qed.

Lemma not_uwrap_le sa i : wf sa -> 0 <= i < max_size_ sa -> ~ uwrap 32 (max_size_ sa) <= uwrap 32 i.
Proof. intros W Hi. pose proof (wf_max _ W) as [_ ?]. unfold uwrap, int_max in *. rewrite !Z.mod_small; lia. Qed.

(** What [set] and [set_new] do with an index that is not there. *)
Lemma add_spec sa i v : wf sa -> 0 <= i < max_size_ sa -> found sa i None -> exists sa1 sa',
  create_index DEBUG_MODE sa i = Ret sa1 /\ set_existing DEBUG_MODE sa1 i v = Ret (sa', Z.of_nat (length (entries sa))) /\
  wf sa' /\ max_size_ sa' = max_size_ sa /\ entries sa' = entries sa ++ [MkIndexValue i v] /\ to_map sa' = <[i := v]> (to_map sa).
Proof.
  intros W Hi F. destruct (create_index_spec sa i W Hi F) as (sa1&w&Hc&W1&He1&Hm1).
  assert (Hk : entries sa1 !! length (entries sa) = Some (MkIndexValue i w)) by (by rewrite He1, lookup_app_r, Nat.sub_diag).
  destruct (set_existing_spec sa1 i _ w v W1 Hk) as (sa'&Hs&W'&He&Hm). exists sa1, sa'.
  rewrite He1, insert_app_r_alt, Nat.sub_diag in He by done. inversion F as [|Hn _]. split_and!; try done; [congruence|].
  by apply (to_map_added sa); [..|apply not_found|].
Qed.

(** Setting an index: the iterator points to the entry, which is the old one
    of the index or behind all others. *)
Lemma set_spec sa i v : wf sa -> 0 <= i < max_size_ sa -> exists sa' k,
  set DEBUG_MODE sa i v = Ret (sa', Z.of_nat k) /\ wf sa' /\ max_size_ sa' = max_size_ sa /\
  entries sa' !! k = Some (MkIndexValue i v) /\ to_map sa' = <[i := v]> (to_map sa) /\
  keys sa' = if decide (i ∈ keys sa) then keys sa else keys sa ++ [i].
Proof.
  intros W Hi. unfold set. rewrite DebugCheckInvariants_wf by done. cbn. rewrite decide_False by (by apply not_uwrap_le).
  destruct (has_index_found sa i W Hi) as [o F]. pose proof F as F'. destruct F as [k w Hk E _|Hn E]; rewrite E; cbn.
  - destruct (set_existing_spec sa i k w v W Hk) as (sa'&->&W'&He&Hm). exists sa', k. split_and!; try done.
    + rewrite He, list_lookup_insert_eq by (by apply lookup_lt_Some in Hk). done.
    + by eapply to_map_changed.
    + unfold keys. rewrite He, list_fmap_insert. cbn. rewrite decide_True by (apply elem_of_keys; eauto).
      apply list_insert_id. by rewrite list_lookup_fmap, Hk.
  - destruct (add_spec sa i v W Hi F') as (sa1&sa'&->&Hs&W'&Hm&He&Hmap). cbn. rewrite Hs. exists sa', (length (entries sa)).
    split_and!; try done; [by rewrite He, lookup_app_r, Nat.sub_diag|].
    unfold keys. rewrite He, fmap_app. cbn. rewrite decide_False; [done|]. intros (k&u&?)%elem_of_keys. by eapply Hn.
Qed.

Lemma set_new_spec sa i v : wf sa -> 0 <= i < max_size_ sa -> found sa i None -> exists sa',
  set_new DEBUG_MODE sa i v = Ret (sa', Z.of_nat (length (entries sa))) /\ wf sa' /\ max_size_ sa' = max_size_ sa /\
  entries sa' = entries sa ++ [MkIndexValue i v] /\ to_map sa' = <[i := v]> (to_map sa).
Proof.
  intros W Hi F. unfold set_new. rewrite DebugCheckInvariants_wf by done. cbn -[decide]. rewrite decide_False by (by apply not_uwrap_le).
  pose proof (DCHECK_has_index_ok _ _ _ F) as Hc. cbn in Hc. rewrite Hc. cbn.
  destruct (add_spec sa i v W Hi F) as (sa1&sa'&->&Hs&?). cbn. rewrite Hs. by exists sa'.
Qed.

(** [insert] leaves the value of an index that is there, as [std::map] does. *)
Lemma insert_spec sa e : wf sa -> 0 <= index_ e < max_size_ sa -> exists sa' k b v,
  insert DEBUG_MODE sa e = Ret (sa', (Z.of_nat k, b)) /\ wf sa' /\ max_size_ sa' = max_size_ sa /\
  entries sa' !! k = Some (MkIndexValue (index_ e) v) /\
  match to_map sa !! index_ e with
  | Some w => b = false /\ v = w /\ sa' = sa
  | None => b = true /\ v = second e /\ to_map sa' = <[index_ e := second e]> (to_map sa)
  end.
Proof.
  intros W Hi. unfold insert. rewrite DebugCheckInvariants_wf by done. cbn.
  destruct (has_index_found sa _ W Hi) as [o F]. pose proof F as F'. destruct F as [k w Hk E Hs|Hn E]; rewrite E; cbn.
  - rewrite Hs. cbn. rewrite DebugCheckInvariants_wf by done. exists sa, k, false, w.
    rewrite (proj2 (lookup_to_map sa _ w W)) by eauto. done.
  - destruct (set_new_spec sa _ (second e) W Hi F') as (sa'&->&W'&Hm&He&Hmap). cbn. rewrite DebugCheckInvariants_wf by done.
    exists sa', (length (entries sa)), true, (second e). rewrite (not_found sa _ W Hn). split_and!; try done. by rewrite He, lookup_app_r, Nat.sub_diag.
Qed.

(** ** Reading *)

Lemma has_index_spec sa i : wf sa -> 0 <= i < max_size_ sa -> has_index DEBUG_MODE sa i = Ret (bool_decide (is_Some (to_map sa !! i))).
Proof.
  intros W Hi. destruct (has_index_found sa i W Hi) as [o [k v Hk -> _|Hn ->]].
  - by rewrite (proj2 (lookup_to_map sa i v W)) by eauto.
  - by rewrite (not_found sa i W Hn).
Qed.

Lemma get_spec sa i v : wf sa -> 0 <= i < max_size_ sa -> get DEBUG_MODE sa i v = Ret (default v (to_map sa !! i)).
Proof.
  intros W Hi. unfold get. destruct (has_index_found sa i W Hi) as [o F]. pose proof (DCHECK_has_index_ok _ _ _ F) as Hc.
  destruct F as [k w Hk -> Hs|Hn ->]; cbn; [|by rewrite (not_found sa i W Hn)].
  unfold get_existing. cbn in Hc. rewrite Hc. cbn. rewrite Hs. cbn. pose proof (proj1 (lookup_entries _ _ _) Hk) as [_ Hd].
  rewrite (read_at_nat _ _ _ Hd). cbn. by rewrite (proj2 (lookup_to_map sa i w W)) by eauto.
Qed.

Lemma find_spec sa i : wf sa -> 0 <= i < max_size_ sa -> exists k, find DEBUG_MODE sa i = Ret (Z.of_nat k) /\
  match to_map sa !! i with Some v => entries sa !! k = Some (MkIndexValue i v) | None => Z.of_nat k = size_ sa end.
Proof.
  intros W Hi. unfold find. destruct (has_index_found sa i W Hi) as [o [k v Hk -> Hs|Hn ->]].
  - exists k. rewrite Hs. by rewrite (proj2 (lookup_to_map sa i v W)) by eauto.
  - pose proof (wf_size _ W). exists (Z.to_nat (size_ sa)). cbn. rewrite (not_found sa i W Hn), Z2Nat.id by lia. done.
Qed.

(** ** Erasing *)

Lemma to_map_erased sa sa' k i w : wf sa -> wf sa' -> entries sa !! k = Some (MkIndexValue i w) ->
  (forall e, (exists k', entries sa' !! k' = Some e) <-> exists k', k' <> k /\ entries sa !! k' = Some e) ->
  to_map sa' = delete i (to_map sa).
Proof.
  intros W W' Hk He. apply to_map_eq; [done|]. intros j u. rewrite He, lookup_delete_Some, lookup_to_map by done. split.
  - intros (k'&Hne&Hk'). split; [|by exists k']. intros ->. by apply Hne, (entries_inj sa k' k _ _ W Hk' Hk).
  - intros [Hne [k' Hk']]. exists k'. split; [|done]. intros ->. by simplify_eq.
Qed.

Lemma erase_existing_moves sa i k w sa1 : wf sa -> entries sa !! k = Some (MkIndexValue i w) ->
  (if decide (Z.of_nat k < size_ sa - 1) then move_last sa (Z.of_nat k) else Ret sa) = Ret sa1 ->
  let sa' := MkSparseArray (size_ sa1 - 1) (max_size_ sa1) (sparse_to_dense_ sa1) (dense_ sa1) in wf sa' ->
  erase_existing DEBUG_MODE sa i = Ret sa'.
Proof.
  intros W Hk E sa' W'. pose proof (wf_entry _ W _ _ Hk) as [Hi Hp]. unfold erase_existing. rewrite (DebugCheckInvariants_wf sa) by done. cbn.
  destruct (has_index_found sa i W Hi) as [o F]. pose proof (DCHECK_has_index_ok _ _ _ F) as Hc.
  inversion F as [k' v' Hk' _ Hs|Hn _]; subst; [|by apply Hn in Hk]. cbn in Hc. rewrite Hc. cbn.
  assert (k' = k) as -> by (by eapply (entries_inj sa)). rewrite Hs. cbn -[decide]. rewrite E. cbn. fold sa'. by rewrite DebugCheckInvariants_wf.
Qed.

Lemma erase_existing_spec sa i k w : wf sa -> entries sa !! k = Some (MkIndexValue i w) -> exists sa',
  erase_existing DEBUG_MODE sa i = Ret sa' /\ wf sa' /\ max_size_ sa' = max_size_ sa /\ to_map sa' = delete i (to_map sa).
Proof.
  intros W Hk. pose proof (wf_entry _ W _ _ Hk) as [Hi Hp]. pose proof (proj1 (lookup_entries _ _ _) Hk) as [Hlt Hd]. cbn in Hi, Hp.
  pose proof (wf_size _ W). pose proof (wf_dense _ W). pose proof (wf_sparse _ W).
  pose proof (fun sa1 => erase_existing_moves sa i k w sa1 W Hk) as E.
  destruct (decide (Z.of_nat k < size_ sa - 1)) as [Hl|Hl].
  - destruct (lookup_lt_is_Some_2 (dense_ sa) (Z.to_nat (size_ sa - 1))) as [e He]; [lia|].
    assert (Hlast : entries sa !! Z.to_nat (size_ sa - 1) = Some e) by (apply lookup_entries; split; [lia|done]).
    pose proof (wf_entry _ W _ _ Hlast) as [Hei Hep].
    set (sa1 := MkSparseArray (size_ sa) (max_size_ sa) (Some (<[Z.to_nat (index_ e) := Z.of_nat k]> (sparse_list sa))) (<[k := e]> (dense_ sa))).
    set (sa' := MkSparseArray (size_ sa1 - 1) (max_size_ sa1) (sparse_to_dense_ sa1) (dense_ sa1)).
    assert (Hen : forall k' e', entries sa' !! k' = Some e' <->
      (k' = k /\ e' = e) \/ (k' <> k /\ Z.of_nat k' < size_ sa - 1 /\ entries sa !! k' = Some e')).
    { intros k' e'. rewrite !lookup_entries. cbn. rewrite list_lookup_insert_Some. split.
      - intros [? [(<-&<-&_)|[? ?]]]; [by left|right]. split_and!; [done|lia|lia|done].
      - intros [[-> ->]|(?&?&?&?)]; (split; [lia|]); [left|by right]. split_and!; [done..|]. by apply lookup_lt_Some in Hd. }
    assert (W' : wf sa').
    { destruct W as [? ? ? ? Wi We] eqn:EW. split; cbn; try done; try lia.
      - rewrite length_insert. lia.
      - rewrite length_insert. lia.
      - apply Forall_insert; [done|]. pose proof (wf_max _ W). bounds.
      - intros k' e' [[-> ->]|(Hne&?&Hk')]%Hen; [split; [done|]; rewrite list_lookup_insert_eq by lia; done|].
        pose proof (We _ _ Hk') as [? ?]. split; [done|]. rewrite list_lookup_insert_ne; [done|]. intros Hij.
        assert (k' = Z.to_nat (size_ sa - 1)); [|lia]. eapply (entries_inj sa); [done..|]. lia. }
    exists sa'. split_and!; [apply (E sa1); [|done]|done..|].
    + unfold move_last. rewrite <- (Z2Nat.id (size_ sa - 1)) by lia. rewrite (read_at_nat _ _ _ He). cbn. rewrite write_at_nat by (by apply lookup_lt_Some in Hd). cbn.
      rewrite (sparse_Some sa W) by lia. cbn. rewrite <- (Z2Nat.id (index_ e)) at 1 by lia. rewrite write_at_nat by lia. done.
    + apply (to_map_erased sa sa' k i w); [done..|]. intros e'. setoid_rewrite Hen. split.
      * intros (k'&[[-> ->]|(?&?&?)]); [|by exists k']. exists (Z.to_nat (size_ sa - 1)). split; [lia|done].
      * intros (k'&Hne&Hk'). destruct (decide (Z.of_nat k' < size_ sa - 1)); [exists k'; by right|]. exists k. left. split; [done|].
        pose proof (proj1 (lookup_entries _ _ _) Hk') as [? _]. assert (k' = Z.to_nat (size_ sa - 1)) as -> by lia. by simplify_eq.
  - set (sa' := MkSparseArray (size_ sa - 1) (max_size_ sa) (sparse_to_dense_ sa) (dense_ sa)).
    assert (Hen : forall k' e', entries sa' !! k' = Some e' <-> k' <> k /\ entries sa !! k' = Some e').
    { intros k' e'. rewrite !lookup_entries. cbn. split; [intros [? ?]|intros (?&?&?)]; split_and?; try done; lia. }
    assert (W' : wf sa') by (destruct W as [? ? ? ? ? We]; split; cbn; try done; [lia|]; intros k' e' [_ ?]%Hen; by apply We).
    exists sa'. split_and!; [by apply (E sa)|done..|]. apply (to_map_erased sa sa' k i w); [done..|]. intros e'. by setoid_rewrite Hen.
Qed.

Lemma erase_spec sa i : wf sa -> 0 <= i < max_size_ sa -> exists sa',
  erase DEBUG_MODE sa i = Ret sa' /\ wf sa' /\ max_size_ sa' = max_size_ sa /\ to_map sa' = delete i (to_map sa).
Proof.
  intros W Hi. unfold erase. rewrite DebugCheckInvariants_wf by done. cbn.
  destruct (has_index_found sa i W Hi) as [o [k w Hk E _|Hn E]]; rewrite E; cbn.
  - destruct (erase_existing_spec sa i k w W Hk) as (sa'&->&W'&?&?). cbn. rewrite DebugCheckInvariants_wf by done. by exists sa'.
  - rewrite DebugCheckInvariants_wf by done. exists sa. split_and!; [done..|]. symmetry. apply delete_id, not_found; done.
Qed.

(** ** The size *)

Lemma default_wf : wf default_SparseArray.
Proof. by split. Qed.

Lemma new_wf n a (d : list (IndexValue Value)) : 0 <= n <= int_max 32 -> Z.of_nat (length a) = n -> Forall (in_int 32) a -> Z.of_nat (length d) = n ->
  wf (MkSparseArray 0 n (Some a) d).
Proof. intros. split; cbn; try done; try lia. bounds. Qed.

Lemma cleared_wf sa : wf sa -> wf (clear sa).
Proof. intros [? ? ? ? ? ?]. split; cbn; try done. lia. Qed.

Lemma entries_below sa n : wf sa -> 0 <= n -> (forall i, is_Some (to_map sa !! i) -> i < n) -> size_ sa <= n.
Proof.
  intros W Hn Hb. rewrite <- (Z2Nat.id (size_ sa)), <- (length_entries sa W) by apply W. rewrite <- (length_fmap index_).
  apply distinct_below; [done|by apply NoDup_keys|]. intros i (k&v&Hk)%elem_of_keys.
  pose proof (wf_entry _ W _ _ Hk) as [? _]. cbn in *. split; [lia|]. apply Hb. exists v. apply lookup_to_map; eauto.
Qed.

(** A size above all indices keeps the array, whatever the new memory has. *)
Lemma resize_spec sa n a blank : wf sa -> 0 <= n <= int_max 32 -> Z.of_nat (length a) = n -> Forall (in_int 32) a ->
  (forall i, is_Some (to_map sa !! i) -> i < n) -> exists sa',
  resize DEBUG_MODE sa n a blank = Ret sa' /\ wf sa' /\ max_size_ sa' = n /\ to_map sa' = to_map sa.
Proof.
  intros W Hn Ha Hai Hb. pose proof (entries_below sa n W (proj1 Hn) Hb) as Hs. pose proof W as [[] [_ ?] Hsp ? Hi We].
  unfold resize. rewrite (DebugCheckInvariants_wf sa) by done. cbn -[decide].
  set (grown := if decide (max_size_ sa < n) then _ else _).
  assert (G : Forall (in_int 32) (sparse_list grown) /\ n <= Z.of_nat (length (sparse_list grown)) /\ n <= Z.of_nat (length (dense_ grown)) /\
    size_ grown = size_ sa /\ entries grown = entries sa /\
    (forall k, (k < Z.to_nat (max_size_ sa))%nat -> sparse_list grown !! k = sparse_list sa !! k)).
  { unfold grown. case_decide; [|split_and!; try done; lia]. unfold sparse_list in *. cbn.
    rewrite length_resize. split_and!; [| |lia|done| |]; [| |unfold entries; cbn; apply list_eq; intros k|].
    - destruct (sparse_to_dense_ sa); [|done]. cbn in *. apply Forall_app. split; [by apply Forall_take|by apply Forall_drop].
    - destruct (sparse_to_dense_ sa); [|cbn; lia]. cbn in *. rewrite length_app, length_take, length_drop. lia.
    - destruct (decide (k < Z.to_nat (size_ sa))%nat); [|by rewrite !lookup_take_ge by lia]. rewrite !lookup_take_lt by lia. apply lookup_resize; lia.
    - intros k Hk. destruct (sparse_to_dense_ sa); cbn in *; [|lia]. by rewrite lookup_app_l, lookup_take_lt by (rewrite ?length_take; lia). }
  clearbody grown. destruct G as (Gi&Gs&Gd&Gz&Ge&Gl). rewrite Gz. rewrite (decide_False (P := n < size_ sa)) by lia.
  set (sa' := MkSparseArray _ _ _ _).
  assert (E : entries sa' = entries sa) by (rewrite <- Ge; unfold entries; cbn; by rewrite Gz).
  assert (W' : wf sa').
  { split; cbn; try done; [bounds|]. intros k e. rewrite E. intros Hk. pose proof (We k e Hk) as [? Hp]. split.
    - split; [lia|]. apply Hb. exists (second e). apply lookup_to_map; [done|]. exists k. by destruct e.
    - rewrite <- Hp. apply Gl. lia. }
  exists sa'. rewrite DebugCheckInvariants_wf by done. split_and!; [done..|]. unfold to_map. by rewrite E.
Qed.
End laws.

(** ** Any use of an array *)

(** The calls that change one; [resize] has the memory it is given. *)
Inductive call {Value : Type} :=
| call_set (i : Z) (v : Value)
| call_insert (i : Z) (v : Value)
| call_erase (i : Z)
| call_clear
| call_resize (n : Z) (a : list Z) (blank : IndexValue Value).
Arguments call Value : clear implicits.

Section history.
Context {Value : Type} (DEBUG_MODE : bool).
Implicit Types (sa : SparseArray Value) (v : Value).

Definition run_call sa (c : call Value) : outcome (SparseArray Value) :=
  match c with
  | call_set i v => '(sa, _) ← set DEBUG_MODE sa i v; Ret sa
  | call_insert i v => '(sa, _) ← insert DEBUG_MODE sa (MkIndexValue i v); Ret sa
  | call_erase i => erase DEBUG_MODE sa i
  | call_clear => Ret (clear sa)
  | call_resize n a blank => resize DEBUG_MODE sa n a blank
  end.

Fixpoint run_calls sa (calls : list (call Value)) : outcome (SparseArray Value) :=
  match calls with [] => Ret sa | c :: calls => sa ← run_call sa c; run_calls sa calls end.

(** A size and a finite map; None for a call outside of the contract. *)
Definition in_range (n i : Z) : bool := bool_decide (0 <= i < n).
Definition spec_call (s : Z * gmap Z Value) (c : call Value) : option (Z * gmap Z Value) :=
  let '(n, m) := s in
  match c with
  | call_set i v => if in_range n i then Some (n, <[i := v]> m) else None
  | call_insert i v => if in_range n i then Some (n, if m !! i is Some _ then m else <[i := v]> m) else None
  | call_erase i => if in_range n i then Some (n, delete i m) else None
  | call_clear => Some (n, ∅)
  | call_resize n' a _ =>
      if bool_decide (in_int 32 n') && bool_decide (Z.of_nat (length a) = n') && bool_decide (Forall (in_int 32) a) &&
        bool_decide (Forall (fun i => i < n') (map_to_list m).*1) then Some (n', m) else None
  end.

Fixpoint spec_calls (s : Z * gmap Z Value) (calls : list (call Value)) : option (Z * gmap Z Value) :=
  match calls with [] => Some s | c :: calls => s ← spec_call s c; spec_calls s calls end.

Lemma clear_to_map sa : to_map (clear sa) = ∅.
Proof. done. Qed.

Lemma run_call_spec sa c n m : wf sa -> spec_call (max_size_ sa, to_map sa) c = Some (n, m) -> exists sa',
  run_call sa c = Ret sa' /\ wf sa' /\ max_size_ sa' = n /\ to_map sa' = m.
Proof.
  intros W. unfold spec_call, in_range. destruct c as [i v|i v|i| |n' a blank]; cbn [run_call].
  - case_bool_decide; [|done]. intros [= <- <-]. destruct (set_spec DEBUG_MODE sa i v) as (sa'&k&->&?&?&_&?&_); [done..|]. by exists sa'.
  - case_bool_decide; [|done]. intros [= <- <-]. destruct (insert_spec DEBUG_MODE sa (MkIndexValue i v)) as (sa'&k&b&w&->&?&?&_&Hm); [done..|].
    exists sa'. cbn in Hm. destruct (to_map sa !! i); [by destruct Hm as (_&_&->)|by destruct Hm as (_&_&->)].
  - case_bool_decide; [|done]. intros [= <- <-]. by apply erase_spec.
  - intros [= <- <-]. exists (clear sa). split_and!; [done|by apply cleared_wf|done|apply clear_to_map].
  - repeat (case_bool_decide; [|done]). cbn. intros [= <- <-]. destruct (resize_spec DEBUG_MODE sa n' a blank) as (sa'&->&?); [done|bounds|done..| |by exists sa'].
    intros i [v Hv%elem_of_map_to_list]. eapply (Forall_forall (fun i => i < n')); [done|]. by apply (list_elem_of_fmap_2' fst _ (i, v)).
Qed.

Lemma run_calls_spec calls : forall sa n m, wf sa -> spec_calls (max_size_ sa, to_map sa) calls = Some (n, m) -> exists sa',
  run_calls sa calls = Ret sa' /\ wf sa' /\ max_size_ sa' = n /\ to_map sa' = m.
Proof.
  induction calls as [|c calls IH]; intros sa n m W; [intros [= <- <-]; by exists sa|]. cbn [spec_calls].
  intros ([n1 m1]&Hc&Hs)%bind_Some. destruct (run_call_spec sa c n1 m1 W Hc) as (sa1&E&W1&<-&<-).
  destruct (IH sa1 n m W1 Hs) as (sa'&E'&?). exists sa'. cbn [run_calls]. by rewrite E.
Qed.

Lemma iteration sa : wf sa -> ((fun e => (index_ e, second e)) <$> entries sa) ≡ₚ map_to_list (to_map sa).
Proof. intros W. symmetry. apply map_to_list_to_map. rewrite <- list_fmap_compose. by apply NoDup_keys. Qed.

(** C21: a [SparseArray] is a map: whatever was in the memory it is made from and
    resized to, any calls in range leave the entries a finite map has after the
    same calls, each once; [has_index], [get] and [find] read that map.  No
    call indexes out of bounds or fails a check. *)
Theorem sparse_array_is_map n a d calls n' m :
  0 <= n <= int_max 32 -> Z.of_nat (length a) = n -> Forall (in_int 32) a -> Z.of_nat (length d) = n ->
  spec_calls (n, ∅) calls = Some (n', m) -> exists sa,
    (sa ← new_SparseArray DEBUG_MODE n a d; run_calls sa calls) = Ret sa /\ max_size_ sa = n' /\
    ((fun e => (index_ e, second e)) <$> entries sa) ≡ₚ map_to_list m /\
    forall i v, 0 <= i < n' ->
      has_index DEBUG_MODE sa i = Ret (bool_decide (is_Some (m !! i))) /\ get DEBUG_MODE sa i v = Ret (default v (m !! i)) /\
      exists k, find DEBUG_MODE sa i = Ret (Z.of_nat k) /\
        match m !! i with Some w => entries sa !! k = Some (MkIndexValue i w) | None => Z.of_nat k = size_ sa end.
Proof.
  intros Hn Ha Hi Hd Hs. pose proof (new_wf n a d Hn Ha Hi Hd) as W. unfold new_SparseArray.
  rewrite (DebugCheckInvariants_wf DEBUG_MODE _ W). cbn. destruct (run_calls_spec calls _ n' m W Hs) as (sa&E&W'&<-&<-).
  exists sa. split_and!; [done..|by apply iteration|]. intros i v Hi'. split_and!; [by apply has_index_spec|by apply get_spec|by apply find_spec].
Qed.

(** The queue of the optimizer. *)
Lemma AddToQueue_set sa (q : Workq) x v : wf sa -> Z.of_nat x < max_size_ sa -> keys sa = Z.of_nat <$> q -> exists sa' k,
  set DEBUG_MODE sa (Z.of_nat x) v = Ret (sa', k) /\ wf sa' /\ max_size_ sa' = max_size_ sa /\ keys sa' = Z.of_nat <$> AddToQueue q (Some x).
Proof.
  intros W Hx Hq. destruct (set_spec DEBUG_MODE sa (Z.of_nat x) v W) as (sa'&k&E&?&?&_&_&Hk); [lia|]. exists sa', (Z.of_nat k). split_and!; [done..|].
  rewrite Hk, Hq. cbn. assert (Hiff : Z.of_nat x ∈ Z.of_nat <$> q <-> x ∈ q).
  { rewrite list_elem_of_fmap. split; [intros (y&?&?); by replace x with y by lia|eauto]. }
  destruct (decide (x ∈ q)) as [Hin|Hin]; [by rewrite decide_True by by apply Hiff|]. by rewrite fmap_app, decide_False by by intros []%Hiff%Hin.
Qed.
End history.

Lemma sparse_array_is_map_witness : exists sa,
  (sa ← new_SparseArray true 3 [7; -5; 0] (replicate 3 (MkIndexValue 9 0%nat));
   run_calls true sa [call_set 2 5%nat; call_insert 0 6%nat; call_set 2 8%nat; call_erase 2; call_resize 4 [1; 1; 1; 1] (MkIndexValue 0 0%nat); call_set 3 1%nat]) = Ret sa /\
  get true sa 0 9%nat = Ret 6%nat /\ get true sa 2 9%nat = Ret 9%nat.
Proof.
  destruct (sparse_array_is_map true 3 [7; -5; 0] (replicate 3 (MkIndexValue 9 0%nat))
    [call_set 2 5%nat; call_insert 0 6%nat; call_set 2 8%nat; call_erase 2; call_resize 4 [1; 1; 1; 1] (MkIndexValue 0 0%nat); call_set 3 1%nat]
    4 {[0 := 6%nat; 3 := 1%nat]}) as (sa&E&_&_&H);
    [split; by vm_compute|done|by repeat constructor|done|vm_compute; reflexivity|].
  exists sa. split; [exact E|]. destruct (H 0 9%nat) as (_&E0&_); [split; by vm_compute|]. destruct (H 2 9%nat) as (_&E2&_); [split; by vm_compute|].
  split; [etransitivity; [exact E0|vm_compute; reflexivity]|etransitivity; [exact E2|vm_compute; reflexivity]].
Defined.

(** ** Outside of the contract *)

(** [resize] to fewer keeps entries beyond the new maximum: when the array grows
    again, to a new allocation, and such an entry is moved, [erase] writes behind
    the end of [sparse_to_dense_]. *)
Lemma shrunk_array_writes_outside DEBUG_MODE : let blank := MkIndexValue 0 0%nat in
  (sa ← new_SparseArray DEBUG_MODE 10 (replicate 10 0) (replicate 10 blank);
   run_calls DEBUG_MODE sa [call_set 0 1%nat; call_set 9 1%nat; call_resize 2 [] blank; call_resize 3 [0; 0; 0] blank; call_erase 0]) = Throw BadIndex.
Proof. by destruct DEBUG_MODE; vm_compute. Qed.

(** Without assertions an index out of range is not inserted, but reported as if
    it were. *)
Lemma insert_out_of_range_reported sa : wf sa -> insert false sa (MkIndexValue (max_size_ sa) tt) = Ret (sa, (0, true)).
Proof.
  intros W. unfold insert. rewrite (DebugCheckInvariants_wf false sa W). unfold has_index, set_new. cbn -[decide]. rewrite !decide_True by done. done.
Qed.
