(* ===== verification/CompileOps.v ===== *)
(** * What the methods of the compiler leave alone

    A relation between the states before and after a call, shown for the calls
    that change the state and then for the methods made of them: no match
    instruction is made before the end, and the compiler fails only where it
    does not get an instruction. *)

From stdpp Require Import gmap.
From S2P Require Import Prelude Rune CharClass Regexp RegexpSem Walker Simplify Prog Compile CompileSem CompileFrags CompileMethods.

#[local] Open Scope nat_scope.

(** If the call returns, the states are related. *)
Definition keeps (R : Compiler -> Compiler -> Prop) {A} (m : compiling A) : Prop :=
  forall c a c', m c = Ret (a, c') -> R c c'.

Section keeps.
Context (R : Compiler -> Compiler -> Prop) `{!PreOrder R}.

Lemma keeps_ret {A} (a : A) : keeps R (mret a).
Proof. intros c x c' [= <- <-]. reflexivity. Qed.

Lemma keeps_get : keeps R comp_get.
Proof. intros c x c' [= <- <-]. reflexivity. Qed.

Lemma keeps_throw {A} e : keeps R (comp_throw (A := A) e).
Proof. by intros c x c'. Qed.

Lemma keeps_lift {A} (o : outcome A) : keeps R (lift o).
Proof. intros c x c'. unfold lift. destruct o; [|done]. intros [= <- <-]. reflexivity. Qed.

Lemma keeps_bind {A B} (m : compiling A) (k : A -> compiling B) : keeps R m -> (forall a, keeps R (k a)) -> keeps R (m ≫= k).
Proof.
  intros Hm Hk c b c'. unfold mbind, comp_bind. destruct (m c) as [[a c1]|] eqn:E; [|done]. intros H.
  etrans; [by eapply Hm|by eapply Hk].
Qed.
End keeps.

Create HintDb keeps.
#[export] Hint Resolve keeps_ret keeps_get keeps_throw keeps_lift : keeps.

(** Through a method. *)
Ltac keeps_step :=
  match goal with
  | |- keeps _ (_ ≫= _) => apply keeps_bind; [apply _| |intros]
  | |- keeps _ (let '(_, _) := ?x in _) => destruct x
  | |- keeps _ (match ?x with _ => _ end) => destruct x
  | |- keeps _ _ => solve [eauto with keeps typeclass_instances]
  end.
Ltac keeps_auto := repeat keeps_step.

(** ** No match instructions *)

(** From instruction [k] on. *)
Definition no_match (k : nat) (prog : list Inst) : Prop := forall x, k <= x -> op_at prog x <> Some kInstMatch.
Definition match_free (k : nat) (c c' : Compiler) : Prop := no_match k (insts c) -> no_match k (insts c').

Section free.
Context (k : nat).

#[export] Instance match_free_preorder : PreOrder (match_free k).
Proof. split; unfold match_free; [by intros c|intros c1 c2 c3 H1 H2 H; auto]. Qed.

(** Members other than the instructions. *)
Lemma free_set (m : compiling unit) : (forall c, exists c', m c = Ret ((), c') /\ insts c' = insts c) -> keeps (match_free k) m.
Proof. intros H c [] c' E. destruct (H c) as (c1&E'&Hi). rewrite E in E'. injection E' as <-. unfold match_free. by rewrite Hi. Qed.

Lemma set_slot_op f w ip ip' : set_slot f w ip = Some ip' -> kind (opcode_ ip') = kind (opcode_ ip).
Proof. destruct f; cbn; [by intros [= <-]|]. destruct ip as [[]]; cbn; by intros [= <-]. Qed.

Lemma write_word_op prog l w prog' : write_word prog l w = Ret prog' -> forall x, op_at prog' x = op_at prog x.
Proof.
  unfold write_word. destruct (prog !! l.1) as [ip|] eqn:Hip; [|done]. cbn. destruct (set_slot l.2 w ip) as [ip'|] eqn:Hs; [|done].
  cbn. intros [= <-] x. unfold op_at. destruct (decide (x = l.1)) as [->|Hx].
  - rewrite list_lookup_insert_eq by (by eapply lookup_lt_Some). rewrite Hip. cbn. by rewrite (set_slot_op _ _ _ _ Hs).
  - by rewrite list_lookup_insert_ne.
Qed.

Lemma Patch_op prog l val prog' : Patch prog l val = Ret prog' -> forall x, op_at prog' x = op_at prog x.
Proof.
  unfold Patch. generalize (2 * length prog). intros n. revert prog l. induction n as [|n IH]; intros prog [l|]; cbn; try done; try (by intros [= <-]).
  destruct (next prog l) as [nxt|]; [|done]. cbn. destruct (write_word prog l (word_of val)) as [prog1|] eqn:E; [|done]. cbn.
  intros H x. by rewrite (IH _ _ H), (write_word_op _ _ _ _ E).
Qed.

Lemma Append_op prog l1 l2 l prog' : Append prog l1 l2 = Ret (l, prog') -> forall x, op_at prog' x = op_at prog x.
Proof.
  unfold Append. destruct l1 as [l1|], l2 as [l2|]; try (by intros [= _ <-]).
  destruct (append_loop _ _ _); [|done]. cbn. destruct (write_word _ _ _) as [prog1|] eqn:E; [|done]. intros [= _ <-]. by eapply write_word_op.
Qed.

Lemma free_ops c c' : (forall x, op_at (insts c') x = op_at (insts c) x) -> match_free k c c'.
Proof. intros H N x Hx. rewrite H. by apply N. Qed.

Lemma free_patch l val : keeps (match_free k) (patch l val).
Proof.
  intros c [] c'. unfold patch, mbind, comp_bind, comp_get, lift. destruct (Patch _ _ _) as [prog|] eqn:E; [|done]. intros [= <-].
  apply free_ops. by apply (Patch_op _ _ _ _ E).
Qed.

Lemma free_append l1 l2 : keeps (match_free k) (append l1 l2).
Proof.
  intros c l c'. unfold append, mbind, comp_bind, comp_get, lift. destruct (Append _ _ _) as [[l' prog]|] eqn:E; [|done]. intros [= <- <-].
  apply free_ops. by apply (Append_op _ _ _ _ _ E).
Qed.

Lemma free_write l w : keeps (match_free k) (c ← comp_get; prog ← lift (write_word (insts c) l w); set_insts prog).
Proof.
  intros c [] c'. unfold mbind, comp_bind, comp_get, lift. destruct (write_word _ _ _) as [prog|] eqn:E; [|done]. intros [= <-].
  apply free_ops. by apply (write_word_op _ _ _ _ E).
Qed.

Lemma free_alloc ip : opcode_ ip <> kInstMatch -> keeps (match_free k) (AllocInst ip).
Proof.
  intros Hip c a c' [= _ <-] N x Hk Hx. cbn in Hx. unfold op_at in Hx.
  destruct (decide (x < length (insts c))) as [H|H].
  - rewrite lookup_app_l in Hx by done. by apply (N x).
  - rewrite lookup_app_r in Hx by lia. destruct (x - length (insts c)) as [|d]; [|done]. cbn in Hx. by destruct ip as [[] ?].
Qed.

Lemma free_CanAllocInst : keeps (match_free k) CanAllocInst.
Proof.
  intros c ok c'. unfold CanAllocInst, mbind, comp_bind, comp_get. destruct (failed_ c); [intros [= _ <-]; by apply free_ops|]. cbn.
  case_decide; intros [= _ <-]; by apply free_ops.
Qed.

Lemma free_mark lo hi : keeps (match_free k) (mark lo hi).
Proof. intros c [] c'. unfold mark, mbind, comp_bind, comp_get, lift. destruct (MarkByteRange _ _ _); [|done]. intros [= <-]. by apply free_ops. Qed.

End free.

#[export] Hint Resolve free_patch free_append free_CanAllocInst free_mark : keeps.
#[export] Hint Extern 1 (keeps (match_free _) (AllocInst _)) => (apply free_alloc; repeat (case_match || case_decide); done) : keeps.
#[export] Hint Extern 1 (keeps (match_free _) (set_byte_inst_count _)) => (apply free_set; intros c; by eexists) : keeps.
#[export] Hint Extern 1 (keeps (match_free _) set_failed) => (apply free_set; intros c; by eexists) : keeps.
#[export] Hint Extern 1 (keeps (match_free _) (set_rune_cache _)) => (apply free_set; intros c; by eexists) : keeps.
#[export] Hint Extern 1 (keeps (match_free _) (set_rune_range _)) => (apply free_set; intros c; by eexists) : keeps.

(** ** The methods *)

Section methods.
Context (k : nat).

Lemma free_deref p : keeps (match_free k) (deref p).
Proof. unfold deref. keeps_auto. Qed.
#[local] Hint Resolve free_deref : keeps.

Lemma free_IsNoMatch a : keeps (match_free k) (IsNoMatch a).
Proof. unfold IsNoMatch. keeps_auto. Qed.
#[local] Hint Resolve free_IsNoMatch : keeps.

Lemma free_Cat a b : keeps (match_free k) (Cat a b).
Proof. unfold Cat. keeps_auto. Qed.

Lemma free_Alt a b : keeps (match_free k) (Alt a b).
Proof. unfold Alt. keeps_auto. Qed.

Lemma free_Star a ng : keeps (match_free k) (Star a ng).
Proof.
  unfold Star. apply keeps_bind; [apply _|auto with keeps|]. intros ok. destruct (negb ok); [auto with keeps typeclass_instances|].
  apply keeps_bind; [apply _|auto with keeps|]. intros ip. apply keeps_bind; [apply _|auto with keeps|]. intros _.
  intros c r c'. pose proof (free_write k (ip, if ng then Out1 else Out) (word_of (begin a)) c ()) as H. revert H.
  unfold mbind, comp_bind, comp_get, lift. destruct (write_word _ _ _) as [prog|]; [|done]. intros H [= _ <-]. by apply H.
Qed.
#[local] Hint Resolve free_Cat free_Alt free_Star : keeps.

Lemma free_Plus a ng : keeps (match_free k) (Plus a ng).
Proof. unfold Plus. keeps_auto. Qed.
Lemma free_Quest a ng : keeps (match_free k) (Quest a ng).
Proof. unfold Quest. keeps_auto. Qed.
Lemma free_ByteRange lo hi fold : keeps (match_free k) (ByteRange lo hi fold).
Proof. unfold ByteRange, InitByteRange. keeps_auto. Qed.
Lemma free_Nop : keeps (match_free k) Nop.
Proof. unfold Nop. keeps_auto. Qed.
Lemma free_mark_words fuel : forall i, keeps (match_free k) (mark_words fuel i).
Proof. induction fuel as [|fuel IH]; intros i; cbn [mark_words]; keeps_auto. Qed.
#[local] Hint Resolve free_Plus free_Quest free_ByteRange free_Nop free_mark_words : keeps.
Lemma free_EmptyWidth e : keeps (match_free k) (EmptyWidth e).
Proof. unfold EmptyWidth. keeps_auto. Qed.
Lemma free_Capture a n : keeps (match_free k) (Capture a n).
Proof. unfold Capture. keeps_auto. Qed.
Lemma free_UncachedRuneByteSuffix lo hi fold nxt : keeps (match_free k) (UncachedRuneByteSuffix lo hi fold nxt).
Proof. unfold UncachedRuneByteSuffix. keeps_auto. Qed.
#[local] Hint Resolve free_EmptyWidth free_Capture free_UncachedRuneByteSuffix : keeps.
Lemma free_RuneByteSuffix lo hi fold nxt : keeps (match_free k) (RuneByteSuffix lo hi fold nxt).
Proof. unfold RuneByteSuffix. keeps_auto. Qed.
Lemma free_AddSuffix ip : keeps (match_free k) (AddSuffix ip).
Proof. unfold AddSuffix. keeps_auto. Qed.
#[local] Hint Resolve free_RuneByteSuffix free_AddSuffix : keeps.
Lemma free_add_table table : forall inst, keeps (match_free k) (add_table table inst).
Proof. induction table as [|[[nxt lo] hi] table IH]; intros inst; cbn [add_table]; keeps_auto. Qed.
Lemma free_add_bytes rs : forall ip, keeps (match_free k) (add_bytes rs ip).
Proof. induction rs as [|[lo hi] rs IH]; intros ip; cbn [add_bytes]; keeps_auto. Qed.
#[local] Hint Resolve free_add_table free_add_bytes : keeps.
Lemma free_AddRuneRangeUTF8 fuel : forall lo hi fold, keeps (match_free k) (AddRuneRangeUTF8 fuel lo hi fold).
Proof. induction fuel as [|fuel IH]; intros lo hi fold; cbn [AddRuneRangeUTF8]; unfold Add_80_10ffff; keeps_auto. Qed.
#[local] Hint Resolve free_AddRuneRangeUTF8 : keeps.
Lemma free_AddRuneRange lo hi fold : keeps (match_free k) (AddRuneRange lo hi fold).
Proof. unfold AddRuneRange, AddRuneRangeLatin1. keeps_auto. Qed.
#[local] Hint Resolve free_AddRuneRange : keeps.
Lemma free_add_class rs fold : keeps (match_free k) (add_class rs fold).
Proof. induction rs as [|[lo hi] rs IH]; cbn [add_class]; keeps_auto. Qed.
Lemma free_cat_bytes buf : forall f, keeps (match_free k) (cat_bytes f buf).
Proof. induction buf as [|b buf IH]; intros f; cbn [cat_bytes]; keeps_auto. Qed.
#[local] Hint Resolve free_add_class free_cat_bytes : keeps.
Lemma free_Literal r fold : keeps (match_free k) (Literal r fold).
Proof. unfold Literal. keeps_auto. Qed.
#[local] Hint Resolve free_Literal : keeps.
Lemma free_cat_literals rs fold : forall f, keeps (match_free k) (cat_literals f rs fold).
Proof. induction rs as [|r rs IH]; intros f; cbn [cat_literals]; keeps_auto. Qed.
Lemma free_join_frags join fs : (forall a b, keeps (match_free k) (join a b)) -> forall f, keeps (match_free k) (join_frags join f fs).
Proof. intros H. induction fs as [|g fs IH]; intros f; cbn [join_frags]; keeps_auto. Qed.
#[local] Hint Resolve free_cat_literals free_join_frags : keeps.
Lemma free_PostVisit re parent pre fs : keeps (match_free k) (PostVisit re parent pre fs).
Proof. unfold PostVisit, BeginRange, EndRange, child. keeps_auto. Qed.
#[local] Hint Resolve free_PostVisit : keeps.

(** The whole walk. *)
Lemma free_walk re : forall parent b, keeps (match_free k) (walk PreVisit PostVisit Copy ShortVisit (fun _ _ => false) false re parent b).
Proof.
  induction re as [op f sm subs IH] using Regexp_rec_subs. intros parent b. rewrite walk_unfold. unfold PreVisit, ShortVisit.
  assert (Hc : forall pre l fs b, Forall (fun re => forall parent b, keeps (match_free k) (walk PreVisit PostVisit Copy ShortVisit (fun _ _ => false) false re parent b)) l ->
    keeps (match_free k) (walk_children Copy (fun _ _ => false) false (walk PreVisit PostVisit Copy ShortVisit (fun _ _ => false) false) (Re op f sm subs) pre l fs b)).
  { intros pre l. induction l as [|re l IHl]; intros fs b' Hl; cbn [walk_children]; [auto with keeps typeclass_instances|].
    apply Forall_cons in Hl as [Hre Hl]. unfold Copy. repeat first [apply Hre|apply IHl, Hl|keeps_step]. }
  repeat first [apply Hc, IH|keeps_step].
Qed.

Lemma free_WalkExponential re max_visits :
  keeps (match_free k) (WalkExponential PreVisit PostVisit Copy ShortVisit (fun _ _ => false) re kNullFrag max_visits).
Proof.
  intros c x c'. unfold WalkExponential, WalkInternal. rewrite WalkInternal_walk by lia.
  revert c x c'. change (keeps (match_free k) ('(t, b) ← walk PreVisit PostVisit Copy ShortVisit (fun _ _ => false) false re kNullFrag (max_visits, false); mret (t, b.2))).
  repeat first [apply free_walk|keeps_step].
Qed.
End methods.

(** ** Failing *)

(** The compiler has failed only where it is out of room. *)
Definition full (c : Compiler) : Prop := failed_ c = true -> (max_inst_ c < Z.of_nat (length (insts c)))%Z.

(** What allocates nothing does not fail. *)
Definition unfailing (c c' : Compiler) : Prop :=
  failed_ c' = failed_ c /\ max_inst_ c' = max_inst_ c /\ length (insts c) <= length (insts c').

#[export] Instance unfailing_preorder : PreOrder unfailing.
Proof. split; unfold unfailing; [done|intros c1 c2 c3 (?&?&?) (?&?&?); split_and!; congruence || lia]. Qed.

Lemma unfailing_length prog prog' : (forall x, op_at prog' x = op_at prog x) -> length prog <= length prog'.
Proof.
  intros H. destruct (decide (length prog' < length prog)) as [Hlt|]; [|lia]. specialize (H (length prog')).
  unfold op_at in H. rewrite (lookup_ge_None_2 prog') in H by lia. destruct (lookup_lt_is_Some_2 prog _ Hlt) as [ip E]. by rewrite E in H.
Qed.

Lemma unfailing_ops prog c : (forall x, op_at prog x = op_at (insts c) x) -> unfailing c (with_insts prog c).
Proof. intros H. split_and!; [done|done|by apply unfailing_length]. Qed.

Lemma unfailing_patch l val : keeps unfailing (patch l val).
Proof.
  intros c [] c'. unfold patch, mbind, comp_bind, comp_get, lift. destruct (Patch _ _ _) as [prog|] eqn:E; [|done]. intros [= <-].
  apply unfailing_ops. by apply (Patch_op _ _ _ _ E).
Qed.

Lemma unfailing_alloc ip : keeps unfailing (AllocInst ip).
Proof. intros c a c' [= _ <-]. split_and!; [done|done|]. cbn. rewrite length_app. lia. Qed.

Lemma unfailing_mark lo hi : keeps unfailing (mark lo hi).
Proof. intros c [] c'. unfold mark, mbind, comp_bind, comp_get, lift. destruct (MarkByteRange _ _ _); [|done]. by intros [= <-]. Qed.

Lemma unfailing_bytes n : keeps unfailing (set_byte_inst_count n).
Proof. by intros c [] c' [= <-]. Qed.

#[export] Hint Resolve unfailing_patch unfailing_alloc unfailing_mark unfailing_bytes : keeps.

Lemma alloc_full {A} (x : A) (m : compiling A) c : sound c -> full c -> keeps unfailing m ->
  forall r c', (ok ← CanAllocInst; if negb ok then mret x else m) c = Ret (r, c') -> full c'.
Proof.
  intros S H Hm r c'. unfold CanAllocInst, mbind, comp_bind, comp_get. destruct (failed_ c) eqn:Hf; [by intros [= _ <-]|].
  destruct (sound_counts _ S Hf) as [Hn _]. cbn. case_decide as Hd; cbn; [intros [= _ <-] _; cbn; lia|].
  intros E%Hm. destruct E as (E1&_&_). intros Hf'. rewrite E1 in Hf'. cbn in Hf'. congruence.
Qed.

Lemma Match_full c r c' : sound c -> full c -> Match c = Ret (r, c') -> full c'.
Proof. intros S H. apply alloc_full; [done|done|]. keeps_auto. Qed.

Lemma ByteRange_full lo hi fold c r c' : sound c -> full c -> ByteRange lo hi fold c = Ret (r, c') -> full c'.
Proof. intros S H. unfold ByteRange. apply alloc_full; [done|done|]. keeps_auto. Qed.

Lemma Star_full a ng c r c' : sound c -> full c -> Star a ng c = Ret (r, c') -> full c'.
Proof.
  intros S H. apply alloc_full; [done|done|]. apply keeps_bind; [apply _|auto with keeps|]. intros ip.
  apply keeps_bind; [apply _|auto with keeps|]. intros _ c1 f c2. unfold mbind, comp_bind, comp_get, lift.
  destruct (write_word _ _ _) as [prog|] eqn:E; [|done]. intros [= _ <-]. apply unfailing_ops. by apply (write_word_op _ _ _ _ E).
Qed.
