(* ===== verification/Marks.v ===== *)
(** * The marks of the optimizer

    What [Prog::Optimize] marks as [kInstAltMatch] has the form the engines
    rely on: one of its words goes to a range of bytes, the other one to a
    match. *)

From stdpp Require Import gmap relations.
From S2P Require Import Prelude Rune CharClass Regexp RegexpSem Walker Prog Compile CompileSem CompileFrags CompileOps Optimize.

#[local] Open Scope nat_scope.

(** From [y] there is nothing but [kInstNop]s and [kInstCapture]s to a match. *)
Definition ends_here (prog : list Inst) (y : nat) : Prop :=
  exists m, op_at prog m = Some kInstMatch /\ rtc (fun a b => silent prog b a) y m.

(** [y] reads any byte and goes back to [x]. *)
Definition byte_loop (prog : list Inst) (x y : nat) : Prop :=
  target prog (y, Out) = Some (ToInst x) /\ exists fold, op_at prog y = Some (kInstByteRange 0 255 fold).

(** What [x], with the words [y] and [z], has to be. *)
Definition marked_form (prog : list Inst) (x : nat) : Prop := exists y z,
  target prog (x, Out) = Some (ToInst y) /\ target prog (x, Out1) = Some (ToInst z)
  /\ (byte_loop prog x y /\ ends_here prog z \/ ends_here prog y /\ byte_loop prog x z).

Definition marks_true (prog : list Inst) : Prop := forall x, op_at prog x = Some (kInstAltMatch NULL) -> marked_form prog x.

Definition unmarked (prog : list Inst) : Prop := forall x, op_at prog x <> Some (kInstAltMatch NULL).

Lemma op_at_inst prog x ip : prog !! x = Some ip -> op_at prog x = Some (kind (opcode_ ip)).
Proof. unfold op_at. by intros ->. Qed.

Lemma op_at_lookup prog x op : op_at prog x = Some op -> exists ip, prog !! x = Some ip /\ kind (opcode_ ip) = op.
Proof. unfold op_at. destruct (prog !! x) as [ip|]; [|done]. intros [= <-]. by exists ip. Qed.

Lemma inst_at_inv prog p ip : inst_at prog p = Ret ip -> exists x, p = Some x /\ prog !! x = Some ip.
Proof. unfold inst_at, inst_of. destruct p as [x|]; [|done]. cbn. destruct (prog !! x) eqn:E; [|done]. intros [= ->]. by exists x. Qed.

Lemma as_ptr_inv w p : as_ptr w = Ret p -> w = word_of p.
Proof. destruct w; by intros [= <-]. Qed.

(** The two tests. *)
Lemma IsMatch_ends prog : forall fuel p, IsMatch fuel prog p = Ret true -> exists y, p = Some y /\ ends_here prog y.
Proof.
  induction fuel as [|fuel IH]; intros p; cbn [IsMatch]; destruct (inst_at prog p) as [ip|] eqn:E; try done; cbn [mbind outcome_bind];
    apply inst_at_inv in E as (y&->&Hip); pose proof (op_at_inst _ _ _ Hip) as Ho.
  1: destruct (opcode_ ip); try done; intros _; exists y; split; [done|]; by exists y.
  assert (Hsil : silent_op (kind (opcode_ ip)) -> (p ← as_ptr (out_ ip); IsMatch fuel prog p) = Ret true ->
    exists y', Some y = Some y' /\ ends_here prog y').
  { intros Hs. destruct (as_ptr (out_ ip)) as [p|] eqn:Ep; [|done]. apply as_ptr_inv in Ep. cbn [mbind outcome_bind].
    intros (z&->&m&Hm&Hr)%IH. exists y. split; [done|]. exists m. split; [done|]. eapply rtc_l; [|exact Hr].
    split; [by eexists|]. unfold target. cbn. rewrite Hip. cbn. by rewrite Ep. }
  destruct (opcode_ ip); try done.
  - apply Hsil. right. by eexists.
  - intros _. exists y. split; [done|]. by exists y.
  - apply Hsil. by left.
Qed.

Lemma loops_back_range prog p x : loops_back prog p x = Ret true -> exists y, p = Some y /\ byte_loop prog x y.
Proof.
  unfold loops_back. destruct (inst_at prog p) as [ip|] eqn:E; [|done]. apply inst_at_inv in E as (y&->&Hip). cbn [mbind outcome_bind].
  destruct (opcode_ ip) eqn:Hop; try done. intros [= H].
  apply andb_true_iff in H as [[E1%bool_decide_eq_true ->%bool_decide_eq_true]%andb_true_iff ->%bool_decide_eq_true].
  exists y. split; [done|]. split; [unfold target; cbn; rewrite Hip; cbn; by rewrite E1|]. apply op_at_inst in Hip. rewrite Hop in Hip. by eexists.
Qed.

(** Marking an alternative changes nothing else. *)
Lemma ends_here_kept prog prog' y : (forall l, target prog' l = target prog l) ->
  (forall x op, op_at prog x = Some op -> op <> kInstAlt NULL -> op_at prog' x = Some op) -> ends_here prog y -> ends_here prog' y.
Proof.
  intros HT HO (m&Hm&Hr). exists m. split; [by apply HO|]. clear Hm. induction Hr as [|a b c [(op&Ho&Hs) Ht] _ IH]; [done|].
  eapply rtc_l; [|exact IH]. split; [|by rewrite HT]. exists op. split; [|done]. apply HO; [done|]. intros ->. by destruct Hs as [?|[? ?]].
Qed.

Lemma marked_form_kept prog prog' x : (forall l, target prog' l = target prog l) ->
  (forall x op, op_at prog x = Some op -> op <> kInstAlt NULL -> op_at prog' x = Some op) -> marked_form prog x -> marked_form prog' x.
Proof.
  intros HT HO (y&z&Hy&Hz&H). exists y, z. rewrite !HT. split; [done|]. split; [done|].
  assert (HB : forall v, byte_loop prog x v -> byte_loop prog' x v) by (intros v (Ht&fold&Hv); split; [by rewrite HT|exists fold; by apply HO]).
  destruct H as [[? ?]|[? ?]]; [left|right]; split; try (by apply HB); by eapply ends_here_kept.
Qed.

Lemma set_AltMatch_marks prog x ip w : prog !! x = Some ip -> opcode_ ip = kInstAlt w -> marked_form prog x -> marks_true prog ->
  marks_true (<[x := set_AltMatch ip]> prog).
Proof.
  intros Hip Hop Hx HM. set (prog' := <[x := set_AltMatch ip]> prog). pose proof (lookup_lt_Some _ _ _ Hip) as Hlt.
  assert (Hx' : prog' !! x = Some (MkInst (kInstAltMatch w) (out_ ip))).
  { unfold prog', set_AltMatch. rewrite Hop. by apply list_lookup_insert_eq. }
  assert (Hy : forall y, y <> x -> prog' !! y = prog !! y) by (intros y Hy; by apply list_lookup_insert_ne).
  assert (HT : forall l, target prog' l = target prog l).
  { intros [y f]. unfold target. cbn. destruct (decide (y = x)) as [->|E]; [|by rewrite Hy]. rewrite Hx', Hip. cbn.
    destruct f; cbn; [done|]. unfold slot. by rewrite Hop. }
  assert (HO : forall y op, op_at prog y = Some op -> op <> kInstAlt NULL -> op_at prog' y = Some op).
  { intros y op. unfold op_at. destruct (decide (y = x)) as [->|E]; [|by rewrite Hy]. rewrite Hip. cbn. rewrite Hop. by intros [= <-]. }
  intros v Hv. apply (marked_form_kept prog); [done|done|]. destruct (decide (v = x)) as [->|E]; [done|]. apply HM. revert Hv. unfold op_at. by rewrite Hy.
Qed.

Lemma mark_alt_marks prog x ip w j k prog' : prog !! x = Some ip -> opcode_ ip = kInstAlt w ->
  as_ptr (out_ ip) = Ret j -> as_ptr w = Ret k -> mark_alt prog x ip j k = Ret prog' -> marks_true prog -> marks_true prog'.
Proof.
  intros Hip Hop Hj%as_ptr_inv Hk%as_ptr_inv E HM. destruct (alt_of _ _ _ _ Hip Hop) as (_&T0&T1). rewrite Hj in T0. rewrite Hk in T1.
  assert (Hset : (exists y z, j = Some y /\ k = Some z /\ (byte_loop prog x y /\ ends_here prog z \/ ends_here prog y /\ byte_loop prog x z)) ->
    marks_true (<[x := set_AltMatch ip]> prog)).
  { intros (y&z&->&->&H). eapply set_AltMatch_marks; [done..| |done]. by exists y, z. }
  unfold mark_alt in E. destruct (loops_back prog j x) as [b1|] eqn:E1; [|done]. cbn [mbind outcome_bind] in E.
  destruct (if b1 then IsMatch (length prog) prog k else Ret false) as [m1|] eqn:E2; [|done]. cbn [mbind outcome_bind] in E. destruct m1.
  { injection E as <-. apply Hset. destruct b1; [|done]. apply loops_back_range in E1 as (y&->&?). apply IsMatch_ends in E2 as (z&->&?).
    exists y, z. split_and!; [done..|by left]. }
  destruct (IsMatch (length prog) prog j) as [m2|] eqn:E3; [|done]. cbn [mbind outcome_bind] in E.
  destruct (if m2 then loops_back prog k x else Ret false) as [b2|] eqn:E4; [|done]. cbn [mbind outcome_bind] in E. destruct b2; injection E as <-; [|done].
  apply Hset. destruct m2; [|done]. apply IsMatch_ends in E3 as (y&->&?). apply loops_back_range in E4 as (z&->&?).
  exists y, z. split_and!; [done..|by right].
Qed.

Lemma alt_loop_marks : forall fuel prog q i prog', alt_loop fuel prog q i = Ret prog' -> marks_true prog -> marks_true prog'.
Proof.
  induction fuel as [|fuel IH]; intros prog q i prog'; cbn [alt_loop]; destruct (q !! i) as [x|]; try (by intros [= <-]).
  destruct (inst_of prog x) as [ip|] eqn:Hip; [|done]. cbn [mbind outcome_bind].
  destruct (as_ptr (out_ ip)) as [j|] eqn:Ej; [|done]. cbn [mbind outcome_bind].
  unfold inst_of in Hip. destruct (prog !! x) as [ip'|] eqn:Hip'; [|done]. cbn in Hip. injection Hip as ->.
  destruct (opcode_ ip) eqn:Hop; try (by apply IH).
  destruct (as_ptr out1) as [k|] eqn:Ek; [|done]. cbn [mbind outcome_bind]. destruct (mark_alt prog x ip j k) as [prog1|] eqn:Em; [|done].
  cbn [mbind outcome_bind]. intros E HM. eapply IH; [exact E|]. by eapply mark_alt_marks.
Qed.

(** The first loop marks nothing. *)
Lemma shorten_op prog q l prog' q' : shorten prog q l = Ret (prog', q') -> forall x, op_at prog' x = op_at prog x.
Proof.
  unfold shorten. destruct (read_word prog l) as [w|]; [|done]. cbn [mbind outcome_bind]. destruct (as_ptr w) as [j|]; [|done]. cbn [mbind outcome_bind].
  destruct (skip_nops _ prog j) as [j'|]; [|done]. cbn [mbind outcome_bind]. destruct (write_word _ _ _) as [prog1|] eqn:E; [|done].
  cbn [mbind outcome_bind]. intros [= <- _]. by eapply write_word_op.
Qed.

Lemma nop_loop_op : forall fuel prog q i prog', nop_loop fuel prog q i = Ret prog' -> forall x, op_at prog' x = op_at prog x.
Proof.
  induction fuel as [|fuel IH]; intros prog q i prog'; cbn [nop_loop]; destruct (q !! i) as [y|]; try (by intros [= <-]).
  destruct (inst_of prog y) as [ip|]; [|done]. cbn [mbind outcome_bind].
  destruct (shorten prog q (y, Out)) as [[prog1 q1]|] eqn:E1; [|done]. cbn [mbind outcome_bind].
  destruct (match opcode_ ip with kInstAlt _ => shorten prog1 q1 (y, Out1) | _ => Ret (prog1, q1) end) as [[prog2 q2]|] eqn:E2; [|done].
  cbn [mbind outcome_bind]. intros E x. rewrite (IH _ _ _ _ E), <- (shorten_op _ _ _ _ _ E1).
  destruct (opcode_ ip); try (by injection E2 as <- <-). by eapply shorten_op.
Qed.

Lemma Optimize_marks prog start prog' : unmarked prog -> Optimize prog start = Ret prog' -> marks_true prog'.
Proof.
  intros HU. unfold Optimize. destruct (nop_loop _ prog _ 0) as [prog1|] eqn:E; [|done]. cbn [mbind outcome_bind]. intros H.
  eapply alt_loop_marks; [exact H|]. intros x Hx. rewrite (nop_loop_op _ _ _ _ _ E) in Hx. by apply HU in Hx.
Qed.

(** ** What is accepted from a marked alternative *)

Section text.
Context (text : bytes).

Lemma step_through prog x f y i j op : op_at prog x = Some op -> target prog (x, f) = Some (ToInst y) -> leaves text op f i j ->
  steps text prog (x, i) (y, j).
Proof. intros Ho Ht Hl. apply steps_iff. exists f. split; [done|]. by exists op. Qed.

Lemma accepts_step prog x i y j k : steps text prog (x, i) (y, j) -> accepts text prog y j k -> accepts text prog x i k.
Proof. intros Hs (m&Hm&Hr). exists m. split; [done|]. by eapply rtc_l. Qed.

Lemma ends_here_accepts prog z i : ends_here prog z -> accepts text prog z i i.
Proof.
  intros (m&Hm&Hr). exists m. split; [done|]. clear Hm. induction Hr as [|a b c [(op&Ho&Hs) Ht] _ IH]; [done|].
  eapply rtc_l; [|exact IH]. eapply step_through; [done..|]. by destruct Hs as [->|[? ->]].
Qed.

Lemma byte_loop_steps prog x y i : byte_loop prog x y -> i < length text -> steps text prog (y, i) (x, S i).
Proof.
  intros [Ht [fold Ho]] Hi. destruct (lookup_lt_is_Some_2 text i Hi) as [c Hc]. eapply step_through; [done..|]. split; [done|]. split; [done|].
  exists c. split; [done|]. pose proof (uchar_range c). unfold Matches. destruct fold; cbn [andb]; apply bool_decide_eq_true; [case_bool_decide|]; lia.
Qed.

Lemma marked_accepts prog x : op_at prog x = Some (kInstAltMatch NULL) -> marked_form prog x ->
  forall i j, i <= j <= length text -> accepts text prog x i j.
Proof.
  intros Ho (y&z&Hy&Hz&H).
  assert (HS : forall f v i, target prog (x, f) = Some (ToInst v) -> steps text prog (x, i) (v, i)) by (intros f v i Ht; by eapply step_through).
  assert (HD : exists v u f g, target prog (x, f) = Some (ToInst v) /\ target prog (x, g) = Some (ToInst u) /\ byte_loop prog x v /\ ends_here prog u).
  { destruct H as [[? ?]|[? ?]]; [exists y, z, Out, Out1|exists z, y, Out1, Out]; done. }
  destruct HD as (v&u&f&g&Hv&Hu&HB&HE). intros i j Hij. remember (j - i) as d eqn:Ed. revert i Hij Ed. induction d as [|d IH]; intros i Hij Ed.
  - assert (i = j) as -> by lia. eapply accepts_step; [by apply (HS g)|by apply ends_here_accepts].
  - eapply accepts_step; [by apply (HS f)|]. eapply accepts_step; [by apply byte_loop_steps; [|lia]|]. apply IH; lia.
Qed.

(** ** A run goes forward in the text *)

Lemma leaves_mono op f i j : leaves text op f i j -> i <= j.
Proof. destruct op; cbn; try lia; naive_solver lia. Qed.

Lemma steps_mono prog x q y r : steps text prog (x, q) (y, r) -> q <= r.
Proof. intros (ip&f&_&_&H). by eapply leaves_mono. Qed.

Lemma accepts_mono prog x q e : accepts text prog x q e -> q <= e.
Proof.
  intros (m&_&Hr). remember (x, q) as a eqn:Ea. remember (m, e) as b eqn:Eb. revert x q Ea.
  induction Hr as [a|a [y r] b Hs _ IH]; intros x q ->; [injection Eb as _ ->; lia|]. apply steps_mono in Hs. specialize (IH Eb y r eq_refl). lia.
Qed.
End text.
