(* ===== verification/Compiled.v ===== *)
(** * Whole programs: [Compiler::Compile] of src/libs/re2/src/re2/compile.cc

    The expression is simplified, its anchors are taken out, it is compiled and
    optimized; the program finds what the expression matches. *)

From stdpp Require Import gmap fin_sets relations.
From S2P Require Import Prelude Rune CharClass Regexp RegexpSem Walker Simplify Prog Compile CompileSem CompileFrags CompileMethods.
From S2P Require Import RuneRanges CompileRunes CompileSpans CompileNodes Optimize CompileOps.

#[local] Open Scope nat_scope.
#[local] Open Scope xap_scope.

(** ** The code *)

(** The members of [Prog] that the compiler sets. *)
Record Prog := MkProg {
  prog_insts : list Inst;
  prog_byte_inst_count_ : Z;
  flags_ : Z;
  anchor_start_ : bool;
  anchor_end_ : bool;
  start_ : ptr;
  start_unanchored_ : ptr;
  prog_reversed_ : bool;
  bytemap_ : list Z;
  dfa_mem_ : Z;
}.

Section compile.
(** The sizes of the classes in memory, which depend on the platform. *)
Context (sizeof_Prog sizeof_Inst : Z).

Definition max_inst (max_mem : Z) : Z :=
  if decide (max_mem <= 0)%Z then 100000
  else if decide (max_mem <= sizeof_Prog)%Z then 0
  else let m := ((max_mem - sizeof_Prog) `div` sizeof_Inst)%Z in
    if decide (Z.shiftl 1 24 <= m)%Z then Z.shiftl 1 24 else m.

Definition dfa_mem (max_mem inst_count : Z) : Z :=
  if decide (max_mem <= 0)%Z then Z.shiftl 1 20
  else let m := (max_mem - sizeof_Prog - inst_count * sizeof_Inst)%Z in
    if decide (m < 0)%Z then 0 else m.

(** The unanchored version starts with [.*?]. *)
Definition unanchored (anchor_start : bool) (all : Frag) : compiling ptr :=
  if anchor_start then mret (begin all) else
  dot ← ByteRange 0x00 0xFF false;
  dotloop ← Star dot true;
  f ← Cat dotloop all;
  mret (begin f).

(** From the fragment on. *)
Definition finish_prog (flags : Z) (reversed is_anchor_start is_anchor_end : bool) (max_mem : Z) (f : Frag) : compiling Prog :=
  set_reversed false;;
  m ← Match;
  all ← Cat f m;
  let anchor_start := if reversed then is_anchor_end else is_anchor_start in
  let anchor_end := if reversed then is_anchor_start else is_anchor_end in
  start_unanchored ← unanchored anchor_start all;
  c ← comp_get;
  prog ← lift (Optimize (insts c) (begin all));
  mret (MkProg prog (byte_inst_count_ c) flags anchor_start anchor_end (begin all) start_unanchored reversed
    (ComputeByteMap (byterange_ c)) (dfa_mem max_mem (inst_count_ c))).

(** None is NULL. *)
Definition Compile (same_child : Regexp -> nat -> bool) (re : Regexp) (reversed : bool) (max_mem : Z) : outcome (option Prog) :=
  let encoding := if flag (parse_flags_ re) Latin1 then kEncodingLatin1 else kEncodingUTF8 in
  '(sre, _) ← Simplify same_child re;
  let '(is_anchor_start, sre) := IsAnchorStart sre in
  let '(is_anchor_end, sre) := IsAnchorEnd sre in
  let run :=
    '(f, _) ← WalkExponential PreVisit PostVisit Copy ShortVisit (fun _ _ => false) sre kNullFrag (2 * max_inst max_mem);
    c ← comp_get;
    if failed_ c then mret None else
    p ← finish_prog (parse_flags_ re) reversed is_anchor_start is_anchor_end max_mem f; mret (Some p) in
  '(p, _) ← run (new_Compiler encoding reversed (max_inst max_mem));
  Ret p.
End compile.

(** [a+b] *)
Definition a_plus_b : Regexp := Concat [set_simple true (Regexp.Plus (set_simple true (NewLiteral 97 0)) 0); set_simple true (NewLiteral 98 0)] 0.
