(* ===== verification/BitState.v ===== *)
(** * Backtracking with a bit for each state: src/libs/re2/src/re2/bitstate.cc

    A depth-first search through the pairs of an instruction and a position,
    with its own stack of jobs, that visits each pair once. *)

From stdpp Require Import gmap.
From S2P Require Import Prelude Rune CharClass Regexp Walker Prog Compile Optimize Compiled.

#[local] Open Scope Z_scope.

(** ** Pointers into the text *)

(** The text is a part of its context, so a [const char *] is NULL or a
    position in the context. *)
Abbreviation cptr := (option nat).

(** [StringPiece]: [data] and [length]. *)
Abbreviation StringPiece := (cptr * Z)%type.

Record Job := MkJob { job_ip : ptr; job_p : cptr; job_arg : Z }.

(** The members that change in a search, and [matched] of [TrySearch]; [job_] has
    the top of the stack first and its length is [njob_]. *)
Record BitState := MkBitState {
  submatch_ : list StringPiece;
  cap_ : list cptr;
  visited_ : gset Z;
  job_ : list Job;
  maxjob_ : Z;
  matched : bool;
}.

Abbreviation searching := (comp BitState).

Definition set_submatch (l : list StringPiece) : searching unit := fun s =>
  Ret ((), MkBitState l (cap_ s) (visited_ s) (job_ s) (maxjob_ s) (matched s)).
Definition set_cap (l : list cptr) : searching unit := fun s =>
  Ret ((), MkBitState (submatch_ s) l (visited_ s) (job_ s) (maxjob_ s) (matched s)).
Definition set_visited (v : gset Z) : searching unit := fun s =>
  Ret ((), MkBitState (submatch_ s) (cap_ s) v (job_ s) (maxjob_ s) (matched s)).
Definition set_job (l : list Job) : searching unit := fun s =>
  Ret ((), MkBitState (submatch_ s) (cap_ s) (visited_ s) l (maxjob_ s) (matched s)).
Definition set_maxjob (n : Z) : searching unit := fun s =>
  Ret ((), MkBitState (submatch_ s) (cap_ s) (visited_ s) (job_ s) n (matched s)).
Definition set_matched (b : bool) : searching unit := fun s =>
  Ret ((), MkBitState (submatch_ s) (cap_ s) (visited_ s) (job_ s) (maxjob_ s) b).

(** The result of an [int] operation. *)
Definition int_op (z : Z) : outcome Z := if decide (in_int 32 z) then Ret z else Throw IntOverflow.

(** What the body of the loop does next. *)
Inductive control :=
| NextJob
| CheckAndLoop (ip : ptr) (p : cptr)
| Return (found : bool).

Section bitstate.
(** Whether the build is without [NDEBUG], so that [LOG(DFATAL)] aborts. *)
Context (DEBUG_MODE : bool).
(** Where the context is in memory. *)
Context (base : Z).

Definition LOG_DFATAL : searching unit := if DEBUG_MODE then comp_throw AssertFailed else mret ().

Definition address (p : cptr) : Z := match p with None => 0 | Some i => base + Z.of_nat i end.
Definition piece (b e : cptr) : StringPiece := (b, swrap 32 (address e - address b)).
Definition piece_end (s : StringPiece) : Z := address s.1 + s.2.

Section search.
(** The members that [Search] sets: the program, the context, where the text
    begins and ends in it, and the kind of the search. *)
Context (prog_ : list Inst) (context_ : bytes) (text_begin text_end : nat) (longest_ endmatch_ : bool).
Context (nsubmatch_ : nat) (ncap_ nvisited_ : Z).

Definition VisitedBits : Z := 32.

Definition ShouldVisit (ip : ptr) (p : cptr) : searching bool :=
  id ← lift (from_option_or NullDeref ip);
  size1 ← lift (int_op (Z.of_nat (text_end - text_begin) + 1));
  row ← lift (int_op (Z.of_nat id * size1));
  let n := uwrap 32 (row + (address p - address (Some text_begin))) in
  if decide (nvisited_ <= n / VisitedBits) then comp_throw BadIndex else
  s ← comp_get;
  if decide (n ∈ visited_ s) then mret false else
  set_visited ({[n]} ∪ visited_ s);; mret true.

Definition GrowStack : searching bool :=
  s ← comp_get;
  m ← lift (int_op (maxjob_ s * 2));
  set_maxjob m;;
  if decide (m <= Z.of_nat (length (job_ s))) then LOG_DFATAL;; mret false else mret true.

Definition Push (ip : ptr) (p : cptr) (arg : Z) : searching unit :=
  s ← comp_get;
  ok ← (if decide (maxjob_ s <= Z.of_nat (length (job_ s))) then GrowStack else mret true);
  if negb ok then mret () else
  i ← lift (inst_at prog_ ip);
  if is_Fail (opcode_ i) then mret () else
  visit ← (if decide (arg = 0) then ShouldVisit ip p else mret true);
  if negb visit then mret () else
  s ← comp_get; set_job (MkJob ip p arg :: job_ s).

(** [cap_[i]], read and written. *)
Definition get_cap (i : Z) : searching cptr :=
  s ← comp_get; if decide (0 <= i) then lift (from_option_or BadIndex (cap_ s !! Z.to_nat i)) else comp_throw BadIndex.
Definition put_cap (i : Z) (p : cptr) : searching unit :=
  s ← comp_get;
  if decide (0 <= i < Z.of_nat (length (cap_ s))) then set_cap (<[Z.to_nat i := p]> (cap_ s)) else comp_throw BadIndex.

(** Every [submatch_[i]] from the capture registers, from [i] on. *)
Fixpoint fill_submatch (n i : nat) : searching unit :=
  match n with
  | O => mret ()
  | S n' =>
      b ← get_cap (Z.of_nat (2 * i));
      e ← get_cap (Z.of_nat (2 * i + 1));
      s ← comp_get;
      (if decide (i < length (submatch_ s))%nat then set_submatch (<[i := piece b e]> (submatch_ s)) else comp_throw BadIndex);;
      fill_submatch n' (S i)
  end.

Definition is_ByteRange (op : InstOp) : bool := match op with kInstByteRange _ _ _ => true | _ => false end.

(** The case of [kInstMatch] at [p]. *)
Definition found_match (p : cptr) : searching control :=
  if endmatch_ && bool_decide (p <> Some text_end) then mret NextJob else
  if decide (nsubmatch_ = O) then mret (Return true) else
  set_matched true;;
  put_cap 1 p;;
  s ← comp_get;
  best ← lift (from_option_or BadIndex (submatch_ s !! O));
  (if bool_decide (best.1 = None) || longest_ && bool_decide (piece_end best < address p)
   then fill_submatch nsubmatch_ 0 else mret ());;
  if negb longest_ then mret (Return true) else
  if decide (p = Some text_end) then mret (Return true) else mret NextJob.

(** The body of the loop, after [CheckAndLoop]. *)
Definition visit (ip : ptr) (p : cptr) (arg : Z) : searching control :=
  i ← lift (inst_at prog_ ip);
  match opcode_ i with
  | kInstFail => LOG_DFATAL;; mret (Return false)
  | kInstAlt w =>
      if decide (arg = 0) then
        Push ip p 1;; out ← lift (as_ptr (out_ i)); mret (CheckAndLoop out p)
      else if decide (arg = 1) then
        out1 ← lift (as_ptr w); mret (CheckAndLoop out1 p)
      else LOG_DFATAL;; mret NextJob
  | kInstAltMatch w =>
      out ← lift (as_ptr (out_ i));
      out1 ← lift (as_ptr w);
      o ← lift (inst_at prog_ out);
      if is_ByteRange (opcode_ o) then
        Push out1 p 0;; mret (CheckAndLoop out1 (Some text_end))
      else
        Push out (Some text_end) 0;; mret (CheckAndLoop out p)
  | kInstByteRange lo hi foldcase =>
      pos ← lift (from_option_or NullDeref p);
      c ← (if decide (pos < text_end)%nat then lift (at_ context_ pos) else mret (-1));
      if Matches lo hi foldcase c then
        out ← lift (as_ptr (out_ i)); mret (CheckAndLoop out (Some (S pos)))
      else mret NextJob
  | kInstCapture cap =>
      if decide (arg = 0) then
        (if decide (0 <= cap < ncap_) then old ← get_cap cap; Push ip old 1;; put_cap cap p else mret ());;
        out ← lift (as_ptr (out_ i)); mret (CheckAndLoop out p)
      else if decide (arg = 1) then put_cap cap p;; mret NextJob
      else LOG_DFATAL;; mret NextJob
  | kInstEmptyWidth empty =>
      pos ← lift (from_option_or NullDeref p);
      flags ← lift (EmptyFlags context_ pos);
      if decide (Z.land empty (Z.lnot flags) <> 0) then mret NextJob else
      out ← lift (as_ptr (out_ i)); mret (CheckAndLoop out p)
  | kInstNop => out ← lift (as_ptr (out_ i)); mret (CheckAndLoop out p)
  | kInstMatch => found_match p
  end.

(** The loop: a job is taken from the stack, or a pair is checked. *)
Fixpoint try_loop (fuel : nat) (k : control) : searching bool :=
  match fuel with
  | O => comp_throw OutOfFuel
  | S fuel' =>
      match k with
      | Return found => mret found
      | CheckAndLoop ip p =>
          ok ← ShouldVisit ip p;
          if (ok : bool) then k ← visit ip p 0; try_loop fuel' k else try_loop fuel' NextJob
      | NextJob =>
          s ← comp_get;
          match job_ s with
          | [] => mret (matched s)
          | j :: jobs => set_job jobs;; k ← visit (job_ip j) (job_p j) (job_arg j); try_loop fuel' k
          end
      end
  end.

(** The pairs there are. *)
Definition pairs : nat := length prog_ * S (text_end - text_begin).

Definition TrySearch (ip0 : ptr) (p0 : cptr) : searching bool :=
  set_matched false;; set_job [];; Push ip0 p0 0;; try_loop (5 * pairs + 8) NextJob.

(** The loop of an unanchored search, over [n] positions from [p]. *)
Fixpoint search_from (start : ptr) (n p : nat) : searching bool :=
  match n with
  | O => mret false
  | S n' =>
      put_cap 0 (Some p);;
      found ← TrySearch start (Some p);
      if (found : bool) then mret true else search_from start n' (S p)
  end.
End search.

(** [Search] for a [text] between [before] and [after] in its context; without
    a context the text is its own. *)
Definition Search (p : Prog) (text : bytes) (context : option (bytes * bytes)) (anchored longest : bool)
    (submatch : list StringPiece) : outcome (bool * list StringPiece) :=
  let '(before, after) := from_option id ([], []) context in
  let context_ := before ++ text ++ after in
  let text_begin := length before in
  let text_end := (text_begin + length text)%nat in
  if anchor_start_ p && bool_decide (before <> []) then Ret (false, submatch) else
  if anchor_end_ p && bool_decide (after <> []) then Ret (false, submatch) else
  let nsubmatch := length submatch in
  let submatch := replicate nsubmatch (None, 0) in
  let size := Z.of_nat (length (prog_insts p)) in
  size1 ← int_op (Z.of_nat (length text) + 1);
  let nvisited := swrap 32 ((size * size1 + VisitedBits - 1) `quot` VisitedBits) in
  ncap ← int_op (2 * Z.of_nat nsubmatch);
  let ncap := if decide (ncap < 2) then 2 else ncap in
  let run :=
    if anchored || anchor_start_ p then
      put_cap 0 (Some text_begin);;
      TrySearch (prog_insts p) context_ text_begin text_end (longest || anchor_end_ p) (anchor_end_ p) nsubmatch ncap nvisited
        (start_ p) (Some text_begin)
    else
      search_from (prog_insts p) context_ text_begin text_end (longest || anchor_end_ p) (anchor_end_ p) nsubmatch ncap nvisited
        (start_ p) (S (length text)) text_begin in
  '(found, s) ← run (MkBitState submatch (replicate (Z.to_nat ncap) None) ∅ [] 256 false);
  Ret (found, submatch_ s).

Inductive Anchor := kUnanchored | kAnchored.
Inductive MatchKind := kFirstMatch | kLongestMatch | kFullMatch.

(** [Prog::SearchBitState]; [sp0] takes the match where the caller has no
    place for it. *)
Definition SearchBitState (p : Prog) (text : bytes) (context : option (bytes * bytes)) (anchor : Anchor) (kind : MatchKind)
    (match_ : list StringPiece) : outcome (bool * list StringPiece) :=
  let full := match kind with kFullMatch => true | _ => false end in
  let anchored := full || match anchor with kAnchored => true | kUnanchored => false end in
  let longest := match kind with kFirstMatch => false | _ => true end in
  let sp0 := full && bool_decide (match_ = []) in
  '(found, pieces) ← Search p text context anchored longest (if sp0 then [(None, 0)] else match_);
  let visible := if sp0 then [] else pieces in
  if negb found then Ret (false, visible) else
  if full then
    best ← from_option_or BadIndex (pieces !! O);
    let text_begin := length (from_option fst [] context) in
    if decide (piece_end best <> address (Some (text_begin + length text)%nat)) then Ret (false, visible) else Ret (true, visible)
  else Ret (true, visible).
End bitstate.

(** [a+b] on [xaab]. *)
Example a_plus_b_found :
  match Compile 560 40 (fun _ _ => false) a_plus_b false 0 with
  | Ret (Some p) => SearchBitState true 4096 p (B "xaab") None kUnanchored kFirstMatch [(None, 0); (None, 0)]
      = Ret (true, [(Some 1%nat, 3); (None, 0)])
  | _ => False
  end.
Proof. by vm_compute. Qed.
