(* ===== verification/CompileProps.v ===== *)
(** * What compiled programs find

    The end of a compilation, where the match instruction and the loop of the
    unanchored program are added, and the theorem for the whole compiler. *)

From stdpp Require Import gmap fin_sets relations.
From S2P Require Import Prelude Rune CharClass Regexp RegexpSem Walker Simplify Prog Compile CompileSem CompileFrags CompileMethods.
From S2P Require Import RuneRanges CompileRunes CompileSpans CompileNodes Optimize CompileOps Marks Compiled.

#[local] Open Scope nat_scope.
#[local] Open Scope xap_scope.

Section text.
Context (text : bytes).

Abbreviation agree := (agree text).
Abbreviation accepts := (accepts text).
Abbreviation steps := (steps text).

(** ** What is accepted through a fragment *)

Lemma accepts_fail prog i j : fails prog -> ~ accepts prog 0 i j.
Proof.
  intros F (m&Hm&Hr). inversion Hr as [|? [y k] ? Hs _]; subst.
  - unfold op_at in Hm. by rewrite F in Hm.
  - apply steps_iff in Hs as (f&Ht&_). by apply target_fail in Ht.
Qed.

Section patch.
Context (D : gset nat) (prog prog' : list Inst) (a : Frag) (ls : list loc) (R : span) (y : nat).
Hypotheses (F : fails prog) (F' : fails prog') (W : frag_wf prog D a ls) (H : frag_does text prog D a ls R)
  (P : patched prog prog' ls (ToInst y)) (N : forall x, x ∈ D -> op_at prog x <> Some kInstMatch).

Lemma accepts_runs x i j : inside D x -> accepts prog' x i j <-> then_ (runs text prog ls x) (accepts prog' y) i j.
Proof.
  pose proof (patched_patched_on D _ _ _ _ P) as Pa. pose proof (filled_closed _ _ _ _ F W (does_filled _ _ _ _ _ _ H)) as C.
  intros Hx. split.
  - intros (m&Hm&Hr). remember (x, i) as p eqn:Ep. remember (m, j) as q eqn:Eq. revert x i Hx Ep.
    induction Hr as [p|p [z k] q Hs Hr IH]; intros x i Hx ->; [injection Eq as -> ->|].
    + exfalso. rewrite (patched_op _ _ _ _ P) in Hm. destruct Hx as [->|Hx]; [|by apply (N _ Hx)]. unfold op_at in Hm. by rewrite F in Hm.
    + apply steps_iff in Hs as (f&Ht&Hmv). rewrite (patched_target _ _ _ _ P) in Ht.
      assert (Hmv' : moves text prog (x, f) i k) by (unfold moves in *; cbn in *; by rewrite <- (patched_op _ _ _ _ P)).
      case_decide as Hl.
      * injection Ht as <-. exists k. split; [by apply runs_out with f|]. subst q. by exists m.
      * destruct (IH Eq z k) as (k'&Hrun&Hacc); [by eapply C|done|]. exists k'. split; [by apply runs_step with f z k|done].
  - intros (k&Hrun&(m&Hm&Hr)). exists m. split; [done|]. clear Hx. induction Hrun as [x f i k Hl Hmv|x f z i k' k Ht Hmv _ IH].
    + eapply rtc_l; [|exact Hr]. apply steps_iff. exists f. rewrite (patched_target _ _ _ _ P), decide_True by done.
      split; [done|]. unfold moves in *. cbn in *. by rewrite (patched_op _ _ _ _ P).
    + eapply rtc_l; [|by apply IH]. apply steps_iff. exists f. rewrite (patched_target _ _ _ _ P), decide_False.
      * split; [done|]. unfold moves in *. cbn in *. by rewrite (patched_op _ _ _ _ P).
      * intros Hl. by eapply (open_not_inst _ _ _ _ _ (wf_list _ _ _ _ W) Hl).
Qed.

Lemma accepts_patched b : begin a = Some b -> agree (accepts prog' b) (then_ R (accepts prog' y)).
Proof.
  intros B. destruct (wf_begin _ _ _ _ W) as (b'&E&I). rewrite B in E. injection E as <-.
  intros i j Hi. rewrite (accepts_runs b i j I). revert i j Hi. apply then_agree; [apply runs_bounded|by apply H|done].
Qed.

Lemma complete_patched Db : complete Db prog' -> inside Db y -> complete (D ∪ Db) prog'.
Proof.
  intros C Hy. pose proof (patched_patched_on D _ _ _ _ P) as Pa.
  assert (I : forall z, inside D z \/ inside Db z -> inside (D ∪ Db) z) by (intros z [[->|?]|[->|?]]; [by left|right; set_solver|by left|right; set_solver]).
  assert (I' : forall z, inside (D ∪ Db) z -> z ∈ D \/ inside Db z) by (intros z [->|[?|?]%elem_of_union]; [right; by left|by left|right; by right]).
  split.
  - intros x [Hx|Hx]%I'; [|by apply (co_nodes _ _ C)]. rewrite (patched_length _ _ _ _ P). by apply (wf_nodes _ _ _ _ W).
  - intros x f w [Hx|Hx]%I' Ht.
    + destruct (on_filled D prog prog' ls y (does_filled _ _ _ _ _ _ H) Pa x f w Hx Ht) as [->|[(z&->&Hz)|[Ho ->]]].
      * left. exists y. auto.
      * left. exists z. auto.
      * right. split; [done|]. by left.
    + destruct (co_words _ _ C _ _ _ Hx Ht) as [(z&->&Hz)|?]; [left; exists z; auto|by right].
  - intros x [Hx|Hx]%I'; [|by apply (co_silent _ _ C)].
    apply (on_silent D prog prog' a ls y); [done..|apply H|done|by apply (co_silent _ _ C)|apply H|done].
Qed.
End patch.

(** The outcome of [Cat a b], [b] being in the region [Db]: what is accepted is
    read by [a] first. *)
Definition joined (c : Compiler) (Da Db : gset nat) (Ra : span) (bb : nat) (f : Frag) (c' : Compiler) : Prop :=
  exists s, begin f = Some s /\ sound c' /\ grows Da c c' /\ failed_ c' = failed_ c /\ length (insts c') = length (insts c)
    /\ (failed_ c = false -> agree (accepts (insts c') s) (then_ Ra (accepts (insts c) bb))
        /\ exists D', complete D' (insts c') /\ inside D' s).

(** The instructions of a region and what can be reached from it. *)
Lemma frame_reach D prog prog' p q : closed D prog -> (forall x, inside D x -> prog' !! x = prog !! x) ->
  rtc (steps prog) p q -> inside D p.1 -> inside D q.1 /\ rtc (steps prog') p q.
Proof.
  intros C S. induction 1 as [|[p k] [z k'] q Hs _ IH]; [done|]. cbn. intros Hp. pose proof Hs as Hs'. apply steps_iff in Hs as (f&E&_).
  destruct IH as [? IH]; [by eapply C|]. split; [done|]. eapply rtc_l; [|exact IH]. unfold Prog.steps in *. cbn in *. by rewrite S.
Qed.

Lemma complete_closed D prog : complete D prog -> closed D prog.
Proof. intros C x f y Hx E. destruct (co_words _ _ C _ _ _ Hx E) as [(?&[= <-]&?)|[? _]]; done. Qed.

Lemma complete_frame D prog prog' : fails prog -> fails prog' -> (forall x, x ∈ D -> prog' !! x = prog !! x) -> length prog <= length prog' ->
  complete D prog -> complete D prog' /\ forall x, inside D x -> accepts prog' x ≡ₛ accepts prog x.
Proof.
  intros F F' S L C. assert (HS : forall x, inside D x -> prog' !! x = prog !! x) by (intros x [->|Hx]; [by rewrite F, F'|by apply S]).
  assert (Ho : forall x, inside D x -> op_at prog' x = op_at prog x) by (intros x Hx; unfold op_at; by rewrite HS).
  assert (Ht : forall x f, inside D x -> target prog' (x, f) = target prog (x, f)) by (intros x f Hx; unfold target; cbn; by rewrite HS).
  assert (C' : complete D prog').
  { split.
    - intros x Hx. pose proof (co_nodes _ _ C x Hx). lia.
    - intros x f w Hx. rewrite Ht, Ho by done. by apply (co_words _ _ C).
    - intros x Hx. apply (silent_same D prog); [by apply complete_closed|by apply same_code_eq|done|by apply (co_silent _ _ C)]. }
  split; [done|]. intros x Hx i j. split; intros (m&Hm&Hr).
  - destruct (frame_reach D prog' prog _ _ (complete_closed _ _ C') (fun x Hx => eq_sym (HS x Hx)) Hr Hx) as [Hi Hr'].
    exists m. by rewrite <- Ho.
  - destruct (frame_reach D prog prog' _ _ (complete_closed _ _ C) HS Hr Hx) as [Hi Hr']. exists m. by rewrite Ho.
Qed.

Lemma complete_nil prog : fails prog -> complete ∅ prog.
Proof.
  intros F. assert (H0 : forall x, inside ∅ x -> x = 0) by (by intros x [->|?%not_elem_of_empty]). split.
  - intros x ->%H0. by apply fails_lt.
  - intros x f w ->%H0. unfold target, op_at. cbn. rewrite F. destruct f; [|done]. intros [= <-]. right. split; [done|by right].
  - intros x ->%H0. constructor. intros y [_ Ht]. by apply target_fail in Ht.
Qed.

Lemma accepts_Fail prog b ip i j : prog !! b = Some ip -> is_Fail (opcode_ ip) = true -> ~ accepts prog b i j.
Proof.
  intros Hip Hf (m&Hm&Hr). assert (Ho : op_at prog b = Some kInstFail) by (unfold op_at; rewrite Hip; cbn; by destruct (opcode_ ip)).
  inversion Hr as [|? [y k] ? Hs _]; subst; [congruence|]. apply steps_iff in Hs as (f&_&Hmv). by apply (moves_op _ _ _ _ _ _ _ Ho) in Hmv.
Qed.

(** The two ways to join fragments that do match. *)
Section join.
Context (c : Compiler) (Da Db : gset nat) (a : Frag) (Ra : span) (bb : nat).
Hypotheses (S : sound c) (Ha : frag_ok text c Da a Ra) (Cb : complete Db (insts c)) (Ib : inside Db bb) (HD : Da ## Db)
  (N : forall x, x ∈ Da -> op_at (insts c) x <> Some kInstMatch).

Lemma patched_frame lsa prog' : frag_wf (insts c) Da a lsa -> fails prog' -> patched (insts c) prog' lsa (ToInst bb) ->
  complete Db prog' /\ forall x, inside Db x -> accepts prog' x ≡ₛ accepts (insts c) x.
Proof.
  intros Wa F' P. apply complete_frame; [apply S|done| |by rewrite (patched_length _ _ _ _ P)|done].
  intros x Hx. apply (patched_same _ _ _ _ P). intros g Hg. apply (wf_open _ _ _ _ Wa) in Hg. set_solver.
Qed.

Lemma patch_joined f s : begin f = Some s ->
  (forall lsa prog', failed_ c = false -> frag_wf (insts c) Da a lsa -> frag_does text (insts c) Da a lsa Ra -> fails prog' ->
    patched (insts c) prog' lsa (ToInst bb) -> complete Db prog' ->
    agree (accepts prog' s) (then_ Ra (accepts prog' bb)) /\ exists D', complete D' prog' /\ inside D' s) ->
  wp (patch (end_ a) (Some bb);; mret f) (joined c Da Db Ra bb) c.
Proof.
  intros Hs H. destruct Ha as (lsa&Wa&Hd). pose proof (wf_open _ _ _ _ Wa) as Oa. pose proof (wf_nodes _ _ _ _ Wa) as Na.
  apply call_bind, (patch_wp _ _ lsa); [apply Wa..|]. intros prog' P. apply call_ret.
  destruct (patched_kept c c prog' Da lsa _ P) as [S' G]; [done|intros x Hx; apply Na in Hx; lia|done|apply grows_refl|].
  destruct (patched_frame lsa prog' Wa (sound_fails _ S') P) as [C' HE].
  exists s. split_and!; [done|done|done|done|apply P|]. intros Hf.
  destruct (H lsa prog' Hf Wa (Hd Hf) (sound_fails _ S') P C') as [HA HC]. split; [|done]. cbn. rewrite HA.
  intros i j Hi. unfold then_. split; intros (k&?&Hk); exists k; (split; [done|]); by apply (HE bb Ib k j).
Qed.
End join.

(** [Cat] for the end of the program. *)
Lemma Cat_joined c Da Db a b Ra bb ipb : sound c -> reversed_ c = false -> frag_ok text c Da a Ra ->
  (forall x, x ∈ Da -> op_at (insts c) x <> Some kInstMatch) -> begin b = Some bb -> insts c !! bb = Some ipb ->
  complete Db (insts c) -> inside Db bb -> Da ## Db -> wp (Cat a b) (joined c Da Db Ra bb) c.
Proof.
  intros S Hrv Ha N Bb Hipb Cb Ib HD. pose proof (sound_fails _ S) as F.
  assert (HNo : (failed_ c = false -> agree (then_ Ra (accepts (insts c) bb)) (fun _ _ => False)) -> joined c Da Db Ra bb NoMatch c).
  { intros HN. exists 0. split_and!; [done|done|apply grows_refl|done|done|]. intros Hf. split.
    - rewrite (HN Hf). intros i j _. split; [by apply accepts_fail|done].
    - exists ∅. split; [by apply complete_nil|by left]. }
  unfold Cat. apply call_bind, (IsNoMatch_wp text c Da a Ra); [done..|]. intros ip ba Ba Hip.
  destruct (is_Fail (opcode_ ip)) eqn:Efa.
  { apply call_bind, call_ret, call_ret, HNo. intros Hf i j Hi. split; [|done]. intros (k&Hk&_).
    by apply (fail_span text c Da a Ra ba ip Ha Hf Ba Hip Efa i k Hi). }
  apply call_bind. unfold IsNoMatch at 1. rewrite Bb. apply call_bind, (deref_wp _ _ ipb); [done|]. apply call_ret.
  destruct (is_Fail (opcode_ ipb)) eqn:Efb.
  { apply call_ret, HNo. intros Hf i j Hi. split; [|done]. intros (k&_&Hk). by eapply accepts_Fail in Hk. }
  rewrite Ba. apply call_bind, (deref_wp _ _ ip); [done|]. destruct (is_Nop _ && _ && _) eqn:En.
  - apply andb_true_iff in En as [[E1 E2%bool_decide_eq_true]%andb_true_iff E3%bool_decide_eq_true].
    assert (insts c !! ba = Some (MkInst kInstNop NULL)) as Hnop.
    { rewrite Hip. destruct ip as [op o]; cbn in *. subst o. by destruct op. }
    apply (patch_joined c Da Db a Ra bb S Ha Cb Ib HD N b bb Bb). intros lsa prog' Hf _ _ _ _ C'. split; [|by exists Db].
    assert (E : agree Ra eq) by (eapply nop_span; [done..|by rewrite E2|done]). intros i j Hi. unfold then_. split.
    + intros H. exists i. split; [by apply E|done].
    + intros (k&Hk%E&H); [by subst|done].
  - apply call_bind, call_get. rewrite Hrv. apply (patch_joined c Da Db a Ra bb S Ha Cb Ib HD N _ ba); [done|].
    intros lsa prog' Hf Wa Hd F' P C'. split; [by apply (accepts_patched Da (insts c) prog' a lsa)|].
    exists (Da ∪ Db). split; [by apply (complete_patched Da (insts c) prog' a lsa Ra bb)|]. destruct (wf_begin _ _ _ _ Wa) as (b'&E&I). rewrite Ba in E. injection E as <-.
    destruct I; [by left|right; set_solver].
Qed.

(** ** The end of the program *)

Lemma call_eq {A} (m : compiling A) (Q Q' : A -> Compiler -> Prop) c : wp m Q c ->
  (forall a c', m c = Ret (a, c') -> Q a c' -> Q' a c') -> wp m Q' c.
Proof. unfold wp. destruct (m c) as [[a c']|]; [|done]. intros H HQ. by apply HQ. Qed.

Lemma call_bind_assoc {A B E} (m : compiling A) (k : A -> compiling B) (h : B -> compiling E) Q c :
  wp (m ≫= k) (fun b c' => wp (h b) Q c') c -> wp (a ← m; b ← k a; h b) Q c.
Proof. unfold wp, mbind, comp_bind. destruct (m c) as [[a c']|]; [|done]. by destruct (k a c') as [[b c2]|]. Qed.

Lemma kept_region c c' D D0 : sound c -> sound c' -> grows D0 c c' -> D0 ## D -> complete D (insts c) ->
  complete D (insts c') /\ forall x, inside D x -> accepts (insts c') x ≡ₛ accepts (insts c) x.
Proof.
  intros S S' G HD C. apply complete_frame; [apply S|apply S'| |apply G|done].
  intros x Hx. apply (grows_same _ _ _ G); [|set_solver]. apply (co_nodes _ _ C). by right.
Qed.

(** The match instruction. *)
Definition matching (c : Compiler) (m : Frag) (c' : Compiler) : Prop :=
  sound c' /\ grows ∅ c c' /\ (m = NoMatch \/ exists b, m = MkFrag (Some b) None /\ b = length (insts c)
    /\ failed_ c' = false /\ insts c' !! b = Some (MkInst kInstMatch NULL)) /\ (failed_ c' = false -> m <> NoMatch).

Lemma Match_wp c : sound c -> wp Match (matching c) c.
Proof.
  intros S. unfold Match. apply call_bind, (CanAllocInst_wp 0); [apply S|]. intros ok c' (n&fl&->&C&H1&H2&H3). destruct ok.
  - destruct (H2 eq_refl) as [-> Hf]. apply call_bind, AllocInst_wp, call_ret. cbn [insts with_count]. set (ip := MkInst kInstMatch NULL).
    pose proof (sound_fails _ S) as F. pose proof (fails_lt _ F) as Hpos.
    destruct (new_kept 1 c ∅ n (byte_inst_count_ c) (byterange_ c) (insts c ++ [ip]) S C Hf) as [S' G].
    + rewrite length_app. cbn. lia.
    + lia.
    + unfold fails. by rewrite lookup_app_l.
    + apply marked_new; [apply S|]. by intros x y.
    + apply marks_refl.
    + intros x Hx _. by rewrite lookup_app_l.
    + split; [exact S'|]. split; [exact G|]. split; [|intros _ [= E]; unfold fail_inst_ in E; lia]. right. exists (length (insts c)).
      split_and!; [done..|]. cbn. by rewrite list_lookup_middle.
  - rewrite (H1 eq_refl) in *. destruct (sound_failed c n S) as [S' G]. apply call_ret. split; [exact S'|]. split; [exact G|].
    split; [by left|]. by intros [=].
Qed.

Lemma match_region c b : sound c -> insts c !! b = Some (MkInst kInstMatch NULL) ->
  complete {[b]} (insts c) /\ accepts (insts c) b ≡ₛ eq.
Proof.
  intros S Hb. pose proof (sound_fails _ S) as F. assert (Ho : op_at (insts c) b = Some kInstMatch) by (unfold op_at; by rewrite Hb).
  assert (Ht : forall f y, target (insts c) (b, f) <> Some (ToInst y)) by (intros f y; unfold target; cbn; rewrite Hb; by destruct f).
  assert (HI : forall x, inside {[b]} x -> x = 0 \/ x = b) by (intros x [->|?%elem_of_singleton]; auto).
  pose proof (complete_nil _ F) as C0. split; [split|].
  - intros x [->| ->]%HI; [by apply fails_lt|by eapply lookup_lt_Some].
  - intros x f w [->| ->]%HI E.
    + destruct (co_words _ _ C0 0 f w (or_introl eq_refl) E) as [(y&->&_)|?]; [by apply target_fail in E|by right].
    + right. split; [|by left]. unfold target in E. cbn in E. rewrite Hb in E. destruct f; [by injection E|done].
  - intros x [->| ->]%HI; constructor; intros y [_ E]; [by apply target_fail in E|by apply Ht in E].
  - intros i j. split.
    + intros (m&_&Hr). inversion Hr as [|? [y k] ? Hs _]; subst; [done|]. apply steps_iff in Hs as (f&E&_). by apply Ht in E.
    + intros ->. by exists b.
Qed.

Lemma Cat_NoMatch c D a R : sound c -> frag_ok text c D a R -> wp (Cat a NoMatch) (fun f c' => f = NoMatch /\ c' = c) c.
Proof.
  intros S Ha. unfold Cat. apply call_bind, (IsNoMatch_wp text c D a R); [done..|]. intros ip ba Ba Hip.
  destruct (is_Fail (opcode_ ip)); [by apply call_bind, call_ret, call_ret|].
  apply call_bind. unfold IsNoMatch. cbn [begin NoMatch]. apply call_bind, (deref_wp _ _ (MkInst kInstFail NULL)); [apply S|].
  by apply call_ret, call_ret.
Qed.

(** A region from which the program goes on to a match. *)
Record runnable (c : Compiler) (all : Frag) (s : nat) (D : gset nat) : Prop := {
  run_sound : sound c;
  run_full : full c;
  run_begin : begin all = Some s;
  run_complete : complete D (insts c);
  run_inside : inside D s;
}.

Lemma Cat_Match_wp c f D R : sound c -> reversed_ c = false -> failed_ c = false -> frag_ok text c D f R -> no_match 0 (insts c) ->
  wp (m ← Match; Cat f m) (fun all c' => reversed_ c' = false /\ max_inst_ c' = max_inst_ c /\ exists s D', runnable c' all s D'
    /\ (failed_ c' = false -> agree (accepts (insts c') s) R)) c.
Proof.
  intros S Hrv Hf H N. apply call_bind. eapply call_eq; [by apply Match_wp|]. intros m c1 E1 (S1&G1&Hm&Hn).
  assert (Hfull : full c1) by (eapply Match_full; [exact S|by intros ?; congruence|exact E1]).
  pose proof (frag_ok_kept text c c1 ∅ D f R S S1 G1 ltac:(set_solver) H) as H1.
  destruct Hm as [->|(b&->&Eb&Hf1&Hb)].
  - eapply call_mono; [by eapply Cat_NoMatch|]. intros all c2 [-> ->]. split; [by rewrite (grows_reversed _ _ _ G1)|].
    split; [apply G1|]. exists 0, ∅. split; [|by intros ?%Hn]. split; [done|done|done|by apply complete_nil, S1|by left].
  - destruct (match_region c1 b S1 Hb) as [Cb Ab]. pose proof H as (ls&W&_). pose proof (wf_nodes _ _ _ _ W) as HN.
    eapply call_mono; [apply (Cat_joined c1 D {[b]} f _ R b (MkInst kInstMatch NULL)); [done| |done| |done|done|done|right; set_solver|]|].
    + by rewrite (grows_reversed _ _ _ G1).
    + intros x Hx. pose proof (HN x Hx). unfold op_at. rewrite (grows_same _ _ _ G1) by (lia || set_solver). apply (N x). lia.
    + intros x Hx ->%elem_of_singleton. apply HN in Hx. lia.
    + intros all c2 (s&Hs&S2&G2&Ef&EL&HA). destruct (HA Hf1) as [HA' (D'&C'&I')].
      split; [by rewrite (grows_reversed _ _ _ G2), (grows_reversed _ _ _ G1)|].
      split; [by rewrite (grows_max _ _ _ G2), (grows_max _ _ _ G1)|]. exists s, D'. split.
      * split; [done| |done|done|done]. intros E. congruence.
      * intros _. rewrite HA'. intros i j Hi. unfold then_. split; [intros (k&?&Hk); apply (Ab k j) in Hk; by subst|].
        intros Hij. exists j. split; [done|by apply (Ab j j)].
Qed.

(** Any bytes. *)
Definition any_bytes : span := fun i j => i <= j <= length text.

Lemma any_bytes_rtc : agree (rtc (reads_in text 0 255 false)) any_bytes.
Proof.
  intros i j Hi. unfold any_bytes. split.
  - intros H. revert Hi. induction H as [i|i k j (->&c&Hc&_) _ IH]; intros Hi; [lia|]. apply lookup_lt_Some in Hc. specialize (IH Hc). lia.
  - intros Hij. remember (j - i) as d eqn:Ed. clear Hi. revert i Hij Ed. induction d as [|d IH]; intros i Hij Ed.
    + by assert (i = j) as -> by lia.
    + eapply rtc_l; [|apply (IH (S i)); lia]. split; [done|]. destruct (lookup_lt_is_Some_2 text i ltac:(lia)) as [c Hc].
      exists c. split; [done|]. pose proof (uchar_range c). unfold Matches. cbn. apply bool_decide_eq_true. lia.
Qed.

Lemma since_disjoint c D D2 : (forall x, x ∈ D -> x < length (insts c)) -> since c ∅ D2 -> D2 ## D.
Proof. intros H N x Hx Hx'. apply H in Hx'. destruct (N x Hx) as [?%not_elem_of_empty|?]; [done|lia]. Qed.

(** What starts with a loop over any bytes. *)
Lemma dotloop_wp c all s D : runnable c all s D -> reversed_ c = false ->
  wp (dot ← ByteRange 0x00 0xFF false; Star dot true) (fun f c' => full c' /\ no_match (length (insts c)) (insts c')
    /\ yields text ∅ c any_bytes f c') c.
Proof.
  intros [S Fu _ C I] Hrv. assert (N0 : no_match (length (insts c)) (insts c)).
  { intros x Hx. unfold op_at. by rewrite lookup_ge_None_2. }
  apply call_bind. eapply call_eq; [by apply (ByteRange_yields text c ∅ 0 255 false)|]. intros dot c1 E1 (S1&G1&D1&H1&N1).
  eapply call_eq; [by apply (Star_wp text c1 D1)|]. intros f c2 E2 [H2 _]. split; [|split].
  - eapply Star_full; [exact S1| |exact E2]. eapply ByteRange_full; [exact S|exact Fu|exact E1].
  - eapply free_Star; [exact E2|]. eapply free_ByteRange; [exact E1|done].
  - eapply yields_after; [exact G1|exact N1|]. eapply yields_agree; [apply any_bytes_rtc|exact H2].
Qed.

Lemma unanchored_wp c all s D anchor : runnable c all s D -> reversed_ c = false ->
  wp (unanchored anchor all) (fun p c' => max_inst_ c' = max_inst_ c /\ sound c' /\ full c' /\ complete D (insts c')
    /\ exists u, p = Some u /\ (failed_ c' = false -> failed_ c = false /\ accepts (insts c') s ≡ₛ accepts (insts c) s
      /\ (anchor = true -> u = s) /\ (anchor = false -> agree (accepts (insts c') u) (then_ any_bytes (accepts (insts c) s))))) c.
Proof.
  intros Hr Hrv. pose proof Hr as [S Fu B C I]. unfold unanchored. destruct anchor.
  { apply call_ret. split_and!; [done..|]. exists s. split_and!; [done|]. intros Hf. split_and!; done. }
  assert (Hn : forall x, x ∈ D -> x < length (insts c)) by (intros x Hx; apply (co_nodes _ _ C); by right).
  apply call_bind_assoc. eapply call_mono; [by eapply dotloop_wp|]. intros f c1 (Fu1&N1&S1&G1&D1&H1&M1).
  pose proof (since_disjoint c D D1 Hn M1) as HD. destruct (kept_region c c1 D ∅ S S1 G1 ltac:(set_solver) C) as [C1 A1].
  assert (Hs : s < length (insts c1)) by (by apply (co_nodes _ _ C1)). destruct (lookup_lt_is_Some_2 _ _ Hs) as [ip Hip].
  apply call_bind. eapply call_mono; [apply (Cat_joined c1 D1 D f all any_bytes s ip); [done| |done| |done|done|done|done|done]|].
  - by rewrite (grows_reversed _ _ _ G1).
  - intros x Hx. apply N1. by destruct (M1 x Hx) as [?%not_elem_of_empty|?].
  - intros f2 c2 (u&Hu&S2&G2&Ef&EL&HA). apply call_ret. destruct (kept_region c1 c2 D D1 S1 S2 G2 HD C1) as [C2 A2].
    split; [by rewrite (grows_max _ _ _ G2), (grows_max _ _ _ G1)|]. split; [done|].
    split; [intros Hf; rewrite EL, (grows_max _ _ _ G2); apply Fu1; congruence|]. split; [done|]. exists u. split; [done|]. intros Hf2.
    assert (Hf1 : failed_ c1 = false) by congruence. destruct (HA Hf1) as [HA' _].
    split; [destruct (failed_ c) eqn:E; [apply (grows_failed _ _ _ G1) in E; congruence|done]|].
    split; [intros i j; by rewrite (A2 s I i j), (A1 s I i j)|]. split; [done|]. intros _. rewrite HA'. intros i j Hi. unfold then_.
    split; intros (k&?&Hk); exists k; (split; [done|]); by apply (A1 s I k j).
Qed.

(** ** The program *)

(** What is accepted from a pointer to an instruction. *)
Definition accepts_from (prog : list Inst) (p : ptr) : span := fun i j => exists x, p = Some x /\ accepts prog x i j.

Lemma accepts_from_Some prog x : accepts_from prog (Some x) ≡ₛ accepts prog x.
Proof. intros i j. split; [by intros (y&[= <-]&?)|intros ?; by exists x]. Qed.

(** The instruction does not tell the two bytes apart. *)
Definition not_told_apart (op : InstOp) (c d : Z) : Prop :=
  match op with
  | kInstByteRange lo hi fold => fold = false \/ (hi < 65)%Z \/ (90 < lo)%Z -> Matches lo hi fold c = Matches lo hi fold d
  | kInstEmptyWidth e =>
      (Z.land e (Z.lor kEmptyBeginLine kEmptyEndLine) <> 0%Z -> c = 10%Z <-> d = 10%Z)
      /\ (Z.land e (Z.lor kEmptyWordBoundary kEmptyNonWordBoundary) <> 0%Z -> IsWordChar c = IsWordChar d)
  | _ => True
  end.

Lemma marked_classes prog b c d : marked prog b -> c <= d < 256 -> ComputeByteMap b !! c = ComputeByteMap b !! d ->
  forall x op, op_at prog x = Some op -> not_told_apart op (Z.of_nat c) (Z.of_nat d).
Proof.
  intros M Hcd E x op Ho.
  assert (S : same_class b (Z.of_nat c) (Z.of_nat d)) by (intros k Hk; apply (ComputeByteMap_class b c d Hcd E); lia).
  specialize (M x op Ho (Z.of_nat c) (Z.of_nat d) ltac:(lia) ltac:(lia) S). destruct op; first [exact (proj2 M)|exact M|done].
Qed.

(** Bytes of one class are the same to each instruction. *)
Definition classes_right (p : Prog) : Prop := forall c d, c <= d < 256 -> bytemap_ p !! c = bytemap_ p !! d ->
  forall x op, op_at (prog_insts p) x = Some op -> not_told_apart op (Z.of_nat c) (Z.of_nat d).

(** From the start on the words are filled in, what is marked has the form that
    marks are for, and ranges are of bytes. *)
Definition well_shaped (p : Prog) : Prop := exists D s, complete D (prog_insts p) /\ start_ p = Some s /\ inside D s
  /\ marks_true (prog_insts p)
  /\ forall x lo hi fold, op_at (prog_insts p) x = Some (kInstByteRange lo hi fold) -> (0 <= lo)%Z.

Lemma marked_shape prog b : marked prog b -> unmarked prog
  /\ forall x lo hi fold, op_at prog x = Some (kInstByteRange lo hi fold) -> (0 <= lo)%Z.
Proof.
  intros M. assert (H : forall x op, op_at prog x = Some op -> match op with kInstByteRange lo _ _ => (0 <= lo)%Z | kInstAltMatch _ => False | _ => True end).
  { intros x op Ho. specialize (M x op Ho 0%Z 0%Z ltac:(lia) ltac:(lia) ltac:(intros k Hk; lia)). destruct op; try done; apply M. }
  split; [intros x Ho; by apply H in Ho|]. intros x lo hi fold Ho. by apply H in Ho.
Qed.

(** The program keeps its byte classes and its shape, and where it has not used
    up its room it finds [R]. *)
Definition finds (max : Z) (R : span) (p : Prog) : Prop :=
  classes_right p /\ well_shaped p /\ ((Z.of_nat (length (prog_insts p)) <= max)%Z ->
  agree (accepts_from (prog_insts p) (start_ p)) R
  /\ (anchor_start_ p = true -> start_unanchored_ p = start_ p)
  /\ (anchor_start_ p = false -> agree (accepts_from (prog_insts p) (start_unanchored_ p)) (then_ any_bytes R))).

Lemma finish_prog_wp sizeof_Prog sizeof_Inst c f D R flags rv astart aend max_mem : sound c -> failed_ c = false ->
  frag_ok text c D f R -> no_match 0 (insts c) ->
  wp (finish_prog sizeof_Prog sizeof_Inst flags rv astart aend max_mem f) (fun p _ => finds (max_inst_ c) R p
    /\ anchor_start_ p = (if rv then aend else astart) /\ anchor_end_ p = (if rv then astart else aend)) c.
Proof.
  intros S Hf H N. unfold finish_prog. apply call_bind.
  set (c0 := MkCompiler (insts c) (byte_inst_count_ c) (byterange_ c) (failed_ c) (encoding_ c) false
    (inst_count_ c) (max_inst_ c) (rune_cache_ c) (rune_range_ c)).
  assert (S0 : sound c0) by (destruct S; by split). change (wp ?m ?Q c) with (Q () c0). cbv beta.
  apply call_bind_assoc. eapply call_mono; [by apply (Cat_Match_wp c0 f D R)|].
  intros all c1 (Hrv1&M1&s&D1&Hr&HA1). pose proof (run_begin _ _ _ _ Hr) as ->. apply call_bind.
  eapply call_mono; [by apply (unanchored_wp c1 all s D1)|]. intros p c2 (M2&S2&Fu2&C2&u&->&HA2).
  apply call_bind, call_get, call_bind.
  destruct (Optimize_spec text D1 (insts c2) s C2 (run_inside _ _ _ _ Hr)) as (prog&E&C3&L&_&HO&HA). unfold wp at 1, lift. rewrite E. apply call_ret.
  split; [|done]. unfold finds. cbn [prog_insts anchor_start_ start_ start_unanchored_ bytemap_]. split.
  { unfold classes_right. cbn [prog_insts bytemap_]. intros k d Hkd Hm x op [Ho| ->]%HO; [|exact I].
    exact (marked_classes (insts c2) (byterange_ c2) k d (sound_marked _ S2) Hkd Hm x op Ho). }
  destruct (marked_shape _ _ (sound_marked _ S2)) as [HU HL]. split.
  { exists D1, s. split_and!; [done|done|exact (run_inside _ _ _ _ Hr)|by eapply Optimize_marks|].
    cbn [prog_insts]. intros x lo hi fold [Ho|Ho]%HO; [by eapply HL|done]. }
  intros Hroom.
  assert (Hf2 : failed_ c2 = false).
  { destruct (failed_ c2) eqn:Ef; [|done]. specialize (Fu2 Ef). rewrite L in Hroom. rewrite M2, M1 in Fu2. cbn in Fu2. lia. }
  destruct (HA2 Hf2) as (Hf1&As&U1&U2). specialize (HA1 Hf1).
  assert (Hstart : accepts prog s ≡ₛ accepts (insts c1) s) by (intros i j; by rewrite (HA s i j), (As i j)).
  split; [|split].
  - intros i j Hi. rewrite (accepts_from_Some prog s i j), (Hstart i j). by apply HA1.
  - by intros ->%U1.
  - intros Ha i j Hi. rewrite (accepts_from_Some prog u i j), (HA u i j), (U2 Ha i j Hi). unfold then_.
    split; intros (k&Hk&?); exists k; (split; [done|]); by apply HA1; [apply Hk|].
Qed.

(** ** Anchors *)

Lemma IsAnchorStart_spec latin1 t re : re_ok latin1 re -> re_ok latin1 (IsAnchorStart re).2
  /\ forall i j, i <= length t -> matches latin1 t re i j <-> ((IsAnchorStart re).1 = true -> i = 0) /\ matches latin1 t (IsAnchorStart re).2 i j.
Proof.
  induction re as [op f sm subs IH] using Regexp_rec_subs. intros Hok. pose proof Hok as Hok0.
  apply re_ok_unfold in Hok0 as [Hop Hsubs].
  assert (Hno : re_ok latin1 (Re op f sm subs) /\ forall i j, i <= length t ->
    matches latin1 t (Re op f sm subs) i j <-> (false = true -> i = 0) /\ matches latin1 t (Re op f sm subs) i j) by (split; [done|]; naive_solver).
  destruct op; try exact Hno; cbn [IsAnchorStart].
  - destruct subs as [|sub subs]; [exact Hno|]. apply Forall_cons in IH as [IH _]. apply Forall_cons in Hsubs as [Hs Hss].
    destruct (IH Hs) as [Hok' Hm]. destruct (IsAnchorStart sub) as [b sub']. cbn [fst snd] in *. split.
    + apply re_ok_unfold. split; [exact Hop|]. by apply Forall_cons.
    + intros i j Hi. cbn [matches foldr]. unfold then_. setoid_rewrite (fun k => Hm i k Hi). naive_solver.
  - destruct subs as [|sub [|]]; [done| |done]. apply Forall_cons in IH as [IH _]. apply Forall_cons in Hsubs as [Hs _].
    destruct (IH Hs) as [Hok' Hm]. destruct (IsAnchorStart sub) as [b sub']. cbn [fst snd] in *. split; [|by apply Hm].
    apply re_ok_unfold. split; [exact Hop|]. by apply Forall_cons.
  - cbn [fst snd]. split; [by apply re_ok_unfold|]. intros i j Hi. cbn. unfold here, begin_text. naive_solver.
Qed.

(** The last child of a list. *)
Lemma last_anchor op f sm subs : (op = kRegexpConcat \/ exists cap name, op = kRegexpCapture cap name) -> subs <> [] ->
  exists l sub, subs = l ++ [sub] /\ IsAnchorEnd (Re op f sm subs) = ((IsAnchorEnd sub).1, Re op f sm (l ++ [(IsAnchorEnd sub).2])).
Proof.
  intros Hop Hne. destruct (exists_last Hne) as (l&sub&->). exists l, sub. split; [done|].
  set (last_sub := fix last_sub (l : list Regexp) : bool * list Regexp :=
        match l with
        | [] => (false, [])
        | [sub] => let '(b, sub) := IsAnchorEnd sub in (b, [sub])
        | sub :: l' => let '(b, l') := last_sub l' in (b, sub :: l')
        end).
  assert (E : last_sub (l ++ [sub]) = ((IsAnchorEnd sub).1, l ++ [(IsAnchorEnd sub).2])).
  { clear Hne. induction l as [|x l IH]; [cbn; by destruct (IsAnchorEnd sub)|].
    change (last_sub ((x :: l) ++ [sub])) with (match l ++ [sub] with [] => let '(b, sub) := IsAnchorEnd x in (b, [sub]) | _ => let '(b, l') := last_sub (l ++ [sub]) in (b, x :: l') end).
    rewrite IH. by destruct l. }
  assert (H : IsAnchorEnd (Re op f sm (l ++ [sub])) = let '(b, subs) := last_sub (l ++ [sub]) in (b, Re op f sm subs))
    by (by destruct Hop as [->|(?&?&->)]). by rewrite H, E.
Qed.

Lemma IsAnchorEnd_spec latin1 t re : re_ok latin1 re -> re_ok latin1 (IsAnchorEnd re).2
  /\ forall i j, i <= length t -> matches latin1 t re i j <-> ((IsAnchorEnd re).1 = true -> j = length t) /\ matches latin1 t (IsAnchorEnd re).2 i j.
Proof.
  induction re as [op f sm subs IH] using Regexp_rec_subs. intros Hok. pose proof Hok as Hok0.
  apply re_ok_unfold in Hok0 as [Hop Hsubs].
  assert (Hno : re_ok latin1 (Re op f sm subs) /\ forall i j, i <= length t ->
    matches latin1 t (Re op f sm subs) i j <-> (false = true -> j = length t) /\ matches latin1 t (Re op f sm subs) i j) by (split; [done|]; naive_solver).
  destruct op; try exact Hno.
  - destruct (decide (subs = [])) as [->|Hne]; [exact Hno|].
    destruct (last_anchor kRegexpConcat f sm subs (or_introl eq_refl) Hne) as (l&sub&->&->).
    apply Forall_app in IH as [_ [IH _]%Forall_cons]. apply Forall_app in Hsubs as [Hl [Hs _]%Forall_cons].
    destruct (IH Hs) as [Hok' Hm]. cbn [fst snd]. split.
    + apply re_ok_unfold. rewrite !length_app in *. split; [exact Hop|]. apply Forall_app. split; [done|]. by apply Forall_cons.
    + intros i j Hi. cbn [matches]. rewrite !(foldr_fmap (matches latin1 t) then_), !fmap_app. cbn [fmap list_fmap].
      rewrite !foldr_app. cbn [foldr].
      rewrite (foldr_then_app (matches latin1 t <$> l) (then_ (matches latin1 t sub) eq) i j).
      rewrite (foldr_then_app (matches latin1 t <$> l) (then_ (matches latin1 t (IsAnchorEnd sub).2) eq) i j).
      assert (HB : forall k, foldr then_ eq (matches latin1 t <$> l) i k -> k <= length t).
      { intros k Hk. eapply (foldr_then_bounded t); [|exact Hi|exact Hk]. apply Forall_fmap, Forall_true. intros re. apply matches_bounded. }
      unfold then_ at 1 3. split.
      * intros (k&Hk&Hkj). apply (proj1 (then_eq_r _ k j)) in Hkj. apply Hm in Hkj as [? Hkj]; [|by apply HB]. split; [done|].
        exists k. split; [done|]. by apply then_eq_r.
      * intros [? (k&Hk&Hkj)]. apply (proj1 (then_eq_r _ k j)) in Hkj. exists k. split; [done|]. exists j. split; [|done]. apply Hm; [by apply HB|done].
  - destruct subs as [|sub [|]]; [done| |done]. apply Forall_cons in IH as [IH _]. apply Forall_cons in Hsubs as [Hs _].
    destruct (IH Hs) as [Hok' Hm]. cbn [IsAnchorEnd]. destruct (IsAnchorEnd sub) as [b sub']. cbn [fst snd] in *. split; [|by apply Hm].
    apply re_ok_unfold. split; [exact Hop|]. by apply Forall_cons.
  - cbn [IsAnchorEnd fst snd]. split; [by apply re_ok_unfold|]. intros i j Hi. cbn. unfold here, end_text. naive_solver.
Qed.
End text.

(** ** The compiler *)

Section compiler.
Context (sizeof_Prog sizeof_Inst : Z) (Hsize : (0 < sizeof_Inst)%Z).

Lemma max_inst_range max_mem : (0 <= max_inst sizeof_Prog sizeof_Inst max_mem <= 2 ^ 24)%Z.
Proof.
  unfold max_inst. change (Z.shiftl 1 24) with 16777216%Z. change (2 ^ 24)%Z with 16777216%Z.
  repeat case_decide; try lia. split; [|lia]. apply Z.div_pos; lia.
Qed.

Lemma new_Compiler_ok e rv max : (0 <= max)%Z -> sound (new_Compiler e rv max) /\ no_match 0 (insts (new_Compiler e rv max)).
Proof.
  intros Hm. assert (Ho : forall x op, op_at (insts (new_Compiler e rv max)) x = Some op -> op = kInstFail) by (by intros [|[|x]] op [= <-]).
  split; [split|].
  - intros _. cbn. lia.
  - done.
  - by intros x op ->%Ho.
  - intros x _ E. by apply Ho in E.
Qed.

(** What the program for [re] does on a text, as long as it has not used up
    the instructions it was allowed. *)
Definition right_program (text : bytes) (latin1 reversed : bool) (re : Regexp) (max : Z) (p : Prog) : Prop :=
  (Z.of_nat (length (prog_insts p)) <= max)%Z ->
  (forall i j, i <= length text ->
    oriented text reversed (fun t => matches latin1 t re) i j
    <-> accepts_from text (prog_insts p) (start_ p) i j /\ (anchor_start_ p = true -> i = 0) /\ (anchor_end_ p = true -> j = length text))
  /\ (anchor_start_ p = true -> start_unanchored_ p = start_ p)
  /\ (anchor_start_ p = false -> forall i j, i <= length text ->
    accepts_from text (prog_insts p) (start_unanchored_ p) i j
    <-> exists k, i <= k <= length text /\ accepts_from text (prog_insts p) (start_ p) k j).

Lemma anchored_mirror latin1 (rv : bool) text sre : re_ok latin1 sre ->
  let '(astart, sre1) := IsAnchorStart sre in let '(aend, sre2) := IsAnchorEnd sre1 in
  re_ok latin1 sre2 /\ forall i j, i <= length text -> oriented text rv (fun t => matches latin1 t sre) i j
    <-> oriented text rv (fun t => matches latin1 t sre2) i j /\ ((if rv then aend else astart) = true -> i = 0)
      /\ ((if rv then astart else aend) = true -> j = length text).
Proof.
  intros Hok. assert (H1 := fun t => proj2 (IsAnchorStart_spec latin1 t sre Hok)). destruct (IsAnchorStart_spec latin1 [] sre Hok) as [Hok1 _].
  destruct (IsAnchorStart sre) as [astart sre1]. cbn [fst snd] in *.
  assert (H2 := fun t => proj2 (IsAnchorEnd_spec latin1 t sre1 Hok1)). destruct (IsAnchorEnd_spec latin1 [] sre1 Hok1) as [Hok2 _].
  destruct (IsAnchorEnd sre1) as [aend sre2]. cbn [fst snd] in *. split; [done|]. intros i j Hi.
  assert (H : forall t i j, i <= length t -> matches latin1 t sre i j <-> matches latin1 t sre2 i j /\ (astart = true -> i = 0) /\ (aend = true -> j = length t)).
  { intros t i' j' Hi'. rewrite (H1 t i' j' Hi'), (H2 t i' j' Hi'). tauto. }
  destruct rv; unfold oriented, mirror; [|by apply H]. rewrite (H (reverse text)) by (rewrite length_reverse; lia). rewrite length_reverse.
  split; [intros (?&?&?&Ha&Hb)|intros ((?&?&?)&Ha&Hb)]; split_and!; try done; intros E; [specialize (Hb E)|specialize (Ha E)|specialize (Hb E)|specialize (Ha E)]; lia.
Qed.

(** Compiling is one call of the compiler after another. *)
Lemma Compile_run same_child re sre stopped rv max_mem (P : Prog -> Prop) : let max := max_inst sizeof_Prog sizeof_Inst max_mem in
  Simplify same_child re = Ret (sre, stopped) ->
  let '(astart, sre1) := IsAnchorStart sre in let '(aend, sre2) := IsAnchorEnd sre1 in
  wp ('(f, _) ← WalkExponential PreVisit PostVisit Copy ShortVisit (fun _ _ => false) sre2 kNullFrag (2 * max);
      c ← comp_get; if failed_ c then mret None else
      p ← finish_prog sizeof_Prog sizeof_Inst (parse_flags_ re) rv astart aend max_mem f; mret (Some p))
    (fun res _ => forall p, res = Some p -> P p)
    (new_Compiler (if flag (parse_flags_ re) Latin1 then kEncodingLatin1 else kEncodingUTF8) rv max) ->
  exists res, Compile sizeof_Prog sizeof_Inst same_child re rv max_mem = Ret res /\ forall p, res = Some p -> P p.
Proof.
  intros max E. unfold Compile. rewrite E. cbn [mbind outcome_bind]. destruct (IsAnchorStart sre) as [astart sre1].
  destruct (IsAnchorEnd sre1) as [aend sre2]. unfold wp. fold max.
  match goal with |- match ?m with _ => _ end -> _ => destruct m as [[res c']|e] end; [|done]. intros H. by exists res.
Qed.

Lemma Compile_text same_child re rv max_mem text : let latin1 := flag (parse_flags_ re) Latin1 in
  (forall re n, same_child re (S n) = true -> sub_ re !! n = sub_ re !! S n) -> re_ok latin1 re ->
  exists res, Compile sizeof_Prog sizeof_Inst same_child re rv max_mem = Ret res
    /\ forall p, res = Some p -> classes_right p /\ well_shaped p
      /\ right_program text latin1 rv re (max_inst sizeof_Prog sizeof_Inst max_mem) p.
Proof.
  intros latin1 Hsame Hok. destruct (Simplify_good latin1 same_child re Hsame Hok) as (sre&stopped&E&[Hok' Hm]&_).
  pose proof (max_inst_range max_mem) as Hmax. set (max := max_inst sizeof_Prog sizeof_Inst max_mem) in *.
  pose proof (anchored_mirror latin1 rv text sre Hok') as HA.
  pose proof (Compile_run same_child re sre stopped rv max_mem (fun p => classes_right p /\ well_shaped p /\ right_program text latin1 rv re max p) E) as HR. cbn zeta in HR. fold max in HR.
  destruct (IsAnchorStart sre) as [astart sre1]. destruct (IsAnchorEnd sre1) as [aend sre2]. destruct HA as [Hok2 HA]. apply HR. clear HR.
  fold latin1. set (e := if latin1 then kEncodingLatin1 else kEncodingUTF8). destruct (new_Compiler_ok e rv max (proj1 Hmax)) as [S0 N0].
  assert (He : is_latin1 e = latin1) by (by unfold e; destruct latin1).
  apply call_bind. eapply call_eq; [apply (WalkExponential_wp text sre2 _ (new_Compiler e rv max)); [done|exact (proj2 Hmax)|cbn; by rewrite He]|].
  intros [f st] c1 E1 (S1&G1&Hy). cbn [fst] in Hy. apply free_WalkExponential with (k := 0) in E1. specialize (E1 N0).
  apply call_bind, call_get. destruct (failed_ c1) eqn:Hf; [by apply call_ret|].
  destruct (Hy eq_refl) as (_&_&D&Hfr&_). apply call_bind.
  eapply call_mono; [by apply (finish_prog_wp text sizeof_Prog sizeof_Inst c1 f D)|].
  intros p c2 (HF&Ha1&Ha2). apply call_ret. intros ? [= <-].
  rewrite (grows_max _ _ _ G1) in HF. destruct HF as (HB&HW&HF). split; [done|]. split; [done|]. intros Hroom. destruct (HF Hroom) as (H1&H2&H3). unfold means in H1, H3. cbn [reversed_ encoding_ new_Compiler] in H1, H3. rewrite He in H1, H3.
  assert (HS : forall i j, i <= length text -> oriented text rv (fun t => matches latin1 t re) i j <-> oriented text rv (fun t => matches latin1 t sre) i j).
  { intros i j Hi. apply (oriented_agree text rv); [|done]. intros t i' j' _. symmetry. apply (Hm t i' j'). }
  split; [|split; [done|]].
  - intros i j Hi. rewrite (HS i j Hi), (HA i j Hi), Ha1, Ha2, <- (H1 i j Hi). done.
  - intros Ha i j Hi. rewrite (H3 Ha i j Hi). unfold then_, any_bytes. split; intros (k&Hk&Hkj); exists k; (split; [done|]); by apply H1; [lia|].
Qed.


End compiler.

(** [(?:a\x{E9}|c+)\z] in UTF-8. *)
Definition some_regexp : Regexp :=
  Concat [Alternate [Concat [set_simple true (NewLiteral 97 0); set_simple true (NewLiteral 0xE9 0)] 0;
                     Regexp.Plus (set_simple true (NewLiteral 99 0)) 0] 0;
          set_simple true (new_Regexp kRegexpEndText 0 [])] 0.

Example some_regexp_compiled : match Compile 560 40 (fun _ _ => false) some_regexp true 0 with
  | Ret (Some p) => anchor_start_ p = true /\ length (prog_insts p) = 9 /\ start_ p = Some 7
  | _ => False
  end.
Proof. by vm_compute. Qed.

Lemma some_regexp_ok : re_ok false some_regexp.
Proof.
  repeat first [by left | by intros [H _] | split]; try done; try (by intros [H _]; vm_compute in H); simpl; unfold max_rune; try lia.
Qed.


Definition some_program : Prog :=
  match Compile 560 40 (fun _ _ => false) some_regexp true 0 with Ret (Some p) => p | _ => MkProg [] 0 0 false false None None false [] 0 end.


(** ** Out of room *)


