(* ===== verification/BitStateProps.v ===== *)
(** * The backtracking search finds what the program accepts

    The invariant of the search: a pair that was visited has nothing to offer
    any more but through pairs that are visited or still to be visited. *)

From stdpp Require Import gmap fin_sets relations.
From S2P Require Import Prelude Rune Regexp RegexpSem Walker Simplify Prog Compile CompileSem CompileFrags Optimize Marks.
From S2P Require Import CompileSpans Compiled CompileProps BitState.

#[local] Open Scope nat_scope.
#[local] Open Scope xap_scope.

Lemma int_small z : (0 <= z <= 2 ^ 30)%Z -> int_op z = Ret z.
Proof. intros H. unfold int_op. rewrite decide_True; [done|]. unfold in_int, int_min, int_max. cbn. lia. Qed.

(** What the search needs of a program: [D] are the instructions that it can
    get to, and none of them goes to an instruction that fails. *)
Record searchable (D : gset nat) (prog : list Inst) : Prop := {
  se_complete : complete D prog;
  se_marks : marks_true prog;
  se_fail x f y : inside D x -> target prog (x, f) = Some (ToInst y) -> op_at prog y <> Some kInstFail;
  se_low x lo hi fold : op_at prog x = Some (kInstByteRange lo hi fold) -> (0 <= lo)%Z;
  se_caps x cap : inside D x -> op_at prog x = Some (kInstCapture cap) -> (2 <= cap)%Z;
}.

Section search.
Context (DEBUG_MODE : bool) (base : Z) (D : gset nat) (prog : list Inst) (text : bytes) (tb te : nat) (longest endmatch : bool).
Context (nsub : nat) (ncap nvisited : Z).
Hypotheses (HS : searchable D prog) (Htb : tb <= te <= length text).

(** The number of pairs. *)
Definition row : nat := S (te - tb).
Definition npairs : nat := length prog * row.
Hypotheses (HN : (Z.of_nat npairs <= 2 ^ 28)%Z) (Hnv : nvisited = ((Z.of_nat npairs + 31) `quot` 32)%Z).
Hypothesis (Hncap : (2 <= ncap)%Z /\ (2 * Z.of_nat nsub <= ncap)%Z).

Abbreviation accepts := (accepts text prog).
Abbreviation steps := (steps text prog).
Abbreviation ShouldVisit := (ShouldVisit base tb te nvisited).
Abbreviation Push := (Push DEBUG_MODE base prog tb te nvisited).
Abbreviation visit := (visit DEBUG_MODE base prog text tb te longest endmatch nsub ncap nvisited).
Abbreviation found_match := (found_match base te longest endmatch nsub).
Abbreviation try_loop := (try_loop DEBUG_MODE base prog text tb te longest endmatch nsub ncap nvisited).

(** ** Pairs and their bits *)

Definition valid (x q : nat) : Prop := inside D x /\ tb <= q <= te.
Definition bit (x q : nat) : Z := Z.of_nat (x * row + (q - tb)).
Definition seen (s : BitState) (x q : nat) : Prop := bit x q ∈ visited_ s.

#[local] Instance seen_dec s x q : Decision (seen s x q).
Proof. unfold seen. apply _. Defined.

Lemma row_lt x q : valid x q -> q - tb < row /\ x < length prog.
Proof. intros [Hx ?]. split; [unfold row; lia|]. by apply (co_nodes _ _ (se_complete _ _ HS)). Qed.

Lemma bit_range x q : valid x q -> (0 <= bit x q < Z.of_nat npairs)%Z.
Proof. intros [H1 H2]%row_lt. unfold bit, npairs. nia. Qed.

Lemma bit_inj x q y r : valid x q -> valid y r -> bit x q = bit y r -> x = y /\ q = r.
Proof.
  intros Hx Hy E. destruct (row_lt _ _ Hx) as [Hq _], (row_lt _ _ Hy) as [Hr _]. unfold bit in E. apply Nat2Z.inj in E.
  assert (x = y) as -> by nia. split; [done|]. destruct Hx, Hy. lia.
Qed.

(** What becomes of the state. *)
Definition see (x q : nat) (s : BitState) : BitState :=
  MkBitState (submatch_ s) (cap_ s) ({[bit x q]} ∪ visited_ s) (job_ s) (maxjob_ s) (matched s).
Definition with_jobs (l : list Job) (m : Z) (s : BitState) : BitState :=
  MkBitState (submatch_ s) (cap_ s) (visited_ s) l m (matched s).

Lemma ShouldVisit_wp s x q (Q : bool -> BitState -> Prop) : valid x q ->
  (seen s x q -> Q false s) -> (~ seen s x q -> Q true (see x q s)) -> wp (ShouldVisit (Some x) (Some q)) Q s.
Proof.
  intros Hv H1 H2. destruct (row_lt _ _ Hv) as [Hq Hx]. pose proof (bit_range _ _ Hv) as Hb. unfold BitState.ShouldVisit.
  apply call_bind, (call_lift x); [done|]. apply call_bind, (call_lift (Z.of_nat row)).
  { unfold row. rewrite <- int_small; [f_equal; lia|]. unfold npairs, row in HN. nia. }
  apply call_bind, (call_lift (Z.of_nat (x * row))).
  { rewrite <- Nat2Z.inj_mul. apply int_small. unfold npairs in HN. nia. }
  assert (Hn : uwrap 32 (Z.of_nat (x * row) + (address base (Some q) - address base (Some tb))) = bit x q).
  { unfold uwrap, address. rewrite Z.mod_small; unfold bit in *; destruct Hv; lia. }
  cbv zeta. rewrite Hn. rewrite decide_False.
  2: { subst nvisited. unfold VisitedBits. pose proof (Z.div_lt_upper_bound (bit x q) 32 ((Z.of_nat npairs + 31) / 32)).
    rewrite Z.quot_div_nonneg by lia. pose proof (Z.div_mod (Z.of_nat npairs + 31) 32). pose proof (Z.mod_pos_bound (Z.of_nat npairs + 31) 32). lia. }
  apply call_bind, call_get. case_decide as Hd; [by apply H1|]. exact (H2 Hd).
Qed.

(** An instruction is pushed: the stack has room, and what fails or was visited
    is left out. *)
Definition room (s : BitState) : Prop := (0 < maxjob_ s)%Z /\ (Z.of_nat (length (job_ s)) <= maxjob_ s <= 2 ^ 30)%Z.

Lemma Push_wp s ip x p arg (Q : unit -> BitState -> Prop) : room s -> (Z.of_nat (length (job_ s)) < 2 ^ 29)%Z -> prog !! x = Some ip ->
  (forall m, opcode_ ip = kInstFail -> room (with_jobs (job_ s) m s) -> Q () (with_jobs (job_ s) m s)) ->
  (forall m, opcode_ ip <> kInstFail -> (0 < m <= 2 ^ 30)%Z -> (Z.of_nat (length (job_ s)) < m)%Z ->
    wp (if decide (arg = 0%Z) then ShouldVisit (Some x) p else mret true)
      (fun b s' => Q () (if b then with_jobs (MkJob (Some x) p arg :: job_ s') (maxjob_ s') s' else s')) (with_jobs (job_ s) m s)) ->
  wp (Push (Some x) p arg) Q s.
Proof.
  intros [R1 R2] Hlen Hip HF H. unfold BitState.Push. apply call_bind, call_get, call_bind.
  assert (Hrest : forall m, (0 < m <= 2 ^ 30)%Z -> (Z.of_nat (length (job_ s)) < m)%Z ->
    wp (i ← lift (inst_at prog (Some x)); if is_Fail (opcode_ i) then mret () else
      visit ← (if decide (arg = 0%Z) then ShouldVisit (Some x) p else mret true);
      if negb visit then mret () else s ← comp_get; set_job (MkJob (Some x) p arg :: job_ s)) Q (with_jobs (job_ s) m s)).
  { intros m Hm Hl. apply call_bind, (call_lift ip); [unfold inst_at, inst_of; cbn; by rewrite Hip|].
    destruct (decide (opcode_ ip = kInstFail)) as [E|E].
    - rewrite E. cbn. apply HF; [done|]. split; cbn; lia.
    - assert (is_Fail (opcode_ ip) = false) as -> by (by destruct (opcode_ ip)). apply call_bind. eapply call_mono; [by apply H|].
      cbn beta. intros [] s' HQ; exact HQ. }
  destruct (decide (maxjob_ s <= Z.of_nat (length (job_ s)))%Z) as [Hg|Hg].
  - unfold GrowStack. apply call_bind, call_get, call_bind, (call_lift (maxjob_ s * 2)%Z); [apply int_small; lia|].
    apply call_bind. unfold wp at 1, set_maxjob. rewrite decide_False by lia. apply call_ret. cbn [negb]. apply Hrest; lia.
  - apply call_ret. cbn [negb]. specialize (Hrest (maxjob_ s)). destruct s. apply Hrest; cbn in *; lia.
Qed.

(** ** The invariant *)

Section start.
Context (x0 p0 : nat).
Hypothesis (H0 : valid x0 p0).

(** A match from the start of this attempt. *)
Definition good (e : nat) : Prop := p0 <= e <= te /\ accepts x0 p0 e /\ (endmatch = true -> e = te).

(** What is accepted from the pair is accepted from the start. *)
Definition lead (x q : nat) : Prop := valid x q /\ p0 <= q /\ forall e, q <= e <= te -> accepts x q e -> accepts x0 p0 e.

Definition job_ok (j : Job) : Prop := exists x, job_ip j = Some x /\
  ((job_arg j = 0%Z /\ op_at prog x <> Some kInstFail /\ exists q, job_p j = Some q /\ lead x q)
   \/ (job_arg j = 1%Z /\ op_at prog x = Some (kInstAlt NULL) /\ exists q, job_p j = Some q /\ lead x q)
   \/ (job_arg j = 1%Z /\ exists cap, op_at prog x = Some (kInstCapture cap) /\ (2 <= cap < ncap)%Z)).

(** Pairs that jobs are to visit, or to check when they come back to an
    alternative. *)
Definition waiting (l : list Job) (x q : nat) : Prop := MkJob (Some x) (Some q) 0 ∈ l.
Definition todo (l : list Job) (y q : nat) : Prop := exists x,
  MkJob (Some x) (Some q) 1 ∈ l /\ op_at prog x = Some (kInstAlt NULL) /\ target prog (x, Out1) = Some (ToInst y).

(** The match that the caller gets so far. *)
Definition best (s : BitState) (e : nat) : Prop := good e /\ submatch_ s !! 0 = Some (Some p0, Z.of_nat (e - p0)).
Definition recorded (s : BitState) (q : nat) : Prop := matched s = true /\ exists e, q <= e /\ best s e.

(** A pair has nothing to offer but through the pairs of [P]. *)
Record settled (P : nat -> nat -> Prop) (rec : nat -> Prop) (x q : nat) : Prop := {
  st_alt : op_at prog x = Some (kInstAltMatch NULL) -> exists z, ends_here prog z /\ inside D z /\ P z te;
  st_steps y r : op_at prog x <> Some (kInstAltMatch NULL) -> steps (x, q) (y, r) -> r <= te -> P y r;
  st_match : op_at prog x = Some kInstMatch -> (endmatch = true -> q = te) -> rec q;
}.

Definition none (x q : nat) : Prop := False.
Definition pair_of (y r x q : nat) : Prop := x = y /\ q = r.

(** [W] is being visited and [T] checked. *)
Definition closed (s : BitState) (W T : nat -> nat -> Prop) : Prop := forall x q, valid x q -> seen s x q ->
  W x q \/ waiting (job_ s) x q \/ settled (fun y r => seen s y r \/ T y r \/ todo (job_ s) y r) (recorded s) x q.

(** What a loop still has to do, at most. *)
Definition job_weight (j : Job) : nat := if decide (job_arg j = 0%Z) then 6 else 3.
Definition weight (s : BitState) : nat := 5 * (npairs - size (visited_ s)) + sum_list_with job_weight (job_ s).

Record core (s : BitState) (w : nat) : Prop := {
  in_jobs : Forall job_ok (job_ s);
  in_cap : Z.of_nat (length (cap_ s)) = ncap /\ cap_ s !! 0 = Some (Some p0);
  in_sub : length (submatch_ s) = nsub;
  in_visited b : b ∈ visited_ s -> (0 <= b < Z.of_nat npairs)%Z;
  in_best : nsub <> 0 -> if matched s then exists e, best s e else exists n, submatch_ s !! 0 = Some (None, n);
  in_matched : matched s = true -> nsub <> 0;
  in_room : room s;
  in_weight : weight s <= w;
  in_start : seen s x0 p0 \/ op_at prog x0 = Some kInstFail;
}.

Lemma settled_mono (P P' : nat -> nat -> Prop) (rec rec' : nat -> Prop) x q : (forall y r, P y r -> P' y r) -> (forall r, rec r -> rec' r) ->
  settled P rec x q -> settled P' rec' x q.
Proof.
  intros HP HR [A B C]. split; [|by auto|by auto]. intros H. destruct (A H) as (z&?&?&?). exists z. by auto.
Qed.

(** Less is left to do where more is seen. *)
Lemma closed_mono s s' (W T W' T' : nat -> nat -> Prop) : closed s W T ->
  (forall x q, valid x q -> seen s' x q -> seen s x q \/ W' x q \/ waiting (job_ s') x q) ->
  (forall y r, seen s y r -> seen s' y r) ->
  (forall x q, W x q \/ waiting (job_ s) x q -> W' x q \/ waiting (job_ s') x q
    \/ settled (fun y r => seen s' y r \/ T' y r \/ todo (job_ s') y r) (recorded s') x q) ->
  (forall y r, T y r \/ todo (job_ s) y r -> seen s' y r \/ T' y r \/ todo (job_ s') y r) ->
  (forall q, recorded s q -> recorded s' q) -> closed s' W' T'.
Proof.
  intros C H1 H2 HW HT HR x q Hv [Hs|[?|?]]%H1; [|by left|right; by left|done].
  destruct (C x q Hv Hs) as [?|[?|St]]; [apply HW; by left|apply HW; by right|]. right. right.
  eapply settled_mono; [|exact HR|exact St]. intros y r [?|?]; [left; by apply H2|by apply HT].
Qed.

Lemma size_below (X : gset Z) n : (forall b, b ∈ X -> (0 <= b < Z.of_nat n)%Z) -> size X <= n.
Proof.
  intros H. transitivity (size (list_to_set (Z.of_nat <$> seq 0 n) : gset Z)).
  - apply subseteq_size. intros b Hb%H. apply elem_of_list_to_set, list_elem_of_fmap. exists (Z.to_nat b). split; [lia|]. apply elem_of_seq. lia.
  - rewrite size_list_to_set; [by rewrite length_fmap, length_seq|]. apply NoDup_fmap_2; [|apply NoDup_seq]. intros ? ?. lia.
Qed.

Lemma sub_keeps s s' e : submatch_ s' = submatch_ s -> best s e -> best s' e.
Proof. unfold best. by intros ->. Qed.

Lemma core_see s w x q : core s w -> valid x q -> ~ seen s x q -> exists w', core (see x q s) w' /\ w' + 5 <= w.
Proof.
  intros [J C Su V B M R We St] Hv Hn. exists (weight (see x q s)).
  assert (HV : forall b, b ∈ visited_ (see x q s) -> (0 <= b < Z.of_nat npairs)%Z).
  { cbn. intros b [->%elem_of_singleton|Hb]%elem_of_union; [by apply bit_range|by apply V]. }
  split.
  - split; try done. destruct St as [St|St]; [left; unfold seen; cbn; set_solver|by right].
  - pose proof (size_below _ _ HV) as Hle. unfold weight in *. cbn [visited_ job_ see] in *.
    rewrite size_union in Hle |- * by (unfold seen in Hn; set_solver). rewrite size_singleton in *. lia.
Qed.

Lemma core_jobs s w l m : core s w -> Forall job_ok l -> room (with_jobs l m s) -> weight (with_jobs l m s) <= w -> core (with_jobs l m s) w.
Proof. intros [J C Su V B M R We St] HJ HR HW. split; done. Qed.

Lemma weight_push s j m : weight (with_jobs (j :: job_ s) m s) = job_weight j + weight s.
Proof. unfold weight. cbn. lia. Qed.

Lemma job_count s w : core s w -> w <= 5 * npairs + 6 -> (Z.of_nat (length (job_ s)) < 2 ^ 29)%Z.
Proof.
  intros C Hw. pose proof (in_weight _ _ C) as H. unfold weight in H.
  assert (Hl : 3 * length (job_ s) <= sum_list_with job_weight (job_ s)).
  { clear. induction (job_ s) as [|j l IH]; cbn; [lia|]. unfold job_weight at 1. case_decide; lia. }
  lia.
Qed.

(** ** Pushing a job *)

Record same_rest (s s' : BitState) : Prop := {
  sr_submatch : submatch_ s' = submatch_ s;
  sr_cap : cap_ s' = cap_ s;
  sr_matched : matched s' = matched s;
}.

Lemma recorded_same s s' q : same_rest s s' -> recorded s q -> recorded s' q.
Proof. intros [E1 E2 E3]. unfold recorded, best. by rewrite E1, E3. Qed.

(** A job to come back to. *)
Lemma push_return s w x p ip (Q : unit -> BitState -> Prop) : core s w -> w <= 5 * npairs + 6 -> prog !! x = Some ip ->
  opcode_ ip <> kInstFail -> job_ok (MkJob (Some x) p 1) ->
  (forall s', core s' (w + 3) -> same_rest s s' -> visited_ s' = visited_ s -> job_ s' = MkJob (Some x) p 1 :: job_ s -> Q () s') ->
  wp (Push (Some x) p 1) Q s.
Proof.
  intros C Hw Hip Hop HJ H. pose proof (job_count _ _ C Hw) as Hlen. eapply Push_wp; [apply (in_room _ _ C)|done|exact Hip|done|].
  intros m _ Hm Hl. rewrite decide_False by done. apply call_ret, H; [|done..]. cbn [job_ with_jobs maxjob_].
  assert (Ej : job_weight (MkJob (Some x) p 1) = 3) by done.
  destruct C as [J Ca Su V B M R We St]. split; try done; cbn.
  - by constructor.
  - split; cbn; lia.
  - change (weight (with_jobs (MkJob (Some x) p 1 :: job_ s) m s) <= w + 3). rewrite weight_push, Ej. lia.
Qed.

(** What is pushed is seen and waits, unless it was seen before. *)
Definition offered (x q : nat) (s s' : BitState) : Prop :=
  visited_ s' = visited_ s /\ job_ s' = job_ s /\ (op_at prog x <> Some kInstFail -> seen s x q)
  \/ visited_ s' = {[bit x q]} ∪ visited_ s /\ job_ s' = MkJob (Some x) (Some q) 0 :: job_ s.

Lemma push_visit s w x q ip (Q : unit -> BitState -> Prop) : core s w -> w <= 5 * npairs + 6 -> prog !! x = Some ip -> lead x q ->
  (forall s', core s' (w + 1) -> same_rest s s' -> offered x q s s' -> Q () s') -> wp (Push (Some x) (Some q) 0) Q s.
Proof.
  intros C Hw Hip HL H. pose proof (job_count _ _ C Hw) as Hlen. pose proof (op_at_inst _ _ _ Hip) as Ho.
  eapply Push_wp; [apply (in_room _ _ C)|done|exact Hip| |].
  - intros m E R. apply H; [|done|left].
    + destruct C as [J Ca Su V B M R' We St]. split; try done. unfold weight in *. cbn. lia.
    + split_and!; [done..|]. rewrite Ho, E. done.
  - intros m Hop Hm Hl. rewrite decide_True by done.
    assert (C1 : core (with_jobs (job_ s) m s) w).
    { destruct C as [J Ca Su V B M R' We St]. split; try done. split; cbn; lia. }
    apply ShouldVisit_wp; [apply HL|..].
    + intros Hs. apply H; [|done|left; done]. destruct C1 as [J Ca Su V B M R' We St]. split; try done. lia.
    + intros Hn. apply H; [|done|right; done].
      destruct (core_see _ _ _ _ C1 (proj1 HL) Hn) as (w'&[J Ca Su V B M R' We St]&Hw'). split; try done.
      * constructor; [|done]. exists x. split; [done|]. left. split; [done|]. split; [|by exists q]. rewrite Ho. intros [= E]. apply Hop.
        by destruct (opcode_ ip).
      * split; cbn; lia.
      * set (s1 := see x q (with_jobs (job_ s) m s)) in *. rewrite (weight_push s1). change (6 + weight s1 <= w + 1). lia.
Qed.

Lemma offered_seen x q s s' y r : offered x q s s' -> seen s y r -> seen s' y r.
Proof. unfold seen. intros [(E&_)|(E&_)]; rewrite E; set_solver. Qed.

Lemma offered_new x q s s' : offered x q s s' -> op_at prog x <> Some kInstFail -> seen s' x q.
Proof. unfold seen. intros [(E&_&H)|(E&_)] Ho; rewrite E; [by apply H|set_solver]. Qed.

Lemma offered_closed x q s s' W T : valid x q -> offered x q s s' -> same_rest s s' -> closed s W T -> closed s' W T.
Proof.
  intros Hv O R C. assert (HJ : forall j, j ∈ job_ s -> j ∈ job_ s').
  { intros j. destruct O as [(_&->&_)|(_&->)]; [done|]. intros. by right. }
  eapply closed_mono; [exact C| | | | |].
  - intros y r Hy Hs. destruct O as [(E&_)|(E&Ej)]; unfold seen in Hs; rewrite E in Hs; [by left|].
    apply elem_of_union in Hs as [Hs%elem_of_singleton|Hs]; [|by left]. destruct (bit_inj y r x q Hy Hv Hs) as [-> ->].
    right. right. unfold waiting. rewrite Ej. by left.
  - intros y r. by eapply offered_seen.
  - intros y r [?|Hw]; [by left|]. right. left. by apply HJ.
  - intros y r [?|(v&Hj&?)]; [right; by left|]. right. right. exists v. split; [by apply HJ|done].
  - intros r. by apply recorded_same.
Qed.

(** ** Where a pair leads *)

(** A word of a pair's instruction. *)
Lemma word_of_inst x f w op : inside D x -> op_at prog x = Some op -> op <> kInstMatch -> op <> kInstFail -> target prog (x, f) = Some w ->
  exists y, as_ptr w = Ret (Some y) /\ w = ToInst y /\ inside D y /\ op_at prog y <> Some kInstFail.
Proof.
  intros Hx Ho H1 H2 Ht. destruct (co_words _ _ (se_complete _ _ HS) _ _ _ Hx Ht) as [(y&->&Hy)|[_ [E|E]]]; [|congruence..].
  exists y. split_and!; [done..|]. by apply (se_fail _ _ HS x f).
Qed.

Lemma lead_step x q y r : lead x q -> inside D y -> steps (x, q) (y, r) -> r <= te -> lead y r.
Proof.
  intros ([Hx Hq]&Hp&H) Hy Hs Hr. pose proof (steps_mono _ _ _ _ _ _ Hs). split; [split; [done|lia]|]. split; [lia|].
  intros e He Ha. apply H; [lia|]. by eapply accepts_step.
Qed.

(** From a marked alternative the search may go on at the end of the text. *)
Lemma lead_marked x q z : lead x q -> op_at prog x = Some (kInstAltMatch NULL) -> inside D z -> lead z te.
Proof.
  intros ([Hx Hq]&Hp&H) Ho Hz. split; [split; [done|lia]|]. split; [lia|]. intros e He _. assert (e = te) as -> by lia. apply H; [lia|].
  apply marked_accepts; [done|by apply (se_marks _ _ HS)|lia].
Qed.

(** ** What the body of the loop leaves *)

Definition success (s : BitState) : Prop := length (submatch_ s) = nsub /\ exists e, good e
  /\ (nsub <> 0 -> submatch_ s !! 0 = Some (Some p0, Z.of_nat (e - p0)) /\ (longest = true -> forall e', good e' -> e' <= e)).

Definition next_ok (k : control) (s : BitState) (w : nat) : Prop :=
  match k with
  | NextJob => core s w /\ closed s none none
  | CheckAndLoop ip p => exists y r w', ip = Some y /\ p = Some r /\ lead y r /\ op_at prog y <> Some kInstFail /\ S w' <= w /\ core s w' /\ closed s none (pair_of y r)
  | Return b => b = true /\ success s
  end.

Lemma closed_settle s x q T T' : closed s (pair_of x q) T -> (forall y r, T y r -> T' y r) ->
  settled (fun y r => seen s y r \/ T' y r \/ todo (job_ s) y r) (recorded s) x q -> closed s none T'.
Proof.
  intros C HT Hs y r Hy Hr. destruct (C y r Hy Hr) as [[-> ->]|[?|St]]; [by right; right|by right; left|right; right].
  eapply settled_mono; [|done|exact St]. naive_solver.
Qed.

(** The pair has one step, which is checked next. *)
Lemma next_check s w w' x q y r op : core s w' -> S w' <= w -> closed s (pair_of x q) none -> lead x q -> op_at prog x = Some op ->
  op <> kInstAltMatch NULL -> op <> kInstMatch -> steps (x, q) (y, r) -> inside D y -> op_at prog y <> Some kInstFail -> r <= te ->
  (forall y' r', steps (x, q) (y', r') -> (y' = y /\ r' = r) \/ todo (job_ s) y' r') -> next_ok (CheckAndLoop (Some y) (Some r)) s w.
Proof.
  intros C Hw Cl HL Ho H1 H2 Hs Hy Hf Hr Hu. exists y, r, w'. split_and!; [done|done|by eapply lead_step|done|done|done|].
  eapply closed_settle; [exact Cl|done|]. split; [congruence| |congruence]. intros y' r' _ [[-> ->]|?]%Hu _; [right; left; done|by do 2 right].
Qed.

(** The pair has no step within the text. *)
Lemma next_job s w x q op : core s w -> closed s (pair_of x q) none -> op_at prog x = Some op -> op <> kInstAltMatch NULL ->
  (forall y r, steps (x, q) (y, r) -> te < r) -> (op = kInstMatch -> (endmatch = true -> q = te) -> recorded s q) -> next_ok NextJob s w.
Proof.
  intros C Cl Ho H1 Hs Hm. split; [done|]. eapply closed_settle; [exact Cl|done|]. split; [congruence| |].
  - intros y r _ Hst%Hs Hr. lia.
  - intros E. apply Hm. congruence.
Qed.

Lemma steps_inv x q y r ip : prog !! x = Some ip -> steps (x, q) (y, r) ->
  exists f, slot ip f = Some (ToInst y) /\ leaves text (opcode_ ip) f q r.
Proof. intros Hip (ip'&f&Hip'&Hs&Hl). cbn in *. rewrite Hip in Hip'. injection Hip' as <-. by exists f. Qed.

(** Instructions with one way on, which does not read. *)
Lemma visit_through s w w' x q ip : core s w' -> S w' <= w -> closed s (pair_of x q) none -> lead x q -> prog !! x = Some ip ->
  (exists cap, opcode_ ip = kInstCapture cap) \/ (exists e, opcode_ ip = kInstEmptyWidth e /\ empty_holds text e q) \/ opcode_ ip = kInstNop ->
  wp (out ← lift (as_ptr (out_ ip)); mret (CheckAndLoop out (Some q))) (fun k s' => next_ok k s' w) s.
Proof.
  intros C Hw Cl HL Hip Hop. pose proof (op_at_inst _ _ _ Hip) as Ho.
  assert (Ht : target prog (x, Out) = Some (out_ ip)) by (unfold target; cbn; by rewrite Hip).
  destruct (word_of_inst x Out (out_ ip) _ (proj1 (proj1 HL)) Ho) as (y&Ey&Ew&Hy&Hf); [by destruct Hop as [[? ->]|[(?&->&_)| ->]]|by destruct Hop as [[? ->]|[(?&->&_)| ->]]|done|].
  apply call_bind, (call_lift (Some y)); [done|]. apply call_ret.
  eapply next_check; [exact C|exact Hw|exact Cl|exact HL|exact Ho|by destruct Hop as [[? ->]|[(?&->&_)| ->]]|by destruct Hop as [[? ->]|[(?&->&_)| ->]]| |exact Hy|exact Hf|apply HL|].
  - exists ip, Out. cbn. rewrite Ew. split_and!; [done..|]. destruct Hop as [[? ->]|[(?&->&?)| ->]]; done.
  - intros y' r' (f&Hsl&Hl)%(steps_inv _ _ _ _ _ Hip). left.
    assert (f = Out /\ q = r') as [-> <-] by (destruct Hop as [[? E]|[(?&E&_)|E]]; rewrite E in Hl; naive_solver).
    cbn in Hsl. rewrite Ew in Hsl. by injection Hsl as ->.
Qed.

(** ** The body, instruction by instruction *)

Lemma closed_more_jobs s s' j W T : closed s W T -> same_rest s s' -> visited_ s' = visited_ s -> job_ s' = j :: job_ s -> closed s' W T.
Proof.
  intros C R Ev Ej. eapply closed_mono; [exact C| | | | |].
  - intros y r _. unfold seen. rewrite Ev. by left.
  - intros y r. unfold seen. by rewrite Ev.
  - intros y r [?|?]; [by left|]. right. left. unfold waiting. rewrite Ej. by right.
  - intros y r [?|(v&?&?)]; [right; by left|]. right. right. exists v. rewrite Ej. split; [by right|done].
  - intros r. by apply recorded_same.
Qed.

Lemma call_inst x ip k (Q : control -> BitState -> Prop) s : prog !! x = Some ip -> wp (k ip) Q s -> wp (i ← lift (inst_at prog (Some x)); k i) Q s.
Proof. intros Hip H. apply call_bind, (call_lift ip); [|done]. unfold inst_at, inst_of. cbn. by rewrite Hip. Qed.

Lemma visit_alt s w x q ip w1 : core s w -> w + 4 <= 5 * npairs + 6 -> closed s (pair_of x q) none -> lead x q ->
  prog !! x = Some ip -> opcode_ ip = kInstAlt w1 -> wp (visit (Some x) (Some q) 0) (fun k s' => next_ok k s' (w + 4)) s.
Proof.
  intros C Hw Cl HL Hip Hop. unfold BitState.visit. apply (call_inst x ip); [done|]. rewrite Hop, decide_True by done.
  destruct (alt_of _ _ _ _ Hip Hop) as (Ho&T0&T1).
  apply call_bind. eapply push_return; [exact C|lia|exact Hip|by rewrite Hop| |].
  { exists x. split; [done|]. right. left. split_and!; [done..|by exists q]. }
  intros s1 C1 R1 V1 J1. pose proof (closed_more_jobs _ _ _ _ _ Cl R1 V1 J1) as Cl1.
  destruct (word_of_inst x Out (out_ ip) _ (proj1 (proj1 HL)) Ho) as (y&Ey&Ew&Hy&Hf); [done..|].
  apply call_bind, (call_lift (Some y)); [done|]. apply call_ret.
  eapply next_check; [exact C1|lia|exact Cl1|exact HL|exact Ho|done|done| |exact Hy|exact Hf|apply HL|].
  - exists ip, Out. cbn. rewrite Ew, Hop. done.
  - intros y' r' (f&Hsl&Hl)%(steps_inv _ _ _ _ _ Hip). rewrite Hop in Hl. cbn in Hl. subst r'. destruct f; cbn in Hsl.
    + left. rewrite Ew in Hsl. by injection Hsl as ->.
    + right. exists x. rewrite J1. split; [by left|]. split; [done|]. unfold target. cbn. rewrite Hip. exact Hsl.
Qed.

(** The two orders of [kInstAltMatch]: the match is at [z]. *)
Lemma marked_settled s x q z T : op_at prog x = Some (kInstAltMatch NULL) -> ends_here prog z -> inside D z -> (T z te \/ seen s z te) ->
  settled (fun y r => seen s y r \/ T y r \/ todo (job_ s) y r) (recorded s) x q.
Proof. intros Ho He Hz HT. split; [|congruence|congruence]. intros _. exists z. naive_solver. Qed.

Lemma ends_here_not_fail z : ends_here prog z -> op_at prog z <> Some kInstFail.
Proof. intros (m&Hm&Hr) E. inversion Hr as [|? k ? [(op&Ho&Hs) _] _]; subst; [congruence|]. rewrite Ho in E. injection E as ->. by destruct Hs as [?|[? ?]]. Qed.

Lemma ends_here_not_range z x : ends_here prog z -> ~ byte_loop prog x z.
Proof.
  intros (m&Hm&Hr) [_ [fold E]]. inversion Hr as [|? k ? [(op&Ho&Hs) _] _]; subst; [congruence|].
  rewrite Ho in E. injection E as ->. by destruct Hs as [?|[? ?]].
Qed.

Lemma is_ByteRange_at y ip : prog !! y = Some ip -> is_ByteRange (opcode_ ip) = true <-> exists lo hi fold, op_at prog y = Some (kInstByteRange lo hi fold).
Proof. intros Hip%op_at_inst. rewrite Hip. destruct (opcode_ ip); cbn; split; intros H; try done; try naive_solver; by destruct H as (?&?&?&?). Qed.

Lemma visit_marked s w x q ip w1 : core s w -> w + 4 <= 5 * npairs + 6 -> closed s (pair_of x q) none -> lead x q ->
  prog !! x = Some ip -> opcode_ ip = kInstAltMatch w1 -> wp (visit (Some x) (Some q) 0) (fun k s' => next_ok k s' (w + 4)) s.
Proof.
  intros C Hw Cl HL Hip Hop. unfold BitState.visit. apply (call_inst x ip); [done|]. rewrite Hop.
  pose proof (op_at_inst _ _ _ Hip) as Ho. rewrite Hop in Ho. cbn in Ho. destruct (se_marks _ _ HS x Ho) as (y&z&Hy&Hz&HF).
  assert (T0 : target prog (x, Out) = Some (out_ ip)) by (unfold target; cbn; by rewrite Hip).
  assert (T1 : target prog (x, Out1) = Some w1) by (unfold target, slot; cbn; rewrite Hip; cbn; by rewrite Hop).
  assert (E0 : out_ ip = ToInst y) by congruence. assert (E1 : w1 = ToInst z) by congruence. rewrite E0, E1.
  assert (Iy : inside D y) by (destruct (co_words _ _ (se_complete _ _ HS) _ _ _ (proj1 (proj1 HL)) Hy) as [(?&[= <-]&?)|[? _]]; done).
  assert (Iz : inside D z) by (destruct (co_words _ _ (se_complete _ _ HS) _ _ _ (proj1 (proj1 HL)) Hz) as [(?&[= <-]&?)|[? _]]; done).
  assert (Sy : lead y q) by (apply (lead_step x q y q); [done|done| |apply HL]; by eapply step_through).
  assert (Sz : lead z q) by (apply (lead_step x q z q); [done|done| |apply HL]; by eapply step_through).
  apply call_bind, (call_lift (Some y)); [done|]. apply call_bind, (call_lift (Some z)); [done|].
  destruct (inst_of_inside _ _ _ (se_complete _ _ HS) Iy) as (iy&Hiy&_), (inst_of_inside _ _ _ (se_complete _ _ HS) Iz) as (iz&Hiz&_).
  apply (call_inst y iy); [done|]. destruct (is_ByteRange (opcode_ iy)) eqn:Er.
  - (* out1 is the match *)
    assert (He : ends_here prog z).
    { destruct HF as [[_ ?]|[He _]]; [done|]. apply (is_ByteRange_at y iy Hiy) in Er as (lo&hi&fold&Er).
      exfalso. destruct He as (m&Hm&Hr). inversion Hr as [|? k ? [(op&Hop'&Hs) _] _]; subst; [congruence|].
      rewrite Hop' in Er. injection Er as ->. by destruct Hs as [?|[? ?]]. }
    apply call_bind. eapply push_visit; [exact C|lia|exact Hiz|exact Sz|]. intros s1 C1 R1 O1.
    pose proof (offered_closed _ _ _ _ _ _ (proj1 Sz) O1 R1 Cl) as Cl1. apply call_ret.
    exists z, te, (w + 1). split_and!; [done|done|exact (lead_marked x q z HL Ho Iz)|by apply ends_here_not_fail|lia|done|].
    eapply closed_settle; [exact Cl1|done|]. eapply marked_settled; [done|exact He|done|by left].
  - (* out is the match *)
    assert (He : ends_here prog y).
    { destruct HF as [[[_ [fold Hb]] _]|[He _]]; [|done]. exfalso. assert (is_ByteRange (opcode_ iy) = true); [|congruence].
      apply (is_ByteRange_at y iy Hiy). by do 3 eexists. }
    pose proof (lead_marked x q y HL Ho Iy) as Sy'.
    apply call_bind. eapply push_visit; [exact C|lia|exact Hiy|exact Sy'|]. intros s1 C1 R1 O1.
    pose proof (offered_closed _ _ _ _ _ _ (proj1 Sy') O1 R1 Cl) as Cl1. apply call_ret.
    exists y, q, (w + 1). split_and!; [done|done|done|by apply ends_here_not_fail|lia|done|].
    eapply closed_settle; [exact Cl1|done|]. eapply marked_settled; [done|exact He|done|right].
    eapply offered_new; [exact O1|by apply ends_here_not_fail].
Qed.

Lemma visit_range s w x q ip lo hi fold : core s w -> closed s (pair_of x q) none -> lead x q ->
  prog !! x = Some ip -> opcode_ ip = kInstByteRange lo hi fold -> wp (visit (Some x) (Some q) 0) (fun k s' => next_ok k s' (w + 4)) s.
Proof.
  intros C Cl HL Hip Hop. unfold BitState.visit. apply (call_inst x ip); [done|]. rewrite Hop.
  pose proof (op_at_inst _ _ _ Hip) as Ho. rewrite Hop in Ho. cbn in Ho. pose proof (proj2 (proj1 HL)) as Hq.
  assert (T0 : target prog (x, Out) = Some (out_ ip)) by (unfold target; cbn; by rewrite Hip).
  assert (C' : core s (w + 4)) by (destruct C; split; try done; lia).
  assert (HI : forall y r, steps (x, q) (y, r) -> r = S q /\ out_ ip = ToInst y /\ exists c, text !! q = Some c /\ Matches lo hi fold (uchar c) = true).
  { intros y r (f&Hsl&Hl)%(steps_inv _ _ _ _ _ Hip). rewrite Hop in Hl. destruct Hl as (->&->&Hc). split; [done|]. split; [|done].
    cbn in Hsl. by injection Hsl as ->. }
  apply call_bind, (call_lift q); [done|]. apply call_bind. destruct (decide (q < te)) as [Hlt|Hlt].
  - destruct (lookup_lt_is_Some_2 text q ltac:(lia)) as [c Hc]. apply (call_lift (uchar c)); [by apply at_spec|].
    destruct (Matches lo hi fold (uchar c)) eqn:Em.
    + destruct (word_of_inst x Out (out_ ip) _ (proj1 (proj1 HL)) Ho) as (y&Ey&Ew&Hy&Hf); [done..|].
      apply call_bind, (call_lift (Some y)); [done|]. apply call_ret.
      eapply (next_check s _ w); [exact C|lia|exact Cl|exact HL|exact Ho|done|done| |exact Hy|exact Hf|lia|].
      * exists ip, Out. cbn. rewrite Ew, Hop. split_and!; [done..|]. split; [done|]. split; [done|]. by exists c.
      * intros y' r' (->&E&_)%HI. left. split; congruence.
    + apply call_ret. eapply next_job; [exact C'|exact Cl|exact Ho|done| |done]. intros y r (_&_&c'&Hc'&Hm)%HI. congruence.
  - apply call_ret. assert (Em : Matches lo hi fold (-1) = false).
    { pose proof (se_low _ _ HS _ _ _ _ Ho). unfold Matches. destruct fold; cbn [andb]; apply bool_decide_eq_false; [case_bool_decide|]; lia. }
    rewrite Em. apply call_ret. eapply next_job; [exact C'|exact Cl|exact Ho|done| |done]. intros y r (->&_)%HI. lia.
Qed.

(** ** Capture registers *)

Definition with_cap (l : list cptr) (s : BitState) : BitState :=
  MkBitState (submatch_ s) l (visited_ s) (job_ s) (maxjob_ s) (matched s).

Lemma get_cap_wp s i v (Q : cptr -> BitState -> Prop) : (0 <= i)%Z -> cap_ s !! Z.to_nat i = Some v -> Q v s -> wp (get_cap i) Q s.
Proof. intros Hi Hv H. unfold get_cap. apply call_bind, call_get. rewrite decide_True by done. apply (call_lift v); [|done]. by rewrite Hv. Qed.

Lemma put_cap_wp s i p (Q : unit -> BitState -> Prop) : (0 <= i < Z.of_nat (length (cap_ s)))%Z ->
  Q () (with_cap (<[Z.to_nat i := p]> (cap_ s)) s) -> wp (put_cap i p) Q s.
Proof. intros Hi H. unfold put_cap. apply call_bind, call_get. by rewrite decide_True. Qed.

(** The registers from 2 on are free to change. *)
Lemma core_cap s w i p : core s w -> (1 <= i)%Z -> core (with_cap (<[Z.to_nat i := p]> (cap_ s)) s) w.
Proof.
  intros [J [Ca Ca0] Su V B M R We St] Hi. split; try done. cbn. rewrite length_insert. split; [done|].
  rewrite list_lookup_insert_ne by lia. done.
Qed.

Lemma visit_capture s w x q ip cap : core s w -> w + 4 <= 5 * npairs + 6 -> closed s (pair_of x q) none -> lead x q ->
  prog !! x = Some ip -> opcode_ ip = kInstCapture cap -> wp (visit (Some x) (Some q) 0) (fun k s' => next_ok k s' (w + 4)) s.
Proof.
  intros C Hw Cl HL Hip Hop. unfold BitState.visit. apply (call_inst x ip); [done|]. rewrite Hop, decide_True by done.
  pose proof (op_at_inst _ _ _ Hip) as Ho. rewrite Hop in Ho. cbn in Ho.
  pose proof (se_caps _ _ HS x cap (proj1 (proj1 HL)) Ho) as Hc. apply call_bind. case_decide as Hr.
  - destruct (lookup_lt_is_Some_2 (cap_ s) (Z.to_nat cap)) as [old Hold]; [destruct (in_cap _ _ C); lia|].
    apply call_bind, (get_cap_wp s cap old); [lia|done|]. apply call_bind. eapply push_return; [exact C|lia|exact Hip|by rewrite Hop| |].
    { exists x. split; [done|]. right. right. split; [done|]. exists cap. split; [done|lia]. }
    intros s1 C1 R1 V1 J1. apply put_cap_wp; [destruct (in_cap _ _ C1); lia|].
    eapply visit_through; [apply core_cap; [exact C1|lia]|lia| |exact HL|exact Hip|left; by exists cap].
    exact (closed_more_jobs _ _ _ _ _ Cl R1 V1 J1).
  - apply call_ret. eapply (visit_through s _ w); [exact C|lia|exact Cl|exact HL|exact Hip|left; by exists cap].
Qed.

Lemma visit_nop s w x q ip : core s w -> closed s (pair_of x q) none -> lead x q ->
  prog !! x = Some ip -> opcode_ ip = kInstNop -> wp (visit (Some x) (Some q) 0) (fun k s' => next_ok k s' (w + 4)) s.
Proof.
  intros C Cl HL Hip Hop. unfold BitState.visit. apply (call_inst x ip); [done|]. rewrite Hop.
  eapply (visit_through s _ w); [exact C|lia|exact Cl|exact HL|exact Hip|by do 2 right].
Qed.

Lemma visit_empty s w x q ip e : core s w -> closed s (pair_of x q) none -> lead x q ->
  prog !! x = Some ip -> opcode_ ip = kInstEmptyWidth e -> wp (visit (Some x) (Some q) 0) (fun k s' => next_ok k s' (w + 4)) s.
Proof.
  intros C Cl HL Hip Hop. unfold BitState.visit. apply (call_inst x ip); [done|]. rewrite Hop. apply call_bind, (call_lift q); [done|].
  pose proof (EmptyFlags_spec text q ltac:(destruct HL as [[_ ?] _]; lia)) as Ef. set (flags := flags_of _ _ _ _ _) in Ef. apply call_bind, (call_lift flags); [done|]. case_decide as Hd.
  - apply call_ret. pose proof (op_at_inst _ _ _ Hip) as Ho. rewrite Hop in Ho.
    assert (C' : core s (w + 4)) by (destruct C; split; try done; lia).
    eapply next_job; [exact C'|exact Cl|exact Ho|done| |done]. intros y r (f&_&Hl)%(steps_inv _ _ _ _ _ Hip). exfalso.
    rewrite Hop in Hl. destruct Hl as (_&_&fl&Ef'&Hz). congruence.
  - eapply (visit_through s _ w); [exact C|lia|exact Cl|exact HL|exact Hip|]. right. left. exists e. split; [done|]. by exists flags.
Qed.

(** ** A match *)

Definition with_submatch (l : list StringPiece) (s : BitState) : BitState :=
  MkBitState l (cap_ s) (visited_ s) (job_ s) (maxjob_ s) (matched s).

(** The pieces from [i] on come from the registers. *)
Lemma fill_submatch_wp (Q : unit -> BitState -> Prop) : forall n i s, i + n = length (submatch_ s) -> 2 * (i + n) <= length (cap_ s) ->
  (forall l, length l = length (submatch_ s) -> (forall k, k < i -> l !! k = submatch_ s !! k) ->
    (forall b e, 0 < n -> cap_ s !! (2 * i) = Some b -> cap_ s !! (2 * i + 1) = Some e -> l !! i = Some (piece base b e)) ->
    Q () (with_submatch l s)) -> wp (fill_submatch base n i) Q s.
Proof.
  induction n as [|n IH]; intros i s Hn Hc H; cbn [fill_submatch].
  - apply call_ret. specialize (H (submatch_ s)). destruct s. apply H; [done|done|lia].
  - destruct (lookup_lt_is_Some_2 (cap_ s) (2 * i)) as [b Hb]; [lia|]. destruct (lookup_lt_is_Some_2 (cap_ s) (2 * i + 1)) as [e He]; [lia|].
    apply call_bind, (get_cap_wp s _ b); [lia|by rewrite Nat2Z.id|]. apply call_bind, (get_cap_wp s _ e); [lia| |].
    { by rewrite Nat2Z.id. }
    apply call_bind, call_get, call_bind. rewrite decide_True by lia. unfold wp at 1, set_submatch.
    set (l1 := <[i := piece base b e]> (submatch_ s)). change (wp (fill_submatch base n (S i)) Q (with_submatch l1 s)).
    apply IH; cbn [submatch_ cap_ with_submatch]; unfold l1; rewrite ?length_insert; [lia|lia|]. intros l Hl Hlo Hhi.
    apply H; [done| |].
    + intros k Hk. rewrite Hlo by lia. by rewrite list_lookup_insert_ne by lia.
    + intros b' e' _ Hb' He'. assert (b' = b) as -> by congruence. assert (e' = e) as -> by congruence.
      rewrite Hlo by lia. apply list_lookup_insert_eq. lia.
Qed.

Lemma piece_len q : p0 <= q <= te -> piece base (Some p0) (Some q) = (Some p0, Z.of_nat (q - p0)).
Proof.
  intros Hq. destruct (row_lt _ _ H0) as [_ Hx]. destruct H0 as [_ Hp]. unfold piece, address. f_equal.
  assert (Z.of_nat (q - p0) < 2 ^ 28)%Z by (unfold npairs, row in HN; nia).
  rewrite swrap_small; [lia|done|]. unfold in_int, int_min, int_max. cbn. lia.
Qed.

(** A match at [q] is reported, unless a better one was. *)
Lemma report_wp s w q (rest : searching control) (Q : control -> BitState -> Prop) : core s w -> nsub <> 0 -> good q ->
  (forall s', core s' w -> matched s' = true -> visited_ s' = visited_ s -> job_ s' = job_ s ->
    (exists e, best s' e /\ (longest = true -> q <= e)) ->
    (forall e, recorded s e -> longest = true -> recorded s' e) -> wp rest Q s') ->
  wp (set_matched true;; put_cap 1 (Some q);; s ← comp_get; b ← lift (from_option_or BadIndex (submatch_ s !! 0));
      (if bool_decide (b.1 = None) || longest && bool_decide (piece_end base b < address base (Some q))%Z
       then fill_submatch base nsub 0 else mret ());; rest) Q s.
Proof.
  intros C Hn Hg H. apply call_bind. unfold wp at 1, set_matched. apply call_bind, put_cap_wp; [destruct (in_cap _ _ C); cbn; lia|].
  apply call_bind, call_get. destruct C as [J [Ca Ca0] Su V B M R We St]. specialize (B Hn).
  destruct (lookup_lt_is_Some_2 (submatch_ s) 0) as [b Hb]; [lia|].
  assert (Eb : from_option_or BadIndex (submatch_ s !! 0) = Ret b) by (by rewrite Hb). apply call_bind, (call_lift b); [exact Eb|].
  pose proof (piece_len q (proj1 Hg)) as Hp. destruct Hg as (Hq&Hacc&Hend).
  match goal with |- wp _ _ ?st => set (s1 := st) end.
  assert (Hfill : (longest = true -> forall e, best s e -> e <= q) -> wp (fill_submatch base nsub 0) (fun _ s' => wp rest Q s') s1).
  { intros Hbest. apply fill_submatch_wp; [cbn; lia|cbn; rewrite length_insert; lia|]. intros l Hl _ Hhi.
    assert (Hnew : l !! 0 = Some (Some p0, Z.of_nat (q - p0))).
    { rewrite <- Hp. apply (Hhi (Some p0) (Some q)); [lia| |]; cbn; [by rewrite list_lookup_insert_ne|]. apply list_lookup_insert_eq. lia. }
    assert (Hbq : best (with_submatch l s1) q) by done.
    apply H; [|done..|by exists q|].
    - split; try done; cbn; [split; [by rewrite length_insert|by rewrite list_lookup_insert_ne]|by rewrite Hl|]. intros _. by exists q.
    - intros e (_&e'&He&Hb') Hlong. split; [done|]. exists q. split; [|done]. specialize (Hbest Hlong _ Hb'). lia. }
  apply call_bind. match goal with |- wp (if ?c || _ then _ else _) _ _ => destruct c eqn:En end.
  - apply Hfill. intros _ e [_ E]. rewrite E in Hb. injection Hb as <-. by apply bool_decide_eq_true in En.
  - apply bool_decide_eq_false in En. cbn [orb]. destruct (matched s) eqn:Em.
    2: { destruct B as [n E]. rewrite E in Hb. injection Hb as <-. done. }
    destruct B as (e&Hg'&E). rewrite E in Hb. injection Hb as <-. cbn [piece_end fst snd] in *.
    destruct (longest && bool_decide _) eqn:El.
    + apply andb_true_iff in El as [Hlong El%bool_decide_eq_true]. apply Hfill. intros _ e' [Hg'' E']. rewrite E in E'. injection E' as E'.
      destruct Hg' as [? _], Hg'' as [? _]. unfold piece_end, address in El. cbn in El. lia.
    + apply call_ret. apply H; try done.
      * split; try done; cbn; [split; [by rewrite length_insert|by rewrite list_lookup_insert_ne]|]. intros _. by exists e.
      * exists e. split; [done|]. intros ->. cbn in El. apply bool_decide_eq_false in El. destruct Hg' as [? _].
        unfold piece_end, address in El. cbn in El. lia.
      * intros e' (_&e''&?&?) _. split; [done|]. by exists e''.
Qed.

Lemma next_return s w w' e : core s w' -> good e ->
  (nsub <> 0 -> submatch_ s !! 0 = Some (Some p0, Z.of_nat (e - p0)) /\ (longest = true -> forall e', good e' -> e' <= e)) ->
  next_ok (Return true) s w.
Proof. intros C Hg H. split; [done|]. split; [apply C|]. by exists e. Qed.

Lemma visit_match s w x q ip : core s w -> closed s (pair_of x q) none -> lead x q ->
  prog !! x = Some ip -> opcode_ ip = kInstMatch -> wp (visit (Some x) (Some q) 0) (fun k s' => next_ok k s' (w + 4)) s.
Proof.
  intros C Cl HL Hip Hop. unfold BitState.visit. apply (call_inst x ip); [done|]. rewrite Hop.
  pose proof (op_at_inst _ _ _ Hip) as Ho. rewrite Hop in Ho. cbn in Ho. assert (C' : core s (w + 4)) by (destruct C; split; try done; lia).
  assert (Hno : forall y r, ~ steps (x, q) (y, r)) by (intros y r (f&_&Hl)%(steps_inv _ _ _ _ _ Hip); by rewrite Hop in Hl).
  unfold BitState.found_match. destruct (endmatch && _) eqn:Ee.
  { apply andb_true_iff in Ee as [Ee Hq%bool_decide_eq_true]. apply call_ret. eapply next_job; [exact C'|exact Cl|exact Ho|done| |].
    - by intros y r ?%Hno.
    - intros _ Hte. rewrite (Hte Ee) in Hq. done. }
  assert (Hg : good q).
  { destruct HL as ([_ ?]&?&HL). split; [lia|]. split; [apply HL; [lia|]; by exists x|]. intros Hte. rewrite Hte in Ee. cbn in Ee.
    apply bool_decide_eq_false in Ee. destruct (decide (q = te)) as [|E]; [done|]. exfalso. apply Ee. congruence. }
  assert (Hge : forall e, good e -> e <= te) by (intros e [? _]; lia).
  destruct (decide (nsub = 0)) as [Hn|Hn]; [apply call_ret; by eapply (next_return s _ _ q)|].
  apply (report_wp s (w + 4)); [done|done|done|]. intros s' C2 Hm Ev Ej (e&Hb&He) Hrec.
  pose proof Hb as [Hge' Hsub]. destruct longest eqn:El; cbn [negb].
  2: { apply call_ret. eapply (next_return s' _ _ e); [exact C2|done|]. intros _. split; [done|]. congruence. }
  specialize (He eq_refl). case_decide as Hq.
  - apply call_ret. injection Hq as ->. eapply (next_return s' _ _ e); [exact C2|done|]. intros _. split; [done|].
    intros _ e' He'. specialize (Hge _ He'). lia.
  - apply call_ret. eapply next_job; [exact C2| |exact Ho|done|by intros y r ?%Hno|].
    + eapply closed_mono; [exact Cl| | | | |].
      * intros y r _. unfold seen. rewrite Ev. by left.
      * intros y r. unfold seen. by rewrite Ev.
      * intros y r. rewrite Ej. naive_solver.
      * intros y r. rewrite Ej. naive_solver.
      * intros r Hr. by apply Hrec.
    + intros _ _. split; [done|]. by exists e.
Qed.

(** The body at a pair. *)
Lemma visit_wp s w x q : core s w -> w + 4 <= 5 * npairs + 6 -> closed s (pair_of x q) none -> lead x q -> op_at prog x <> Some kInstFail ->
  wp (visit (Some x) (Some q) 0) (fun k s' => next_ok k s' (w + 4)) s.
Proof.
  intros C Hw Cl HL Hf. destruct (inst_of_inside _ _ _ (se_complete _ _ HS) (proj1 (proj1 HL))) as (ip&Hip&_).
  destruct (opcode_ ip) eqn:Hop.
  - by eapply visit_alt.
  - by eapply visit_range.
  - by eapply visit_capture.
  - by eapply visit_empty.
  - by eapply visit_match.
  - by eapply visit_nop.
  - apply op_at_inst in Hip. by rewrite Hop in Hip.
  - by eapply visit_marked.
Qed.

(** ** Taking a job *)

Lemma closed_weaken s (W T W' T' : nat -> nat -> Prop) : closed s W T -> (forall x q, W x q -> W' x q) -> (forall x q, T x q -> T' x q) -> closed s W' T'.
Proof.
  intros C HW HT x q Hv Hs. destruct (C x q Hv Hs) as [?|[?|St]]; [left; auto|right; by left|right; right].
  eapply settled_mono; [|done|exact St]. naive_solver.
Qed.

Lemma pop_closed s j l : closed s none none -> job_ s = j :: l -> closed (with_jobs l (maxjob_ s) s) (waiting [j]) (todo [j]).
Proof.
  intros C Ej. eapply closed_mono; [exact C| |done| | |done].
  - intros x q _. by left.
  - intros x q [[]|Hw]. unfold waiting in *. rewrite Ej in Hw. apply elem_of_cons in Hw as [->|Hw]; [left; by left|right; by left].
  - intros y r [[]|(x&Hx&?)]. rewrite Ej in Hx. apply elem_of_cons in Hx as [<-|Hx]; [right; left|right; right]; exists x; (split; [|done]); [by left|done].
Qed.

Lemma pop_core s w j l : core s w -> job_ s = j :: l -> exists w', core (with_jobs l (maxjob_ s) s) w' /\ w' + job_weight j <= w.
Proof.
  intros [J Ca Su V B M [R1 R2] We St] Ej. unfold weight in We. rewrite Ej in J, R2, We. cbn in J, R2, We. apply Forall_cons in J as [_ J].
  exists (weight (with_jobs l (maxjob_ s) s)). split; [|unfold weight; cbn; lia]. split; try done. split; cbn; lia.
Qed.

(** Coming back to an alternative, or restoring a register. *)
Lemma return_wp s w j : core s w -> w + 1 <= 5 * npairs + 6 -> closed s (waiting [j]) (todo [j]) -> job_ok j -> job_arg j = 1%Z ->
  wp (visit (job_ip j) (job_p j) (job_arg j)) (fun k s' => next_ok k s' (w + 1)) s.
Proof.
  intros C Hw Cl (x&Ex&HJ) E1. destruct j as [ip p arg]. cbn in *. subst ip arg. assert (C' : core s (w + 1)) by (destruct C; split; try done; lia).
  assert (Hnw : forall y r, ~ waiting [MkJob (Some x) p 1] y r) by (by intros y r [=]%list_elem_of_singleton).
  destruct HJ as [[? _]|[(_&Ho&q&->&HL)|(_&cap&Ho&Hcap)]]; [done| |]; unfold BitState.visit; destruct (op_at_lookup _ _ _ Ho) as (ip&Hip&Hk);
    apply (call_inst x ip); try done; destruct (opcode_ ip) eqn:Hop; try discriminate Hk.
  - rewrite decide_False, decide_True by done. destruct (alt_of _ _ _ _ Hip Hop) as (_&_&T1).
    destruct (word_of_inst x Out1 out1 _ (proj1 (proj1 HL)) Ho) as (y&Ey&Ew&Hy&Hf); [done..|exact T1|].
    apply call_bind, (call_lift (Some y)); [done|]. apply call_ret. exists y, q, w. split_and!; [done|done| |done|lia|done|].
    + apply (lead_step x q y q); [done|done| |apply HL]. eapply step_through; [exact Ho|by rewrite T1, Ew|done].
    + eapply closed_weaken; [exact Cl|by intros y' r []%Hnw|]. intros y' r (v&[= -> ->]%list_elem_of_singleton&_&Ht). rewrite T1, Ew in Ht. by injection Ht as ->.
  - rewrite decide_False, decide_True by done. cbn in Hk. injection Hk as ->. apply call_bind, put_cap_wp; [destruct (in_cap _ _ C); lia|].
    apply call_ret. split; [apply core_cap; [done|lia]|].
    assert (Cl' : closed s none none); [|exact Cl'].
    eapply closed_weaken; [exact Cl|by intros y' r []%Hnw|]. intros y' r (v&[= -> _]%list_elem_of_singleton&Ho'&_). congruence.
Qed.

(** ** The end of an attempt *)

Lemma silent_inside a b : inside D a -> silent prog b a -> inside D b.
Proof. intros Ha [_ Ht]. destruct (co_words _ _ (se_complete _ _ HS) _ _ _ Ha Ht) as [(?&[= <-]&?)|[? _]]; done. Qed.

Section finished.
Context (s : BitState) (Cl : closed s none none) (Ej : job_ s = []).

Lemma finished_settled x q : valid x q -> seen s x q -> settled (seen s) (recorded s) x q.
Proof.
  intros Hv Hs. destruct (Cl x q Hv Hs) as [[]|[Hw|St]].
  - unfold waiting in Hw. rewrite Ej in Hw. by apply not_elem_of_nil in Hw.
  - eapply settled_mono; [|done|exact St]. intros y r [?|[[]|(v&Hv'&_)]]; [done|]. rewrite Ej in Hv'. by apply not_elem_of_nil in Hv'.
Qed.

Lemma finished_end z : inside D z -> ends_here prog z -> seen s z te -> recorded s te.
Proof.
  intros Hz (m&Hm&Hr) Hs. induction Hr as [z|z b m Hzb Hr IH].
  - apply (st_match _ _ _ _ (finished_settled z te ltac:(split; [done|lia]) Hs)); done.
  - apply IH; [by eapply silent_inside|done|]. destruct Hzb as [(op&Ho&Hop) Ht].
    apply (st_steps _ _ _ _ (finished_settled z te ltac:(split; [done|lia]) Hs)); [|by eapply step_through; [..|destruct Hop as [->|[? ->]]]|done].
    rewrite Ho. intros [= ->]. by destruct Hop as [?|[? ?]].
Qed.

Lemma finished_complete m j : op_at prog m = Some kInstMatch -> j <= te -> (endmatch = true -> j = te) ->
  forall n x q, nsteps steps n (x, q) (m, j) -> valid x q -> seen s x q -> exists j', j <= j' /\ recorded s j'.
Proof.
  intros Hm Hj He. induction n as [|n IH]; intros x q Hr Hv Hs; pose proof (finished_settled x q Hv Hs) as [SA SS SM];
    inversion Hr as [|n0 ? [y k] ? Hst Hr']; subst.
  - eexists. split; [reflexivity|]. by apply SM.
  - destruct (decide (op_at prog x = Some (kInstAltMatch NULL))) as [Ho|Ho].
    + destruct (SA Ho) as (z&?&?&?). exists te. split; [done|]. by eapply finished_end.
    + assert (k <= j) by (apply (accepts_mono text prog y k j); exists m; split; [done|]; by eapply rtc_nsteps_2).
      apply (IH y k Hr'); [|by apply SS; [..|lia]]. pose proof (steps_mono _ _ _ _ _ _ Hst). destruct Hv as [Hx ?]. split; [|lia].
      apply steps_iff in Hst as (f&Ht&_). destruct (co_words _ _ (se_complete _ _ HS) _ _ _ Hx Ht) as [(?&[= <-]&?)|[? _]]; done.
Qed.
End finished.

(** What the next attempt starts from. *)
Record idle (s : BitState) : Prop := {
  id_cap : Z.of_nat (length (cap_ s)) = ncap;
  id_sub : length (submatch_ s) = nsub;
  id_none : nsub <> 0 -> exists n, submatch_ s !! 0 = Some (None, n);
  id_visited b : b ∈ visited_ s -> (0 <= b < Z.of_nat npairs)%Z;
  id_room : (0 < maxjob_ s <= 2 ^ 30)%Z;
  id_dead x q : valid x q -> seen s x q -> settled (seen s) (fun _ => False) x q;
}.

Definition attempt (b : bool) (s : BitState) : Prop := if b then success s else idle s /\ forall e, ~ good e.

(** With an empty stack the answer is right. *)
Lemma finished_attempt s w : core s w -> closed s none none -> job_ s = [] -> attempt (matched s) s.
Proof.
  intros C Cl Ej.
  assert (HG : forall e, good e -> exists e', e <= e' /\ recorded s e').
  { intros e ([He1 He2]&(m&Hm&Hr)&Hend). destruct (in_start _ _ C) as [Hs|Hf].
    - apply rtc_nsteps in Hr as [n Hr]. by eapply (finished_complete s Cl Ej m e Hm He2 Hend).
    - exfalso. apply rtc_inv in Hr as [[= -> ->]|([y k]&Hst&_)]; [congruence|]. apply steps_iff in Hst as (f&_&op&Ho&Hl). cbn in Ho.
      rewrite Hf in Ho. by injection Ho as <-. }
  destruct C as [J [Ca Ca0] Su V B M R We St]. unfold attempt. destruct (matched s) eqn:Em.
  - split; [done|]. destruct (B (M eq_refl)) as (e&Hg&Hb). exists e. split; [done|]. intros _. split; [done|]. intros _ e' He'.
    destruct (HG e' He') as (j&Hj&_&e2&Hj2&([? _]&_)&Hb2). rewrite Hb in Hb2. injection Hb2 as E. destruct Hg as [? _]. lia.
  - assert (HN' : forall q, ~ recorded s q) by (intros q [? _]; congruence). split; [split; try done|].
    + destruct R. lia.
    + intros x q Hv Hs. eapply settled_mono; [done| |exact (finished_settled s Cl Ej x q Hv Hs)]. intros r []%HN'.
    + intros e (e'&_&[]%HN')%HG.
Qed.

Lemma try_loop_wp : forall fuel k s w, w < fuel -> w <= 5 * npairs + 6 -> next_ok k s w -> wp (try_loop fuel k) attempt s.
Proof.
  induction fuel as [|fuel IH]; intros k s w Hf Hw H; [lia|]. cbn [BitState.try_loop]. destruct k as [|ip p|found].
  - destruct H as [C Cl]. apply call_bind, call_get. destruct (job_ s) as [|j l] eqn:Ej; [by apply call_ret, (finished_attempt s w)|].
    pose proof (in_jobs _ _ C) as HJ. rewrite Ej in HJ. apply Forall_cons in HJ as [HJ _].
    destruct (pop_core _ _ _ _ C Ej) as (w1&C1&Hw1). pose proof (pop_closed _ _ _ Cl Ej) as Cl1.
    apply call_bind. unfold wp at 1, set_job. change (MkBitState _ _ _ _ _ _) with (with_jobs l (maxjob_ s) s). apply call_bind.
    pose proof HJ as (x&Ex&[(E0&Hnf&q&Eq&HL)|HJ']).
    + unfold job_weight in Hw1. rewrite decide_True in Hw1 by done. rewrite Ex, Eq, E0.
      eapply call_mono; [apply (visit_wp _ w1 x q); [done|lia| |done|done]|].
      * destruct j as [ip p arg]. cbn in Ex, Eq, E0. subst. eapply closed_weaken; [exact Cl1|by intros y r [= -> ->]%list_elem_of_singleton|].
        by intros y r (v&[=]%list_elem_of_singleton&_).
      * intros k s' Hk. eapply IH; [|..|exact Hk]; lia.
    + assert (E1 : job_arg j = 1%Z) by (by destruct HJ' as [[? _]|[? _]]). unfold job_weight in Hw1. rewrite E1, decide_False in Hw1 by done.
      eapply call_mono; [apply (return_wp _ w1 j); [done|lia|done|done|done]|].
      intros k s' Hk. eapply IH; [|..|exact Hk]; lia.
  - destruct H as (y&r&w1&->&->&HL&Hnf&Hw1&C&Cl). apply call_bind, ShouldVisit_wp; [apply HL|..].
    + intros Hs. apply (IH NextJob s w1); [lia|lia|]. split; [done|]. eapply closed_mono; [exact Cl|by intros x q _; left|done| |..].
      * intros x q [[]|?]. by right; left.
      * intros x q [[-> ->]|?]; [by left|by do 2 right].
      * done.
    + intros Hn. destruct (core_see _ _ _ _ C (proj1 HL) Hn) as (w2&C2&Hw2). apply call_bind.
      eapply call_mono; [apply (visit_wp _ w2 y r); [done|lia| |done|]|].
      * eapply closed_mono; [exact Cl| | | | |done].
        -- intros x q Hv Hs. unfold seen in Hs. cbn in Hs. apply elem_of_union in Hs as [Hs%elem_of_singleton|?]; [|by left].
           right. left. exact (bit_inj x q y r Hv (proj1 HL) Hs).
        -- intros x q. unfold seen. cbn. set_solver.
        -- intros x q [[]|?]. by right; left.
        -- intros x q [[-> ->]|?]; [left; unfold seen; cbn; set_solver|by do 2 right].
      * done.
      * intros k s' Hk. eapply IH; [|..|exact Hk]; lia.
  - destruct H as [-> Hs]. by apply call_ret.
Qed.

Abbreviation TrySearch := (TrySearch DEBUG_MODE base prog text tb te longest endmatch nsub ncap nvisited).

(** An attempt from [x0] at [p0]. *)
Lemma TrySearch_wp s : idle s -> cap_ s !! 0 = Some (Some p0) -> wp (TrySearch (Some x0) (Some p0)) attempt s.
Proof.
  intros [Ca Su N V R Dead] Ca0. unfold BitState.TrySearch. apply call_bind. unfold wp at 1, set_matched.
  apply call_bind. unfold wp at 1, set_job. cbn [submatch_ cap_ visited_ maxjob_ matched].
  set (s1 := MkBitState (submatch_ s) (cap_ s) (visited_ s) [] (maxjob_ s) false).
  destruct (inst_of_inside _ _ _ (se_complete _ _ HS) (proj1 H0)) as (ip&Hip&_). pose proof (op_at_inst _ _ _ Hip) as Ho.
  assert (HL : lead x0 p0) by (split; [done|]; split; [done|done]).
  assert (Cl1 : closed s1 none none).
  { intros x q Hv Hs. right. right. eapply settled_mono; [| |exact (Dead x q Hv Hs)]; [|done]. intros y r ?. by left. }
  assert (Hw1 : weight s1 <= 5 * npairs) by (unfold weight; cbn; lia).
  assert (C1 : forall m, (0 < m <= 2 ^ 30)%Z -> seen s1 x0 p0 \/ op_at prog x0 = Some kInstFail -> core (with_jobs [] m s1) (5 * npairs)).
  { intros m Hm Hst. split; try done. split; cbn; lia. }
  assert (Hrun : forall s2 w, core s2 w -> w <= 5 * npairs + 1 -> closed s2 none none -> wp (try_loop (5 * npairs + 8) NextJob) attempt s2).
  { intros s2 w C2 Hw Cl2. apply (try_loop_wp _ NextJob s2 w); [lia|lia|]. by split. }
  apply call_bind. change (BitState.pairs prog tb te) with npairs.
  assert (Hroom : room s1) by (split; cbn; lia).
  eapply Push_wp; [exact Hroom|cbn; lia|exact Hip| |].
  - intros m Hop [? ?]. apply (Hrun _ (5 * npairs)); [|lia|exact Cl1]. apply C1; [cbn in *; lia|]. right. rewrite Ho, Hop. done.
  - intros m Hop Hm Hl. rewrite decide_True by done. apply ShouldVisit_wp; [done|..].
    + intros Hs. apply (Hrun _ (5 * npairs)); [|lia|exact Cl1]. apply C1; [done|by left].
    + intros Hn. set (s2 := with_jobs [] m s1). assert (HV : forall b, b ∈ visited_ (see x0 p0 s2) -> (0 <= b < Z.of_nat npairs)%Z).
      { cbn. intros b [->%elem_of_singleton|?]%elem_of_union; [by apply bit_range|by apply V]. }
      apply (Hrun _ (5 * npairs + 1)); [|lia|].
      * split; try done; cbn.
        -- constructor; [|done]. exists x0. split; [done|]. left. split; [done|]. split; [|by exists p0].
           rewrite Ho. intros [= E]. apply Hop. by destruct (opcode_ ip).
        -- split; cbn; lia.
        -- change (weight (with_jobs (MkJob (Some x0) (Some p0) 0 :: job_ (see x0 p0 s2)) m (see x0 p0 s2)) <= 5 * npairs + 1).
           rewrite weight_push. change (job_weight (MkJob (Some x0) (Some p0) 0)) with 6. pose proof (size_below _ _ HV) as Hle.
           unfold weight. cbn [job_ see s2 with_jobs sum_list_with]. cbn [visited_ see s2 with_jobs] in *.
           rewrite size_union in Hle |- * by (unfold seen in Hn; cbn in *; set_solver). rewrite size_singleton in *. lia.
        -- left. unfold seen. cbn. set_solver.
      * eapply (offered_closed x0 p0 s2); [done|by right|done|]. exact Cl1.
Qed.
End start.

Abbreviation search_from := (search_from DEBUG_MODE base prog text tb te longest endmatch nsub ncap nvisited).

(** Attempts at one position after the other find the leftmost match. *)
Lemma search_from_wp x0 : inside D x0 -> forall n p s, idle s -> tb <= p -> p + n <= S te ->
  wp (search_from (Some x0) n p) (fun b s' => length (submatch_ s') = nsub
    /\ if b then exists i, p <= i < p + n /\ success x0 i s' /\ forall k e, p <= k < i -> ~ good x0 k e
       else forall k e, p <= k < p + n -> ~ good x0 k e) s.
Proof.
  intros Hx. induction n as [|n IH]; intros p s I Hp Hn; cbn [BitState.search_from].
  { apply call_ret. split; [apply I|]. intros k e Hk. lia. }
  apply call_bind, put_cap_wp; [pose proof (id_cap _ I); lia|]. apply call_bind.
  assert (I1 : idle (with_cap (<[Z.to_nat 0:=Some p]> (cap_ s)) s)).
  { destruct I as [Ca Su N V R Dead]. split; try done. cbn. by rewrite length_insert. }
  eapply call_mono; [apply (TrySearch_wp x0 p); [split; [done|lia]|exact I1|]|].
  { cbn. apply list_lookup_insert_eq. pose proof (id_cap _ I). lia. }
  intros [] s1 H1; cbn [attempt] in H1.
  - apply call_ret. split; [apply H1|]. exists p. split; [lia|]. split; [done|]. intros k e Hk. lia.
  - destruct H1 as [I2 Hno]. eapply call_mono; [apply (IH (S p) s1); [done|lia|lia]|]. intros [] s2 [Hl H2]; (split; [done|]).
    + destruct H2 as (i&Hi&Hs&Hk). exists i. split; [lia|]. split; [done|]. intros k e Hke. destruct (decide (k = p)) as [->|]; [apply Hno|apply Hk; lia].
    + intros k e Hke. destruct (decide (k = p)) as [->|]; [apply Hno|apply H2; lia].
Qed.
End search.
