(* ===== verification/BitStateSearch.v ===== *)
(** * From a regular expression to its match in a text

    [Prog::SearchBitState] of a compiled program finds what the regular
    expression matches; where the program can get to an instruction that
    fails, it can miss it. *)

From stdpp Require Import gmap fin_sets relations.
From S2P Require Import Prelude Rune Regexp RegexpSem Walker Simplify Prog Compile CompileSem CompileFrags Optimize Marks.
From S2P Require Import CompileSpans Compiled CompileProps BitState BitStateProps.

#[local] Open Scope nat_scope.

(** ** Programs that the search is for *)

(** No word goes to an instruction that fails, and the registers 0 and 1 are
    left to the whole match. *)
Definition goes_to_fail (prog : list Inst) (w : word) : bool :=
  match w with ToInst y => from_option (fun ip => is_Fail (opcode_ ip)) false (prog !! y) | _ => false end.

Definition inst_fits (prog : list Inst) (ip : Inst) : bool :=
  negb (goes_to_fail prog (out_ ip)) && negb (from_option (goes_to_fail prog) false (slot ip Out1))
  && match opcode_ ip with kInstCapture cap => bool_decide (2 <= cap)%Z | _ => true end.

Definition fits (prog : list Inst) : bool := forallb (inst_fits prog) prog.

Lemma fits_at prog x ip : fits prog = true -> prog !! x = Some ip -> inst_fits prog ip = true.
Proof. unfold fits. rewrite forallb_forall. intros H Hip. apply H, list_elem_of_In. by eapply list_elem_of_lookup_2. Qed.

Lemma goes_to_fail_spec prog y : goes_to_fail prog (ToInst y) = false -> op_at prog y <> Some kInstFail.
Proof. unfold op_at. cbn. destruct (prog !! y) as [ip|]; [|done]. cbn. destruct (opcode_ ip); try done. Qed.

Lemma fits_searchable D p s : complete D (prog_insts p) -> inside D s -> marks_true (prog_insts p) ->
  (forall x lo hi fold, op_at (prog_insts p) x = Some (kInstByteRange lo hi fold) -> (0 <= lo)%Z) ->
  fits (prog_insts p) = true -> searchable D (prog_insts p).
Proof.
  intros C Hs M L F. split; [done|done| |done|].
  - intros x f y _ Ht. unfold target in Ht. cbn in Ht. destruct (prog_insts p !! x) as [ip|] eqn:Hip; [|done]. cbn in Ht.
    apply fits_at in Hip; [|done]. unfold inst_fits in Hip. apply andb_true_iff in Hip as [[H0%negb_true_iff H1%negb_true_iff]%andb_true_iff _].
    apply goes_to_fail_spec. destruct f; [cbn in Ht; by injection Ht as <-|by rewrite Ht in H1].
  - intros x cap _ (ip&Hip&Hk)%op_at_lookup. apply fits_at in Hip; [|done]. unfold inst_fits in Hip.
    apply andb_true_iff in Hip as [_ H]. destruct (opcode_ ip); try done. cbn in Hk. injection Hk as ->. by apply bool_decide_eq_true in H.
Qed.

Section search.
Context (DEBUG_MODE : bool) (base : Z).

(** ** [Search] *)

Section program.
Context (p : Prog) (D : gset nat) (start : nat).
Hypotheses (HS : searchable D (prog_insts p)) (Hstart : start_ p = Some start) (HD : inside D start).
Context (before text after : bytes).

Let context_ : bytes := before ++ text ++ after.
Let tb : nat := length before.
Let te : nat := length before + length text.

(** The matches of the program within the text. *)
Definition found_at (anchored : bool) (i j : nat) : Prop := tb <= i /\ j <= te /\ accepts context_ (prog_insts p) start i j
  /\ (anchor_start_ p = true -> i = 0) /\ (anchor_end_ p = true -> j = length context_) /\ (anchored = true -> i = tb).

Lemma accepts_le i j : accepts context_ (prog_insts p) start i j -> i <= j.
Proof. apply accepts_mono. Qed.

(** The answer of [Search]. *)
Definition answers (anchored longest : bool) (nsub : nat) (found : bool) (sub : list StringPiece) : Prop :=
  length sub = nsub /\ if found then
    exists i j, found_at anchored i j /\ (forall i' j', found_at anchored i' j' -> i <= i')
      /\ (nsub <> 0 -> sub !! 0 = Some (Some i, Z.of_nat (j - i))
        /\ (longest = true -> forall j', found_at anchored i j' -> j' <= j))
  else forall i j, ~ found_at anchored i j.

(** The rows and the words of the bitmap. *)
Lemma row_text : row tb te = S (length text).
Proof. unfold row, te, tb. lia. Qed.

Lemma npairs_text : npairs (prog_insts p) tb te = length (prog_insts p) * S (length text).
Proof. unfold npairs. by rewrite row_text. Qed.

Lemma bitmap_words : (Z.of_nat (npairs (prog_insts p) tb te) <= 2 ^ 28)%Z ->
  swrap 32 ((Z.of_nat (length (prog_insts p)) * (Z.of_nat (length text) + 1) + VisitedBits - 1) `quot` VisitedBits)
  = ((Z.of_nat (npairs (prog_insts p) tb te) + 31) `quot` 32)%Z.
Proof.
  rewrite npairs_text. intros HN. unfold VisitedBits.
  replace (Z.of_nat (length (prog_insts p)) * (Z.of_nat (length text) + 1) + 32 - 1)%Z
    with (Z.of_nat (length (prog_insts p) * S (length text)) + 31)%Z by lia.
  set (z := (Z.of_nat (length (prog_insts p) * S (length text)) + 31)%Z). rewrite Z.quot_div_nonneg by lia.
  apply swrap_small; [done|]. pose proof (Z.div_pos z 32). pose proof (Z.div_le_upper_bound z 32 (2 ^ 28)). unfold in_int, int_min, int_max. cbn in *. lia.
Qed.

(** The state that [Search] sets up. *)
Definition fresh (nsub : nat) (ncap : Z) : BitState :=
  MkBitState (replicate nsub (None, 0%Z)) (replicate (Z.to_nat ncap) None) ∅ [] 256 false.

Lemma fresh_idle endmatch nsub ncap : (2 <= ncap)%Z -> idle D (prog_insts p) context_ tb te endmatch nsub ncap (fresh nsub ncap).
Proof.
  intros Hc. split; cbn.
  - rewrite length_replicate. lia.
  - apply length_replicate.
  - intros Hn. exists 0%Z. apply lookup_replicate. split; [done|lia].
  - intros b []%not_elem_of_empty.
  - lia.
  - intros x q _ Hs. unfold seen in Hs. cbn in Hs. by apply not_elem_of_empty in Hs.
Qed.

(** Past the tests for anchors. *)
Section unrefused.
Context (anchored longest : bool) (nsub : nat) (ncap nv : Z).
Hypotheses (Hstart_anchor : anchor_start_ p = true -> before = []) (Hend_anchor : anchor_end_ p = true -> after = []).
Hypotheses (HN : (Z.of_nat (npairs (prog_insts p) tb te) <= 2 ^ 28)%Z) (Hnv : nv = ((Z.of_nat (npairs (prog_insts p) tb te) + 31) `quot` 32)%Z).
Hypothesis (Hncap : (2 <= ncap)%Z /\ (2 * Z.of_nat nsub <= ncap)%Z).

Lemma found_at_good i j : found_at anchored i j <-> good (prog_insts p) context_ te (anchor_end_ p) start i j /\ tb <= i
  /\ (anchored || anchor_start_ p = true -> i = tb).
Proof.
  assert (HA : anchor_end_ p = true -> te = length context_).
  { intros E. unfold te, context_. rewrite (Hend_anchor E), !length_app. cbn. lia. }
  assert (HB : anchor_start_ p = true -> 0 = tb) by (intros E; unfold tb; by rewrite (Hstart_anchor E)).
  unfold found_at, good. split.
  - intros (H1&H2&H3&H4&H5&H6). pose proof (accepts_le _ _ H3). split_and!; [lia|lia|done| |done|].
    + intros E. rewrite (H5 E), (HA E). done.
    + intros [E|E]%orb_true_iff; [auto|]. by rewrite (H4 E), <- (HB E).
  - intros ((H1&H2&H3)&H4&H5). split_and!; [done|lia|done| | |].
    + intros E. rewrite H5 by (rewrite E; apply orb_true_r). by rewrite <- (HB E).
    + intros E. rewrite (H3 E). auto.
    + intros ->. by apply H5.
Qed.

Lemma text_within : tb <= te <= length context_.
Proof. unfold tb, te, context_. rewrite !length_app. lia. Qed.

Abbreviation TrySearch := (TrySearch DEBUG_MODE base (prog_insts p) context_ tb te longest (anchor_end_ p) nsub ncap nv).
Abbreviation search_from := (search_from DEBUG_MODE base (prog_insts p) context_ tb te longest (anchor_end_ p) nsub ncap nv).

Lemma anchored_answers : anchored || anchor_start_ p = true ->
  wp (put_cap 0 (Some tb);; TrySearch (start_ p) (Some tb)) (fun found s => answers anchored longest nsub found (submatch_ s)) (fresh nsub ncap).
Proof.
  intros Ea. pose proof (fresh_idle (anchor_end_ p) nsub ncap (proj1 Hncap)) as I0. pose proof text_within.
  apply call_bind, put_cap_wp; [rewrite (id_cap _ _ _ _ _ _ _ _ _ I0); lia|]. rewrite Hstart. eapply call_mono.
  - apply (TrySearch_wp DEBUG_MODE base D (prog_insts p) context_ tb te longest (anchor_end_ p) nsub ncap nv HS text_within HN Hnv Hncap start tb);
      [split; [done|lia]|destruct I0 as [Ca Su N V R Dead]; split; try done; cbn [cap_ with_cap]; by rewrite length_insert|].
    cbn [cap_ with_cap]. apply list_lookup_insert_eq. pose proof (id_cap _ _ _ _ _ _ _ _ _ I0). lia.
  - intros [] s Hr; cbn [attempt] in Hr.
    + destruct Hr as (Hl&e&Hg&Hrest). split; [done|]. exists tb, e. split; [by apply found_at_good|].
      split; [by intros i' j' [? _]|]. intros Hn. destruct (Hrest Hn) as [Hs Hlong]. split; [done|]. intros E j' [? _]%found_at_good. by apply Hlong.
    + destruct Hr as [I Hno]. split; [apply I|]. intros i j (Hg&_&Hi)%found_at_good. rewrite (Hi Ea) in Hg. by apply Hno in Hg.
Qed.

Lemma unanchored_answers : anchored || anchor_start_ p = false ->
  wp (search_from (start_ p) (S (length text)) tb) (fun found s => answers anchored longest nsub found (submatch_ s)) (fresh nsub ncap).
Proof.
  intros Ea. rewrite Hstart. eapply call_mono.
  - apply (search_from_wp DEBUG_MODE base D (prog_insts p) context_ tb te longest (anchor_end_ p) nsub ncap nv HS text_within HN Hnv Hncap start HD);
      [apply fresh_idle; lia|done|unfold te, tb; lia].
  - assert (Hin : forall i j, good (prog_insts p) context_ te (anchor_end_ p) start i j -> i <= te) by (intros i j (?&_); lia).
    intros [] s [Hl Hr]; (split; [done|]).
    + destruct Hr as (i&Hi&(_&e&Hg&Hrest)&Hleft). exists i, e. split; [apply found_at_good; split_and!; [done|lia|by rewrite Ea]|]. split.
      * intros i' j' (Hg'&Hi'&_)%found_at_good. destruct (decide (i <= i')) as [|Hlt]; [done|]. exfalso. apply (Hleft i' j'); [lia|done].
      * intros Hn. destruct (Hrest Hn) as [Hs Hlong]. split; [done|]. intros E j' [? _]%found_at_good. by apply Hlong.
    + intros i j (Hg&Hi&_)%found_at_good. apply (Hr i j); [|done]. specialize (Hin _ _ Hg). unfold te, tb in *. lia.
Qed.
End unrefused.

Lemma Search_answers context anchored longest submatch :
  from_option id ([], []) context = (before, after) ->
  (Z.of_nat (length (prog_insts p) * S (length text)) <= 2 ^ 28)%Z -> (Z.of_nat (length submatch) <= 2 ^ 28)%Z ->
  exists found sub, Search DEBUG_MODE base p text context anchored longest submatch = Ret (found, sub)
    /\ answers anchored (longest || anchor_end_ p) (length submatch) found sub.
Proof.
  intros Hctx HN Hsub. unfold Search. rewrite Hctx. rewrite <- npairs_text in HN.
  destruct (anchor_start_ p && bool_decide (before <> [])) eqn:Ea.
  { apply andb_true_iff in Ea as [Ea Hb%bool_decide_eq_true]. exists false, submatch. split; [done|]. split; [done|].
    intros i j (Hi&_&_&H0&_). specialize (H0 Ea). destruct before; [done|]. unfold tb in Hi. cbn in Hi. lia. }
  destruct (anchor_end_ p && bool_decide (after <> [])) eqn:Ee.
  { apply andb_true_iff in Ee as [Ee Hb%bool_decide_eq_true]. exists false, submatch. split; [done|]. split; [done|].
    intros i j (_&Hj&_&_&H0&_). specialize (H0 Ee). unfold te, context_ in *. rewrite !length_app in H0. destruct after; [done|]. cbn in H0. lia. }
  assert (HB : anchor_start_ p = true -> before = []).
  { intros E. rewrite E in Ea. cbn in Ea. by apply bool_decide_eq_false, dec_stable in Ea. }
  assert (HA : anchor_end_ p = true -> after = []).
  { intros E. rewrite E in Ee. cbn in Ee. by apply bool_decide_eq_false, dec_stable in Ee. }
  assert (Hpos : 0 < length (prog_insts p)) by (pose proof (co_nodes _ _ (se_complete _ _ HS) _ HD); lia).
  cbv zeta. rewrite (int_small (Z.of_nat (length text) + 1)) by (rewrite npairs_text in HN; nia). cbn [mbind outcome_bind].
  rewrite (int_small (2 * Z.of_nat (length submatch))) by lia. cbn [mbind outcome_bind].
  rewrite bitmap_words by done. match goal with |- context [if decide ?x then 2%Z else ?y] => set (ncap := if decide x then 2%Z else y) end.
  assert (Hncap : (2 <= ncap)%Z /\ (2 * Z.of_nat (length submatch) <= ncap)%Z) by (unfold ncap; case_decide; lia).
  fold context_ te tb (fresh (length submatch) ncap). destruct (anchored || anchor_start_ p) eqn:Eanch.
  - destruct (call_run _ _ _ (anchored_answers anchored (longest || anchor_end_ p) _ ncap _ HB HA HN eq_refl Hncap Eanch)) as (found&s&->&H).
    by exists found, (submatch_ s).
  - destruct (call_run _ _ _ (unanchored_answers anchored (longest || anchor_end_ p) _ ncap _ HB HA HN eq_refl Hncap Eanch)) as (found&s&->&H).
    by exists found, (submatch_ s).
Qed.

(** ** [SearchBitState] *)

Definition is_full (kind : MatchKind) : bool := match kind with kFullMatch => true | _ => false end.
Definition is_anchored (anchor : Anchor) : bool := match anchor with kAnchored => true | kUnanchored => false end.

(** The matches a call may give. *)
Definition wanted_at (anchor : Anchor) (kind : MatchKind) (i j : nat) : Prop :=
  found_at (is_full kind || is_anchored anchor) i j /\ (is_full kind = true -> j = te).

Lemma piece_end_at i j : i <= j -> piece_end base (Some i, Z.of_nat (j - i)) = address base (Some j).
Proof. intros H. unfold piece_end, address. cbn. lia. Qed.

Lemma SearchBitState_answers context anchor kind match_ :
  from_option id ([], []) context = (before, after) ->
  (Z.of_nat (length (prog_insts p) * S (length text)) <= 2 ^ 28)%Z -> (Z.of_nat (length match_) <= 2 ^ 28)%Z ->
  exists found sub, SearchBitState DEBUG_MODE base p text context anchor kind match_ = Ret (found, sub)
    /\ (found = true <-> exists i j, wanted_at anchor kind i j)
    /\ (found = true -> match_ <> [] -> exists i j, wanted_at anchor kind i j /\ sub !! 0 = Some (Some i, Z.of_nat (j - i))
      /\ (forall i' j', wanted_at anchor kind i' j' -> i <= i')
      /\ (kind <> kFirstMatch -> forall j', wanted_at anchor kind i j' -> j' <= j)).
Proof.
  intros Hctx HN Hm. unfold SearchBitState, wanted_at. fold (is_full kind) (is_anchored anchor).
  remember (is_full kind || is_anchored anchor) as anchored eqn:Eanch.
  set (longest := match kind with kFirstMatch => false | _ => true end).
  set (sub0 := if is_full kind && bool_decide (match_ = []) then [(None, 0%Z)] else match_).
  assert (Hsub0 : (Z.of_nat (length sub0) <= 2 ^ 28)%Z) by (unfold sub0; destruct (_ && _); [cbn; lia|done]).
  assert (Hsp : match_ <> [] -> is_full kind && bool_decide (match_ = []) = false /\ length sub0 <> 0).
  { intros Hne. unfold sub0. rewrite bool_decide_false by done. rewrite andb_false_r. split; [done|]. by destruct match_. }
  destruct (Search_answers context anchored longest sub0 Hctx HN Hsub0) as (found&sub&->&Hlen&H). cbn [mbind outcome_bind].
  destruct found; cbn [negb]; [|by exists false; eexists; split; [done|]; split; [|done]; split; [done|]; intros (i&j&Hw%H&_)].
  destruct H as (i&j&Hf&Hleft&Hbest). destruct (is_full kind) eqn:Ek.
  - assert (Hn : length sub0 <> 0) by (unfold sub0; destruct match_; done).
    destruct (Hbest Hn) as [Hs Hlong]. specialize (Hlong ltac:(by destruct kind)). rewrite Hs. cbn [from_option_or mbind outcome_bind].
    assert (Htb : length (from_option fst [] context) = tb) by (destruct context as [[b a]|]; injection Hctx as E1 E2; unfold tb; by rewrite <- E1).
    rewrite Htb, piece_end_at by (by apply accepts_le, Hf).
    assert (Hi : forall i' j', found_at anchored i' j' -> i' = i).
    { intros i' j' (_&_&_&_&_&Hw). destruct Hf as (_&_&_&_&_&Hf). rewrite Hw, Hf; done. }
    pose proof (proj1 (proj2 Hf)) as Hj. destruct (decide (j = te)) as [->|Hne].
    + rewrite decide_False by (by intros []). exists true. eexists. split; [done|]. split; [split; [by exists i, te|done]|].
      intros _ Hne. destruct (Hsp Hne) as [-> _]. exists i, te. split_and!; [done|done|done|by intros i' j' [Hw _]; eapply Hleft|]. intros _ j' [_ Hj']. by rewrite Hj'.
    + rewrite decide_True by (unfold address, te, tb in *; lia). exists false. eexists. split; [done|]. split; [|done]. split; [done|].
      intros (i'&j'&[Hw Hj']). specialize (Hj' eq_refl). subst j'. pose proof (Hi _ _ Hw) as ->. specialize (Hlong _ Hw). lia.
  - exists true. eexists. split; [done|]. split; [split; [by exists i, j|done]|]. intros _ Hne. destruct (Hsp Hne) as [_ Hn].
    destruct (Hbest Hn) as [Hs Hlong]. exists i, j. split_and!; [done|done|done|by intros i' j' [Hw _]; eapply Hleft|].
    intros Hk j' [Hw _]. apply Hlong; [|done]. by destruct kind.
Qed.
End program.

(** ** Properties *)

Context (sizeof_Prog sizeof_Inst : Z) (Hsize : (0 < sizeof_Inst)%Z).

(** What a call for [re] may find in [text], given what surrounds it. *)
Definition wanted (latin1 : bool) (re : Regexp) (before text after : bytes) (anchor : Anchor) (kind : MatchKind) (i j : nat) : Prop :=
  length before <= i <= length before + length text /\ j <= length before + length text /\ matches latin1 (before ++ text ++ after) re i j
  /\ (anchor = kAnchored \/ kind = kFullMatch -> i = length before) /\ (kind = kFullMatch -> j = length before + length text).

End search.

(** [(?:a\x{E9}|c+)\z], forwards. *)
Definition forward_program : Prog :=
  match Compile 560 40 (fun _ _ => false) some_regexp false 0 with Ret (Some p) => p | _ => some_program end.

Example forward_found : SearchBitState true 4096 forward_program (B "xccc") (Some (B "b", [])) kUnanchored kLongestMatch [(None, 0%Z)]
  = Ret (true, [(Some 2, 3%Z)]).
Proof. by vm_compute. Qed.


(** ** An instruction that fails *)

(** [(?:[^\x00-\x{10FFFF}])*a] *)
Definition with_empty_class : Regexp :=
  Concat [Regexp.Star (NewCharClass CharClass.new_CharClass 0) 0; set_simple true (NewLiteral 97 0)] 0.

(** The class is compiled to the instruction that fails, and the search, which
    gets there by [CheckAndLoop] and not by [Push], gives up instead of trying
    the other alternative: it misses the match of [a], or aborts. *)
Lemma failing_instruction_hides_match : exists p, Compile 560 40 (fun _ _ => false) with_empty_class false 0 = Ret (Some p)
  /\ fits (prog_insts p) = false /\ matches false (B "a") with_empty_class 0 1
  /\ SearchBitState false 4096 p (B "a") None kUnanchored kFirstMatch [(None, 0%Z)] = Ret (false, [(None, 0%Z)])
  /\ SearchBitState true 4096 p (B "a") None kUnanchored kFirstMatch [(None, 0%Z)] = Throw AssertFailed.
Proof.
  eexists. split; [vm_compute; reflexivity|]. split; [by vm_compute|]. split; [|split; by vm_compute].
  exists 0. split; [apply rtc_refl|]. exists 1. split; [|done].
  exists 97%Z. split; [by vm_compute|]. split; [by left|]. split; [by exists []|done].
Qed.
